(* ===== verification/_CoqProject ===== *)
-Q . S2P
Prelude.v
Words.v
Constants.v
Instr.v
Link.v
Smt.v
SmtTerm.v
Expr.v
Record.v
Denote.v
Branch.v
Encode.v
Action.v
Bits.v
Alu.v
EncodeSound.v
CondSound.v
ActionSound.v
Block.v
StackSound.v
MergeSound.v
Cfg.v
CfgSound.v
Prune.v
Worklist.v
PruneSound.v
TopoSound.v
ReachSound.v
Dce.v
Tracker.v
Frame.v
Identity.v
TrackProg.v
TrackerSound.v
FactSound.v
AccessSound.v
Slice.v
SliceSound.v
SliceFold.v
Pystr.v
Spec.v
SpecSound.v
SpecInput.v
Forward.v
ForwardMerge.v
ForwardSound.v
ForwardExamples.v
Witness.v
WitnessSound.v
Checker.v
CheckerSound.v
CheckerExamples.v
SlicePath.v
Btf.v
BtfSound.v
Loader.v
LoaderSound.v
Program.v
ProgramSound.v
ProgramExamples.v
Cost.v
Tail.v
Text.v
Facts.v
FactsSound.v
TextSound.v
Scaffold.v
ScaffoldSound.v
Render.v
Cli.v
CliSound.v
Stages.v
StagesSound.v
WitnessText.v
WitnessTextSound.v
CallRecords.v
CallIndex.v
IdentitySound.v
RenderSound.v
FactsAtoms.v
