(* ===== verification/Prelude.v ===== *)
(** * HorNET: a verification development

    HorNET ([src/hornet]) analyses an eBPF/XDP program: it loads the object file,
    links it with its tail-call targets, builds the control-flow graph, interprets
    every block once symbolically, and checks a specification against all paths at
    once with an SMT solver. This library models those stages as they are written
    and proves what each one promises to the next.

    ** The stages

    - [bpf/loader.py] -> [Loader], [Btf]: instruction slots, map definitions (both
      formats), type information, globals and relocations of an ELF file. The ELF
      library is the class [Elf].
    - [bpf/instr.py], [bpf/constants.py] -> [Instr], [Constants]: the decoder of one
      slot, opcode tables, [arith] and [swap_jmp_code]; [isa_alu] is the reference
      semantics of the instruction set.
    - [bpf/link.py] -> [Link]: [link], with [_merge_maps], [_merge_globals], [_retag];
      [Tail]: the text of [--tail] options.
    - [bpf/cfg.py] -> [Cfg]: leaders, blocks, [_connect], the tracing order.
    - [track/expr.py] -> [Expr], [Branch]: symbolic values, their equality and their
      smart constructors; evaluation of a test at a helper's result. [Text]: their
      printed form, and that of conditions and actions.
    - [track/record.py] -> [Record]: [may_alias].
    - [track/encode.py] -> [Encode] (expressions, [Z3State]) and [Action] (the
      [to_z3] methods of conditions and actions).
    - [track/block.py] -> [Block]: registers, stack, entry states and the merge of
      the predecessors.
    - [track/dce.py] -> [Dce]: the phis that are used, and dropping the others;
      [Worklist] is the search it shares with [Cost].
    - [track/tracker.py] -> [Tracker]: one operation per class of instruction, and the
      loop over the blocks.
    - [verify/prune.py] -> [Prune]; [verify/slice.py] -> [Slice];
      [verify/spec.py] -> [Pystr] (Python text), [Spec];
      [verify/forward.py] -> [Forward]; [verify/checker.py] -> [Checker];
      [verify/witness.py] -> [Witness], [Stages], its pipeline view, and [WitnessText],
      what is printed of it and of the results; [verify/cost.py] -> [Cost].
    - [program.py] -> [Program]: the program object, its stages and what each of them
      invalidates, [verify], [reachability], [dead_blocks].
    - [report/facts.py] -> [Facts]; [report/render.py] -> [Render];
      [report/scaffold.py] -> [Scaffold]: what is known of a program, the text and
      JSON reports on it, and the specification skeleton made from it.
    - [cli.py] -> [Cli]: arguments, outputs and the exit code.

    Definitions keep the names of the code. A class is a [Record] or an [Inductive]
    with the class's fields, a method a function of the state it reads and changes.
    A Python exception is a value of [err]; code that can raise returns [res]. Code
    that allocates objects or mutates a block runs in the monad [ST] below. Python
    integers are [Z]; a machine word is a [Z] with its wrap-around ([wrap]) written
    out. An object carries the identity ([oid]) it was allocated with, so [is],
    [id()] and the memo tables keyed by it are what they are in the code.

    ** What is not under [src/]

    - The solver's Python package: the class [SMT] ([Smt]) has its term constructors
      and the value of a term in a model; [SMTLaws] states the SMT-LIB theory of bit
      vectors and arrays. [SmtTerm] implements both, and every witness computes with
      it. [Solver] and [SolverLaws] ([Checker], [CheckerSound]): a [sat] answer comes
      with a model of the assertions, an [unsat] answer with none; [unknown] promises
      nothing. [SmtAst] gives a term its identity and its children, [SmtApp] ([Cost])
      the function a term applies, [SameTerm] says when two terms are one object.
    - The packet library: [Scapy] ([Spec]) turns the text of a packet expression into
      bytes, [Dissect] ([WitnessText]) a packet into its summary.
    - The ELF library: [Elf] ([Loader]).

    ** What the theorems show

    - _Expressions_ ([Denote], [Alu], [EncodeSound], [CondSound], [ActionSound]): the
      value [den] gives an expression in a world is the instruction set's; the smart
      constructors preserve it, [expr_to_z3] encodes it in every model and is total
      on well-formed expressions, a condition is true when the jump is taken, an
      action changes exactly the bytes it writes.
    - _Blocks_ ([StackSound], [MergeSound]): the symbolic stack is a byte memory; a
      merge means, whichever predecessor was taken, what that predecessor's state
      meant.
    - _Graph_ ([CfgSound], [PruneSound], [TopoSound], [ReachSound]): blocks
      partition the program, edges are the machine's control transfers,
      traversals compute what they stand for, the reach condition of a block is that
      of the paths leading to it.
    - _Tracker_ ([TrackerSound], [FactSound], [AccessSound], [Frame], [TrackProg]): an
      ALU instruction computes the machine's value, the facts left on an edge hold on
      the edge taken, memory is accessed through non-null pointers to regions that
      allow it, calls follow the calling convention; one pass over the blocks solves
      the data-flow equations, and a cycle that avoids block 0 is refused. [Frame] says
      what each operation leaves alone: a relation between states that some basic
      operations keep ([BlockFrame], [StoreFrame], [OutFrame], [FullFrame]) is kept by
      every operation built from them, and instances find the proofs. [Identity] runs
      the same operations with a store of objects ([Yields]), and [IdentitySound] has
      it that identities tell the values of an analysed program apart, the assumption
      of what keys a table by [id(o)].
    - _Calls_ ([CallRecords], [CallIndex]): tracking an instruction records at most
      one call, under its number; the call index of an analysed program finds exactly
      the calls recorded.
    - _Phis_ ([Dce]): exactly the phis nothing reaches are dropped.
    - _Memory_ ([SliceSound], [SliceFold], [SlicePath]): a resolved read is a read of
      the memory left by running the blocks of the path the model takes, edge by edge,
      where block numbers increase along it ([SlicePath.backward_jump_misread] shows
      what happens where they do not).
    - _Specification_ ([SpecSound], [SpecInput]): a condition's formula is true in a
      model exactly when the condition holds there; an input fixes what it names.
    - _Verdicts_ ([ForwardMerge], [ForwardSound], [ForwardExamples], [CheckerSound],
      [CheckerExamples], [WitnessSound], [StagesSound], [WitnessTextSound], [Cost]): the
      walk over the blocks is every path's execution at once; a condition reported to
      hold does so on every path of every model, a violation comes with a model whose path leads to the block and makes
      the condition false, and the printed counterexample is that model's path and
      packet, its pipeline view that model's run; the size reported of a query is the
      number of its distinct terms ([Cost]).
    - _Object files_ ([LoaderSound], [BtfSound], [Tail]): what was written is read
      back.
    - _The whole tool_ ([ProgramSound], [ProgramExamples], [CliSound]): the stages keep
      a program consistent whatever the order they are run in, so that the verdicts'
      theorems hold from the object files to the results of
      [verify] and to the exit code.
    - _Reports_ ([FactsSound], [TextSound], [RenderSound], [ScaffoldSound],
      [FactsAtoms]): back edges and return codes are exact, a printed
      expression is the expression, with exactly the nodes used twice named, the JSON
      report loses no fact, the parser accepts the skeleton as it is and with its block
      conditions turned on, and reads an atom the reports offer as a statement about the
      call it was offered for, or the bytes as the block's last read of them has them.

    [Words] and [Bits] hold the arithmetic of bytes and bit fields the proofs share.

    ** Fuel

    Loops with an explicit stack or worklist ([worklist], [topo_go] of [Prune]) take
    as fuel a bound on their steps, twice the edges plus the nodes; [PruneSound] and
    [TopoSound] show it suffices on every graph. The merge of two blocks' entries
    recurses on nested phis; [MergeSound.merge_entry_terminates] shows that its fuel
    is never exhausted. [present] and [_applies] of [Slice] call each other;
    [SliceFold.present_terminates] gives the fuel an acyclic program needs. The
    readers of [Forward] take the interpreter's recursion limit ([e_depth]), and
    raise when it is exceeded as the interpreter does. The fuel of the type graph's
    size ([_btf_type_size]) bounds the same recursion.

    The searches of the reports take the edges plus the blocks ([dfs_fuel]) and the
    nodes of the expression ([alu_size]); [FactsSound.back_edges_exact] and
    [TextSound.shared_of_ok] show that they always end. The search for live phis takes
    the sizes of the values it starts from ([Dce.tree_size]), the count of a query's
    terms as many turns as its terms have arguments ([Worklist.walk_sized],
    [Worklist.walk_listed]).

    ** Not modelled

    - Logging: what [verbose] runs print of instructions, calls and maps, and the
      messages on the standard error. Texts are those of ASCII names; the layout
      [json.dump] gives a document is not part of [Cli].
    - Caches whose hit returns what an earlier call with the same arguments computed
      ([Memory._cache], the readers' caches of [verify/forward.py], the facts of
      [program.py]), and the hashes of expressions, which only speed [==] up.
    - Times ([timings] is the list of the stages done), [argparse], and the
      demonstration run of [program.py]. [Goto] of [track/encode.py], which nothing
      constructs. *)

From Stdlib Require Export ZArith Lia.
From stdpp Require Export base option gmap strings pretty numbers.
From stdpp Require Export list.

Global Open Scope Z_scope.

(** ** Errors and results

    A Python exception is a value of [err]: the exception's class and the fixed
    part of its message. *)

Inductive err :=
| AssertionError
| AttributeError
| KeyError
| IndexError
| TypeError
| ValueError (msg : string)
| OverflowError
| RuntimeError (msg : string)
| OSError
| LinkError (msg : string)
| SpecError (msg : string)
| CliError (msg : string)
| ExceptionErr (msg : string)
| SystemExit.

Inductive res (A : Type) :=
| Ok (a : A)
| Err (e : err).
Arguments Ok {A} _.
Arguments Err {A} _.

#[global] Instance res_ret : MRet res := λ A a, Ok a.
#[global] Instance res_bind : MBind res := λ A B f m,
  match m with Ok a => f a | Err e => Err e end.
#[global] Instance res_fmap : FMap res := λ A B f m,
  match m with Ok a => Ok (f a) | Err e => Err e end.

Definition is_Ok {A} (r : res A) : bool :=
  match r with Ok _ => true | Err _ => false end.

(** [assert b] and [if not b: raise e]. *)
Definition guard_or (b : bool) (e : err) : res unit := if b then Ok tt else Err e.

Definition of_option {A} (e : err) (o : option A) : res A :=
  match o with Some a => Ok a | None => Err e end.

Section iterR.
Context {A B : Type} (f : A → res B) (g : B → A → res B).
Fixpoint mapR (l : list A) : res (list B) :=
  match l with
  | [] => Ok []
  | a :: l' => b ← f a; bs ← mapR l'; Ok (b :: bs)
  end.

Fixpoint foldR (b : B) (l : list A) : res B :=
  match l with
  | [] => Ok b
  | a :: l' => b' ← g b a; foldR b' l'
  end.
End iterR.

(** ** A state and error monad

    [ST S A]: a computation on a mutable state [S] that returns or raises. *)

Definition ST (S A : Type) : Type := S → res (A * S).

#[global] Instance ST_ret S : MRet (ST S) := λ A a s, Ok (a, s).
#[global] Instance ST_bind S : MBind (ST S) := λ A B f m s,
  match m s with Ok (a, s') => f a s' | Err e => Err e end.

Definition lift {S A} (r : res A) : ST S A := λ s,
  match r with Ok a => Ok (a, s) | Err e => Err e end.
Definition raise {S A} (e : err) : ST S A := λ _, Err e.
Definition get {S} : ST S S := λ s, Ok (s, s).
Definition gets {S A} (f : S → A) : ST S A := λ s, Ok (f s, s).
Definition put {S} (s : S) : ST S unit := λ _, Ok (tt, s).
Definition modify {S} (f : S → S) : ST S unit := λ s, Ok (tt, f s).

Section iterST.
Context {S A B : Type} (f : A → ST S B) (g : B → A → ST S B).
Fixpoint mapST (l : list A) : ST S (list B) :=
  match l with
  | [] => mret []
  | a :: l' => b ← f a; bs ← mapST l'; mret (b :: bs)
  end.

Fixpoint foldST (b : B) (l : list A) : ST S B :=
  match l with
  | [] => mret b
  | a :: l' => b' ← g b a; foldST b' l'
  end.
End iterST.

(** ** Allocation of object identities

    The program compares expression objects with [is] and keys tables by
    [id(o)]; every object of the model carries the identity it was allocated
    with.  A state that can allocate is an instance of [Alloc]. *)

Class Alloc (S : Type) := {
  next_oid : S → Z;
  set_oid : Z → S → S
}.

Class AllocLaws (S : Type) `{Alloc S} : Prop := {
  next_set : ∀ z s, next_oid (set_oid z s) = z
}.

Definition fresh {S} `{Alloc S} : ST S Z := λ s,
  Ok (next_oid s, set_oid (next_oid s + 1) s).

#[global] Instance alloc_Z : Alloc Z := {| next_oid := λ z, z; set_oid := λ z _, z |}.
#[global] Instance alloc_Z_laws : AllocLaws Z.
Proof. split. done. Qed.

(** ** Python integers and containers *)

(** [l[i]] with Python's negative indices. *)
Definition py_index {A} (l : list A) (i : Z) : res A :=
  let n := Z.of_nat (length l) in
  let j := if i <? 0 then i + n else i in
  if (j <? 0) || (n <=? j) then Err IndexError
  else of_option IndexError (l !! Z.to_nat j).

(** [l[i] = x]. *)
Definition py_setitem {A} (l : list A) (i : Z) (x : A) : res (list A) :=
  let n := Z.of_nat (length l) in
  let j := if i <? 0 then i + n else i in
  if (j <? 0) || (n <=? j) then Err IndexError
  else Ok (<[Z.to_nat j := x]> l).

(** [list(range(a, b))]. *)
Definition zrange (a b : Z) : list Z := seqZ a (b - a).

(** A dict: an association list in insertion order. *)
Section pdict.
Context {K V : Type} `{EqDecision K}.

Fixpoint pget (d : list (K * V)) (k : K) : option V :=
  match d with
  | [] => None
  | (k', v) :: d' => if decide (k = k') then Some v else pget d' k
  end.

Fixpoint pset (d : list (K * V)) (k : K) (v : V) : list (K * V) :=
  match d with
  | [] => [(k, v)]
  | (k', v') :: d' => if decide (k = k') then (k', v) :: d' else (k', v') :: pset d' k v
  end.

Definition pmem (d : list (K * V)) (k : K) : bool := bool_decide (is_Some (pget d k)).

Lemma pget_pset d k v k' : pget (pset d k v) k' = if decide (k' = k) then Some v else pget d k'.
Proof. induction d as [|[q w] d IH]; simpl; repeat case_decide; simplify_eq; simpl;
  repeat case_decide; simplify_eq; try done; auto. Qed.

Lemma pget_elem d k v : pget d k = Some v → (k, v) ∈ d.
Proof. induction d as [|[q w] d IH]; simpl; [done|]. case_decide; intros; simplify_eq; [left|right; auto]. Qed.

Lemma pset_keys d k v q : q ∈ map fst (pset d k v) ↔ q = k ∨ q ∈ map fst d.
Proof.
  induction d as [|[q' w] d IH]; simpl; [by rewrite elem_of_cons|].
  case_decide; simpl; rewrite !elem_of_cons; [subst; tauto|rewrite IH; tauto].
Qed.

Lemma pset_NoDup d k v : NoDup (map fst d) → NoDup (map fst (pset d k v)).
Proof.
  induction d as [|[q w] d IH]; simpl; [intros; apply NoDup_singleton|]. intros [Hn Hd]%NoDup_cons.
  case_decide; simpl; constructor; auto. rewrite pset_keys. intros [-> | ?]; done.
Qed.

Lemma pget_unique d k v : NoDup (map fst d) → (k, v) ∈ d → pget d k = Some v.
Proof.
  induction d as [|[q w] d IH]; simpl; [by intros _ ?%not_elem_of_nil|]. intros [Hn Hd]%NoDup_cons.
  intros [[= -> ->] | Hin]%elem_of_cons; [by rewrite decide_True|]. case_decide; [|by apply IH].
  subst. exfalso. apply Hn. by apply (list_elem_of_fmap_2 fst _ _ Hin).
Qed.
End pdict.

(** ** Machine words

    [wrap w x] is [x & ((1 << w) - 1)], [sgn w x] reads the low [w] bits of
    [x] in two's complement. *)

Definition mask (w : Z) : Z := Z.shiftl 1 w - 1.
Definition wrap (w x : Z) : Z := x mod 2 ^ w.
Definition sgn (w x : Z) : Z :=
  let u := wrap w x in if 2 ^ (w - 1) <=? u then u - 2 ^ w else u.

(** [int.from_bytes(bs, 'little')]. *)
Fixpoint le_int (bs : list Z) : Z :=
  match bs with [] => 0 | b :: bs' => b + 2 ^ 8 * le_int bs' end.

(** [v.to_bytes(n, 'little')] for [0 <= v]. *)
Fixpoint le_bytes (n : nat) (v : Z) : list Z :=
  match n with O => [] | S n' => v mod 2 ^ 8 :: le_bytes n' (v / 2 ^ 8) end.

(** ** Automation *)

Create HintDb hornet.

Lemma bind_Ok {A B} (m : res A) (f : A → res B) b :
  (x ← m; f x) = Ok b ↔ ∃ a, m = Ok a ∧ f a = Ok b.
Proof. destruct m; simpl; split; naive_solver. Qed.

Lemma fmap_Ok {A B} (f : A → B) (m : res A) b :
  f <$> m = Ok b ↔ ∃ a, m = Ok a ∧ b = f a.
Proof. destruct m; simpl; split; naive_solver. Qed.

Lemma ST_bind_Ok {S A B} (m : ST S A) (f : A → ST S B) s b s' :
  (x ← m; f x) s = Ok (b, s') ↔ ∃ a s1, m s = Ok (a, s1) ∧ f a s1 = Ok (b, s').
Proof. unfold mbind, ST_bind. destruct (m s) as [[a s1]|]; naive_solver. Qed.

Lemma guard_or_Ok b e u : guard_or b e = Ok u ↔ b = true.
Proof. destruct b, u; simpl; split; congruence. Qed.

Lemma elem_of_rev {A} (x : A) l : x ∈ rev l ↔ x ∈ l.
Proof. rewrite !list_elem_of_In. symmetry. apply in_rev. Qed.

Lemma of_option_Ok {A} e (o : option A) a : of_option e o = Ok a ↔ o = Some a.
Proof. destruct o; simpl; split; congruence. Qed.

Lemma lift_Ok {S A} (r : res A) (s : S) a s' :
  lift r s = Ok (a, s') ↔ r = Ok a ∧ s' = s.
Proof. destruct r; simpl; split; naive_solver. Qed.

(** [res_inv] takes every successful monadic computation of the context apart. *)
Ltac res_inv_step :=
  match goal with
  | H : Err _ = Ok _ |- _ => discriminate H
  | H : Ok _ = Err _ |- _ => discriminate H
  | H : Ok _ = Ok _ |- _ => injection H as H; simplify_eq
  | H : (_, _) = (_, _) |- _ => injection H as H; simplify_eq
  | H : mret _ = Ok _ |- _ => unfold mret, res_ret in H
  | H : mret _ ?s = Ok (_, _) |- _ => unfold mret, ST_ret in H
  | H : raise _ ?s = Ok _ |- _ => discriminate H
  | H : mbind (M := res) _ _ = Ok _ |- _ =>
      apply bind_Ok in H; let x := fresh "v" in let Hx := fresh "E" in
      destruct H as (x & Hx & H)
  | H : mbind (M := ST _) _ _ _ = Ok (_, _) |- _ =>
      apply ST_bind_Ok in H;
      let x := fresh "v" in let s := fresh "s" in let Hx := fresh "E" in
      destruct H as (x & s & Hx & H)
  | H : fmap (M := res) _ _ = Ok _ |- _ =>
      apply fmap_Ok in H; let x := fresh "v" in let Hx := fresh "E" in
      destruct H as (x & Hx & ->)
  | H : guard_or _ _ = Ok _ |- _ => apply guard_or_Ok in H
  | H : of_option _ _ = Ok _ |- _ => apply of_option_Ok in H
  | H : lift _ _ = Ok (_, _) |- _ => apply lift_Ok in H; destruct H as [H ->]
  | H : gets _ _ = Ok (_, _) |- _ => unfold gets in H
  | H : get _ = Ok (_, _) |- _ => unfold get in H
  | H : put _ _ = Ok (_, _) |- _ => unfold put in H
  | H : modify _ _ = Ok (_, _) |- _ => unfold modify in H
  end.
Ltac res_inv := repeat res_inv_step.

(** Case analysis on the first [match] or [if] of a hypothesis, keeping the
    equation. *)
Ltac case_in H :=
  match type of H with
  | context [match ?x with _ => _ end] =>
      lazymatch x with
      | context [match _ with _ => _ end] => fail
      | _ => let E := fresh "C" in destruct x eqn:E
      end
  end.

(** Boolean tests of the source as propositions. *)
Ltac bool_prop :=
  repeat match goal with
  | H : _ && _ = true |- _ => apply andb_true_iff in H; destruct H
  | H : _ || _ = false |- _ => apply orb_false_iff in H; destruct H
  | H : negb _ = true |- _ => apply negb_true_iff in H
  | H : negb _ = false |- _ => apply negb_false_iff in H
  | H : (_ =? _) = true |- _ => apply Z.eqb_eq in H
  | H : (_ =? _) = false |- _ => apply Z.eqb_neq in H
  | H : (_ <=? _) = true |- _ => apply Z.leb_le in H
  | H : (_ <=? _) = false |- _ => apply Z.leb_gt in H
  | H : (_ <? _) = true |- _ => apply Z.ltb_lt in H
  | H : (_ <? _) = false |- _ => apply Z.ltb_ge in H
  | H : bool_decide _ = true |- _ => apply bool_decide_eq_true in H
  | H : bool_decide _ = false |- _ => apply bool_decide_eq_false in H
  end.

(** ** Lemmas on loops

    A loop invariant for [foldR], [foldST] and [fold_left]: [P done acc] holds
    of the prefix already processed. *)

Lemma foldR_ind {A B} (g : B → A → res B) (P : list A → B → Prop) b l b' :
  P [] b →
  (∀ pre a b1 b2, (pre ++ [a]) `prefix_of` l → P pre b1 → g b1 a = Ok b2 → P (pre ++ [a]) b2) →
  foldR g b l = Ok b' → P l b'.
Proof.
  intros H0 Hs.
  assert (∀ suf pre b1, l = pre ++ suf → P pre b1 → foldR g b1 suf = Ok b' → P l b') as H.
  { induction suf as [|a suf IH]; intros pre b1 -> HP HF; simpl in HF.
    - rewrite app_nil_r. by res_inv.
    - res_inv. eapply (IH (pre ++ [a])); [by rewrite <- app_assoc| |done].
      eapply Hs; [|done|done]. exists suf. by rewrite <- app_assoc. }
  intros HF. by eapply (H l []).
Qed.

Lemma foldR_app {A B} (g : B → A → res B) b l1 l2 :
  foldR g b (l1 ++ l2) = (b' ← foldR g b l1; foldR g b' l2).
Proof.
  revert b. induction l1 as [|a l1 IH]; intros b; [done|]. simpl.
  destruct (g b a); simpl; [apply IH|done].
Qed.

Lemma fold_left_ind {A B} (g : B → A → B) (P : list A → B → Prop) b l :
  P [] b →
  (∀ pre a b1, (pre ++ [a]) `prefix_of` l → P pre b1 → P (pre ++ [a]) (g b1 a)) →
  P l (fold_left g l b).
Proof.
  intros H0 Hs.
  assert (∀ suf pre b1, l = pre ++ suf → P pre b1 → P l (fold_left g suf b1)) as H.
  { induction suf as [|a suf IH]; intros pre b1 -> HP; simpl.
    - by rewrite app_nil_r.
    - eapply (IH (pre ++ [a])); [by rewrite <- app_assoc|].
      eapply Hs; [|done]. exists suf. by rewrite <- app_assoc. }
  by eapply (H l []).
Qed.

(** A run of [mapST] through states that satisfy [I]: the results, one by one. *)
Lemma mapST_inv {S A B} (f : A → ST S B) (I : S → Prop) l s l' s' :
  (∀ x y s1 s2, x ∈ l → I s1 → f x s1 = Ok (y, s2) → I s2) → I s → mapST f l s = Ok (l', s') →
  I s' ∧ Forall2 (λ x y, ∃ s1 s2, I s1 ∧ f x s1 = Ok (y, s2)) l l'.
Proof.
  revert s l'. induction l as [|x l IH]; intros s l' Hf Hs HE; simpl in HE; res_inv.
  { split; [done|constructor]. }
  assert (I s0) as Hs0 by (eapply Hf; [by left|exact Hs|exact E]).
  destruct (IH s0 _ (λ a y s1 s2 Ha, Hf a y s1 s2 (list_elem_of_further _ _ _ Ha)) Hs0 E0)
    as [? ?].
  split; [done|]. constructor; eauto.
Qed.

Lemma lift_bind {S A B} (a : A) (f : A → ST S B) (s : S) : (x ← lift (Ok a); f x) s = f a s.
Proof. done. Qed.

Lemma py_setitem_Ok {A} (l l' : list A) i x : 0 <= i → py_setitem l i x = Ok l' →
  l' = <[Z.to_nat i := x]> l.
Proof.
  intros Hi. unfold py_setitem. cbv zeta. rewrite (proj2 (Z.ltb_ge i 0)) by done.
  destruct (_ || _); [done|]. intros. by res_inv.
Qed.

Lemma py_index_Ok {A} (l : list A) i x : 0 <= i →
  py_index l i = Ok x ↔ l !! Z.to_nat i = Some x.
Proof.
  intros Hi. unfold py_index. rewrite (proj2 (Z.ltb_ge i 0)) by done. cbv zeta.
  rewrite (proj2 (Z.ltb_ge i 0)) by done. simpl.
  destruct (Z.leb_spec (Z.of_nat (length l)) i).
  - split; [done|]. intros Hl. apply lookup_lt_Some in Hl. lia.
  - apply of_option_Ok.
Qed.

(** ** Lemmas on words *)

Lemma pow2_pos w : 0 <= w → 0 < 2 ^ w.
Proof. intros. by apply Z.pow_pos_nonneg. Qed.
#[export] Hint Resolve pow2_pos : hornet.

Lemma mask_eq w : 0 <= w → mask w = Z.ones w.
Proof.
  intros. unfold mask. rewrite Z.shiftl_mul_pow2, Z.mul_1_l by done.
  rewrite Z.ones_equiv. lia.
Qed.

Lemma land_mask w x : 0 <= w → Z.land x (mask w) = wrap w x.
Proof. intros. unfold wrap. by rewrite mask_eq, Z.land_ones. Qed.

Lemma land_mask_l w x : 0 <= w → Z.land (mask w) x = wrap w x.
Proof. intros. by rewrite Z.land_comm, land_mask. Qed.

Lemma wrap_range w x : 0 <= w → 0 <= wrap w x < 2 ^ w.
Proof. intros. apply Z.mod_pos_bound. by apply pow2_pos. Qed.
#[export] Hint Resolve wrap_range : hornet.

Lemma wrap_small w x : 0 <= x < 2 ^ w → wrap w x = x.
Proof. apply Z.mod_small. Qed.

Lemma wrap_wrap w x : 0 <= w → wrap w (wrap w x) = wrap w x.
Proof. intros. apply Z.mod_mod. pose proof (pow2_pos w). lia. Qed.

Lemma wrap_wrap_le v w x : 0 <= v <= w → wrap v (wrap w x) = wrap v x.
Proof.
  intros. unfold wrap.
  replace w with (v + (w - v)) by lia.
  rewrite Z.pow_add_r by lia.
  pose proof (pow2_pos v ltac:(lia)). pose proof (pow2_pos (w - v) ltac:(lia)).
  rewrite Z.rem_mul_r by lia.
  rewrite Z.mul_comm, Z_mod_plus_full. apply Z.mod_mod. lia.
Qed.

Lemma wrap_wrap_ge v w x : 0 <= v <= w → wrap w (wrap v x) = wrap v x.
Proof.
  intros. apply wrap_small. pose proof (wrap_range v x ltac:(lia)).
  pose proof (Z.pow_le_mono_r 2 v w). lia.
Qed.

Lemma wrap_add w x y : 0 <= w → wrap w (wrap w x + wrap w y) = wrap w (x + y).
Proof. intros. unfold wrap. symmetry. apply Z.add_mod. pose proof (pow2_pos w). lia. Qed.

Lemma wrap_sub w x y : 0 <= w → wrap w (wrap w x - wrap w y) = wrap w (x - y).
Proof. intros. unfold wrap. symmetry. apply Zminus_mod. Qed.

Lemma wrap_mul w x y : 0 <= w → wrap w (wrap w x * wrap w y) = wrap w (x * y).
Proof. intros. unfold wrap. symmetry. apply Z.mul_mod. pose proof (pow2_pos w). lia. Qed.

Lemma wrap_opp w x : 0 <= w → wrap w (- wrap w x) = wrap w (- x).
Proof.
  intros. replace (- wrap w x) with (0 - wrap w x) by lia.
  replace (- x) with (0 - x) by lia.
  rewrite <- (wrap_sub w 0 (wrap w x)), wrap_wrap, wrap_sub; done.
Qed.

Lemma testbit_wrap w x i : 0 <= w → 0 <= i →
  Z.testbit (wrap w x) i = (i <? w) && Z.testbit x i.
Proof.
  intros. unfold wrap. destruct (Z.ltb_spec i w).
  - rewrite Z.mod_pow2_bits_low by lia. done.
  - rewrite Z.mod_pow2_bits_high by lia. done.
Qed.

Section bitwise.
Context (f : bool → bool → bool) (op : Z → Z → Z).
Hypothesis op_spec : ∀ a b n, Z.testbit (op a b) n = f (Z.testbit a n) (Z.testbit b n).
Hypothesis f_false : f false false = false.

Lemma wrap_bitwise w x y : 0 <= w → op (wrap w x) (wrap w y) = wrap w (op x y).
Proof.
  intros. apply Z.bits_inj'. intros n Hn.
  rewrite op_spec, !testbit_wrap, op_spec by done.
  destruct (n <? w); simpl; done.
Qed.
End bitwise.

Lemma wrap_land w x y : 0 <= w → Z.land (wrap w x) (wrap w y) = wrap w (Z.land x y).
Proof. apply (wrap_bitwise andb); [apply Z.land_spec|done]. Qed.
Lemma wrap_lor w x y : 0 <= w → Z.lor (wrap w x) (wrap w y) = wrap w (Z.lor x y).
Proof. apply (wrap_bitwise orb); [apply Z.lor_spec|done]. Qed.
Lemma wrap_lxor w x y : 0 <= w → Z.lxor (wrap w x) (wrap w y) = wrap w (Z.lxor x y).
Proof. apply (wrap_bitwise xorb); [apply Z.lxor_spec|done]. Qed.

Lemma land_range w x y : 0 <= w → 0 <= x < 2 ^ w → 0 <= y < 2 ^ w →
  0 <= Z.land x y < 2 ^ w.
Proof.
  intros Hw Hx Hy. rewrite <- (wrap_small w x), <- (wrap_small w y) by done.
  rewrite wrap_land by done. by apply wrap_range.
Qed.
Lemma lor_range w x y : 0 <= w → 0 <= x < 2 ^ w → 0 <= y < 2 ^ w →
  0 <= Z.lor x y < 2 ^ w.
Proof.
  intros Hw Hx Hy. rewrite <- (wrap_small w x), <- (wrap_small w y) by done.
  rewrite wrap_lor by done. by apply wrap_range.
Qed.
Lemma lxor_range w x y : 0 <= w → 0 <= x < 2 ^ w → 0 <= y < 2 ^ w →
  0 <= Z.lxor x y < 2 ^ w.
Proof.
  intros Hw Hx Hy. rewrite <- (wrap_small w x), <- (wrap_small w y) by done.
  rewrite wrap_lxor by done. by apply wrap_range.
Qed.

Lemma shiftr_top w u : 1 <= w → 0 <= u < 2 ^ w →
  Z.shiftr u (w - 1) = if 2 ^ (w - 1) <=? u then 1 else 0.
Proof.
  intros Hw Hu. rewrite Z.shiftr_div_pow2 by lia.
  pose proof (pow2_pos (w - 1) ltac:(lia)).
  assert (2 ^ w = 2 * 2 ^ (w - 1)).
  { rewrite <- Z.pow_succ_r by lia. f_equal. lia. }
  destruct (Z.leb_spec (2 ^ (w - 1)) u).
  - symmetry. apply Z.div_unique with (u - 2 ^ (w - 1)); lia.
  - apply Z.div_small. lia.
Qed.

Lemma sgn_range w x : 1 <= w → - 2 ^ (w - 1) <= sgn w x < 2 ^ (w - 1).
Proof.
  intros. unfold sgn. pose proof (wrap_range w x ltac:(lia)).
  assert (2 ^ w = 2 * 2 ^ (w - 1)).
  { rewrite <- Z.pow_succ_r by lia. f_equal. lia. }
  destruct (Z.leb_spec (2 ^ (w - 1)) (wrap w x)); lia.
Qed.

Lemma wrap_sgn w x : 0 <= w → wrap w (sgn w x) = wrap w x.
Proof.
  intros. unfold sgn. destruct (_ <=? _); [|by apply wrap_wrap].
  rewrite <- (wrap_wrap w x) at 2 by done. unfold wrap at 1 3.
  rewrite <- (Z_mod_plus_full (wrap w x - 2 ^ w) 1). f_equal. lia.
Qed.

(** ** Little-endian byte strings *)

Definition is_byte (b : Z) : Prop := 0 <= b < 2 ^ 8.

Lemma le_int_range bs : Forall is_byte bs → 0 <= le_int bs < 2 ^ (8 * Z.of_nat (length bs)).
Proof.
  induction 1 as [|b bs Hb Hbs IH]; simpl; [lia|].
  unfold is_byte in Hb.
  replace (8 * Z.of_nat (S (length bs))) with (8 + 8 * Z.of_nat (length bs)) by lia.
  rewrite Z.pow_add_r by lia. simpl le_int. lia.
Qed.

Lemma length_le_bytes n v : length (le_bytes n v) = n.
Proof. revert v. induction n; intros; simpl; auto. Qed.

Lemma le_bytes_byte n v : Forall is_byte (le_bytes n v).
Proof.
  revert v. induction n; intros; simpl; constructor; auto.
  unfold is_byte. apply Z.mod_pos_bound. lia.
Qed.

Lemma le_int_bytes n v : le_int (le_bytes n v) = v mod 2 ^ (8 * Z.of_nat n).
Proof.
  revert v. induction n as [|n IH]; intros v; simpl.
  - by rewrite Z.mod_1_r.
  - simpl le_int. rewrite IH.
    replace (8 * Z.of_nat (S n)) with (8 + 8 * Z.of_nat n) by lia.
    rewrite Z.pow_add_r by lia.
    pose proof (pow2_pos (8 * Z.of_nat n) ltac:(lia)).
    rewrite Z.rem_mul_r by lia. done.
Qed.
