(* ===== verification/Words.v ===== *)
(** Words as bytes: replacing some bytes of a word by those of another, and the
    byte view of the result. *)

From S2P Require Import Prelude.

(** ** Splicing bit fields *)

(** [r] is the [wd]-bit value [cur] with the [n] bytes from bit [s] replaced by
    those of [v]. *)
Definition spliced (wd cur s n v r : Z) : Prop :=
  0 <= r < 2 ^ wd ∧ ∀ i, 0 <= i < wd →
    Z.testbit r i = if (s <=? i) && (i <? s + 8 * n) then Z.testbit v (i - s)
                    else Z.testbit cur i.

Lemma testbit_high a w i : 0 <= a < 2 ^ w → 0 <= w <= i → Z.testbit a i = false.
Proof.
  intros Ha Hi. rewrite <- (wrap_small w a Ha). rewrite testbit_wrap by lia.
  by rewrite (proj2 (Z.ltb_ge i w)) by lia.
Qed.

Lemma testbit_concat a b k i : 0 <= k → 0 <= b < 2 ^ k → 0 <= i →
  Z.testbit (a * 2 ^ k + b) i = if i <? k then Z.testbit b i else Z.testbit a (i - k).
Proof.
  intros Hk Hb Hi. destruct (Z.ltb_spec i k).
  - rewrite <- (Z.mod_pow2_bits_low _ k) by lia.
    by rewrite Z.add_comm, Z_mod_plus_full, Z.mod_small.
  - replace i with (i - k + k) at 1 by lia. rewrite <- Z.div_pow2_bits by lia.
    rewrite Z.div_add_l by (pose proof (pow2_pos k); lia).
    by rewrite Z.div_small, Z.add_0_r.
Qed.

Lemma ldiff_ones a w : 0 <= w → 0 <= a < 2 ^ w → Z.ldiff a (Z.ones w) = 0.
Proof.
  intros Hw Ha. rewrite Z.ldiff_ones_r by done.
  rewrite Z.shiftr_div_pow2, Z.div_small by done. apply Z.shiftl_0_l.
Qed.

(** The byte view of a splice: the bytes inside come from [v], those outside
    from [cur]. *)
Lemma spliced_byte wd cur s n v r k : spliced wd cur s n v r → 0 <= s → s mod 8 = 0 → 0 <= k →
  8 * k + 8 <= wd →
  wrap 8 (r / 2 ^ (8 * k)) =
    if (s / 8 <=? k) && (k <? s / 8 + n) then wrap 8 (v / 2 ^ (8 * (k - s / 8)))
    else wrap 8 (cur / 2 ^ (8 * k)).
Proof.
  intros [Hr Hbits] Hs H8 Hk Hw. pose proof (Z.div_mod s 8 ltac:(lia)) as Hd.
  apply Z.bits_inj'. intros i Hi.
  assert (∀ x j, 0 <= j → Z.testbit (wrap 8 (x / 2 ^ j)) i = (i <? 8) && Z.testbit x (i + j))
    as Hx by (intros; rewrite testbit_wrap, Z.div_pow2_bits by lia; done).
  destruct (Z.ltb_spec i 8) as [Hi8 | Hi8].
  - assert (∀ x j, 0 <= j → Z.testbit (wrap 8 (x / 2 ^ j)) i = Z.testbit x (i + j)) as Hx8.
    { intros x j Hj. by rewrite Hx. }
    rewrite Hx8, Hbits by lia.
    destruct (Z.leb_spec (s / 8) k), (Z.ltb_spec k (s / 8 + n)), (Z.leb_spec s (i + 8 * k)),
      (Z.ltb_spec (i + 8 * k) (s + 8 * n)); cbn [andb]; try lia; rewrite Hx8 by lia;
      f_equal; lia.
  - assert (∀ x j, 0 <= j → Z.testbit (wrap 8 (x / 2 ^ j)) i = false) as Hx8.
    { intros x j Hj. by rewrite Hx. }
    rewrite Hx8 by lia. destruct (Z.leb_spec (s / 8) k); cbn [andb]; [|by rewrite Hx8 by lia].
    destruct (_ <? _); by rewrite Hx8 by lia.
Qed.

(** Byte [i] of a value truncated to [n] bytes. *)
Lemma byte_of_wrap n x i : 0 <= i < n →
  wrap 8 (wrap (n * 8) x / 2 ^ (8 * i)) = wrap 8 (x / 2 ^ (8 * i)).
Proof.
  intros Hi. apply Z.bits_inj'. intros k Hk. rewrite !testbit_wrap, !Z.div_pow2_bits by lia.
  destruct (Z.ltb_spec k 8); [|done]. cbn [andb].
  rewrite testbit_wrap by lia. by rewrite (proj2 (Z.ltb_lt (k + 8 * i) (n * 8))) by lia.
Qed.

(** Byte [i] of a number. *)
Definition byte_at (x i : Z) : Z := wrap 8 (x / 2 ^ (8 * i)).

Lemma byte_at_testbit x i j : 0 <= i → 0 <= j →
  Z.testbit (byte_at x i) j = (j <? 8) && Z.testbit x (j + 8 * i).
Proof. intros. unfold byte_at. by rewrite testbit_wrap, Z.div_pow2_bits by lia. Qed.

Lemma byte_at_ext x y i j : 0 <= i → 0 <= j →
  (∀ n, 0 <= n < 8 → Z.testbit x (n + 8 * i) = Z.testbit y (n + 8 * j)) →
  byte_at x i = byte_at y j.
Proof.
  intros Hi Hj H. apply Z.bits_inj'. intros n Hn. rewrite !byte_at_testbit by lia.
  destruct (Z.ltb_spec n 8); [|done]. cbn [andb]. apply H. lia.
Qed.

Lemma byte_at_wrap x n i : 0 <= i < n → byte_at (wrap (8 * n) x) i = byte_at x i.
Proof. intros. unfold byte_at. rewrite (Z.mul_comm 8 n). by apply byte_of_wrap. Qed.

Lemma byte_at_shift x k i : 0 <= k → 0 <= i → byte_at (x / 2 ^ (8 * k)) i = byte_at x (i + k).
Proof.
  intros. apply byte_at_ext; [lia..|]. intros n Hn.
  rewrite Z.div_pow2_bits by lia. f_equal. lia.
Qed.

(** A number of at most [n] bytes is determined by them. *)
Lemma bytes_determine n x y : 0 <= n → 0 <= x < 2 ^ (8 * n) → 0 <= y < 2 ^ (8 * n) →
  (∀ i, 0 <= i < n → byte_at x i = byte_at y i) → x = y.
Proof.
  intros Hn Hx Hy H. apply Z.bits_inj'. intros k Hk.
  destruct (Z.ltb_spec k (8 * n)) as [Hlt | Hge].
  - assert (Z.testbit (byte_at x (k / 8)) (k mod 8) = Z.testbit (byte_at y (k / 8)) (k mod 8))
      as Hb. { f_equal. apply H. split; [apply Z.div_pos; lia|apply Z.div_lt_upper_bound; lia]. }
    pose proof (Z.mod_pos_bound k 8 ltac:(lia)). pose proof (Z.div_pos k 8 Hk ltac:(lia)).
    rewrite !byte_at_testbit, (proj2 (Z.ltb_lt (k mod 8) 8)) in Hb by lia.
    cbn [andb] in Hb. pose proof (Z.div_mod k 8 ltac:(lia)).
    by replace (k mod 8 + 8 * (k / 8)) with k in Hb by lia.
  - by rewrite !(testbit_high _ (8 * n)) by lia.
Qed.
