(* ===== verification/Constants.v ===== *)
(** Opcode constants and the integer arithmetic of [bpf/constants.py]: the
    tables of the instruction set, [arith] (constant folding of ALU
    operations), [swap_jmp_code] (negation of a branch). The reference
    semantics of the instruction set, [isa_alu], is stated beside it. *)

From S2P Require Import Prelude.

(** ** Encoding fields *)

Definition OPC_CLASS_MASK : Z := 0x07.
Definition OPC_S_MASK : Z := 0x08.
Definition OPC_CODE_MASK : Z := 0xF0.
Definition OPC_SZ_MASK : Z := 0x18.
Definition OPC_MODE_MASK : Z := 0xE0.

Definition LD : Z := 0.
Definition LDX : Z := 1.
Definition ST_ : Z := 2.
Definition STX : Z := 3.
Definition ALU : Z := 4.
Definition JMP : Z := 5.
Definition JMP32 : Z := 6.
Definition ALU64 : Z := 7.

Definition S_IMM : Z := 0.
Definition S_REG : Z := 1.

Definition ADD : Z := 0.
Definition SUB : Z := 1.
Definition MUL : Z := 2.
Definition DIV : Z := 3.
Definition OR : Z := 4.
Definition AND : Z := 5.
Definition LSH : Z := 6.
Definition RSH : Z := 7.
Definition NEG : Z := 8.
Definition MOD : Z := 9.
Definition XOR : Z := 10.
Definition MOV : Z := 11.
Definition ARSH : Z := 12.
Definition END : Z := 13.

Definition JA : Z := 0.
Definition JEQ : Z := 1.
Definition JGT : Z := 2.
Definition JGE : Z := 3.
Definition JSET : Z := 4.
Definition JNE : Z := 5.
Definition JSGT : Z := 6.
Definition JSGE : Z := 7.
Definition CALL : Z := 8.
Definition EXIT : Z := 9.
Definition JLT : Z := 10.
Definition JLE : Z := 11.
Definition JSLT : Z := 12.
Definition JSLE : Z := 13.

Definition HELPER_TAIL_CALL : Z := 12.

Definition IMM : Z := 0.
Definition ABS : Z := 1.
Definition IND : Z := 2.
Definition MEM : Z := 3.
Definition MEMSX : Z := 4.
Definition ATOMIC : Z := 6.

Ltac unfold_ops :=
  unfold ADD, SUB, MUL, DIV, OR, AND, LSH, RSH, NEG, MOD, XOR, MOV, ARSH, END in *.
Ltac unfold_jmps :=
  unfold JA, JEQ, JGT, JGE, JSET, JNE, JSGT, JSGE, CALL, EXIT, JLT, JLE, JSLT, JSLE in *.

(** ** Tables

    A Python dict literal is an association list; [d.get(k)] is [dict_get]. *)

Fixpoint dict_get {A} (d : list (Z * A)) (k : Z) : option A :=
  match d with
  | [] => None
  | (k', v) :: d' => if k =? k' then Some v else dict_get d' k
  end.

Definition sz_map : list (Z * Z) := [(0, 4); (1, 2); (2, 1); (3, 8)].

Definition alu_op_to_str : list (Z * string) :=
  [(ADD, "BPF_ADD"); (SUB, "BPF_SUB"); (MUL, "BPF_MUL"); (DIV, "BPF_DIV");
   (OR, "BPF_OR"); (AND, "BPF_AND"); (LSH, "BPF_LSH"); (RSH, "BPF_RSH");
   (NEG, "BPF_NEG"); (MOD, "BPF_MOD"); (XOR, "BPF_XOR"); (MOV, "BPF_MOV");
   (ARSH, "BPF_ARSH"); (END, "BPF_END")].

Definition jmp_op_to_str : list (Z * string) :=
  [(JA, "BPF_JA"); (JEQ, "BPF_JEQ"); (JGT, "BPF_JGT"); (JGE, "BPF_JGE");
   (JSET, "BPF_JSET"); (JNE, "BPF_JNE"); (JSGT, "BPF_JSGT"); (JSGE, "BPF_JSGE");
   (CALL, "BPF_CALL"); (EXIT, "BPF_EXIT"); (JLT, "BPF_JLT"); (JLE, "BPF_JLE");
   (JSLT, "BPF_JSLT"); (JSLE, "BPF_JSLE")].

Definition branch_op_to_str : list (Z * string) :=
  [(JEQ, "=="); (JGT, ">"); (JGE, ">="); (JSET, "&"); (JNE, "!=");
   (JSGT, ">s"); (JSGE, ">=s"); (JLT, "<"); (JLE, "<="); (JSLT, "<s");
   (JSLE, "<=s")].

Definition op_map : list (Z * string) :=
  [(ADD, "+"); (SUB, "-"); (MUL, "*"); (DIV, "/"); (OR, "|"); (AND, "&");
   (LSH, "<<"); (RSH, ">>"); (NEG, "NEG"); (MOD, "%"); (XOR, "^"); (ARSH, ">>s")].

Definition mode_to_str : list (Z * string) :=
  [(IMM, "BPF_IMM"); (ABS, "BPF_ABS"); (IND, "BPF_IND"); (MEM, "BPF_MEM");
   (MEMSX, "BPF_MEMSX"); (ATOMIC, "BPF_ATOMIC")].

Definition sz_to_str : list (Z * string) := [(0, "W"); (1, "H"); (2, "B"); (3, "DW")].

(** ** Branch negation *)

Definition swap_table : list (Z * Z) :=
  [(JEQ, JNE); (JNE, JEQ); (JGT, JLE); (JLE, JGT); (JGE, JLT); (JLT, JGE);
   (JSGT, JSLE); (JSLE, JSGT); (JSGE, JSLT); (JSLT, JSGE)].

Definition swap_jmp_code (code : Z) : Z := default (-1) (dict_get swap_table code).

(** ** Constant folding *)

Definition arith_plain (op dst src : Z) : Z :=
  if op =? ADD then dst + src
  else if op =? SUB then dst - src
  else if op =? MUL then dst * src
  else if op =? OR then Z.lor dst src
  else if op =? AND then Z.land dst src
  else if op =? NEG then - dst
  else if op =? XOR then Z.lxor dst src
  else 0.

Definition arith_shift (op dst src bits : Z) : Z :=
  let amt := Z.land src (bits - 1) in
  let u := Z.land dst (mask bits) in
  if op =? LSH then Z.land (Z.shiftl u amt) (mask bits)
  else if op =? RSH then Z.shiftr u amt
  else
    let sval := if negb (Z.shiftr u (bits - 1) =? 0) then u - Z.shiftl 1 bits else u in
    Z.land (Z.shiftr sval amt) (mask bits).

Definition arith_divmod (op dst src bits : Z) (signed : bool) : Z :=
  let a := Z.land dst (mask bits) in
  let b := Z.land src (mask bits) in
  if negb signed then
    if op =? DIV then (if negb (b =? 0) then a / b else 0)
    else (if negb (b =? 0) then a mod b else a)
  else
    let sa := if negb (Z.shiftr a (bits - 1) =? 0) then a - Z.shiftl 1 bits else a in
    let sb := if negb (Z.shiftr b (bits - 1) =? 0) then b - Z.shiftl 1 bits else b in
    if sb =? 0 then (if op =? DIV then 0 else a)
    else
      let mag := if op =? DIV then Z.abs sa / Z.abs sb else Z.abs sa mod Z.abs sb in
      let neg := if op =? DIV then negb (bool_decide ((sa <? 0) = (sb <? 0))) else sa <? 0 in
      Z.land (if neg then - mag else mag) (mask bits).

(** The inner call of the 32-bit case has the default [bits=64] and an [op]
    that is neither a shift nor a division: it is [arith_plain]. *)
Definition arith (op dst src bits : Z) (signed : bool) : Z :=
  if (op =? LSH) || (op =? RSH) || (op =? ARSH) then arith_shift op dst src bits
  else if (op =? DIV) || (op =? MOD) then arith_divmod op dst src bits signed
  else if bits =? 32 then
    Z.land (arith_plain op (Z.land dst (mask bits)) (Z.land src (mask bits))) (mask bits)
  else arith_plain op dst src.

(** ** Pointer and map kinds *)

Definition PTR_TO_CTX : Z := 0x00.
Definition PTR_TO_PKT : Z := 0x01.
Definition PTR_TO_PKT_END : Z := 0x02.
Definition PTR_TO_PKT_META : Z := 0x03.
Definition PTR_TO_STK : Z := 0x05.
Definition PTR_TO_MAP : Z := 0x06.
Definition PTR_TO_MAP_VALUE : Z := 0x07.
Definition PTR_TO_BSS : Z := 0x08.
Definition PTR_TO_RODATA : Z := 0x09.
Definition PTR_TO_DATA : Z := 0x0a.

Definition BPF_MAP_TYPE_PROG_ARRAY : Z := 3.

Definition MAP_TYPE_NAMES : list (Z * string) :=
  [(0, "UNSPEC"); (1, "HASH"); (2, "ARRAY"); (3, "PROG_ARRAY");
   (4, "PERF_EVENT_ARRAY"); (5, "PERCPU_HASH"); (6, "PERCPU_ARRAY");
   (7, "STACK_TRACE"); (8, "CGROUP_ARRAY"); (9, "LRU_HASH");
   (10, "LRU_PERCPU_HASH"); (11, "LPM_TRIE"); (12, "ARRAY_OF_MAPS");
   (13, "HASH_OF_MAPS"); (14, "DEVMAP"); (15, "SOCKMAP"); (16, "CPUMAP");
   (17, "XSKMAP"); (18, "SOCKHASH"); (19, "CGROUP_STORAGE");
   (20, "REUSEPORT_SOCKARRAY"); (21, "PERCPU_CGROUP_STORAGE"); (22, "QUEUE");
   (23, "STACK"); (24, "SK_STORAGE"); (25, "DEVMAP_HASH"); (26, "STRUCT_OPS");
   (27, "RINGBUF"); (28, "INODE_STORAGE"); (29, "TASK_STORAGE");
   (30, "BLOOM_FILTER"); (31, "USER_RINGBUF"); (32, "CGRP_STORAGE"); (33, "ARENA")].

Definition map_type_name (type_num : Z) : string :=
  match dict_get MAP_TYPE_NAMES type_num with
  | Some n => n
  | None => "type=" +:+ pretty type_num
  end.

(** ** Reference semantics of the ALU

    The instruction set's own definition of an ALU operation on [bits]-bit
    registers: operands and result are reduced modulo [2 ^ bits], shift amounts
    modulo [bits], division by zero gives 0, remainder by zero the dividend. *)
Definition isa_alu (op bits : Z) (signed : bool) (x y : Z) : Z :=
  let a := wrap bits x in
  let b := wrap bits y in
  if op =? ADD then wrap bits (a + b)
  else if op =? SUB then wrap bits (a - b)
  else if op =? MUL then wrap bits (a * b)
  else if op =? OR then Z.lor a b
  else if op =? AND then Z.land a b
  else if op =? XOR then Z.lxor a b
  else if op =? NEG then wrap bits (- a)
  else if op =? LSH then wrap bits (a * 2 ^ (b mod bits))
  else if op =? RSH then a / 2 ^ (b mod bits)
  else if op =? ARSH then wrap bits (sgn bits a / 2 ^ (b mod bits))
  else if op =? DIV then
    if b =? 0 then 0
    else if signed then wrap bits (Z.quot (sgn bits a) (sgn bits b)) else a / b
  else if op =? MOD then
    if b =? 0 then a
    else if signed then wrap bits (Z.rem (sgn bits a) (sgn bits b)) else a mod b
  else 0.

(** The operations a two-operand ALU instruction can carry. *)
Definition alu_ops : list Z :=
  [ADD; SUB; MUL; DIV; OR; AND; LSH; RSH; NEG; MOD; XOR; ARSH].

(** ** The folding agrees with the instruction set *)

Section arith_isa.
Context (bits : Z).
Hypothesis Hbits : bits = 32 ∨ bits = 64.

Lemma bits_pos : 1 <= bits.
Proof using Hbits. lia. Qed.

Lemma land_amt y : Z.land y (bits - 1) = wrap bits y mod bits.
Proof using Hbits.
  assert (∀ k, 0 <= k → bits = 2 ^ k → k <= bits → Z.land y (bits - 1) = wrap bits y mod bits) as Hk.
  { intros k Hk Hb Hle.
    replace (bits - 1) with (Z.ones k) by (rewrite Z.ones_equiv; lia).
    rewrite Z.land_ones by done. rewrite Hb at 2.
    symmetry. apply (wrap_wrap_le k bits y). lia. }
  destruct Hbits; subst; [apply (Hk 5)|apply (Hk 6)]; done || lia.
Qed.

Lemma sgn_shiftr u : 0 <= u < 2 ^ bits →
  (if negb (Z.shiftr u (bits - 1) =? 0) then u - Z.shiftl 1 bits else u) = sgn bits u.
Proof using Hbits.
  pose proof bits_pos. intros Hu.
  rewrite shiftr_top by lia. unfold sgn. rewrite wrap_small by done.
  rewrite Z.shiftl_mul_pow2, Z.mul_1_l by lia. by destruct (_ <=? u).
Qed.

Lemma sgn_wrap u : sgn bits (wrap bits u) = sgn bits u.
Proof using Hbits. pose proof bits_pos. unfold sgn. by rewrite wrap_wrap by lia. Qed.

Lemma arith_shift_isa op x y s : op = LSH ∨ op = RSH ∨ op = ARSH →
  arith_shift op x y bits = isa_alu op bits s x y.
Proof using Hbits.
  pose proof bits_pos. intros Hop. unfold arith_shift.
  rewrite !land_mask, land_amt by lia.
  pose proof (wrap_range bits x ltac:(lia)).
  rewrite sgn_shiftr by done. rewrite sgn_wrap.
  pose proof (Z.mod_pos_bound (wrap bits y) bits ltac:(lia)).
  unfold isa_alu. rewrite sgn_wrap.
  destruct Hop as [-> | [-> | ->]]; unfold_ops; simpl.
  - by rewrite Z.shiftl_mul_pow2 by lia.
  - by rewrite Z.shiftr_div_pow2 by lia.
  - by rewrite Z.shiftr_div_pow2 by lia.
Qed.

Lemma quot_sign a b : b ≠ 0 →
  Z.quot a b = if negb (bool_decide ((a <? 0) = (b <? 0))) then - (Z.abs a / Z.abs b)
               else Z.abs a / Z.abs b.
Proof using Type.
  intros. rewrite Z.quot_div by done.
  destruct (Z.ltb_spec a 0), (Z.ltb_spec b 0); simpl;
    destruct (decide (a = 0)) as [->|]; try lia;
    rewrite ?(Z.sgn_neg a), ?(Z.sgn_neg b), ?(Z.sgn_pos a), ?(Z.sgn_pos b) by lia; try lia.
  all: simpl; rewrite ?Z.div_0_l by lia; lia.
Qed.

Lemma rem_sign a b : b ≠ 0 →
  Z.rem a b = if a <? 0 then - (Z.abs a mod Z.abs b) else Z.abs a mod Z.abs b.
Proof using Type.
  intros. rewrite Z.rem_mod by done.
  destruct (Z.ltb_spec a 0).
  - rewrite Z.sgn_neg by done. lia.
  - destruct (decide (a = 0)) as [->|]; [by rewrite Z.mod_0_l by lia|].
    rewrite Z.sgn_pos by lia. lia.
Qed.

Lemma sgn_0 u : 0 <= u < 2 ^ bits → sgn bits u = 0 ↔ u = 0.
Proof using Hbits.
  pose proof bits_pos. intros Hu. unfold sgn. rewrite wrap_small by done.
  pose proof (pow2_pos (bits - 1) ltac:(lia)).
  destruct (Z.leb_spec (2 ^ (bits - 1)) u); lia.
Qed.

Lemma arith_divmod_isa op x y s : op = DIV ∨ op = MOD →
  arith_divmod op x y bits s = isa_alu op bits s x y.
Proof using Hbits.
  pose proof bits_pos. intros Hop. unfold arith_divmod.
  pose proof (wrap_range bits x ltac:(lia)) as Hx.
  pose proof (wrap_range bits y ltac:(lia)) as Hy.
  rewrite !land_mask by lia. rewrite !sgn_shiftr, !sgn_wrap by done.
  unfold isa_alu. rewrite !sgn_wrap.
  assert (sgn bits y = 0 ↔ wrap bits y = 0) as Hz.
  { rewrite <- (sgn_wrap y). by apply sgn_0. }
  destruct Hop as [->| ->]; unfold_ops; simpl; destruct s; simpl.
  - destruct (Z.eqb_spec (sgn bits y) 0), (Z.eqb_spec (wrap bits y) 0); try tauto.
    by rewrite quot_sign.
  - by destruct (wrap bits y =? 0).
  - destruct (Z.eqb_spec (sgn bits y) 0), (Z.eqb_spec (wrap bits y) 0); try tauto.
    by rewrite rem_sign.
  - by destruct (wrap bits y =? 0).
Qed.

Lemma arith_plain_isa op x y s :
  op ∈ [ADD; SUB; MUL; OR; AND; NEG; XOR] →
  wrap bits (arith_plain op x y) = isa_alu op bits s x y.
Proof using Hbits.
  pose proof bits_pos. intros Hop. unfold arith_plain, isa_alu.
  repeat (apply elem_of_cons in Hop as [->|Hop]); unfold_ops; simpl;
    [..|by apply elem_of_nil in Hop].
  - by rewrite wrap_add by lia.
  - by rewrite wrap_sub by lia.
  - by rewrite wrap_mul by lia.
  - by rewrite wrap_lor by lia.
  - by rewrite wrap_land by lia.
  - by rewrite wrap_opp by lia.
  - by rewrite wrap_lxor by lia.
Qed.

Lemma isa_alu_wrap op s x y : isa_alu op bits s (wrap bits x) (wrap bits y) = isa_alu op bits s x y.
Proof using Hbits. pose proof bits_pos. unfold isa_alu. by rewrite !wrap_wrap by lia. Qed.

Lemma isa_alu_range op s x y : 0 <= isa_alu op bits s x y < 2 ^ bits.
Proof using Hbits.
  pose proof bits_pos. unfold isa_alu.
  pose proof (wrap_range bits x ltac:(lia)) as Hx.
  pose proof (wrap_range bits y ltac:(lia)) as Hy.
  pose proof (pow2_pos bits ltac:(lia)).
  repeat match goal with |- context [if ?b then _ else _] => destruct b eqn:? end;
    bool_prop; try (apply wrap_range; lia); try lia.
  - apply lor_range; lia.
  - apply land_range; lia.
  - apply lxor_range; lia.
  - pose proof (Z.mod_pos_bound (wrap bits y) bits ltac:(lia)).
    pose proof (pow2_pos (wrap bits y mod bits) ltac:(lia)).
    split; [apply Z.div_pos; lia|].
    apply Z.le_lt_trans with (wrap bits x); [|lia].
    apply Z.div_le_upper_bound; nia.
  - split; [apply Z.div_pos; lia|].
    apply Z.le_lt_trans with (wrap bits x); [|lia].
    apply Z.div_le_upper_bound; nia.
  - pose proof (Z.mod_pos_bound (wrap bits x) (wrap bits y) ltac:(lia)). lia.
Qed.

Lemma arith_isa_eq op x y s : op ∈ alu_ops →
  wrap bits (arith op x y bits s) = isa_alu op bits s x y.
Proof using Hbits.
  pose proof bits_pos. intros Hop. unfold arith.
  destruct ((op =? LSH) || (op =? RSH) || (op =? ARSH)) eqn:Hsh.
  { rewrite <- (wrap_small bits (isa_alu op bits s x y)) by apply isa_alu_range.
    f_equal. apply arith_shift_isa.
    rewrite !orb_true_iff, !Z.eqb_eq in Hsh. tauto. }
  destruct ((op =? DIV) || (op =? MOD)) eqn:Hdm.
  { rewrite <- (wrap_small bits (isa_alu op bits s x y)) by apply isa_alu_range.
    f_equal. apply arith_divmod_isa. rewrite orb_true_iff, !Z.eqb_eq in Hdm. tauto. }
  assert (op ∈ [ADD; SUB; MUL; OR; AND; NEG; XOR]) as Hop'.
  { revert Hop Hsh Hdm. unfold alu_ops. unfold_ops. rewrite !elem_of_cons, elem_of_nil.
    intros Hop Hsh Hdm. bool_prop. lia. }
  destruct (bits =? 32).
  - rewrite !land_mask, wrap_wrap by lia.
    rewrite (arith_plain_isa op _ _ s) by done. apply isa_alu_wrap.
  - by apply arith_plain_isa.
Qed.

End arith_isa.

#[export] Hint Resolve isa_alu_range : hornet.

(** C19: constant folding computes the machine's result: for every two-operand
    ALU operation and both register widths, [arith] on arbitrary Python
    integers is, modulo the width, the instruction set's result on the
    operands reduced to that width (division by zero, negative dividends and
    out-of-range shift amounts included). *)
Theorem arith_folds_isa op x y bits signed :
  bits = 32 ∨ bits = 64 → op ∈ alu_ops →
  wrap bits (arith op x y bits signed) = isa_alu op bits signed x y.
Proof. intros Hb Hop. by apply arith_isa_eq. Qed.

Lemma arith_folds_isa_witness :
  (64 = 32 ∨ 64 = 64) ∧ DIV ∈ alu_ops ∧
  wrap 64 (arith DIV (-7) 2 64 true) = isa_alu DIV 64 true (-7) 2.
Proof.
  assert (64 = 32 ∨ 64 = 64) as Hb by (right; reflexivity).
  assert (DIV ∈ alu_ops) as Ho by (unfold alu_ops; rewrite !elem_of_cons; auto 10).
  split; [exact Hb|split; [exact Ho|]].
  apply (arith_folds_isa DIV (-7) 2 64 true Hb Ho).
Defined.

Example arith_sdiv : arith DIV (-7) 2 64 true = 2 ^ 64 - 3.
Proof. reflexivity. Qed.
Example arith_div0 : arith DIV 5 0 32 false = 0 ∧ arith MOD 5 0 32 false = 5.
Proof. split; reflexivity. Qed.
Example arith_lsh32 : arith LSH 1 33 32 false = 2.
Proof. reflexivity. Qed.
