(* ===== verification/Instr.v ===== *)
(** The instruction decoder of [bpf/instr.py]: one record per [Instr], the
    decoding of an 8- or 16-byte slot, the classification predicates, and the
    printed form. *)

From S2P Require Import Prelude Constants.

(** A relocation tag: a map number, a symbol name, or [None]. *)
Inductive tag :=
| TagNum (n : Z)
| TagStr (s : string)
| TagNone.

#[global] Instance tag_eq_dec : EqDecision tag.
Proof. solve_decision. Defined.

(** The attributes of an [Instr]. An attribute the constructor leaves unset
    (the decoded fields of a [nop], [opcode_sz] of an ALU instruction, ...)
    has the value -1; the code reads those only behind a class test. *)
Record instr := mk_instr {
  idx : Z;
  addr : Z;
  nop : bool;
  opcode : Z;
  opcode_class : Z;
  opcode_s : Z;
  opcode_code : Z;
  opcode_sz : Z;
  opcode_mode : Z;
  src_reg : Z;
  dst_reg : Z;
  offset : Z;
  imm : Z;
  wide_instr : bool;
  next_imm : Z;
  relocated : bool;
  reloc_tag : tag;
  reloc_region : Z;
  rodata_offset : option Z;
  bss_offset : Z
}.

#[global] Instance instr_eq_dec : EqDecision instr.
Proof. solve_decision. Defined.

Definition nop_instr (idx addr : Z) : instr :=
  mk_instr idx addr true (-1) (-1) (-1) (-1) (-1) (-1) (-1) (-1) 0 0 false 0
           false TagNone 0 None 0.

(** [int.from_bytes(bs, 'little', signed=True)]. *)
Definition le_signed (bs : list Z) : Z :=
  match bs with
  | [] => 0
  | _ => sgn (8 * Z.of_nat (length bs)) (le_int bs)
  end.

(** [bytecode[i:j]]. *)
Definition slice (i j : nat) (bs : list Z) : list Z := take (j - i) (drop i bs).

Definition in_classes (c : Z) (cs : list Z) : bool := existsb (Z.eqb c) cs.

Definition parse_bytecode (idx addr : Z) (bytecode : list Z) : res instr :=
  opcode ← py_index bytecode 0;
  let opcode_class := Z.land opcode OPC_CLASS_MASK in
  let alu_jmp := in_classes opcode_class [ALU; ALU64; JMP; JMP32] in
  let ld_st := in_classes opcode_class [LD; LDX; ST_; STX] in
  b1 ← py_index bytecode 1;
  let wide := opcode =? 0x18 in
  Ok {| idx := idx; addr := addr; nop := false;
        opcode := opcode; opcode_class := opcode_class;
        opcode_s := if alu_jmp then Z.shiftr (Z.land opcode OPC_S_MASK) 3 else -1;
        opcode_code := if alu_jmp then Z.shiftr (Z.land opcode OPC_CODE_MASK) 4 else -1;
        opcode_sz := if ld_st then Z.shiftr (Z.land opcode OPC_SZ_MASK) 3 else -1;
        opcode_mode := if ld_st then Z.shiftr (Z.land opcode OPC_MODE_MASK) 5 else -1;
        src_reg := Z.land (Z.shiftr b1 4) 0x0F;
        dst_reg := Z.land b1 0x0F;
        offset := le_signed (slice 2 4 bytecode);
        imm := le_signed (slice 4 8 bytecode);
        wide_instr := wide;
        next_imm := if wide then le_int (slice 8 16 bytecode) else 0;
        relocated := false; reloc_tag := TagNone; reloc_region := 0;
        rodata_offset := None; bss_offset := 0 |}.

(** [Instr(idx, addr, bytecode, nop)]. *)
Definition new_instr (idx addr : Z) (bytecode : list Z) (is_nop : bool) : res instr :=
  if is_nop then Ok (nop_instr idx addr) else parse_bytecode idx addr bytecode.

Definition set_reloc_tag (t : tag) (region : Z) (ro : option Z) (bo : Z) (i : instr) : instr :=
  {| idx := idx i; addr := addr i; nop := nop i; opcode := opcode i;
     opcode_class := opcode_class i; opcode_s := opcode_s i;
     opcode_code := opcode_code i; opcode_sz := opcode_sz i;
     opcode_mode := opcode_mode i; src_reg := src_reg i; dst_reg := dst_reg i;
     offset := offset i; imm := imm i; wide_instr := wide_instr i;
     next_imm := next_imm i; relocated := true; reloc_tag := t;
     reloc_region := region; rodata_offset := ro; bss_offset := bo |}.

(** [instr.idx = base + instr.idx]. *)
Definition set_idx (n : Z) (i : instr) : instr :=
  {| idx := n; addr := addr i; nop := nop i; opcode := opcode i;
     opcode_class := opcode_class i; opcode_s := opcode_s i;
     opcode_code := opcode_code i; opcode_sz := opcode_sz i;
     opcode_mode := opcode_mode i; src_reg := src_reg i; dst_reg := dst_reg i;
     offset := offset i; imm := imm i; wide_instr := wide_instr i;
     next_imm := next_imm i; relocated := relocated i; reloc_tag := reloc_tag i;
     reloc_region := reloc_region i; rodata_offset := rodata_offset i;
     bss_offset := bss_offset i |}.

Definition is_load (i : instr) : bool := in_classes (opcode_class i) [LD; LDX].
Definition is_store (i : instr) : bool := in_classes (opcode_class i) [ST_; STX].
Definition is_alu (i : instr) : bool := in_classes (opcode_class i) [ALU; ALU64].
Definition is_jump (i : instr) : bool := in_classes (opcode_class i) [JMP; JMP32].
Definition is_call (i : instr) : bool := is_jump i && (opcode_code i =? CALL).
Definition is_tail_call (i : instr) : bool :=
  is_call i && (src_reg i =? 0) && (imm i =? HELPER_TAIL_CALL).
Definition is_branch (i : instr) : bool :=
  is_jump i && negb (in_classes (opcode_code i) [JA; CALL; EXIT]).
Definition is_exit (i : instr) : bool := is_jump i && (opcode_code i =? EXIT).
Definition jump_offset (i : instr) : Z :=
  if (opcode_class i =? JMP32) && (opcode_code i =? JA) then imm i else offset i.

(** ** The printed form *)

Definition class_to_str : list (Z * string) :=
  [(LD, "LD"); (LDX, "LDX"); (ST_, "ST"); (STX, "STX")].

Definition dict_getitem {A} (d : list (Z * A)) (k : Z) : res A := of_option KeyError (dict_get d k).

Definition instr_str (i : instr) : res string :=
  let n := pretty (idx i) in
  let s := if opcode_s i =? S_IMM then "K" else "X" in
  let dst := "r" +:+ pretty (dst_reg i) in
  let src := if opcode_s i =? S_REG then "r" +:+ pretty (src_reg i) else pretty (imm i) in
  if nop i then Ok (n +:+ ": nop")
  else if in_classes (opcode_class i) [ALU; ALU64] then
    op ← dict_getitem alu_op_to_str (opcode_code i);
    Ok (n +:+ ": [" +:+ op +:+ ", " +:+ s +:+ ", "
        +:+ (if opcode_class i =? ALU then "ALU" else "ALU64") +:+ "] "
        +:+ dst +:+ " " +:+ src +:+ " / offset=" +:+ pretty (offset i))
  else if in_classes (opcode_class i) [JMP; JMP32] then
    op ← dict_getitem jmp_op_to_str (opcode_code i);
    let cls := if opcode_class i =? JMP then "JMP" else "JMP32" in
    if opcode_code i =? CALL then
      Ok (n +:+ ": [" +:+ op +:+ ", K, JMP] call " +:+ pretty (imm i)
          +:+ " / src_reg=" +:+ pretty (src_reg i))
    else if opcode_code i =? EXIT then Ok (n +:+ ": [" +:+ op +:+ ", K, JMP] exit")
    else if opcode_code i =? JA then
      Ok (n +:+ ": [" +:+ op +:+ ", " +:+ s +:+ ", " +:+ cls +:+ "] PC += "
          +:+ pretty (if opcode_class i =? JMP then offset i else imm i))
    else
      Ok (n +:+ ": [" +:+ op +:+ ", " +:+ s +:+ ", " +:+ cls +:+ "] "
          +:+ dst +:+ " " +:+ src +:+ " / PC += " +:+ pretty (offset i))
  else
    mode ← dict_getitem mode_to_str (opcode_mode i);
    sz ← dict_getitem sz_to_str (opcode_sz i);
    cls ← dict_getitem class_to_str (opcode_class i);
    Ok (n +:+ ": [" +:+ mode +:+ ", " +:+ sz +:+ ", " +:+ cls +:+ "] r"
        +:+ pretty (dst_reg i) +:+ " r" +:+ pretty (src_reg i)
        +:+ " / offset=" +:+ pretty (offset i) +:+ ", imm=" +:+ pretty (imm i)
        +:+ ", wide=" +:+ (if wide_instr i then "True" else "False")).

(** ** Reference encoding

    The instruction set's layout of an 8-byte slot: opcode, two register
    nibbles, 16-bit offset, 32-bit immediate, little-endian. *)
Definition encode_slot (op dst src off im : Z) : list Z :=
  op :: (src * 16 + dst) :: le_bytes 2 (wrap 16 off) ++ le_bytes 4 (wrap 32 im).

Definition field_ranges (op dst src off im : Z) : Prop :=
  0 <= op < 256 ∧ 0 <= dst < 16 ∧ 0 <= src < 16 ∧
  - 2 ^ 15 <= off < 2 ^ 15 ∧ - 2 ^ 31 <= im < 2 ^ 31.

Lemma sgn_id w x : 1 <= w → - 2 ^ (w - 1) <= x < 2 ^ (w - 1) → sgn w x = x.
Proof.
  intros Hw Hx. unfold sgn, wrap.
  assert (2 ^ w = 2 * 2 ^ (w - 1)) as E.
  { rewrite <- Z.pow_succ_r by lia. f_equal. lia. }
  destruct (Z.leb_spec (2 ^ (w - 1)) (x mod 2 ^ w)).
  - destruct (Z.ltb_spec x 0).
    + rewrite <- (Z_mod_plus_full x 1), Z.mod_small in * by lia. lia.
    + rewrite Z.mod_small in * by lia. lia.
  - destruct (Z.ltb_spec x 0).
    + rewrite <- (Z_mod_plus_full x 1), Z.mod_small in * by lia. lia.
    + rewrite Z.mod_small by lia. lia.
Qed.

Lemma sgn_wrap_id w x : 1 <= w → - 2 ^ (w - 1) <= x < 2 ^ (w - 1) →
  sgn w (wrap w x) = x.
Proof.
  intros Hw Hx. unfold sgn. rewrite wrap_wrap by lia. by apply sgn_id.
Qed.

Lemma le_signed_bytes n x : (0 < n)%nat →
  - 2 ^ (8 * Z.of_nat n - 1) <= x < 2 ^ (8 * Z.of_nat n - 1) →
  le_signed (le_bytes n (wrap (8 * Z.of_nat n) x)) = x.
Proof.
  intros Hn Hx. unfold le_signed.
  destruct (le_bytes n (wrap (8 * Z.of_nat n) x)) as [|b bs] eqn:E.
  { pose proof (length_le_bytes n (wrap (8 * Z.of_nat n) x)) as L. rewrite E in L. simpl in L. lia. }
  rewrite <- E, length_le_bytes, le_int_bytes.
  replace (wrap (8 * Z.of_nat n) x mod 2 ^ (8 * Z.of_nat n)) with (wrap (8 * Z.of_nat n) x)
    by (symmetry; apply wrap_wrap; lia).
  apply sgn_wrap_id; [lia|done].
Qed.

(** Decoding inverts the instruction encoding: a slot built from an opcode,
    two register numbers, an offset and an immediate in range decodes to those
    fields, the signed ones with their sign, and to an unrelocated instruction. *)
Theorem parse_encode op dst src off im n a :
  field_ranges op dst src off im → op ≠ 0x18 →
  ∃ i, new_instr n a (encode_slot op dst src off im) false = Ok i ∧
    idx i = n ∧ addr i = a ∧ opcode i = op ∧ opcode_class i = op mod 8 ∧
    dst_reg i = dst ∧ src_reg i = src ∧ offset i = off ∧ imm i = im ∧
    wide_instr i = false ∧ relocated i = false ∧ nop i = false.
Proof.
  intros (Hop & Hd & Hs & Ho & Hi) Hw.
  pose proof (le_signed_bytes 2 off ltac:(lia) Ho) as E2.
  pose proof (le_signed_bytes 4 im ltac:(lia) Hi) as E4.
  simpl in E2, E4.
  eexists. split; [reflexivity|]. simpl.
  repeat split; try done.
  - change OPC_CLASS_MASK with (Z.ones 3). by rewrite Z.land_ones.
  - change 15 with (Z.ones 4). rewrite Z.land_ones by done.
    symmetry. apply Z.mod_unique with src; lia.
  - change 15 with (Z.ones 4). rewrite Z.land_ones, Z.shiftr_div_pow2 by done.
    change (2 ^ 4) with 16.
    rewrite <- (Z.div_unique (src * 16 + dst) 16 src dst) by lia.
    apply Z.mod_small. lia.
  - by apply Z.eqb_neq.
Qed.

Lemma parse_encode_witness :
  field_ranges 0x07 3 0 0 (-14) ∧ 0x07 ≠ 0x18 ∧
  ∃ i, new_instr 5 40 (encode_slot 0x07 3 0 0 (-14)) false = Ok i ∧
    idx i = 5 ∧ addr i = 40 ∧ opcode i = 0x07 ∧ opcode_class i = 0x07 mod 8 ∧
    dst_reg i = 3 ∧ src_reg i = 0 ∧ offset i = 0 ∧ imm i = -14 ∧
    wide_instr i = false ∧ relocated i = false ∧ nop i = false.
Proof.
  assert (field_ranges 0x07 3 0 0 (-14)) as H by (unfold field_ranges; lia).
  assert (0x07 ≠ 0x18) as H' by lia.
  split; [exact H|split; [exact H'|]].
  apply (parse_encode 0x07 3 0 0 (-14) 5 40 H H').
Defined.

(** Every decoded instruction falls in exactly one of the four classes the
    tracker dispatches on. *)
Lemma class_partition n a bs i : Forall is_byte bs → new_instr n a bs false = Ok i →
  (if is_alu i then 1 else 0) + (if is_load i then 1 else 0)
  + (if is_store i then 1 else 0) + (if is_jump i then 1 else 0) = 1.
Proof.
  intros Hbs H. unfold new_instr, parse_bytecode in H. res_inv.
  unfold is_alu, is_load, is_store, is_jump. simpl.
  change OPC_CLASS_MASK with (Z.ones 3). rewrite Z.land_ones by done.
  pose proof (Z.mod_pos_bound v (2 ^ 3) ltac:(lia)) as Hm.
  change (2 ^ 3) with 8 in *.
  assert (v mod 8 ∈ [0;1;2;3;4;5;6;7]) as Hin
    by (rewrite !elem_of_cons, elem_of_nil; lia).
  repeat (apply elem_of_cons in Hin as [->|Hin]; [reflexivity|]).
  by apply elem_of_nil in Hin.
Qed.

Example instr_str_ex :
  (i ← new_instr 5 40 (encode_slot 0x07 3 0 0 (-14)) false; instr_str i)
  = Ok "5: [BPF_ADD, K, ALU64] r3 -14 / offset=0"%string.
Proof. reflexivity. Qed.
