(* ===== verification/Link.v ===== *)
(** Linking an entry object with its tail-call targets: [bpf/link.py].

    [link] concatenates the programs of the loaded objects, renumbers their
    instructions, merges their maps and globals and records the region of each
    program. *)

From S2P Require Import Prelude Constants Instr.

(** ** Data *)

(** One entry of [maps]: the dict of a parsed map definition. *)
Record map_info := mk_map_info {
  mi_id : Z;
  mi_name : option string;
  mi_type : Z;
  mi_key_size : Z;
  mi_value_size : Z;
  mi_max_entries : Z;
  mi_flags : Z
}.

Record TailSpec := mk_tail {
  t_path : string;
  t_entry : string;
  t_map_name : option string;
  t_slot : option Z
}.

Record ProgRegion := mk_region {
  r_name : string;
  r_path : string;
  r_start : Z;
  r_end : Z;
  r_slot : option Z;
  r_map_id : option Z;
  r_entry_block : option Z
}.

#[global] Instance map_info_eq_dec : EqDecision map_info.
Proof. solve_decision. Defined.
#[global] Instance region_eq_dec : EqDecision ProgRegion.
Proof. solve_decision. Defined.

Record symbol := mk_symbol { s_size : Z; s_offset : Z }.

(** [load['rodata']]: the section's bytes and index beside its symbols. *)
Record rodata := mk_rodata_sec {
  ro_data : option (list Z);
  ro_section_idx : option Z;
  ro_syms : list (string * symbol)
}.

Record load := mk_load {
  l_instrs : list instr;
  l_maps : list map_info;
  l_rodata : option rodata;
  l_bss : list (string * symbol);
  l_entry : string;
  l_entry_idx : Z;
  l_path : string;
  l_section : string
}.

Record linked := mk_linked {
  lk_instrs : list instr;
  lk_maps : list map_info;
  lk_rodata : rodata;
  lk_bss : list (string * symbol);
  lk_progs : list ProgRegion
}.

(** ** Regions *)

Definition is_main (r : ProgRegion) : bool :=
  bool_decide (r_slot r = None) && bool_decide (r_map_id r = None).

Definition contains (r : ProgRegion) (idx : Z) : bool := (r_start r <=? idx) && (idx <=? r_end r).

Fixpoint region_of (progs : list ProgRegion) (idx : Z) : option ProgRegion :=
  match progs with
  | [] => None
  | r :: progs' => if contains r idx then Some r else region_of progs' idx
  end.

(** ** Maps *)

Inductive map_key_t := KName (name : string) | KPos (path : string) (id : Z).

#[global] Instance map_key_t_eq_dec : EqDecision map_key_t.
Proof. solve_decision. Defined.

Definition _map_key (info : map_info) (path : string) : map_key_t :=
  match mi_name info with
  | Some n => if decide (n = ""%string) then KPos path (mi_id info) else KName n
  | None => KPos path (mi_id info)
  end.

Definition same_geometry (a b : map_info) : bool :=
  (mi_type a =? mi_type b) && (mi_key_size a =? mi_key_size b)
  && (mi_value_size a =? mi_value_size b) && (mi_max_entries a =? mi_max_entries b).

Definition set_map_id (i : Z) (m : map_info) : map_info :=
  mk_map_info i (mi_name m) (mi_type m) (mi_key_size m) (mi_value_size m)
              (mi_max_entries m) (mi_flags m).

Record merge_state := mk_merge {
  ms_merged : list map_info;
  ms_index : list (map_key_t * Z)
}.

(** The body of the inner loop: one map of one object. *)
Definition merge_map (path : string) (st : merge_state * list (Z * Z)) (info : map_info)
    : res (merge_state * list (Z * Z)) :=
  let '(ms, remap) := st in
  let key := _map_key info path in
  match pget (ms_index ms) key with
  | None =>
      let n := Z.of_nat (length (ms_merged ms)) in
      Ok (mk_merge (ms_merged ms ++ [set_map_id n info]) (pset (ms_index ms) key n),
          pset remap (mi_id info) n)
  | Some hit =>
      have ← py_index (ms_merged ms) hit;
      guard_or (same_geometry have info) (LinkError "map is declared differently");;
      Ok (ms, pset remap (mi_id info) hit)
  end.

Definition merge_load (st : merge_state * list (list (Z * Z))) (l : load)
    : res (merge_state * list (list (Z * Z))) :=
  let '(ms, remaps) := st in
  '(ms', remap) ← foldR (merge_map (l_path l)) (ms, []) (l_maps l);
  Ok (ms', remaps ++ [remap]).

Definition _merge_maps (loads : list load) : res (list map_info * list (list (Z * Z))) :=
  '(ms, remaps) ← foldR merge_load (mk_merge [] [], []) loads;
  Ok (ms_merged ms, remaps).

(** ** Globals *)

Definition merge_bss_sym (prefix : string)
    (st : list (string * symbol) * list (string * string)) (ns : string * symbol)
    : list (string * symbol) * list (string * string) :=
  let '(bss, rename) := st in
  let '(name, sym) := ns in
  match pget bss name with
  | None => (pset bss name sym, rename)
  | Some have =>
      if s_size have =? s_size sym then (bss, rename)
      else (pset bss (prefix +:+ name) sym, pset rename name (prefix +:+ name))
  end.

Definition pad8 (blob : list Z) : list Z :=
  let r := Z.of_nat (length blob) mod 8 in
  if r =? 0 then blob else blob ++ replicate (Z.to_nat (8 - r)) 0.

Record globals := mk_globals {
  g_bss : list (string * symbol);
  g_renames : list (list (string * string));
  g_rodata : list (string * symbol);
  g_blob : list Z;
  g_bases : list Z
}.

Definition merge_globals_load (g : globals) (l : load) : globals :=
  let prefix := l_entry l +:+ "." in
  let '(bss, rename) := fold_left (merge_bss_sym prefix) (l_bss l) (g_bss g, []) in
  let base := Z.of_nat (length (g_blob g)) in
  let data := match l_rodata l with Some r => default [] (ro_data r) | None => [] end in
  let syms := match l_rodata l with Some r => ro_syms r | None => [] end in
  let rod := fold_left (λ rod ns,
      let '(name, sym) := ns in
      let out := if pmem rod name then prefix +:+ name else name in
      pset rod out (mk_symbol (s_size sym) (s_offset sym + base))) syms (g_rodata g) in
  let blob := match data with [] => g_blob g | _ => pad8 (g_blob g ++ data) end in
  mk_globals bss (g_renames g ++ [rename]) rod blob (g_bases g ++ [base]).

Definition _merge_globals (loads : list load) :
    list (string * symbol) * rodata * list (list (string * string)) * list Z :=
  let g := fold_left merge_globals_load loads (mk_globals [] [] [] [] []) in
  let ro :=
    match g_blob g, g_rodata g with
    | [], [] => mk_rodata_sec None None []
    | _, _ => mk_rodata_sec (Some (g_blob g))
                (l ← head loads; r ← l_rodata l; ro_section_idx r) (g_rodata g)
    end in
  (g_bss g, ro, g_renames g, g_bases g).

(** ** Retagging and linking *)

Definition retag_instr (map_remap : list (Z * Z)) (bss_rename : list (string * string))
    (rodata_base : Z) (i : instr) : instr :=
  if negb (relocated i) then i
  else if reloc_region i =? 0 then
    match reloc_tag i with
    | TagNum n => set_reloc_tag (TagNum (default n (pget map_remap n))) 0
                    (rodata_offset i) (bss_offset i) i
    | _ => i
    end
  else if reloc_region i =? 1 then
    match reloc_tag i with
    | TagStr s => set_reloc_tag (TagStr (default s (pget bss_rename s))) 1
                    (rodata_offset i) (bss_offset i) i
    | _ => i
    end
  else if (reloc_region i =? 2) && negb (rodata_base =? 0) then
    set_reloc_tag (reloc_tag i) 2 (o ← rodata_offset i; Some (o + rodata_base))
                  (bss_offset i) i
  else i.

Definition _retag (instrs : list instr) (map_remap : list (Z * Z))
    (bss_rename : list (string * string)) (rodata_base : Z) : list instr :=
  map (retag_instr map_remap bss_rename rodata_base) instrs.

Definition _prog_array_id (maps : list map_info) (want : option string) : res Z :=
  let progs := filter (λ m, mi_type m = BPF_MAP_TYPE_PROG_ARRAY) maps in
  match want with
  | Some w =>
      match list_find (λ m, mi_name m = Some w) progs with
      | Some (_, m) => Ok (mi_id m)
      | None =>
          match list_find (λ m, mi_name m = Some w) maps with
          | Some _ => Err (LinkError "map is not a PROG_ARRAY")
          | None => Err (LinkError "no map named")
          end
      end
  | None =>
      match progs with
      | [] => Err (LinkError "the main object declares no BPF_MAP_TYPE_PROG_ARRAY map")
      | [m] => Ok (mi_id m)
      | _ => Err (LinkError "which prog array?")
      end
  end.

(** The checks on one [--tail] object before anything is merged. *)
Definition check_tail (l : load) : res unit :=
  guard_or (negb (existsb is_tail_call (l_instrs l)))
           (LinkError "contains a bpf_tail_call of its own");;
  guard_or (l_entry_idx l =? 0) (LinkError "is not the first function in section").

(** One iteration of the concatenation loop. *)
Definition link_load (maps : list map_info) (nloads : nat)
    (st : list instr * list ProgRegion)
    (x : nat * (load * (list (Z * Z) * (list (string * string) * Z)) * option TailSpec))
    : res (list instr * list ProgRegion) :=
  let '(instrs, progs) := st in
  let '(i, (l, (remap, (rename, ro_base)), tail)) := x in
  let base := Z.of_nat (length instrs) in
  let body := l_instrs l in
  last_i ← of_option (LinkError "decoded to no instructions") (last body);
  guard_or (negb (i + 1 <? nloads)%nat || is_exit last_i)
           (LinkError "section does not end in EXIT");;
  let body' := map (λ ins, set_idx (base + idx ins) ins) (_retag body remap rename ro_base) in
  let instrs' := instrs ++ body' in
  map_id ← match tail with
           | None => Ok None
           | Some t => n ← _prog_array_id maps (t_map_name t); Ok (Some n)
           end;
  Ok (instrs', progs ++ [mk_region (l_entry l) (l_path l) base
                           (Z.of_nat (length instrs') - 1)
                           (t ← tail; t_slot t) map_id None]).

(** Two callees may not be loaded into one prog array. *)
Fixpoint check_claims (claimed : list (option Z)) (rs : list ProgRegion) : res unit :=
  match rs with
  | [] => Ok tt
  | r :: rs' =>
      guard_or (negb (bool_decide (r_map_id r ∈ claimed))) (LinkError "are both loaded into");;
      check_claims (r_map_id r :: claimed) rs'
  end.

Definition link (loads : list load) (tails : list TailSpec) : res linked :=
  _ ← py_index loads 0;
  guard_or (length loads =? length tails + 1)%nat (LinkError "link: object(s) but --tail");;
  mapR check_tail (tl loads);;
  '(maps, remaps) ← _merge_maps loads;
  let '(bss, ro, renames, bases) := _merge_globals loads in
  let xs := imap pair (zip (zip loads (zip remaps (zip renames bases)))
                           (None :: map Some tails)) in
  '(instrs, progs) ← foldR (link_load maps (length loads)) ([], []) xs;
  check_claims [] (tl progs);;
  Ok (mk_linked instrs maps ro bss progs).

(** ** Merged maps *)

(** A map found by its name has that name. *)
Definition named_by (k : map_key_t) (m : map_info) : Prop :=
  match k with KName n => mi_name m = Some n | KPos _ _ => True end.

Definition same_name (m info : map_info) : Prop :=
  ∀ n, mi_name info = Some n → n ≠ ""%string → mi_name m = Some n.

Lemma named_same info path m : named_by (_map_key info path) m → same_name m info.
Proof. unfold _map_key, same_name. intros Hk n Hn Hne. rewrite Hn in Hk. by rewrite decide_False in Hk. Qed.
Lemma named_self info path i : named_by (_map_key info path) (set_map_id i info).
Proof. unfold _map_key. destruct (mi_name info) as [n|] eqn:E; [|done]. by destruct (decide _). Qed.

(** What the merge maintains: entry [i] of the merged list has number [i], the
    index sends the key of every merged map to a position of the list, and an
    entry once there stays. *)
Definition merge_ok (ms : merge_state) : Prop :=
  (∀ i m, ms_merged ms !! i = Some m → mi_id m = Z.of_nat i) ∧
  (∀ k n, pget (ms_index ms) k = Some n →
     0 <= n ∧ ∃ m, ms_merged ms !! Z.to_nat n = Some m ∧ named_by k m).

(** [new] is where map [info] of the object went. *)
Definition merged_as (merged : list map_info) (info : map_info) (n : Z) : Prop :=
  0 <= n ∧ ∃ m, merged !! Z.to_nat n = Some m ∧ mi_id m = n ∧ same_geometry m info = true ∧
    same_name m info.

Lemma same_geometry_refl i m : same_geometry (set_map_id i m) m = true.
Proof. unfold same_geometry, set_map_id. simpl. by rewrite !Z.eqb_refl. Qed.

Lemma merge_map_ok path ms remap info ms' remap' :
  merge_ok ms → merge_map path (ms, remap) info = Ok (ms', remap') →
  merge_ok ms' ∧ ms_merged ms `prefix_of` ms_merged ms' ∧
  ∃ n, remap' = pset remap (mi_id info) n ∧ merged_as (ms_merged ms') info n.
Proof.
  intros (Hid & Hix) H. unfold merge_map in H. cbv zeta in H.
  destruct (pget (ms_index ms) (_map_key info path)) as [hit|] eqn:E.
  - res_inv. destruct (Hix _ _ E) as (Hp & m & Hm & Hnm). apply py_index_Ok in E0; [|done].
    split; [done|]. split; [done|]. eexists. split; [done|].
    split; [done|]. rewrite Hm in E0. injection E0 as <-. exists m. split; [done|].
    split; [rewrite (Hid _ _ Hm); lia|]. split; [done|]. by eapply named_same.
  - res_inv. simpl. set (n := length (ms_merged ms)). split; [split|split].
    + intros i m. simpl. rewrite lookup_app_Some. intros [Hl|(Hge & Hl)]; [by apply Hid|].
      apply list_lookup_singleton_Some in Hl as [Hi <-]. simpl. fold n in Hge, Hi. lia.
    + simpl. intros k z. rewrite pget_pset. case_decide.
      * intros [= <-]. split; [lia|]. rewrite Nat2Z.id. eexists. split; [by apply list_lookup_middle|].
        subst k. apply named_self.
      * intros Hg. destruct (Hix _ _ Hg) as (? & m & Hm & ?). split; [done|]. exists m.
        split; [by apply lookup_app_l_Some|done].
    + by apply prefix_app_r.
    + eexists. split; [done|]. split; [lia|]. exists (set_map_id (Z.of_nat n) info).
      rewrite Nat2Z.id. split; [by apply list_lookup_middle|].
      split; [done|]. split; [apply same_geometry_refl|]. eapply (named_same _ path), named_self.
Qed.

Lemma merged_as_mono merged merged' info n :
  merged `prefix_of` merged' → merged_as merged info n → merged_as merged' info n.
Proof.
  intros [suf ->] (? & m & Hm & ? & ?). split; [done|]. exists m.
  split; [by apply lookup_app_l_Some|done].
Qed.

Lemma merge_maps_load path ms maps ms' remap :
  merge_ok ms → NoDup (mi_id <$> maps) →
  foldR (merge_map path) (ms, []) maps = Ok (ms', remap) →
  merge_ok ms' ∧ ms_merged ms `prefix_of` ms_merged ms' ∧
  ∀ info, info ∈ maps → ∃ n, pget remap (mi_id info) = Some n ∧ merged_as (ms_merged ms') info n.
Proof.
  intros Hok Hnd HF.
  apply (foldR_ind _ (λ pre st, merge_ok st.1 ∧ ms_merged ms `prefix_of` ms_merged st.1 ∧
    ∀ info, info ∈ pre → ∃ n, pget st.2 (mi_id info) = Some n ∧
      merged_as (ms_merged st.1) info n)) in HF; [done| |].
  { split; [done|]. split; [done|]. intros ? []%elem_of_nil. }
  intros pre a [ms1 r1] [ms2 r2] [suf Hsuf] (H1 & Hp & Hall) Hm. simpl in *.
  destruct (merge_map_ok _ _ _ _ _ _ H1 Hm) as (H2 & Hp2 & n & -> & Hn).
  split; [done|]. split; [by etrans|].
  intros info [Hin| ->%list_elem_of_singleton]%elem_of_app.
  - destruct (Hall _ Hin) as (k & Hk & Hka). exists k. split; [|by eapply merged_as_mono].
    rewrite pget_pset, decide_False; [done|]. intros Heq.
    rewrite Hsuf, !fmap_app, <- app_assoc in Hnd.
    apply NoDup_app in Hnd as (_ & Hd & _). apply (Hd (mi_id info)).
    + by apply list_elem_of_fmap_2.
    + rewrite Heq. simpl. left.
  - exists n. split; [by rewrite pget_pset, decide_True|done].
Qed.

(** Linking keeps every map: after the maps of all objects are merged, each
    map of each object is sent by that object's renumbering to an entry of the
    merged table that carries its own position as its number and has the same
    name, where it has one, type, key size, value size and capacity. *)
Theorem merge_maps_faithful loads merged remaps :
  (∀ l, l ∈ loads → NoDup (mi_id <$> l_maps l)) →
  _merge_maps loads = Ok (merged, remaps) →
  ∀ j l info, loads !! j = Some l → info ∈ l_maps l →
    ∃ remap n m, remaps !! j = Some remap ∧ pget remap (mi_id info) = Some n ∧ 0 <= n ∧
      merged !! Z.to_nat n = Some m ∧ mi_id m = n ∧ same_geometry m info = true ∧ same_name m info.
Proof.
  intros Hnd H. unfold _merge_maps in H. res_inv. destruct v as [ms rs]. res_inv.
  apply (foldR_ind _ (λ pre st, merge_ok st.1 ∧ length st.2 = length pre ∧
    ∀ j l info, pre !! j = Some l → info ∈ l_maps l →
    ∃ remap n, st.2 !! j = Some remap ∧ pget remap (mi_id info) = Some n ∧
      merged_as (ms_merged st.1) info n)) in E.
  - destruct E as (_ & _ & Hall). intros j l info Hj Hi.
    destruct (Hall j l info Hj Hi) as (remap & n & ? & ? & ? & m & ?). exists remap, n, m. tauto.
  - split; [split; [by intros|done]|]. split; [done|]. by intros.
  - intros pre l [ms1 rs1] [ms2 rs2] [suf Hsuf] (Hok & Hlen & Hall) Hl. simpl in *.
    res_inv. destruct v as [ms3 remap]. res_inv. simpl.
    destruct (merge_maps_load _ _ _ _ _ Hok (Hnd l ltac:(set_solver)) E0)
      as (Hok' & Hp & Hmaps).
    split; [done|]. split; [rewrite !length_app; simpl; lia|].
    intros j l' info. rewrite lookup_app_Some. intros [Hj|(Hge & Hj)] Hi.
    + destruct (Hall _ _ _ Hj Hi) as (r & n & Hr & ? & ?). exists r, n.
      split; [by apply lookup_app_l_Some|]. split; [done|]. by eapply merged_as_mono.
    + apply list_lookup_singleton_Some in Hj as [Hj <-].
      destruct (Hmaps _ Hi) as (n & ? & ?). exists remap, n.
      split; [|done]. rewrite lookup_app_r by lia. by rewrite Hlen, Hj.
Qed.

(** ** Program regions *)

Lemma region_of_app p q k :
  region_of (p ++ q) k = match region_of p k with Some r => Some r | None => region_of q k end.
Proof. induction p as [|r p IH]; simpl; [done|]. by destruct (contains r k). Qed.

(** What linking leaves of an instruction: all but its number and what it refers to. *)
Definition code (i : instr) :=
  (addr i, nop i, (opcode i, opcode_class i, opcode_s i, opcode_code i, opcode_sz i, opcode_mode i),
   (src_reg i, dst_reg i, offset i, imm i, wide_instr i, next_imm i), (relocated i, reloc_region i, bss_offset i)).

Lemma retag_code mr br rb i : code (retag_instr mr br rb i) = code i ∧ idx (retag_instr mr br rb i) = idx i.
Proof.
  unfold retag_instr. destruct (relocated i) eqn:Er; simpl; [|done].
  repeat match goal with
  | |- context [if ?b then _ else _] => destruct b eqn:?
  | |- context [match reloc_tag ?i with _ => _ end] => destruct (reloc_tag i)
  end; bool_prop; unfold code; simpl; split; congruence.
Qed.

(** Where the instructions of object [j] start. *)
Definition size_of (loads : list load) : nat := list_sum (map (λ l, length (l_instrs l)) loads).
Definition start_of (loads : list load) (j : nat) : nat := size_of (take j loads).

Lemma size_of_app l k : size_of (l ++ k) = (size_of l + size_of k)%nat.
Proof. unfold size_of. by rewrite map_app, list_sum_app. Qed.

(** An object with the renumberings of its maps, its globals and its data. *)
Definition placed : Type := load * (list (Z * Z) * (list (string * string) * Z)).
Definition at_place (k : nat) (x : placed) (i0 : instr) : instr :=
  let '(_, (remap, (rename, rb))) := x in set_idx (Z.of_nat k) (retag_instr remap rename rb i0).

(** What a prefix of the objects is linked to. *)
Record link_inv (pre : list placed) (instrs : list instr) (progs : list ProgRegion) : Prop := {
  li_len : length progs = length pre;
  li_size : length instrs = size_of pre.*1;
  li_out k : Z.of_nat (length instrs) <= k → region_of progs k = None;
  li_at j x : pre !! j = Some x → ∃ r, progs !! j = Some r ∧
    r_name r = l_entry x.1 ∧ r_path r = l_path x.1 ∧ r_start r = Z.of_nat (start_of pre.*1 j) ∧
    r_end r = Z.of_nat (start_of pre.*1 j + length (l_instrs x.1)) - 1 ∧
    ∀ q i0, l_instrs x.1 !! q = Some i0 → let k := (start_of pre.*1 j + q)%nat in
      instrs !! k = Some (at_place k x i0) ∧ region_of progs (Z.of_nat k) = Some r
}.

Lemma link_load_inv maps n pre instrs progs k x tail instrs' progs' :
  (∀ q i, l_instrs x.1 !! q = Some i → idx i = Z.of_nat q) →
  link_inv pre instrs progs →
  link_load maps n (instrs, progs) (k, (x, tail)) = Ok (instrs', progs') →
  link_inv (pre ++ [x]) instrs' progs'.
Proof.
  destruct x as [l [remap [rename rb]]]. unfold placed in *. intros Hnum [Hlen Hsize Hout Hat] H. unfold link_load in H. cbv zeta in H. res_inv.
  set (base := length instrs) in *. cbn [fst] in *.
  match goal with |- context [instrs ++ ?b] => set (body := b) end.
  set (r := mk_region _ _ _ _ _ _ _).
  assert (length body = length (l_instrs l)) as Hbl by (unfold body, _retag; by rewrite !length_fmap).
  assert (∀ j, (j <= length pre)%nat → start_of (pre ++ [(l, (remap, (rename, rb)))]).*1 j = start_of pre.*1 j) as Hst.
  { intros j Hj. unfold start_of. by rewrite fmap_app, take_app_le by (by rewrite length_fmap). }
  assert (start_of pre.*1 (length pre) = base) as Hbase.
  { unfold start_of. rewrite take_ge by (by rewrite length_fmap). by rewrite <- Hsize. }
  split; unfold placed in *.
  - rewrite !length_app. simpl. lia.
  - rewrite length_app, fmap_app, size_of_app, <- Hsize, Hbl. unfold size_of. simpl. lia.
  - intros q Hq. rewrite length_app in Hq. rewrite region_of_app, Hout by (fold base; lia). simpl.
    unfold contains. simpl. rewrite length_app. fold base.
    rewrite (proj2 (Z.leb_gt q _)) by (fold base in Hq; lia). by rewrite andb_false_r.
  - intros j x Hj. pose proof (lookup_lt_Some _ _ _ Hj) as Hlt. rewrite length_app in Hlt. simpl in Hlt.
    rewrite Hst by lia. apply lookup_app_Some in Hj as [Hj | [Hge Hj]].
    + destruct (Hat j x Hj) as (r' & Hr & Hn & Hp & Hs & He & Hi). exists r'.
      split; [by apply lookup_app_l_Some|]. split_and!; [done..|]. intros q i0 Hq. destruct (Hi q i0 Hq) as [H1 H2].
      split; [by apply lookup_app_l_Some|]. by rewrite region_of_app, H2.
    + apply list_lookup_singleton_Some in Hj as [Hj <-]. assert (j = length pre) as -> by lia. rewrite Hbase.
      exists r. split; [by rewrite <- Hlen; apply list_lookup_middle|].
      split; [done|]. split; [done|]. split; [done|]. split; [unfold r; simpl; rewrite length_app, Hbl; done|].
      intros q i0 Hq. pose proof (lookup_lt_Some _ _ _ Hq). simpl in Hq. split.
      * rewrite lookup_app_r by (fold base; lia). replace (base + q - length instrs)%nat with q by (fold base; lia).
        unfold body, _retag. rewrite !list_lookup_fmap, Hq. simpl.
        destruct (retag_code remap rename rb i0) as [_ ->]. rewrite (Hnum _ _ Hq). do 2 f_equal. lia.
      * rewrite region_of_app, Hout by (fold base; lia). simpl.
        assert (contains r (Z.of_nat (base + q)) = true) as ->; [|done].
        unfold contains, r. simpl in *. rewrite length_app. fold base. apply andb_true_iff. split; apply Z.leb_le; lia.
Qed.

Lemma merge_globals_length loads bss ro renames bases :
  _merge_globals loads = (bss, ro, renames, bases) →
  length renames = length loads ∧ length bases = length loads.
Proof.
  unfold _merge_globals. intros [= <- <- <- <-].
  apply (fold_left_ind _ (λ pre g, length (g_renames g) = length pre ∧
                                   length (g_bases g) = length pre)); [done|].
  intros pre l g _ [H1 H2]. unfold merge_globals_load.
  destruct (fold_left _ _ _). simpl. rewrite !length_app. simpl. lia.
Qed.

(** The read-only bytes of an object, which the linked data hold from its base on. *)
Definition obj_data (l : load) : list Z := match l_rodata l with Some r => default [] (ro_data r) | None => [] end.

Lemma merge_globals_data loads bss ro renames bases :
  _merge_globals loads = (bss, ro, renames, bases) → ∀ j l, loads !! j = Some l →
  ∃ b, bases !! j = Some (Z.of_nat b) ∧ obj_data l `prefix_of` drop b (default [] (ro_data ro)).
Proof.
  unfold _merge_globals. intros [= <- <- <- <-].
  set (g := fold_left _ _ _).
  assert (default [] (ro_data match g_blob g, g_rodata g with
    | [], [] => mk_rodata_sec None None []
    | _, _ => mk_rodata_sec (Some (g_blob g)) (l ← head loads; r ← l_rodata l; ro_section_idx r) (g_rodata g)
    end) = g_blob g) as -> by (by destruct (g_blob g), (g_rodata g)).
  assert (length (g_bases g) = length loads ∧ ∀ j l, loads !! j = Some l →
    ∃ b, g_bases g !! j = Some (Z.of_nat b) ∧ (b <= length (g_blob g))%nat ∧ obj_data l `prefix_of` drop b (g_blob g))
    as [_ Hg]; [|intros j l Hj; destruct (Hg j l Hj) as (b & ? & _ & ?); eauto].
  unfold g. apply (fold_left_ind _ (λ pre g, length (g_bases g) = length pre ∧ ∀ j l, pre !! j = Some l →
    ∃ b, g_bases g !! j = Some (Z.of_nat b) ∧ (b <= length (g_blob g))%nat ∧ obj_data l `prefix_of` drop b (g_blob g)));
    [done|].
  intros pre l g0 _ [Hl Hg]. unfold merge_globals_load. destruct (fold_left _ (l_bss l) _) as [bs rn].
  fold (obj_data l). cbv zeta. cbn [g_bases g_blob].
  set (blob := match obj_data l with [] => g_blob g0 | _ => pad8 (g_blob g0 ++ obj_data l) end).
  assert (∃ suf, blob = g_blob g0 ++ obj_data l ++ suf) as [suf ->].
  { unfold blob. destruct (obj_data l) as [|x d]; [exists []; by rewrite app_nil_r|]. unfold pad8. cbv zeta.
    destruct (_ =? 0); [exists []; by rewrite app_nil_r|]. eexists. rewrite <- app_assoc. reflexivity. }
  rewrite !length_app. split; [simpl; lia|]. intros j l'. rewrite lookup_app_Some. intros [Hj | [Hge Hj]].
  - destruct (Hg j l' Hj) as (b & Hb & Hle & Hp). exists b. split; [by apply lookup_app_l_Some|]. split; [lia|].
    rewrite drop_app_le by done. by apply prefix_app_r.
  - apply list_lookup_singleton_Some in Hj as [Hj <-]. assert (j = length pre) as -> by lia.
    exists (length (g_blob g0)). rewrite <- Hl. split; [by apply list_lookup_middle|]. split; [lia|].
    rewrite drop_app_length. by apply prefix_app_r.
Qed.

Lemma merge_maps_length loads merged remaps :
  _merge_maps loads = Ok (merged, remaps) → length remaps = length loads.
Proof.
  unfold _merge_maps. intros H. res_inv. destruct v. res_inv.
  apply (foldR_ind _ (λ pre st, length st.2 = length pre)) in E; [done|done|].
  intros pre l [ms rs] st _ Hlen Hl. simpl in *. res_inv. destruct v. res_inv. simpl.
  rewrite !length_app. simpl in *. lia.
Qed.

Lemma snd_imap_pair {A} (l : list A) : (imap pair l).*2 = l.
Proof.
  apply list_eq. intros i. rewrite list_lookup_fmap, list_lookup_imap.
  by destruct (l !! i).
Qed.

Lemma size_of_split loads k : (k < size_of loads)%nat →
  ∃ j l q i0, loads !! j = Some l ∧ l_instrs l !! q = Some i0 ∧ k = (start_of loads j + q)%nat.
Proof.
  revert k. induction loads as [|l loads IH]; intros k Hk; [unfold size_of in Hk; simpl in Hk; lia|].
  change (size_of (l :: loads)) with (length (l_instrs l) + size_of loads)%nat in Hk.
  destruct (decide (k < length (l_instrs l))%nat) as [Hl | Hl].
  - destruct (lookup_lt_is_Some_2 _ _ Hl) as [i0 Hi]. by exists O, l, k, i0.
  - destruct (IH (k - length (l_instrs l))%nat ltac:(lia)) as (j & l' & q & i0 & ? & ? & Hq).
    exists (S j), l', q, i0. split; [done|]. split; [done|]. unfold start_of, size_of in *. simpl. lia.
Qed.

(** Instruction [i] of the linked program refers to what [i0] referred to in [l]: the same
    map, the same read-only bytes; without a relocation, nothing. *)
Record refers_as (L : linked) (l : load) (i i0 : instr) : Prop := {
  rf_none : relocated i0 = false → reloc_tag i = reloc_tag i0 ∧ rodata_offset i = rodata_offset i0;
  rf_map info : relocated i0 = true → reloc_region i0 = 0 → reloc_tag i0 = TagNum (mi_id info) → info ∈ l_maps l →
    ∃ n m, reloc_tag i = TagNum n ∧ 0 <= n ∧ lk_maps L !! Z.to_nat n = Some m ∧ mi_id m = n ∧
      same_geometry m info = true ∧ same_name m info;
  rf_data o : relocated i0 = true → reloc_region i0 = 2 → rodata_offset i0 = Some (Z.of_nat o) →
    ∃ o', rodata_offset i = Some (Z.of_nat o') ∧
      drop o (obj_data l) `prefix_of` drop o' (default [] (ro_data (lk_rodata L)))
}.

Lemma retag_refers L l k remap rename b i0 :
  (∀ info, info ∈ l_maps l → ∃ n m, pget remap (mi_id info) = Some n ∧ 0 <= n ∧ lk_maps L !! Z.to_nat n = Some m ∧
     mi_id m = n ∧ same_geometry m info = true ∧ same_name m info) →
  obj_data l `prefix_of` drop b (default [] (ro_data (lk_rodata L))) →
  refers_as L l (set_idx k (retag_instr remap rename (Z.of_nat b) i0)) i0.
Proof.
  intros Hmaps [suf Hdata]. split; unfold retag_instr.
  - intros ->. done.
  - intros info -> -> -> Hin. destruct (Hmaps info Hin) as (n & m & Hn & ?). exists n, m. simpl. by rewrite Hn.
  - intros o -> -> Ho. simpl. assert (drop o (obj_data l) `prefix_of` drop (b + o) (default [] (ro_data (lk_rodata L)))) as Hp.
    { rewrite <- drop_drop, Hdata. destruct (decide (o <= length (obj_data l))%nat).
      - rewrite drop_app_le by done. by apply prefix_app_r.
      - rewrite (drop_ge (obj_data l)) by lia. apply prefix_nil. }
    destruct (Z.of_nat b =? 0) eqn:Eb; simpl.
    + assert (b = O) as -> by lia. by exists o.
    + rewrite Ho. simpl. exists (b + o)%nat. split; [f_equal; lia|done].
Qed.

(** C27 Linking lays the programs out one after the other and loses nothing: provided each object's
    instructions are numbered from 0 and its maps told apart, the linked program is as long as the objects
    together, and instruction [q] of object [j] is at [q] positions behind the instructions of the objects
    before, numbered by that position, the same but for its number and the tags of its relocation, which still
    refer to the same map and the same read-only bytes; no other instruction is there. There is one region per
    object, from its first instruction to its last, and [region_of] finds it for these and none behind the end. *)
Theorem link_layout loads tails L :
  (∀ l, l ∈ loads → ∀ q i, l_instrs l !! q = Some i → idx i = Z.of_nat q) →
  (∀ l, l ∈ loads → NoDup (mi_id <$> l_maps l)) →
  link loads tails = Ok L →
  length (lk_progs L) = length loads ∧ length (lk_instrs L) = size_of loads ∧
  (∀ k, Z.of_nat (length (lk_instrs L)) <= k → region_of (lk_progs L) k = None) ∧
  (∀ j l, loads !! j = Some l → ∃ r, lk_progs L !! j = Some r ∧ r_name r = l_entry l ∧ r_path r = l_path l ∧
     r_start r = Z.of_nat (start_of loads j) ∧ r_end r = Z.of_nat (start_of loads j + length (l_instrs l)) - 1 ∧
     ∀ q i0, l_instrs l !! q = Some i0 → let k := (start_of loads j + q)%nat in
       ∃ i, lk_instrs L !! k = Some i ∧ idx i = Z.of_nat k ∧ code i = code i0 ∧ refers_as L l i i0 ∧
         region_of (lk_progs L) (Z.of_nat k) = Some r) ∧
  (∀ k, (k < length (lk_instrs L))%nat → ∃ j l q i0, loads !! j = Some l ∧ l_instrs l !! q = Some i0 ∧
     k = (start_of loads j + q)%nat).
Proof.
  intros Hnum Hnd H. unfold link in H. res_inv. destruct v2 as [maps remaps].
  pose proof (merge_maps_length _ _ _ E2) as Hr.
  destruct (_merge_globals loads) as [[[bss ro] renames] bases] eqn:Hg.
  destruct (merge_globals_length _ _ _ _ _ Hg) as [Hrn Hb]. res_inv.
  destruct v2 as [instrs progs]. res_inv. set (L := mk_linked _ _ _ _ _). simpl.
  apply Nat.eqb_eq in E0.
  set (xs := imap pair _) in E3. set (ps := zip loads (zip remaps (zip renames bases))) in *.
  assert (xs.*2.*1 = ps) as Hxs.
  { unfold xs. rewrite snd_imap_pair, fst_zip; [done|].
    unfold ps. rewrite !length_zip_with. simpl. rewrite length_map. lia. }
  assert (ps.*1 = loads) as Hps by (apply fst_zip; rewrite !length_zip_with; lia).
  assert (link_inv xs.*2.*1 instrs progs) as [Hl Hs Ho Hat].
  { apply (foldR_ind _ (λ pre st, link_inv pre.*2.*1 st.1 st.2)) in E3; [done|by split|].
    intros pre [k [x tail]] [ins qs] [ins' qs'] Hpre HP HL. simpl in HP. rewrite !fmap_app. simpl.
    eapply link_load_inv; [|done|done]. apply Hnum. rewrite <- Hps, <- Hxs. destruct Hpre as [suf ->].
    rewrite !fmap_app. simpl. set_solver+. }
  rewrite Hxs, ?Hps in *. assert (length ps = length loads) as Hlen by (by rewrite <- Hps, length_fmap).
  split; [by rewrite Hl|]. split; [done|]. split; [done|]. split; [|intros k; rewrite Hs; apply size_of_split].
  intros j l Hj. destruct (lookup_lt_is_Some_2 ps j) as [[l' [remap [rename rb]]] Hx];
    [rewrite Hlen; by eapply lookup_lt_Some|].
  assert (l' = l) as -> by (assert (ps.*1 !! j = Some l') as Hl' by (by rewrite list_lookup_fmap, Hx); congruence).
  destruct (Hat j _ Hx) as (r & Hrj & Hn & Hp & Hst & He & Hi). exists r. split_and!; [done..|].
  intros q i0 Hq. destruct (Hi q i0 Hq) as [Hik Hreg]. eexists. split; [exact Hik|].
  unfold at_place. split; [done|]. destruct (retag_code remap rename rb i0) as [Hcode _].
  split; [by rewrite <- Hcode|]. split; [|done].
  assert (remaps !! j = Some remap ∧ bases !! j = Some rb) as [Hrm Hrb].
  { unfold ps in Hx. apply lookup_zip_Some in Hx as [_ Hx]. apply lookup_zip_Some in Hx as [? Hx].
    by apply lookup_zip_Some in Hx as [_ ?]. }
  destruct (merge_globals_data _ _ _ _ _ Hg j l Hj) as (b & Hbj & Hdata). rewrite Hrb in Hbj. injection Hbj as ->.
  apply retag_refers; [|done]. intros info Hin.
  destruct (merge_maps_faithful loads maps remaps Hnd E2 j l info Hj Hin) as (remap' & n & m & Hr' & ?).
  rewrite Hrm in Hr'. injection Hr' as <-. by exists n, m.
Qed.

(** ** A concrete link: an entry program and one tail-call target *)

Definition ex_instr (n op im : Z) : instr :=
  match new_instr n (8 * n) (encode_slot op 0 0 0 im) false with Ok i => i | Err _ => nop_instr n 0 end.
Definition ex_prog : list instr := [ex_instr 0 0xb7 2; ex_instr 1 0x95 0].
Definition ex_maps : list map_info := [mk_map_info 0 (Some "jmp"%string) 3 4 4 8 0].
Definition ex_loads : list load :=
  [mk_load ex_prog ex_maps None [] "main" 0 "a.o" "xdp";
   mk_load ex_prog ex_maps None [] "callee" 0 "b.o" "xdp_callee"].
Definition ex_tails : list TailSpec := [mk_tail "b.o" "callee" None (Some 1)].

Lemma merge_maps_faithful_witness :
  ∃ merged remaps, _merge_maps ex_loads = Ok (merged, remaps) ∧
    ∃ remap n m, remaps !! 1%nat = Some remap ∧ pget remap 0 = Some n ∧ 0 <= n ∧
      merged !! Z.to_nat n = Some m ∧ mi_id m = n ∧
      same_geometry m (mk_map_info 0 (Some "jmp"%string) 3 4 4 8 0) = true ∧
      same_name m (mk_map_info 0 (Some "jmp"%string) 3 4 4 8 0).
Proof.
  eexists _, _. split; [reflexivity|].
  assert (∀ l, l ∈ ex_loads → NoDup (mi_id <$> l_maps l)) as Hnd.
  { intros l Hl. unfold ex_loads in Hl. rewrite !elem_of_cons, elem_of_nil in Hl.
    destruct Hl as [-> | [-> | []]]; apply NoDup_singleton. }
  pose proof (merge_maps_faithful ex_loads _ _ Hnd eq_refl 1%nat _
    (mk_map_info 0 (Some "jmp"%string) 3 4 4 8 0) eq_refl) as H.
  simpl in H. apply H. left.
Defined.

(** The [exit] of the callee is instruction 3. *)
Lemma link_layout_witness :
  ∃ L, link ex_loads ex_tails = Ok L ∧ length (lk_progs L) = 2%nat ∧ length (lk_instrs L) = 4%nat ∧
    ∃ i r, lk_instrs L !! 3%nat = Some i ∧ idx i = 3 ∧ code i = code (ex_instr 1 0x95 0) ∧
      region_of (lk_progs L) 3 = Some r ∧ r_name r = "callee"%string.
Proof.
  eexists. split; [reflexivity|].
  assert (∀ l, l ∈ ex_loads → NoDup (mi_id <$> l_maps l)) as Hnd.
  { intros l Hl. unfold ex_loads in Hl. rewrite !elem_of_cons, elem_of_nil in Hl.
    destruct Hl as [-> | [-> | []]]; apply NoDup_singleton. }
  assert (∀ l, l ∈ ex_loads → ∀ q i, l_instrs l !! q = Some i → idx i = Z.of_nat q) as Hnum.
  { intros l Hl q i Hq. unfold ex_loads in Hl. rewrite !elem_of_cons, elem_of_nil in Hl.
    destruct Hl as [-> | [-> | []]]; destruct q as [|[|q]]; simpl in Hq;
      try (injection Hq as <-; reflexivity); discriminate. }
  destruct (link_layout ex_loads ex_tails _ Hnum Hnd eq_refl) as (H1 & Hs & _ & H2 & _).
  split; [exact H1|]. split; [exact Hs|].
  destruct (H2 1%nat _ eq_refl) as (r & _ & Hn & _ & _ & _ & Hi).
  destruct (Hi 1%nat _ eq_refl) as (i & Hk & Hx & Hc & _ & Hr).
  exists i, r. split; [exact Hk|]. split; [exact Hx|]. split; [exact Hc|]. split; [exact Hr|exact Hn].
Defined.

(** Two callees of one name, whose globals of one name differ from each other's and from the
    first program's in size: both are renamed to one global, which has the size of the last. *)
Example bss_names_collide :
  let prog entry path size := mk_load [] [] None [("g"%string, mk_symbol size 0)] entry 0 path "xdp" in
  let '(bss, _, renames, _) := _merge_globals [prog "main"%string "a.o"%string 4; prog "f"%string "b.o"%string 8;
                                               prog "f"%string "c.o"%string 16] in
  bss = [("g"%string, mk_symbol 4 0); ("f.g"%string, mk_symbol 16 0)] ∧
  renames = [[]; [("g"%string, "f.g"%string)]; [("g"%string, "f.g"%string)]].
Proof. vm_compute. split; reflexivity. Qed.
