(* ===== verification/Smt.v ===== *)
(** The interface of the SMT library the verifier builds its formulas with.

    The solver's Python package is not part of the repository: its term
    constructors are the operations of the class [SMT], its models and the
    meaning of a term in a model are the class's [ev] functions, and what the
    encoder relies on (the SMT-LIB theory of fixed-width bit vectors and of
    arrays) is the class [SMTLaws]. Every definition that builds a formula
    takes an [SMT]; every theorem about the meaning of a formula takes
    [SMTLaws]. [SmtTerm] instantiates both with a concrete term language. *)

From S2P Require Import Prelude.

Class SMT := {
  bv : Type;    (* bit-vector terms *)
  bl : Type;    (* Boolean terms *)
  barr : Type;  (* arrays from bit vectors to bit vectors *)
  parr : Type;  (* arrays from bit vectors to Booleans *)
  model : Type;

  size : bv → Z;
  BitVecVal : Z → Z → bv;
  BitVec : string → Z → bv;
  is_bv_value : bv → bool;
  as_long : bv → Z;
  Extract : Z → Z → bv → bv;
  Concat : list bv → bv;
  SignExt : Z → bv → bv;
  bvadd : bv → bv → bv;
  bvsub : bv → bv → bv;
  bvmul : bv → bv → bv;
  bvsdiv : bv → bv → bv;
  UDiv : bv → bv → bv;
  URem : bv → bv → bv;
  SRem : bv → bv → bv;
  bvand : bv → bv → bv;
  bvor : bv → bv → bv;
  bvxor : bv → bv → bv;
  bvshl : bv → bv → bv;
  LShR : bv → bv → bv;
  bvashr : bv → bv → bv;
  bvneg : bv → bv;
  bvnot : bv → bv;
  IfBV : bl → bv → bv → bv;

  bveq : bv → bv → bl;
  bvne : bv → bv → bl;
  ULT : bv → bv → bl;
  ULE : bv → bv → bl;
  UGT : bv → bv → bl;
  UGE : bv → bv → bl;
  bvslt : bv → bv → bl;
  bvsle : bv → bv → bl;
  bvsgt : bv → bv → bl;
  bvsge : bv → bv → bl;

  BoolVal : bool → bl;
  Bool : string → bl;
  Not : bl → bl;
  And : list bl → bl;
  Or : list bl → bl;
  beq : bl → bl → bl;
  IfBL : bl → bl → bl → bl;
  simplify : bl → bl;
  is_true : bl → bool;
  is_false : bl → bool;

  Array : string → Z → Z → barr;
  K : Z → bv → barr;
  Store : barr → bv → bv → barr;
  Select : barr → bv → bv;
  IfArr : bl → barr → barr → barr;
  domain_size : barr → Z;
  range_size : barr → Z;

  PArray : string → Z → parr;
  PK : Z → bl → parr;
  PStore : parr → bv → bl → parr;
  PSelect : parr → bv → bl;
  IfPArr : bl → parr → parr → parr;

  ev : model → bv → Z;
  evb : model → bl → bool;
  eva : model → barr → Z → Z;
  evp : model → parr → Z → bool
}.

(** The value of a concatenation, most significant part first. *)
Fixpoint concat_val (l : list (Z * Z)) : Z * Z :=
  match l with
  | [] => (0, 0)
  | (w, v) :: l' => let '(w', v') := concat_val l' in (w + w', v * 2 ^ w' + v')
  end.

Class SMTLaws (S : SMT) : Prop := {
  size_pos t : 0 < size t;
  ev_range m t : 0 <= ev m t < 2 ^ size t;

  size_BitVecVal v w : 0 < w → size (BitVecVal v w) = w;
  ev_BitVecVal m v w : 0 < w → ev m (BitVecVal v w) = wrap w v;
  size_BitVec n w : 0 < w → size (BitVec n w) = w;
  is_bv_value_ev m t : is_bv_value t = true → ev m t = as_long t;
  is_bv_value_BitVecVal v w : is_bv_value (BitVecVal v w) = true;

  size_Extract hi lo t : 0 <= lo <= hi → hi < size t → size (Extract hi lo t) = hi - lo + 1;
  ev_Extract m hi lo t : 0 <= lo <= hi → hi < size t →
    ev m (Extract hi lo t) = wrap (hi - lo + 1) (ev m t / 2 ^ lo);
  size_Concat l : (2 <= length l)%nat →
    size (Concat l) = fst (concat_val (map (λ t, (size t, 0)) l));
  ev_Concat m l : (2 <= length l)%nat →
    ev m (Concat l) = snd (concat_val (map (λ t, (size t, ev m t)) l));
  size_SignExt n t : 0 <= n → size (SignExt n t) = n + size t;
  ev_SignExt m n t : 0 <= n → ev m (SignExt n t) = wrap (n + size t) (sgn (size t) (ev m t));

  size_bvadd a b : size a = size b → size (bvadd a b) = size a;
  ev_bvadd m a b : size a = size b → ev m (bvadd a b) = wrap (size a) (ev m a + ev m b);
  size_bvsub a b : size a = size b → size (bvsub a b) = size a;
  ev_bvsub m a b : size a = size b → ev m (bvsub a b) = wrap (size a) (ev m a - ev m b);
  size_bvmul a b : size a = size b → size (bvmul a b) = size a;
  ev_bvmul m a b : size a = size b → ev m (bvmul a b) = wrap (size a) (ev m a * ev m b);
  size_bvsdiv a b : size a = size b → size (bvsdiv a b) = size a;
  ev_bvsdiv m a b : size a = size b → ev m b ≠ 0 →
    ev m (bvsdiv a b) = wrap (size a) (Z.quot (sgn (size a) (ev m a)) (sgn (size b) (ev m b)));
  size_UDiv a b : size a = size b → size (UDiv a b) = size a;
  ev_UDiv m a b : size a = size b → ev m b ≠ 0 → ev m (UDiv a b) = ev m a / ev m b;
  size_URem a b : size a = size b → size (URem a b) = size a;
  ev_URem m a b : size a = size b →
    ev m (URem a b) = if ev m b =? 0 then ev m a else ev m a mod ev m b;
  size_SRem a b : size a = size b → size (SRem a b) = size a;
  ev_SRem m a b : size a = size b →
    ev m (SRem a b) = if ev m b =? 0 then ev m a
      else wrap (size a) (Z.rem (sgn (size a) (ev m a)) (sgn (size b) (ev m b)));
  size_bvand a b : size a = size b → size (bvand a b) = size a;
  ev_bvand m a b : size a = size b → ev m (bvand a b) = Z.land (ev m a) (ev m b);
  size_bvor a b : size a = size b → size (bvor a b) = size a;
  ev_bvor m a b : size a = size b → ev m (bvor a b) = Z.lor (ev m a) (ev m b);
  size_bvxor a b : size a = size b → size (bvxor a b) = size a;
  ev_bvxor m a b : size a = size b → ev m (bvxor a b) = Z.lxor (ev m a) (ev m b);
  size_bvshl a b : size a = size b → size (bvshl a b) = size a;
  ev_bvshl m a b : size a = size b → ev m (bvshl a b) = wrap (size a) (ev m a * 2 ^ ev m b);
  size_LShR a b : size a = size b → size (LShR a b) = size a;
  ev_LShR m a b : size a = size b → ev m (LShR a b) = ev m a / 2 ^ ev m b;
  size_bvashr a b : size a = size b → size (bvashr a b) = size a;
  ev_bvashr m a b : size a = size b →
    ev m (bvashr a b) = wrap (size a) (sgn (size a) (ev m a) / 2 ^ ev m b);
  size_bvneg a : size (bvneg a) = size a;
  ev_bvneg m a : ev m (bvneg a) = wrap (size a) (- ev m a);
  size_bvnot a : size (bvnot a) = size a;
  ev_bvnot m a : ev m (bvnot a) = 2 ^ size a - 1 - ev m a;
  size_IfBV c a b : size a = size b → size (IfBV c a b) = size a;
  ev_IfBV m c a b : size a = size b → ev m (IfBV c a b) = if evb m c then ev m a else ev m b;

  evb_bveq m a b : size a = size b → evb m (bveq a b) = (ev m a =? ev m b);
  evb_bvne m a b : size a = size b → evb m (bvne a b) = negb (ev m a =? ev m b);
  evb_ULT m a b : size a = size b → evb m (ULT a b) = (ev m a <? ev m b);
  evb_ULE m a b : size a = size b → evb m (ULE a b) = (ev m a <=? ev m b);
  evb_UGT m a b : size a = size b → evb m (UGT a b) = (ev m b <? ev m a);
  evb_UGE m a b : size a = size b → evb m (UGE a b) = (ev m b <=? ev m a);
  evb_bvslt m a b : size a = size b →
    evb m (bvslt a b) = (sgn (size a) (ev m a) <? sgn (size b) (ev m b));
  evb_bvsle m a b : size a = size b →
    evb m (bvsle a b) = (sgn (size a) (ev m a) <=? sgn (size b) (ev m b));
  evb_bvsgt m a b : size a = size b →
    evb m (bvsgt a b) = (sgn (size b) (ev m b) <? sgn (size a) (ev m a));
  evb_bvsge m a b : size a = size b →
    evb m (bvsge a b) = (sgn (size b) (ev m b) <=? sgn (size a) (ev m a));

  evb_BoolVal m b : evb m (BoolVal b) = b;
  evb_Not m c : evb m (Not c) = negb (evb m c);
  evb_And m l : evb m (And l) = forallb (evb m) l;
  evb_Or m l : evb m (Or l) = existsb (evb m) l;
  evb_beq m a b : evb m (beq a b) = Bool.eqb (evb m a) (evb m b);
  evb_IfBL m c a b : evb m (IfBL c a b) = if evb m c then evb m a else evb m b;
  evb_simplify m c : evb m (simplify c) = evb m c;
  is_true_evb m c : is_true c = true → evb m c = true;
  is_false_evb m c : is_false c = true → evb m c = false;

  domain_pos a : 0 < domain_size a;
  range_pos a : 0 < range_size a;
  domain_Array n d r : 0 < d → domain_size (Array n d r) = d;
  range_Array n d r : 0 < r → range_size (Array n d r) = r;
  domain_K d v : 0 < d → domain_size (K d v) = d;
  range_K d v : range_size (K d v) = size v;
  eva_K m d v i : eva m (K d v) i = ev m v;
  domain_Store a i v : domain_size (Store a i v) = domain_size a;
  range_Store a i v : range_size (Store a i v) = range_size a;
  eva_Store m a i v j : size i = domain_size a → size v = range_size a →
    eva m (Store a i v) j = if j =? ev m i then ev m v else eva m a j;
  size_Select a i : size i = domain_size a → size (Select a i) = range_size a;
  ev_Select m a i : size i = domain_size a → ev m (Select a i) = eva m a (ev m i);
  domain_IfArr c a b : domain_size a = domain_size b → domain_size (IfArr c a b) = domain_size a;
  range_IfArr c a b : range_size a = range_size b → range_size (IfArr c a b) = range_size a;
  eva_IfArr m c a b i : range_size a = range_size b → eva m (IfArr c a b) i = if evb m c then eva m a i else eva m b i;

  evp_PK m d c i : evp m (PK d c) i = evb m c;
  evp_PStore m a i c j : evp m (PStore a i c) j = if j =? ev m i then evb m c else evp m a j;
  evb_PSelect m a i : evb m (PSelect a i) = evp m a (ev m i);
  evp_IfPArr m c a b i : evp m (IfPArr c a b) i = if evb m c then evp m a i else evp m b i
}.

(** ** Guards

    A guard of the source is a Python [bool] or a Boolean term; a test
    [g is True] looks at the Python value only. *)

Inductive guard `{SMT} :=
| GPy (b : bool)
| GTm (t : bl).

Definition evg `{SMT} (m : model) (g : guard) : bool :=
  match g with GPy b => b | GTm t => evb m t end.

(** A guard used where a term is wanted. *)
Definition to_bl `{SMT} (g : guard) : bl :=
  match g with GPy b => BoolVal b | GTm t => t end.

Create HintDb smt.
#[export] Hint Rewrite @evb_BoolVal @evb_Not @evb_And @evb_Or @evb_beq @evb_IfBL
  @evb_simplify using typeclasses eauto : smt.
#[export] Hint Resolve size_pos ev_range domain_pos range_pos : smt.

Lemma evb_to_bl `{SMTLaws} m g : evb m (to_bl g) = evg m g.
Proof. destruct g; simpl; [apply evb_BoolVal|done]. Qed.
#[export] Hint Rewrite @evb_to_bl using typeclasses eauto : smt.
