(* ===== verification/SmtTerm.v ===== *)
(** A concrete instance of the SMT interface: sorted terms with their SMT-LIB
    meaning. It shows that [SMTLaws] can hold, and the examples and witnesses
    of the development are computed with it. *)

From S2P Require Import Prelude Smt.

Inductive binop :=
| OAdd | OSub | OMul | OSdiv | OUdiv | OUrem | OSrem
| OAnd | OOr | OXor | OShl | OLshr | OAshr.

Inductive cmp := CEq | CNe | CUlt | CUle | CSlt | CSle.

Inductive tbv :=
| TVal (v w : Z)
| TVar (n : string) (w : Z)
| TExtract (hi lo : Z) (t : tbv)
| TConcat (l : list tbv)
| TSext (n : Z) (t : tbv)
| TBin (o : binop) (a b : tbv)
| TNeg (a : tbv)
| TNot (a : tbv)
| TIte (c : tbl) (a b : tbv)
| TSel (a : tarr) (i : tbv)
with tbl :=
| BVal (b : bool)
| BVar (n : string)
| BNot (c : tbl)
| BAnd (l : list tbl)
| BOr (l : list tbl)
| BEq (a b : tbl)
| BIte (c a b : tbl)
| BCmp (o : cmp) (a b : tbv)
| BSel (a : tparr) (i : tbv)
with tarr :=
| AVar (n : string) (d r : Z)
| AK (d : Z) (v : tbv)
| AStore (a : tarr) (i v : tbv)
| AIte (c : tbl) (a b : tarr)
with tparr :=
| PVar (n : string) (d : Z)
| PConst (d : Z) (c : tbl)
| PSt (a : tparr) (i : tbv) (c : tbl)
| PIte (c : tbl) (a b : tparr).

Fixpoint tsize (t : tbv) : Z :=
  match t with
  | TVal _ w | TVar _ w => Z.max 1 w
  | TExtract hi lo _ => Z.max 1 (hi - lo + 1)
  | TConcat l => Z.max 1 (fst (concat_val (map (λ t, (tsize t, 0)) l)))
  | TSext n t => Z.max 1 (n + tsize t)
  | TBin _ a _ | TNeg a | TNot a | TIte _ a _ => tsize a
  | TSel a _ => trange a
  end
with trange (a : tarr) : Z :=
  match a with
  | AVar _ _ r => Z.max 1 r
  | AK _ v => tsize v
  | AStore a _ _ | AIte _ a _ => trange a
  end.

Fixpoint tdomain (a : tarr) : Z :=
  match a with
  | AVar _ d _ | AK d _ => Z.max 1 d
  | AStore a _ _ | AIte _ a _ => tdomain a
  end.

Record tmodel := {
  m_bv : string → Z;
  m_bool : string → bool;
  m_arr : string → Z → Z;
  m_parr : string → Z → bool
}.

Definition op_val (o : binop) (w a b : Z) : Z :=
  match o with
  | OAdd => a + b
  | OSub => a - b
  | OMul => a * b
  | OSdiv => if b =? 0 then -1 else Z.quot (sgn w a) (sgn w b)
  | OUdiv => if b =? 0 then -1 else a / b
  | OUrem => if b =? 0 then a else a mod b
  | OSrem => if b =? 0 then a else Z.rem (sgn w a) (sgn w b)
  | OAnd => Z.land a b
  | OOr => Z.lor a b
  | OXor => Z.lxor a b
  | OShl => a * 2 ^ b
  | OLshr => a / 2 ^ b
  | OAshr => sgn w a / 2 ^ b
  end.

Definition cmp_val (o : cmp) (w a b : Z) : bool :=
  match o with
  | CEq => a =? b
  | CNe => negb (a =? b)
  | CUlt => a <? b
  | CUle => a <=? b
  | CSlt => sgn w a <? sgn w b
  | CSle => sgn w a <=? sgn w b
  end.

Section eval.
Context (m : tmodel).

Fixpoint tev (t : tbv) : Z :=
  wrap (tsize t)
    match t with
    | TVal v _ => v
    | TVar n _ => m_bv m n
    | TExtract hi lo t => wrap (Z.max 1 (hi - lo + 1)) (tev t / 2 ^ lo)
    | TConcat l => snd (concat_val (map (λ t, (tsize t, tev t)) l))
    | TSext _ t => sgn (tsize t) (tev t)
    | TBin o a b => op_val o (tsize a) (tev a) (tev b)
    | TNeg a => - tev a
    | TNot a => 2 ^ tsize a - 1 - tev a
    | TIte c a b => if tevb c then tev a else tev b
    | TSel a i => teva a (tev i)
    end
with tevb (c : tbl) : bool :=
  match c with
  | BVal b => b
  | BVar n => m_bool m n
  | BNot c => negb (tevb c)
  | BAnd l => forallb tevb l
  | BOr l => existsb tevb l
  | BEq a b => Bool.eqb (tevb a) (tevb b)
  | BIte c a b => if tevb c then tevb a else tevb b
  | BCmp o a b => cmp_val o (tsize a) (tev a) (tev b)
  | BSel a i => tevp a (tev i)
  end
with teva (a : tarr) (j : Z) : Z :=
  match a with
  | AVar n _ r => wrap (Z.max 1 r) (m_arr m n j)
  | AK _ v => tev v
  | AStore a i v => if j =? tev i then wrap (trange a) (tev v) else teva a j
  | AIte c a b => if tevb c then teva a j else wrap (trange a) (teva b j)
  end
with tevp (a : tparr) (j : Z) : bool :=
  match a with
  | PVar n _ => m_parr m n j
  | PConst _ c => tevb c
  | PSt a i c => if j =? tev i then tevb c else tevp a j
  | PIte c a b => if tevb c then tevp a j else tevp b j
  end.
End eval.

(** Folding of comparisons between values, enough for the pruning examples. *)
Definition tsimplify (c : tbl) : tbl :=
  match c with
  | BCmp o (TVal v w) (TVal v' w') =>
      BVal (cmp_val o (Z.max 1 w) (wrap (Z.max 1 w) v) (wrap (Z.max 1 w') v'))
  | BNot (BVal b) => BVal (negb b)
  | c => c
  end.

#[export] Instance z3 : SMT := {|
  bv := tbv; bl := tbl; barr := tarr; parr := tparr; model := tmodel;
  size := tsize; BitVecVal := TVal; BitVec := TVar;
  is_bv_value := λ t, match t with TVal _ _ => true | _ => false end;
  as_long := λ t, match t with TVal v w => wrap (Z.max 1 w) v | _ => 0 end;
  Extract := TExtract; Concat := TConcat; SignExt := TSext;
  bvadd := TBin OAdd; bvsub := TBin OSub; bvmul := TBin OMul; bvsdiv := TBin OSdiv;
  UDiv := TBin OUdiv; URem := TBin OUrem; SRem := TBin OSrem;
  bvand := TBin OAnd; bvor := TBin OOr; bvxor := TBin OXor;
  bvshl := TBin OShl; LShR := TBin OLshr; bvashr := TBin OAshr;
  bvneg := TNeg; bvnot := TNot; IfBV := TIte;
  bveq := BCmp CEq; bvne := BCmp CNe;
  ULT := BCmp CUlt; ULE := BCmp CUle;
  UGT := λ a b, BCmp CUlt b a; UGE := λ a b, BCmp CUle b a;
  bvslt := BCmp CSlt; bvsle := BCmp CSle;
  bvsgt := λ a b, BCmp CSlt b a; bvsge := λ a b, BCmp CSle b a;
  BoolVal := BVal; Bool := BVar; Not := BNot; And := BAnd; Or := BOr;
  beq := BEq; IfBL := BIte; simplify := tsimplify;
  is_true := λ c, match c with BVal true => true | _ => false end;
  is_false := λ c, match c with BVal false => true | _ => false end;
  Array := AVar; K := AK; Store := AStore; Select := TSel; IfArr := AIte;
  domain_size := tdomain; range_size := trange;
  PArray := PVar; PK := PConst; PStore := PSt; PSelect := BSel; IfPArr := PIte;
  ev := tev; evb := tevb; eva := teva; evp := tevp |}.

Scheme tbv_mind := Induction for tbv Sort Prop
with tarr_mind := Induction for tarr Sort Prop.

Lemma size_range_pos : (∀ t, 0 < tsize t) ∧ (∀ a, 0 < trange a).
Proof.
  split.
  - apply (tbv_mind (λ t, 0 < tsize t) (λ a, 0 < trange a)); intros; simpl; lia.
  - apply (tarr_mind (λ t, 0 < tsize t) (λ a, 0 < trange a)); intros; simpl; lia.
Qed.
Lemma tsize_pos t : 0 < tsize t. Proof. apply size_range_pos. Qed.
Lemma trange_pos a : 0 < trange a. Proof. apply size_range_pos. Qed.

Lemma tev_range m t : 0 <= tev m t < 2 ^ tsize t.
Proof. pose proof (tsize_pos t). destruct t; apply wrap_range; lia. Qed.

Lemma wrap_tev m t : wrap (tsize t) (tev m t) = tev m t.
Proof. apply wrap_small, tev_range. Qed.

Lemma teva_range m a j : 0 <= teva m a j < 2 ^ trange a.
Proof.
  revert j. induction a; intros j; simpl.
  - apply wrap_range. lia.
  - apply tev_range.
  - destruct (_ =? _); [|done]. apply wrap_range. pose proof (trange_pos a). lia.
  - destruct (tevb m c); [done|]. apply wrap_range. pose proof (trange_pos a1). lia.
Qed.

Lemma concat_size m l :
  fst (concat_val (map (λ t, (tsize t, tev m t)) l)) = fst (concat_val (map (λ t, (tsize t, 0)) l))
  ∧ 0 <= snd (concat_val (map (λ t, (tsize t, tev m t)) l))
      < 2 ^ fst (concat_val (map (λ t, (tsize t, 0)) l))
  ∧ Z.of_nat (length l) <= fst (concat_val (map (λ t, (tsize t, 0)) l)).
Proof.
  induction l as [|t l IH]; simpl; [lia|].
  pose proof (tsize_pos t). pose proof (tev_range m t).
  destruct (concat_val (map (λ t, (tsize t, tev m t)) l)) as [w v].
  destruct (concat_val (map (λ t, (tsize t, 0)) l)) as [w' v']. simpl in *.
  destruct IH as (-> & ? & ?). split; [done|].
  rewrite Z.pow_add_r by lia. split; [nia|lia].
Qed.

Ltac tsz := repeat match goal with t : tbv |- _ =>
  lazymatch goal with
  | _ : 0 < tsize t |- _ => fail
  | _ => pose proof (tsize_pos t)
  end end.

#[export] Instance z3_laws : SMTLaws z3.
Proof.
  split; cbn -[wrap sgn Z.pow Z.max tev tsimplify concat_val]; intros; tsz;
    try (cbn -[wrap sgn Z.pow Z.max tev tsimplify concat_val]; congruence || lia);
    try reflexivity.
  - apply tev_range.
  - cbn -[wrap Z.max]. by rewrite Z.max_r by lia.
  - destruct t; try discriminate. done.
  - cbn -[wrap Z.max Z.pow]. rewrite Z.max_r by lia. apply wrap_wrap. lia.
  - destruct (concat_size (Build_tmodel (λ _, 0) (λ _, true) (λ _ _, 0) (λ _ _, true)) l) as (_ & _ & ?). lia.
  - cbn -[wrap Z.max Z.pow concat_val]. destruct (concat_size m l) as (? & ? & ?).
    rewrite Z.max_r by lia. apply wrap_small. lia.
  - cbn -[wrap Z.max sgn]. by rewrite Z.max_r by lia.
  - cbn -[wrap sgn Z.pow]. rewrite (proj2 (Z.eqb_neq _ _)) by done. by rewrite H.
  - cbn -[wrap sgn Z.pow]. rewrite (proj2 (Z.eqb_neq _ _)) by done.
    pose proof (tev_range m a). pose proof (tev_range m b). apply wrap_small.
    split; [apply Z.div_pos; lia|]. apply Z.le_lt_trans with (tev m a); [|lia].
    apply Z.div_le_upper_bound; nia.
  - cbn -[wrap sgn Z.pow].
    pose proof (tev_range m a). pose proof (tev_range m b).
    destruct (Z.eqb_spec (tev m b) 0); [by apply wrap_tev|]. apply wrap_small.
    pose proof (Z.mod_pos_bound (tev m a) (tev m b) ltac:(lia)).
    rewrite H. lia.
  - cbn -[wrap sgn Z.pow]. rewrite H.
    destruct (Z.eqb_spec (tev m b) 0); [|done]. rewrite <- H. apply wrap_tev.
  - cbn -[wrap]. apply wrap_small. apply land_range; [lia|apply tev_range|].
    rewrite H. apply tev_range.
  - cbn -[wrap]. apply wrap_small. apply lor_range; [lia|apply tev_range|].
    rewrite H. apply tev_range.
  - cbn -[wrap]. apply wrap_small. apply lxor_range; [lia|apply tev_range|].
    rewrite H. apply tev_range.
  - cbn -[wrap Z.pow]. apply wrap_small. pose proof (tev_range m a).
    pose proof (tev_range m b).
    pose proof (pow2_pos (tev m b) ltac:(lia)).
    split; [apply Z.div_pos; lia|]. apply Z.le_lt_trans with (tev m a); [|lia].
    apply Z.div_le_upper_bound; nia.
  - cbn -[wrap Z.pow]. apply wrap_small. pose proof (tev_range m a). lia.
  - cbn -[wrap Z.pow]. pose proof (wrap_tev m a). pose proof (wrap_tev m b).
    destruct (tevb m c); congruence.
  - destruct c as [| |[]| | | |  |o [] []|]; done.
  - by destruct c as [[]| | | | | | | |].
  - by destruct c as [[]| | | | | | | |].
  - induction a; simpl; lia.
  - apply trange_pos.
  - cbn -[wrap]. destruct (_ =? _); [|done]. rewrite <- H0. apply wrap_tev.
  - cbn -[wrap]. apply wrap_small, teva_range.
  - cbn -[wrap]. destruct (tevb m c); [done|]. rewrite H. apply wrap_small, teva_range.
Qed.
