(* ===== verification/Expr.v ===== *)
(** Symbolic values: the classes of [track/expr.py], their equality and
    identity, and the smart constructors [expr_alu], [trunc32], [sext] and
    [PTR].

    A value of the tracker's registers, stack slots and expression fields is a
    [val]: [None], an expression object or a pointer object. Every object
    carries the identity ([oid]) it was allocated with: [is] compares
    identities, [==] is [py_eq]. Objects are never mutated after they are
    published (pointers are copied first), so a tree of objects with identities
    is the store. *)

From S2P Require Import Prelude Constants.

(** The edge a value arrives by: the strings ['fall'] and ['taken']. *)
Inductive edge := Fall | Taken.

#[global] Instance edge_eq_dec : EqDecision edge.
Proof. solve_decision. Defined.

(** ** The fields of each class *)

Record join_ (V : Type) := mk_join {
  j_size : Z;
  j_idx : Z;
  j_block_idx : Z;
  j_reg_num : Z;
  j_values : list V;
  j_edges : list (list (Z * edge))
}.

Record func_retval_ (V : Type) := mk_func {
  fr_size : Z;
  fr_idx : Z;
  fr_func : Z;
  fr_block : Z;
  fr_map_id : option Z;
  fr_map_key : V;
  fr_map_key_id : option Z;
  fr_fallback : Z;
  fr_redirects : bool
}.

Record pkt_val_ (V : Type) := mk_pkt {
  pv_block : Z;
  pv_idx : Z;
  pv_off : Z;
  pv_var_off : V;
  pv_size : Z
}.

Record map_val_ (V : Type) := mk_map {
  mv_block : Z;
  mv_idx : Z;
  mv_map_id : option Z;
  mv_map_key : V;
  mv_map_key_id : option Z;
  mv_off : Z;
  mv_var_off : V;
  mv_size : Z
}.

Record bss_val_ (V : Type) := mk_bss {
  bv_block : Z;
  bv_idx : Z;
  bv_key : option string;
  bv_off : Z;
  bv_var_off : V;
  bv_size : Z
}.

Record rodata_val_ (V : Type) := mk_rodata {
  rv_data : list Z;
  rv_off : Z;
  rv_var_off : V;
  rv_size : Z
}.

Record lookup_hit_ (V : Type) := mk_hit {
  lh_map_id : option Z;
  lh_map_key : V;
  lh_map_key_id : option Z;
  lh_size : Z
}.

Record alu_unary_ (V : Type) := mk_unary {
  u_op : Z;
  u_dst : V;
  u_opcode_s : option Z;
  u_imm : Z;
  u_size : Z;
  u_alu64 : bool
}.

Record alu_binary_ (V : Type) := mk_binary {
  b_op : Z;
  b_dst : V;
  b_src : V;
  b_offset : Z;
  b_size : Z;
  b_idx : Z
}.

Record ptr_ (V : Type) := mk_ptr {
  p_type : Z;
  p_off : Z;
  p_var_off : V;
  p_id : Z;
  p_base_id : option Z;
  p_map_id : option Z;
  p_map_key : V;
  p_map_key_id : option Z;
  p_bss_idx : option string;
  p_rodata_offset : option Z;
  p_rodata_data : option (list Z);
  p_checked_null : option bool;
  p_null_phi : V
}.

Arguments mk_join {V}. Arguments j_size {V}. Arguments j_idx {V}.
Arguments j_block_idx {V}. Arguments j_reg_num {V}. Arguments j_values {V}.
Arguments j_edges {V}.
Arguments mk_func {V}. Arguments fr_size {V}. Arguments fr_idx {V}.
Arguments fr_func {V}. Arguments fr_block {V}. Arguments fr_map_id {V}.
Arguments fr_map_key {V}. Arguments fr_map_key_id {V}. Arguments fr_fallback {V}.
Arguments fr_redirects {V}.
Arguments mk_pkt {V}. Arguments pv_block {V}. Arguments pv_idx {V}.
Arguments pv_off {V}. Arguments pv_var_off {V}. Arguments pv_size {V}.
Arguments mk_map {V}. Arguments mv_block {V}. Arguments mv_idx {V}.
Arguments mv_map_id {V}. Arguments mv_map_key {V}. Arguments mv_map_key_id {V}.
Arguments mv_off {V}. Arguments mv_var_off {V}. Arguments mv_size {V}.
Arguments mk_bss {V}. Arguments bv_block {V}. Arguments bv_idx {V}.
Arguments bv_key {V}. Arguments bv_off {V}. Arguments bv_var_off {V}.
Arguments bv_size {V}.
Arguments mk_rodata {V}. Arguments rv_data {V}. Arguments rv_off {V}.
Arguments rv_var_off {V}. Arguments rv_size {V}.
Arguments mk_hit {V}. Arguments lh_map_id {V}. Arguments lh_map_key {V}.
Arguments lh_map_key_id {V}. Arguments lh_size {V}.
Arguments mk_unary {V}. Arguments u_op {V}. Arguments u_dst {V}.
Arguments u_opcode_s {V}. Arguments u_imm {V}. Arguments u_size {V}.
Arguments u_alu64 {V}.
Arguments mk_binary {V}. Arguments b_op {V}. Arguments b_dst {V}.
Arguments b_src {V}. Arguments b_offset {V}. Arguments b_size {V}.
Arguments b_idx {V}.
Arguments mk_ptr {V}. Arguments p_type {V}. Arguments p_off {V}.
Arguments p_var_off {V}. Arguments p_id {V}. Arguments p_base_id {V}.
Arguments p_map_id {V}. Arguments p_map_key {V}. Arguments p_map_key_id {V}.
Arguments p_bss_idx {V}. Arguments p_rodata_offset {V}.
Arguments p_rodata_data {V}. Arguments p_checked_null {V}. Arguments p_null_phi {V}.

(** ** Values *)

Inductive val :=
| VNone
| VScalar (o size idx : Z)
| VJoin (o : Z) (j : join_ val)
| VIngress (o : Z)
| VRxq (o : Z)
| VEgress (o : Z)
| VPktLen (o size : Z) (base_id : option Z)
| VFunc (o : Z) (f : func_retval_ val)
| VPkt (o : Z) (p : pkt_val_ val)
| VMap (o : Z) (m : map_val_ val)
| VBss (o : Z) (b : bss_val_ val)
| VRodata (o : Z) (r : rodata_val_ val)
| VHit (o : Z) (h : lookup_hit_ val)
| VNum (o num size idx : Z)
| VByteSeq (o : Z) (chunks : list val) (size off : Z)
| VUn (o : Z) (u : alu_unary_ val)
| VBin (o : Z) (b : alu_binary_ val)
| VPtr (o : Z) (p : ptr_ val).

(** [id(v)]. *)
Definition oid (v : val) : Z :=
  match v with
  | VNone => 0
  | VScalar o _ _ | VJoin o _ | VIngress o | VRxq o | VEgress o | VPktLen o _ _
  | VFunc o _ | VPkt o _ | VMap o _ | VBss o _ | VRodata o _ | VHit o _
  | VNum o _ _ _ | VByteSeq o _ _ _ | VUn o _ | VBin o _ | VPtr o _ => o
  end.

(** [v is None]. *)
Definition is_none (v : val) : bool := match v with VNone => true | _ => false end.

(** [a is b]. *)
Definition is_same (a b : val) : bool :=
  if is_none a || is_none b then is_none a && is_none b else oid a =? oid b.

(** [isinstance(v, PTR)], [isinstance(v, num)], [isinstance(v, JoinValue)]. *)
Definition is_ptr (v : val) : bool := match v with VPtr _ _ => true | _ => false end.
Definition is_num (v : val) : bool := match v with VNum _ _ _ _ => true | _ => false end.
Definition is_join (v : val) : bool := match v with VJoin _ _ => true | _ => false end.
Definition is_func (v : val) : bool := match v with VFunc _ _ => true | _ => false end.

(** [v.size]; [None] has none. The three context scalars and pointers are
    4 bytes wide. *)
Definition vsize (v : val) : res Z :=
  match v with
  | VNone => Err AttributeError
  | VScalar _ s _ => Ok s
  | VJoin _ j => Ok (j_size j)
  | VIngress _ | VRxq _ | VEgress _ => Ok 4
  | VPktLen _ s _ => Ok s
  | VFunc _ f => Ok (fr_size f)
  | VPkt _ p => Ok (pv_size p)
  | VMap _ m => Ok (mv_size m)
  | VBss _ b => Ok (bv_size b)
  | VRodata _ r => Ok (rv_size r)
  | VHit _ h => Ok (lh_size h)
  | VNum _ _ s _ => Ok s
  | VByteSeq _ _ s _ => Ok s
  | VUn _ u => Ok (u_size u)
  | VBin _ b => Ok (b_size b)
  | VPtr _ _ => Ok 4
  end.

(** ** Equality

    [==] on values: the generated dataclass comparisons, the hand-written ones
    of [num] (value and index, not width), [func_retval] (index and function),
    [ALUunary], [ALUbinary] and [PTR]; a [JoinValue] does not compare its
    values. *)

Definition PKT_TYPES : list Z := [PTR_TO_PKT; PTR_TO_PKT_END; PTR_TO_PKT_META].

Fixpoint py_eq (a b : val) {struct a} : bool :=
  match a, b with
  | VNone, VNone => true
  | VScalar _ s i, VScalar _ s' i' => (s =? s') && (i =? i')
  | VJoin _ j, VJoin _ j' =>
      (j_size j =? j_size j') && (j_idx j =? j_idx j')
      && (j_block_idx j =? j_block_idx j') && (j_reg_num j =? j_reg_num j')
  | VIngress _, VIngress _ | VRxq _, VRxq _ | VEgress _, VEgress _ => true
  | VPktLen _ s b1, VPktLen _ s' b2 => (s =? s') && bool_decide (b1 = b2)
  | VFunc _ f, VFunc _ f' => (fr_idx f =? fr_idx f') && (fr_func f =? fr_func f')
  | VPkt _ p, VPkt _ p' =>
      (pv_block p =? pv_block p') && (pv_idx p =? pv_idx p') && (pv_off p =? pv_off p')
      && py_eq (pv_var_off p) (pv_var_off p') && (pv_size p =? pv_size p')
  | VMap _ m, VMap _ m' =>
      (mv_block m =? mv_block m') && (mv_idx m =? mv_idx m')
      && bool_decide (mv_map_id m = mv_map_id m') && py_eq (mv_map_key m) (mv_map_key m')
      && bool_decide (mv_map_key_id m = mv_map_key_id m') && (mv_off m =? mv_off m')
      && py_eq (mv_var_off m) (mv_var_off m') && (mv_size m =? mv_size m')
  | VBss _ x, VBss _ y =>
      (bv_block x =? bv_block y) && (bv_idx x =? bv_idx y)
      && bool_decide (bv_key x = bv_key y) && (bv_off x =? bv_off y)
      && py_eq (bv_var_off x) (bv_var_off y) && (bv_size x =? bv_size y)
  | VRodata _ x, VRodata _ y =>
      bool_decide (rv_data x = rv_data y) && (rv_off x =? rv_off y)
      && py_eq (rv_var_off x) (rv_var_off y) && (rv_size x =? rv_size y)
  | VHit _ x, VHit _ y =>
      bool_decide (lh_map_id x = lh_map_id y) && py_eq (lh_map_key x) (lh_map_key y)
      && bool_decide (lh_map_key_id x = lh_map_key_id y) && (lh_size x =? lh_size y)
  | VNum _ n _ i, VNum _ n' _ i' => (n =? n') && (i =? i')
  | VByteSeq _ cs s o, VByteSeq _ cs' s' o' =>
      (fix eqs (l l' : list val) : bool :=
         match l, l' with
         | [], [] => true
         | x :: l, x' :: l' => py_eq x x' && eqs l l'
         | _, _ => false
         end) cs cs' && (s =? s') && (o =? o')
  | VUn _ u, VUn _ u' =>
      (u_op u =? u_op u') && (u_size u =? u_size u') && (u_imm u =? u_imm u')
      && bool_decide (u_opcode_s u = u_opcode_s u') && eqb (u_alu64 u) (u_alu64 u')
      && py_eq (u_dst u) (u_dst u')
  | VBin _ x, VBin _ y =>
      (b_op x =? b_op y) && (b_size x =? b_size y) && (b_offset x =? b_offset y)
      && py_eq (b_dst x) (b_dst y) && py_eq (b_src x) (b_src y)
  | VPtr _ p, VPtr _ q =>
      if negb (p_type p =? p_type q) then false
      else if existsb (Z.eqb (p_type p)) PKT_TYPES then
        (p_off p =? p_off q) && py_eq (p_var_off p) (p_var_off q)
        && bool_decide (p_base_id p = p_base_id q)
      else if p_type p =? PTR_TO_MAP_VALUE then
        (p_off p =? p_off q) && py_eq (p_var_off p) (p_var_off q)
        && bool_decide (p_map_id p = p_map_id q)
        && bool_decide (p_map_key_id p = p_map_key_id q)
      else (p_off p =? p_off q) && py_eq (p_var_off p) (p_var_off q)
  | _, _ => false
  end.

(** [x in l] and [l.index(x)]: identity or equality. *)
Definition py_in (x : val) (l : list val) : bool :=
  existsb (λ y, is_same x y || py_eq x y) l.
Fixpoint py_list_index (x : val) (l : list val) : option nat :=
  match l with
  | [] => None
  | y :: l' => if is_same x y || py_eq x y then Some O else S <$> py_list_index x l'
  end.

(** ** Construction *)

Section construct.
Context {S : Type} `{Alloc S}.

Definition new_num (n size idx : Z) : ST S val := o ← fresh; mret (VNum o n size idx).
Definition new_scalar (size idx : Z) : ST S val := o ← fresh; mret (VScalar o size idx).
Definition new_pkt_len (size : Z) (base_id : option Z) : ST S val :=
  o ← fresh; mret (VPktLen o size base_id).
Definition new_func (f : func_retval_ val) : ST S val := o ← fresh; mret (VFunc o f).
Definition new_unary (u : alu_unary_ val) : ST S val := o ← fresh; mret (VUn o u).
Definition new_binary (op : Z) (dst src : val) (offset size idx : Z) : ST S val :=
  o ← fresh; mret (VBin o (mk_binary op dst src offset size idx)).
Definition new_byteseq (chunks : list val) (size off : Z) : ST S val :=
  o ← fresh; mret (VByteSeq o chunks size off).
Definition new_hit (map_id : option Z) (key : val) (key_id : option Z) (size : Z) : ST S val :=
  o ← fresh; mret (VHit o (mk_hit map_id key key_id size)).
Definition new_join (block_idx reg_num : Z) (values : list val)
    (edges : list (list (Z * edge))) : ST S val :=
  o ← fresh; mret (VJoin o (mk_join 8 (-1) block_idx reg_num values edges)).

Definition imm64 (imm : Z) : ST S val := new_num imm (if 0 <=? imm then 4 else 8) (-1).

Definition expr_alu (dst src : val) (code size : Z) (brief : bool) (idx offset : Z) : ST S val :=
  match dst, src with
  | VNum _ d _ _, VNum _ s _ _ =>
      let signed := (offset =? 1) && ((code =? DIV) || (code =? MOD)) in
      if size =? 4 then new_num (arith code d s 32 signed) 4 idx
      else new_num (arith code d s 64 signed) 8 idx
  | _, _ =>
      if ((code =? ADD) || (code =? SUB))
         && match src with VNum _ s _ _ => s =? 0 | _ => false end
      then mret dst
      else if brief then new_scalar 8 idx
      else new_binary code dst src offset size idx
  end.

Definition trunc32 (value : val) (idx : Z) : ST S val :=
  match value with
  | VNone | VPtr _ _ => mret value
  | VNum _ n _ _ => new_num (Z.land n 0xFFFFFFFF) 4 idx
  | _ =>
      sz ← lift (vsize value);
      if sz <=? 4 then mret value
      else
        m ← new_num 0xFFFFFFFF 4 (-1);
        new_binary AND value m 0 4 idx
  end.

Definition sext (value : val) (bits size idx : Z) : ST S val :=
  match value with
  | VNone => mret VNone
  | VPtr _ _ => raise (ExceptionErr "sext: sign extension of a pointer")
  | VNum _ n _ _ =>
      let v := Z.land n (mask bits) in
      let v := if negb (Z.shiftr v (bits - 1) =? 0) then v - Z.shiftl 1 bits else v in
      if size =? 4 then new_num (Z.land v 0xFFFFFFFF) 4 idx else new_num v 8 idx
  | _ => new_unary (mk_unary MOV value None bits size (size =? 8))
  end.

(** ** Pointers *)

Definition VAR_OFF_REGIONS : list Z :=
  [PTR_TO_PKT; PTR_TO_MAP_VALUE; PTR_TO_BSS; PTR_TO_DATA; PTR_TO_RODATA].

(** [PTR(ptr_type, off, var_off, id=, base_id=, ...)]. *)
Definition new_PTR (p : ptr_ val) : ST S val :=
  lift (guard_or (is_none (p_var_off p) || existsb (Z.eqb (p_type p)) VAR_OFF_REGIONS)
                 AssertionError);;
  lift (guard_or (negb (existsb (Z.eqb (p_type p)) [PTR_TO_PKT_END; PTR_TO_MAP])
                  || (p_off p =? 0)) AssertionError);;
  o ← fresh;
  mret (VPtr o (mk_ptr (p_type p) (p_off p) (p_var_off p) (p_id p) (p_base_id p)
                  (p_map_id p) (p_map_key p) (p_map_key_id p) (p_bss_idx p)
                  (p_rodata_offset p) (p_rodata_data p) (p_checked_null p) VNone)).

(** The keyword defaults of [PTR.__init__]. *)
Definition ptr_default (ptr_type off : Z) (var_off : val) (id : Z) (base_id : option Z) : ptr_ val :=
  mk_ptr ptr_type off var_off id base_id None VNone None None None None (Some false) VNone.

(** [copy.copy(p)] followed by attribute assignments: a new object. *)
Definition copy_ptr (p : ptr_ val) : ST S val := o ← fresh; mret (VPtr o p).

Definition total_offset (p : ptr_ val) : ST S val :=
  if is_none (p_var_off p) then new_num (p_off p) 8 (-1)
  else n ← new_num (p_off p) 8 (-1); expr_alu (p_var_off p) n ADD 4 false (-1) 0.
End construct.

(** ** Induction and sub-values *)

(** Every value [v] is built from, [v] included. *)
Fixpoint nodes (v : val) : list val :=
  v :: match v with
       | VUn _ u => nodes (u_dst u)
       | VBin _ b => nodes (b_dst b) ++ nodes (b_src b)
       | VByteSeq _ cs _ _ => mjoin (map nodes cs)
       | VPkt _ p => nodes (pv_var_off p)
       | VMap _ m => nodes (mv_map_key m) ++ nodes (mv_var_off m)
       | VBss _ b => nodes (bv_var_off b)
       | VRodata _ r => nodes (rv_var_off r)
       | VHit _ h => nodes (lh_map_key h)
       | VFunc _ f => nodes (fr_map_key f)
       | _ => []
       end.

(** Induction over the sub-values [nodes] and the encoder descend into. *)
Section val_ind.
Context (P : val → Prop).
Hypothesis Hleaf : ∀ v, nodes v = [v] → P v.
Hypothesis Hun : ∀ o u, P (u_dst u) → P (VUn o u).
Hypothesis Hbin : ∀ o b, P (b_dst b) → P (b_src b) → P (VBin o b).
Hypothesis Hseq : ∀ o cs s off, Forall P cs → P (VByteSeq o cs s off).
Hypothesis Hpkt : ∀ o p, P (pv_var_off p) → P (VPkt o p).
Hypothesis Hmap : ∀ o m, P (mv_map_key m) → P (mv_var_off m) → P (VMap o m).
Hypothesis Hbss : ∀ o b, P (bv_var_off b) → P (VBss o b).
Hypothesis Hro : ∀ o r, P (rv_var_off r) → P (VRodata o r).
Hypothesis Hhit : ∀ o h, P (lh_map_key h) → P (VHit o h).
Hypothesis Hfunc : ∀ o f, P (fr_map_key f) → P (VFunc o f).

Fixpoint val_ind' (v : val) : P v :=
  match v return P v with
  | VUn o u => Hun o u (val_ind' (u_dst u))
  | VBin o b => Hbin o b (val_ind' (b_dst b)) (val_ind' (b_src b))
  | VByteSeq o cs s off =>
      Hseq o cs s off
        ((fix go (l : list val) : Forall P l :=
            match l with
            | [] => Forall_nil_2 P
            | c :: l' => Forall_cons_2 P c l' (val_ind' c) (go l')
            end) cs)
  | VPkt o p => Hpkt o p (val_ind' (pv_var_off p))
  | VMap o m => Hmap o m (val_ind' (mv_map_key m)) (val_ind' (mv_var_off m))
  | VBss o b => Hbss o b (val_ind' (bv_var_off b))
  | VRodata o r => Hro o r (val_ind' (rv_var_off r))
  | VHit o h => Hhit o h (val_ind' (lh_map_key h))
  | VFunc o f => Hfunc o f (val_ind' (fr_map_key f))
  | v => Hleaf v eq_refl
  end.
End val_ind.

Lemma nodes_self v : v ∈ nodes v.
Proof. destruct v; left. Qed.

(** [nodes] of a sub-value is among the [nodes] of the whole. *)
Lemma nodes_chunk c o cs s off x : c ∈ cs → x ∈ nodes c → x ∈ nodes (VByteSeq o cs s off).
Proof.
  intros Hc Hx. simpl. right. apply list_elem_of_join. exists (nodes c).
  split; [done|]. by apply list_elem_of_fmap_2.
Qed.
