(* ===== verification/Record.v ===== *)
(** Memory locations and aliasing: [track/record.py].

    [mloc] holds the attributes [may_alias] reads of an action or of a queried
    location. [build_call_index] is in [Block], after the actions. *)

From S2P Require Import Prelude Constants Expr.

Definition PKT : Z := 0.
Definition MAP : Z := 1.
Definition CTX : Z := 2.
Definition BSS : Z := 3.

Record mloc := mk_loc {
  ml_region : option Z;
  ml_off : Z;
  ml_var_off : val;
  ml_size : Z;
  ml_map_id : option Z;
  ml_map_key : val;
  ml_bss_key : option string
}.

(** [_const(x)]: the integer of a [num], else [None]. *)
Definition _const (x : val) : option Z :=
  match x with VNum _ n _ _ => Some n | _ => None end.

(** Both are known and differ. *)
Definition known_differ {A} `{EqDecision A} (a b : option A) : bool :=
  match a, b with
  | Some x, Some y => negb (bool_decide (x = y))
  | _, _ => false
  end.

Definition may_alias (a b : mloc) : bool :=
  match ml_region a, ml_region b with
  | Some ra, Some rb =>
      if negb (ra =? rb) then false
      else if (ra =? MAP) && negb (bool_decide (ml_map_id a = ml_map_id b)) then false
      else if (ra =? MAP) && known_differ (_const (ml_map_key a)) (_const (ml_map_key b))
      then false
      else if (ra =? BSS) && known_differ (ml_bss_key a) (ml_bss_key b) then false
      else if negb (is_none (ml_var_off a)) || negb (is_none (ml_var_off b)) then true
      else (ml_off a <? ml_off b + Z.max (ml_size b) 1)
           && (ml_off b <? ml_off a + Z.max (ml_size a) 1)
  | _, _ => false
  end.

(** ** What aliasing means *)

(** A byte of memory: its region, map and key value or symbol, and offset.
    [den] gives the value of a map key and of a variable offset. *)
Record cell := mk_cell {
  c_region : Z;
  c_map : option (option Z * Z);
  c_sym : option (option string);
  c_addr : Z
}.

(** The byte at displacement [i] of location [l]. *)
Definition loc_cell (den : val → Z) (l : mloc) (i : Z) : option cell :=
  r ← ml_region l;
  Some (mk_cell r
    (if r =? MAP then Some (ml_map_id l, den (ml_map_key l)) else None)
    (if r =? BSS then Some (ml_bss_key l) else None)
    (ml_off l + (if is_none (ml_var_off l) then 0 else den (ml_var_off l)) + i)).

(** [may_alias] is a sound over-approximation: when two locations share a
    byte under some meaning of keys and variable offsets that gives constants
    their value, it answers [True]. *)
Theorem may_alias_sound den a b i j :
  (∀ o n s x, den (VNum o n s x) = n) →
  0 <= i < Z.max (ml_size a) 1 → 0 <= j < Z.max (ml_size b) 1 →
  is_Some (loc_cell den a i) → loc_cell den a i = loc_cell den b j →
  may_alias a b = true.
Proof.
  intros Hnum Hi Hj [c Hc] Heq. rewrite Hc in Heq. symmetry in Heq.
  unfold loc_cell in Hc, Heq. unfold may_alias.
  destruct (ml_region a) as [ra|]; [|done]. destruct (ml_region b) as [rb|]; [|done].
  simpl in Hc, Heq. injection Hc as <-. injection Heq as Hr Hm Hs Ho. subst rb.
  rewrite Z.eqb_refl. simpl.
  destruct (ra =? MAP) eqn:EM; simpl.
  - injection Hm as Hid Hk. rewrite Hid, bool_decide_true by done. simpl.
    assert (known_differ (_const (ml_map_key a)) (_const (ml_map_key b)) = false) as ->.
    { destruct (ml_map_key a), (ml_map_key b); try done. rewrite !Hnum in Hk.
      simpl. by rewrite bool_decide_true. }
    bool_prop. subst ra. simpl.
    destruct (is_none (ml_var_off a)), (is_none (ml_var_off b)); simpl; try done.
    apply andb_true_iff. rewrite !Z.ltb_lt. lia.
  - destruct (ra =? BSS) eqn:EB; simpl.
    + injection Hs as ->.
      assert (known_differ (ml_bss_key a) (ml_bss_key a) = false) as ->.
      { destruct (ml_bss_key a); [|done]. simpl. by rewrite bool_decide_true. }
      destruct (is_none (ml_var_off a)), (is_none (ml_var_off b)); simpl; try done.
      apply andb_true_iff. rewrite !Z.ltb_lt. lia.
    + destruct (is_none (ml_var_off a)), (is_none (ml_var_off b)); simpl; try done.
      apply andb_true_iff. rewrite !Z.ltb_lt. lia.
Qed.

Lemma may_alias_sound_witness :
  let l off := mk_loc (Some PKT) off VNone 4 None VNone None in
  let den := λ v, match v with VNum _ n _ _ => n | _ => 0 end in
  loc_cell den (l 0) 2 = loc_cell den (l 2) 0 ∧ may_alias (l 0) (l 2) = true.
Proof.
  split; [reflexivity|].
  apply (may_alias_sound (λ v, match v with VNum _ n _ _ => n | _ => 0 end) _ _ 2 0);
    [reflexivity|simpl; lia|simpl; lia|by eexists|reflexivity].
Defined.

(** On fixed offsets of one region without a key the test is exact. *)
Lemma may_alias_pkt a b : ml_region a = Some PKT → ml_region b = Some PKT →
  ml_var_off a = VNone → ml_var_off b = VNone →
  may_alias a b = true ↔
  ∃ p, ml_off a <= p < ml_off a + Z.max (ml_size a) 1
       ∧ ml_off b <= p < ml_off b + Z.max (ml_size b) 1.
Proof.
  intros Ha Hb Va Vb. unfold may_alias. rewrite Ha, Hb, Va, Vb. simpl.
  rewrite andb_true_iff, !Z.ltb_lt. split.
  - intros [H1 H2]. exists (Z.max (ml_off a) (ml_off b)). lia.
  - intros (p & H1 & H2). lia.
Qed.
