(* ===== verification/Denote.v ===== *)
(** The meaning of symbolic values, independent of any solver.

    A [world] gives each leaf of an expression (a load, a helper's result, a
    phi) the number the machine saw; [den] extends it to ALU nodes by the
    instruction set's ALU and to byte sequences by concatenation. It is the
    reference the smart constructors, the folding of branch conditions and the
    SMT encoding are proved against. *)

From S2P Require Import Prelude Constants Expr.

(** The value of a leaf from the values of its sub-expressions (map key, then
    variable offset; 0 for [None]). *)
Definition world : Type := val → list Z → Z.

(** The byte swap of a [bits]-bit word. *)
Definition bswap (bits x : Z) : Z :=
  le_int (rev (le_bytes (Z.to_nat (bits / 8)) x)).

Definition reg_bits (sz : Z) : Z := if sz =? 4 then 32 else 64.

(** The instruction set's one-operand operations: negation, sign-extending
    move and byte-order conversion. *)
Definition isa_unary (op imm sz : Z) (swap : bool) (x : Z) : Z :=
  if op =? NEG then wrap (reg_bits sz) (- x)
  else if op =? MOV then wrap (reg_bits sz) (sgn imm x)
  else if op =? END then
    let bits := if existsb (Z.eqb imm) [16; 32; 64] then imm else 64 in
    if swap then bswap bits (wrap bits x) else wrap bits x
  else 0.

(** The little-endian concatenation of 64-bit cells. *)
Fixpoint cells_val (cs : list Z) : Z :=
  match cs with [] => 0 | c :: cs' => wrap 64 c + 2 ^ 64 * cells_val cs' end.

Fixpoint den (w : world) (v : val) {struct v} : Z :=
  match v with
  | VNone | VPtr _ _ => 0
  | VNum _ n s _ => wrap (8 * s) n
  | VUn _ u =>
      isa_unary (u_op u) (u_imm u) (u_size u)
        (u_alu64 u || bool_decide (u_opcode_s u = Some S_REG)) (den w (u_dst u))
  | VBin _ b =>
      isa_alu (b_op b) (reg_bits (b_size b)) (b_offset b =? 1)
        (den w (b_dst b)) (den w (b_src b))
  | VByteSeq _ cs s off => wrap (8 * s) (cells_val (map (den w) cs) / 2 ^ (8 * off))
  | VPkt _ p => w v [den w (pv_var_off p)]
  | VMap _ m => w v [den w (mv_map_key m); den w (mv_var_off m)]
  | VBss _ b => w v [den w (bv_var_off b)]
  | VRodata _ r => w v [den w (rv_var_off r)]
  | VHit _ h => w v [den w (lh_map_key h)]
  | VFunc _ f => w v [den w (fr_map_key f)]
  | _ => w v []
  end.

(** ** The smart constructors *)

Section construct.
Context {S : Type} `{Alloc S}.

Lemma fresh_Ok (s : S) o s' : fresh s = Ok (o, s') → o = next_oid s ∧ s' = set_oid (o + 1) s.
Proof. unfold fresh. intros. by simplify_eq. Qed.

Lemma new_num_Ok n sz i (s : S) v s' : new_num n sz i s = Ok (v, s') → ∃ o, v = VNum o n sz i.
Proof. unfold new_num. intros. res_inv. eauto. Qed.
Lemma new_binary_Ok op d r off sz i (s : S) v s' :
  new_binary op d r off sz i s = Ok (v, s') → ∃ o, v = VBin o (mk_binary op d r off sz i).
Proof. unfold new_binary. intros. res_inv. eauto. Qed.
Lemma new_unary_Ok u (s : S) v s' : new_unary u s = Ok (v, s') → ∃ o, v = VUn o u.
Proof. unfold new_unary. intros. res_inv. eauto. Qed.
Lemma new_scalar_Ok sz i (s : S) v s' : new_scalar sz i s = Ok (v, s') → ∃ o, v = VScalar o sz i.
Proof. unfold new_scalar. intros. res_inv. eauto. Qed.
Lemma new_byteseq_Ok c sz f (s : S) v s' :
  new_byteseq c sz f s = Ok (v, s') → ∃ o, v = VByteSeq o c sz f.
Proof. unfold new_byteseq. intros. res_inv. eauto. Qed.

(** A value whose meaning fits the register width its [size] stands for; a
    64-bit operand is any value, a 32-bit ALU node only reads the low half. *)
Lemma isa_alu_add0 bits x : bits = 32 ∨ bits = 64 → ∀ op s, op = ADD ∨ op = SUB →
  isa_alu op bits s x 0 = wrap bits x.
Proof.
  intros Hb op s Hop. assert (0 <= bits) by lia. unfold isa_alu.
  rewrite (wrap_small bits 0) by (split; [lia|by apply pow2_pos]).
  destruct Hop as [-> | ->]; simpl; rewrite ?Z.add_0_r, ?Z.sub_0_r; by apply wrap_wrap.
Qed.

Lemma isa_alu_args op bits s x y x' y' : bits = 32 ∨ bits = 64 →
  wrap bits x = wrap bits x' → wrap bits y = wrap bits y' →
  isa_alu op bits s x y = isa_alu op bits s x' y'.
Proof. intros Hb Hx Hy. unfold isa_alu. by rewrite Hx, Hy. Qed.
End construct.

(** ** Ranges *)

Lemma cells_val_range cs : 0 <= cells_val cs < 2 ^ (64 * Z.of_nat (length cs)).
Proof.
  induction cs as [|c cs IH]; simpl; [lia|].
  replace (64 * Z.of_nat (S (length cs))) with (64 + 64 * Z.of_nat (length cs)) by lia.
  rewrite Z.pow_add_r by lia.
  pose proof (wrap_range 64 c ltac:(lia)). lia.
Qed.

Lemma reg_bits_cases sz : reg_bits sz = 32 ∨ reg_bits sz = 64.
Proof. unfold reg_bits. destruct (_ =? _); auto. Qed.

Lemma reg_bits_range sz : 0 <= reg_bits sz <= 64.
Proof. destruct (reg_bits_cases sz) as [-> | ->]; lia. Qed.

Lemma den_binary_range w o b : 0 <= den w (VBin o b) < 2 ^ reg_bits (b_size b).
Proof. simpl. apply isa_alu_range, reg_bits_cases. Qed.

(** [v] stands for the register value [x]: it is no pointer, its meaning is
    [x], and [x] fits both a register and the width [v.size] declares. *)
Definition rep (w : world) (v : val) (x : Z) : Prop :=
  v ≠ VNone ∧ is_ptr v = false ∧ den w v = x ∧ 0 <= x < 2 ^ 64 ∧
  (∀ sz, vsize v = Ok sz → sz <= 4 → x < 2 ^ 32) ∧
  (∀ o n s i, v = VNum o n s i → wrap 64 n = x ∧ (s = 4 ∨ s = 8)).

(** A constant operand, which a 32-bit instruction reads in its low half. *)
Definition rep_on (w : world) (bits : Z) (v : val) (y : Z) : Prop :=
  is_ptr v = false ∧ wrap bits (den w v) = wrap bits y ∧
  (∀ o n s i, v = VNum o n s i → wrap bits n = wrap bits y).

Lemma rep_rep_on w bits v x : 0 <= bits <= 64 → rep w v x → rep_on w bits v x.
Proof.
  intros Hb (_ & Hp & Hd & Hr & _ & Hn). split_and!; [done|by rewrite Hd|].
  intros o n s i ->. destruct (Hn o n s i eq_refl) as [<- _].
  by rewrite wrap_wrap_le.
Qed.

Lemma rep_binary w o b x : den w (VBin o b) = x → b_size b = 4 ∨ b_size b = 8 →
  rep w (VBin o b) x.
Proof.
  intros <- Hs. pose proof (den_binary_range w o b) as Hr.
  unfold reg_bits in Hr.
  split_and!; try done.
  - apply Hr.
  - destruct Hs as [Hs | Hs]; rewrite Hs in Hr; simpl Z.eqb in Hr; lia.
  - intros sz Hz Hle. simpl vsize in Hz. injection Hz as Hz.
    destruct Hs as [Hs | Hs]; [|lia]. rewrite Hs in Hr. simpl Z.eqb in Hr. lia.
Qed.

Lemma rep_num w o n s i x : (s = 4 ∧ 0 <= n < 2 ^ 32 ∨ s = 8) → wrap 64 n = x →
  rep w (VNum o n s i) x.
Proof.
  intros Hs Hx. pose proof (wrap_range 64 n ltac:(lia)).
  assert (s = 4 → wrap 64 n = n) as H4.
  { intros ->. destruct Hs as [[_ ?] | ?]; [|lia]. apply wrap_small. lia. }
  split_and!; try done; try lia.
  - simpl. destruct Hs as [[-> ?] | ->]; simpl.
    + rewrite wrap_small by lia. rewrite <- Hx. symmetry. by apply H4.
    + done.
  - intros sz Hz Hle. simpl in Hz. injection Hz as ->.
    destruct Hs as [[-> ?] | ?]; [|lia]. rewrite <- Hx, H4 by done. lia.
  - intros ? ? ? ? [=]; subst. split; [done|]. destruct Hs as [[-> _] | ->]; auto.
Qed.

Section construct_sound.
Context {S : Type} `{Alloc S} (w : world).

Lemma isa_alu_signed op bits s x y :
  isa_alu op bits (s && ((op =? DIV) || (op =? MOD))) x y = isa_alu op bits s x y.
Proof.
  destruct ((op =? DIV) || (op =? MOD)) eqn:E; [by rewrite andb_true_r|].
  apply orb_false_iff in E as [Ed Em].
  unfold isa_alu. rewrite Ed, Em. done.
Qed.

Lemma reg_bits_4 : reg_bits 4 = 32.
Proof. done. Qed.
Lemma reg_bits_8 : reg_bits 8 = 64.
Proof. done. Qed.

Lemma arith32_exact op x y s : op ∈ alu_ops → arith op x y 32 s = isa_alu op 32 s x y.
Proof.
  intros Hop. rewrite <- (arith_isa_eq 32 ltac:(auto) op x y s Hop).
  symmetry. apply wrap_small. unfold arith.
  destruct ((op =? LSH) || (op =? RSH) || (op =? ARSH)) eqn:Hsh.
  { rewrite (arith_shift_isa 32 ltac:(auto) op x y s); [apply isa_alu_range; auto|].
    rewrite !orb_true_iff, !Z.eqb_eq in Hsh. tauto. }
  destruct ((op =? DIV) || (op =? MOD)) eqn:Hdm.
  { rewrite (arith_divmod_isa 32 ltac:(auto) op x y s); [apply isa_alu_range; auto|].
    rewrite orb_true_iff, !Z.eqb_eq in Hdm. tauto. }
  simpl Z.eqb. cbv iota. rewrite land_mask by lia. apply wrap_range. lia.
Qed.

(** The three results of [expr_alu]. *)
Lemma expr_alu_cases dst src code size idx offset (s : S) v s' x y :
  size = 4 ∨ size = 8 → code ∈ alu_ops →
  rep_on w (reg_bits size) dst x → rep_on w (reg_bits size) src y →
  expr_alu dst src code size false idx offset s = Ok (v, s') →
  (v = dst ∧ (code = ADD ∨ code = SUB) ∧ wrap (reg_bits size) y = 0) ∨
  (∃ o, v = VBin o (mk_binary code dst src offset size idx)) ∨
  (∃ o n, v = VNum o n size idx ∧
     wrap (reg_bits size) n = isa_alu code (reg_bits size) (offset =? 1) x y ∧
     (size = 4 → 0 <= n < 2 ^ 32)).
Proof.
  intros Hsz Hop (Hpd & Hd & Hnd) (Hps & Hs & Hns) HE. unfold expr_alu in HE.
  destruct dst as [| | | | | | | | | | | | |o1 nd ss1 ii1| | | |] eqn:Ed;
    destruct src as [| | | | | | | | | | | | |o2 nr ss2 ii2| | | |] eqn:Es;
    try solve [ rewrite ?andb_false_r in HE; apply new_binary_Ok in HE; eauto
              | destruct (_ && _) eqn:EA in HE; [|apply new_binary_Ok in HE; eauto];
                apply andb_true_iff in EA as [EA EZ]; bool_prop; subst nr;
                apply orb_true_iff in EA; rewrite !Z.eqb_eq in EA;
                res_inv; left; split_and!; try done;
                by rewrite <- (Hns _ _ _ _ eq_refl) ].
  specialize (Hnd _ _ _ _ eq_refl). specialize (Hns _ _ _ _ eq_refl). right; right.
  destruct Hsz as [-> | ->]; simpl Z.eqb in HE; cbv iota in HE;
    apply new_num_Ok in HE as [o ->]; eexists o, _; split; try done.
  - rewrite arith32_exact by done. pose proof (isa_alu_range 32 ltac:(auto)) as Hr.
    rewrite wrap_small, isa_alu_signed by apply Hr.
    split; [by apply isa_alu_args; auto|]. intros _. apply Hr.
  - split; [|lia]. rewrite reg_bits_8, arith_isa_eq, isa_alu_signed by auto.
    apply isa_alu_args; auto.
Qed.

Lemma expr_alu_rep dst src code size idx offset (s : S) v s' x y :
  size = 4 ∨ size = 8 → code ∈ alu_ops → rep w dst x → rep_on w (reg_bits size) src y →
  expr_alu dst src code size false idx offset s = Ok (v, s') →
  rep w v (isa_alu code (reg_bits size) (offset =? 1) x y) ∨
  (v = dst ∧ size = 4 ∧ isa_alu code 32 (offset =? 1) x y = wrap 32 x).
Proof.
  intros Hsz Hop Hd Hs HE.
  assert (rep_on w (reg_bits size) dst x) as Hd' by
    (apply rep_rep_on; [apply reg_bits_range|done]).
  destruct (expr_alu_cases _ _ _ _ _ _ _ _ _ _ _ Hsz Hop Hd' Hs HE)
    as [(-> & Hc & Hy) | [(o & ->) | (o & n & -> & Hn & H4)]].
  - assert (isa_alu code (reg_bits size) (offset =? 1) x y = wrap (reg_bits size) x) as Hx.
    { rewrite (isa_alu_args _ _ _ x y x 0 (reg_bits_cases size) eq_refl).
      - apply isa_alu_add0; [apply reg_bits_cases|done].
      - rewrite Hy. by destruct (reg_bits_cases size) as [-> | ->]. }
    destruct Hsz as [-> | ->]; [right; done|left]. rewrite Hx. simpl reg_bits.
    destruct Hd as (? & ? & ? & ? & ?). by rewrite wrap_small.
  - left. apply rep_binary; [|done]. simpl.
    destruct Hd' as (_ & Hd' & _), Hs as (_ & Hs & _).
    apply isa_alu_args; auto using reg_bits_cases.
  - left. pose proof (isa_alu_range (reg_bits size) (reg_bits_cases size)
      code (offset =? 1) x y) as Hr.
    apply rep_num; [destruct Hsz; auto|]. rewrite <- Hn.
    destruct Hsz as [-> | ->]; [|done]. specialize (H4 eq_refl).
    rewrite reg_bits_4, !wrap_small by lia. done.
Qed.

Lemma isa_and_mask bits x : bits = 32 ∨ bits = 64 → ∀ k, 0 <= k <= bits →
  isa_alu AND bits false x (wrap 64 (mask k)) = wrap k x.
Proof.
  intros Hb k Hk. assert (0 <= mask k < 2 ^ k) as Hm.
  { rewrite mask_eq, Z.ones_equiv by lia. pose proof (pow2_pos k ltac:(lia)). lia. }
  pose proof (Z.pow_le_mono_r 2 k bits ltac:(lia) ltac:(lia)).
  pose proof (Z.pow_le_mono_r 2 k 64 ltac:(lia) ltac:(lia)).
  change (Z.land (wrap bits x) (wrap bits (wrap 64 (mask k))) = wrap k x).
  rewrite (wrap_small 64), (wrap_small bits (mask k)) by lia.
  rewrite land_mask by lia. by apply wrap_wrap_le.
Qed.

Lemma trunc32_rep v idx (s : S) v' s' x :
  rep w v x → trunc32 v idx s = Ok (v', s') → rep w v' (wrap 32 x).
Proof.
  intros Hrep HE. pose proof Hrep as (Hne & Hp & Hd & Hr & Hz & Hn).
  destruct (is_num v) eqn:En.
  { destruct v; try done. simpl in HE. apply new_num_Ok in HE as [o' ->].
    destruct (Hn _ _ _ _ eq_refl) as [Hx _].
    change 4294967295 with (mask 32). rewrite land_mask by lia.
    pose proof (wrap_range 32 num ltac:(lia)).
    apply rep_num; [left; split; [done|lia]|].
    rewrite wrap_wrap_ge, <- Hx by lia. symmetry. by apply wrap_wrap_le. }
  assert (trunc32 v idx s = (sz ← lift (vsize v);
      if sz <=? 4 then mret v
      else m ← new_num 0xFFFFFFFF 4 (-1); new_binary AND v m 0 4 idx) s) as HT by
    (by destruct v).
  rewrite HT in HE. res_inv. destruct (_ <=? 4) eqn:E4; bool_prop; res_inv.
  - by rewrite wrap_small by (split; [lia|]; eapply Hz; done).
  - match goal with H : new_num _ _ _ _ = _ |- _ => apply new_num_Ok in H as [? ->] end.
    apply new_binary_Ok in HE as [? ->]. apply rep_binary; [|by left].
    simpl den. rewrite Hd. apply (isa_and_mask 32 x ltac:(auto) 32). lia.
Qed.

Lemma sext_rep v bits size idx (s : S) v' s' x :
  bits = 8 ∨ bits = 16 ∨ bits = 32 → size = 4 ∨ size = 8 → bits <= 8 * size →
  rep w v x → sext v bits size idx s = Ok (v', s') →
  rep w v' (wrap (reg_bits size) (sgn bits x)).
Proof.
  intros Hb Hs Hle (Hne & Hp & Hd & Hr & Hz & Hn) HE.
  destruct (is_num v) eqn:En.
  - destruct v; try done. simpl in HE.
    destruct (Hn _ _ _ _ eq_refl) as [Hx _].
    set (k := (if negb _ then _ else _)) in HE.
    assert (k = sgn bits x) as Hk.
    { unfold k, sgn. rewrite Z.shiftl_mul_pow2, Z.mul_1_l by lia.
      rewrite land_mask by lia. rewrite <- Hx, wrap_wrap_le by lia.
      rewrite shiftr_top by (try apply wrap_range; lia).
      by destruct (_ <=? _). }
    pose proof (wrap_range 32 k ltac:(lia)).
    destruct Hs as [-> | ->]; simpl in HE; apply new_num_Ok in HE as [o' ->].
    + change 4294967295 with (mask 32). rewrite land_mask, <- Hk by lia.
      apply rep_num; [left; split; [done|lia]|]. by apply wrap_wrap_ge.
    + rewrite <- Hk. apply rep_num; [by right|done].
  - assert (sext v bits size idx s = new_unary (mk_unary MOV v None bits size (size =? 8)) s)
      as HT by (by destruct v).
    rewrite HT in HE. apply new_unary_Ok in HE as [o ->].
    pose proof (wrap_range (reg_bits size) (sgn bits x)) as Hw.
    split_and!; try done.
    + simpl. by rewrite Hd.
    + apply Hw, reg_bits_range.
    + destruct Hs as [-> | ->]; rewrite ?reg_bits_4, ?reg_bits_8 in *; lia.
    + intros sz [=] ?. subst. destruct Hs as [-> | ->]; rewrite ?reg_bits_4, ?reg_bits_8 in *; lia.
Qed.
End construct_sound.

Lemma expr_alu_trunc {S} `{Alloc S} w dst src code size idx offset (s s1 s2 : S) v v' x y :
  size = 4 ∨ size = 8 → code ∈ alu_ops → rep w dst x → rep_on w (reg_bits size) src y →
  expr_alu dst src code size false idx offset s = Ok (v, s1) →
  (if (size =? 4) && is_same v dst then trunc32 v idx else mret v) s1 = Ok (v', s2) →
  rep w v' (isa_alu code (reg_bits size) (offset =? 1) x y).
Proof.
  intros Hsz Hop Hd Hs HE HT.
  assert (is_same dst dst = true) as Hself.
  { unfold is_same. destruct Hd as (Hne & _). destruct dst; simpl; auto using Z.eqb_refl. }
  destruct (expr_alu_rep _ _ _ _ _ _ _ _ _ _ _ _ Hsz Hop Hd Hs HE) as [Hv | (-> & -> & Hi)].
  - destruct ((size =? 4) && is_same v dst) eqn:E; [|res_inv; done].
    bool_prop. subst size. pose proof (isa_alu_range 32 ltac:(auto) code (offset =? 1) x y) as Hr.
    rewrite reg_bits_4 in *. rewrite <- (wrap_small 32 _ Hr). by eapply trunc32_rep.
  - rewrite Hself in HT. simpl in HT. rewrite reg_bits_4, Hi. by eapply trunc32_rep.
Qed.

(** The smart constructors of ALU values are exact. For operands that stand
    for the register values [x] and [y], the value of a 64-bit [expr_alu]
    stands for the machine's result; that of a 32-bit one too after the
    [trunc32] applied when the destination object itself comes back. *)
Theorem expr_alu_sound {S} `{Alloc S} w dst src code size idx offset (s s1 s2 : S) v v' x y :
  size = 4 ∨ size = 8 → code ∈ alu_ops → rep w dst x → rep_on w (reg_bits size) src y →
  expr_alu dst src code size false idx offset s = Ok (v, s1) →
  (if (size =? 4) && is_same v dst then trunc32 v idx else mret v) s1 = Ok (v', s2) →
  rep w v' (isa_alu code (reg_bits size) (offset =? 1) x y).
Proof. apply expr_alu_trunc. Qed.

Lemma expr_alu_sound_witness :
  let w : world := λ _ _, 7 in
  let r := VScalar 1 8 0 in
  let k := VNum 2 5 4 (-1) in
  (expr_alu r k ADD 8 false 3 0 10 = Ok (VBin 10 (mk_binary ADD r k 0 8 3), 11)) ∧
  rep w (VBin 10 (mk_binary ADD r k 0 8 3)) 12.
Proof.
  assert (rep (λ _ _, 7) (VScalar 1 8 0) 7) as Hr.
  { split_and!; try done; try lia; intros; simplify_eq; simpl in *; simplify_eq; lia. }
  assert (rep_on (λ _ _, 7) 64 (VNum 2 5 4 (-1)) 5) as Hk.
  { split_and!; [done|reflexivity|]. intros ? ? ? ? [=]; subst. reflexivity. }
  split; [reflexivity|].
  change 12 with (isa_alu ADD (reg_bits 8) (0 =? 1) 7 5).
  eapply (expr_alu_sound _ (VScalar 1 8 0) (VNum 2 5 4 (-1)) ADD 8 3 0 10 11 11);
    [by right| |exact Hr|exact Hk|reflexivity|reflexivity].
  unfold alu_ops. rewrite elem_of_cons. by left.
Defined.
