(* ===== verification/Branch.v ===== *)
(** Deciding a branch: [_jmp_taken], and the resolution of a test on the result
    of [bpf_xdp_adjust_*] by evaluating it at both results
    ([track/tracker.py]). *)

From S2P Require Import Prelude Constants Expr Denote.

(** ** Definitions *)

(** The helper result a value is computed from, through constants and
    sign extensions only. *)
Fixpoint _adjust_ret_in (v : val) : option val :=
  match v with
  | VFunc _ f => if existsb (Z.eqb (fr_func f)) [44; 54; 65] then Some v else None
  | VBin _ b =>
      if is_num (b_src b) then _adjust_ret_in (b_dst b)
      else if is_num (b_dst b) then _adjust_ret_in (b_src b)
      else None
  | VUn _ u => if u_op u =? MOV then _adjust_ret_in (u_dst u) else None
  | _ => None
  end.

(** The value of [v] when the helper call [rv] returned [ret]. *)
Fixpoint _eval_at (v rv : val) (ret : Z) : option Z :=
  match v with
  | VFunc _ _ => if py_eq v rv then Some (Z.land ret (mask 64)) else None
  | VNum _ n _ _ => Some (Z.land n (mask 64))
  | VBin _ b =>
      match _eval_at (b_dst b) rv ret, _eval_at (b_src b) rv ret with
      | Some x, Some y =>
          Some (Z.land (arith (b_op b) x y (8 * b_size b) (b_offset b =? 1)) (mask 64))
      | _, _ => None
      end
  | VUn _ u =>
      if u_op u =? MOV then
        a ← _eval_at (u_dst u) rv ret;
        let low := Z.land a (mask (u_imm u)) in
        let low := if negb (Z.shiftr low (u_imm u - 1) =? 0)
                   then low - Z.shiftl 1 (u_imm u) else low in
        Some (Z.land low (mask (8 * u_size u)))
      else None
  | _ => None
  end.

Definition _jmp_taken (code a b : Z) (jmp32 : bool) : res bool :=
  let bits := if jmp32 then 32 else 64 in
  let a := Z.land a (mask bits) in
  let b := Z.land b (mask bits) in
  let sa := if negb (Z.shiftr a (bits - 1) =? 0) then a - Z.shiftl 1 bits else a in
  let sb := if negb (Z.shiftr b (bits - 1) =? 0) then b - Z.shiftl 1 bits else b in
  of_option KeyError
    (dict_get [(JEQ, a =? b); (JNE, negb (a =? b)); (JSET, negb (Z.land a b =? 0));
               (JGT, b <? a); (JGE, b <=? a); (JLT, a <? b); (JLE, a <=? b);
               (JSGT, sb <? sa); (JSGE, sb <=? sa); (JSLT, sa <? sb); (JSLE, sa <=? sb)] code).

(** ** The comparison on registers *)

Definition jmp_bits (jmp32 : bool) : Z := if jmp32 then 32 else 64.

Lemma jmp_bits_range j : 32 <= jmp_bits j <= 64.
Proof. destruct j; simpl; lia. Qed.

(** [sgn] as the source computes it. *)
Lemma sgn_shift w u : 1 <= w →
  (if negb (Z.shiftr (wrap w u) (w - 1) =? 0) then wrap w u - Z.shiftl 1 w else wrap w u)
  = sgn w u.
Proof.
  intros Hw. rewrite shiftr_top by (try apply wrap_range; lia).
  rewrite Z.shiftl_mul_pow2, Z.mul_1_l by lia. unfold sgn. by destruct (_ <=? _).
Qed.

(** The instruction set's jump conditions, on [bits]-bit operands. *)
Definition isa_jmp (code bits a b : Z) : option bool :=
  let ua := wrap bits a in
  let ub := wrap bits b in
  dict_get [(JEQ, ua =? ub); (JNE, negb (ua =? ub)); (JSET, negb (Z.land ua ub =? 0));
            (JGT, ub <? ua); (JGE, ub <=? ua); (JLT, ua <? ub); (JLE, ua <=? ub);
            (JSGT, sgn bits b <? sgn bits a); (JSGE, sgn bits b <=? sgn bits a);
            (JSLT, sgn bits a <? sgn bits b); (JSLE, sgn bits a <=? sgn bits b)] code.

Lemma jmp_taken_isa code a b j :
  _jmp_taken code a b j = of_option KeyError (isa_jmp code (jmp_bits j) a b).
Proof.
  unfold _jmp_taken, isa_jmp. fold (jmp_bits j).
  pose proof (jmp_bits_range j). rewrite !land_mask, !sgn_shift by lia. done.
Qed.

Lemma sgn_ext w a a' : wrap w a = wrap w a' → sgn w a = sgn w a'.
Proof. unfold sgn. by intros ->. Qed.

Lemma isa_jmp_ext code bits a b a' b' : wrap bits a = wrap bits a' → wrap bits b = wrap bits b' →
  isa_jmp code bits a b = isa_jmp code bits a' b'.
Proof.
  intros Ha Hb. unfold isa_jmp. by rewrite Ha, Hb, (sgn_ext _ _ _ Ha), (sgn_ext _ _ _ Hb).
Qed.

(** [swap_jmp_code] negates: where it knows a code, the jump with the swapped
    code is taken exactly when the original falls through. *)
Theorem swap_negates code a b j : swap_jmp_code code ≠ -1 →
  ∃ t, _jmp_taken code a b j = Ok t ∧ _jmp_taken (swap_jmp_code code) a b j = Ok (negb t).
Proof.
  rewrite !jmp_taken_isa. unfold isa_jmp.
  generalize (sgn (jmp_bits j) a), (sgn (jmp_bits j) b).
  generalize (wrap (jmp_bits j) a), (wrap (jmp_bits j) b). intros ub ua sb sa Hs.
  assert (code ∈ [JEQ; JNE; JGT; JLE; JGE; JLT; JSGT; JSLE; JSGE; JSLT]) as Hc.
  { revert Hs. unfold swap_jmp_code, swap_table. simpl.
    repeat (case_bool_decide || case_match); simpl; intros;
      rewrite ?elem_of_cons; bool_prop; auto 12. done. }
  rewrite !elem_of_cons, elem_of_nil in Hc.
  destruct Hc as [-> | [-> | [-> | [-> | [-> | [-> | [-> | [-> | [-> | [-> | []]]]]]]]]]];
    simpl; eexists; (split; [reflexivity|]);
    rewrite ?negb_involutive, ?Z.leb_antisym, ?negb_involutive; done.
Qed.

Lemma swap_negates_witness :
  swap_jmp_code JSGT ≠ -1 ∧
  ∃ t, _jmp_taken JSGT (-1) 3 true = Ok t ∧ _jmp_taken JSLE (-1) 3 true = Ok (negb t).
Proof.
  assert (swap_jmp_code JSGT ≠ -1) as H by (change (13 ≠ -1); lia).
  split; [exact H|]. exact (swap_negates JSGT (-1) 3 true H).
Defined.

(** ** Evaluation at a helper's result *)

(** The constants of [v] mean the same to a [bits]-bit reader, and its nodes are
    of the two register widths. *)
Fixpoint evaluable (bits : Z) (v : val) : Prop :=
  match v with
  | VNum _ n s _ => wrap bits n = wrap bits (wrap (8 * s) n)
  | VBin _ b =>
      (b_size b = 4 ∨ b_size b = 8) ∧ b_op b ∈ alu_ops ∧
      evaluable (reg_bits (b_size b)) (b_dst b) ∧ evaluable (reg_bits (b_size b)) (b_src b)
  | VUn _ u =>
      (u_size u = 4 ∨ u_size u = 8) ∧ 1 <= u_imm u <= 64 ∧ evaluable (u_imm u) (u_dst u)
  | _ => True
  end.

(** In [w] the call [rv] returned [ret]. *)
Definition returned (w : world) (rv : val) (ret : Z) : Prop :=
  ∀ o f l, py_eq (VFunc o f) rv = true → w (VFunc o f) l = wrap 64 ret.

Lemma eval_at_wrap w rv ret v : returned w rv ret →
  ∀ bits x, 1 <= bits <= 64 → evaluable bits v → _eval_at v rv ret = Some x →
  wrap bits x = wrap bits (den w v).
Proof.
  intros Hw. revert v.
  fix IH 1. intros v bits x Hb He HE.
  destruct v as [| | | | | | |o f| | | | | |o n s i| |o u|o b|]; try discriminate.
  - cbn [_eval_at] in HE. destruct (py_eq (VFunc o f) rv) eqn:E; [|discriminate].
    injection HE as <-. rewrite land_mask by lia. simpl. by rewrite (Hw o f _ E).
  - simpl in HE, He |- *. injection HE as <-. by rewrite land_mask, wrap_wrap_le by lia.
  - destruct u as [op d os im sz a64]. simpl in HE, He |- *.
    destruct (op =? MOV) eqn:EM; [|discriminate].
    destruct He as (Hs & Him & He).
    destruct (_eval_at d rv ret) as [a|] eqn:Ea; [|discriminate]. simpl in HE.
    injection HE as <-. pose proof (IH d im a Him He Ea) as Ha.
    rewrite !land_mask, sgn_shift by (destruct Hs; lia).
    rewrite (sgn_ext _ _ _ Ha). apply Z.eqb_eq in EM. subst op.
    unfold isa_unary. simpl.
    assert (reg_bits sz = 8 * sz) as -> by (by destruct Hs as [-> | ->]). done.
  - destruct b as [op d r off sz ix]. simpl in HE, He |- *.
    destruct He as (Hs & Hop & Hed & Her).
    destruct (_eval_at d rv ret) as [a|] eqn:Ea; [|discriminate].
    destruct (_eval_at r rv ret) as [c|] eqn:Ec; [|discriminate].
    simpl in HE. injection HE as <-.
    pose proof (IH d (reg_bits sz) a ltac:(destruct (reg_bits_cases sz); lia) Hed Ea) as Ha.
    pose proof (IH r (reg_bits sz) c ltac:(destruct (reg_bits_cases sz); lia) Her Ec) as Hc.
    rewrite land_mask, wrap_wrap_le by lia.
    rewrite <- (isa_alu_args op (reg_bits sz) (off =? 1) a c (den w d) (den w r)
                  (reg_bits_cases sz) Ha Hc).
    destruct Hs as [-> | ->].
    + change (8 * 4) with 32. rewrite arith32_exact by done. done.
    + change (8 * 8) with 64. change (reg_bits 8) with 64.
      rewrite <- (wrap_wrap_le bits 64 (arith _ _ _ _ _)), arith_isa_eq by (auto; lia). done.
Qed.

Lemma eval_branch w rv ret code dst src j a b :
  returned w rv ret →
  evaluable (jmp_bits j) dst → evaluable (jmp_bits j) src →
  _eval_at dst rv ret = Some a → _eval_at src rv ret = Some b →
  _jmp_taken code a b j = _jmp_taken code (den w dst) (den w src) j.
Proof.
  intros Hw Hd Hs Ha Hb. pose proof (jmp_bits_range j). rewrite !jmp_taken_isa. f_equal.
  apply isa_jmp_ext; (eapply eval_at_wrap; [done|lia|done|done]).
Qed.

(** The two-point evaluation decides the branch as the machine does: in every
    world where the helper call returned [ret], comparing the evaluated
    operands takes the edge that comparing the operands' values takes. *)
Theorem eval_branch_sound w rv ret code dst src j a b :
  returned w rv ret →
  evaluable (jmp_bits j) dst → evaluable (jmp_bits j) src →
  _eval_at dst rv ret = Some a → _eval_at src rv ret = Some b →
  _jmp_taken code a b j = _jmp_taken code (den w dst) (den w src) j.
Proof. apply eval_branch. Qed.

(** [if (adjust(...) < 0)]: the result shifted and compared as the compiler
    emits it. *)
Definition ex_rv : val := VFunc 1 (mk_func 8 5 44 0 None VNone None 0 false).
Definition ex_test : val :=
  VBin 3 (mk_binary RSH (VBin 2 (mk_binary LSH ex_rv (VNum 4 32 4 (-1)) 0 8 6))
                    (VNum 5 63 4 (-1)) 0 8 7).

Example ex_test_ends : _eval_at ex_test ex_rv 0 = Some 0 ∧ _eval_at ex_test ex_rv (-22) = Some 1.
Proof. split; reflexivity. Qed.

Lemma eval_branch_sound_witness :
  let w : world := λ v _, if is_func v then wrap 64 (-22) else 0 in
  _eval_at ex_test ex_rv (-22) = Some 1 ∧
  _jmp_taken JNE 1 0 false = _jmp_taken JNE (den w ex_test) (den w (VNum 9 0 4 (-1))) false.
Proof.
  split; [reflexivity|].
  apply (eval_branch_sound _ ex_rv (-22) JNE ex_test (VNum 9 0 4 (-1)) false 1 0).
  - intros o f l _. reflexivity.
  - simpl. unfold alu_ops. rewrite !elem_of_cons. repeat split; auto 20; reflexivity.
  - reflexivity.
  - reflexivity.
  - reflexivity.
Defined.
