(* ===== verification/Encode.v ===== *)
(** The encoding of expressions, branch conditions and actions into SMT terms:
    [track/encode.py].

    A method [to_z3] of a condition returns a [guard], of an action the
    [Z3State] after it. The [memo] of [expr_to_z3] is the state of a monad; a
    call without [memo=] starts from the empty one. *)

From S2P Require Import Prelude Constants Instr Smt Expr Record Link.

(** ** Constants *)

Definition BPF_MAP_TYPE_HASH : Z := 1.
Definition BPF_MAP_TYPE_ARRAY : Z := 2.
Definition BPF_MAP_TYPE_PERCPU_HASH : Z := 5.
Definition BPF_MAP_TYPE_PERCPU_ARRAY : Z := 6.
Definition BPF_MAP_TYPE_LRU_HASH : Z := 9.
Definition BPF_MAP_TYPE_LRU_PERCPU_HASH : Z := 10.

Definition ARRAY_MAP_TYPES : list Z := [BPF_MAP_TYPE_ARRAY; BPF_MAP_TYPE_PERCPU_ARRAY].
Definition HASH_MAP_TYPES : list Z :=
  [BPF_MAP_TYPE_HASH; BPF_MAP_TYPE_PERCPU_HASH; BPF_MAP_TYPE_LRU_HASH;
   BPF_MAP_TYPE_LRU_PERCPU_HASH].
Definition PROG_MAP_TYPES : list Z := [BPF_MAP_TYPE_PROG_ARRAY].

Definition EINVAL : Z := 22.
Definition PKT_ADDR_BITS : Z := 16.
Definition BSS_ADDR_BITS : Z := 16.
Definition RODATA_ADDR_BITS : Z := 32.

Definition BPF_ANY : Z := 0.
Definition BPF_NOEXIST : Z := 1.
Definition BPF_EXIST : Z := 2.

(** [f'adjust{idx}_ok'] and the other names of free variables. *)
Definition adjust_name (idx : Z) : string := "adjust" +:+ pretty idx +:+ "_ok".
Definition tail_name (idx : Z) : string := "tail" +:+ pretty idx +:+ "_ok".
Definition update_name (idx : Z) : string := "update" +:+ pretty idx +:+ "_applies".
Definition func_name (func idx : Z) : string := "func" +:+ pretty func +:+ "_" +:+ pretty idx.
Definition phi_name (block reg : Z) : string := "phi" +:+ pretty block +:+ "_" +:+ pretty reg.
Definition scalar_name (idx : Z) : string := "scalar" +:+ pretty idx.

(** ** Guards *)

Section guards.
Context `{SMT}.

Definition _and (a b : guard) : guard :=
  match a, b with
  | GPy true, _ => b
  | _, GPy true => a
  | GPy false, _ | _, GPy false => GPy false
  | GTm x, GTm y => GTm (And [x; y])
  end.

Definition _not (a : guard) : guard :=
  match a with GPy b => GPy (negb b) | GTm t => GTm (Not t) end.

Definition is_False (g : guard) : bool := match g with GPy false => true | _ => false end.
Definition is_True (g : guard) : bool := match g with GPy true => true | _ => false end.

Definition _or_all (terms : list guard) : guard :=
  let terms := filter (λ g, is_False g = false) terms in
  match terms with
  | [] => GPy false
  | _ =>
      if existsb is_True terms then GPy true
      else match terms with [g] => g | _ => GTm (Or (map to_bl terms)) end
  end.

(** [If(g, a, b)] on bit vectors where the source tests [g is True] and
    [g is False] first. *)
Definition if_guard (g : guard) (a b : bv) : bv :=
  match g with GPy true => a | GPy false => b | GTm c => IfBV c a b end.
End guards.

(** [memo]: from the identity of an ALU node to its term. *)
Notation memo := (gmap Z bv).

(** ** The symbolic machine state *)

Section encode.
Context `{SMT}.

Record Z3State := mk_state {
  map_meta : list map_info;
  read_pkt : option (val → res (option bv));
  read_map : option (val → res (option bv));
  read_bss : option (val → res (option bv));
  read_fret : option (val → res (option bv));
  read_phi : option (val → res bv);
  read_loc : option (mloc → res (option bv));
  at_block : option Z;
  read_present : option (option Z → bv → option Z → option Z → res bl);
  z_pkt : barr;
  z_map : list (parr * barr);
  z_r0 : bv;
  z_rx_index : bv;
  z_ingress : bv;
  z_egress : bv;
  z_pkt_len : bv;
  z_bss : list (option string * barr)
}.

(** [Z3State(field=v, st=st)]. *)
Definition with_fields (st : Z3State) (pkt : barr) (zmap : list (parr * barr)) (r0 rx plen : bv)
    (bss : list (option string * barr)) : Z3State :=
  mk_state (map_meta st) (read_pkt st) (read_map st) (read_bss st) (read_fret st)
    (read_phi st) (read_loc st) (at_block st) (read_present st)
    pkt zmap r0 rx (z_ingress st) (z_egress st) plen bss.

Definition set_pkt (x : barr) (st : Z3State) : Z3State :=
  with_fields st x (z_map st) (z_r0 st) (z_rx_index st) (z_pkt_len st) (z_bss st).
Definition set_map (x : list (parr * barr)) (st : Z3State) : Z3State :=
  with_fields st (z_pkt st) x (z_r0 st) (z_rx_index st) (z_pkt_len st) (z_bss st).
Definition set_r0 (x : bv) (st : Z3State) : Z3State :=
  with_fields st (z_pkt st) (z_map st) x (z_rx_index st) (z_pkt_len st) (z_bss st).
Definition set_rx_index (x : bv) (st : Z3State) : Z3State :=
  with_fields st (z_pkt st) (z_map st) (z_r0 st) x (z_pkt_len st) (z_bss st).
Definition set_pkt_len (x : bv) (st : Z3State) : Z3State :=
  with_fields st (z_pkt st) (z_map st) (z_r0 st) (z_rx_index st) x (z_bss st).
Definition set_bss (x : list (option string * barr)) (st : Z3State) : Z3State :=
  with_fields st (z_pkt st) (z_map st) (z_r0 st) (z_rx_index st) (z_pkt_len st) x.

Definition _map_info (st : Z3State) (map_id : option Z) : option map_info :=
  match map_id with
  | None => None
  | Some i => if i <? 0 then None else map_meta st !! Z.to_nat i
  end.

Definition has_type (types : list Z) (st : Z3State) (map_id : option Z) : bool :=
  match _map_info st map_id with
  | Some info => existsb (Z.eqb (mi_type info)) types
  | None => false
  end.
Definition _is_array_map : Z3State → option Z → bool := has_type ARRAY_MAP_TYPES.
Definition _is_hash_map : Z3State → option Z → bool := has_type HASH_MAP_TYPES.
Definition _is_prog_map : Z3State → option Z → bool := has_type PROG_MAP_TYPES.

(** [st.map[map_id]]. *)
Definition map_cell (st : Z3State) (map_id : option Z) : res (parr * barr) :=
  i ← of_option TypeError map_id; py_index (z_map st) i.

Definition zero_bss : barr := K BSS_ADDR_BITS (BitVecVal 0 8).

Definition _bss_of (st : Z3State) (key : option string) : barr :=
  default zero_bss (pget (z_bss st) key).

(** ** Bit-vector helpers *)

Definition _resize (t : bv) (bits : Z) : bv :=
  if size t =? bits then t
  else if bits <? size t then Extract (bits - 1) 0 t
  else Concat [BitVecVal 0 (bits - size t); t].

Definition _byte_of (t : bv) (k : Z) : bv :=
  let lo := k * 8 in
  if size t <=? lo then BitVecVal 0 8
  else _resize (Extract (Z.min (lo + 8) (size t) - 1) lo t) 8.

(** [int.bit_length] of a non-negative integer. *)
Definition bit_length (n : Z) : Z := if n =? 0 then 0 else Z.log2 n + 1.

Definition _bits_used (t : bv) : Z :=
  if is_bv_value t then Z.max (bit_length (as_long t)) 1 else size t.

Definition _alu64_width (op : Z) (dst src : bv) : Z :=
  let a := _bits_used dst in
  let b := _bits_used src in
  let bits :=
    if op =? ADD then Z.max a b + 1
    else if op =? MUL then a + b
    else if (op =? LSH) && is_bv_value src then a + as_long src
    else if (op =? SUB) || (op =? LSH) then 64
    else Z.max (size dst) (size src) in
  Z.min 64 (Z.max 8 (- (- bits / 8) * 8)).

(** [Concat( *ts) if len(ts) > 1 else ts[0]]. *)
Definition concat_or (ts : list bv) : res bv :=
  match ts with [] => Err IndexError | [t] => Ok t | _ => Ok (Concat ts) end.

Definition _splice_bytes (cur : bv) (offset nbytes : Z) (v : bv) : res bv :=
  let width := size cur in
  let lo := offset * 8 in
  let hi := (offset + nbytes) * 8 in
  if width <=? lo then Ok cur
  else
    let hi := Z.min hi width in
    let v := _resize v (hi - lo) in
    let parts := (if hi <? width then [Extract (width - 1) hi cur] else [])
                 ++ [v]
                 ++ (if 0 <? lo then [Extract (lo - 1) 0 cur] else []) in
    concat_or parts.

(** The bit shift of a byte offset: [_resize(offset, width) * 8]. *)
Definition shift_of (offset : bv) (width : Z) : bv :=
  bvmul (_resize offset width) (BitVecVal 8 width).

Definition _extract_bytes_var (cur offset : bv) (nbytes : Z) : bv :=
  _resize (LShR cur (shift_of offset (size cur))) (nbytes * 8).

Definition _splice_bytes_var (cur offset : bv) (nbytes : Z) (v : bv) : bv :=
  let width := size cur in
  let shift := shift_of offset width in
  let m := bvshl (_resize (BitVecVal (mask (nbytes * 8)) (nbytes * 8)) width) shift in
  let patched := bvand (bvshl (_resize v width) shift) m in
  bvor (bvand cur (bvnot m)) patched.

Definition _rodata_array (data : list Z) : barr :=
  fold_left (λ arr '(i, byte),
               if byte =? 0 then arr
               else Store arr (BitVecVal (Z.of_nat i) RODATA_ADDR_BITS) (BitVecVal byte 8))
            (imap pair data) (K RODATA_ADDR_BITS (BitVecVal 0 8)).

(** [size] consecutive bytes of an array from [base], little-endian. *)
Definition select_bytes (arr : barr) (base : bv) (w nbytes : Z) : res bv :=
  concat_or (rev (map (λ i, Select arr (bvadd base (BitVecVal i w))) (zrange 0 nbytes))).

(** The [size] low bytes of [v] stored from [base]. *)
Definition store_bytes (arr : barr) (base : bv) (w nbytes : Z) (v : bv) : barr :=
  fold_left (λ arr i, Store arr (bvadd base (BitVecVal i w))
                        (Extract ((i + 1) * 8 - 1) (i * 8) v))
            (zrange 0 nbytes) arr.

Definition _map_store (st : Z3State) (map_id : Z) (key new_val : bv) (mark_present : bool)
    : res Z3State :=
  '(p, a) ← py_index (z_map st) map_id;
  let p' := if mark_present && _is_hash_map st (Some map_id)
            then PStore p key (BoolVal true) else p in
  m ← py_setitem (z_map st) map_id (p', Store a key new_val);
  Ok (set_map m st).

(** ** ALU nodes *)

Definition shift_amount (sz : Z) (e_src : bv) : bv :=
  let amt_bits := if sz =? 4 then 5 else 6 in
  if is_bv_value e_src
  then BitVecVal (Z.land (as_long e_src) (mask amt_bits)) amt_bits
  else Extract (amt_bits - 1) 0 (_resize e_src 64).

(** The operation on operands of equal width. *)
Definition binop_z3 (op sz width : Z) (signed : bool) (e_dst e_src : bv) : res bv :=
  if op =? ADD then Ok (bvadd e_dst e_src)
  else if op =? SUB then Ok (bvsub e_dst e_src)
  else if op =? MUL then Ok (bvmul e_dst e_src)
  else if op =? DIV then
    let quot := if signed then bvsdiv e_dst e_src else UDiv e_dst e_src in
    Ok (if is_bv_value e_src
        then (if as_long e_src =? 0 then BitVecVal 0 width else quot)
        else IfBV (bveq e_src (BitVecVal 0 width)) (BitVecVal 0 width) quot)
  else if op =? OR then Ok (bvor e_dst e_src)
  else if op =? AND then Ok (bvand e_dst e_src)
  else if op =? LSH then Ok (bvshl e_dst e_src)
  else if op =? RSH then Ok (LShR e_dst e_src)
  else if op =? MOD then Ok (if signed then SRem e_dst e_src else URem e_dst e_src)
  else if op =? XOR then Ok (bvxor e_dst e_src)
  else if op =? ARSH then
    Ok (if width =? sz * 8 then bvashr e_dst e_src else LShR e_dst e_src)
  else Err (ExceptionErr "Unknown binary ALU op").

(** The tail of the [ALUbinary] case: operands to result. *)
Definition alu_binary_z3 (op offset sz : Z) (e_dst e_src : bv) : res bv :=
  let signed := (offset =? 1) && ((op =? DIV) || (op =? MOD)) in
  let e_src := if (op =? LSH) || (op =? RSH) || (op =? ARSH)
               then shift_amount sz e_src else e_src in
  let width := if sz =? 4 then 32
               else if signed then 64 else _alu64_width op e_dst e_src in
  binop_z3 op sz width signed (_resize e_dst width) (_resize e_src width).

(** The bytes of [low], least significant first: a byte swap. *)
Definition bswap_z3 (bits : Z) (low : bv) : res bv :=
  concat_or (map (λ k, Extract (8 * k + 7) (8 * k) low) (zrange 0 (bits / 8))).

Definition alu_unary_z3 (op imm sz : Z) (alu64 : bool) (opcode_s : option Z) (e_dst : bv)
    : res bv :=
  if op =? NEG then Ok (bvneg (_resize e_dst (if sz =? 4 then 32 else 64)))
  else if op =? MOV then
    let width := if sz =? 4 then 32 else 64 in
    Ok (SignExt (width - imm) (Extract (imm - 1) 0 (_resize e_dst 64)))
  else if op =? END then
    let bits := if existsb (Z.eqb imm) [16; 32; 64] then imm else 64 in
    let low := Extract (bits - 1) 0 (_resize e_dst 64) in
    if alu64 || bool_decide (opcode_s = Some S_REG) then bswap_z3 bits low else Ok low
  else Err (ExceptionErr "Unknown unary ALU op").

(** [contain_map_value(map_id, map_key, map_key_id, result).to_z3(st)]; [keyz]
    is the encoded key, computed where the source computes it. *)
Definition contain_z3 (st : Z3State) (map_id : option Z) (has_key : bool) (keyz : res bv)
    (key_id : option Z) (result : bool) : res bl :=
  match map_id with
  | None => Ok (BoolVal result)
  | Some i =>
      if (i <? 0) || negb has_key then Ok (BoolVal result)
      else if _is_array_map st map_id || _is_prog_map st map_id then
        key ← keyz;
        info ← of_option TypeError (_map_info st map_id);
        let in_bounds := ULT key (BitVecVal (mi_max_entries info) (size key)) in
        Ok (if result then in_bounds else Not in_bounds)
      else
        key ← keyz;
        present ← match read_present st with
                  | Some f => f map_id key (at_block st) key_id
                  | None => '(p, _) ← map_cell st map_id; Ok (PSelect p key)
                  end;
        Ok (beq present (BoolVal result))
  end.

(** ** Expressions *)

(** A computation with a memo of its own. *)
Definition fresh_memo {A} (c : ST memo A) : res A := fst <$> c ∅.

(** The result of a read hook, where one is installed and has an answer. *)
Definition hooked (h : option (val → res (option bv))) (e : val) (dflt : ST memo bv) : ST memo bv :=
  match h with
  | None => dflt
  | Some f => got ← lift (f e); match got with Some t => mret t | None => dflt end
  end.

(** The memo lookup of an ALU node, and its update. *)
Definition memoised (o : Z) (c : ST memo bv) : ST memo bv := λ mm,
  match mm !! o with
  | Some t => Ok (t, mm)
  | None => match c mm with
            | Ok (t, mm') => Ok (t, <[o := t]> mm')
            | Err e => Err e
            end
  end.

Definition base_of (off w : Z) (has_var : bool) (var : ST memo bv) : ST memo bv :=
  if has_var then v ← var; mret (bvadd (_resize v w) (BitVecVal off w))
  else mret (BitVecVal off w).

Fixpoint expr_to_z3 (st : Z3State) (expr : val) {struct expr} : ST memo bv :=
  let key_z3 (map_id : option Z) (key : ST memo bv) : ST memo bv :=
    k ← key; '(_, a) ← lift (map_cell st map_id); mret (_resize k (domain_size a)) in
  let contain (map_id : option Z) (has_key : bool) (key : ST memo bv) (key_id : option Z)
      : ST memo bl :=
    lift (contain_z3 st map_id has_key (fresh_memo (key_z3 map_id key)) key_id true) in
  match expr with
  | VNum _ n s _ => mret (BitVecVal n (s * 8))
  | VPktLen _ _ _ => mret (z_pkt_len st)
  | VPkt _ p =>
      hooked (read_pkt st) expr
        (let dom := domain_size (z_pkt st) in
         base ← base_of (pv_off p) dom (negb (is_none (pv_var_off p)))
                  (expr_to_z3 st (pv_var_off p));
         lift (select_bytes (z_pkt st) base dom (pv_size p)))
  | VMap _ m =>
      hooked (read_map st) expr
        ('(_, a) ← lift (map_cell st (mv_map_id m));
         key ← key_z3 (mv_map_id m) (expr_to_z3 st (mv_map_key m));
         let v := Select a key in
         if negb (is_none (mv_var_off m)) then
           base ← base_of (mv_off m) (size v) true (expr_to_z3 st (mv_var_off m));
           mret (_extract_bytes_var v base (mv_size m))
         else
           let lo := mv_off m * 8 in
           if size v <=? lo then mret (BitVecVal 0 (mv_size m * 8))
           else mret (_resize (Extract (Z.min (lo + mv_size m * 8) (size v) - 1) lo v)
                              (mv_size m * 8)))
  | VBss _ b =>
      hooked (read_bss st) expr
        (base ← base_of (bv_off b) BSS_ADDR_BITS (negb (is_none (bv_var_off b)))
                  (expr_to_z3 st (bv_var_off b));
         lift (select_bytes (_bss_of st (bv_key b)) base BSS_ADDR_BITS (bv_size b)))
  | VRodata _ r =>
      base ← base_of (rv_off r) RODATA_ADDR_BITS (negb (is_none (rv_var_off r)))
               (expr_to_z3 st (rv_var_off r));
      lift (select_bytes (_rodata_array (rv_data r)) base RODATA_ADDR_BITS (rv_size r))
  | VHit _ h =>
      hit ← contain (lh_map_id h) (negb (is_none (lh_map_key h)))
              (expr_to_z3 st (lh_map_key h)) (lh_map_key_id h);
      mret (IfBV hit (BitVecVal 1 8) (BitVecVal 0 8))
  | VFunc _ f =>
      let w := 8 * fr_size f in
      if fr_redirects f then
        hooked (read_fret st) expr
          (if bool_decide (fr_map_id f = None) then mret (BitVecVal (fr_fallback f) w)
           else
             ok ← contain (fr_map_id f) (negb (is_none (fr_map_key f)))
                    (expr_to_z3 st (fr_map_key f)) (fr_map_key_id f);
             mret (IfBV ok (BitVecVal 4 w) (BitVecVal (fr_fallback f) w)))
      else if existsb (Z.eqb (fr_func f)) [44; 54; 65] then
        mret (IfBV (Bool (adjust_name (fr_idx f))) (BitVecVal 0 w) (BitVecVal (- EINVAL) w))
      else mret (BitVec (func_name (fr_func f) (fr_idx f)) w)
  | VIngress _ => mret (z_ingress st)
  | VRxq _ => mret (z_rx_index st)
  | VEgress _ => mret (z_egress st)
  | VJoin _ j =>
      match read_phi st with
      | Some f => lift (f expr)
      | None => mret (BitVec (phi_name (j_block_idx j) (j_reg_num j)) 64)
      end
  | VByteSeq _ chunks s off =>
      cells ← (fix cells (l : list val) : ST memo (list bv) :=
                 match l with
                 | [] => mret []
                 | c :: l' =>
                     t ← (if is_none c then mret (BitVecVal 0 64)
                          else t ← expr_to_z3 st c; mret (_resize t 64));
                     ts ← cells l';
                     mret (t :: ts)
                 end) chunks;
      whole ← lift (concat_or (rev cells));
      let whole := if off =? 0 then whole
                   else LShR whole (BitVecVal (off * 8) (size whole)) in
      mret (_resize whole (s * 8))
  | VUn o u =>
      memoised o
        (e_dst ← expr_to_z3 st (u_dst u);
         lift (alu_unary_z3 (u_op u) (u_imm u) (u_size u) (u_alu64 u) (u_opcode_s u) e_dst))
  | VBin o b =>
      memoised o
        (e_dst ← expr_to_z3 st (b_dst b);
         e_src ← expr_to_z3 st (b_src b);
         lift (alu_binary_z3 (b_op b) (b_offset b) (b_size b) e_dst e_src))
  | VScalar _ s i => mret (BitVec (scalar_name i) (8 * s))
  | VNone | VPtr _ _ => raise (ExceptionErr "expr_to_z3: no encoding")
  end.

(** A call without [memo=]. *)
Definition expr_z3 (st : Z3State) (expr : val) : res bv := fresh_memo (expr_to_z3 st expr).

Definition _map_key_z3 (st : Z3State) (map_id : option Z) (map_key : val) : res bv :=
  key ← expr_z3 st map_key;
  '(_, a) ← map_cell st map_id;
  Ok (_resize key (domain_size a)).
End encode.
