(* ===== verification/Action.v ===== *)
(** Branch conditions and actions: the classes of [track/encode.py] with a
    [to_z3] method. *)

From S2P Require Import Prelude Constants Instr Smt Expr Record Link Encode.

(** ** Data *)

(** The [Condition] class and its subclasses. *)
Inductive condition :=
| CCond (code : Z) (dst src : val) (jmp32 : bool)
| CAdjust (result : bool) (idx : Z)
| CContain (map_id : option Z) (map_key : val) (map_key_id : option Z) (result : bool)
| CTail (map_id : option Z) (index : val) (slot : option Z) (target : string) (idx : Z)
        (map_name : option string).

(** The [Action] subclasses with their own fields; [Goto], which nothing
    constructs and whose [to_z3] returns a table number, is left out. *)
Inductive action_kind :=
| Return (ret_code : val)
| PktWrite (id off : Z) (var_off : val) (size : Z) (value : val)
| MapWrite (map_id : option Z) (map_key : val) (off size : Z) (value var_off : val)
| MapAtomicAdd (map_id : option Z) (map_key : val) (off size : Z) (value var_off old : val)
| MapLookup (map_id : option Z) (map_key : val) (map_key_id : Z)
| MapUpdate (map_id : option Z) (map_key value : val) (flags : option Z) (off size : Z)
| MapDelete (map_id : option Z) (map_key : val)
| BssWrite (bss_key : option string) (off size : Z) (value var_off : val)
| BssAtomicAdd (bss_key : option string) (off size : Z) (value var_off old : val)
| AdjustHead (delta : Z) (retval : val)
| AdjustTail (delta : Z) (retval : val)
| AdjustMeta (delta : Z) (retval : val)
| XdpBuffLen (retval : val)
| CtxWrite (value : val)
| TailCall (map_id : option Z) (index : val) (slot : option Z) (target : string)
           (map_name : option string)
| perf_event_output.

(** An action with the block and instruction [emit] stamps on it. *)
Record action := mk_action { a_block : Z; a_idx : Z; a_kind : action_kind }.

(** ** The attributes [may_alias] reads *)

Definition action_loc (a : action) : mloc :=
  match a_kind a with
  | PktWrite _ off var_off sz _ => mk_loc (Some PKT) off var_off sz None VNone None
  | MapWrite m k off sz _ var_off | MapAtomicAdd m k off sz _ var_off _ =>
      mk_loc (Some MAP) off var_off sz m k None
  | MapUpdate m k _ _ off sz => mk_loc (Some MAP) off VNone sz m k None
  | BssWrite key off sz _ var_off | BssAtomicAdd key off sz _ var_off _ =>
      mk_loc (Some BSS) off var_off sz None VNone key
  | CtxWrite _ => mk_loc (Some CTX) 16 VNone 4 None VNone None
  | MapLookup m k _ | MapDelete m k => mk_loc None 0 VNone 0 m k None
  | TailCall m i _ _ _ => mk_loc None 0 VNone 0 m i None
  | _ => mk_loc None 0 VNone 0 None VNone None
  end.

(** The class attribute [presence]. *)
Definition presence (a : action) : option bool :=
  match a_kind a with
  | MapUpdate _ _ _ _ _ _ => Some true
  | MapDelete _ _ => Some false
  | _ => None
  end.

(** [getattr(a, 'ret', None)]. *)
Definition action_ret (a : action) : option string :=
  match a_kind a with
  | MapLookup _ _ _ => Some "map_ptr"%string
  | AdjustHead _ _ | AdjustTail _ _ | AdjustMeta _ _ | XdpBuffLen _ => Some "scalar"%string
  | TailCall _ _ _ _ _ => Some "transfer"%string
  | _ => None
  end.

(** [isinstance(a, AdjustHead)], a class [AdjustTail] inherits from, and its
    [len_delta]. *)
Definition len_delta (a : action) : option Z :=
  match a_kind a with
  | AdjustHead d _ => Some d
  | AdjustTail d _ => Some (- d)
  | _ => None
  end.

(** ** Conditions *)

Section conditions.
Context `{SMT}.

(** [_ptr_is_null]: a packet pointer never is. *)
Definition _ptr_is_null (p : ptr_ val) : option bool :=
  if p_type p =? PTR_TO_PKT then Some false else p_checked_null p.

Definition _SIGNED : list Z := [JSGT; JSGE; JSLT; JSLE].

(** The constant answer of an equality test of a pointer of known nullity
    with the constant 0. *)
Definition null_test (code : Z) (dst src : val) : option bool :=
  if (code =? JEQ) || (code =? JNE) then
    '(p, other) ← match dst, src with
                  | VPtr _ p, _ => Some (p, src)
                  | _, VPtr _ p => Some (p, dst)
                  | _, _ => None
                  end;
    if bool_decide (_const other = Some 0) then
      is_null ← _ptr_is_null p;
      Some (if code =? JEQ then is_null else negb is_null)
    else None
  else None.

(** Zero extension to [width], where narrower. *)
Definition widen (t : bv) (width : Z) : bv :=
  if size t <? width then Concat [BitVecVal 0 (width - size t); t] else t.

Definition compare_z3 (code : Z) (dst src : bv) : res bl :=
  if code =? JEQ then Ok (bveq dst src)
  else if code =? JNE then Ok (bvne dst src)
  else if code =? JGT then Ok (UGT dst src)
  else if code =? JGE then Ok (UGE dst src)
  else if code =? JLT then Ok (ULT dst src)
  else if code =? JLE then Ok (ULE dst src)
  else if code =? JSGT then Ok (bvsgt dst src)
  else if code =? JSGE then Ok (bvsge dst src)
  else if code =? JSLT then Ok (bvslt dst src)
  else if code =? JSLE then Ok (bvsle dst src)
  else if code =? JSET then Ok (bvne (bvand dst src) (BitVecVal 0 (size dst)))
  else Err (ExceptionErr "Unknown branch code").

(** The comparison of the encoded operands. *)
Definition cmp_z3 (code : Z) (jmp32 : bool) (dst src : bv) : res bl :=
  let dst := if jmp32 then _resize dst 32 else dst in
  let src := if jmp32 then _resize src 32 else src in
  let width := if jmp32 then 32
               else let w := Z.max (size dst) (size src) in
                    if existsb (Z.eqb code) _SIGNED then Z.max w 64 else w in
  compare_z3 code (widen dst width) (widen src width).

Definition cond_to_z3 (st : Z3State) (c : condition) : res guard :=
  match c with
  | CCond code dst src jmp32 =>
      match null_test code dst src with
      | Some b => Ok (GTm (BoolVal b))
      | None =>
          s ← expr_z3 st src;
          d ← expr_z3 st dst;
          t ← cmp_z3 code jmp32 d s;
          Ok (GTm t)
      end
  | CAdjust result idx =>
      if idx <? 0 then Ok (GPy result)
      else let ok := Bool (adjust_name idx) in
           Ok (GTm (if result then ok else Not ok))
  | CContain map_id map_key key_id result =>
      t ← contain_z3 st map_id (negb (is_none map_key)) (_map_key_z3 st map_id map_key)
            key_id result;
      Ok (GTm t)
  | CTail _ index slot _ idx _ =>
      match slot with
      | Some s =>
          if is_none index then Ok (GTm (Bool (tail_name idx)))
          else key ← expr_z3 st index; Ok (GTm (bveq key (BitVecVal s (size key))))
      | None => Ok (GTm (Bool (tail_name idx)))
      end
  end.

(** ** Actions *)

Definition update_applies (flags : option Z) (idx : Z) (present : bl) : guard :=
  match flags with
  | None => GTm (Bool (update_name idx))
  | Some f =>
      let mode := Z.land f 3 in
      if mode =? BPF_ANY then GPy true
      else if mode =? BPF_NOEXIST then _not (GTm present)
      else if mode =? BPF_EXIST then GTm present
      else GPy false
  end.

(** An action on a map without a number leaves the state unchanged. *)
Definition on_map (map_id : option Z) (st : Z3State) (f : Z → res Z3State) : res Z3State :=
  match map_id with
  | None => Ok st
  | Some i => if i <? 0 then Ok st else f i
  end.

(** [base] of a write: [BitVecVal(off, w)], plus the variable offset. *)
Definition write_base (st : Z3State) (off w : Z) (var_off : val) : res bv :=
  if is_none var_off then Ok (BitVecVal off w)
  else v ← expr_z3 st var_off; Ok (bvadd (_resize v w) (BitVecVal off w)).

Definition pkt_write_z3 (st : Z3State) (off : Z) (var_off : val) (sz : Z) (value : val)
    : res Z3State :=
  let dom := domain_size (z_pkt st) in
  base ← write_base st off dom var_off;
  v ← expr_z3 st value;
  Ok (set_pkt (store_bytes (z_pkt st) base dom sz (_resize v (sz * 8))) st).

Definition map_write_z3 (st : Z3State) (i : Z) (map_key : val) (off sz : Z) (value var_off : val)
    : res Z3State :=
  key ← _map_key_z3 st (Some i) map_key;
  '(_, a) ← py_index (z_map st) i;
  let cur := Select a key in
  v ← expr_z3 st value;
  new_val ← (if negb (is_none var_off) then
               base ← write_base st off (size cur) var_off;
               Ok (_splice_bytes_var cur base sz v)
             else _splice_bytes cur off sz v);
  _map_store st i key new_val false.

Definition map_atomic_z3 (st : Z3State) (i : Z) (map_key : val) (off sz : Z)
    (value var_off : val) : res Z3State :=
  key ← _map_key_z3 st (Some i) map_key;
  '(_, a) ← py_index (z_map st) i;
  let cur := Select a key in
  new_val ← (if negb (is_none var_off) then
               base ← write_base st off (size cur) var_off;
               let field := _extract_bytes_var cur base sz in
               v ← expr_z3 st value;
               Ok (_splice_bytes_var cur base sz (bvadd field (_resize v (size field))))
             else
               let lo := off * 8 in
               let hi := Z.min ((off + sz) * 8) (size cur) in
               let field := Extract (hi - 1) lo cur in
               v ← expr_z3 st value;
               _splice_bytes cur off sz (bvadd field (_resize v (size field))));
  _map_store st i key new_val false.

Definition map_update_z3 (st : Z3State) (idx i : Z) (map_key value : val) (flags : option Z)
    : res Z3State :=
  key ← _map_key_z3 st (Some i) map_key;
  v ← expr_z3 st value;
  '(p, a) ← py_index (z_map st) i;
  let v := _resize v (range_size a) in
  let bounded := _is_array_map st (Some i) || _is_prog_map st (Some i) in
  present ← match _map_info st (Some i) with
            | Some info =>
                if bounded then Ok (ULT key (BitVecVal (mi_max_entries info) (size key)))
                else Ok (PSelect p key)
            | None => Ok (PSelect p key)
            end;
  match update_applies flags idx present with
  | GPy false => Ok st
  | GPy true => _map_store st i key v true
  | GTm ok =>
      let a' := Store a key (IfBV ok v (Select a key)) in
      let p' := if _is_hash_map st (Some i) then PStore p key (Or [ok; present]) else p in
      m ← py_setitem (z_map st) i (p', a');
      Ok (set_map m st)
  end.

Definition map_delete_z3 (st : Z3State) (i : Z) (map_key : val) : res Z3State :=
  if negb (_is_hash_map st (Some i)) then Ok st
  else
    key ← _map_key_z3 st (Some i) map_key;
    '(p, a) ← py_index (z_map st) i;
    m ← py_setitem (z_map st) i (PStore p key (BoolVal false), a);
    Ok (set_map m st).

Definition bss_write_z3 (st : Z3State) (bss_key : option string) (off sz : Z)
    (value var_off : val) : res Z3State :=
  match bss_key with
  | None => Ok st
  | Some _ =>
      base ← write_base st off BSS_ADDR_BITS var_off;
      let n := Z.max sz 1 in
      v ← expr_z3 st value;
      let arr := store_bytes (_bss_of st bss_key) base BSS_ADDR_BITS n (_resize v (n * 8)) in
      Ok (set_bss (pset (z_bss st) bss_key arr) st)
  end.

(** The value an atomic add to a global stores: the old contents, read at no
    block, plus the operand. The two nodes are new objects: [oid] 0 and -1 are
    never allocated. *)
Definition bss_atomic_value (bss_key : option string) (off sz : Z) (value var_off : val) : val :=
  let n := Z.max sz 1 in
  VBin (-1) (mk_binary ADD (VBss 0 (mk_bss (-1) (-1) bss_key off var_off n)) value 0 n (-1)).

Definition adjust_len_z3 (st : Z3State) (idx d : Z) : Z3State :=
  let shifted := bvsub (z_pkt_len st) (BitVecVal d (size (z_pkt_len st))) in
  if idx <? 0 then set_pkt_len shifted st
  else set_pkt_len (IfBV (Bool (adjust_name idx)) shifted (z_pkt_len st)) st.

(** A value zero-extended to 64 bits, where narrower. *)
Definition widen64 (t : bv) : bv := widen t 64.

Definition action_to_z3 (st : Z3State) (a : action) : res Z3State :=
  match a_kind a with
  | Return r => t ← expr_z3 st r; Ok (set_r0 (widen64 t) st)
  | PktWrite _ off var_off sz value => pkt_write_z3 st off var_off sz value
  | MapWrite m k off sz value var_off =>
      on_map m st (λ i, map_write_z3 st i k off sz value var_off)
  | MapAtomicAdd m k off sz value var_off _ =>
      on_map m st (λ i, map_atomic_z3 st i k off sz value var_off)
  | MapUpdate m k value flags _ _ =>
      on_map m st (λ i, map_update_z3 st (a_idx a) i k value flags)
  | MapDelete m k => on_map m st (λ i, map_delete_z3 st i k)
  | BssWrite key off sz value var_off => bss_write_z3 st key off sz value var_off
  | BssAtomicAdd key off sz value var_off _ =>
      bss_write_z3 st key off sz (bss_atomic_value key off sz value var_off) var_off
  | AdjustHead d _ => Ok (adjust_len_z3 st (a_idx a) d)
  | AdjustTail d _ => Ok (adjust_len_z3 st (a_idx a) (- d))
  | CtxWrite value => t ← expr_z3 st value; Ok (set_rx_index (widen64 t) st)
  | MapLookup _ _ _ | AdjustMeta _ _ | XdpBuffLen _ | TailCall _ _ _ _ _ | perf_event_output =>
      Ok st
  end.

(** [_make_init_state(maps)], with the class attribute [map_meta] set to the
    same list of maps, as [ForwardContext] sets it first. *)
Definition _make_init_state (maps : list map_info) : Z3State :=
  mk_state maps None None None None None None None None
    (Array "pkt0" PKT_ADDR_BITS 8)
    (map (λ m, let kw := Z.max (mi_key_size m) 1 * 8 in
               let vw := Z.max (mi_value_size m) 1 * 8 in
               (PArray ("present" +:+ pretty (mi_id m)) kw,
                Array ("value" +:+ pretty (mi_id m)) kw vw)) maps)
    (BitVec "r0" 64) (BitVec "rx_queue_index0" 64) (BitVec "ingress_ifindex" 64)
    (BitVec "egress_ifindex" 64) (BitVec "pkt_len" 64) [].
End conditions.
