(* ===== verification/Bits.v ===== *)
(** The meaning of the encoder's bit-vector helpers and of its ALU cases. *)

From S2P Require Import Prelude Constants Smt Expr Denote Branch Link Encode Action.

Section bits.
Context `{HL : SMTLaws}.
Implicit Types (m : model) (t : bv).

Lemma ev_nonneg m t : 0 <= ev m t.
Proof. apply ev_range. Qed.

Lemma ev_wrap m t : wrap (size t) (ev m t) = ev m t.
Proof. apply wrap_small, ev_range. Qed.

(** ** Concatenation and extension *)

Lemma concat_pair_size a b : size (Concat [a; b]) = size a + size b.
Proof. rewrite size_Concat by (simpl; lia). simpl. lia. Qed.
Lemma concat_pair_ev m a b : ev m (Concat [a; b]) = ev m a * 2 ^ size b + ev m b.
Proof. rewrite ev_Concat by (simpl; lia). simpl. rewrite Z.add_0_r. lia. Qed.

Lemma zext_size n t : 0 < n → size (Concat [BitVecVal 0 n; t]) = n + size t.
Proof. intros. by rewrite concat_pair_size, size_BitVecVal. Qed.
Lemma zext_ev m n t : 0 < n → ev m (Concat [BitVecVal 0 n; t]) = ev m t.
Proof. intros. by rewrite concat_pair_ev, ev_BitVecVal. Qed.

Lemma resize_size t bits : 0 < bits → size (_resize t bits) = bits.
Proof.
  intros Hb. unfold _resize. pose proof (size_pos t).
  destruct (Z.eqb_spec (size t) bits); [done|]. destruct (Z.ltb_spec bits (size t)).
  - rewrite size_Extract; lia.
  - rewrite zext_size; lia.
Qed.

Lemma resize_ev m t bits : 0 < bits → ev m (_resize t bits) = wrap bits (ev m t).
Proof.
  intros Hb. unfold _resize. pose proof (size_pos t). pose proof (ev_range m t).
  destruct (Z.eqb_spec (size t) bits) as [<- | ]; [by rewrite ev_wrap|].
  destruct (Z.ltb_spec bits (size t)).
  - rewrite ev_Extract, Z.div_1_r by lia. by replace (bits - 1 - 0 + 1) with bits by lia.
  - rewrite zext_ev by lia. symmetry. apply wrap_small.
    pose proof (Z.pow_lt_mono_r 2 (size t) bits). lia.
Qed.

Lemma resize_small m t bits : 0 < bits → ev m t < 2 ^ bits → ev m (_resize t bits) = ev m t.
Proof. intros. rewrite resize_ev by done. apply wrap_small. pose proof (ev_nonneg m t). lia. Qed.

Lemma widen_size t w : size (widen t w) = Z.max (size t) w.
Proof.
  unfold widen. destruct (Z.ltb_spec (size t) w); [|lia]. rewrite zext_size; lia.
Qed.
Lemma widen_ev m t w : ev m (widen t w) = ev m t.
Proof. unfold widen. destruct (Z.ltb_spec (size t) w); [|done]. apply zext_ev; lia. Qed.

Lemma extract_size hi lo t w : 0 <= lo → 0 < w → lo + w <= size t → hi = lo + w - 1 →
  size (Extract hi lo t) = w.
Proof. intros ???->. rewrite size_Extract; lia. Qed.
Lemma extract_ev m hi lo t w : 0 <= lo → 0 < w → lo + w <= size t → hi = lo + w - 1 →
  ev m (Extract hi lo t) = wrap w (ev m t / 2 ^ lo).
Proof. intros ???->. rewrite ev_Extract by lia. f_equal. lia. Qed.

(** ** Little-endian digits *)

Fixpoint digits (k : Z) (vs : list Z) : Z :=
  match vs with [] => 0 | v :: vs' => v + 2 ^ k * digits k vs' end.

Lemma digits_range k vs : 0 <= k → Forall (λ v, 0 <= v < 2 ^ k) vs →
  0 <= digits k vs < 2 ^ (k * Z.of_nat (length vs)).
Proof.
  intros Hk. induction 1 as [|v vs Hv Hvs IH]; simpl digits.
  { rewrite Z.mul_0_r. simpl. lia. }
  simpl length. replace (k * Z.of_nat (S (length vs))) with (k + k * Z.of_nat (length vs)) by lia.
  rewrite Z.pow_add_r by lia. pose proof (pow2_pos k Hk). nia.
Qed.

Lemma concat_val_app k l1 l2 : 0 <= k → Forall (λ x, x.1 = k) l1 → Forall (λ x, x.1 = k) l2 →
  concat_val (l1 ++ l2) =
    ((concat_val l1).1 + (concat_val l2).1,
     (concat_val l1).2 * 2 ^ (concat_val l2).1 + (concat_val l2).2) ∧
  (concat_val l2).1 = k * Z.of_nat (length l2).
Proof.
  intros Hk H1 H2.
  assert (∀ l, Forall (λ x, x.1 = k) l → (concat_val l).1 = k * Z.of_nat (length l)) as Hlen.
  { induction 1 as [|[a b] l Ha Hl IH]; simpl; [lia|]. destruct (concat_val l). simpl in *. lia. }
  split; [|by apply Hlen].
  induction H1 as [|[a b] l1 Ha Hl IH]; simpl.
  - by destruct (concat_val l2).
  - rewrite IH. destruct (concat_val l1) as [x y] eqn:E1.
    destruct (concat_val l2) as [x' y'] eqn:E2. simpl.
    pose proof (Hlen l1 Hl) as Hx. pose proof (Hlen l2 H2) as Hx'.
    rewrite E1 in Hx. rewrite E2 in Hx'. simpl in Hx, Hx'.
    rewrite Z.pow_add_r by lia. f_equal; lia.
Qed.

Lemma concat_rev_digits k (f : bv → Z * Z) ts : 0 <= k → Forall (λ t, (f t).1 = k) ts →
  concat_val (map f (rev ts)) = (k * Z.of_nat (length ts), digits k (map (λ t, (f t).2) ts)).
Proof.
  intros Hk. induction 1 as [|t ts Ht Hts IH]; simpl; [f_equal; lia|].
  rewrite map_app.
  destruct (concat_val_app k (map f (rev ts)) (map f [t])) as [-> H1]; [done| | |].
  - apply Forall_map, Forall_rev. done.
  - by repeat constructor.
  - simpl in *. rewrite IH. destruct (f t) as [a b]. simpl in *. subst a.
    rewrite Z.add_0_r. f_equal; lia.
Qed.

Lemma concat_or_cases ts t : concat_or (rev ts) = Ok t →
  ts = [t] ∨ (2 <= length (rev ts))%nat ∧ t = Concat (rev ts).
Proof.
  intros HC. destruct ts as [|x [|y ts]]; [done|left; by injection HC as <-|right].
  split; [rewrite length_rev; simpl; lia|].
  destruct (rev (x :: y :: ts)) as [|a [|b l]] eqn:E; try (simpl in HC; congruence);
    apply (f_equal length) in E; rewrite length_rev in E; simpl in E; lia.
Qed.

Lemma concat_or_size k ts t : 0 < k → Forall (λ t, size t = k) ts →
  concat_or (rev ts) = Ok t → size t = k * Z.of_nat (length ts).
Proof.
  intros Hk Hts [-> | [Hl ->]]%concat_or_cases.
  - inversion Hts; subst. simpl. lia.
  - rewrite size_Concat by done.
    by rewrite (concat_rev_digits k (λ t, (size t, 0))) by (lia || done).
Qed.

Lemma concat_or_digits m k ts t : 0 < k → Forall (λ t, size t = k) ts →
  concat_or (rev ts) = Ok t →
  ev m t = digits k (map (ev m) ts) ∧ size t = k * Z.of_nat (length ts).
Proof.
  intros Hk Hts HC. split; [|by apply concat_or_size].
  destruct (concat_or_cases _ _ HC) as [-> | [Hl ->]]; [simpl; lia|].
  rewrite ev_Concat by done.
  by rewrite (concat_rev_digits k (λ t, (size t, ev m t))) by (lia || done).
Qed.

Lemma digits_8 vs : digits 8 vs = le_int vs.
Proof. induction vs as [|v vs IH]; simpl; [done|]. by rewrite IH. Qed.

Lemma digits_64 vs : digits 64 (map (wrap 64) vs) = cells_val vs.
Proof. induction vs as [|v vs IH]; simpl; [done|]. by rewrite IH. Qed.
End bits.

(** ** Bytes of an array *)

(** The [n] bytes from [base], little-endian, in a [w]-bit address space. *)
Definition read_le (f : Z → Z) (w base n : Z) : Z :=
  le_int (map (λ i, f (wrap w (base + i))) (zrange 0 n)).

Section arrays.
Context `{HL : SMTLaws}.
Implicit Types (m : model) (t : bv).

Lemma bvadd_const_ev m t i w : size t = w →
  ev m (bvadd t (BitVecVal i w)) = wrap w (ev m t + i).
Proof.
  intros Hs. pose proof (size_pos t). subst w.
  rewrite ev_bvadd by (symmetry; by apply size_BitVecVal).
  rewrite ev_BitVecVal by done. rewrite <- (wrap_add (size t) (ev m t) i) by lia.
  by rewrite ev_wrap.
Qed.
Lemma bvadd_const_size t i w : size t = w → size (bvadd t (BitVecVal i w)) = w.
Proof.
  intros Hs. pose proof (size_pos t). subst w.
  by rewrite size_bvadd by (symmetry; by apply size_BitVecVal).
Qed.

Lemma base_ev m t off w : 0 < w →
  ev m (bvadd (_resize t w) (BitVecVal off w)) = wrap w (ev m t + off).
Proof.
  intros Hw. rewrite bvadd_const_ev by (by apply resize_size).
  rewrite resize_ev by done. rewrite <- (wrap_add w (wrap w (ev m t)) off) by lia.
  rewrite wrap_wrap by lia. apply wrap_add. lia.
Qed.
Lemma base_size t off w : 0 < w → size (bvadd (_resize t w) (BitVecVal off w)) = w.
Proof. intros. apply bvadd_const_size. by apply resize_size. Qed.

Lemma zrange_nil a b : b <= a → zrange a b = [].
Proof. intros. unfold zrange. by rewrite seqZ_nil by lia. Qed.
Lemma zrange_length a b : Z.of_nat (length (zrange a b)) = Z.max 0 (b - a).
Proof. unfold zrange. rewrite length_seqZ. lia. Qed.

Lemma select_bytes_sound m arr base w n t :
  domain_size arr = w → range_size arr = 8 → size base = w →
  select_bytes arr base w n = Ok t →
  ev m t = read_le (eva m arr) w (ev m base) n ∧ size t = 8 * n ∧ 0 < n.
Proof.
  intros Hd Hr Hb HS. unfold select_bytes in HS.
  assert (0 < n) as Hn.
  { destruct (Z.leb_spec n 0); [|lia]. by rewrite zrange_nil in HS by lia. }
  eapply (concat_or_digits m 8) in HS as [He Hs]; [|lia|].
  - rewrite He, Hs, digits_8, length_map, zrange_length. split; [|lia].
    unfold read_le. rewrite map_map. f_equal. apply map_ext. intros i.
    rewrite ev_Select by (by rewrite bvadd_const_size).
    by rewrite bvadd_const_ev.
  - apply Forall_map, Forall_true. intros i. simpl.
    by rewrite size_Select by (by rewrite bvadd_const_size).
Qed.

Lemma store_bytes_dims arr base w n v :
  domain_size (store_bytes arr base w n v) = domain_size arr ∧
  range_size (store_bytes arr base w n v) = range_size arr.
Proof.
  unfold store_bytes. apply (fold_left_ind _ (λ _ a, domain_size a = domain_size arr
    ∧ range_size a = range_size arr)); [done|].
  intros pre i a _ [H1 H2]. by rewrite domain_Store, range_Store.
Qed.

(** Storing the [n] bytes of [v] changes exactly the [n] addresses from [base]. *)
Lemma store_bytes_eva m arr base w n v a :
  domain_size arr = w → range_size arr = 8 → size base = w →
  0 < n <= 2 ^ w → size v = 8 * n → 0 <= a < 2 ^ w →
  eva m (store_bytes arr base w n v) a =
    let i := wrap w (a - ev m base) in
    if i <? n then wrap 8 (ev m v / 2 ^ (8 * i)) else eva m arr a.
Proof.
  intros Hd Hr Hb Hn Hv Ha. pose proof (domain_pos arr) as Hw. rewrite Hd in Hw.
  assert (∀ k, 0 <= k <= n →
    domain_size (store_bytes arr base w k v) = w ∧ range_size (store_bytes arr base w k v) = 8 ∧
    eva m (store_bytes arr base w k v) a =
      let i := wrap w (a - ev m base) in
      if i <? k then wrap 8 (ev m v / 2 ^ (8 * i)) else eva m arr a) as H.
  2: { by destruct (H n ltac:(lia)) as (_ & _ & ?). }
  intros k Hk. destruct (store_bytes_dims arr base w k v) as [H1 H2].
  split_and!; [congruence..|]. clear H1 H2. destruct Hk as [Hk0 Hk]. revert k Hk0 Hk.
  apply (natlike_ind (λ k, k <= n → eva m (store_bytes arr base w k v) a =
      let i := wrap w (a - ev m base) in
      if i <? k then wrap 8 (ev m v / 2 ^ (8 * i)) else eva m arr a)).
  - intros _. cbv zeta. pose proof (wrap_range w (a - ev m base) ltac:(lia)).
    destruct (Z.ltb_spec (wrap w (a - ev m base)) 0); [lia|done].
  - intros k Hk0 IH Hk. specialize (IH ltac:(lia)).
    assert (store_bytes arr base w (Z.succ k) v =
            Store (store_bytes arr base w k v) (bvadd base (BitVecVal k w))
                  (Extract ((k + 1) * 8 - 1) (k * 8) v)) as ->.
    { unfold store_bytes, zrange. rewrite !Z.sub_0_r, <- Z.add_1_r.
      rewrite seqZ_app by lia. rewrite fold_left_app. simpl.
      rewrite Z.add_0_l. unfold seqZ at 1. simpl. by rewrite Z.add_0_l. }
    destruct (store_bytes_dims arr base w k v) as [H1 H2].
    rewrite eva_Store.
    2: { rewrite bvadd_const_size, H1; congruence. }
    2: { rewrite H2, Hr. apply extract_size; lia. }
    rewrite IH, bvadd_const_ev by done. cbv zeta.
    rewrite (extract_ev m _ _ v 8) by lia. rewrite (Z.mul_comm k 8).
    pose proof (wrap_range w (a - ev m base) ltac:(lia)) as Hi.
    destruct (Z.eqb_spec a (wrap w (ev m base + k))) as [-> | Hne].
    + assert (wrap w (wrap w (ev m base + k) - ev m base) = k) as ->.
      { rewrite <- wrap_sub, wrap_wrap, wrap_sub by lia.
        replace (ev m base + k - ev m base) with k by lia. apply wrap_small. lia. }
      destruct (Z.ltb_spec k (Z.succ k)); [done|lia].
    + assert (wrap w (a - ev m base) ≠ k) as Hk'.
      { intros Heq. apply Hne. rewrite <- Heq.
        rewrite <- wrap_add, wrap_wrap, wrap_add by lia.
        replace (ev m base + (a - ev m base)) with a by lia. symmetry. by apply wrap_small. }
      destruct (Z.ltb_spec (wrap w (a - ev m base)) k),
               (Z.ltb_spec (wrap w (a - ev m base)) (Z.succ k)); try done; lia.
Qed.

(** The bytes of a constant section. *)
Lemma rodata_eva m data i : Forall is_byte data → Z.of_nat (length data) <= 2 ^ 32 →
  0 <= i < 2 ^ 32 →
  domain_size (_rodata_array data) = 32 ∧ range_size (_rodata_array data) = 8 ∧
  eva m (_rodata_array data) i = nth (Z.to_nat i) data 0.
Proof.
  intros Hb Hl Hi. unfold _rodata_array, RODATA_ADDR_BITS.
  pose (P (pre : list (nat * Z)) (a : barr) := domain_size a = 32 ∧ range_size a = 8 ∧
    eva m a i = if (Z.to_nat i <? length pre)%nat then nth (Z.to_nat i) data 0 else 0).
  assert (P (imap pair data) (fold_left (λ arr '(i, byte),
      if byte =? 0 then arr else Store arr (BitVecVal (Z.of_nat i) 32) (BitVecVal byte 8))
      (imap pair data) (K 32 (BitVecVal 0 8)))) as H.
  - apply fold_left_ind; unfold P.
    { rewrite domain_K, range_K, eva_K, size_BitVecVal, ev_BitVecVal by lia. done. }
    intros pre [k byte] a [suf Hpre] (H1 & H2 & H3).
    assert (k = length pre ∧ data !! length pre = Some byte) as [-> Hk].
    { assert (imap pair data !! length pre = Some (k, byte)) as Hlk.
      { rewrite Hpre, <- app_assoc. simpl. by apply list_lookup_middle. }
      rewrite list_lookup_imap in Hlk. destruct (data !! length pre); simpl in Hlk; [|done].
      by simplify_eq. }
    pose proof (lookup_lt_Some _ _ _ Hk) as Hlt.
    apply nth_lookup_Some with (d := 0) in Hk as Hnth.
    rewrite length_app. simpl length.
    destruct (Z.eqb_spec byte 0) as [Hz | Hnz].
    + split_and!; [done..|]. rewrite H3.
      destruct (Nat.ltb_spec (Z.to_nat i) (length pre)),
               (Nat.ltb_spec (Z.to_nat i) (length pre + 1)); try lia; try done.
      replace (Z.to_nat i) with (length pre) by lia. congruence.
    + rewrite domain_Store, range_Store, eva_Store
        by (rewrite size_BitVecVal by lia; congruence).
      split_and!; [done..|]. rewrite ev_BitVecVal, wrap_small by lia.
      rewrite ev_BitVecVal, wrap_small by
        (try lia; rewrite Forall_lookup in Hb; by apply (Hb (length pre))).
      destruct (Z.eqb_spec i (Z.of_nat (length pre))).
      * destruct (Nat.ltb_spec (Z.to_nat i) (length pre + 1)); [|lia].
        replace (Z.to_nat i) with (length pre) by lia. congruence.
      * rewrite H3. destruct (Nat.ltb_spec (Z.to_nat i) (length pre)),
               (Nat.ltb_spec (Z.to_nat i) (length pre + 1)); try lia; done.
  - destruct H as (H1 & H2 & H3). split_and!; [done..|]. rewrite H3, length_imap.
    destruct (Nat.ltb_spec (Z.to_nat i) (length data)); [done|].
    by rewrite nth_overflow.
Qed.
End arrays.
