(* ===== verification/Alu.v ===== *)
(** The encoder's ALU cases against the instruction set: [alu_binary_z3] (with
    the width narrowing of [_alu64_width]), [alu_unary_z3] and the comparisons
    of [Condition.to_z3]. *)

From S2P Require Import Prelude Constants Smt SmtTerm Expr Denote Branch Link Encode Action Bits.

Definition is_shift (op : Z) : bool := (op =? LSH) || (op =? RSH) || (op =? ARSH).

Ltac op_cases op := first
  [ destruct (Z.eqb_spec op ADD) as [-> | ]; [|
    destruct (Z.eqb_spec op SUB) as [-> | ]; [|
    destruct (Z.eqb_spec op MUL) as [-> | ]; [|
    destruct (Z.eqb_spec op DIV) as [-> | ]; [|
    destruct (Z.eqb_spec op OR) as [-> | ]; [|
    destruct (Z.eqb_spec op AND) as [-> | ]; [|
    destruct (Z.eqb_spec op LSH) as [-> | ]; [|
    destruct (Z.eqb_spec op RSH) as [-> | ]; [|
    destruct (Z.eqb_spec op MOD) as [-> | ]; [|
    destruct (Z.eqb_spec op XOR) as [-> | ]; [|
    destruct (Z.eqb_spec op ARSH) as [-> | ]; [|discriminate]]]]]]]]]]] ].

Section alu.
Context `{HL : SMTLaws}.
Implicit Types (m : model) (t : bv).

(** ** Widths *)

Lemma bit_length_bound n : 0 <= n → n < 2 ^ Z.max (bit_length n) 1.
Proof.
  intros Hn. unfold bit_length. destruct (Z.eqb_spec n 0) as [-> | ]; [done|].
  pose proof (Z.log2_nonneg n). rewrite Z.max_l by lia.
  apply Z.log2_lt_pow2; lia.
Qed.

Lemma bits_used_bound m t : 0 < _bits_used t ∧ ev m t < 2 ^ _bits_used t.
Proof.
  unfold _bits_used. destruct (is_bv_value t) eqn:E.
  - split; [lia|]. rewrite (is_bv_value_ev m) by done. apply bit_length_bound.
    rewrite <- (is_bv_value_ev m) by done. apply ev_nonneg.
  - split; [apply size_pos|apply ev_range].
Qed.

Lemma ceil8 b : b <= - (- b / 8) * 8.
Proof. pose proof (Z.div_mod (- b) 8). pose proof (Z.mod_pos_bound (- b) 8). lia. Qed.

Lemma alu64_width_range op d s : 8 <= _alu64_width op d s <= 64.
Proof. unfold _alu64_width. lia. Qed.

(** The bits the operation asks for fit the chosen width, unless it is 64. *)
Definition need_bits (op : Z) (d s : bv) : Z :=
  if op =? ADD then Z.max (_bits_used d) (_bits_used s) + 1
  else if op =? MUL then _bits_used d + _bits_used s
  else if (op =? LSH) && is_bv_value s then _bits_used d + as_long s
  else if (op =? SUB) || (op =? LSH) then 64
  else Z.max (size d) (size s).

Lemma alu64_width_need op d s : _alu64_width op d s = 64 ∨ need_bits op d s <= _alu64_width op d s.
Proof. unfold _alu64_width. fold (need_bits op d s). pose proof (ceil8 (need_bits op d s)). lia. Qed.

(** ** Shift amounts *)

Lemma reg_bits_pow sz : reg_bits sz = 2 ^ (if sz =? 4 then 5 else 6).
Proof. unfold reg_bits. by destruct (_ =? _). Qed.

Lemma shift_amount_sound m sz t :
  ev m (shift_amount sz t) = ev m t mod reg_bits sz ∧
  size (shift_amount sz t) = (if sz =? 4 then 5 else 6) ∧
  (is_bv_value (shift_amount sz t) = true → as_long (shift_amount sz t) = ev m t mod reg_bits sz).
Proof.
  rewrite reg_bits_pow. unfold shift_amount. cbv zeta.
  set (k := if sz =? 4 then 5 else 6). assert (k = 5 ∨ k = 6) as Hk by (unfold k; case_match; auto).
  assert (ev m (if is_bv_value t then BitVecVal (Z.land (as_long t) (mask k)) k
                else Extract (k - 1) 0 (_resize t 64)) = ev m t mod 2 ^ k) as He.
  { destruct (is_bv_value t) eqn:E.
    - rewrite ev_BitVecVal, land_mask, wrap_wrap by lia. by rewrite (is_bv_value_ev m t E).
    - rewrite (extract_ev m _ _ _ k) by (rewrite ?resize_size; lia).
      rewrite resize_ev, Z.div_1_r by lia. apply wrap_wrap_le. lia. }
  split_and!; [done| |].
  - destruct (is_bv_value t); [by rewrite size_BitVecVal by lia|].
    rewrite (extract_size _ _ _ k); rewrite ?resize_size; lia.
  - intros Hv. by rewrite <- He, (is_bv_value_ev m _ Hv).
Qed.

(** ** Binary operations at one width *)

(** The operation of the encoder's chain, on operands of equal width [wd]. *)
Lemma udiv_sound m d s : size d = size s → is_bv_value s = true →
  (if as_long s =? 0 then 0 else ev m (UDiv d s)) = if ev m s =? 0 then 0 else ev m d / ev m s.
Proof.
  intros Hs Hv. rewrite <- (is_bv_value_ev m s Hv).
  destruct (Z.eqb_spec (ev m s) 0); [done|]. by rewrite ev_UDiv.
Qed.

(** Division guarded against a zero divisor, whichever form the guard takes. *)
Lemma div_guard m s wd q z : 0 < wd → size s = wd → size q = wd →
  (ev m s ≠ 0 → ev m q = z) →
  ev m (if is_bv_value s then (if as_long s =? 0 then BitVecVal 0 wd else q)
        else IfBV (bveq s (BitVecVal 0 wd)) (BitVecVal 0 wd) q)
  = if ev m s =? 0 then 0 else z.
Proof.
  intros Hwd Hs Hq Hz. destruct (is_bv_value s) eqn:Hv.
  - rewrite <- (is_bv_value_ev m s Hv).
    destruct (Z.eqb_spec (ev m s) 0); [by rewrite ev_BitVecVal|auto].
  - rewrite ev_IfBV, evb_bveq by (rewrite size_BitVecVal; lia).
    rewrite ev_BitVecVal by done. change (wrap wd 0) with (0 mod 2 ^ wd).
    rewrite Z.mod_0_l by (pose proof (pow2_pos wd); lia).
    destruct (Z.eqb_spec (ev m s) 0); [done|auto].
Qed.

Lemma div_pow_range a n w : 0 <= n → 0 <= a < 2 ^ w → 0 <= a / 2 ^ n < 2 ^ w.
Proof.
  intros Hn Ha. pose proof (pow2_pos n Hn). split; [apply Z.div_pos; lia|].
  apply Z.le_lt_trans with a; [|lia]. apply Z.div_le_upper_bound; nia.
Qed.

(** At the register width (32, or 64) the encoder's operation is the machine's. *)
Lemma binop_full m op sz wd sgnd d s t :
  wd = 32 ∨ wd = 64 → (op = ARSH → wd = sz * 8) → size d = wd → size s = wd →
  (is_shift op = true → ev m s < wd) →
  binop_z3 op sz wd sgnd d s = Ok t → ev m t = isa_alu op wd sgnd (ev m d) (ev m s).
Proof.
  intros Hwd Har Hd Hs Hsh HE. unfold binop_z3 in HE.
  pose proof (ev_range m d) as Hrd. pose proof (ev_range m s) as Hrs. rewrite Hd in Hrd.
  rewrite Hs in Hrs. unfold isa_alu.
  rewrite (wrap_small wd (ev m d)), (wrap_small wd (ev m s)) by done.
  assert (is_shift op = true → ev m s mod wd = ev m s) as Hmod.
  { intros. apply Z.mod_small. auto with lia. }
  op_cases op; simpl in HE |- *; try injection HE as <-; try rewrite Hmod by done.
  - rewrite ev_bvadd; congruence.
  - rewrite ev_bvsub; congruence.
  - rewrite ev_bvmul; congruence.
  - apply div_guard; [lia|done| |].
    + destruct sgnd; [rewrite size_bvsdiv|rewrite size_UDiv]; congruence.
    + intros Hnz. destruct sgnd; [rewrite ev_bvsdiv|rewrite ev_UDiv]; congruence.
  - rewrite ev_bvor; congruence.
  - rewrite ev_bvand; congruence.
  - rewrite ev_bvshl; congruence.
  - rewrite ev_LShR; congruence.
  - destruct sgnd; [rewrite ev_SRem|rewrite ev_URem]; rewrite ?Hd, ?Hs; done.
  - rewrite ev_bvxor; congruence.
  - rewrite (proj2 (Z.eqb_eq wd (sz * 8))) by auto. rewrite ev_bvashr; congruence.
Qed.

(** At a narrower width [wd] that holds the operands and, for the operations
    that can grow, the result, unsigned arithmetic agrees with 64 bits. *)
Lemma binop_narrow m op sz wd d s t :
  0 < wd < 64 → (op = ARSH → wd ≠ sz * 8) → size d = wd → size s = wd →
  (is_shift op = true → ev m s < 64) →
  (op = ADD → ev m d + ev m s < 2 ^ wd) → op ≠ SUB →
  (op = MUL → ev m d * ev m s < 2 ^ wd) →
  (op = LSH → ev m d * 2 ^ ev m s < 2 ^ wd) →
  binop_z3 op sz wd false d s = Ok t → ev m t = isa_alu op 64 false (ev m d) (ev m s).
Proof.
  intros Hwd Har Hd Hs Hsh Hadd Hsub Hmul Hlsh HE. unfold binop_z3 in HE.
  pose proof (ev_range m d) as Hrd. pose proof (ev_range m s) as Hrs. rewrite Hd in Hrd.
  rewrite Hs in Hrs. pose proof (Z.pow_le_mono_r 2 wd 63 ltac:(lia) ltac:(lia)).
  assert (2 ^ 64 = 2 * 2 ^ 63) as H64 by done. unfold isa_alu.
  rewrite (wrap_small 64 (ev m d)), (wrap_small 64 (ev m s)) by lia.
  assert (is_shift op = true → ev m s mod 64 = ev m s) as Hmod.
  { intros. apply Z.mod_small. auto with lia. }
  op_cases op; simpl in HE |- *; try injection HE as <-; try rewrite Hmod by done; try done.
  - specialize (Hadd eq_refl). rewrite ev_bvadd, Hd, !wrap_small by (lia || congruence). done.
  - specialize (Hmul eq_refl). rewrite ev_bvmul, Hd, !wrap_small by (nia || congruence). done.
  - apply div_guard; [lia|done| |].
    + rewrite size_UDiv; congruence.
    + intros Hnz. rewrite ev_UDiv; congruence.
  - rewrite ev_bvor; congruence.
  - rewrite ev_bvand; congruence.
  - specialize (Hlsh eq_refl). pose proof (pow2_pos (ev m s) ltac:(lia)).
    rewrite ev_bvshl, Hd, !wrap_small by (nia || congruence). done.
  - rewrite ev_LShR; congruence.
  - rewrite ev_URem; congruence.
  - rewrite ev_bvxor; congruence.
  - rewrite (proj2 (Z.eqb_neq wd (sz * 8))) by auto. rewrite ev_LShR by congruence.
    unfold sgn. rewrite (wrap_small 64 (ev m d)) by lia. change (64 - 1) with 63.
    destruct (Z.leb_spec (2 ^ 63) (ev m d)); [lia|].
    pose proof (div_pow_range (ev m d) (ev m s) 63 ltac:(lia) ltac:(lia)).
    rewrite wrap_small; lia.
Qed.

Lemma is_shift_cases op : is_shift op = true → op = LSH ∨ op = RSH ∨ op = ARSH.
Proof. unfold is_shift. rewrite !orb_true_iff, !Z.eqb_eq. tauto. Qed.

(** Only the shift amount modulo the register width matters. *)
Lemma isa_shift_amount op b sg x y : b = 32 ∨ b = 64 → is_shift op = true →
  isa_alu op b sg x (y mod b) = isa_alu op b sg x y.
Proof.
  intros Hb Ho.
  assert (wrap b (y mod b) mod b = wrap b y mod b) as Hz.
  { assert (∃ k, 0 <= k <= b ∧ b = 2 ^ k) as (k & Hk & Hbk).
    { destruct Hb as [-> | ->]; [exists 5|exists 6]; split; (lia || done). }
    rewrite Hbk at 2 3 5. change (wrap k (wrap b (wrap k y)) = wrap k (wrap b y)).
    by rewrite !wrap_wrap_le by lia. }
  unfold isa_alu. rewrite Hz.
  by destruct (is_shift_cases op Ho) as [-> | [-> | ->]].
Qed.

(** The narrowed width holds both operands, and the result of the operations
    that can grow. *)
Lemma need_bits_fit m op d s wd :
  0 < wd < 64 → need_bits op d s <= wd →
  (op = LSH → is_bv_value s = true → as_long s = ev m s) →
  (is_shift op = true → ev m s < 2 ^ wd) →
  ev m d < 2 ^ wd ∧ ev m s < 2 ^ wd ∧
  (op = ADD → ev m d + ev m s < 2 ^ wd) ∧ op ≠ SUB ∧
  (op = MUL → ev m d * ev m s < 2 ^ wd) ∧
  (op = LSH → ev m d * 2 ^ ev m s < 2 ^ wd).
Proof.
  intros Hw Hn Hv Hsw.
  pose proof (bits_used_bound m d) as [Hud1 Hud]. pose proof (bits_used_bound m s) as [Hus1 Hus].
  pose proof (ev_range m d) as Hd. pose proof (ev_range m s) as Hs.
  assert (∀ k x, 0 <= k <= wd → x < 2 ^ k → x < 2 ^ wd) as Hle.
  { intros k x Hk Hx. pose proof (Z.pow_le_mono_r 2 k wd). lia. }
  unfold need_bits in Hn.
  destruct (Z.eqb_spec op ADD) as [-> | ].
  { split_and!; try done; try (eapply Hle; [|done]; lia). intros _.
    assert (∀ k, 0 <= k → k + 1 <= wd → 2 * 2 ^ k <= 2 ^ wd) as Hk.
    { intros k Hk0 Hk. rewrite <- Z.pow_succ_r by done. apply Z.pow_le_mono_r; lia. }
    set (k := Z.max (_bits_used d) (_bits_used s)) in *.
    specialize (Hk k ltac:(lia) Hn).
    pose proof (Z.pow_le_mono_r 2 (_bits_used d) k). pose proof (Z.pow_le_mono_r 2 (_bits_used s) k).
    lia. }
  destruct (Z.eqb_spec op MUL) as [-> | ].
  { split_and!; try done; try (eapply Hle; [|done]; lia). intros _.
    apply Hle with (_bits_used d + _bits_used s); [lia|]. rewrite Z.pow_add_r by lia. nia. }
  destruct (Z.eqb_spec op LSH) as [-> | ]; simpl in Hn.
  { destruct (is_bv_value s) eqn:E; simpl in Hn; [|lia].
    rewrite (Hv eq_refl eq_refl) in Hn.
    split_and!; try done; [eapply Hle; [|done]; lia|by apply Hsw|].
    intros _. apply Hle with (_bits_used d + ev m s); [lia|]. rewrite Z.pow_add_r by lia.
    pose proof (pow2_pos (ev m s)). nia. }
  destruct (Z.eqb_spec op SUB) as [-> | ]; simpl in Hn; [lia|].
  pose proof (size_pos d). pose proof (size_pos s).
  split_and!; try done; eapply Hle; try apply ev_range; lia.
Qed.

(** The encoding of a binary ALU node computes the instruction set's operation
    on the register width, whatever the widths of its operands. *)
Lemma alu_binary_ev m op offset sz d s t :
  (op = ARSH → sz = 4 ∨ sz = 8) →
  alu_binary_z3 op offset sz d s = Ok t →
  ev m t = isa_alu op (reg_bits sz) (offset =? 1) (ev m d) (ev m s).
Proof.
  intros Har HE. unfold alu_binary_z3 in HE. fold (is_shift op) in HE.
  rewrite <- isa_alu_signed.
  set (sgnd := (offset =? 1) && ((op =? DIV) || (op =? MOD))) in *. cbv zeta in HE.
  set (s' := if is_shift op then shift_amount sz s else s) in *.
  pose proof (shift_amount_sound m sz s) as (Hse & Hss & Hsv).
  pose proof (reg_bits_cases sz) as Hb.
  assert (is_shift op = true → 0 <= ev m s' < reg_bits sz) as Hsh.
  { intros Ho. unfold s'. rewrite Ho, Hse. apply Z.mod_pos_bound. destruct Hb; lia. }
  assert (isa_alu op (reg_bits sz) sgnd (ev m d) (ev m s) =
          isa_alu op (reg_bits sz) sgnd (ev m d) (ev m s')) as ->.
  { unfold s'. destruct (is_shift op) eqn:Ho; [|done]. rewrite Hse.
    symmetry. by apply isa_shift_amount. }
  assert (∀ wd, wd = reg_bits sz → (op = ARSH → wd = sz * 8) →
            binop_z3 op sz wd sgnd (_resize d wd) (_resize s' wd) = Ok t →
            ev m t = isa_alu op wd sgnd (ev m d) (ev m s')) as Hfull.
  { intros wd -> Hsz HE'. assert (0 < reg_bits sz) by (destruct Hb; lia).
    assert (is_shift op = true → wrap (reg_bits sz) (ev m s') = ev m s').
    { intros Ho. apply wrap_small. specialize (Hsh Ho). destruct Hb as [Hb | Hb]; rewrite Hb in *; lia. }
    apply (binop_full m) in HE'; try by apply resize_size.
    - rewrite HE', !resize_ev by done. by apply isa_alu_wrap.
    - done.
    - done.
    - intros Ho. rewrite resize_ev, H0 by done. by apply Hsh. }
  destruct (Z.eqb_spec sz 4) as [-> | Hsz]; [apply Hfull; [done..|exact HE]|].
  assert (reg_bits sz = 64) as Hr by (unfold reg_bits; by rewrite (proj2 (Z.eqb_neq sz 4))).
  destruct sgnd eqn:Esg.
  { rewrite Hr. apply Hfull; [done| |exact HE]. intros ->. unfold sgnd in Esg.
    rewrite andb_true_iff in Esg. destruct Esg as [_ Esg]. done. }
  destruct (alu64_width_need op d s') as [H64 | Hneed].
  { rewrite Hr. rewrite H64 in HE. apply Hfull; [done| |exact HE].
    intros Ho. destruct (Har Ho) as [-> | ->]; done. }
  pose proof (alu64_width_range op d s') as Hwr. set (wd := _alu64_width op d s') in *.
  destruct (Z.eq_dec wd 64) as [H64 | H64].
  { rewrite Hr. rewrite H64 in HE. apply Hfull; [done| |exact HE].
    intros Ho. destruct (Har Ho) as [-> | ->]; done. }
  rewrite Hr in *. clear Hfull Hb.
  assert (is_shift op = true → ev m s' < 2 ^ wd) as Hshw.
  { intros Ho. specialize (Hsh Ho). pose proof (Z.pow_le_mono_r 2 8 wd). lia. }
  destruct (need_bits_fit m op d s' wd) as (Hd & Hs & Hadd & Hsub & Hmul & Hlsh);
    [lia|done|intros ->; unfold s'; simpl; rewrite Hse; apply Hsv|done|].
  assert (0 < wd) as Hwd by lia.
  assert (ev m (_resize d wd) = ev m d ∧ ev m (_resize s' wd) = ev m s') as [Hde Hse'] by
    (by rewrite !resize_small).
  apply (binop_narrow m) in HE; rewrite ?Hde, ?Hse' in *; try (by apply resize_size); try done.
  - lia.
  - intros Ho. destruct (Har Ho) as [-> | ->]; lia.
  - intros Ho. by apply Hsh.
Qed.
End alu.

(** ** Unary operations *)

Lemma seqZ_succ a n : 0 <= n → seqZ a (n + 1) = seqZ a n ++ [a + n].
Proof.
  intros. rewrite seqZ_app by lia. unfold seqZ at 2. simpl. by rewrite Z.add_0_l, Z.add_comm.
Qed.

Lemma le_bytes_zrange n v :
  le_bytes n v = map (λ k, wrap 8 (v / 2 ^ (8 * k))) (zrange 0 (Z.of_nat n)).
Proof.
  assert (∀ a, 0 <= a → le_bytes n (v / 2 ^ (8 * a)) =
            map (λ k, wrap 8 (v / 2 ^ (8 * k))) (seqZ a (Z.of_nat n))) as H.
  { induction n as [|n IH]; intros a Ha; [done|].
    rewrite seqZ_cons by lia. cbn [le_bytes map]. f_equal.
    replace (Z.pred (Z.of_nat (S n))) with (Z.of_nat n) by lia.
    rewrite <- IH by lia. f_equal.
    pose proof (pow2_pos (8 * a) ltac:(lia)). rewrite Z.div_div by lia.
    rewrite <- Z.pow_add_r by lia. by replace (8 * a + 8) with (8 * Z.succ a) by lia. }
  unfold zrange. rewrite Z.sub_0_r. rewrite <- (H 0) by lia. by rewrite Z.mul_0_r, Z.div_1_r.
Qed.

Section unary.
Context `{HL : SMTLaws}.
Implicit Types (m : model) (t : bv).

Lemma bswap_sound m bits low t : bits = 16 ∨ bits = 32 ∨ bits = 64 → size low = bits →
  bswap_z3 bits low = Ok t → ev m t = bswap bits (ev m low).
Proof.
  intros Hb Hs HE. assert (8 * (bits / 8) = bits) as H8 by (by destruct Hb as [-> | [-> | ->]]).
  unfold bswap_z3 in HE. rewrite <- (rev_involutive (map _ _)) in HE.
  eapply (concat_or_digits m 8) in HE as [-> _]; [|lia|].
  - rewrite digits_8. unfold bswap. rewrite map_rev, le_bytes_zrange, map_map. do 2 f_equal.
    rewrite Z2Nat.id by lia. apply map_ext_in. intros k Hk.
    apply (extract_ev m _ _ low 8); [..|lia]; revert Hk; unfold zrange; rewrite <- list_elem_of_In, elem_of_seqZ; lia.
  - apply Forall_rev, Forall_map, Forall_forall. intros k Hk. simpl.
    apply extract_size; [..|lia]; revert Hk; unfold zrange; rewrite elem_of_seqZ; lia.
Qed.

Lemma alu_unary_ev m op imm sz alu64 os d t :
  (op = MOV → 1 <= imm <= reg_bits sz) →
  alu_unary_z3 op imm sz alu64 os d = Ok t →
  ev m t = isa_unary op imm sz (alu64 || bool_decide (os = Some S_REG)) (ev m d).
Proof.
  intros Himm HE. unfold alu_unary_z3 in HE. unfold isa_unary. fold (reg_bits sz) in HE.
  pose proof (reg_bits_range sz). pose proof (reg_bits_cases sz) as Hb.
  assert (0 < reg_bits sz) by (destruct Hb; lia).
  destruct (Z.eqb_spec op NEG) as [-> | ].
  { injection HE as <-. rewrite ev_bvneg, resize_size, resize_ev by done. apply wrap_opp. lia. }
  destruct (Z.eqb_spec op MOV) as [-> | ].
  { injection HE as <-. specialize (Himm eq_refl). cbv zeta.
    assert (size (Extract (imm - 1) 0 (_resize d 64)) = imm) as Hs by
      (apply extract_size; rewrite ?resize_size; lia).
    rewrite ev_SignExt, Hs by lia. rewrite (extract_ev m _ _ _ imm)
      by (rewrite ?resize_size; lia).
    rewrite Z.div_1_r, resize_ev, wrap_wrap_le by lia. f_equal; [lia|].
    apply sgn_ext. by rewrite wrap_wrap by lia. }
  destruct (Z.eqb_spec op END) as [-> | ]; [|discriminate]. cbv zeta in HE |- *.
  set (bits := if existsb (Z.eqb imm) [16; 32; 64] then imm else 64) in *.
  assert (bits = 16 ∨ bits = 32 ∨ bits = 64) as Hbits.
  { unfold bits. destruct (existsb (Z.eqb imm) [16; 32; 64]) eqn:E; [|auto].
    simpl in E. rewrite !orb_true_iff, !Z.eqb_eq in E. lia. }
  assert (size (Extract (bits - 1) 0 (_resize d 64)) = bits) as Hs by
    (apply extract_size; rewrite ?resize_size; lia).
  assert (ev m (Extract (bits - 1) 0 (_resize d 64)) = wrap bits (ev m d)) as He.
  { rewrite (extract_ev m _ _ _ bits) by (rewrite ?resize_size; lia).
    rewrite Z.div_1_r, resize_ev by lia. apply wrap_wrap_le. lia. }
  destruct (alu64 || _).
  - rewrite <- He. by apply bswap_sound.
  - by injection HE as <-.
Qed.

(** ** Comparisons *)

Lemma compare_ev m code d s (t : bl) : size d = size s → compare_z3 code d s = Ok t →
  isa_jmp code (size d) (ev m d) (ev m s) = Some (evb m t).
Proof.
  intros Hs HE. unfold compare_z3 in HE. unfold isa_jmp. simpl dict_get.
  pose proof (size_pos d). pose proof (size_pos s).
  rewrite !ev_wrap. replace (wrap (size d) (ev m s)) with (ev m s) by (by rewrite Hs, ev_wrap).
  destruct (Z.eqb_spec code JEQ) as [-> | ]; [injection HE as <-; by rewrite evb_bveq|].
  destruct (Z.eqb_spec code JNE) as [-> | ]; [injection HE as <-; by rewrite evb_bvne|].
  destruct (Z.eqb_spec code JGT) as [-> | ]; [injection HE as <-; by rewrite evb_UGT|].
  destruct (Z.eqb_spec code JGE) as [-> | ]; [injection HE as <-; by rewrite evb_UGE|].
  destruct (Z.eqb_spec code JLT) as [-> | ]; [injection HE as <-; by rewrite evb_ULT|].
  destruct (Z.eqb_spec code JLE) as [-> | ]; [injection HE as <-; by rewrite evb_ULE|].
  destruct (Z.eqb_spec code JSGT) as [-> | ];
    [injection HE as <-; rewrite evb_bvsgt, <- Hs; done|].
  destruct (Z.eqb_spec code JSGE) as [-> | ];
    [injection HE as <-; rewrite evb_bvsge, <- Hs; done|].
  destruct (Z.eqb_spec code JSLT) as [-> | ];
    [injection HE as <-; rewrite evb_bvslt, <- Hs; done|].
  destruct (Z.eqb_spec code JSLE) as [-> | ];
    [injection HE as <-; rewrite evb_bvsle, <- Hs; done|].
  destruct (Z.eqb_spec code JSET) as [-> | ]; [|discriminate].
  injection HE as <-. simpl.
  rewrite evb_bvne by (rewrite size_bvand, size_BitVecVal; done).
  rewrite ev_bvand, ev_BitVecVal by done. unfold wrap.
  by rewrite Z.mod_0_l by (pose proof (pow2_pos (size d)); lia).
Qed.

Lemma isa_jmp_unsigned code b b' x y x' y' : existsb (Z.eqb code) _SIGNED = false →
  wrap b x = wrap b' x' → wrap b y = wrap b' y' →
  isa_jmp code b x y = isa_jmp code b' x' y'.
Proof.
  unfold _SIGNED. simpl. rewrite !orb_false_iff. intros (H1 & H2 & H3 & H4 & _) Hx Hy.
  unfold isa_jmp. simpl. by rewrite Hx, Hy, H1, H2, H3, H4.
Qed.

(** Operands of at most 64 bits compare, at whatever common width the encoder
    picks, as the registers they are zero-extended to. *)
Lemma cmp_ev m code j d s (t : bl) : size d <= 64 → size s <= 64 →
  cmp_z3 code j d s = Ok t → isa_jmp code (jmp_bits j) (ev m d) (ev m s) = Some (evb m t).
Proof.
  intros Hd Hs HE. unfold cmp_z3 in HE. cbv zeta in HE.
  pose proof (size_pos d). pose proof (size_pos s).
  destruct j.
  - apply (compare_ev m) in HE; [|rewrite !widen_size, !resize_size; lia].
    rewrite !widen_size, !widen_ev, !resize_size, !resize_ev in HE by lia.
    rewrite <- HE. apply isa_jmp_ext; simpl; by rewrite wrap_wrap by lia.
  - set (w := if existsb (Z.eqb code) _SIGNED then _ else _) in HE.
    assert (size d <= w ∧ size s <= w ∧ w <= 64) as (H1 & H2 & H3) by (unfold w; case_match; lia).
    apply (compare_ev m) in HE; [|rewrite !widen_size; lia].
    rewrite widen_size, !widen_ev in HE. replace (size d `max` w) with w in HE by lia.
    rewrite <- HE. simpl jmp_bits. destruct (Z.eq_dec w 64) as [-> | Hw]; [done|].
    assert (existsb (Z.eqb code) _SIGNED = false) as Hsg.
    { destruct (existsb _ _) eqn:E; [|done]. exfalso. apply Hw. unfold w. lia. }
    assert (∀ x, size x <= w → wrap 64 (ev m x) = wrap w (ev m x)) as Hx.
    { intros x Hx. pose proof (ev_range m x). pose proof (size_pos x).
      pose proof (Z.pow_le_mono_r 2 (size x) w ltac:(lia) ltac:(lia)).
      pose proof (Z.pow_le_mono_r 2 w 64 ltac:(lia) ltac:(lia)).
      rewrite !wrap_small; lia. }
    apply isa_jmp_unsigned; auto.
Qed.
End unary.
