(* ===== verification/EncodeSound.v ===== *)
(** The encoding of expressions is sound: in every model, [expr_to_z3] denotes
    the value [den] gives the expression in the world of that model. *)

From S2P Require Import Prelude Constants Smt SmtTerm Expr Denote Branch Record Link Encode.
From S2P Require Import Action Bits Alu.

(** ** The world of a model and a symbolic state *)

Section world.
Context `{SMT} (m : model) (st : Z3State).

(** The meaning of the [read_present] hook: map number, key value, block and
    index of the query. *)
Context (present_at : option Z → Z → option Z → option Z → bool).

Definition hook_val (h : option (val → res (option bv))) (v : val) : option bv :=
  match h with
  | Some f => match f v with Ok o => o | Err _ => None end
  | None => None
  end.

Definition or_hook (h : option (val → res (option bv))) (v : val) (x : Z) : Z :=
  match hook_val h v with Some t => ev m t | None => x end.

(** Whether the map holds an entry for a key: array-like maps hold the keys
    below their size. *)
Definition map_contains (map_id : option Z) (has_key : bool) (key : Z) (key_id : option Z) : bool :=
  match map_id with
  | None => true
  | Some i =>
      if (i <? 0) || negb has_key then true
      else match map_cell st map_id with
           | Err _ => true
           | Ok (p, a) =>
               let k := wrap (domain_size a) key in
               if _is_array_map st map_id || _is_prog_map st map_id then
                 match _map_info st map_id with
                 | Some info => k <? wrap (domain_size a) (mi_max_entries info)
                 | None => true
                 end
               else match read_present st with
                    | Some _ => present_at map_id k (at_block st) key_id
                    | None => evp m p k
                    end
           end
  end.

(** [size] bytes of a map value, from a fixed or a variable offset. *)
Definition map_field (width v off : Z) (var : option Z) (nbytes : Z) : Z :=
  match var with
  | None => if width <=? 8 * off then 0 else wrap (8 * nbytes) (v / 2 ^ (8 * off))
  | Some x => wrap (8 * nbytes) (v / 2 ^ wrap width (8 * wrap width (x + off)))
  end.

Definition var_of (v : val) (x : Z) : option Z := if is_none v then None else Some x.

Definition z3_world : world := λ v kids,
  match v, kids with
  | VPktLen _ _ _, _ => ev m (z_pkt_len st)
  | VIngress _, _ => ev m (z_ingress st)
  | VRxq _, _ => ev m (z_rx_index st)
  | VEgress _, _ => ev m (z_egress st)
  | VPkt _ p, [x] =>
      or_hook (read_pkt st) v
        (read_le (eva m (z_pkt st)) (domain_size (z_pkt st)) (pv_off p + x) (pv_size p))
  | VMap _ mv, [key; x] =>
      or_hook (read_map st) v
        match map_cell st (mv_map_id mv) with
        | Ok (_, a) =>
            map_field (range_size a) (eva m a (wrap (domain_size a) key)) (mv_off mv)
              (var_of (mv_var_off mv) x) (mv_size mv)
        | Err _ => 0
        end
  | VBss _ b, [x] =>
      or_hook (read_bss st) v
        (read_le (eva m (_bss_of st (bv_key b))) BSS_ADDR_BITS (bv_off b + x) (bv_size b))
  | VRodata _ r, [x] =>
      read_le (λ i, nth (Z.to_nat i) (rv_data r) 0) RODATA_ADDR_BITS (rv_off r + x) (rv_size r)
  | VHit _ h, [key] =>
      if map_contains (lh_map_id h) (negb (is_none (lh_map_key h))) key (lh_map_key_id h)
      then 1 else 0
  | VFunc _ f, [key] =>
      let w := 8 * fr_size f in
      if fr_redirects f then
        or_hook (read_fret st) v
          (if bool_decide (fr_map_id f = None) then wrap w (fr_fallback f)
           else if map_contains (fr_map_id f) (negb (is_none (fr_map_key f))) key
                     (fr_map_key_id f)
           then wrap w 4 else wrap w (fr_fallback f))
      else if existsb (Z.eqb (fr_func f)) [44; 54; 65] then
        if evb m (Bool (adjust_name (fr_idx f))) then 0 else wrap w (- EINVAL)
      else ev m (BitVec (func_name (fr_func f) (fr_idx f)) w)
  | VJoin _ j, _ =>
      match read_phi st with
      | Some f => match f v with Ok t => ev m t | Err _ => 0 end
      | None => ev m (BitVec (phi_name (j_block_idx j) (j_reg_num j)) 64)
      end
  | VScalar _ s i, _ => ev m (BitVec (scalar_name i) (8 * s))
  | _, _ => 0
  end.
End world.

(** ** Well-formed states and expressions *)

(** The sorts of the state's arrays. *)
Record state_ok `{SMT} (st : Z3State) : Prop := {
  pkt_bytes : range_size (z_pkt st) = 8;
  bss_sorts : ∀ k arr, pget (z_bss st) k = Some arr →
    domain_size arr = BSS_ADDR_BITS ∧ range_size arr = 8;
  map_sorts : ∀ id p a, map_cell st id = Ok (p, a) → 8 <= range_size a
}.

(** The widths of a node: positive sizes, sign extensions within the register,
    arithmetic shifts on a register. *)
Definition node_wf (v : val) : Prop :=
  match v with
  | VNum _ _ s _ | VScalar _ s _ => 0 < s
  | VMap _ mv => 0 < mv_size mv ∧ 0 <= mv_off mv
  | VRodata _ r => Forall is_byte (rv_data r) ∧ Z.of_nat (length (rv_data r)) <= 2 ^ 32
  | VFunc _ f => 0 < fr_size f
  | VByteSeq _ _ s off => 0 < s ∧ 0 <= off < 2 ^ 32
  | VUn _ u => u_op u = MOV → 1 <= u_imm u <= reg_bits (u_size u)
  | VBin _ b => b_op b = ARSH → b_size b = 4 ∨ b_size b = 8
  | _ => True
  end.

Definition val_wf (v : val) : Prop := Forall node_wf (nodes v).

Definition is_alu_node (v : val) : bool :=
  match v with VUn _ _ | VBin _ _ => true | _ => false end.

(** Identities name objects: two ALU nodes with one identity are one object. *)
Definition coherent (l : list val) : Prop :=
  ∀ x y, x ∈ l → y ∈ l → is_alu_node x = true → is_alu_node y = true → oid x = oid y → x = y.

(** ** Soundness *)

Lemma eqb_true b : Bool.eqb b true = b.
Proof. by destruct b. Qed.

Section sound.
Context `{HL : SMTLaws} (m : model) (st : Z3State).
Context (present_at : option Z → Z → option Z → option Z → bool).
Hypothesis Hst : state_ok st.
Hypothesis Hpresent : ∀ f mid key blk kid t, read_present st = Some f →
  f mid key blk kid = Ok t → evb m t = present_at mid (ev m key) blk kid.

Let w := z3_world m st present_at.

Lemma bss_of_sorts key : domain_size (_bss_of st key) = BSS_ADDR_BITS ∧
  range_size (_bss_of st key) = 8.
Proof using Hst HL.
  unfold _bss_of. destruct (pget (z_bss st) key) eqn:E; simpl; [by eapply bss_sorts|].
  unfold zero_bss. by rewrite domain_K, range_K, size_BitVecVal.
Qed.

(** The key of a map operation, resized to the map's key width. *)
Lemma contain_sound map_id has_key keyz key_id key t :
  (∀ k, keyz = Ok k → ∃ p a, map_cell st map_id = Ok (p, a) ∧
     size k = domain_size a ∧ ev m k = wrap (domain_size a) key) →
  contain_z3 st map_id has_key keyz key_id true = Ok t →
  evb m t = map_contains m st present_at map_id has_key key key_id.
Proof using Hpresent HL.
  intros Hk HE. unfold contain_z3 in HE. unfold map_contains.
  destruct map_id as [i|]; [|injection HE as <-; by rewrite evb_BoolVal].
  destruct ((i <? 0) || negb has_key); [injection HE as <-; by rewrite evb_BoolVal|].
  destruct (_is_array_map st (Some i) || _is_prog_map st (Some i)) eqn:Ea.
  - res_inv. destruct (Hk _ eq_refl) as (p & a & Hc & Hs & He). rewrite Hc, E0.
    pose proof (domain_pos a).
    by rewrite evb_ULT, He, ev_BitVecVal, Hs by (rewrite ?size_BitVecVal; lia).
  - res_inv. destruct (Hk _ eq_refl) as (p & a & Hc & Hs & He). rewrite Hc.
    rewrite evb_beq, evb_BoolVal, eqb_true.
    destruct (read_present st) as [f|] eqn:Er.
    + rewrite (Hpresent _ _ _ _ _ _ eq_refl E0). by rewrite He.
    + rewrite Hc in E0. res_inv. by rewrite evb_PSelect, He.
Qed.

(** *** The memo *)

Context (U : list val).
Hypothesis HU : coherent U.

Definition memo_ok (mm : memo) : Prop :=
  ∀ x t, x ∈ U → is_alu_node x = true → mm !! oid x = Some t → ev m t = den w x.

Lemma memo_ok_empty : memo_ok ∅.
Proof. intros x t _ _ [=]. Qed.

Lemma memoised_sound v c mm t mm' : v ∈ U → is_alu_node v = true →
  memo_ok mm →
  (∀ t1 mm1, c mm = Ok (t1, mm1) → ev m t1 = den w v ∧ memo_ok mm1) →
  memoised (oid v) c mm = Ok (t, mm') → ev m t = den w v ∧ memo_ok mm'.
Proof using HU.
  intros Hv Ha Hmm Hc HE. unfold memoised in HE.
  destruct (mm !! oid v) as [t0|] eqn:El.
  { injection HE as <- <-. eauto. }
  destruct (c mm) as [[t1 mm1]|] eqn:Ec; [|discriminate]. injection HE as <- <-.
  destruct (Hc _ _ eq_refl) as [He Hok]. split; [done|].
  intros x t' Hx Hxa Hl. apply lookup_insert_Some in Hl as [[Heq <-] | [_ Hl]].
  - by rewrite (HU x v Hx Hv Hxa Ha (eq_sym Heq)).
  - by apply (Hok x).
Qed.

(** What the induction carries for a sub-expression. *)
Definition enc_ok (e : val) : Prop :=
  (∀ x, x ∈ nodes e → x ∈ U ∧ node_wf x) →
  ∀ mm t mm', memo_ok mm → expr_to_z3 st e mm = Ok (t, mm') →
  ev m t = den w e ∧ memo_ok mm'.

Lemma hooked_sound h e c mm t mm' x :
  hooked h e c mm = Ok (t, mm') → memo_ok mm →
  (∀ t1 mm1, c mm = Ok (t1, mm1) → ev m t1 = x ∧ memo_ok mm1) →
  ev m t = or_hook m h e x ∧ memo_ok mm'.
Proof.
  intros HE Hmm Hc. unfold hooked in HE. unfold or_hook, hook_val.
  destruct h as [f|]; [|by apply Hc].
  apply ST_bind_Ok in HE as (got & s1 & Hf & HE). apply lift_Ok in Hf as [-> ->].
  destruct got; [res_inv; done|by apply Hc].
Qed.

(** [base_of]: an optional variable offset plus a constant. *)
Lemma base_of_sound off wd v mm t mm' :
  0 < wd → (is_none v = false → ∀ t1 mm1, expr_to_z3 st v mm = Ok (t1, mm1) →
              ev m t1 = den w v ∧ memo_ok mm1) →
  memo_ok mm →
  base_of off wd (negb (is_none v)) (expr_to_z3 st v) mm = Ok (t, mm') →
  ev m t = wrap wd (off + den w v) ∧ size t = wd ∧ memo_ok mm'.
Proof using HL.
  intros Hw Hv Hmm HE. unfold base_of in HE. destruct (is_none v) eqn:En; simpl in HE.
  - destruct v; try done. res_inv. simpl. rewrite Z.add_0_r.
    by rewrite ev_BitVecVal, size_BitVecVal.
  - apply ST_bind_Ok in HE as (t1 & mm1 & He & HE). destruct (Hv eq_refl _ _ He) as [H1 H2].
    res_inv. rewrite base_ev, base_size, H1 by done. by rewrite Z.add_comm.
Qed.

Lemma read_le_wrap f wd base n : 0 <= wd → read_le f wd (wrap wd base) n = read_le f wd base n.
Proof.
  intros Hw. unfold read_le. f_equal. apply map_ext. intros i. f_equal.
  rewrite <- (wrap_add wd (wrap wd base)), wrap_wrap, wrap_add by done. done.
Qed.

(** *** The cases of the encoder *)

(** The local key function of [expr_to_z3]. *)
Definition key_of (map_id : option Z) (k : val) : ST memo bv :=
  k ← expr_to_z3 st k; '(_, a) ← lift (map_cell st map_id); mret (_resize k (domain_size a)).

Lemma key_of_sound map_id k mm t mm' : enc_ok k → (∀ x, x ∈ nodes k → x ∈ U ∧ node_wf x) →
  memo_ok mm → key_of map_id k mm = Ok (t, mm') →
  memo_ok mm' ∧ ∃ p a, map_cell st map_id = Ok (p, a) ∧
    size t = domain_size a ∧ ev m t = wrap (domain_size a) (den w k).
Proof using HL.
  intros Hk Hn Hmm HE. unfold key_of in HE.
  apply ST_bind_Ok in HE as (t1 & mm1 & He & HE). destruct (Hk Hn _ _ _ Hmm He) as [H1 H2].
  apply ST_bind_Ok in HE as ([p a] & s1 & Hc & HE). apply lift_Ok in Hc as [Hc ->].
  res_inv. split; [done|]. pose proof (domain_pos a).
  exists p, a. by rewrite resize_size, resize_ev, H1.
Qed.

(** The local [contain] of [expr_to_z3]: the key is encoded with a memo of its
    own. *)
Definition contain_of (map_id : option Z) (k : val) (key_id : option Z) : ST memo bl :=
  lift (contain_z3 st map_id (negb (is_none k)) (fresh_memo (key_of map_id k)) key_id true).

Lemma contain_of_sound map_id k key_id mm t mm' : enc_ok k →
  (∀ x, x ∈ nodes k → x ∈ U ∧ node_wf x) → contain_of map_id k key_id mm = Ok (t, mm') →
  mm' = mm ∧ evb m t = map_contains m st present_at map_id (negb (is_none k)) (den w k) key_id.
Proof using HL Hpresent.
  intros Hk Hn HE. unfold contain_of in HE. apply lift_Ok in HE as [HE ->]. split; [done|].
  eapply contain_sound; [|done]. intros kz Hkz. unfold fresh_memo in Hkz.
  destruct (key_of map_id k ∅) as [[t1 mm1]|] eqn:E; [|discriminate].
  injection Hkz as <-.
  destruct (key_of_sound _ _ _ _ _ Hk Hn memo_ok_empty E) as (_ & p & a & H1 & H2 & H3).
  by exists p, a.
Qed.

Lemma enc_pkt o p : enc_ok (pv_var_off p) → enc_ok (VPkt o p).
Proof using Hst HL.
  intros IH Hn mm t mm' Hmm HE. cbn [expr_to_z3] in HE.
  eapply hooked_sound in HE; [exact HE|done|]. clear HE. intros t1 mm1 HE. cbv zeta in HE.
  apply ST_bind_Ok in HE as (base & mm2 & Hb & HE). apply lift_Ok in HE as [HE ->].
  apply base_of_sound in Hb as (He & Hs & Hok); [|apply domain_pos| |done].
  - eapply (select_bytes_sound m) in HE as [-> _]; [|done|apply pkt_bytes, Hst|done].
    rewrite He, read_le_wrap by (pose proof (domain_pos (z_pkt st)); lia). done.
  - intros _ t2 mm3. apply IH; [|done]. intros x Hx. apply Hn. simpl. by right.
Qed.

Lemma enc_bss o b : enc_ok (bv_var_off b) → enc_ok (VBss o b).
Proof using Hst HL.
  intros IH Hn mm t mm' Hmm HE. cbn [expr_to_z3] in HE.
  eapply hooked_sound in HE; [exact HE|done|]. clear HE. intros t1 mm1 HE.
  apply ST_bind_Ok in HE as (base & mm2 & Hb & HE). apply lift_Ok in HE as [HE ->].
  apply base_of_sound in Hb as (He & Hs & Hok); [|done| |done].
  - destruct (bss_of_sorts (bv_key b)) as [Hd Hr].
    eapply (select_bytes_sound m) in HE as [-> _]; [|done..].
    by rewrite He, read_le_wrap by done.
  - intros _ t2 mm3. apply IH; [|done]. intros x Hx. apply Hn. simpl. by right.
Qed.

Lemma enc_rodata o r : enc_ok (rv_var_off r) → enc_ok (VRodata o r).
Proof using HL.
  intros IH Hn mm t mm' Hmm HE. cbn [expr_to_z3] in HE.
  apply ST_bind_Ok in HE as (base & mm2 & Hb & HE). apply lift_Ok in HE as [HE ->].
  destruct (Hn (VRodata o r)) as [_ [Hbytes Hlen]]; [apply nodes_self|].
  apply base_of_sound in Hb as (He & Hs & Hok); [|done| |done].
  - destruct (rodata_eva m (rv_data r) 0 Hbytes Hlen ltac:(lia)) as (Hd & Hr & _).
    eapply (select_bytes_sound m) in HE as [-> _]; [|done..].
    rewrite He, read_le_wrap by done. split; [|done]. simpl. unfold read_le. f_equal.
    apply map_ext. intros i. apply rodata_eva; [done..|]. apply wrap_range. done.
  - intros _ t2 mm3. apply IH; [|done]. intros x Hx. apply Hn. simpl. by right.
Qed.

Lemma map_const_field width v off n t :
  0 < n → 0 <= off → 0 < width → size v = width →
  (if size v <=? off * 8 then BitVecVal 0 (n * 8)
   else _resize (Extract (Z.min (off * 8 + n * 8) (size v) - 1) (off * 8) v) (n * 8)) = t →
  ev m t = map_field width (ev m v) off None n.
Proof using HL.
  intros Hn Ho Hw Hs <-. unfold map_field. rewrite Hs, (Z.mul_comm 8 off).
  destruct (Z.leb_spec width (off * 8)).
  - by rewrite ev_BitVecVal by lia.
  - set (k := Z.min (n * 8) (width - off * 8)).
    rewrite resize_ev, (extract_ev m _ _ v k) by lia. rewrite (Z.mul_comm 8 n).
    pose proof (ev_range m v). pose proof (pow2_pos (off * 8) ltac:(lia)).
    assert (ev m v / 2 ^ (off * 8) < 2 ^ (width - off * 8)).
    { apply Z.div_lt_upper_bound; [done|]. rewrite <- Z.pow_add_r by lia.
      replace (off * 8 + (width - off * 8)) with width by lia. rewrite <- Hs; apply ev_range. }
    destruct (Z.le_gt_cases (n * 8) (width - off * 8)).
    + replace k with (n * 8) by lia. apply wrap_wrap. lia.
    + replace k with (width - off * 8) by lia.
      rewrite (wrap_small (width - off * 8)); [done|]. split; [apply Z.div_pos; lia|done].
Qed.

Lemma shift_of_ev wd t : 8 <= wd → size t = wd → ev m (shift_of t wd) = wrap wd (8 * ev m t) ∧
  size (shift_of t wd) = wd.
Proof using HL.
  intros Hw Hs. unfold shift_of.
  rewrite ev_bvmul, size_bvmul by (rewrite resize_size, size_BitVecVal; lia).
  rewrite resize_size, resize_ev, ev_BitVecVal by lia. split; [|done].
  rewrite wrap_mul by lia. f_equal. lia.
Qed.

Lemma map_var_field v base off x n t :
  0 < n → size base = size v → ev m base = wrap (size v) (x + off) → 8 <= size v →
  _extract_bytes_var v base n = t → ev m t = map_field (size v) (ev m v) off (Some x) n.
Proof using HL.
  intros Hn Hs Hb Hw <-. unfold _extract_bytes_var, map_field.
  destruct (shift_of_ev (size v) base Hw Hs) as [He Hz].
  rewrite resize_ev, ev_LShR, He, Hb, (Z.mul_comm n 8) by (lia || congruence). done.
Qed.

Lemma enc_map o mv : enc_ok (mv_map_key mv) → enc_ok (mv_var_off mv) →
  enc_ok (VMap o mv).
Proof using HL Hst.
  intros IHk IHv Hn mm t mm' Hmm HE. cbn [expr_to_z3] in HE.
  destruct (Hn (VMap o mv)) as [_ [Hsz Hoff]]; [apply nodes_self|].
  assert (∀ x, x ∈ nodes (mv_map_key mv) → x ∈ U ∧ node_wf x) as Hnk
    by (intros; apply Hn; simpl; right; apply elem_of_app; by left).
  assert (∀ x, x ∈ nodes (mv_var_off mv) → x ∈ U ∧ node_wf x) as Hnv
    by (intros; apply Hn; simpl; right; apply elem_of_app; by right).
  assert (den w (VMap o mv) = or_hook m (read_map st) (VMap o mv)
    match map_cell st (mv_map_id mv) with
    | Ok (_, a) =>
        map_field (range_size a) (eva m a (wrap (domain_size a) (den w (mv_map_key mv))))
          (mv_off mv) (var_of (mv_var_off mv) (den w (mv_var_off mv))) (mv_size mv)
    | Err _ => 0
    end) as -> by done.
  eapply hooked_sound in HE; [exact HE|done|]. clear HE. intros t1 mm1 HE.
  apply ST_bind_Ok in HE as ([p a] & s1 & Hc & HE). apply lift_Ok in Hc as [Hc ->].
  apply ST_bind_Ok in HE as (key & mm2 & Hk & HE).
  apply (key_of_sound _ _ _ _ _ IHk Hnk Hmm) in Hk as (Hok & p' & a' & Hc' & Hks & Hke).
  rewrite Hc in Hc'. injection Hc' as <- <-. rewrite Hc.
  pose proof (size_Select a key Hks) as Hss.
  pose proof (ev_Select m a key Hks) as Hse. rewrite Hke in Hse. rewrite <- Hse, <- Hss.
  pose proof (map_sorts st Hst _ _ _ Hc) as H8. rewrite <- Hss in H8. unfold var_of.
  destruct (is_none (mv_var_off mv)) eqn:En; cbv beta iota zeta delta [negb] in HE.
  - assert (memo_ok mm1 ∧ (if size (Select a key) <=? mv_off mv * 8 then BitVecVal 0 (mv_size mv * 8)
      else _resize (Extract (Z.min (mv_off mv * 8 + mv_size mv * 8) (size (Select a key)) - 1)
             (mv_off mv * 8) (Select a key)) (mv_size mv * 8)) = t1) as [Hok1 Ht].
    { destruct (size (Select a key) <=? mv_off mv * 8); by res_inv. }
    split; [|done]. eapply (map_const_field (size (Select a key))); [lia|lia|lia|done|exact Ht].
  - apply ST_bind_Ok in HE as (base & mm3 & Hb & HE).
    pose proof (base_of_sound (mv_off mv) (size (Select a key)) (mv_var_off mv) mm2 base mm3)
      as Hbs. rewrite En in Hbs. apply Hbs in Hb as (Hbe & Hbz & Hok3);
      [|lia|intros _ ? ?; by apply IHv|done].
    res_inv. split; [|done]. apply (map_var_field _ base); try done; [].
    rewrite Hbe. f_equal. lia.
Qed.

Lemma enc_hit o h : enc_ok (lh_map_key h) → enc_ok (VHit o h).
Proof using HL Hpresent.
  intros IH Hn mm t mm' Hmm HE. cbn [expr_to_z3] in HE.
  apply ST_bind_Ok in HE as (hit & mm1 & Hc & HE).
  apply (contain_of_sound _ _ _ _ _ _ IH) in Hc as [-> He].
  - res_inv. split; [|done]. rewrite ev_IfBV, !ev_BitVecVal, He by (rewrite ?size_BitVecVal; lia). simpl. fold w.
    by destruct (map_contains _ _ _ _ _ _ _).
  - intros x Hx. apply Hn. simpl. by right.
Qed.

Lemma enc_func o f : enc_ok (fr_map_key f) → enc_ok (VFunc o f).
Proof using HL Hpresent.
  intros IH Hn mm t mm' Hmm HE. cbn [expr_to_z3] in HE. cbv zeta in HE.
  destruct (Hn (VFunc o f)) as [_ Hw]; [apply nodes_self|]. simpl in Hw.
  cbn -[existsb wrap]. destruct (fr_redirects f).
  - eapply hooked_sound in HE; [exact HE|done|]. clear HE. intros t1 mm1 HE.
    case_bool_decide; [res_inv; by rewrite ev_BitVecVal by lia|].
    apply ST_bind_Ok in HE as (ok & mm2 & Hc & HE).
    apply (contain_of_sound _ _ _ _ _ _ IH) in Hc as [-> He].
    + res_inv. rewrite ev_IfBV, !ev_BitVecVal, He by (rewrite ?size_BitVecVal; lia). done.
    + intros x Hx. apply Hn. simpl. by right.
  - destruct (existsb (Z.eqb (fr_func f)) [44; 54; 65]); res_inv; [|done].
    rewrite ev_IfBV, !ev_BitVecVal by (rewrite ?size_BitVecVal; lia). done.
Qed.

Lemma enc_unary o u : enc_ok (u_dst u) → enc_ok (VUn o u).
Proof using HL HU.
  intros IH Hn mm t mm' Hmm HE. cbn [expr_to_z3] in HE.
  destruct (Hn (VUn o u)) as [HinU Hwf]; [apply nodes_self|].
  eapply (memoised_sound (VUn o u)); [done|done|done| |exact HE].
  intros t1 mm1 HE1. apply ST_bind_Ok in HE1 as (d & mm2 & Hd & HE1).
  apply lift_Ok in HE1 as [HE1 ->].
  apply IH in Hd as [Hde Hok]; [|intros x Hx; apply Hn; simpl; by right|done].
  split; [|done]. apply (alu_unary_ev m) in HE1; [|exact Hwf]. by rewrite HE1, Hde.
Qed.

Lemma enc_binary o b : enc_ok (b_dst b) → enc_ok (b_src b) → enc_ok (VBin o b).
Proof using HL HU.
  intros IHd IHs Hn mm t mm' Hmm HE. cbn [expr_to_z3] in HE.
  destruct (Hn (VBin o b)) as [HinU Hwf]; [apply nodes_self|].
  eapply (memoised_sound (VBin o b)); [done|done|done| |exact HE].
  intros t1 mm1 HE1. apply ST_bind_Ok in HE1 as (d & mm2 & Hd & HE1).
  apply ST_bind_Ok in HE1 as (s & mm3 & Hs & HE1). apply lift_Ok in HE1 as [HE1 ->].
  apply IHd in Hd as [Hde Hok];
    [|intros x Hx; apply Hn; simpl; right; apply elem_of_app; by left|done].
  apply IHs in Hs as [Hse Hok3];
    [|intros x Hx; apply Hn; simpl; right; apply elem_of_app; by right|done].
  split; [|done]. apply (alu_binary_ev m) in HE1; [|exact Hwf]. by rewrite HE1, Hde, Hse.
Qed.

(** The inner loop over the chunks of a byte sequence. *)
Fixpoint cells_of (l : list val) : ST memo (list bv) :=
  match l with
  | [] => mret []
  | c :: l' =>
      t ← (if is_none c then mret (BitVecVal 0 64)
           else t ← expr_to_z3 st c; mret (_resize t 64));
      ts ← cells_of l';
      mret (t :: ts)
  end.

Lemma cells_of_sound cs : Forall enc_ok cs → (∀ c x, c ∈ cs → x ∈ nodes c → x ∈ U ∧ node_wf x) →
  ∀ mm ts mm', memo_ok mm → cells_of cs mm = Ok (ts, mm') →
  memo_ok mm' ∧ Forall (λ t, size t = 64) ts ∧ map (ev m) ts = map (wrap 64) (map (den w) cs).
Proof using HL.
  induction 1 as [|c cs Hc Hcs IH]; intros Hn mm ts mm' Hmm HE; cbn [cells_of] in HE.
  { res_inv. by repeat constructor. }
  apply ST_bind_Ok in HE as (t & mm1 & Ht & HE).
  apply ST_bind_Ok in HE as (ts1 & mm2 & Hts & HE). res_inv.
  assert (memo_ok mm1 ∧ size t = 64 ∧ ev m t = wrap 64 (den w c)) as (Hok1 & Hs & He).
  { destruct (is_none c) eqn:En.
    - destruct c; try done. res_inv. rewrite size_BitVecVal, ev_BitVecVal by lia. done.
    - apply ST_bind_Ok in Ht as (t0 & mm3 & Ht & Hm). apply Hc in Ht as [He Hok];
        [|intros x; apply Hn; left|done].
      res_inv. by rewrite resize_size, resize_ev, He by lia. }
  destruct (IH ltac:(intros ? ? ?; apply Hn; by right) _ _ _ Hok1 Hts) as (Hok2 & Hss & Hes).
  split_and!; [done|by constructor|]. simpl. by rewrite He, Hes.
Qed.

Lemma enc_seq o cs s off : Forall enc_ok cs → enc_ok (VByteSeq o cs s off).
Proof using HL.
  intros IH Hn mm t mm' Hmm HE.
  assert ((cells ← cells_of cs; whole ← lift (concat_or (rev cells));
     let whole := if off =? 0 then whole
                  else LShR whole (BitVecVal (off * 8) (size whole)) in
     mret (_resize whole (s * 8))) mm = Ok (t, mm')) as HE' by exact HE. clear HE.
  destruct (Hn (VByteSeq o cs s off)) as [_ [Hsz Hoff]]; [apply nodes_self|].
  apply ST_bind_Ok in HE' as (ts & mm1 & Hts & HE).
  apply ST_bind_Ok in HE as (whole & mm2 & Hw & HE). apply lift_Ok in Hw as [Hw ->]. res_inv.
  eapply cells_of_sound in Hts as (Hok & Hss & Hes); [|done| |done].
  2: { intros c x Hc Hx. apply Hn. by eapply nodes_chunk. }
  split; [|done].
  destruct (concat_or_digits m 64 ts whole ltac:(lia) Hss Hw) as [He Hsw].
  rewrite Hes, digits_64 in He.
  assert (64 <= size whole) as H64.
  { rewrite Hsw. destruct ts; [done|]. simpl length. lia. }
  rewrite resize_ev, (Z.mul_comm s 8) by lia. simpl. f_equal.
  destruct (Z.eqb_spec off 0) as [-> | ]; [by rewrite He, Z.div_1_r|].
  pose proof (Z.pow_le_mono_r 2 64 (size whole) ltac:(lia) H64).
  rewrite ev_LShR, ev_BitVecVal, wrap_small, He, (Z.mul_comm off 8)
    by (rewrite ?size_BitVecVal; lia). done.
Qed.

Lemma enc_leaf v : nodes v = [v] → enc_ok v.
Proof using HL.
  intros Hleaf Hn mm t mm' Hmm HE.
  assert (∀ x, nodes x ≠ []) as Hne by (by intros []).
  destruct v; try (exfalso; simpl in Hleaf; injection Hleaf as Hl;
    try apply app_eq_nil in Hl as [Hl _]; by eapply Hne); try done.
  - simpl in HE. by res_inv.
  - cbn [expr_to_z3] in HE. simpl. destruct (read_phi st) as [f|]; [|by res_inv].
    apply lift_Ok in HE as [HE ->]. by rewrite HE.
  - simpl in HE. by res_inv.
  - simpl in HE. by res_inv.
  - simpl in HE. by res_inv.
  - simpl in HE. by res_inv.
  - destruct (Hn (VNum o num size idx)) as [_ Hs]; [apply nodes_self|]. simpl in Hs.
    simpl in HE. res_inv. simpl. rewrite ev_BitVecVal by lia. by rewrite Z.mul_comm.
  - assert (chunks = []) as ->.
    { destruct chunks as [|c cs]; [done|]. exfalso. simpl in Hleaf. injection Hleaf as Hl.
      apply app_eq_nil in Hl as [Hl _]. by eapply Hne. }
    eapply (enc_seq o [] size off); [constructor|exact Hn|done|exact HE].
Qed.

Lemma enc_all v : enc_ok v.
Proof using HL HU Hst Hpresent.
  induction v using val_ind'; auto using enc_leaf, enc_unary, enc_binary, enc_seq, enc_pkt,
    enc_map, enc_bss, enc_rodata, enc_hit, enc_func.
Qed.
End sound.

(** The soundness lemma of the encoder, from a memo that is right on the
    nodes of [e]. *)
Lemma expr_to_z3_ev `{HL : SMTLaws} m st present_at e mm t mm' :
  state_ok st →
  (∀ f mid key blk kid t, read_present st = Some f → f mid key blk kid = Ok t →
     evb m t = present_at mid (ev m key) blk kid) →
  coherent (nodes e) → val_wf e → memo_ok m st present_at (nodes e) mm →
  expr_to_z3 st e mm = Ok (t, mm') →
  ev m t = den (z3_world m st present_at) e ∧ memo_ok m st present_at (nodes e) mm'.
Proof.
  intros Hst Hp Hc Hwf Hmm HE.
  refine (enc_all m st present_at Hst Hp (nodes e) Hc e _ mm t mm' Hmm HE).
  intros x Hx. split; [done|]. unfold val_wf in Hwf. rewrite Forall_forall in Hwf. by apply Hwf.
Qed.

Lemma expr_z3_ev `{HL : SMTLaws} m st present_at e t :
  state_ok st →
  (∀ f mid key blk kid t, read_present st = Some f → f mid key blk kid = Ok t →
     evb m t = present_at mid (ev m key) blk kid) →
  coherent (nodes e) → val_wf e → expr_z3 st e = Ok t →
  ev m t = den (z3_world m st present_at) e.
Proof.
  intros Hst Hp Hc Hwf HE. unfold expr_z3, fresh_memo in HE.
  destruct (expr_to_z3 st e ∅) as [[t' mm']|] eqn:E; [|discriminate].
  injection HE as <-.
  apply (proj1 (expr_to_z3_ev m st present_at e ∅ t' mm' Hst Hp Hc Hwf
                  (memo_ok_empty _ _ _ _) E)).
Qed.

(** C9 The encoder is sound: in every model, the term [expr_to_z3] builds for a
    well-formed expression has the value the expression denotes - ALU nodes by
    the instruction set's operations whatever narrowed width the encoder
    chose, loads by the bytes of the state's arrays, the sharing memo
    included. *)
Theorem expr_to_z3_sound `{HL : SMTLaws} m st present_at e t :
  state_ok st →
  (∀ f mid key blk kid t, read_present st = Some f → f mid key blk kid = Ok t →
     evb m t = present_at mid (ev m key) blk kid) →
  coherent (nodes e) → val_wf e → expr_z3 st e = Ok t →
  ev m t = den (z3_world m st present_at) e.
Proof. apply expr_z3_ev. Qed.

(** ** A concrete state *)

Definition ex_maps : list map_info := [mk_map_info 0 (Some "m"%string) 1 4 8 16 0].
Definition ex_st : Z3State := _make_init_state ex_maps.

Lemma map_cell_nth `{SMT} st i p a : map_cell st i = Ok (p, a) → (p, a) ∈ z_map st.
Proof.
  unfold map_cell. destruct i as [i|]; [|done]. simpl. unfold py_index. cbv zeta.
  destruct (_ || _); [done|]. rewrite of_option_Ok. apply list_elem_of_lookup_2.
Qed.

(** The initial state of any list of maps is well-formed. *)
Lemma init_state_ok `{SMTLaws} maps : state_ok (_make_init_state maps).
Proof.
  split.
  - unfold _make_init_state. simpl. by rewrite range_Array.
  - done.
  - intros i p a Hc. apply map_cell_nth in Hc. unfold _make_init_state in Hc. simpl in Hc.
    apply list_elem_of_In, in_map_iff in Hc as (mi & [= <- <-] & _).
    rewrite range_Array; lia.
Qed.

(** [((u64)pkt[12:14] << 3) + map0[key][4:8]], with the load shared. *)
Definition ex_load : val := VPkt 1 (mk_pkt 0 3 12 VNone 2).
Definition ex_shl : val := VBin 2 (mk_binary LSH ex_load (VNum 3 3 4 (-1)) 0 8 4).
Definition ex_expr : val :=
  VBin 5 (mk_binary ADD ex_shl
    (VBin 6 (mk_binary XOR ex_shl
       (VMap 4 (mk_map 0 5 (Some 0) (VNum 7 1 4 (-1)) (Some 5) 4 VNone 4)) 0 4 6)) 0 8 7).

Definition ex_model : tmodel :=
  {| m_bv := λ _, 0; m_bool := λ _, true; m_arr := λ _ i, i + 1; m_parr := λ _ _, true |}.

Lemma ex_expr_wf : coherent (nodes ex_expr) ∧ val_wf ex_expr.
Proof.
  split.
  - intros x y Hx Hy Hax Hay Ho. revert Hax Hay Ho.
    apply list_elem_of_In in Hx, Hy. cbn in Hx, Hy.
    repeat destruct Hx as [<- | Hx]; repeat destruct Hy as [<- | Hy]; try done.
  - unfold val_wf. cbn. repeat (apply Forall_cons_2 || apply Forall_nil_2); cbn; try lia; auto.
Qed.

Lemma expr_to_z3_sound_witness : ∃ t,
  expr_z3 ex_st ex_expr = Ok t ∧
  ev ex_model t = den (z3_world ex_model ex_st (λ _ _ _ _, true)) ex_expr.
Proof.
  eexists. split; [reflexivity|].
  apply (@expr_to_z3_sound z3 z3_laws ex_model ex_st (λ _ _ _ _, true) ex_expr).
  - apply (init_state_ok ex_maps).
  - discriminate.
  - apply ex_expr_wf.
  - apply ex_expr_wf.
  - reflexivity.
Defined.

Example ex_expr_value : den (z3_world ex_model ex_st (λ _ _ _ _, true)) ex_expr = 57552.
Proof. vm_compute. reflexivity. Qed.

(** ** Every expression the tracker builds has an encoding *)

Definition hook_free `{SMT} (st : Z3State) : Prop :=
  read_pkt st = None ∧ read_map st = None ∧ read_bss st = None ∧ read_fret st = None ∧
  read_phi st = None ∧ read_present st = None.

Definition binary_ops : list Z := [ADD; SUB; MUL; DIV; OR; AND; LSH; RSH; MOD; XOR; ARSH].

(** No [None] or pointer where a value is needed, maps in range, non-empty reads
    and known operations. *)
Fixpoint encodable `{SMT} (st : Z3State) (v : val) {struct v} : Prop :=
  let opt x := is_none x = true ∨ encodable st x in
  match v with
  | VNone | VPtr _ _ => False
  | VPkt _ p => 0 < pv_size p ∧ opt (pv_var_off p)
  | VMap _ m => is_Ok (map_cell st (mv_map_id m)) = true ∧ encodable st (mv_map_key m)
                ∧ opt (mv_var_off m)
  | VBss _ b => 0 < bv_size b ∧ opt (bv_var_off b)
  | VRodata _ r => 0 < rv_size r ∧ opt (rv_var_off r)
  | VHit _ h => is_Ok (map_cell st (lh_map_id h)) = true ∧ encodable st (lh_map_key h)
  | VFunc _ f =>
      fr_redirects f = true → fr_map_id f = None ∨
      is_Ok (map_cell st (fr_map_id f)) = true ∧ encodable st (fr_map_key f)
  | VByteSeq _ cs _ _ =>
      cs ≠ [] ∧ (fix all (l : list val) : Prop :=
                   match l with [] => True | c :: l' => opt c ∧ all l' end) cs
  | VUn _ u => u_op u ∈ [NEG; MOV; END] ∧ encodable st (u_dst u)
  | VBin _ b => b_op b ∈ binary_ops ∧ encodable st (b_dst b) ∧ encodable st (b_src b)
  | _ => True
  end.

Section total.
Context `{SMT} (st : Z3State).
Hypothesis Hfree : hook_free st.

Definition returns {A} (c : ST memo A) : Prop := ∀ mm, ∃ a mm', c mm = Ok (a, mm').

Lemma returns_bind {A B} (c : ST memo A) (f : A → ST memo B) :
  returns c → (∀ a, returns (f a)) → returns (c ≫= f).
Proof.
  intros Hc Hf mm. destruct (Hc mm) as (a & mm1 & E). destruct (Hf a mm1) as (b & mm2 & E2).
  exists b, mm2. apply ST_bind_Ok. eauto.
Qed.
Lemma returns_ret {A} (a : A) : returns (mret a).
Proof. intros mm. by eexists _, _. Qed.
Lemma returns_lift {A} (r : res A) : is_Ok r = true → returns (lift r).
Proof. intros Hr mm. destruct r; [by eexists _, _|done]. Qed.
Lemma returns_memoised o c : returns c → returns (memoised o c).
Proof.
  intros Hc mm. unfold memoised. destruct (mm !! o); [by eexists _, _|].
  destruct (Hc mm) as (t & mm1 & ->). by eexists _, _.
Qed.
Lemma is_Ok_bind {A B} (r : res A) (f : A → res B) :
  is_Ok r = true → (∀ a, r = Ok a → is_Ok (f a) = true) → is_Ok (r ≫= f) = true.
Proof. destruct r; simpl; auto. Qed.

Lemma returns_concat (c : ST memo (list bv)) (f : bv → ST memo bv) :
  returns c → (∀ mm ts mm', c mm = Ok (ts, mm') → ts ≠ []) → (∀ t, returns (f t)) →
  returns (ts ← c; whole ← lift (concat_or (rev ts)); f whole).
Proof.
  intros Hc Hne Hf mm. destruct (Hc mm) as (ts & mm1 & E).
  assert (is_Ok (concat_or (rev ts)) = true) as Ho.
  { specialize (Hne _ _ _ E). destruct ts as [|x ts]; [done|]. simpl.
    by destruct (rev ts) as [|? []]. }
  destruct (concat_or (rev ts)) as [whole|] eqn:Ec; [|done].
  destruct (Hf whole mm1) as (t & mm2 & E2). exists t, mm2.
  apply ST_bind_Ok. exists ts, mm1. split; [done|]. apply ST_bind_Ok.
  exists whole, mm1. by rewrite Ec.
Qed.

Lemma returns_select arr base wd n : 0 < n → is_Ok (select_bytes arr base wd n) = true.
Proof.
  intros Hn. unfold select_bytes.
  assert (length (zrange 0 n) ≠ 0)%nat as Hl.
  { pose proof (zrange_length 0 n). lia. }
  destruct (zrange 0 n) as [|x l]; [done|]. simpl.
  by destruct (rev (map _ l)) as [|? []].
Qed.

Lemma returns_base off wd v : is_none v = true ∨ returns (expr_to_z3 st v) →
  returns (base_of off wd (negb (is_none v)) (expr_to_z3 st v)).
Proof.
  unfold base_of. destruct (is_none v); simpl; [intros; apply returns_ret|].
  intros [? | Hv]; [done|]. apply returns_bind; [done|]. intros; apply returns_ret.
Qed.

Lemma returns_key map_id k : is_Ok (map_cell st map_id) = true → returns (expr_to_z3 st k) →
  returns (key_of st map_id k).
Proof.
  intros Hc Hk. unfold key_of. apply returns_bind; [done|]. intros t.
  apply returns_bind; [by apply returns_lift|]. intros [p a]. apply returns_ret.
Qed.

Lemma returns_contain map_id k key_id :
  is_Ok (map_cell st map_id) = true → returns (expr_to_z3 st k) →
  returns (contain_of st map_id k key_id).
Proof using Hfree.
  intros Hc Hk. apply returns_lift. unfold contain_z3.
  destruct map_id as [i|]; [|done]. destruct (_ || _); [done|].
  assert (is_Ok (fresh_memo (key_of st (Some i) k)) = true) as Hkey.
  { unfold fresh_memo. destruct (returns_key (Some i) k Hc Hk ∅) as (t & mm & ->). done. }
  destruct (_is_array_map st (Some i) || _is_prog_map st (Some i)) eqn:Ea.
  - apply is_Ok_bind; [done|]. intros key _.
    unfold _is_array_map, _is_prog_map, has_type in Ea. by destruct (_map_info st (Some i)).
  - apply is_Ok_bind; [done|]. intros key _. destruct Hfree as (_ & _ & _ & _ & _ & ->).
    destruct (map_cell st (Some i)) as [[p a]|]; done.
Qed.

Lemma encodable_seq o cs s off : encodable st (VByteSeq o cs s off) →
  cs ≠ [] ∧ Forall (λ c, is_none c = true ∨ encodable st c) cs.
Proof. intros [Hne Hall]. split; [done|]. clear Hne. induction cs; constructor; naive_solver. Qed.
End total.

Section total_main.
Context `{SMT} (st : Z3State).
Hypothesis Hfree : hook_free st.

Lemma returns_cells cs :
  Forall (λ c, is_none c = true ∨ returns (expr_to_z3 st c)) cs → returns (cells_of st cs) ∧
  ∀ mm ts mm', cells_of st cs mm = Ok (ts, mm') → length ts = length cs.
Proof.
  induction 1 as [|c cs Hc Hcs [IH1 IH2]]; split.
  - apply returns_ret.
  - intros. cbn in *. by res_inv.
  - cbn [cells_of]. apply returns_bind.
    + destruct (is_none c) eqn:E; [apply returns_ret|]. destruct Hc as [? | Hc]; [done|].
      apply returns_bind; [done|]. intros; apply returns_ret.
    + intros t. apply returns_bind; [done|]. intros; apply returns_ret.
  - intros mm ts mm' HE. cbn [cells_of] in HE.
    apply ST_bind_Ok in HE as (t & mm1 & _ & HE). apply ST_bind_Ok in HE as (ts1 & mm2 & Hl & HE).
    apply IH2 in Hl. res_inv. simpl. by rewrite Hl.
Qed.

Lemma expr_to_z3_returns v : encodable st v → returns (expr_to_z3 st v).
Proof using Hfree.
  pose proof Hfree as (H1 & H2 & H3 & H4 & H5 & _).
  induction v as [v Hleaf|o u IH|o b IHd IHs|o cs s off IH|o p IH|o mv IHk IHv|o b IH|o r IH
                 |o h IH|o f IH] using val_ind'; intros He.
  - assert (∀ x, nodes x ≠ []) as Hne by (by intros []).
    destruct v; try (exfalso; simpl in Hleaf; injection Hleaf as Hl;
      try apply app_eq_nil in Hl as [Hl _]; by eapply Hne); try done; try apply returns_ret.
    + cbn [expr_to_z3]. rewrite H5. apply returns_ret.
    + apply encodable_seq in He as [Hnil _]. destruct chunks as [|c cs]; [done|].
      exfalso. simpl in Hleaf. injection Hleaf as Hl. apply app_eq_nil in Hl as [Hl _].
      by eapply Hne.
  - destruct He as [Hop He]. cbn [expr_to_z3]. apply returns_memoised.
    apply returns_bind; [auto|]. intros d. apply returns_lift.
    rewrite !elem_of_cons, elem_of_nil in Hop. unfold alu_unary_z3.
    destruct Hop as [-> | [-> | [-> | []]]]; [done|done|]. simpl. cbv zeta.
    set (bits := if _ || _ then u_imm u else 64).
    assert (bits = 16 ∨ bits = 32 ∨ bits = 64) as Hb.
    { unfold bits. destruct (_ || _) eqn:E; [|auto]. rewrite !orb_true_iff, !Z.eqb_eq in E. lia. }
    clearbody bits. destruct (u_alu64 u || _); [|done]. by destruct Hb as [-> | [-> | ->]].
  - destruct He as (Hop & Hd & Hs). cbn [expr_to_z3]. apply returns_memoised.
    apply returns_bind; [auto|]. intros d. apply returns_bind; [auto|]. intros sr.
    apply returns_lift. unfold alu_binary_z3, binop_z3, binary_ops in *.
    rewrite !elem_of_cons, elem_of_nil in Hop.
    repeat (destruct Hop as [-> | Hop]; [done|]). done.
  - apply encodable_seq in He as [Hne Hall].
    assert (Forall (λ c, is_none c = true ∨ returns (expr_to_z3 st c)) cs) as Hcs.
    { rewrite !Forall_forall in *. intros c Hc. destruct (Hall c Hc); auto. }
    destruct (returns_cells cs Hcs) as [Hr Hl].
    change (returns (ts ← cells_of st cs; whole ← lift (concat_or (rev ts));
      (λ whole, mret (_resize (if off =? 0 then whole
                  else LShR whole (BitVecVal (off * 8) (size whole))) (s * 8))) whole)).
    apply returns_concat; [done| |intros; apply returns_ret].
    intros mm ts mm' HE ->. apply Hl in HE. by destruct cs.
  - destruct He as [Hn Ho]. cbn [expr_to_z3]. rewrite H1. unfold hooked. cbv zeta.
    apply returns_bind; [apply returns_base; naive_solver|]. intros base.
    apply returns_lift. by apply returns_select.
  - destruct He as (Hc & Hk & Ho). cbn [expr_to_z3]. rewrite H2. unfold hooked. cbv zeta.
    apply returns_bind; [by apply returns_lift|]. intros [p a].
    apply returns_bind; [apply (returns_key st (mv_map_id mv) (mv_map_key mv)); auto|].
    intros key. destruct (is_none (mv_var_off mv)) eqn:En; simpl negb; cbv iota.
    + destruct (_ <=? _); apply returns_ret.
    + apply returns_bind; [|intros; apply returns_ret].
      pose proof (returns_base st (mv_off mv) (size (Select a key)) (mv_var_off mv)) as Hb.
      rewrite En in Hb. apply Hb. naive_solver.
  - destruct He as [Hn Ho]. cbn [expr_to_z3]. rewrite H3. unfold hooked. cbv zeta.
    apply returns_bind; [apply returns_base; naive_solver|]. intros base.
    apply returns_lift. by apply returns_select.
  - destruct He as [Hn Ho]. cbn [expr_to_z3].
    apply returns_bind; [apply returns_base; naive_solver|]. intros base.
    apply returns_lift. by apply returns_select.
  - destruct He as [Hc Hk]. cbn [expr_to_z3].
    apply returns_bind; [apply (returns_contain st Hfree (lh_map_id h) (lh_map_key h)); auto|].
    intros; apply returns_ret.
  - cbn [expr_to_z3]. cbv zeta. destruct (fr_redirects f) eqn:Er.
    + rewrite H4. unfold hooked. simpl in He. specialize (He Er).
      destruct (bool_decide (fr_map_id f = None)) eqn:Ei; [apply returns_ret|].
      bool_prop. destruct He as [? | [Hc Hk]]; [done|].
      apply returns_bind; [apply (returns_contain st Hfree (fr_map_id f) (fr_map_key f)); auto|].
      intros; apply returns_ret.
    + destruct (existsb _ _); apply returns_ret.
Qed.
End total_main.

(** C16 The encoder is total on the expressions the tracker builds: without read
    hooks, an expression with no missing value or pointer inside, on maps that
    exist and with known operations, always has a term. *)
Theorem expr_to_z3_total `{SMT} st e :
  hook_free st → encodable st e → ∃ t, expr_z3 st e = Ok t.
Proof.
  intros Hf He. destruct (expr_to_z3_returns st Hf e He ∅) as (t & mm & E).
  exists t. unfold expr_z3, fresh_memo. by rewrite E.
Qed.

Lemma expr_to_z3_total_witness :
  encodable ex_st ex_expr ∧ ∃ t, expr_z3 ex_st ex_expr = Ok t.
Proof.
  assert (encodable ex_st ex_expr) as He.
  { cbn. unfold binary_ops. rewrite !elem_of_cons.
    repeat split; try lia; auto 20; by left. }
  split; [exact He|]. apply (@expr_to_z3_total z3); [repeat split|exact He].
Defined.
