(* ===== verification/CondSound.v ===== *)
(** The encoding of branch conditions is sound: a [Condition] holds in a model
    exactly when the machine takes the branch on the operands' values. *)

From S2P Require Import Prelude Constants Smt SmtTerm Expr Denote Branch Record Link Encode.
From S2P Require Import Action Bits Alu EncodeSound.

(** ** Widths of encoded values *)

(** The scalar fields of the state fit a register. *)
Definition regs_ok `{SMT} (st : Z3State) : Prop :=
  size (z_pkt_len st) <= 64 ∧ size (z_ingress st) <= 64 ∧ size (z_rx_index st) <= 64 ∧
  size (z_egress st) <= 64.

Section sizes.
Context `{HL : SMTLaws}.

Lemma size_if (b : bool) (x y : bv) k : size x = k → size y = k → size (if b then x else y) = k.
Proof. by destruct b. Qed.

Lemma binop_size op sz wd sgnd d s t : 0 < wd → size d = wd → size s = wd →
  binop_z3 op sz wd sgnd d s = Ok t → size t = wd.
Proof.
  intros Hw Hd Hs HE. unfold binop_z3 in HE.
  op_cases op; simpl in HE; injection HE as <-.
  - rewrite size_bvadd; congruence.
  - rewrite size_bvsub; congruence.
  - rewrite size_bvmul; congruence.
  - assert (size (if sgnd then bvsdiv d s else UDiv d s) = wd) as Hq
      by (apply size_if; [rewrite size_bvsdiv|rewrite size_UDiv]; congruence).
    apply size_if.
    + apply size_if; [by apply size_BitVecVal|done].
    + rewrite size_IfBV; rewrite size_BitVecVal; done.
  - rewrite size_bvor; congruence.
  - rewrite size_bvand; congruence.
  - rewrite size_bvshl; congruence.
  - rewrite size_LShR; congruence.
  - apply size_if; [rewrite size_SRem|rewrite size_URem]; congruence.
  - rewrite size_bvxor; congruence.
  - apply size_if; [rewrite size_bvashr|rewrite size_LShR]; congruence.
Qed.

Lemma alu_binary_size op offset sz d s t : alu_binary_z3 op offset sz d s = Ok t → size t <= 64.
Proof.
  intros HE. unfold alu_binary_z3 in HE. cbv zeta in HE.
  set (s' := if _ || _ then _ else _) in HE. set (wd := if sz =? 4 then _ else _) in HE.
  assert (0 < wd <= 64).
  { unfold wd. pose proof (alu64_width_range op d s'). repeat case_match; lia. }
  apply binop_size in HE; [lia|lia|by apply resize_size; lia..].
Qed.

Lemma alu_unary_size op imm sz a64 os d t : (op = MOV → 1 <= imm <= reg_bits sz) →
  alu_unary_z3 op imm sz a64 os d = Ok t → size t <= 64.
Proof.
  intros Himm HE. unfold alu_unary_z3 in HE. cbv zeta in HE. fold (reg_bits sz) in HE.
  pose proof (reg_bits_range sz). pose proof (reg_bits_cases sz) as Hb.
  destruct (Z.eqb_spec op NEG) as [-> | ].
  { injection HE as <-. rewrite size_bvneg, resize_size; destruct Hb; lia. }
  destruct (Z.eqb_spec op MOV) as [-> | ].
  { specialize (Himm eq_refl). injection HE as <-.
    rewrite size_SignExt, (extract_size _ _ _ imm) by (rewrite ?resize_size; lia). lia. }
  destruct (Z.eqb_spec op END) as [-> | ]; [|discriminate].
  set (bits := if existsb (Z.eqb imm) [16; 32; 64] then imm else 64) in *.
  assert (bits = 16 ∨ bits = 32 ∨ bits = 64) as Hbits.
  { unfold bits. destruct (existsb (Z.eqb imm) [16; 32; 64]) eqn:E; [|auto].
    simpl in E. rewrite !orb_true_iff, !Z.eqb_eq in E. lia. }
  clearbody bits.
  assert (size (Extract (bits - 1) 0 (_resize d 64)) = bits) as Hs by
    (apply extract_size; rewrite ?resize_size; lia).
  destruct (a64 || _); [|injection HE as <-; lia].
  unfold bswap_z3 in HE. rewrite <- (rev_involutive (map _ _)) in HE.
  assert (8 * (bits / 8) = bits) as H8 by (by destruct Hbits as [-> | [-> | ->]]).
  eapply (concat_or_size 8) in HE as ->; [|lia|].
  - rewrite length_rev, length_map, zrange_length. lia.
  - apply Forall_rev, Forall_map, Forall_forall. intros k Hk. simpl.
    apply extract_size; [..|lia]; revert Hk; unfold zrange; rewrite elem_of_seqZ; lia.
Qed.

Lemma select_bytes_size arr base wd n t :
  domain_size arr = wd → range_size arr = 8 → size base = wd →
  select_bytes arr base wd n = Ok t → size t = 8 * n.
Proof.
  intros Hd Hr Hb HS. unfold select_bytes in HS.
  assert (0 < n) as Hn by (destruct (Z.leb_spec n 0); [by rewrite zrange_nil in HS by lia|lia]).
  eapply (concat_or_size 8) in HS as ->; [|lia|].
  - rewrite length_map, zrange_length. lia.
  - apply Forall_map, Forall_true. intros i. simpl.
    by rewrite size_Select by (by rewrite bvadd_const_size).
Qed.

Lemma base_of_size off wd hv c mm t mm' : 0 < wd →
  base_of off wd hv c mm = Ok (t, mm') → size t = wd.
Proof.
  intros Hw HE. unfold base_of in HE. destruct hv.
  - apply ST_bind_Ok in HE as (t1 & mm1 & _ & HE). res_inv. by apply base_size.
  - res_inv. by apply size_BitVecVal.
Qed.

(** The term of a value of at most 8 bytes has at most 64 bits. *)
Lemma expr_z3_size st e s t : state_ok st → regs_ok st → hook_free st → node_wf e →
  vsize e = Ok s → s <= 8 → expr_z3 st e = Ok t → 0 < size t <= 64.
Proof.
  intros Hst (R1 & R2 & R3 & R4) (H1 & H2 & H3 & H4 & H5 & H6) Hwf Hs Hle HE.
  split; [apply size_pos|]. unfold expr_z3, fresh_memo in HE.
  destruct (expr_to_z3 st e ∅) as [[t' mm]|] eqn:E; [|discriminate]. injection HE as ->.
  destruct e; try discriminate; cbn [expr_to_z3] in E; cbv zeta in E;
    rewrite ?H1, ?H2, ?H3, ?H4, ?H5 in E; unfold hooked in E; simpl in Hs, Hwf;
    injection Hs as Hs.
  - res_inv. rewrite size_BitVec; lia.
  - res_inv. rewrite size_BitVec; lia.
  - res_inv. lia.
  - res_inv. lia.
  - res_inv. lia.
  - res_inv. lia.
  - destruct (fr_redirects f).
    + destruct (bool_decide _); [res_inv; rewrite size_BitVecVal; lia|].
      apply ST_bind_Ok in E as (ok & mm1 & _ & E). res_inv.
      rewrite size_IfBV; rewrite !size_BitVecVal; lia.
    + destruct (existsb _ _); res_inv; [|rewrite size_BitVec; lia].
      rewrite size_IfBV; rewrite !size_BitVecVal; lia.
  - apply ST_bind_Ok in E as (base & mm1 & Hb & E). apply lift_Ok in E as [E ->].
    apply base_of_size in Hb; [|apply domain_pos].
    apply select_bytes_size in E; [lia|done|apply pkt_bytes, Hst|done].
  - apply ST_bind_Ok in E as ([p a] & mm1 & _ & E).
    apply ST_bind_Ok in E as (key & mm2 & _ & E).
    destruct (negb _).
    + apply ST_bind_Ok in E as (base & mm3 & _ & E). res_inv.
      unfold _extract_bytes_var. rewrite resize_size; lia.
    + destruct (_ <=? _) in E; res_inv; [rewrite size_BitVecVal|rewrite resize_size]; lia.
  - apply ST_bind_Ok in E as (base & mm1 & Hb & E). apply lift_Ok in E as [E ->].
    destruct (bss_of_sorts st Hst (bv_key b)) as [Hd Hr].
    apply base_of_size in Hb; [|done]. apply select_bytes_size in E; [lia|done..].
  - apply ST_bind_Ok in E as (base & mm1 & Hb & E). apply lift_Ok in E as [E ->].
    destruct Hwf as [Hbytes Hlen].
    assert (domain_size (_rodata_array (rv_data r)) = 32 ∧
            range_size (_rodata_array (rv_data r)) = 8) as [Hd Hr].
    { unfold _rodata_array. apply (fold_left_ind _ (λ _ a, domain_size a = 32 ∧ range_size a = 8)).
      - by rewrite domain_K, range_K, size_BitVecVal.
      - intros pre [i byte] a _ [Ha1 Ha2]. destruct (byte =? 0); [done|].
        by rewrite domain_Store, range_Store. }
    apply base_of_size in Hb; [|done]. apply select_bytes_size in E; [lia|done..].
  - apply ST_bind_Ok in E as (hit & mm1 & _ & E). res_inv.
    rewrite size_IfBV; rewrite !size_BitVecVal; lia.
  - res_inv. rewrite size_BitVecVal; lia.
  - apply ST_bind_Ok in E as (cells & mm1 & _ & E).
    apply ST_bind_Ok in E as (whole & mm2 & _ & E). res_inv. rewrite resize_size; lia.
  - unfold memoised in E. rewrite lookup_empty in E.
    match type of E with match ?x with _ => _ end = _ =>
      destruct x as [[t1 mm1]|] eqn:E1; [|discriminate] end. injection E as <- <-.
    apply ST_bind_Ok in E1 as (d & mm2 & _ & E1). apply lift_Ok in E1 as [E1 _].
    by eapply alu_unary_size.
  - unfold memoised in E. rewrite lookup_empty in E.
    match type of E with match ?x with _ => _ end = _ =>
      destruct x as [[t1 mm1]|] eqn:E1; [|discriminate] end. injection E as <- <-.
    apply ST_bind_Ok in E1 as (d & mm2 & _ & E1). apply ST_bind_Ok in E1 as (sr & mm3 & _ & E1).
    apply lift_Ok in E1 as [E1 _]. by eapply alu_binary_size.
Qed.
End sizes.

(** ** Conditions *)

(** The world of a state without read hooks. *)
Definition free_world `{SMT} (m : model) (st : Z3State) : world :=
  z3_world m st (λ _ _ _ _, true).

(** A state as the tests of the verifier use it: well-sorted, without hooks. *)
Record plain_state `{SMT} (st : Z3State) : Prop := {
  plain_ok : state_ok st;
  plain_regs : regs_ok st;
  plain_free : hook_free st
}.

(** A value a register can hold: well-formed, its nodes shared by identity, at
    most 8 bytes wide. *)
Record reg_val (v : val) : Prop := {
  rv_coherent : coherent (nodes v);
  rv_wf : val_wf v;
  rv_width : ∃ s, vsize v = Ok s ∧ s <= 8
}.

Section conditions.
Context `{HL : SMTLaws} (m : model) (st : Z3State).
Hypothesis Hst : plain_state st.

Lemma expr_ev e t : coherent (nodes e) → val_wf e → expr_z3 st e = Ok t →
  ev m t = den (free_world m st) e.
Proof using Hst HL.
  intros Hc Hwf HE. eapply expr_z3_ev; [apply Hst| |done..].
  intros f mid key blk kid t' Hr. destruct Hst as [_ _ (_ & _ & _ & _ & _ & Hn)]. congruence.
Qed.

Lemma reg_val_size e t : reg_val e → expr_z3 st e = Ok t → 0 < size t <= 64.
Proof using Hst HL.
  intros [Hc Hwf (s & Hs & Hle)] HE.
  eapply expr_z3_size; [apply Hst|apply Hst|apply Hst| |done..].
  unfold val_wf in Hwf. rewrite Forall_forall in Hwf. apply Hwf, nodes_self.
Qed.

(** C10 [Condition.to_z3] is the machine's branch. On register values that are
    not an equality test of a pointer, the guard is true in a model exactly
    when the jump is taken on the operands' values: signed and unsigned, 32
    and 64 bits, and bit tests, whatever widths the operands' terms have. *)
Theorem condition_sound code dst src jmp32 g :
  reg_val dst → reg_val src → null_test code dst src = None →
  cond_to_z3 st (CCond code dst src jmp32) = Ok g →
  _jmp_taken code (den (free_world m st) dst) (den (free_world m st) src) jmp32
  = Ok (evg m g).
Proof using Hst HL.
  intros Hd Hs Hn HE. cbn [cond_to_z3] in HE. rewrite Hn in HE.
  apply bind_Ok in HE as (s & Hse & HE). apply bind_Ok in HE as (d & Hde & HE).
  apply bind_Ok in HE as (t & Ht & HE). injection HE as <-.
  pose proof (reg_val_size _ _ Hd Hde). pose proof (reg_val_size _ _ Hs Hse).
  rewrite <- (expr_ev _ _ (rv_coherent _ Hd) (rv_wf _ Hd) Hde).
  rewrite <- (expr_ev _ _ (rv_coherent _ Hs) (rv_wf _ Hs) Hse).
  rewrite jmp_taken_isa, (cmp_ev m code jmp32 d s t); [done|lia|lia|done].
Qed.

(** The test whether a map holds a key. *)
Lemma contain_key_sound map_id k t : coherent (nodes k) → val_wf k →
  _map_key_z3 st map_id k = Ok t →
  ∃ p a, map_cell st map_id = Ok (p, a) ∧ size t = domain_size a ∧
    ev m t = wrap (domain_size a) (den (free_world m st) k).
Proof using Hst HL.
  intros Hc Hwf HE. unfold _map_key_z3 in HE. apply bind_Ok in HE as (t1 & Hk & HE).
  apply bind_Ok in HE as ([p a] & Hcell & HE). injection HE as <-.
  pose proof (domain_pos a). exists p, a.
  by rewrite resize_size, resize_ev, (expr_ev _ _ Hc Hwf Hk).
Qed.

(** [contain_map_value] is true exactly when the map holds the key (below its
    size for array-like maps), or, with [result=False], exactly when it does
    not. *)
Theorem contain_value_sound map_id k key_id result g i :
  map_id = Some i → 0 <= i → k ≠ VNone → coherent (nodes k) → val_wf k →
  cond_to_z3 st (CContain map_id k key_id result) = Ok g →
  evg m g = Bool.eqb result
    (map_contains m st (λ _ _ _ _, true) map_id true (den (free_world m st) k) key_id).
Proof using Hst HL.
  intros -> Hi Hk Hc Hwf HE. cbn [cond_to_z3] in HE. apply bind_Ok in HE as (t & HE & Hg).
  injection Hg as <-. simpl. unfold contain_z3 in HE. unfold map_contains.
  assert (is_none k = false) as Hkn by (by destruct k). rewrite Hkn in HE.
  rewrite (proj2 (Z.ltb_ge i 0) Hi) in HE |- *. simpl negb in HE |- *.
  cbv beta iota delta [orb] in HE |- *.
  destruct (plain_free _ Hst) as (_ & _ & _ & _ & _ & Hr). rewrite Hr in HE |- *.
  fold (orb (_is_array_map st (Some i)) (_is_prog_map st (Some i))) in HE |- *.
  destruct (orb (_is_array_map st (Some i)) (_is_prog_map st (Some i))) eqn:Ea;
    apply bind_Ok in HE as (key & Hkey & HE);
    destruct (contain_key_sound _ _ _ Hc Hwf Hkey) as (p & a & Hcell & Hs & He);
    pose proof (domain_pos a); rewrite Hcell; rewrite ?Hcell in HE; res_inv.
  - unfold _map_info in E. rewrite (proj2 (Z.ltb_ge i 0) Hi) in E. rewrite E.
    assert (evb m (ULT key (BitVecVal (mi_max_entries v) (size key))) =
      (wrap (domain_size a) (den (free_world m st) k) <? wrap (domain_size a) (mi_max_entries v)))
      as Hu by (rewrite evb_ULT, He, ev_BitVecVal, Hs by (rewrite ?size_BitVecVal; lia); done).
    destruct result; rewrite ?evb_Not, Hu; by case (Z.ltb _ _).
  - rewrite evb_beq, evb_BoolVal, evb_PSelect, He. by destruct (evp _ _ _), result.
Qed.

(** An adjust helper's outcome: the negated conditions are complementary. *)
Lemma adjust_complement idx r g g' : 0 <= idx →
  cond_to_z3 st (CAdjust r idx) = Ok g → cond_to_z3 st (CAdjust (negb r) idx) = Ok g' →
  evg m g' = negb (evg m g).
Proof using HL.
  intros Hi Hg Hg'. cbn [cond_to_z3] in *. rewrite (proj2 (Z.ltb_ge idx 0) Hi) in *.
  injection Hg as <-. injection Hg' as <-. destruct r; simpl; rewrite ?evb_Not, ?negb_involutive; done.
Qed.
End conditions.

Lemma init_plain `{SMTLaws} maps : plain_state (_make_init_state maps).
Proof.
  split; [apply init_state_ok| |repeat split].
  repeat split; simpl; rewrite size_BitVec; lia.
Qed.

Lemma condition_sound_witness :
  ∃ g, cond_to_z3 ex_st (CCond JSGT ex_load (VNum 9 (-1) 8 (-1)) false) = Ok g ∧
  _jmp_taken JSGT (den (free_world ex_model ex_st) ex_load)
    (den (free_world ex_model ex_st) (VNum 9 (-1) 8 (-1))) false = Ok (evg ex_model g).
Proof.
  eexists. split; [reflexivity|].
  apply (@condition_sound z3 z3_laws ex_model ex_st (init_plain ex_maps)).
  - split; [|by repeat constructor|exists 2; by split].
    intros x y Hx Hy Ha. apply list_elem_of_In in Hx. cbn in Hx.
    repeat destruct Hx as [<- | Hx]; done.
  - split; [|by repeat constructor|exists 8; by split].
    intros x y Hx Hy Ha. apply list_elem_of_In in Hx. cbn in Hx.
    repeat destruct Hx as [<- | Hx]; done.
  - reflexivity.
  - reflexivity.
Defined.

Lemma contain_value_sound_witness :
  ∃ g, cond_to_z3 ex_st (CContain (Some 0) (VNum 7 1 4 (-1)) (Some 5) false) = Ok g ∧
  evg ex_model g = Bool.eqb false (map_contains ex_model ex_st (λ _ _ _ _, true) (Some 0) true
    (den (free_world ex_model ex_st) (VNum 7 1 4 (-1))) (Some 5)).
Proof.
  eexists. split; [reflexivity|].
  apply (@contain_value_sound z3 z3_laws ex_model ex_st (init_plain ex_maps) _ _ _ _ _ 0);
    try reflexivity; try done.
  - intros x y Hx Hy Ha. apply list_elem_of_In in Hx. cbn in Hx.
    repeat destruct Hx as [<- | Hx]; done.
  - by repeat constructor.
Defined.
