(* ===== verification/ActionSound.v ===== *)
(** The encoding of actions is sound: what [to_z3] of a packet, map or global
    write does to the memory of a model. *)

From S2P Require Import Prelude Constants Smt SmtTerm Expr Denote Branch Record Link Encode.
From S2P Require Import Words Action Bits Alu EncodeSound CondSound.

Section splice.
Context `{HL : SMTLaws}.
Implicit Types (m : model) (t : bv).

Lemma ev_testbit_high m t i : size t <= i → Z.testbit (ev m t) i = false.
Proof. intros. pose proof (size_pos t). eapply testbit_high; [apply ev_range|lia]. Qed.

Lemma splice_bytes_sound m cur off n v r :
  0 <= off → 0 < n → _splice_bytes cur off n v = Ok r →
  size r = size cur ∧ spliced (size cur) (ev m cur) (off * 8) n (ev m v) (ev m r).
Proof.
  intros Ho Hn HE. unfold _splice_bytes in HE. cbv zeta in HE.
  pose proof (size_pos cur) as Hc. pose proof (ev_range m cur) as Hcr.
  destruct (Z.leb_spec (size cur) (off * 8)).
  { injection HE as <-. split; [done|]. split; [done|]. intros i Hi.
    destruct (Z.leb_spec (off * 8) i); [lia|done]. }
  set (W := size cur) in *. set (lo := off * 8) in *. set (hi := Z.min ((off + n) * 8) W) in *.
  set (v' := _resize v (hi - lo)) in *.
  assert (size v' = hi - lo) as Hv by (apply resize_size; lia).
  assert (ev m v' = wrap (hi - lo) (ev m v)) as Hve by (apply resize_ev; lia).
  set (L := if 0 <? lo then [Extract (lo - 1) 0 cur] else []) in *.
  assert (∃ l, 0 <= l < 2 ^ lo ∧ l = wrap lo (ev m cur) ∧
    concat_val (map (λ t, (size t, ev m t)) (v' :: L)) = (hi, ev m v' * 2 ^ lo + l)
    ∧ concat_val (map (λ t, (size t, 0)) (v' :: L)) = (hi, 0)) as (l & Hl & Hle & HcL & HsL).
  { unfold L. destruct (Z.ltb_spec 0 lo).
    - exists (wrap lo (ev m cur)). split; [apply wrap_range; lia|]. split; [done|].
      pose proof (extract_size (lo - 1) 0 cur lo ltac:(lia) ltac:(lia) ltac:(lia) ltac:(lia)) as Hs.
      pose proof (extract_ev m (lo - 1) 0 cur lo ltac:(lia) ltac:(lia) ltac:(lia) ltac:(lia)) as He.
      rewrite Z.div_1_r in He. cbn. rewrite Hs, He, Hv, !Z.add_0_r, Z.mul_1_r.
      split; f_equal; lia.
    - assert (lo = 0) as Hlo0 by lia. exists 0. rewrite Hlo0. cbn.
      rewrite Hv. split; [lia|]. split; [by unfold wrap; rewrite Z.mod_1_r|].
      split; f_equal; lia. }
  assert (size r = W ∧ ev m r = ev m cur / 2 ^ hi * 2 ^ hi + (ev m v' * 2 ^ lo + l)) as [Hrs Hre].
  { destruct (Z.ltb_spec hi W) as [Hh | Hh]; simpl app in HE.
    - pose proof (extract_size (W - 1) hi cur (W - hi) ltac:(lia) ltac:(lia) ltac:(lia) ltac:(lia)) as Hs.
      pose proof (extract_ev m (W - 1) hi cur (W - hi) ltac:(lia) ltac:(lia) ltac:(lia) ltac:(lia)) as He.
      assert (r = Concat (Extract (W - 1) hi cur :: v' :: L)) as -> by (simpl in HE; congruence).
      rewrite size_Concat, ev_Concat by (simpl; lia).
      change (map ?f (?a :: ?b)) with (f a :: map f b). cbn [concat_val].
      rewrite HcL, HsL, Hs, He. cbn [fst snd]. split; [lia|]. do 2 f_equal.
      apply wrap_small. split; [apply Z.div_pos; [lia|by apply pow2_pos; lia]|].
      apply Z.div_lt_upper_bound; [apply pow2_pos; lia|]. rewrite <- Z.pow_add_r by lia.
      replace (hi + (W - hi)) with W by lia. lia.
    - assert (hi = W) as Heq by lia.
      assert (ev m cur / 2 ^ hi = 0) as -> by (rewrite Heq; by apply Z.div_small).
      rewrite Z.mul_0_l, Z.add_0_l. unfold concat_or in HE. unfold L in *.
      destruct (0 <? lo).
      + assert (r = Concat [v'; Extract (lo - 1) 0 cur]) as -> by (simpl in HE; congruence).
        rewrite size_Concat, ev_Concat by (simpl; lia). rewrite HcL, HsL. simpl. lia.
      + assert (r = v') as -> by (simpl in HE; congruence). cbn in HcL.
        injection HcL as H1 H2. split; lia. }
  split; [done|]. split; [rewrite <- Hrs; apply ev_range|]. intros i Hi.
  assert (0 <= ev m v' * 2 ^ lo + l < 2 ^ hi) as Hlow.
  { pose proof (wrap_range (hi - lo) (ev m v) ltac:(lia)) as Hvr. rewrite <- Hve in Hvr.
    replace (2 ^ hi) with (2 ^ (hi - lo) * 2 ^ lo) by
      (rewrite <- Z.pow_add_r by lia; f_equal; lia). nia. }
  rewrite Hre, testbit_concat by lia. rewrite testbit_concat by lia.
  rewrite Hle, testbit_wrap by lia.
  assert (hi = Z.min (lo + 8 * n) W) by (unfold hi, lo; lia).
  destruct (Z.ltb_spec i hi), (Z.ltb_spec i lo), (Z.leb_spec lo i),
    (Z.ltb_spec i (lo + 8 * n)); cbn [andb]; try lia; try done.
  - rewrite Hve, testbit_wrap by lia. by rewrite (proj2 (Z.ltb_lt (i - lo) (hi - lo))) by lia.
  - rewrite Z.div_pow2_bits by lia. f_equal. lia.
Qed.

Lemma splice_bytes_var_sound m cur base n v : 0 < n → 8 <= size cur → size base = size cur →
  let r := _splice_bytes_var cur base n v in
  size r = size cur ∧
  spliced (size cur) (ev m cur) (wrap (size cur) (8 * ev m base)) n (ev m v) (ev m r).
Proof.
  intros Hn Hc Hb r. set (W := size cur) in *.
  destruct (shift_of_ev m W base Hc Hb) as [He Hs].
  set (s := wrap W (8 * ev m base)) in *.
  assert (0 <= s < 2 ^ W) as Hsr by (apply wrap_range; lia).
  set (sh := shift_of base W) in *.
  set (mk := bvshl (_resize (BitVecVal (mask (n * 8)) (n * 8)) W) sh).
  assert (size mk = W) as Hms by (unfold mk; rewrite size_bvshl; rewrite resize_size; lia).
  assert (∀ i, 0 <= i < W → Z.testbit (ev m mk) i = (s <=? i) && (i <? s + 8 * n)) as Hmb.
  { intros i Hi. unfold mk. rewrite ev_bvshl, He, resize_size, resize_ev, ev_BitVecVal
      by (rewrite ?resize_size; lia).
    rewrite testbit_wrap, (proj2 (Z.ltb_lt i W)), Z.mul_pow2_bits by lia. cbn [andb].
    destruct (Z.leb_spec s i); cbn [andb]; [|by apply Z.testbit_neg_r; lia].
    rewrite !testbit_wrap, (proj2 (Z.ltb_lt (i - s) W)) by lia. cbn [andb].
    rewrite mask_eq by lia.
    destruct (Z.ltb_spec (i - s) (n * 8)), (Z.ltb_spec i (s + 8 * n)); try lia; cbn [andb];
      rewrite ?Z.ones_spec_low by lia; done. }
  set (pv := bvand (bvshl (_resize v W) sh) mk).
  assert (size (bvshl (_resize v W) sh) = W) as Hvs
    by (rewrite size_bvshl; rewrite resize_size; lia).
  assert (size pv = W) as Hps by (unfold pv; rewrite size_bvand; congruence).
  assert (∀ i, 0 <= i < W → Z.testbit (ev m pv) i =
            (s <=? i) && (i <? s + 8 * n) && Z.testbit (ev m v) (i - s)) as Hpb.
  { intros i Hi. unfold pv. rewrite ev_bvand, Z.land_spec, Hmb by congruence || lia.
    rewrite ev_bvshl, He, resize_size, resize_ev by (rewrite ?resize_size; lia).
    rewrite testbit_wrap, (proj2 (Z.ltb_lt i W)), Z.mul_pow2_bits by lia. cbn [andb].
    destruct (Z.leb_spec s i); cbn [andb]; [|apply andb_false_r].
    rewrite testbit_wrap, (proj2 (Z.ltb_lt (i - s) W)) by lia. cbn [andb]. apply andb_comm. }
  assert (size (bvand cur (bvnot mk)) = W) as Hks
    by (rewrite size_bvand; rewrite ?size_bvnot; done).
  assert (r = bvor (bvand cur (bvnot mk)) pv) as -> by done.
  assert (size (bvor (bvand cur (bvnot mk)) pv) = W) as Hrs by (rewrite size_bvor; congruence).
  split; [done|]. split; [rewrite <- Hrs; apply ev_range|]. intros i Hi.
  rewrite ev_bvor, Z.lor_spec, Hpb by congruence || lia.
  rewrite ev_bvand, Z.land_spec by (rewrite size_bvnot; done).
  assert (Z.testbit (ev m (bvnot mk)) i = negb (Z.testbit (ev m mk) i)) as ->.
  { rewrite ev_bvnot, Hms. pose proof (ev_range m mk) as Hmr. rewrite Hms in Hmr.
    replace (2 ^ W - 1 - ev m mk) with (Z.ones W - ev m mk) by (rewrite Z.ones_equiv; lia).
    rewrite Z.sub_nocarry_ldiff, Z.ldiff_spec, Z.ones_spec_low by (apply ldiff_ones; lia) || lia.
    done. }
  rewrite Hmb by lia. destruct (Z.leb_spec s i), (Z.ltb_spec i (s + 8 * n)); cbn [andb negb];
    rewrite ?andb_false_r, ?andb_true_r, ?orb_false_r; done.
Qed.
End splice.

(** ** Actions *)

Lemma py_setitem_at {A} (l : list A) i x y : 0 <= i → py_index l i = Ok x →
  py_setitem l i y = Ok (<[Z.to_nat i := y]> l).
Proof.
  intros Hi Hx. unfold py_setitem. pose proof Hx as Hl. apply py_index_Ok in Hl; [|done].
  apply lookup_lt_Some in Hl. rewrite (proj2 (Z.ltb_ge i 0)) by done. cbv zeta.
  rewrite (proj2 (Z.ltb_ge i 0)), (proj2 (Z.leb_gt _ i)) by lia. done.
Qed.

Section actions.
Context `{HL : SMTLaws} (m : model) (st : Z3State).
Hypothesis Hst : plain_state st.
Let w := free_world m st.

Lemma ev_w e t : coherent (nodes e) → val_wf e → expr_z3 st e = Ok t → ev m t = den w e.
Proof using Hst HL. by apply expr_ev. Qed.

Lemma write_base_sound off wd v t : 0 < wd → coherent (nodes v) → val_wf v →
  write_base st off wd v = Ok t → size t = wd ∧ ev m t = wrap wd (off + den w v).
Proof using Hst HL.
  intros Hw Hc Hwf HE. unfold write_base in HE. destruct (is_none v) eqn:En.
  - destruct v; try done. injection HE as <-. simpl. rewrite Z.add_0_r.
    by rewrite size_BitVecVal, ev_BitVecVal.
  - apply bind_Ok in HE as (t1 & Ht & HE). injection HE as <-.
    rewrite base_size, base_ev, (ev_w _ _ Hc Hwf Ht) by done.
    split; [done|]. f_equal. unfold w. lia.
Qed.

(** A packet store writes exactly its bytes: afterwards every address inside
    [off + var_off, +size) (modulo the 16-bit address space) holds the
    corresponding little-endian byte of the value, every other address what it
    held before, and nothing else of the state changes. *)
Theorem pkt_write_sound blk idx id off var_off sz value st' :
  coherent (nodes var_off) → val_wf var_off → coherent (nodes value) → val_wf value →
  0 < sz <= 2 ^ domain_size (z_pkt st) →
  action_to_z3 st (mk_action blk idx (PktWrite id off var_off sz value)) = Ok st' →
  ∃ arr, st' = set_pkt arr st ∧ ∀ a, 0 <= a < 2 ^ domain_size (z_pkt st) →
    eva m arr a =
      let i := wrap (domain_size (z_pkt st)) (a - (off + den w var_off)) in
      if i <? sz then wrap 8 (den w value / 2 ^ (8 * i)) else eva m (z_pkt st) a.
Proof using Hst HL.
  intros Hcv Hwv Hcx Hwx Hsz HE. cbn in HE. unfold pkt_write_z3 in HE. cbv zeta in HE.
  apply bind_Ok in HE as (base & Hb & HE). apply bind_Ok in HE as (t & Ht & HE).
  injection HE as <-. eexists. split; [done|]. intros a Ha.
  apply write_base_sound in Hb as [Hbs Hbe]; [|apply domain_pos|done..].
  pose proof (domain_pos (z_pkt st)).
  rewrite (store_bytes_eva m _ _ (domain_size (z_pkt st)))
    by (done || apply (pkt_bytes _ (plain_ok _ Hst)) || (rewrite resize_size; lia)).
  cbv zeta. rewrite Hbe, <- wrap_sub, wrap_wrap, wrap_sub by lia.
  set (i := wrap _ _). destruct (Z.ltb_spec i sz); [|done].
  assert (0 <= i) by (apply wrap_range; lia).
  rewrite resize_ev, (ev_w _ _ Hcx Hwx Ht) by lia. by apply byte_of_wrap.
Qed.

(** The common part of the map actions: map [i] keeps its presence array [p] and
    its value array becomes [a']. *)
Definition map_set (i : Z) (p' : parr) (a' : barr) : Z3State :=
  set_map (<[Z.to_nat i := (p', a')]> (z_map st)) st.

Lemma map_store_sound i key v mark p a st' : 0 <= i → py_index (z_map st) i = Ok (p, a) →
  _map_store st i key v mark = Ok st' →
  st' = map_set i (if mark && _is_hash_map st (Some i) then PStore p key (BoolVal true) else p)
          (Store a key v).
Proof.
  intros Hi Hc HE. unfold _map_store in HE. rewrite Hc in HE. cbn in HE.
  rewrite (py_setitem_at _ _ _ _ Hi Hc) in HE. by injection HE as <-.
Qed.

(** The bit offset of a field of a map value. *)
Definition field_bit (wd off : Z) (var_off : val) : Z :=
  if is_none var_off then 8 * off else wrap wd (8 * wrap wd (off + den w var_off)).

(** C11 A store through a map-value pointer changes only the value of its own
    key, and of that value only the bytes written: for a fixed or a variable
    offset the new value is the old one with [size] bytes spliced in. *)
Theorem map_write_sound blk idx i k off sz value var_off st' :
  0 <= i → 0 <= off → 0 < sz →
  coherent (nodes k) → val_wf k → coherent (nodes value) → val_wf value →
  coherent (nodes var_off) → val_wf var_off →
  action_to_z3 st (mk_action blk idx (MapWrite (Some i) k off sz value var_off)) = Ok st' →
  ∃ p a a', map_cell st (Some i) = Ok (p, a) ∧ st' = map_set i p a' ∧
    let key := wrap (domain_size a) (den w k) in
    spliced (range_size a) (eva m a key) (field_bit (range_size a) off var_off) sz
      (den w value) (eva m a' key) ∧
    ∀ j, j ≠ key → eva m a' j = eva m a j.
Proof using Hst HL.
  intros Hi Ho Hsz Hck Hwk Hcx Hwx Hcv Hwv HE. cbn in HE. unfold on_map in HE.
  rewrite (proj2 (Z.ltb_ge i 0) Hi) in HE. unfold map_write_z3 in HE.
  apply bind_Ok in HE as (key & Hkey & HE).
  apply (contain_key_sound m st Hst) in Hkey as (p & a & Hcell & Hks & Hke); [|done..].
  apply bind_Ok in HE as ([p2 a2] & Hc & HE).
  assert ((p2, a2) = (p, a)) as [= -> ->] by (unfold map_cell in Hcell; simpl in Hcell; congruence).
  apply bind_Ok in HE as (x & Hx & HE). apply bind_Ok in HE as (nv & Hnv & HE).
  apply (map_store_sound _ _ _ _ _ _ _ Hi Hc) in HE. cbn [andb] in HE.
  exists p, a, (Store a key nv). split; [done|]. split; [done|]. fold w in Hke.
  pose proof (size_Select a key Hks) as Hcs. pose proof (ev_Select m a key Hks) as Hce.
  rewrite <- Hke. pose proof (map_sorts _ (plain_ok _ Hst) _ _ _ Hcell) as H8.
  assert (size nv = range_size a ∧ spliced (range_size a) (eva m a (ev m key))
    (field_bit (range_size a) off var_off) sz (den w value) (ev m nv)) as [Hns Hsp].
  { unfold field_bit. rewrite <- Hcs, <- Hce.
    rewrite <- (ev_w _ _ Hcx Hwx Hx).
    destruct (is_none var_off) eqn:En; cbn [negb] in Hnv; cbv beta iota in Hnv.
    - rewrite (Z.mul_comm 8). by apply splice_bytes_sound.
    - apply bind_Ok in Hnv as (base & Hb & Hnv). injection Hnv as <-.
      apply write_base_sound in Hb as [Hbs Hbe]; [|lia|done..].
      rewrite <- Hbe. apply splice_bytes_var_sound; [done|lia|done]. }
  split.
  - rewrite eva_Store by done. by rewrite Z.eqb_refl.
  - intros j Hj. rewrite eva_Store by done. by rewrite (proj2 (Z.eqb_neq j _)) by done.
Qed.

(** Whether an update applies, given whether the key is present. *)
Definition applies (flags : option Z) (idx : Z) (present : bool) : bool :=
  match flags with
  | None => evb m (Bool (update_name idx))
  | Some f =>
      if Z.land f 3 =? 0 then true
      else if Z.land f 3 =? 1 then negb present
      else if Z.land f 3 =? 2 then present
      else false
  end.

Lemma update_applies_sound flags idx present :
  evg m (update_applies flags idx present) = applies flags idx (evb m present).
Proof using HL.
  unfold update_applies, applies. destruct flags as [f|]; [|done]. cbv zeta.
  unfold BPF_ANY, BPF_NOEXIST, BPF_EXIST.
  repeat destruct (_ =? _); simpl; rewrite ?evb_Not; done.
Qed.

Lemma map_set_cell i p a p' a' : 0 <= i → py_index (z_map st) i = Ok (p, a) →
  map_cell (map_set i p' a') (Some i) = Ok (p', a').
Proof.
  intros Hi Hc. unfold map_cell. cbn. apply py_index_Ok; [done|].
  apply py_index_Ok, lookup_lt_Some in Hc; [|done]. by rewrite list_lookup_insert_eq.
Qed.

(** The presence term an update tests. *)
Definition update_present (i : Z) (key : bv) (p : parr) : res bl :=
  match _map_info st (Some i) with
  | Some info =>
      if _is_array_map st (Some i) || _is_prog_map st (Some i)
      then Ok (ULT key (BitVecVal (mi_max_entries info) (size key)))
      else Ok (PSelect p key)
  | None => Ok (PSelect p key)
  end.

Lemma present_sound i k key pres p a : 0 <= i → map_cell st (Some i) = Ok (p, a) →
  size key = domain_size a → ev m key = wrap (domain_size a) (den w k) →
  update_present i key p = Ok pres →
  evb m pres = map_contains m st (λ _ _ _ _, true) (Some i) true (den w k) None.
Proof using Hst HL.
  intros Hi Hc Hs He HE. unfold update_present in HE. unfold map_contains.
  rewrite (proj2 (Z.ltb_ge i 0) Hi), Hc. cbn [negb orb].
  destruct (plain_free _ Hst) as (_ & _ & _ & _ & _ & ->). rewrite <- He.
  pose proof (domain_pos a).
  destruct (_is_array_map st (Some i) || _is_prog_map st (Some i)) eqn:Ea.
  - destruct (_map_info st (Some i)) as [info|] eqn:Ei.
    + injection HE as <-. rewrite evb_ULT, ev_BitVecVal, Hs by (rewrite ?size_BitVecVal; lia). done.
    + unfold _is_array_map, _is_prog_map, has_type in Ea. by rewrite Ei in Ea.
  - destruct (_map_info st (Some i)); injection HE as <-; apply evb_PSelect.
Qed.

(** In a hash map the presence test reads the presence array. *)
Lemma present_hash i key pres p : _is_hash_map st (Some i) = true →
  update_present i key p = Ok pres → evb m pres = evp m p (ev m key).
Proof using HL.
  intros Hh HE. unfold update_present in HE.
  unfold _is_hash_map, _is_array_map, _is_prog_map, has_type in *.
  destruct (_map_info st (Some i)) as [info|]; [|done].
  assert (existsb (Z.eqb (mi_type info)) ARRAY_MAP_TYPES || existsb (Z.eqb (mi_type info)) PROG_MAP_TYPES
          = false) as Hn.
  { revert Hh. unfold ARRAY_MAP_TYPES, PROG_MAP_TYPES, HASH_MAP_TYPES. simpl.
    unfold BPF_MAP_TYPE_HASH, BPF_MAP_TYPE_ARRAY, BPF_MAP_TYPE_PERCPU_HASH,
      BPF_MAP_TYPE_PERCPU_ARRAY, BPF_MAP_TYPE_LRU_HASH, BPF_MAP_TYPE_LRU_PERCPU_HASH,
      BPF_MAP_TYPE_PROG_ARRAY.
    rewrite !orb_true_iff, !orb_false_iff, !Z.eqb_eq, !Z.eqb_neq. intros. lia. }
  rewrite Hn in HE. injection HE as <-. apply evb_PSelect.
Qed.

(** C12 [bpf_map_update_elem] obeys its flags. BPF_ANY always writes, BPF_NOEXIST
    only an absent key, BPF_EXIST only a present one (a key of an array is
    present when it is in bounds); when the update applies, the key's value is
    the new one and, in a hash map, the key is present afterwards; when it does
    not, the map is unchanged; other keys never change. *)
Theorem map_update_sound blk idx i k value flags off sz st' :
  0 <= i → coherent (nodes k) → val_wf k → coherent (nodes value) → val_wf value →
  action_to_z3 st (mk_action blk idx (MapUpdate (Some i) k value flags off sz)) = Ok st' →
  ∃ p a p' a', map_cell st (Some i) = Ok (p, a) ∧ map_cell st' (Some i) = Ok (p', a') ∧
    let key := wrap (domain_size a) (den w k) in
    let present := map_contains m st (λ _ _ _ _, true) (Some i) true (den w k) None in
    eva m a' key = (if applies flags idx present then wrap (range_size a) (den w value)
                    else eva m a key) ∧
    evp m p' key = (if _is_hash_map st (Some i) && applies flags idx present then true
                    else evp m p key) ∧
    ∀ j, j ≠ key → eva m a' j = eva m a j ∧ evp m p' j = evp m p j.
Proof using Hst HL.
  intros Hi Hck Hwk Hcx Hwx HE. cbn in HE. unfold on_map in HE.
  rewrite (proj2 (Z.ltb_ge i 0) Hi) in HE. unfold map_update_z3 in HE.
  apply bind_Ok in HE as (key & Hkey & HE).
  apply (contain_key_sound m st Hst) in Hkey as (p & a & Hcell & Hks & Hke); [|done..].
  apply bind_Ok in HE as (x & Hx & HE).
  apply bind_Ok in HE as ([p2 a2] & Hc & HE).
  assert ((p2, a2) = (p, a)) as [= -> ->] by (unfold map_cell in Hcell; simpl in Hcell; congruence).
  apply bind_Ok in HE as (pres & Hpres & HE). exists p, a. cbv zeta. fold w in Hke.
  rewrite <- (present_sound i k key pres p a Hi Hcell Hks Hke Hpres).
  rewrite <- update_applies_sound, <- Hke.
  assert (size (_resize x (range_size a)) = range_size a ∧
          ev m (_resize x (range_size a)) = wrap (range_size a) (den w value)) as [Hxs Hxe].
  { pose proof (range_pos a). rewrite resize_size, resize_ev by done.
    by rewrite (ev_w _ _ Hcx Hwx Hx). }
  destruct (update_applies flags idx pres) as [[] | ok]; cbn [evg].
  - apply (map_store_sound _ _ _ _ _ _ _ Hi Hc) in HE as ->. cbn [andb].
    eexists _, _. split; [done|]. split; [by eapply map_set_cell|].
    rewrite andb_true_r. split_and!.
    + by rewrite eva_Store, Z.eqb_refl.
    + destruct (_is_hash_map st (Some i)); [|done]. by rewrite evp_PStore, Z.eqb_refl, evb_BoolVal.
    + intros j Hj. rewrite eva_Store by done. rewrite (proj2 (Z.eqb_neq j _)) by done.
      destruct (_is_hash_map st (Some i)); [|done].
      by rewrite evp_PStore, (proj2 (Z.eqb_neq j _)).
  - injection HE as <-. rewrite andb_false_r. by exists p, a.
  - apply bind_Ok in HE as (mp & Hmp & HE). injection HE as <-.
    rewrite (py_setitem_at _ _ _ _ Hi Hc) in Hmp. injection Hmp as <-.
    eexists _, _. split; [done|]. split; [by eapply map_set_cell|].
    assert (size (IfBV ok (_resize x (range_size a)) (Select a key)) = range_size a) as Hifs
      by (rewrite size_IfBV; rewrite ?size_Select; congruence).
    split_and!.
    + rewrite eva_Store, Z.eqb_refl by done.
      rewrite ev_IfBV, ev_Select, Hxe by (rewrite ?size_Select; congruence). done.
    + destruct (_is_hash_map st (Some i)) eqn:Eh; [|done].
      rewrite evp_PStore, Z.eqb_refl, evb_Or. simpl. rewrite orb_false_r.
      destruct (evb m ok); [done|]. cbn [orb andb].
      by eapply present_hash.
    + intros j Hj. rewrite eva_Store by done. rewrite (proj2 (Z.eqb_neq j _)) by done.
      destruct (_is_hash_map st (Some i)); [|done].
      by rewrite evp_PStore, (proj2 (Z.eqb_neq j _)).
Qed.

(** A store to a global writes exactly its bytes of the symbol's array, which
    starts as zeroes, and touches no other symbol. *)
Theorem bss_write_sound blk idx key off sz value var_off st' :
  coherent (nodes var_off) → val_wf var_off → coherent (nodes value) → val_wf value →
  0 < sz <= 2 ^ BSS_ADDR_BITS →
  action_to_z3 st (mk_action blk idx (BssWrite (Some key) off sz value var_off)) = Ok st' →
  (∀ other, other ≠ Some key → _bss_of st' other = _bss_of st other) ∧
  ∀ a, 0 <= a < 2 ^ BSS_ADDR_BITS →
    eva m (_bss_of st' (Some key)) a =
      let i := wrap BSS_ADDR_BITS (a - (off + den w var_off)) in
      if i <? sz then wrap 8 (den w value / 2 ^ (8 * i)) else eva m (_bss_of st (Some key)) a.
Proof using Hst HL.
  intros Hcv Hwv Hcx Hwx Hsz HE. cbn in HE.
  apply bind_Ok in HE as (base & Hb & HE). apply bind_Ok in HE as (t & Ht & HE).
  injection HE as <-. split.
  - intros other Ho. unfold _bss_of. cbn. rewrite pget_pset. by rewrite decide_False.
  - intros a Ha. destruct (bss_of_sorts st (plain_ok _ Hst) (Some key)) as [Hd Hr].
    apply write_base_sound in Hb as [Hbs Hbe]; [|done..].
    unfold _bss_of at 1. cbn. rewrite pget_pset, decide_True by done. cbn.
    fold (_bss_of st (Some key)). replace (sz `max` 1) with sz by lia.
    rewrite (store_bytes_eva m _ _ BSS_ADDR_BITS) by (done || (rewrite resize_size; lia)).
    cbv zeta. rewrite Hbe, <- wrap_sub, wrap_wrap, wrap_sub by (unfold BSS_ADDR_BITS; lia).
    set (i := wrap _ _). destruct (Z.ltb_spec i sz); [|done].
    assert (0 <= i) by (apply wrap_range; unfold BSS_ADDR_BITS; lia).
    rewrite resize_ev, (ev_w _ _ Hcx Hwx Ht) by lia. by apply byte_of_wrap.
Qed.

Lemma map_delete_sound blk idx i k st' : 0 <= i → coherent (nodes k) → val_wf k →
  _is_hash_map st (Some i) = true →
  action_to_z3 st (mk_action blk idx (MapDelete (Some i) k)) = Ok st' →
  ∃ p a p', map_cell st (Some i) = Ok (p, a) ∧ map_cell st' (Some i) = Ok (p', a) ∧
    let key := wrap (domain_size a) (den w k) in
    ∀ j, evp m p' j = if j =? key then false else evp m p j.
Proof using Hst HL.
  intros Hi Hc Hw Hh HE. cbn in HE. unfold on_map, map_delete_z3 in HE.
  rewrite (proj2 (Z.ltb_ge i 0) Hi), Hh in HE. cbn [negb] in HE.
  apply bind_Ok in HE as (key & Hkey & HE).
  apply (contain_key_sound m st Hst) in Hkey as (p & a & Hcell & Hks & Hke); [|done..].
  apply bind_Ok in HE as ([p2 a2] & Hcl & HE).
  assert ((p2, a2) = (p, a)) as [= -> ->] by (unfold map_cell in Hcell; simpl in Hcell; congruence).
  apply bind_Ok in HE as (mp & Hmp & HE). injection HE as <-.
  rewrite (py_setitem_at _ _ _ _ Hi Hcl) in Hmp. injection Hmp as <-.
  exists p, a, (PStore p key (BoolVal false)). split; [done|].
  split; [by eapply map_set_cell|]. cbv zeta. fold w in Hke. intros j.
  by rewrite evp_PStore, evb_BoolVal, Hke.
Qed.
End actions.

(** ** Examples *)

Lemma coherent_leaf v : nodes v = [v] → coherent (nodes v).
Proof.
  intros -> x y Hx Hy _ _ _. by apply list_elem_of_singleton in Hx as ->, Hy as ->.
Qed.

Ltac leaf := first [ apply coherent_leaf; reflexivity | by repeat constructor
                   | reflexivity | done | cbn; lia ].

Definition ex_val : val := VNum 1 0x1234 8 (-1).
Definition ex_key : val := VNum 2 3 4 (-1).
Definition ex_plain : plain_state ex_st := init_plain ex_maps.

Lemma pkt_write_sound_witness : ∃ st',
  action_to_z3 ex_st (mk_action 0 5 (PktWrite 0 12 VNone 2 ex_val)) = Ok st' ∧
  ∃ arr, st' = set_pkt arr ex_st ∧ ∀ a, 0 <= a < 2 ^ 16 →
    eva ex_model arr a =
      let i := wrap 16 (a - (12 + 0)) in
      if i <? 2 then wrap 8 (0x1234 / 2 ^ (8 * i)) else eva ex_model (z_pkt ex_st) a.
Proof.
  eexists. split; [reflexivity|].
  apply (@pkt_write_sound z3 z3_laws ex_model ex_st ex_plain 0 5 0 12 VNone 2 ex_val); leaf.
Defined.

Lemma map_write_sound_witness : ∃ st',
  action_to_z3 ex_st (mk_action 0 5 (MapWrite (Some 0) ex_key 4 2 ex_val VNone)) = Ok st' ∧
  ∃ p a a', map_cell ex_st (Some 0) = Ok (p, a) ∧ st' = map_set ex_st 0 p a' ∧
    let key := wrap (domain_size a) 3 in
    spliced (range_size a) (eva ex_model a key) 32 2 0x1234 (eva ex_model a' key) ∧
    ∀ j, j ≠ key → eva ex_model a' j = eva ex_model a j.
Proof.
  eexists. split; [reflexivity|].
  apply (@map_write_sound z3 z3_laws ex_model ex_st ex_plain 0 5 0 ex_key 4 2 ex_val VNone); leaf.
Defined.

Lemma map_update_sound_witness : ∃ st',
  action_to_z3 ex_st (mk_action 0 5 (MapUpdate (Some 0) ex_key ex_val (Some 1) 0 8)) = Ok st' ∧
  ∃ p a p' a', map_cell ex_st (Some 0) = Ok (p, a) ∧ map_cell st' (Some 0) = Ok (p', a') ∧
    let key := wrap (domain_size a) 3 in
    let present := map_contains ex_model ex_st (λ _ _ _ _, true) (Some 0) true 3 None in
    eva ex_model a' key = (if applies ex_model (Some 1) 5 present
                           then wrap (range_size a) 0x1234 else eva ex_model a key) ∧
    evp ex_model p' key = (if _is_hash_map ex_st (Some 0) && applies ex_model (Some 1) 5 present
                           then true else evp ex_model p key) ∧
    ∀ j, j ≠ key → eva ex_model a' j = eva ex_model a j ∧ evp ex_model p' j = evp ex_model p j.
Proof.
  eexists. split; [reflexivity|].
  apply (@map_update_sound z3 z3_laws ex_model ex_st ex_plain 0 5 0 ex_key ex_val (Some 1) 0 8);
    leaf.
Defined.

Lemma bss_write_sound_witness : ∃ st',
  action_to_z3 ex_st (mk_action 0 5 (BssWrite (Some "ctr"%string) 0 4 ex_val VNone)) = Ok st' ∧
  (∀ other, other ≠ Some "ctr"%string → _bss_of st' other = _bss_of ex_st other) ∧
  ∀ a, 0 <= a < 2 ^ 16 →
    eva ex_model (_bss_of st' (Some "ctr"%string)) a =
      let i := wrap 16 (a - (0 + 0)) in
      if i <? 4 then wrap 8 (0x1234 / 2 ^ (8 * i))
      else eva ex_model (_bss_of ex_st (Some "ctr"%string)) a.
Proof.
  eexists. split; [reflexivity|].
  apply (@bss_write_sound z3 z3_laws ex_model ex_st ex_plain 0 5 "ctr"%string 0 4 ex_val VNone);
    leaf.
Defined.
