(* ===== verification/Block.v ===== *)
(** Basic blocks: the abstract machine state at a point of the program and its
    merge over the predecessors of a block ([track/block.py]).

    An operation of a block runs on a [bstate]: the block, the allocator of
    object identities and the tracker's pointer-id counter ([id_box]), which
    [new_ptr_id] increments. Blocks other than the current one are read from
    an immutable list. *)

From S2P Require Import Prelude Constants Link Expr Record Action.

(** ** Data *)

Definition PKT_REGIONS : list Z := [PTR_TO_PKT; PTR_TO_PKT_END; PTR_TO_PKT_META].
Definition NO_FACT_ID : Z := -2.

Record PtrFacts := mk_ptrf { pf_base_id : option Z; pf_ptr : val; pf_null : option bool }.

Record PktFacts := mk_pktf {
  kf_id : option Z; kf_base_id : option Z; kf_ptr : val;
  kf_min_len : option Z; kf_max_len : option Z
}.

Record AdjustFacts := mk_adjf { af_idx : Z; af_base_id : option Z }.

(** What is known on one outgoing edge: [cond_f] and [cond_t]. *)
Inductive edge_fact :=
| FPtr (f : PtrFacts)
| FPkt (f : PktFacts)
| FAdjust (f : AdjustFacts).

Record Block := mk_block {
  num : Z;
  start : Z;
  end_ : Z;
  preds : list Z;
  succ_f : option Z;
  succ_t : option Z;
  exit_ : bool;
  jump : bool;
  branch : bool;
  prog_entry : option ProgRegion;
  tail_ctx : val;
  tail_target : option ProgRegion;
  regs : list val;
  stk : list val;
  actions : list action;
  sources : list val;
  cond : option condition;
  cond_f : option edge_fact;
  cond_t : option edge_fact;
  ptr_facts : list (option Z * PtrFacts);
  pkt_ptr_facts : list (option Z * PktFacts);
  pkt_base_id : option Z;
  adjust_pending : option (Z * option Z);
  idx_ : option Z
}.

(** [Block(num, start, end)]. *)
Definition new_Block (n s e : Z) : Block :=
  mk_block n s e [] None None false false false None VNone None (replicate 11 VNone) [] [] []
    None None None [] [] (Some (-1)) None None.

Inductive kind_t := KBranch | KJump | KExit | KFall.

Definition kind (b : Block) : kind_t :=
  if branch b then KBranch else if jump b then KJump else if exit_ b then KExit else KFall.

Definition ret_expr (b : Block) : res val := if exit_ b then py_index (regs b) 0 else Ok VNone.

(** Attribute assignments, grouped by what the code assigns together. *)
Definition set_edges (p : list Z) (f t : option Z) (ex j br : bool) (b : Block) : Block :=
  mk_block (num b) (start b) (end_ b) p f t ex j br (prog_entry b) (tail_ctx b) (tail_target b)
    (regs b) (stk b) (actions b) (sources b) (cond b) (cond_f b) (cond_t b) (ptr_facts b)
    (pkt_ptr_facts b) (pkt_base_id b) (adjust_pending b) (idx_ b).
Definition set_prog_entry (r : option ProgRegion) (b : Block) : Block :=
  mk_block (num b) (start b) (end_ b) (preds b) (succ_f b) (succ_t b) (exit_ b) (jump b) (branch b)
    r (tail_ctx b) (tail_target b) (regs b) (stk b) (actions b) (sources b) (cond b) (cond_f b)
    (cond_t b) (ptr_facts b) (pkt_ptr_facts b) (pkt_base_id b) (adjust_pending b) (idx_ b).
Definition set_tail (c : val) (r : option ProgRegion) (b : Block) : Block :=
  mk_block (num b) (start b) (end_ b) (preds b) (succ_f b) (succ_t b) (exit_ b) (jump b) (branch b)
    (prog_entry b) c r (regs b) (stk b) (actions b) (sources b) (cond b) (cond_f b) (cond_t b)
    (ptr_facts b) (pkt_ptr_facts b) (pkt_base_id b) (adjust_pending b) (idx_ b).
Definition set_store (r s : list val) (b : Block) : Block :=
  mk_block (num b) (start b) (end_ b) (preds b) (succ_f b) (succ_t b) (exit_ b) (jump b) (branch b)
    (prog_entry b) (tail_ctx b) (tail_target b) r s (actions b) (sources b) (cond b) (cond_f b)
    (cond_t b) (ptr_facts b) (pkt_ptr_facts b) (pkt_base_id b) (adjust_pending b) (idx_ b).
Definition set_out (a : list action) (s : list val) (b : Block) : Block :=
  mk_block (num b) (start b) (end_ b) (preds b) (succ_f b) (succ_t b) (exit_ b) (jump b) (branch b)
    (prog_entry b) (tail_ctx b) (tail_target b) (regs b) (stk b) a s (cond b) (cond_f b) (cond_t b)
    (ptr_facts b) (pkt_ptr_facts b) (pkt_base_id b) (adjust_pending b) (idx_ b).
Definition set_cond (c : option condition) (f t : option edge_fact) (b : Block) : Block :=
  mk_block (num b) (start b) (end_ b) (preds b) (succ_f b) (succ_t b) (exit_ b) (jump b) (branch b)
    (prog_entry b) (tail_ctx b) (tail_target b) (regs b) (stk b) (actions b) (sources b) c f t
    (ptr_facts b) (pkt_ptr_facts b) (pkt_base_id b) (adjust_pending b) (idx_ b).
Definition set_facts (pf : list (option Z * PtrFacts)) (kf : list (option Z * PktFacts))
    (base : option Z) (b : Block) : Block :=
  mk_block (num b) (start b) (end_ b) (preds b) (succ_f b) (succ_t b) (exit_ b) (jump b) (branch b)
    (prog_entry b) (tail_ctx b) (tail_target b) (regs b) (stk b) (actions b) (sources b) (cond b)
    (cond_f b) (cond_t b) pf kf base (adjust_pending b) (idx_ b).
Definition set_pending (p : option (Z * option Z)) (b : Block) : Block :=
  mk_block (num b) (start b) (end_ b) (preds b) (succ_f b) (succ_t b) (exit_ b) (jump b) (branch b)
    (prog_entry b) (tail_ctx b) (tail_target b) (regs b) (stk b) (actions b) (sources b) (cond b)
    (cond_f b) (cond_t b) (ptr_facts b) (pkt_ptr_facts b) (pkt_base_id b) p (idx_ b).
Definition set_idx_ (i : option Z) (b : Block) : Block :=
  mk_block (num b) (start b) (end_ b) (preds b) (succ_f b) (succ_t b) (exit_ b) (jump b) (branch b)
    (prog_entry b) (tail_ctx b) (tail_target b) (regs b) (stk b) (actions b) (sources b) (cond b)
    (cond_f b) (cond_t b) (ptr_facts b) (pkt_ptr_facts b) (pkt_base_id b) (adjust_pending b) i.

(** ** The state of a block operation *)

Record bstate := mk_bs { bs_blk : Block; bs_oid : Z; bs_id : Z }.

#[global] Instance alloc_bstate : Alloc bstate := {|
  next_oid := bs_oid;
  set_oid := λ z s, mk_bs (bs_blk s) z (bs_id s)
|}.
#[global] Instance alloc_bstate_laws : AllocLaws bstate.
Proof. split. done. Qed.

Definition get_blk : ST bstate Block := gets bs_blk.
Definition upd_blk (f : Block → Block) : ST bstate unit :=
  modify (λ s, mk_bs (f (bs_blk s)) (bs_oid s) (bs_id s)).

Definition new_ptr_id : ST bstate Z := λ s,
  Ok (bs_id s + 1, mk_bs (bs_blk s) (bs_oid s) (bs_id s + 1)).

Definition get_reg (r : Z) : ST bstate val := b ← get_blk; lift (py_index (regs b) r).
Definition set_reg (r : Z) (v : val) : ST bstate unit :=
  b ← get_blk; l ← lift (py_setitem (regs b) r v); upd_blk (set_store l (stk b)).
Definition set_stk (l : list val) : ST bstate unit := upd_blk (λ b, set_store (regs b) l b).

Definition add_source (v : val) : ST bstate unit :=
  upd_blk (λ b, set_out (actions b) (sources b ++ [v]) b).

Definition emit (k : action_kind) : ST bstate unit :=
  upd_blk (λ b, set_out (actions b ++ [mk_action (num b) (default (-1) (idx_ b)) k]) (sources b) b).

Definition set_ptr_fact (id : option Z) (f : PtrFacts) : ST bstate unit :=
  upd_blk (λ b, set_facts (pset (ptr_facts b) id f) (pkt_ptr_facts b) (pkt_base_id b) b).
Definition set_pkt_fact (id : option Z) (f : PktFacts) : ST bstate unit :=
  upd_blk (λ b, set_facts (ptr_facts b) (pset (pkt_ptr_facts b) id f) (pkt_base_id b) b).

(** ** Nullity *)

Definition null_fact_id (p : ptr_ val) : option Z :=
  if negb (p_id p =? -1) then Some (p_id p) else p_base_id p.

Definition is_null_const (v : val) : bool :=
  match v with VNum _ n _ _ => n =? 0 | _ => false end.

Definition _fold_nullity (vals : list (option bool)) : option bool :=
  match vals with
  | [] => None
  | first :: _ => if forallb (λ v, bool_decide (v = first)) vals then first else None
  end.

Definition set_null (n : option bool) (p : ptr_ val) : ptr_ val :=
  mk_ptr (p_type p) (p_off p) (p_var_off p) (p_id p) (p_base_id p) (p_map_id p) (p_map_key p)
    (p_map_key_id p) (p_bss_idx p) (p_rodata_offset p) (p_rodata_data p) n (p_null_phi p).
Definition set_id (i : Z) (p : ptr_ val) : ptr_ val :=
  mk_ptr (p_type p) (p_off p) (p_var_off p) i (p_base_id p) (p_map_id p) (p_map_key p)
    (p_map_key_id p) (p_bss_idx p) (p_rodata_offset p) (p_rodata_data p) (p_checked_null p)
    (p_null_phi p).
Definition set_base (i : option Z) (p : ptr_ val) : ptr_ val :=
  mk_ptr (p_type p) (p_off p) (p_var_off p) (p_id p) i (p_map_id p) (p_map_key p)
    (p_map_key_id p) (p_bss_idx p) (p_rodata_offset p) (p_rodata_data p) (p_checked_null p)
    (p_null_phi p).
Definition set_key (k : val) (i : option Z) (p : ptr_ val) : ptr_ val :=
  mk_ptr (p_type p) (p_off p) (p_var_off p) (p_id p) (p_base_id p) (p_map_id p) k i
    (p_bss_idx p) (p_rodata_offset p) (p_rodata_data p) (p_checked_null p) (p_null_phi p).
Definition set_phi (v : val) (p : ptr_ val) : ptr_ val :=
  mk_ptr (p_type p) (p_off p) (p_var_off p) (p_id p) (p_base_id p) (p_map_id p) (p_map_key p)
    (p_map_key_id p) (p_bss_idx p) (p_rodata_offset p) (p_rodata_data p) (p_checked_null p) v.

Definition _with_nullity (o : Z) (p : ptr_ val) (n : option bool) : ST bstate val :=
  if bool_decide (p_checked_null p = n) then mret (VPtr o p) else copy_ptr (set_null n p).

Definition _with_view (v : val) (base_id : option Z) : ST bstate val :=
  match v with
  | VPtr o p =>
      if negb (p_type p =? PTR_TO_CTX) || bool_decide (p_base_id p = base_id) then mret v
      else copy_ptr (set_base base_id p)
  | _ => mret v
  end.

(** The 0/1 value that tells whether [v] is null, where it is known
    ([VNone]: it is not). *)
Definition _nullity_value (v : val) : ST bstate val :=
  if is_null_const v then new_num 0 1 (-1)
  else match v with
       | VPtr _ p =>
           match p_checked_null p with
           | Some false => new_num 1 1 (-1)
           | Some true => new_num 0 1 (-1)
           | None =>
               if negb (is_none (p_null_phi p)) then mret (p_null_phi p)
               else if (p_type p =? PTR_TO_MAP_VALUE) && negb (is_none (p_map_key p))
                       && bool_decide (is_Some (p_map_key_id p))
                       && bool_decide (p_map_key_id p = p_base_id p)
               then new_hit (p_map_id p) (p_map_key p) (p_map_key_id p) 1
               else mret VNone
           end
       | _ => mret VNone
       end.

Definition _same (a b : val) : bool :=
  if is_join a || is_join b then is_same a b else py_eq a b.

(** ** Grouping the entries of a phi

    The four loops that build a [JoinValue] keep the distinct values and, for
    each, the predecessor edges that carry it. [same] is the comparison of the
    loop, [key] what it compares. *)

Definition pred_edge : Type := Z * edge.

Section group.
Context {A : Type} (same : A → A → bool).

Fixpoint find_index (l : list A) (x : A) : option nat :=
  match l with
  | [] => None
  | y :: l' => if same y x then Some O else S <$> find_index l' x
  end.

Definition group_step (st : list A * list (list pred_edge)) (ex : pred_edge * A)
    : list A * list (list pred_edge) :=
  let '(values, edges) := st in
  let '(e, x) := ex in
  match find_index values x with
  | None => (values ++ [x], edges ++ [[e]])
  | Some k => (values, alter (λ es, es ++ [e]) k edges)
  end.

Definition group_edges (pred_edges : list pred_edge) (entries : list A)
    : list A * list (list pred_edge) :=
  fold_left group_step (zip pred_edges entries) ([], []).
End group.

(** [x in l] with Python's list membership: identity, else [==]. *)
Definition py_same (a b : val) : bool := is_same a b || py_eq a b.

(** ** Merging one register or stack slot *)

Definition _stamp_null_phi (ptr : val) (pred_edges : list pred_edge) (entries : list val)
    (reg_num : Z) : ST bstate val :=
  match ptr with
  | VPtr _ p =>
      if negb (bool_decide (p_checked_null p = None)) then mret ptr
      else
        vals ← mapST _nullity_value entries;
        phi ← (if forallb (λ v, negb (is_none v)) vals then
                 v0 ← lift (py_index vals 0);
                 if forallb (λ v, _same v v0) vals then
                   mret (if is_join v0 then v0 else VNone)
                 else
                   let '(values, edges) := group_edges _same pred_edges vals in
                   b ← get_blk;
                   j ← new_join (num b) reg_num values edges;
                   add_source j;;
                   mret j
               else mret VNone);
        if is_same phi (p_null_phi p) then mret ptr else copy_ptr (set_phi phi p)
  | _ => mret ptr
  end.

(** Resolving an entry's nullity by the facts of its edge, or of the block. *)
Definition resolve_entry (c : option edge_fact) (v : val) : ST bstate val :=
  v ← match c with Some (FAdjust f) => _with_view v (af_base_id f) | _ => mret v end;
  match v with
  | VPtr o p =>
      if bool_decide (p_checked_null p = None) then
        b ← get_blk;
        let fid := null_fact_id p in
        let block_fact := pf_null <$> pget (ptr_facts b) fid in
        let n := match c with
                 | Some (FPtr f) =>
                     if bool_decide (pf_base_id f = fid) then Some (pf_null f) else block_fact
                 | _ => block_fact
                 end in
        match n with
        | Some (Some false) => _with_nullity o p (Some false)
        | Some (Some true) => new_num 0 8 (-1)
        | _ => mret v
        end
      else mret v
  | _ => mret v
  end.

(** The pointers of a list that holds only pointers. *)
Definition ptrs_of (l : list val) : list (ptr_ val) :=
  omap (λ v, match v with VPtr _ p => Some p | _ => None end) l.

Definition total_of (v : val) : ST bstate val :=
  match v with VPtr _ p => total_offset p | _ => raise AttributeError end.

(** The end of the cases on pointers of one type: [_with_nullity] of the first
    and the nullity phi. *)
Definition keep_first (o : Z) (p : ptr_ val) (nullity : option bool)
    (pred_edges : list pred_edge) (entries : list val) (reg_num : Z) : ST bstate val :=
  q ← _with_nullity o p nullity; _stamp_null_phi q pred_edges entries reg_num.

Definition merge_pkt (o : Z) (p : ptr_ val) (nullity : option bool)
    (pred_edges : list pred_edge) (entries : list val) (reg_num : Z) : ST bstate val :=
  if existsb (λ r, negb (bool_decide (p_base_id r = p_base_id p))) (ptrs_of entries)
  then mret VNone
  else if existsb (λ r, negb (is_same (VPtr o p) r)) entries then
    let '(tracked, edges) := group_edges py_same pred_edges entries in
    values ← mapST total_of tracked;
    b ← get_blk;
    var_off ← new_join (num b) reg_num values edges;
    add_source var_off;;
    new_id ← new_ptr_id;
    let q := ptr_default PTR_TO_PKT 0 var_off new_id (p_base_id p) in
    new_ptr ← new_PTR (set_null nullity q);
    set_pkt_fact (Some new_id) (mk_pktf (Some new_id) (p_base_id p) new_ptr None None);;
    _stamp_null_phi new_ptr pred_edges entries reg_num
  else keep_first o p nullity pred_edges entries reg_num.

Definition merge_map_value (o : Z) (p : ptr_ val) (nullity : option bool)
    (pred_edges : list pred_edge) (entries : list val) (reg_num : Z) : ST bstate val :=
  let ps := ptrs_of entries in
  if existsb (λ r, negb (bool_decide (p_map_id r = p_map_id p)) || negb (p_off r =? p_off p)) ps
  then mret VNone
  else if forallb (λ r, bool_decide (p_map_key_id r = p_map_key_id p)) ps
  then keep_first o p nullity pred_edges entries reg_num
  else
    let '(tracked, edges) :=
      group_edges (λ a b, bool_decide (p_map_key_id a = p_map_key_id b)) pred_edges ps in
    b ← get_blk;
    key ← new_join (num b) reg_num (map p_map_key tracked) edges;
    kid ← new_ptr_id;
    new_ptr ← copy_ptr (set_null nullity (set_key key (Some kid) p));
    add_source key;;
    _stamp_null_phi new_ptr pred_edges entries reg_num.

Definition merge_other (o : Z) (p : ptr_ val) (nullity : option bool)
    (pred_edges : list pred_edge) (entries : list val) (reg_num : Z) : ST bstate val :=
  if existsb (λ r, negb (py_eq r (VPtr o p))) entries then mret VNone
  else
    out ← _with_nullity o p nullity;
    out ← (if (p_type p =? PTR_TO_CTX)
              && existsb (λ r, negb (bool_decide (p_base_id r = p_base_id p))) (ptrs_of entries)
           then _with_view out None else mret out);
    _stamp_null_phi out pred_edges entries reg_num.

Definition merge_pointers (o : Z) (p : ptr_ val) (pred_edges : list pred_edge)
    (entries : list val) (reg_num : Z) : ST bstate val :=
  let ps := ptrs_of entries in
  if negb (forallb is_ptr entries) || existsb (λ r, negb (p_type r =? p_type p)) ps
  then mret VNone
  else
    let nullity := _fold_nullity (map p_checked_null ps) in
    if p_type p =? PTR_TO_PKT then merge_pkt o p nullity pred_edges entries reg_num
    else if p_type p =? PTR_TO_MAP_VALUE then merge_map_value o p nullity pred_edges entries reg_num
    else merge_other o p nullity pred_edges entries reg_num.

Definition merge_scalars (first : val) (pred_edges : list pred_edge) (entries : list val)
    (reg_num : Z) : ST bstate val :=
  if existsb is_ptr entries then mret VNone
  else if is_num first && forallb (λ r, is_num r && bool_decide (_const r = _const first)) entries
  then mret first
  else if existsb (λ r, negb (is_same r first)) entries then
    let '(values, edges) := group_edges py_same pred_edges entries in
    b ← get_blk;
    phi ← new_join (num b) reg_num values edges;
    add_source phi;;
    mret phi
  else mret first.

(** The cases of [merge_entry] on resolved entries that are all pointers or
    contain none. *)
Definition merge_uniform (pred_edges : list pred_edge) (entries : list val) (reg_num : Z)
    : ST bstate val :=
  first ← lift (py_index entries 0);
  match first with
  | VPtr o p => merge_pointers o p pred_edges entries reg_num
  | _ => merge_scalars first pred_edges entries reg_num
  end.

(** [pred_conds] is [None] or a list as long as [entries]. The recursive call
    is on the pointers of a mixed list, strictly fewer: [fuel] bounds its
    depth. *)
Fixpoint merge_entry_f (fuel : nat) (pred_edges : list pred_edge) (entries : list val)
    (reg_num : Z) (pred_conds : option (list (option edge_fact))) : ST bstate val :=
  entries ← mapST (λ cv, resolve_entry cv.1 cv.2)
              (zip (default (map (λ _, None) entries) pred_conds) entries);
  if existsb is_none entries then mret VNone
  else if existsb is_ptr entries && negb (forallb is_ptr entries) then
    if negb (forallb (λ v, is_ptr v || is_null_const v) entries) then mret VNone
    else
      match fuel with
      | O => raise (RuntimeError "maximum recursion depth exceeded")
      | S fuel' =>
          let at_ptr := filter (λ ev, is_ptr ev.2 = true) (zip pred_edges entries) in
          merged ← merge_entry_f fuel' (at_ptr.*1) (at_ptr.*2) reg_num None;
          match merged with
          | VPtr o p =>
              match p_checked_null p with
              | None => _stamp_null_phi merged pred_edges entries reg_num
              | Some _ =>
                  o' ← fresh;
                  id ← new_ptr_id;
                  let q := set_id id (set_null None p) in
                  let out := VPtr o' q in
                  (if p_type q =? PTR_TO_PKT
                   then set_pkt_fact (Some id) (mk_pktf (Some id) (p_base_id q) out None None)
                   else mret tt);;
                  _stamp_null_phi out pred_edges entries reg_num
              end
          | _ => mret VNone
          end
      end
  else merge_uniform pred_edges entries reg_num.

Definition merge_entry (pred_edges : list pred_edge) (entries : list val) (reg_num : Z)
    (pred_conds : option (list (option edge_fact))) : ST bstate val :=
  merge_entry_f (length entries) pred_edges entries reg_num pred_conds.

(** ** Merging the predecessors *)

(** The edge by which [pred] enters block [n]. *)
Definition edge_from (blocks : list Block) (n pred : Z) : res pred_edge :=
  b ← py_index blocks pred;
  Ok (pred, if bool_decide (succ_f b = Some n) then Fall else Taken).

Definition edge_cond (b : Block) (e : edge) : option edge_fact :=
  match e with Fall => cond_f b | Taken => cond_t b end.

(** The facts merged so far: [ptr_facts], [pkt_ptr_facts], [pkt_base_id]. *)
Record facts := mk_facts {
  fs_ptr : list (option Z * PtrFacts);
  fs_pkt : list (option Z * PktFacts);
  fs_base : option Z
}.

(** The variables [cond_base_id], [cond_pkt_base_id] and [cond_pkt_id] of one
    predecessor; [None] also means unset. *)
Definition cond_base_id (c : option edge_fact) : option Z :=
  match c with Some (FPtr f) => pf_base_id f | _ => None end.
Definition cond_pkt_ids (c : option edge_fact) : option Z * option Z :=
  match c with Some (FPkt f) => (kf_base_id f, kf_id f) | _ => (None, None) end.

(** One pointer fact of a predecessor. A key equal to [cond_base_id] takes the
    edge's fact, which fails when that is not a [PtrFacts]. *)
Definition merge_ptr_fact (c : option edge_fact) (acc : list (option Z * PtrFacts))
    (kf : option Z * PtrFacts) : res (list (option Z * PtrFacts)) :=
  let '(base_id, fact) := kf in
  fact ← (if bool_decide (cond_base_id c = base_id)
          then match c with Some (FPtr f) => Ok f | _ => Err AttributeError end
          else Ok fact);
  match pget acc base_id with
  | None => Ok (pset acc base_id (mk_ptrf (pf_base_id fact) (pf_ptr fact) (pf_null fact)))
  | Some have =>
      if bool_decide (pf_null have = pf_null fact) then Ok acc
      else Ok (pset acc base_id (mk_ptrf (pf_base_id fact) (pf_ptr fact) None))
  end.

(** [f(a, b) if a is not None and b is not None else None]. *)
Definition both (f : Z → Z → Z) (a b : option Z) : option Z :=
  match a, b with Some x, Some y => Some (f x y) | _, _ => None end.

Definition merge_pkt_fact (c : option edge_fact) (base : option Z)
    (acc : list (option Z * PktFacts)) (kf : option Z * PktFacts)
    : res (list (option Z * PktFacts)) :=
  let '(id, fact) := kf in
  let '(cbase, cid) := cond_pkt_ids c in
  fact ← (if bool_decide (cbase = base) && bool_decide (cid = id)
          then match c with Some (FPkt f) => Ok f | _ => Err AttributeError end
          else Ok fact);
  match pget acc id with
  | None => Ok (pset acc id fact)
  | Some have =>
      Ok (pset acc id (mk_pktf (kf_id fact) (kf_base_id fact) (kf_ptr fact)
                         (both Z.min (kf_min_len fact) (kf_min_len have))
                         (both Z.max (kf_max_len fact) (kf_max_len have))))
  end.

(** The facts of predecessor number [i]. *)
Definition merge_facts_of (acc : facts) (x : nat * (Block * option edge_fact)) : res facts :=
  let '(i, (pb, c)) := x in
  let base_p := match c with Some (FAdjust f) => af_base_id f | _ => pkt_base_id pb end in
  ptr ← foldR (merge_ptr_fact c) (fs_ptr acc) (ptr_facts pb);
  match i with
  | O =>
      Ok (mk_facts ptr (fold_left (λ d kv, pset d kv.1 kv.2) (pkt_ptr_facts pb) (fs_pkt acc)) base_p)
  | S _ =>
      if bool_decide (fs_base acc = base_p) then
        pkt ← foldR (merge_pkt_fact c (fs_base acc)) (fs_pkt acc) (pkt_ptr_facts pb);
        Ok (mk_facts ptr pkt (fs_base acc))
      else Ok (mk_facts ptr [] None)
  end.

Definition merge_facts (init : facts) (ps : list (Block * option edge_fact)) : res facts :=
  foldR merge_facts_of init (imap pair ps).

(** One register of all predecessors. *)
Definition pred_reg (pred_blocks : list Block) (r : Z) : res (list val) :=
  mapR (λ pb, py_index (regs pb) r) pred_blocks.

Definition merge_predecessors (blocks : list Block) : ST bstate unit :=
  b ← get_blk;
  pred_edges ← lift (mapR (edge_from blocks (num b)) (preds b));
  pred_blocks ← lift (mapR (py_index blocks) (preds b));
  let pred_conds := zip_with (λ pb e, edge_cond pb e.2) pred_blocks pred_edges in
  fs ← lift (merge_facts (mk_facts (ptr_facts b) (pkt_ptr_facts b) (pkt_base_id b))
               (zip pred_blocks pred_conds));
  upd_blk (set_facts (fs_ptr fs) (fs_pkt fs) (fs_base fs));;
  first ← lift (py_index pred_blocks 0);
  upd_blk (λ b, set_store (regs first) (stk b) b);;
  mapST (λ r, entries ← lift (pred_reg pred_blocks r);
              v ← merge_entry pred_edges entries r (Some pred_conds);
              set_reg r v) (zrange 0 10);;
  let stk_size := foldr Nat.min (length (stk first)) (map (length ∘ stk) pred_blocks) in
  set_stk (replicate stk_size VNone);;
  mapST (λ i, entries ← lift (mapR (λ pb, py_index (stk pb) i) pred_blocks);
              v ← merge_entry pred_edges entries (-8 * (i + 1)) (Some pred_conds);
              b ← get_blk;
              l ← lift (py_setitem (stk b) i v);
              set_stk l) (zrange 0 (Z.of_nat stk_size));;
  mret tt.

(** ** Entry states *)

Definition null_free (base : option Z) (p : val) : PtrFacts := mk_ptrf base p (Some false).

Definition init_state : ST bstate unit :=
  r1 ← new_PTR (ptr_default PTR_TO_CTX 0 VNone (-1) (Some (-1)));
  set_reg 1 r1;;
  r10 ← new_PTR (ptr_default PTR_TO_STK 0 VNone NO_FACT_ID (Some (-1)));
  set_reg 10 r10;;
  upd_blk (set_facts [(Some NO_FACT_ID, null_free (Some NO_FACT_ID) VNone);
                      (Some (-1), null_free (Some (-1)) VNone)]
             [(Some (-1), mk_pktf (Some (-1)) (Some (-1)) VNone None None)] (Some (-1)));;
  set_stk [].

(** The value shared by all of a list, as a one-element set gives it. *)
Definition unanimous {A} `{EqDecision A} (l : list (option A)) : option A :=
  match l with
  | [] => None
  | x :: l' => if forallb (λ y, bool_decide (y = x)) l' then x else None
  end.

Definition _entry_pkt_facts (sites : list Block) (base : option Z) : PktFacts :=
  let fs := map (λ b, pget (pkt_ptr_facts b) base) sites in
  mk_pktf base base VNone (unanimous (map (λ f, f ≫= kf_min_len) fs))
    (unanimous (map (λ f, f ≫= kf_max_len) fs)).

Definition init_tail_entry (blocks : list Block) : ST bstate unit :=
  b ← get_blk;
  ps ← lift (mapR (py_index blocks) (preds b));
  let sites := filter (λ p, succ_t p = Some (num b)) ps in
  let ctxs := ptrs_of (map tail_ctx sites) in
  let bases := remove_dups (map p_base_id ctxs) in
  lift (guard_or (length bases <=? 1)%nat
          (if bool_decide (None ∈ bases) then TypeError
           else ExceptionErr "init_tail_entry: sites disagree on the packet view"));;
  set_stk [];;
  upd_blk (λ b, set_store (replicate 11 VNone) (stk b) b);;
  r1 ← match filter (λ v, is_ptr v = true) (map tail_ctx sites) with
       | c :: _ => mret c
       | [] => new_PTR (ptr_default PTR_TO_CTX 0 VNone (-1) (Some (-1)))
       end;
  set_reg 1 r1;;
  r10 ← new_PTR (ptr_default PTR_TO_STK 0 VNone NO_FACT_ID (Some (-1)));
  set_reg 10 r10;;
  let base := match r1 with VPtr _ p => p_base_id p | _ => None end in
  upd_blk (set_facts
    (pset [(Some NO_FACT_ID, null_free (Some NO_FACT_ID) VNone)] base (null_free base r1))
    [(base, _entry_pkt_facts sites base)] base).

Definition set_ctx_view (base_id : option Z) : ST bstate unit :=
  b ← get_blk;
  r ← mapST (λ v, _with_view v base_id) (regs b);
  s ← mapST (λ v, _with_view v base_id) (stk b);
  upd_blk (set_store r s);;
  upd_blk (λ b, set_facts (ptr_facts b) (pkt_ptr_facts b) base_id b).

(** ** The stack

    Slot [k] holds the eight bytes from [-8 (k+1)]; a narrower or unaligned
    store is an expression on the old slot. *)

Definition slot_idx (addr : Z) : Z := - (addr / 8) - 1.
Definition slot_off (addr : Z) : Z := addr mod 8.

Definition alu8 (op : Z) (dst src : val) : ST bstate val :=
  b ← get_blk; new_binary op dst src 0 8 (default (-1) (idx_ b)).

Definition const8 (n : Z) : ST bstate val := new_num n 8 (-1).

Definition stk_store (addr size : Z) (value : val) : ST bstate unit :=
  b ← get_blk;
  let k := slot_idx addr in
  let off := slot_off addr in
  let grow := k + 1 - Z.of_nat (length (stk b)) in
  set_stk (stk b ++ replicate (Z.to_nat grow) VNone);;
  v ← (if size <? 8 then m ← const8 (Z.shiftl 1 (size * 8) - 1); alu8 AND value m
       else mret value);
  v ← (if negb (off =? 0) then m ← const8 (off * 8); alu8 LSH v m else mret v);
  b ← get_blk;
  old ← lift (py_index (stk b) k);
  v ← (if is_none old || ((off =? 0) && (8 <=? size)) then mret v
       else
         let keep := Z.lxor (Z.shiftl 1 64 - 1)
                            (Z.shiftl (Z.shiftl 1 (size * 8) - 1) (off * 8)) in
         m ← const8 keep;
         masked ← alu8 AND old m;
         alu8 OR masked v);
  l ← lift (py_setitem (stk b) k v);
  set_stk l.

Definition stk_load (addr size : Z) : ST bstate val :=
  b ← get_blk;
  let k := slot_idx addr in
  let off := slot_off addr in
  if 8 <? off + size then
    let num_slots := (off + size + 7) / 8 in
    let chunks := map (λ i, if (0 <=? k - i) && (k - i <? Z.of_nat (length (stk b)))
                            then nth (Z.to_nat (k - i)) (stk b) VNone else VNone)
                      (zrange 0 num_slots) in
    new_byteseq chunks size off
  else
    slot ← lift (py_index (stk b) k);
    if negb (off =? 0) then new_byteseq [slot] size off
    else
      slot_size ← (if is_ptr slot then mret 8 else lift (vsize slot));
      if (slot_size <=? size) || is_ptr slot then mret slot
      else
        m ← new_num (Z.shiftl 1 (size * 8) - 1) size (-1);
        alu8 AND slot m.

(** ** The calls of a program: [build_call_index] of [track/record.py] *)

Definition call_index : Type := list (Z * (action + val)).

Definition index_block (out : call_index) (b : Block) : call_index :=
  let out := fold_left (λ d a, if bool_decide (is_Some (action_ret a))
                               then pset d (a_idx a) (inl a) else d) (actions b) out in
  fold_left (λ d v, match v with VFunc _ f => pset d (fr_idx f) (inr v) | _ => d end)
            (sources b) out.

Definition build_call_index (blocks : list Block) : call_index := fold_left index_block blocks [].

(** ** Runs that leave the block alone *)

Lemma new_binary_blk op d r off sz i (s s' : bstate) v :
  new_binary op d r off sz i s = Ok (v, s') →
  (∃ o, v = VBin o (mk_binary op d r off sz i)) ∧ bs_blk s' = bs_blk s.
Proof. unfold new_binary. intros. res_inv. unfold fresh in *. simplify_eq. eauto. Qed.

Lemma new_num_blk n sz i (s s' : bstate) v :
  new_num n sz i s = Ok (v, s') → (∃ o, v = VNum o n sz i) ∧ bs_blk s' = bs_blk s.
Proof. unfold new_num. intros. res_inv. unfold fresh in *. simplify_eq. eauto. Qed.

Lemma new_byteseq_blk cs sz off (s s' : bstate) v :
  new_byteseq cs sz off s = Ok (v, s') → (∃ o, v = VByteSeq o cs sz off) ∧ bs_blk s' = bs_blk s.
Proof. unfold new_byteseq. intros. res_inv. unfold fresh in *. simplify_eq. eauto. Qed.

Lemma copy_ptr_blk p (s s' : bstate) v :
  copy_ptr p s = Ok (v, s') → (∃ o, v = VPtr o p) ∧ bs_blk s' = bs_blk s.
Proof. unfold copy_ptr. intros. res_inv. unfold fresh in *. simplify_eq. eauto. Qed.
