(* ===== verification/StackSound.v ===== *)
(** The symbolic stack is a byte memory: [stk_store] and [stk_load] of
    [track/block.py] on slots of eight bytes, narrower and unaligned accesses
    included. *)

From S2P Require Import Prelude Words Constants Expr Denote Block.

(** ** The bytes of a stack

    An empty slot has no bytes and neither has one that holds a pointer. *)

Section stack.
Context (w : world).

Definition slot_cell (v : val) : option Z :=
  if is_none v || is_ptr v then None else Some (den w v).

(** The byte at address [a], relative to the frame pointer. *)
Definition stack_byte (s : list val) (a : Z) : option Z :=
  if slot_idx a <? 0 then None
  else cell ← s !! Z.to_nat (slot_idx a) ≫= slot_cell; Some (byte_at cell (slot_off a)).

(** A value that fits the width it declares, in a 64-bit slot. *)
Definition fits (v : val) : Prop :=
  is_none v = false → is_ptr v = false →
  0 <= den w v < 2 ^ 64 ∧ ∀ sz, vsize v = Ok sz → 0 < sz ∧ (sz < 8 → den w v < 2 ^ (8 * sz)).

Lemma alu8_Ok op d r (s s' : bstate) v : alu8 op d r s = Ok (v, s') →
  is_none v = false ∧ is_ptr v = false ∧ vsize v = Ok 8 ∧ bs_blk s' = bs_blk s ∧
  den w v = isa_alu op 64 false (den w d) (den w r).
Proof.
  unfold alu8, get_blk. intros. res_inv.
  match goal with H : new_binary _ _ _ _ _ _ _ = _ |- _ =>
    apply new_binary_blk in H as [[o ->] ?] end. done.
Qed.

Lemma const8_Ok n (s s' : bstate) v : const8 n s = Ok (v, s') →
  bs_blk s' = bs_blk s ∧ den w v = wrap 64 n.
Proof. unfold const8. intros H. apply new_num_blk in H as [[o ->] ?]. done. Qed.

(** ** A store splices the slot *)

Definition keep_mask (size off : Z) : Z :=
  Z.lxor (Z.shiftl 1 64 - 1) (Z.shiftl (Z.shiftl 1 (size * 8) - 1) (off * 8)).

Lemma keep_mask_bit size off i : 0 <= size → 0 <= off → off + size <= 8 → 0 <= i →
  Z.testbit (keep_mask size off) i =
    (i <? 64) && negb ((off * 8 <=? i) && (i <? off * 8 + 8 * size)).
Proof.
  intros. unfold keep_mask. change (Z.shiftl 1 64 - 1) with (mask 64).
  change (Z.shiftl 1 (size * 8) - 1) with (mask (size * 8)).
  rewrite Z.lxor_spec, Z.shiftl_spec, !mask_eq by lia.
  rewrite !Z.testbit_ones by lia.
  destruct (Z.ltb_spec i 64), (Z.leb_spec (off * 8) i), (Z.leb_spec 0 i),
    (Z.leb_spec 0 (i - off * 8)), (Z.ltb_spec (i - off * 8) (size * 8)),
    (Z.ltb_spec i (off * 8 + 8 * size)); cbn; lia.
Qed.

Lemma splice_slot old x size off : 0 < size → 0 <= off → off + size <= 8 → 0 <= x < 2 ^ 64 →
  spliced 64 (wrap 64 old) (off * 8) size x
    (isa_alu OR 64 false (isa_alu AND 64 false old (wrap 64 (keep_mask size off)))
       (isa_alu LSH 64 false (wrap (8 * size) x) (wrap 64 (off * 8)))).
Proof.
  intros Hs Ho Hle Hx. split; [apply (isa_alu_range 64); auto|]. intros i Hi.
  change (Z.testbit (Z.lor (wrap 64 (Z.land (wrap 64 old) (wrap 64 (wrap 64 (keep_mask size off)))))
    (wrap 64 (wrap 64 (wrap 64 (wrap (8 * size) x) * 2 ^ (wrap 64 (wrap 64 (off * 8)) mod 64))))) i =
    if (off * 8 <=? i) && (i <? off * 8 + 8 * size) then Z.testbit x (i - off * 8)
    else Z.testbit (wrap 64 old) i).
  assert (2 ^ 6 <= 2 ^ 64) by (apply Z.pow_le_mono_r; lia).
  rewrite (wrap_small 64 (off * 8)), (wrap_small 64 (off * 8)), Z.mod_small by lia.
  rewrite !wrap_wrap by lia.
  rewrite Z.lor_spec, !testbit_wrap, Z.land_spec, Z.mul_pow2_bits by lia.
  rewrite !testbit_wrap, keep_mask_bit by lia.
  rewrite !(proj2 (Z.ltb_lt i 64)) by lia. cbn [andb].
  destruct (Z.leb_spec (off * 8) i), (Z.ltb_spec i (off * 8 + 8 * size)); cbn [andb negb];
    rewrite ?andb_true_r, ?andb_false_r; cbn [orb].
  - rewrite !testbit_wrap by lia.
    rewrite (proj2 (Z.ltb_lt (i - off * 8) 64)), (proj2 (Z.ltb_lt (i - off * 8) (8 * size))) by lia.
    done.
  - rewrite !testbit_wrap by lia.
    rewrite (proj2 (Z.ltb_ge (i - off * 8) (8 * size))) by lia.
    by rewrite andb_false_r, orb_false_r.
  - rewrite (Z.testbit_neg_r _ (i - off * 8)) by lia. by rewrite orb_false_r.
  - rewrite (Z.testbit_neg_r _ (i - off * 8)) by lia. by rewrite orb_false_r.
Qed.

(** The value as it enters the slot: cut to its size and moved to its place. *)
Lemma place_Ok value size off (s s1 s2 : bstate) v1 v2 :
  0 < size <= 8 → 0 <= off → off + size <= 8 → 0 <= den w value < 2 ^ 64 →
  (if size <? 8 then m ← const8 (Z.shiftl 1 (size * 8) - 1); alu8 AND value m
   else mret value) s = Ok (v1, s1) →
  (if negb (off =? 0) then m ← const8 (off * 8); alu8 LSH v1 m else mret v1) s1 = Ok (v2, s2) →
  bs_blk s2 = bs_blk s ∧ (v2 = value ∧ size = 8 ∧ off = 0 ∨
    size < 8 ∧ is_none v2 = false ∧ is_ptr v2 = false ∧ vsize v2 = Ok 8) ∧
  den w v2 = isa_alu LSH 64 false (wrap (8 * size) (den w value)) (wrap 64 (off * 8)).
Proof.
  intros Hs Ho Hle Hx H1 H2.
  assert (bs_blk s1 = bs_blk s ∧ (v1 = value ∧ size = 8 ∨
    size < 8 ∧ is_none v1 = false ∧ is_ptr v1 = false ∧ vsize v1 = Ok 8) ∧
    den w v1 = wrap (8 * size) (den w value)) as (Hb1 & Hv1 & Hd1).
  { destruct (Z.ltb_spec size 8); res_inv.
    - apply const8_Ok in E as [Eb Em]. apply alu8_Ok in H1 as (? & ? & ? & ? & ->).
      split_and!; [congruence|by right|]. rewrite Em.
      change (Z.shiftl 1 (size * 8) - 1) with (mask (size * 8)).
      rewrite isa_and_mask by lia. f_equal. lia.
    - replace size with 8 by lia. split_and!; [done|left; done|].
      rewrite wrap_small by done. done. }
  assert (0 <= wrap (8 * size) (den w value) < 2 ^ 64) as Hr.
  { pose proof (wrap_range (8 * size) (den w value) ltac:(lia)).
    pose proof (Z.pow_le_mono_r 2 (8 * size) 64). lia. }
  destruct (Z.eqb_spec off 0) as [-> | Hoff]; cbn [negb] in H2; res_inv.
  - split; [congruence|split]. { destruct Hv1 as [[-> ->] | ?]; [left|right]; done. }
    rewrite Hd1. change (wrap (8 * size) (den w value) =
      wrap 64 (wrap 64 (wrap (8 * size) (den w value)) * 1)).
    rewrite Z.mul_1_r, wrap_wrap by lia. symmetry. by apply wrap_small.
  - apply const8_Ok in E as [Eb Em]. apply alu8_Ok in H2 as (? & ? & ? & ? & ->).
    split_and!; [congruence|right; split_and!; try done; lia|]. by rewrite Em, Hd1.
Qed.

Lemma and_zero m : isa_alu AND 64 false 0 m = 0.
Proof. change (Z.land 0 (wrap 64 m) = 0). apply Z.land_0_l. Qed.

Lemma or_zero_l y : 0 <= y < 2 ^ 64 → isa_alu OR 64 false 0 y = y.
Proof. intros. change (wrap 64 y = y). by apply wrap_small. Qed.

Lemma and_zero_r x : isa_alu AND 64 false x 0 = 0.
Proof. change (Z.land (wrap 64 x) 0 = 0). apply Z.land_0_r. Qed.

(** Combining the placed value with what the slot held. *)
Lemma combine_Ok old value v size off (s s' : bstate) u :
  0 < size <= 8 → 0 <= off → off + size <= 8 → 0 <= den w value < 2 ^ 64 →
  (v = value ∧ size = 8 ∧ off = 0 ∨ size < 8 ∧ is_none v = false ∧ is_ptr v = false ∧ vsize v = Ok 8) →
  den w v = isa_alu LSH 64 false (wrap (8 * size) (den w value)) (wrap 64 (off * 8)) →
  (if is_none old || ((off =? 0) && (8 <=? size)) then mret v
   else m ← const8 (keep_mask size off); masked ← alu8 AND old m; alu8 OR masked v) s
    = Ok (u, s') →
  bs_blk s' = bs_blk s ∧
  (u = value ∧ size = 8 ∧ off = 0 ∨ size < 8 ∧ is_none u = false ∧ is_ptr u = false ∧ vsize u = Ok 8) ∧
  spliced 64 (wrap 64 (den w old)) (off * 8) size (den w value) (den w u).
Proof.
  intros Hs Ho Hle Hx Hv Hd HE.
  pose proof (splice_slot (den w old) _ size off ltac:(lia) Ho Hle Hx) as Hsp.
  rewrite <- Hd in Hsp.
  assert (0 <= den w v < 2 ^ 64) as Hr by (rewrite Hd; apply (isa_alu_range 64); auto).
  destruct (is_none old || _) eqn:Ec; res_inv.
  - split_and!; [done|done|]. apply orb_true_iff in Ec as [Ec | Ec].
    + destruct old; try done. simpl den in *. by rewrite and_zero, or_zero_l in Hsp.
    + bool_prop. assert (size = 8) as -> by lia. subst off.
      change (wrap 64 (keep_mask 8 0)) with 0 in Hsp.
      by rewrite and_zero_r, or_zero_l in Hsp.
  - apply const8_Ok in E as [Eb Em]. apply alu8_Ok in E0 as (? & ? & ? & ? & Hm).
    apply alu8_Ok in HE as (? & ? & ? & ? & Hu).
    assert (size < 8) by (apply orb_false_iff in Ec as [_ Ec];
      apply andb_false_iff in Ec; rewrite Z.eqb_neq, Z.leb_gt in Ec; lia).
    split_and!; [congruence|by right|by rewrite Hu, Hm, Em].
Qed.

(** The effect of a store on the list of slots. *)
Lemma stk_store_slot addr size value (s s' : bstate) :
  0 <= slot_idx addr → 0 < size <= 8 → slot_off addr + size <= 8 →
  0 <= den w value < 2 ^ 64 →
  stk_store addr size value s = Ok (tt, s') →
  let k := Z.to_nat (slot_idx addr) in
  let grown := stk (bs_blk s) ++
    replicate (Z.to_nat (slot_idx addr + 1 - Z.of_nat (length (stk (bs_blk s))))) VNone in
  ∃ u old, bs_blk s' = set_store (regs (bs_blk s)) (<[k := u]> grown) (bs_blk s) ∧
    grown !! k = Some old ∧
    (u = value ∧ size = 8 ∧ slot_off addr = 0 ∨
     size < 8 ∧ is_none u = false ∧ is_ptr u = false ∧ vsize u = Ok 8) ∧
    spliced 64 (wrap 64 (den w old)) (slot_off addr * 8) size (den w value) (den w u).
Proof.
  intros Hk Hs Hle Hx HE. cbv zeta.
  assert (0 <= slot_off addr) as Ho by (apply Z.mod_pos_bound; lia).
  unfold stk_store, get_blk, set_stk, upd_blk in HE. cbv zeta in HE. res_inv. cbn [bs_blk] in *.
  match goal with H1 : _ = Ok (?v1, _), H2 : _ = Ok (?v2, _) |- _ =>
    destruct (place_Ok value size (slot_off addr) _ _ _ _ _ Hs Ho Hle Hx H1 H2)
      as (Hb & Hv & Hd) end.
  apply py_index_Ok in E4; [|done]. apply py_setitem_Ok in E6; [|done]. subst v6.
  destruct (combine_Ok _ _ _ _ _ _ _ _ Hs Ho Hle Hx Hv Hd E5) as (Hb' & Hu & Hsp).
  exists v5, v4. rewrite Hb', Hb in *. cbn [bs_blk] in *. done.
Qed.

(** ** Bytes of the new stack *)

Lemma slot_decomp a : a = 8 * (- slot_idx a - 1) + slot_off a.
Proof. unfold slot_idx, slot_off. pose proof (Z.div_mod a 8 ltac:(lia)). lia. Qed.

Lemma slot_off_range a : 0 <= slot_off a < 8.
Proof. apply Z.mod_pos_bound. lia. Qed.

Lemma slot_unique k off a : 0 <= off < 8 → a = 8 * (- k - 1) + off →
  slot_idx a = k ∧ slot_off a = off.
Proof.
  intros Ho Ha. pose proof (slot_decomp a). pose proof (slot_off_range a). lia.
Qed.

Lemma spliced_byte_at old off size x r j : spliced 64 (wrap 64 old) (off * 8) size x r →
  0 <= off → 0 <= j < 8 → 0 <= size →
  byte_at r j = if (off <=? j) && (j <? off + size) then byte_at x (j - off) else byte_at old j.
Proof.
  intros Hsp Ho Hj Hs. unfold byte_at.
  rewrite (spliced_byte _ _ _ _ _ _ _ Hsp) by (rewrite ?Z.mod_mul; lia).
  rewrite Z.div_mul by lia. destruct (_ && _); [done|]. by apply (byte_at_wrap old 8 j).
Qed.

Lemma stack_byte_slot s a : 0 <= slot_idx a →
  stack_byte s a =
    (cell ← s !! Z.to_nat (slot_idx a) ≫= slot_cell; Some (byte_at cell (slot_off a))).
Proof. intros. unfold stack_byte. by rewrite (proj2 (Z.ltb_ge _ 0)). Qed.

Lemma stack_byte_Some s a y : stack_byte s a = Some y →
  0 <= slot_idx a ∧ ∃ v, s !! Z.to_nat (slot_idx a) = Some v ∧ is_none v = false ∧
    is_ptr v = false ∧ y = byte_at (den w v) (slot_off a).
Proof.
  unfold stack_byte, slot_cell. destruct (Z.ltb_spec (slot_idx a) 0); [done|].
  destruct (s !! Z.to_nat (slot_idx a)) as [v|]; simpl; [|done].
  destruct (is_none v) eqn:En, (is_ptr v) eqn:Ep; simpl; try done.
  intros [= <-]. eauto 10.
Qed.

Lemma stk_store_total addr size value s : 0 <= slot_idx addr →
  ∃ s', stk_store addr size value s = Ok (tt, s').
Proof.
  intros Hk. unfold stk_store, get_blk, set_stk, upd_blk, alu8, const8, new_num, new_binary.
  cbv zeta. unfold mbind, ST_bind, gets, modify, get_blk, gets, fresh, mret, ST_ret, lift.
  cbn [bs_blk stk set_store].
  set (g := stk (bs_blk s) ++ _).
  assert (Z.to_nat (slot_idx addr) < length g)%nat as Hl.
  { unfold g. rewrite length_app, length_replicate. lia. }
  apply lookup_lt_is_Some_2 in Hl as [old Hold].
  assert (py_index g (slot_idx addr) = Ok old) as Hi by (by apply py_index_Ok).
  assert (∀ x, py_setitem g (slot_idx addr) x = Ok (<[Z.to_nat (slot_idx addr) := x]> g)) as Hset.
  { intros x. apply lookup_lt_Some in Hold. unfold py_setitem. cbv zeta.
    rewrite (proj2 (Z.ltb_ge (slot_idx addr) 0)) by done.
    rewrite (proj2 (Z.ltb_ge (slot_idx addr) 0)) by done.
    by rewrite (proj2 (Z.leb_gt (Z.of_nat (length g)) (slot_idx addr))) by lia. }
  destruct (size <? 8), (negb (slot_off addr =? 0));
    cbn [bs_blk set_oid next_oid alloc_bstate stk set_store]; fold g; rewrite Hi;
    (destruct (_ || _); cbn [bs_blk set_oid next_oid alloc_bstate stk set_store]; fold g;
     rewrite Hset; eauto).
Qed.

(** The byte a store leaves at an address of its own slot. *)
Lemma stored_byte old u off size x a base : spliced 64 (wrap 64 (den w old)) (off * 8) size x (den w u) →
  off = slot_off base → slot_idx a = slot_idx base → 0 < size → off + size <= 8 →
  byte_at (den w u) (slot_off a) =
    if (base <=? a) && (a <? base + size) then byte_at x (a - base)
    else byte_at (den w old) (slot_off a).
Proof.
  intros Hsp -> Hs Hsz Hle. pose proof (slot_decomp a). pose proof (slot_decomp base).
  pose proof (slot_off_range a). pose proof (slot_off_range base).
  rewrite (spliced_byte_at _ _ _ _ _ _ Hsp) by lia.
  destruct (Z.leb_spec (slot_off base) (slot_off a)), (Z.leb_spec base a),
    (Z.ltb_spec (slot_off a) (slot_off base + size)), (Z.ltb_spec a (base + size));
    cbn [andb]; try lia; f_equal; lia.
Qed.

(** A store inside the slots that were there or are added. *)
Lemma stack_byte_grown s n k u a y : stack_byte s a = Some y → Z.to_nat (slot_idx a) ≠ k →
  stack_byte (<[k := u]> (s ++ replicate n VNone)) a = Some y.
Proof.
  intros H Hne. pose proof (stack_byte_Some _ _ _ H) as (Hi & v & Hv & _).
  rewrite stack_byte_slot in H |- * by done. rewrite list_lookup_insert_ne by done.
  by rewrite (lookup_app_l_Some _ _ _ _ Hv), <- Hv.
Qed.

Lemma fits_VNone : fits VNone.
Proof. intros ?. done. Qed.

(** C23 The symbolic stack implements a byte memory: a store of a scalar of [size]
    bytes that stays inside one slot of 8 bytes succeeds, makes the bytes at [addr .. addr + size) those of the value,
    leaves every other byte that was set as it was, keeps every slot within the
    width it declares and changes nothing but the stack. Of a store that crosses
    into the next slot the code keeps only the part in the first. *)
Theorem stk_store_sound addr size value s :
  addr < 0 → 0 < size <= 8 → slot_off addr + size <= 8 →
  is_none value = false → is_ptr value = false → fits value →
  ∃ s', stk_store addr size value s = Ok (tt, s') ∧
    (∀ a, addr <= a < addr + size →
       stack_byte (stk (bs_blk s')) a = Some (byte_at (den w value) (a - addr))) ∧
    (∀ a y, ¬ (addr <= a < addr + size) → stack_byte (stk (bs_blk s)) a = Some y →
       stack_byte (stk (bs_blk s')) a = Some y) ∧
    (Forall fits (stk (bs_blk s)) → Forall fits (stk (bs_blk s'))) ∧
    bs_blk s' = set_store (regs (bs_blk s)) (stk (bs_blk s')) (bs_blk s).
Proof.
  intros Ha Hs Hle Hn Hp Hf. destruct (Hf Hn Hp) as [Hx Hsz].
  assert (0 <= slot_idx addr) as Hk by
    (pose proof (slot_decomp addr); pose proof (slot_off_range addr); lia).
  destruct (stk_store_total addr size value s Hk) as [s' HE]. exists s'. split; [done|].
  destruct (stk_store_slot _ _ _ _ _ Hk Hs Hle Hx HE) as (u & old & Hb & Hold & Hu & Hsp).
  assert (is_none u = false ∧ is_ptr u = false) as [Hun Hup] by
    (destruct Hu as [(-> & _) | (_ & ? & ? & _)]; [by split|by split]).
  set (n := Z.to_nat (slot_idx addr + 1 - _)) in *. rewrite Hb. cbn [stk set_store].
  assert (∀ a, slot_idx a = slot_idx addr → stack_byte (<[Z.to_nat (slot_idx addr):=u]>
      (stk (bs_blk s) ++ replicate n VNone)) a = Some (byte_at (den w u) (slot_off a))) as Hnew.
  { intros a Hi. rewrite stack_byte_slot, Hi by lia.
    rewrite list_lookup_insert_eq by (by eapply lookup_lt_Some). simpl.
    unfold slot_cell. by rewrite Hun, Hup. }
  split_and!; [| | |done].
  - intros a Hin. assert (slot_idx a = slot_idx addr) as Hi.
    { apply (slot_unique _ (slot_off addr + (a - addr))).
      - pose proof (slot_off_range addr). lia.
      - pose proof (slot_decomp addr). lia. }
    rewrite Hnew, (stored_byte _ _ _ _ _ _ addr Hsp) by (done || lia).
    by rewrite (proj2 (Z.leb_le addr a)), (proj2 (Z.ltb_lt a (addr + size))) by lia.
  - intros a y Hout Hy. destruct (decide (slot_idx a = slot_idx addr)) as [Hi | Hi].
    + rewrite Hnew, (stored_byte _ _ _ _ _ _ addr Hsp) by (done || lia).
      apply stack_byte_Some in Hy as (_ & v & Hv & _ & _ & ->). rewrite Hi in Hv.
      apply (lookup_app_l_Some _ (replicate n VNone)) in Hv. simplify_eq.
      destruct (Z.leb_spec addr a), (Z.ltb_spec a (addr + size)); cbn [andb]; try done. lia.
    + apply stack_byte_grown; [done|].
      pose proof (stack_byte_Some _ _ _ Hy) as [? _]. lia.
  - intros Hall. apply Forall_insert; [|].
    + apply Forall_app_2; [done|]. apply Forall_replicate, fits_VNone.
    + destruct Hu as [(-> & _) | (_ & _ & _ & Hvs)]; [done|]. intros _ _.
      split; [apply Hsp|]. intros sz Hz. rewrite Hvs in Hz. injection Hz as <-. lia.
Qed.

(** ** Loads *)

Lemma cells_byte cs q r c : cs !! q = Some c → 0 <= r < 8 →
  byte_at (cells_val cs) (8 * Z.of_nat q + r) = byte_at c r.
Proof.
  intros Hq Hr. revert q Hq. induction cs as [|c' cs IH]; intros [|q] Hq; simplify_eq/=.
  - apply byte_at_ext; [lia..|]. intros n Hn.
    rewrite Z.add_comm, (Z.mul_comm (2 ^ 64)).
    rewrite testbit_concat by (try apply wrap_range; lia).
    replace (8 * Z.of_nat 0 + r) with r by lia.
    by rewrite testbit_wrap, (proj2 (Z.ltb_lt (n + 8 * r) 64)) by lia.
  - rewrite <- (IH q Hq). apply byte_at_ext; [lia..|]. intros n Hn.
    rewrite Z.add_comm, (Z.mul_comm (2 ^ 64)).
    rewrite testbit_concat by (try apply wrap_range; lia).
    rewrite (proj2 (Z.ltb_ge _ 64)) by lia. f_equal. lia.
Qed.

Lemma byteseq_byte o cs size off j q c : 0 <= j < size → 0 <= off →
  cs !! q = Some c → Z.of_nat q = (off + j) / 8 →
  byte_at (den w (VByteSeq o cs size off)) j = byte_at (den w c) ((off + j) mod 8).
Proof.
  intros Hj Ho Hq Hd. simpl den. rewrite byte_at_wrap, byte_at_shift by lia.
  rewrite <- (cells_byte (map (den w) cs) q _ (den w c)).
  - f_equal. pose proof (Z.div_mod (off + j) 8 ltac:(lia)). lia.
  - by rewrite list_lookup_fmap, Hq.
  - apply Z.mod_pos_bound. lia.
Qed.

Definition bytes_of (s : list val) (addr size : Z) (v : val) : Prop :=
  0 <= den w v < 2 ^ (8 * size) ∧
  ∀ j, 0 <= j < size → stack_byte s (addr + j) = Some (byte_at (den w v) j).

Lemma addr_slot addr j : 0 <= j →
  slot_idx (addr + j) = slot_idx addr - (slot_off addr + j) / 8 ∧
  slot_off (addr + j) = (slot_off addr + j) mod 8.
Proof.
  intros Hj. apply slot_unique; [apply Z.mod_pos_bound; lia|].
  pose proof (slot_decomp addr). pose proof (Z.div_mod (slot_off addr + j) 8 ltac:(lia)). lia.
Qed.

(** A byte sequence of the slots below the access. *)
Lemma load_bytes (s : list val) addr size o cs : 0 < size →
  (∀ j, 0 <= j < size → is_Some (stack_byte s (addr + j))) →
  (∀ q v, Z.of_nat q < (slot_off addr + size + 7) / 8 → 0 <= slot_idx addr - Z.of_nat q →
     s !! Z.to_nat (slot_idx addr - Z.of_nat q) = Some v → cs !! q = Some v) →
  bytes_of s addr size (VByteSeq o cs size (slot_off addr)).
Proof.
  intros Hs Hall Hcs. pose proof (slot_off_range addr) as Ho.
  split; [simpl den; apply wrap_range; lia|]. intros j Hj.
  destruct (Hall j Hj) as [y Hy]. rewrite Hy.
  apply stack_byte_Some in Hy as (Hi & v & Hv & _ & _ & ->).
  destruct (addr_slot addr j ltac:(lia)) as [Hsi Hso].
  pose proof (Z.div_pos (slot_off addr + j) 8 ltac:(lia) ltac:(lia)) as Hq.
  rewrite (byteseq_byte _ _ _ _ _ (Z.to_nat ((slot_off addr + j) / 8)) v), Hso;
    try lia; [done|].
  apply Hcs.
  - apply Z.lt_le_trans with ((slot_off addr + j) / 8 + 1); [lia|].
    rewrite <- Z.div_add by lia. apply Z.div_le_mono; lia.
  - lia.
  - rewrite Z2Nat.id by lia. by rewrite <- Hsi.
Qed.

(** A slot wider than the access is masked. *)
Lemma load_mask_den o o' v size i : 0 < size <= 8 →
  den w (VBin o (mk_binary AND v (VNum o' (Z.shiftl 1 (size * 8) - 1) size (-1)) 0 8 i)) =
    wrap (8 * size) (den w v).
Proof.
  intros Hs. simpl den. change (Z.shiftl 1 (size * 8) - 1) with (mask (size * 8)).
  assert (0 <= mask (size * 8) < 2 ^ (8 * size)) as Hm.
  { rewrite mask_eq, Z.ones_equiv, (Z.mul_comm size) by lia.
    pose proof (pow2_pos (8 * size) ltac:(lia)). lia. }
  pose proof (Z.pow_le_mono_r 2 (8 * size) 64 ltac:(lia) ltac:(lia)).
  rewrite (wrap_small (8 * size)) by done.
  rewrite <- (wrap_small 64 (mask (size * 8))) by lia.
  rewrite reg_bits_8, isa_and_mask by lia. f_equal. lia.
Qed.

Lemma new_byteseq_run cs size off (s : bstate) : ∃ o s',
  new_byteseq cs size off s = Ok (VByteSeq o cs size off, s') ∧ bs_blk s' = bs_blk s.
Proof. eexists _, _. split; reflexivity. Qed.

Lemma load_slot_bytes s addr size v u : 0 < size → slot_off addr = 0 → 0 <= slot_idx addr →
  size <= 8 → s !! Z.to_nat (slot_idx addr) = Some v → is_none v = false → is_ptr v = false →
  den w u = wrap (8 * size) (den w v) → bytes_of s addr size u.
Proof.
  intros Hs Ho Hk Hle Hv Hn Hp Hu. split; [rewrite Hu; apply wrap_range; lia|].
  intros j Hj. destruct (addr_slot addr j ltac:(lia)) as [Hsi Hso].
  rewrite Ho, Z.add_0_l in Hsi, Hso. rewrite Z.div_small in Hsi by lia.
  rewrite Z.mod_small in Hso by lia.
  rewrite stack_byte_slot, Hsi, Z.sub_0_r, Hv, Hso by lia. simpl.
  unfold slot_cell. rewrite Hn, Hp. simpl. by rewrite Hu, byte_at_wrap by lia.
Qed.

(** The slots an access that crosses slots reads. *)
Definition slots_below (s : list val) (addr size : Z) : list val :=
  map (λ i, if (0 <=? slot_idx addr - i) && (slot_idx addr - i <? Z.of_nat (length s))
            then nth (Z.to_nat (slot_idx addr - i)) s VNone else VNone)
      (zrange 0 ((slot_off addr + size + 7) / 8)).

Lemma load_across s addr size o : 0 < size <= 8 →
  (∀ j, 0 <= j < size → is_Some (stack_byte s (addr + j))) →
  bytes_of s addr size (VByteSeq o (slots_below s addr size) size (slot_off addr)).
Proof.
  intros Hs Hall. apply load_bytes; [lia|done|]. intros q v Hq Hi Hv.
  unfold slots_below, zrange. rewrite list_lookup_fmap, lookup_seqZ_lt by lia. simpl.
  pose proof (lookup_lt_Some _ _ _ Hv). rewrite Z.add_0_l.
  rewrite (proj2 (Z.leb_le _ _)), (proj2 (Z.ltb_lt _ _)) by lia. cbn [andb].
  f_equal. by apply nth_lookup_Some.
Qed.

(** A load of [size] bytes whose bytes are all set succeeds, returns a value
    of exactly those bytes and changes nothing, within one slot or across
    several. *)
Theorem stk_load_sound addr size s :
  0 < size <= 8 → addr + size <= 0 → Forall fits (stk (bs_blk s)) →
  (∀ j, 0 <= j < size → is_Some (stack_byte (stk (bs_blk s)) (addr + j))) →
  ∃ v s', stk_load addr size s = Ok (v, s') ∧ bs_blk s' = bs_blk s ∧
    bytes_of (stk (bs_blk s)) addr size v.
Proof.
  intros Hs Ha Hfit Hall. pose proof (slot_off_range addr) as Ho.
  pose proof (slot_decomp addr) as Hdec. assert (0 <= slot_idx addr) as Hk by lia.
  unfold stk_load, get_blk. cbv zeta. unfold mbind at 1, ST_bind at 1, gets.
  destruct (Z.ltb_spec 8 (slot_off addr + size)) as [Hx | Hx].
  { destruct (new_byteseq_run (slots_below (stk (bs_blk s)) addr size) size (slot_off addr) s)
      as (o & s' & HE & Hb).
    eexists _, _. split_and!; [exact HE|done|]. by apply load_across. }
  destruct (Hall 0 ltac:(lia)) as [y Hy]. rewrite Z.add_0_r in Hy.
  apply stack_byte_Some in Hy as (_ & v & Hv & Hn & Hp & _).
  rewrite <- py_index_Ok in Hv by done. rewrite Hv. apply py_index_Ok in Hv; [|done].
  rewrite lift_bind.
  destruct (Z.eqb_spec (slot_off addr) 0) as [H0 | H0]; cbn [negb].
  2:{ destruct (new_byteseq_run [v] size (slot_off addr) s) as (o & s' & -> & Hb).
    eexists _, _. split_and!; [done..|]. apply load_bytes; [lia|done|].
    intros q u Hq Hi Hu.
    assert ((slot_off addr + size + 7) / 8 < 2) by (apply Z.div_lt_upper_bound; lia).
    destruct q; [|lia]. rewrite Z.sub_0_r, Hv in Hu. done. }
  rewrite Forall_lookup in Hfit. destruct (Hfit _ _ Hv Hn Hp) as [Hr Hsz].
  rewrite Hp. destruct (vsize v) as [sz|] eqn:Esz; [|by destruct v].
  destruct (Hsz sz eq_refl) as [Hpos Hlt]. rewrite lift_bind, orb_false_r.
  destruct (Z.leb_spec sz size).
  - eexists _, _. split_and!; [done..|]. eapply load_slot_bytes; try done; try lia.
    symmetry. apply wrap_small. destruct (Z.ltb_spec sz 8).
    + pose proof (Z.pow_le_mono_r 2 (8 * sz) (8 * size) ltac:(lia) ltac:(lia)).
      specialize (Hlt ltac:(lia)). lia.
    + by replace size with 8 by lia.
  - eexists _, _. split_and!; [reflexivity|done|].
    eapply load_slot_bytes; try done; try lia. by apply load_mask_den.
Qed.
End stack.

(** A pointer spilled to an aligned slot comes back as the same object. *)
Theorem stk_spill_pointer addr o p s s1 :
  addr < 0 → slot_off addr = 0 → stk_store addr 8 (VPtr o p) s = Ok (tt, s1) →
  stk_load addr 8 s1 = Ok (VPtr o p, s1).
Proof.
  intros Ha Ho HE.
  assert (0 <= slot_idx addr) as Hk by (pose proof (slot_decomp addr); lia).
  destruct (stk_store_slot (λ _ _, 0) _ 8 (VPtr o p) _ _ Hk ltac:(lia) ltac:(lia)
    ltac:(simpl; lia) HE) as (u & old & Hb & Hold & [(-> & _) | [? _]] & _); [|lia].
  unfold stk_load, get_blk, gets. unfold mbind at 1, ST_bind at 1. cbv zeta.
  rewrite Ho, Hb. cbn [stk set_store].
  rewrite (proj2 (py_index_Ok _ _ (VPtr o p) Hk)); [done|].
  apply list_lookup_insert_eq. by eapply lookup_lt_Some.
Qed.

(** ** Concrete runs *)

Definition ex_block (s : list val) : bstate :=
  mk_bs (set_store (replicate 11 VNone) s (new_Block 0 0 1)) 10 0.

Lemma ex_fits w n : 0 <= n < 2 ^ 64 → fits w (VNum 1 n 8 (-1)).
Proof. intros Hn _ _. simpl. rewrite wrap_small by done. split; [done|].
  intros sz [= <-]. lia. Qed.

(** Storing the byte 0xAB at -7 into a slot that holds 0x1122. *)
Lemma stk_store_sound_witness : ∃ s',
  stk_store (-7) 1 (VNum 2 0xAB 8 (-1)) (ex_block [VNum 1 0x1122 8 (-1)]) = Ok (tt, s') ∧
  stack_byte (λ _ _, 0) (stk (bs_blk s')) (-7) = Some 0xAB ∧
  stack_byte (λ _ _, 0) (stk (bs_blk s')) (-8) = Some 0x22.
Proof.
  destruct (stk_store_sound (λ _ _, 0) (-7) 1 (VNum 2 0xAB 8 (-1))
    (ex_block [VNum 1 0x1122 8 (-1)])) as (s' & HE & H1 & H2 & _).
  - lia.
  - lia.
  - vm_compute. discriminate.
  - reflexivity.
  - reflexivity.
  - apply (ex_fits (λ _ _, 0) 0xAB). lia.
  - exists s'. split; [exact HE|split]; [apply (H1 (-7)); lia|].
    apply H2; [lia|reflexivity].
Defined.

(** Loading two bytes at -7. *)
Lemma stk_load_sound_witness : ∃ v s',
  stk_load (-7) 2 (ex_block [VNum 1 0x112233 8 (-1)]) = Ok (v, s') ∧
  bytes_of (λ _ _, 0) [VNum 1 0x112233 8 (-1)] (-7) 2 v.
Proof.
  destruct (stk_load_sound (λ _ _, 0) (-7) 2 (ex_block [VNum 1 0x112233 8 (-1)]))
    as (v & s' & HE & _ & Hb).
  - lia.
  - lia.
  - constructor; [apply (ex_fits (λ _ _, 0) 0x112233); lia|constructor].
  - intros j Hj. assert (j = 0 ∨ j = 1) as [-> | ->] by lia; vm_compute; eauto.
  - exists v, s'. split; [exact HE|exact Hb].
Defined.

Lemma stk_spill_pointer_witness :
  let p := ptr_default PTR_TO_PKT 14 VNone (-1) (Some (-1)) in
  ∃ s1, stk_load (-16) 8 s1 = Ok (VPtr 3 p, s1).
Proof.
  intros p. destruct (stk_store_total (-16) 8 (VPtr 3 p) (ex_block [])) as [s1 HE];
    [vm_compute; discriminate|].
  exists s1. apply (stk_spill_pointer (-16) 3 p (ex_block []) s1);
    [lia|reflexivity|exact HE].
Defined.
