(* ===== verification/MergeSound.v ===== *)
(** Merging the predecessors of a block is sound ([track/block.py]): a phi
    partitions the incoming edges and carries, on each, the value of that
    predecessor; a merged pointer is known (not) to be null only where every
    predecessor's is; the packet-length facts that survive hold whichever
    predecessor was taken. *)

From S2P Require Import Prelude Words Constants Expr Record Denote Block.

(** ** Grouping *)

Section group.
Context {A : Type} (same : A → A → bool).
Implicit Types (pe : list pred_edge) (xs vs : list A) (es : list (list pred_edge)).

Lemma find_index_Some xs x k : find_index same xs x = Some k →
  ∃ v, xs !! k = Some v ∧ same v x = true.
Proof.
  revert k. induction xs as [|y xs IH]; intros k Hk; simplify_eq/=.
  destruct (same y x) eqn:E; simplify_eq; [by exists y|].
  destruct (find_index same xs x) as [k'|]; simplify_eq/=. by apply IH.
Qed.

(** The values and edges collected so far: [seen] lists the pairs processed. *)
Definition grouped (seen : list (pred_edge * A)) (st : list A * list (list pred_edge)) : Prop :=
  length st.1 = length st.2 ∧ mjoin st.2 ≡ₚ seen.*1 ∧ (∀ v, v ∈ st.1 → v ∈ seen.*2) ∧
  ∀ e x, (e, x) ∈ seen → ∃ k v l, st.1 !! k = Some v ∧ st.2 !! k = Some l ∧ e ∈ l ∧
    (v = x ∨ same v x = true).

Lemma join_alter es k l e : es !! k = Some l →
  mjoin (alter (λ l, l ++ [e]) k es) ≡ₚ e :: mjoin es.
Proof.
  revert k. induction es as [|l' es IH]; intros [|k] Hk; simplify_eq/=.
  - rewrite <- app_assoc. simpl. by rewrite Permutation_middle.
  - rewrite (IH k Hk). by rewrite Permutation_middle.
Qed.

Lemma group_step_ok seen st e x : grouped seen st →
  grouped (seen ++ [(e, x)]) (group_step same st (e, x)).
Proof.
  destruct st as [vs es]. intros (Hl & Hp & Hin & Hall). unfold group_step; simpl in *.
  destruct (find_index same vs x) as [k|] eqn:Ek; unfold grouped; simpl.
  - apply find_index_Some in Ek as (v & Hv & Hs).
    destruct (lookup_lt_is_Some_2 es k) as [l Hlk]; [rewrite <- Hl; by eapply lookup_lt_Some|].
    rewrite length_alter, !fmap_app. split_and!; [done| | |].
    + rewrite (join_alter _ _ _ _ Hlk), Hp. simpl. by rewrite Permutation_cons_append.
    + intros v' Hv'. apply elem_of_app. auto.
    + intros e' x' Hx'. apply elem_of_app in Hx' as [Hx' | Hx'].
      * destruct (Hall _ _ Hx') as (k' & v' & l' & ? & Hl' & ? & ?). exists k', v'.
        destruct (decide (k' = k)) as [-> | ?].
        -- exists (l' ++ [e]). rewrite list_lookup_alter_eq, Hl', elem_of_app. auto.
        -- exists l'. by rewrite list_lookup_alter_ne.
      * apply list_elem_of_singleton in Hx'. simplify_eq. exists k, v, (l ++ [e]).
        rewrite list_lookup_alter_eq, Hlk, elem_of_app, list_elem_of_singleton. auto 10.
  - rewrite !length_app, !fmap_app, join_app. simpl. split_and!; [lia| | |].
    + by rewrite Hp.
    + intros v' Hv'. rewrite elem_of_app in *. destruct Hv'; auto.
    + intros e' x' Hx'. apply elem_of_app in Hx' as [Hx' | Hx'].
      * destruct (Hall _ _ Hx') as (k' & v' & l' & ? & ? & ? & ?). exists k', v', l'.
        erewrite !lookup_app_l_Some by done. auto.
      * apply list_elem_of_singleton in Hx'. simplify_eq. exists (length vs), x, [e].
        rewrite !lookup_app_r, Hl, Nat.sub_diag by lia. simpl.
        rewrite list_elem_of_singleton. auto.
Qed.

Lemma group_edges_ok pe xs : grouped (zip pe xs) (group_edges same pe xs).
Proof.
  unfold group_edges. apply (fold_left_ind _ grouped).
  - split_and!; try done. intros e x Hx. by apply not_elem_of_nil in Hx.
  - intros seen [e x] st _ H. by apply group_step_ok.
Qed.

(** What the grouping of equally long lists gives. *)
Lemma group_edges_spec pe xs vs es : length pe = length xs →
  group_edges same pe xs = (vs, es) →
  mjoin es ≡ₚ pe ∧ length vs = length es ∧ (∀ v, v ∈ vs → v ∈ xs) ∧
  ∀ i e x, pe !! i = Some e → xs !! i = Some x →
    ∃ k v l, vs !! k = Some v ∧ es !! k = Some l ∧ e ∈ l ∧ (v = x ∨ same v x = true).
Proof.
  intros Hl HE. pose proof (group_edges_ok pe xs) as (H1 & H2 & H3 & H4).
  rewrite HE in *. simpl in *. rewrite fst_zip in H2 by lia. rewrite snd_zip in H3 by lia.
  split_and!; [done..|]. intros i e x He Hx. apply (H4 e x).
  apply list_elem_of_lookup. exists i. rewrite lookup_zip_with, He. simpl. by rewrite Hx.
Qed.
End group.

(** ** Scalars *)

Lemma resolve_scalar c v s : is_ptr v = false → resolve_entry c v s = Ok (v, s).
Proof. intros Hp. unfold resolve_entry. destruct c as [[| |f]|], v; done. Qed.

Lemma resolve_scalars cs vs s : length cs = length vs → existsb is_ptr vs = false →
  mapST (λ cv, resolve_entry cv.1 cv.2) (zip cs vs) s = Ok (vs, s).
Proof.
  revert cs. induction vs as [|v vs IH]; intros [|c cs] Hl Hp; simplify_eq/=; [done|].
  apply orb_false_iff in Hp as [Hv Hvs].
  unfold mbind, ST_bind in *. rewrite resolve_scalar by done. by rewrite IH.
Qed.

(** Edge conditions come as a list as long as the entries, or not at all. *)
Definition conds_for {A} (conds : option (list A)) (n : nat) : Prop :=
  ∀ l, conds = Some l → length l = n.

Lemma merge_entry_scalars pe entries reg conds s u s' :
  conds_for conds (length entries) → existsb is_ptr entries = false →
  merge_entry pe entries reg conds s = Ok (u, s') → u ≠ VNone →
  ∃ first, head entries = Some first ∧ existsb is_none entries = false ∧
    merge_scalars first pe entries reg s = Ok (u, s').
Proof.
  intros Hc Hp HE Hu. unfold merge_entry in HE.
  assert (∀ n, merge_entry_f n pe entries reg conds s = Ok (u, s') →
    (if existsb is_none entries then mret VNone else merge_uniform pe entries reg) s = Ok (u, s'))
    as Hm.
  { intros n Hn. destruct n; simpl in Hn; unfold mbind at 1, ST_bind at 1 in Hn;
      (rewrite resolve_scalars in Hn; [|destruct conds as [l|]; simpl;
        [by apply Hc|apply length_map]|done]); rewrite Hp in Hn; done. }
  apply Hm in HE. destruct (existsb is_none entries) eqn:En; [by res_inv|].
  unfold merge_uniform in HE. res_inv.
  destruct entries as [|x xs]; [done|]. rewrite py_index_Ok in E by lia. simpl in E. simplify_eq.
  exists v. split_and!; [done..|]. simpl in Hp. apply orb_false_iff in Hp as [Hp _].
  by destruct v.
Qed.

(** [e] selects the value [v] of the phi [j]. *)
Definition selects (j : join_ val) (e : pred_edge) (v : val) : Prop :=
  ∃ k l, j_values j !! k = Some v ∧ j_edges j !! k = Some l ∧ e ∈ l.

Lemma merge_scalars_cases first pe entries reg s u s' :
  length pe = length entries → head entries = Some first → existsb is_ptr entries = false →
  merge_scalars first pe entries reg s = Ok (u, s') →
  (u = first ∧ ∀ x, x ∈ entries → is_same x first = true ∨
     is_num x = true ∧ is_num first = true ∧ _const x = _const first) ∨
  ∃ o j, u = VJoin o j ∧ j_block_idx j = num (bs_blk s) ∧ j_reg_num j = reg ∧
    mjoin (j_edges j) ≡ₚ pe ∧ length (j_values j) = length (j_edges j) ∧
    (∀ v, v ∈ j_values j → v ∈ entries) ∧
    sources (bs_blk s') = sources (bs_blk s) ++ [u] ∧
    ∀ i e x, pe !! i = Some e → entries !! i = Some x →
      ∃ v, selects j e v ∧ (v = x ∨ py_same v x = true).
Proof.
  intros Hl Hh Hp HE. unfold merge_scalars in HE. rewrite Hp in HE.
  destruct (is_num first && _) eqn:Enum.
  { left. res_inv. split; [done|]. intros x Hx. right.
    apply andb_true_iff in Enum as [Hn Hall]. rewrite forallb_forall in Hall.
    apply list_elem_of_In in Hx. specialize (Hall x Hx). bool_prop. done. }
  destruct (existsb (λ r, negb (is_same r first)) entries) eqn:Eex.
  - destruct (group_edges py_same pe entries) as [values edges] eqn:Eg.
    unfold get_blk, gets, new_join, add_source, upd_blk in HE. res_inv.
    unfold fresh in *. simplify_eq. right.
    destruct (group_edges_spec _ _ _ _ _ Hl Eg) as (H1 & H2 & H3 & H4).
    eexists _, _. split_and!; try done. intros i e x Hi Hx.
    destruct (H4 i e x Hi Hx) as (k & v & l & ? & ? & ? & ?). exists v. split; [|done].
    by exists k, l.
  - left. res_inv. split; [done|]. intros x Hx. left.
    destruct (is_same x u) eqn:Es; [done|].
    assert (existsb (λ r, negb (is_same r u)) entries = true) as Ht.
    { apply existsb_exists. exists x. rewrite Es. split; [by apply list_elem_of_In|done]. }
    by rewrite Ht in Eex.
Qed.

Lemma join_unique {A} (ls : list (list A)) k k' l l' e : NoDup (mjoin ls) →
  ls !! k = Some l → ls !! k' = Some l' → e ∈ l → e ∈ l' → k = k'.
Proof.
  revert k k'. induction ls as [|l0 ls IH]; intros [|k] [|k'] Hnd Hk Hk' He He';
    simplify_eq/=; [done| | |].
  - apply NoDup_app in Hnd as (_ & Hd & _). destruct (Hd e He).
    apply list_elem_of_join. exists l'. split; [done|by eapply list_elem_of_lookup_2].
  - apply NoDup_app in Hnd as (_ & Hd & _). destruct (Hd e He').
    apply list_elem_of_join. exists l. split; [done|by eapply list_elem_of_lookup_2].
  - apply NoDup_app in Hnd as (_ & _ & Hnd). f_equal. by eapply IH.
Qed.

(** A constant that means the same number whatever the width of its use. *)
Definition num_ok (v : val) : Prop :=
  ∀ o n sz i, v = VNum o n sz i → wrap (8 * sz) n = wrap 64 n.

(** C24 The value merged from scalars is the predecessor's own: it is one of the
    entries, or a phi recorded among the block's sources whose edges partition
    the incoming edges, each selecting one value. On the edge a run takes, where
    the phi reads the value it selects, the merged value means what the entry of
    that predecessor means. *)
Theorem merge_entry_sound w pe entries reg conds s u s' :
  length pe = length entries → conds_for conds (length entries) →
  existsb is_ptr entries = false →
  (∀ a b, a ∈ entries → b ∈ entries → py_same a b = true → den w a = den w b) →
  Forall num_ok entries →
  merge_entry pe entries reg conds s = Ok (u, s') → u ≠ VNone →
  (u ∈ entries ∨ ∃ o j, u = VJoin o j ∧ mjoin (j_edges j) ≡ₚ pe ∧ u ∈ sources (bs_blk s') ∧
     (NoDup pe → ∀ e v v', selects j e v → selects j e v' → v = v')) ∧
  ∀ i e x, pe !! i = Some e → entries !! i = Some x →
    (∀ o j v, u = VJoin o j → j_block_idx j = num (bs_blk s) → selects j e v →
       den w u = den w v) →
    den w u = den w x.
Proof.
  intros Hl Hc Hp Hsame Hnum HE Hu.
  destruct (merge_entry_scalars _ _ _ _ _ _ _ Hc Hp HE Hu) as (first & Hh & _ & HM).
  assert (first ∈ entries) as Hf by (destruct entries; simplify_eq/=; left).
  destruct (merge_scalars_cases _ _ _ _ _ _ _ Hl Hh Hp HM)
    as [[-> Hall] | (o & j & -> & Hb & _ & Hperm & Hlen & Hin & Hsrc & Hsel)].
  - split; [by left|]. intros i e x _ Hx _. apply list_elem_of_lookup_2 in Hx.
    destruct (Hall x Hx) as [Hs | (Hn1 & Hn2 & Hcst)].
    + symmetry. apply Hsame; [done..|]. unfold py_same. by rewrite Hs.
    + rewrite Forall_forall in Hnum. pose proof (Hnum _ Hx) as H1. pose proof (Hnum _ Hf) as H2.
      destruct x, first; try done. simpl in *. simplify_eq.
      by rewrite (H1 _ _ _ _ eq_refl), (H2 _ _ _ _ eq_refl).
  - split.
    + right. exists o, j. split_and!; [done|done| |].
      { rewrite Hsrc. apply elem_of_app. right. by left. }
      intros Hnd e v v' (k & l & Hv & Hk & He) (k' & l' & Hv' & Hk' & He').
      rewrite <- Hperm in Hnd. rewrite (join_unique _ _ _ _ _ _ Hnd Hk Hk' He He') in Hv.
      by simplify_eq.
    + intros i e x Hi Hx Hw. destruct (Hsel i e x Hi Hx) as (v & Hs & Hv).
      rewrite (Hw o j v eq_refl Hb Hs). destruct Hv as [-> | Hv]; [done|].
      apply Hsame; [|by eapply list_elem_of_lookup_2|done].
      destruct Hs as (k & l & Hk & _). apply Hin. by eapply list_elem_of_lookup_2.
Qed.

(** Two predecessors, a constant and a load. *)
Lemma merge_entry_sound_witness :
  let pe := [(1, Fall); (2, Taken)] in
  let a := VNum 1 5 8 (-1) in
  let b := VScalar 2 8 7 in
  let u := VJoin 10 (mk_join 8 (-1) 3 0 [a; b] [[(1, Fall)]; [(2, Taken)]]) in
  let w : world := λ v _, match v with VJoin _ _ => 5 | _ => 9 end in
  den w u = den w a.
Proof.
  intros pe a b u w.
  apply (merge_entry_sound w pe [a; b] 0 None (mk_bs (new_Block 3 0 1) 10 0) u
    (mk_bs (set_out [] [u] (new_Block 3 0 1)) 11 0)) with (i := 0%nat) (e := (1, Fall)).
  - reflexivity.
  - intros l [=].
  - reflexivity.
  - intros x y Hx Hy. rewrite !elem_of_cons in Hx, Hy.
    destruct Hx as [-> | [-> | Hx]]; [| |by apply not_elem_of_nil in Hx];
      (destruct Hy as [-> | [-> | Hy]]; [| |by apply not_elem_of_nil in Hy]);
      vm_compute; intros; congruence.
  - repeat constructor; intros ? ? ? ? [=]; subst; reflexivity.
  - reflexivity.
  - discriminate.
  - reflexivity.
  - reflexivity.
  - intros o j v [=]; subst. intros _ (k & l & Hk & Hl & He).
    destruct k as [|[|k]]; simpl in Hk, Hl; simplify_eq; [reflexivity|].
    rewrite list_elem_of_singleton in He. discriminate.
Defined.

(** ** Pointers *)

(** Stamping a nullity phi changes nothing else of a pointer. *)
Lemma stamp_shape o p pe entries reg s u s' :
  _stamp_null_phi (VPtr o p) pe entries reg s = Ok (u, s') →
  ∃ o' phi, u = VPtr o' (set_phi phi p).
Proof.
  assert (VPtr o p = VPtr o (set_phi (p_null_phi p) p)) as Hself by (by destruct p).
  intros HE. unfold _stamp_null_phi in HE. destruct (negb _).
  { res_inv. rewrite Hself. eauto. }
  unfold copy_ptr in HE. res_inv. destruct (is_same v0 _); res_inv; [|eauto].
  rewrite Hself. eauto.
Qed.

Lemma with_nullity_shape o p n s u s' : _with_nullity o p n s = Ok (u, s') →
  ∃ o', u = VPtr o' (set_null n p).
Proof.
  unfold _with_nullity, copy_ptr. destruct (bool_decide _) eqn:E; intros; res_inv; [|eauto].
  apply bool_decide_eq_true in E. exists o. subst n. by destruct p.
Qed.

Lemma keep_first_shape o p n pe entries reg s u s' :
  keep_first o p n pe entries reg s = Ok (u, s') →
  ∃ o' phi, u = VPtr o' (set_phi phi (set_null n p)).
Proof.
  unfold keep_first. intros. res_inv. apply with_nullity_shape in E as [o' ->].
  by eapply stamp_shape.
Qed.

Lemma fold_nullity_Some l b : _fold_nullity l = Some b → ∀ n, n ∈ l → n = Some b.
Proof.
  unfold _fold_nullity. destruct l as [|x l]; [done|]. destruct (forallb _ _) eqn:E; [|done].
  intros -> n Hn. rewrite forallb_forall in E. apply list_elem_of_In in Hn.
  specialize (E n Hn). by bool_prop.
Qed.

Lemma ptrs_of_elem entries o p : VPtr o p ∈ entries → p ∈ ptrs_of entries.
Proof. intros H. unfold ptrs_of. apply list_elem_of_omap. by exists (VPtr o p). Qed.

(** What every pointer of a list has, read off a test over [ptrs_of]. *)
Lemma ptrs_of_none (f : ptr_ val → bool) entries o p :
  existsb f (ptrs_of entries) = false → VPtr o p ∈ entries → f p = false.
Proof.
  intros Hf Hp. destruct (f p) eqn:E; [|done]. rewrite <- Hf. symmetry.
  apply existsb_exists. exists p. split; [|done]. apply list_elem_of_In.
  by eapply ptrs_of_elem.
Qed.

Lemma merge_pkt_null o p n pe entries reg s o' q s' :
  merge_pkt o p n pe entries reg s = Ok (VPtr o' q, s') → p_checked_null q = n.
Proof.
  unfold merge_pkt. destruct (existsb _ (ptrs_of entries)); [intros; by res_inv|].
  destruct (existsb _ entries).
  - destruct (group_edges _ _ _). unfold new_PTR. intros. res_inv.
    match goal with H : _stamp_null_phi _ _ _ _ _ = _ |- _ =>
      apply stamp_shape in H as (? & ? & ?) end. by simplify_eq.
  - intros H. apply keep_first_shape in H as (? & ? & ?). by simplify_eq.
Qed.

Lemma merge_map_value_null o p n pe entries reg s o' q s' :
  merge_map_value o p n pe entries reg s = Ok (VPtr o' q, s') → p_checked_null q = n.
Proof.
  unfold merge_map_value. destruct (existsb _ _); [intros; by res_inv|].
  destruct (forallb _ _).
  - intros H. apply keep_first_shape in H as (? & ? & ?). by simplify_eq.
  - destruct (group_edges _ _ _). unfold copy_ptr. intros. res_inv.
    match goal with H : _stamp_null_phi _ _ _ _ _ = _ |- _ =>
      apply stamp_shape in H as (? & ? & ?) end. by simplify_eq.
Qed.

Lemma with_view_shape o p base s u s' : _with_view (VPtr o p) base s = Ok (u, s') →
  ∃ o' b, u = VPtr o' (set_base b p).
Proof.
  unfold _with_view, copy_ptr. destruct (_ || _); intros; res_inv; [|eauto].
  exists o, (p_base_id p). by destruct p.
Qed.

Lemma merge_other_null o p n pe entries reg s o' q s' :
  merge_other o p n pe entries reg s = Ok (VPtr o' q, s') → p_checked_null q = n.
Proof.
  unfold merge_other. destruct (existsb _ entries); intros; res_inv.
  apply with_nullity_shape in E as [o1 ->]. destruct (_ && _); res_inv.
  - apply with_view_shape in E0 as (o2 & b & ->). apply stamp_shape in H as (? & ? & ?).
    by simplify_eq.
  - apply stamp_shape in H as (? & ? & ?). by simplify_eq.
Qed.

(** The merge of pointers requires every entry to be a pointer of one type, and
    folds what is known of their nullity. *)
Lemma merge_pointers_null o p pe entries reg s o' q s' :
  merge_pointers o p pe entries reg s = Ok (VPtr o' q, s') →
  p_checked_null q = _fold_nullity (map p_checked_null (ptrs_of entries)) ∧
  ∀ x, x ∈ entries → ∃ ox px, x = VPtr ox px ∧ p_type px = p_type p.
Proof.
  unfold merge_pointers. destruct (negb _ || _) eqn:E; [intros; by res_inv|].
  bool_prop. intros HM. split.
  - destruct (_ =? PTR_TO_PKT); [by eapply merge_pkt_null|].
    destruct (_ =? PTR_TO_MAP_VALUE); [by eapply merge_map_value_null|by eapply merge_other_null].
  - intros x Hx. match goal with H : forallb _ _ = true |- _ =>
      rewrite forallb_forall in H; pose proof (H x (proj1 (list_elem_of_In _ _) Hx)) end.
    destruct x; try done. eexists _, _. split; [done|].
    match goal with H : existsb _ _ = false |- _ =>
      eapply (ptrs_of_none _ _ _ _ H) in Hx end. by bool_prop.
Qed.

(** ** What is known of a pointer's nullity *)

(** The packet view an adjusting helper's edge gives a context pointer. *)
Definition edge_view (c : option edge_fact) (p : ptr_ val) : ptr_ val :=
  match c with
  | Some (FAdjust f) => if p_type p =? PTR_TO_CTX then set_base (af_base_id f) p else p
  | _ => p
  end.

(** Whether the entry [p] is null on its edge: by its own mark, by the fact of
    the edge, or by that of the block. *)
Definition known_null (fs : list (option Z * PtrFacts)) (c : option edge_fact) (p : ptr_ val)
    : option bool :=
  let p := edge_view c p in
  let block_fact := pget fs (null_fact_id p) ≫= pf_null in
  match p_checked_null p, c with
  | Some b, _ => Some b
  | None, Some (FPtr f) =>
      if bool_decide (pf_base_id f = null_fact_id p) then pf_null f else block_fact
  | None, _ => block_fact
  end.

Lemma edge_view_run c v s v1 s1 :
  (match c with Some (FAdjust f) => _with_view v (af_base_id f) | _ => mret v end) s
    = Ok (v1, s1) →
  bs_blk s1 = bs_blk s ∧ match v with
    | VPtr o p => ∃ o', v1 = VPtr o' (edge_view c p)
    | _ => v1 = v
    end.
Proof.
  intros H. destruct c as [[| |f]|], v; try (simpl in H; res_inv; split; [done|]; try done;
    by eauto).
  unfold _with_view, copy_ptr, fresh in H. destruct (_ || _) eqn:E; res_inv;
    (split; [done|]); unfold edge_view.
  - apply orb_true_iff in E as [E | E]; bool_prop.
    + rewrite (proj2 (Z.eqb_neq _ _)) by done. eauto.
    + destruct (_ =? _); [|eauto]. exists o. subst. rewrite <- E. by destruct p.
  - apply orb_false_iff in E as [E _]. bool_prop. rewrite E. eauto.
Qed.

Lemma resolve_entry_run c v s v' s' : resolve_entry c v s = Ok (v', s') →
  bs_blk s' = bs_blk s ∧
  ∀ o p, v' = VPtr o p → ∃ o0 p0, v = VPtr o0 p0 ∧
    p_checked_null p = known_null (ptr_facts (bs_blk s)) c p0.
Proof.
  unfold resolve_entry. intros H. res_inv. apply edge_view_run in E as [Hb Hv].
  destruct v as [| | | | | | | | | | | | | | | | |o p];
    try (subst v0; simpl in H; res_inv; split; [done|]; intros ? ? [=]).
  destruct Hv as [o1 ->]. set (q := edge_view c p) in *.
  unfold get_blk, gets in H. destruct (bool_decide (p_checked_null q = None)) eqn:En; bool_prop.
  2:{ res_inv. split; [done|]. intros ? ? [=]; subst. eexists _, _. split; [done|].
    unfold known_null. fold q. by destruct (p_checked_null q). }
  res_inv. rewrite Hb in H.
  set (n := match c with Some (FPtr f) => _ | _ => _ end) in H.
  assert (known_null (ptr_facts (bs_blk s)) c p = mjoin n) as Hn.
  { unfold known_null, n. fold q. rewrite En.
    destruct c as [[f| |]|]; try (by destruct (pget _ _)).
    destruct (bool_decide _); [done|]. by destruct (pget _ _). }
  destruct n as [[[]|]|]; res_inv.
  - apply new_num_blk in H as [[o' ->] ?]. split; [congruence|]. intros ? ? [=].
  - unfold _with_nullity in H. destruct (bool_decide _) eqn:Eq; bool_prop; [congruence|].
    apply copy_ptr_blk in H as [[o' ->] ?]. split; [congruence|].
    intros ? ? [=]; subst. eexists _, _. split; [done|]. by rewrite Hn.
  - split; [done|]. intros ? ? [=]; subst. eexists _, _. by rewrite Hn.
  - split; [done|]. intros ? ? [=]; subst. eexists _, _. by rewrite Hn.
Qed.

Lemma merge_scalars_no_ptr first pe entries reg s o q s' :
  is_ptr first = false → merge_scalars first pe entries reg s = Ok (VPtr o q, s') → False.
Proof.
  intros Hf. unfold merge_scalars. destruct (existsb is_ptr entries); [intros; by res_inv|].
  destruct (_ && _); [intros; res_inv; done|].
  destruct (existsb _ _); [|intros; res_inv; done].
  destruct (group_edges _ _ _). unfold new_join. intros. res_inv.
Qed.

(** A merged pointer whose nullity is known comes from the uniform cases. *)
Lemma merge_known_uniform n pe entries reg conds s o q s' b :
  merge_entry_f n pe entries reg conds s = Ok (VPtr o q, s') → p_checked_null q = Some b →
  ∃ resolved s1,
    mapST (λ cv, resolve_entry cv.1 cv.2) (zip (default (map (λ _, None) entries) conds) entries) s
      = Ok (resolved, s1) ∧
    ∀ x, x ∈ resolved → ∃ ox px, x = VPtr ox px ∧ p_checked_null px = Some b.
Proof.
  intros HE Hq. destruct n as [|n]; cbn [merge_entry_f] in HE; apply ST_bind_Ok in HE as
    (resolved & s1 & HR & HE); exists resolved, s1; (split; [done|]);
    (destruct (existsb is_none resolved); [res_inv; done|]);
    (destruct (existsb is_ptr resolved && _);
      [destruct (negb _); [res_inv; done|try discriminate HE]|unfold merge_uniform in HE; res_inv]).
  (* the mixed case forgets what is known *)
  2: {
    res_inv. destruct v as [| | | | | | | | | | | | | | | | |o1 p1]; try (res_inv; done).
    destruct (p_checked_null p1) eqn:E1; res_inv;
      match goal with H : _stamp_null_phi _ _ _ _ _ = _ |- _ =>
        apply stamp_shape in H as (? & ? & ?) end; simplify_eq/=; congruence. }
  all: destruct (is_ptr v) eqn:Ep; [|exfalso; eapply merge_scalars_no_ptr; [exact Ep|];
    destruct v; try done; exact HE].
  all: destruct v; try done; apply merge_pointers_null in HE as [Hn Hall];
    intros x Hx; destruct (Hall x Hx) as (ox & px & -> & _); exists ox, px; (split; [done|]);
    rewrite Hq in Hn; symmetry in Hn; eapply fold_nullity_Some; [exact Hn|];
    apply list_elem_of_fmap_2; by eapply ptrs_of_elem.
Qed.

(** A merged pointer is marked null (or not null) only where every
    predecessor's entry is a pointer that is known to be so, by its own mark, by
    the fact of its edge or by the facts of the block. *)
Theorem merge_entry_nullity pe entries reg conds s o q s' b :
  conds_for conds (length entries) →
  merge_entry pe entries reg conds s = Ok (VPtr o q, s') → p_checked_null q = Some b →
  ∀ i x, entries !! i = Some x → ∃ ox p, x = VPtr ox p ∧
    known_null (ptr_facts (bs_blk s)) (default [] conds !! i ≫= id) p = Some b.
Proof.
  intros Hc HE Hq i x Hx. apply (merge_known_uniform _ _ _ _ _ _ _ _ _ _ HE) in Hq
    as (resolved & s1 & HR & Hall).
  apply (mapST_inv _ (λ s1, bs_blk s1 = bs_blk s)) in HR as [_ HR]; [| |done].
  2: { intros ? ? ? ? _ Hb Hr. apply resolve_entry_run in Hr as [? _]. congruence. }
  assert (is_Some (default (map (λ _, None) entries) conds !! i)) as [c Hcl].
  { apply lookup_lt_is_Some. apply lookup_lt_Some in Hx.
    destruct conds as [l|]; simpl; [by rewrite (Hc l)|by rewrite length_map]. }
  destruct (Forall2_lookup_l _ _ _ i (c, x) HR) as (y & Hy & s2 & s3 & Hb & Hr).
  { rewrite lookup_zip_with, Hcl. simpl. by rewrite Hx. }
  destruct (Hall y ltac:(by eapply list_elem_of_lookup_2)) as (oy & py & -> & Hn).
  destruct (proj2 (resolve_entry_run _ _ _ _ _ Hr) _ _ eq_refl) as (o0 & p0 & Hx0 & Hk).
  simpl in Hx0. subst x. exists o0, p0. split; [done|]. rewrite Hb in Hk. rewrite <- Hn, Hk.
  f_equal. destruct conds as [l|]; simpl in *; [by rewrite Hcl|].
  change (map (λ _ : val, @None edge_fact) entries) with ((λ _ : val, @None edge_fact) <$> entries)
    in Hcl. apply list_lookup_fmap_Some in Hcl as (? & -> & _). done.
Qed.

(** ** The recursion is bounded *)

(** [m] never fails with the error [e]. *)
Definition never {S A} (e : err) (m : ST S A) : Prop := ∀ s, m s ≠ Err e.

Section never.
Context {S : Type} (e : err).

Lemma never_ret {A} (a : A) : never (S := S) e (mret a).
Proof. done. Qed.
Lemma never_raise {A} e' : e' ≠ e → never (S := S) (A := A) e (raise e').
Proof. intros Hne s [=]. done. Qed.
Lemma never_bind {A B} (m : ST S A) (f : A → ST S B) :
  never e m → (∀ a, never e (f a)) → never e (m ≫= f).
Proof.
  intros Hm Hf s. unfold mbind, ST_bind. destruct (m s) as [[a s1]|e'] eqn:E; [apply Hf|].
  intros [=]; subst. by apply (Hm s).
Qed.
Lemma never_if {A} (b : bool) (m1 m2 : ST S A) : never e m1 → never e m2 →
  never e (if b then m1 else m2).
Proof. by destruct b. Qed.
Lemma never_total {A} (m : ST S A) : (∀ s, is_Ok (m s) = true) → never e m.
Proof. intros H s Hs. specialize (H s). by rewrite Hs in H. Qed.
Lemma never_lift {A} (r : res A) : r ≠ Err e → never (S := S) e (lift r).
Proof. intros H s. unfold lift. destruct r; [done|]. congruence. Qed.
Lemma never_mapST {A B} (f : A → ST S B) l : (∀ a, never e (f a)) → never e (mapST f l).
Proof.
  intros Hf. induction l; simpl; [apply never_ret|].
  apply never_bind; [done|]. intros. apply never_bind; [done|]. intros. apply never_ret.
Qed.
End never.

Create HintDb never.
#[export] Hint Resolve never_ret never_if never_mapST : never.

Lemma py_index_error {A} (l : list A) i e : py_index l i = Err e → e = IndexError.
Proof.
  unfold py_index. cbv zeta. destruct (_ || _); [congruence|].
  unfold of_option. destruct (l !! _); congruence.
Qed.

Definition recursion_error : err := RuntimeError "maximum recursion depth exceeded".

Notation bounded m := (never recursion_error m).

Ltac bounded_step :=
  match goal with
  | |- never _ (mbind _ _) => apply never_bind; [|intros]
  | |- never _ (mapST _ _) => apply never_mapST; intros
  | |- never _ (raise _) => apply never_raise; discriminate
  | |- never _ (lift (py_index _ _)) =>
      apply never_lift; let H := fresh in intros H; apply py_index_error in H; discriminate H
  | |- never _ (lift (guard_or ?b _)) => apply never_lift; destruct b; discriminate
  | |- never _ (if _ then _ else _) => apply never_if
  | |- never _ (match ?x with _ => _ end) => destruct x
  | |- never _ _ => solve [auto with never | by apply never_total]
  end.
Ltac bounded := repeat bounded_step.

Lemma bounded_new_PTR p : bounded (new_PTR (S := bstate) p).
Proof. unfold new_PTR. bounded. Qed.
Lemma bounded_total_of v : bounded (total_of v).
Proof. unfold total_of, total_offset, expr_alu. destruct v; bounded. Qed.
#[export] Hint Resolve bounded_new_PTR bounded_total_of : never.

Lemma bounded_with_nullity o p n : bounded (_with_nullity o p n).
Proof. unfold _with_nullity. bounded. Qed.
Lemma bounded_with_view v b : bounded (_with_view v b).
Proof. unfold _with_view. bounded. Qed.
Lemma bounded_nullity_value v : bounded (_nullity_value v).
Proof. unfold _nullity_value. bounded. Qed.
#[export] Hint Resolve bounded_with_nullity bounded_with_view bounded_nullity_value : never.

Lemma bounded_resolve c v : bounded (resolve_entry c v).
Proof. unfold resolve_entry. bounded. Qed.
Lemma bounded_stamp v pe entries reg : bounded (_stamp_null_phi v pe entries reg).
Proof. unfold _stamp_null_phi. bounded. Qed.
#[export] Hint Resolve bounded_resolve bounded_stamp : never.

Lemma bounded_uniform pe entries reg : bounded (merge_uniform pe entries reg).
Proof.
  unfold merge_uniform, merge_scalars, merge_pointers, merge_pkt, merge_map_value, merge_other,
    keep_first. bounded.
Qed.
#[export] Hint Resolve bounded_uniform : never.

Lemma at_ptr_shorter {B} (pe : list B) (r : list val) :
  existsb is_ptr r && negb (forallb is_ptr r) = true →
  (length (filter (λ ev : B * val, is_ptr ev.2 = true) (zip pe r)) < length r)%nat.
Proof.
  intros H. apply andb_true_iff in H as [_ H]. bool_prop.
  assert (∀ (qe : list B) l,
    (length (filter (λ ev : B * val, is_ptr ev.2 = true) (zip qe l)) <= length l)%nat) as Hle.
  { intros qe l. etrans; [apply length_filter|]. rewrite length_zip_with. lia. }
  revert pe. induction r as [|x r IH]; intros [|b pe]; simpl in *; try done; try lia.
  destruct (is_ptr x) eqn:Ex; simpl in *.
  - rewrite filter_cons_True by done. simpl. specialize (IH H pe). lia.
  - rewrite filter_cons_False by (simpl; congruence). specialize (Hle pe r). lia.
Qed.

Lemma bounded_merge_f n pe entries reg conds : (length entries <= n)%nat →
  bounded (merge_entry_f n pe entries reg conds).
Proof.
  revert pe entries conds. induction n as [|n IH]; intros pe entries conds Hn s HE;
    cbn [merge_entry_f] in HE; unfold mbind at 1, ST_bind at 1 in HE;
    (destruct (mapST _ _ s) as [[r s1]|e] eqn:ER;
      [|injection HE as ->; revert ER; apply never_mapST; intros; apply bounded_resolve]);
    (apply (mapST_inv _ (λ _, True)) in ER as [_ ER]; [|done|done]);
    apply Forall2_length in ER; rewrite length_zip_with in ER; revert HE;
    (destruct (existsb is_none r); [by apply never_ret|]).
  - destruct r; [|simpl in *; lia]. simpl. by apply bounded_uniform.
  - destruct (existsb is_ptr r && _) eqn:Em; [|by apply bounded_uniform].
    pose proof (at_ptr_shorter pe r Em) as Hsh. apply never_if; [bounded|].
    apply never_bind; [|intros; bounded]. apply IH.
    rewrite length_fmap. lia.
Qed.

(** The merge of an entry terminates: its recursion on the pointers of a mixed
    list is at most as deep as the list is long, so no run exhausts it. *)
Theorem merge_entry_terminates pe entries reg conds s :
  merge_entry pe entries reg conds s ≠ Err (RuntimeError "maximum recursion depth exceeded").
Proof. apply (bounded_merge_f _ _ _ _ _ (le_n _)). Qed.

(** ** Packet pointers *)

(** The offset of a pointer from its base, modulo [2 ^ 32]. *)
Definition ptr_off (w : world) (p : ptr_ val) : Z :=
  wrap 32 (p_off p + den w (p_var_off p)).

Definition var_off_ok (p : ptr_ val) : Prop :=
  is_ptr (p_var_off p) = false ∧
  ∀ o n s i, p_var_off p = VNum o n s i → s = 4 ∨ s = 8.

Lemma rep_on_self w v : is_ptr v = false → (∀ o n s i, v = VNum o n s i → s = 4 ∨ s = 8) →
  rep_on w 32 v (den w v).
Proof.
  intros Hp Hn. split_and!; [done|done|]. intros o n s i ->. simpl.
  destruct (Hn _ _ _ _ eq_refl) as [-> | ->]; symmetry; apply wrap_wrap_le; lia.
Qed.

Lemma total_offset_off w p (s s' : bstate) t : var_off_ok p →
  total_offset p s = Ok (t, s') → wrap 32 (den w t) = ptr_off w p.
Proof.
  intros [Hp Hn] HE. unfold total_offset, ptr_off in *.
  destruct (is_none (p_var_off p)) eqn:En.
  { apply new_num_blk in HE as [[o ->] _]. destruct (p_var_off p); try done. simpl den.
    rewrite Z.add_0_r. apply wrap_wrap_le. lia. }
  apply ST_bind_Ok in HE as (k & s1 & Hk & HE). apply new_num_blk in Hk as [[o ->] _].
  assert (rep_on w 32 (VNum o (p_off p) 8 (-1)) (p_off p)) as Hs.
  { split_and!; [done|simpl; apply wrap_wrap_le; lia|]. by intros ? ? ? ? [=]; subst. }
  assert (∀ a b, isa_alu ADD 32 false a b = wrap 32 (b + a)) as Hadd.
  { intros a b. change (isa_alu ADD 32 false a b) with (wrap 32 (wrap 32 a + wrap 32 b)).
    rewrite wrap_add by lia. f_equal. lia. }
  destruct (expr_alu_cases w _ _ _ _ _ _ _ _ _ _ _ (or_introl eq_refl)
    ltac:(unfold alu_ops; left) (rep_on_self w _ Hp Hn) Hs HE)
    as [(-> & _ & Hz) | [(o' & ->) | (o' & n & -> & Hn' & _)]].
  - rewrite <- wrap_add by lia. change (reg_bits 4) with 32 in Hz. rewrite Hz, Z.add_0_l.
    by rewrite wrap_wrap by lia.
  - simpl den. rewrite reg_bits_4, Hadd, wrap_wrap by lia.
    rewrite <- (wrap_add 32 (wrap 64 _)) by lia. rewrite wrap_wrap_le by lia.
    by rewrite wrap_add by lia.
  - change (reg_bits 4) with 32 in Hn'. change (0 =? 1) with false in Hn'. rewrite Hadd in Hn'.
    simpl den. change (8 * 4) with 32. by rewrite wrap_wrap, Hn' by lia.
Qed.

Lemma total_of_blk v (s s' : bstate) t : total_of v s = Ok (t, s') → bs_blk s' = bs_blk s.
Proof.
  unfold total_of, total_offset, expr_alu, new_num, new_binary, fresh. intros.
  destruct v; try done. destruct (is_none _); res_inv; [done|].
  destruct (p_var_off p); repeat case_in H; res_inv; done.
Qed.

(** [e] selects, in the variable offset of the merged pointer, a value equal to
    the offset of the entry of that edge. *)
Lemma merge_pkt_cases w o p n pe entries reg s u s' :
  length pe = length entries → VPtr o p ∈ entries → p_type p = PTR_TO_PKT →
  Forall (λ x, ∃ ox px, x = VPtr ox px ∧ var_off_ok px) entries →
  (∀ ox px oy py, VPtr ox px ∈ entries → VPtr oy py ∈ entries →
     py_same (VPtr ox px) (VPtr oy py) = true → ptr_off w px = ptr_off w py) →
  existsb (λ r, negb (bool_decide (p_base_id r = p_base_id p))) (ptrs_of entries) = false →
  merge_pkt o p n pe entries reg s = Ok (u, s') →
  ∃ o' q, u = VPtr o' q ∧ p_type q = PTR_TO_PKT ∧ p_base_id q = p_base_id p ∧
    ∀ i e ox px, pe !! i = Some e → entries !! i = Some (VPtr ox px) →
      p_base_id px = p_base_id q ∧
      (ptr_off w q = ptr_off w px ∨
       ∃ oj j v, p_var_off q = VJoin oj j ∧ p_off q = 0 ∧ j_block_idx j = num (bs_blk s) ∧
         selects j e v ∧ wrap 32 (den w v) = ptr_off w px).
Proof.
  intros Hl Hp Ht Hptr Hsame Eb HE. unfold merge_pkt in HE. rewrite Eb in HE.
  assert (∀ ox px, VPtr ox px ∈ entries → p_base_id px = p_base_id p) as Hbase.
  { intros ox px Hx. eapply (ptrs_of_none _ _ _ _ Eb) in Hx. by bool_prop. }
  destruct (existsb (λ r, negb (is_same (VPtr o p) r)) entries) eqn:Ed.
  - destruct (group_edges py_same pe entries) as [tracked edges] eqn:Eg.
    destruct (group_edges_spec _ _ _ _ _ Hl Eg) as (H1 & H2 & H3 & H4).
    unfold get_blk, gets, new_PTR in HE. res_inv. apply stamp_shape in HE as (o1 & phi & ->).
    eexists _, _. split_and!; [done..|]. simpl. intros i e ox px Hi Hx.
    split; [by eapply Hbase, list_elem_of_lookup_2|]. right.
    unfold new_join in *. res_inv.
    apply (mapST_inv _ (λ s1, bs_blk s1 = bs_blk s)) in E as [Hs1 E]; [| |done].
    2: { intros ? ? ? ? _ Hb Hr. apply total_of_blk in Hr. congruence. }
    destruct (H4 i e _ Hi Hx) as (k & x & l & Hk & Hlk & He & Hv).
    destruct (Forall2_lookup_l _ _ _ _ _ E Hk) as (t & Hvt & sa & sb & _ & Ht').
    assert (x ∈ entries) as Hin by (by eapply H3, list_elem_of_lookup_2).
    rewrite Forall_forall in Hptr. destruct (Hptr x Hin) as (oy & py & -> & Hok).
    eexists _, _, t. split_and!; [done|done|simpl; by rewrite Hs1|by exists k, l|].
    rewrite (total_offset_off w _ _ _ _ Hok Ht'). destruct Hv as [[= -> ->] | Hv]; [done|].
    eapply Hsame; [exact Hin|by eapply list_elem_of_lookup_2|exact Hv].
  - apply keep_first_shape in HE as (o1 & phi & ->). eexists _, _. split_and!; [done..|].
    intros i e ox px _ Hx. apply list_elem_of_lookup_2 in Hx.
    split; [by eapply Hbase|]. left.
    change (ptr_off w p = ptr_off w px). apply (Hsame o p ox px Hp Hx). unfold py_same.
    apply orb_true_iff. left. destruct (is_same (VPtr o p) (VPtr ox px)) eqn:Es; [done|].
    rewrite <- Ed. apply existsb_exists. exists (VPtr ox px). rewrite Es.
    split; [by apply list_elem_of_In|done].
Qed.

(** A packet pointer merged from packet pointers of one packet view points
    where the predecessor's pointer points: same view, and the same offset modulo
    [2 ^ 32] on the edge the run takes. Pointers of different views merge to
    nothing. *)
Theorem merge_packet_pointers w pe entries reg s u s' :
  length pe = length entries →
  Forall (λ x, ∃ ox px, x = VPtr ox px ∧ p_type px = PTR_TO_PKT ∧ var_off_ok px) entries →
  (∀ ox px oy py, VPtr ox px ∈ entries → VPtr oy py ∈ entries →
     py_same (VPtr ox px) (VPtr oy py) = true → ptr_off w px = ptr_off w py) →
  merge_uniform pe entries reg s = Ok (u, s') →
  (∃ ox px oy py, VPtr ox px ∈ entries ∧ VPtr oy py ∈ entries ∧ p_base_id px ≠ p_base_id py) ∨
  ∃ o q, u = VPtr o q ∧ p_type q = PTR_TO_PKT ∧
    ∀ i e ox px, pe !! i = Some e → entries !! i = Some (VPtr ox px) →
      p_base_id px = p_base_id q ∧
      ((∀ oj j v, p_var_off q = VJoin oj j → j_block_idx j = num (bs_blk s) → selects j e v →
          den w (p_var_off q) = den w v) →
       ptr_off w q = ptr_off w px).
Proof.
  intros Hl Hptr Hsame HE. unfold merge_uniform in HE. res_inv.
  apply py_index_Ok in E; [|lia]. apply list_elem_of_lookup_2 in E.
  rewrite Forall_forall in Hptr. destruct (Hptr v E) as (o & p & -> & Ht & _).
  assert (∀ x, x ∈ entries → ∃ ox px, x = VPtr ox px ∧ p_type px = PTR_TO_PKT ∧ var_off_ok px)
    as Hall by done.
  unfold merge_pointers in HE. destruct (negb _ || _) eqn:Em.
  { exfalso. apply orb_true_iff in Em as [Em | Em].
    - apply negb_true_iff in Em. rewrite <- not_true_iff_false in Em. apply Em.
      apply forallb_forall. intros x Hx%list_elem_of_In. by destruct (Hall x Hx) as (? & ? & -> & _).
    - apply existsb_exists in Em as (px & Hx%list_elem_of_In & Hne).
      apply list_elem_of_omap in Hx as (x & Hx & Hpx).
      destruct (Hall x Hx) as (? & ? & -> & Htx & _). simplify_eq. rewrite Htx, Ht in Hne. done. }
  rewrite Ht in HE. change (PTR_TO_PKT =? PTR_TO_PKT) with true in HE. cbv iota in HE.
  destruct (existsb (λ r, negb (bool_decide (p_base_id r = p_base_id p))) (ptrs_of entries))
    eqn:Eb.
  { left. apply existsb_exists in Eb as (px & Hx%list_elem_of_In & Hne).
    apply list_elem_of_omap in Hx as (x & Hx & Hpx).
    destruct x as [| | | | | | | | | | | | | | | | |ox q]; simplify_eq/=. bool_prop.
    exists ox, px, o, p. done. }
  right. destruct (merge_pkt_cases w _ _ _ _ _ _ _ _ _ Hl E Ht
    ltac:(apply Forall_forall; intros x Hx; destruct (Hall x Hx) as (? & ? & ? & _ & ?); eauto)
    Hsame Eb HE) as (o' & q & -> & Hq & _ & Hsel).
  exists o', q. split_and!; [done..|]. intros i e ox px Hi Hx.
  destruct (Hsel i e ox px Hi Hx) as [Hb [Ho | (oj & j & v & Hv & Hz & Hj & Hs & Ho)]];
    (split; [done|]); [done|].
  intros Hw. unfold ptr_off at 1. by rewrite Hz, Z.add_0_l, (Hw oj j v Hv Hj Hs).
Qed.

(** ** Packet lengths *)

(** The packet length [L] is within the bounds of a fact. *)
Definition len_ok (f : PktFacts) (L : Z) : Prop :=
  (∀ m, kf_min_len f = Some m → m <= L) ∧ (∀ m, kf_max_len f = Some m → L <= m).

(** The packet view of a predecessor, by the edge taken. *)
Definition pred_view (pb : Block) (c : option edge_fact) : option Z :=
  match c with Some (FAdjust f) => af_base_id f | _ => pkt_base_id pb end.

Lemma both_min_le a b m : both Z.min a b = Some m →
  ∃ x y, a = Some x ∧ b = Some y ∧ m <= x ∧ m <= y.
Proof. destruct a, b; simpl; intros; simplify_eq. eexists _, _. split_and!; try done; lia. Qed.
Lemma both_max_ge a b m : both Z.max a b = Some m →
  ∃ x y, a = Some x ∧ b = Some y ∧ x <= m ∧ y <= m.
Proof. destruct a, b; simpl; intros; simplify_eq. eexists _, _. split_and!; try done; lia. Qed.

Lemma len_ok_both f h L : len_ok f L ∨ len_ok h L →
  len_ok (mk_pktf (kf_id f) (kf_base_id f) (kf_ptr f) (both Z.min (kf_min_len f) (kf_min_len h))
            (both Z.max (kf_max_len f) (kf_max_len h))) L.
Proof.
  intros Hor. split; simpl; intros m Hm.
  - apply both_min_le in Hm as (x & y & Hx & Hy & ? & ?).
    destruct Hor as [[Hf _] | [Hh _]]; [specialize (Hf x Hx)|specialize (Hh y Hy)]; lia.
  - apply both_max_ge in Hm as (x & y & Hx & Hy & ? & ?).
    destruct Hor as [[_ Hf] | [_ Hh]]; [specialize (Hf x Hx)|specialize (Hh y Hy)]; lia.
Qed.

(** [L] respects the fact of the edge, where that is about [id]. *)
Definition edge_len (c : option edge_fact) (id : option Z) (L : Z) : Prop :=
  ∀ fc, c = Some (FPkt fc) → kf_id fc = id → len_ok fc L.

(** One predecessor's facts [l] weaken those collected in [acc] and cover its own. *)
Definition weakened (c : option edge_fact) (acc l acc' : list (option Z * PktFacts)) : Prop :=
  ∀ id, ((is_Some (pget acc id) ∨ id ∈ l.*1) → is_Some (pget acc' id)) ∧
  ∀ f L, pget acc' id = Some f →
    (∃ h, pget acc id = Some h ∧ len_ok h L) ∨
    (∃ f', (id, f') ∈ l ∧ len_ok f' L ∧ edge_len c id L) → len_ok f L.

Lemma edge_fact_len c base key fk fact L :
  (let '(cbase, cid) := cond_pkt_ids c in
   if bool_decide (cbase = base) && bool_decide (cid = key)
   then match c with Some (FPkt f) => Ok f | _ => Err AttributeError end
   else Ok fk) = Ok fact →
  len_ok fk L → edge_len c key L → len_ok fact L.
Proof.
  destruct c as [[| fc|]|]; simpl; intros HF Hk Hc; try (destruct (_ && _); by simplify_eq).
  destruct (_ && _) eqn:E; simplify_eq; [|done].
  apply andb_true_iff in E as [_ E]. apply bool_decide_eq_true in E. by apply Hc.
Qed.

Lemma merge_pkt_fact_cases c base acc key fk acc2 : merge_pkt_fact c base acc (key, fk) = Ok acc2 →
  ∃ fact, (∀ L, len_ok fk L → edge_len c key L → len_ok fact L) ∧
    (pget acc key = None ∧ acc2 = pset acc key fact ∨
     ∃ h, pget acc key = Some h ∧ acc2 = pset acc key
       (mk_pktf (kf_id fact) (kf_base_id fact) (kf_ptr fact) (both Z.min (kf_min_len fact) (kf_min_len h))
          (both Z.max (kf_max_len fact) (kf_max_len h)))).
Proof.
  unfold merge_pkt_fact. intros H. destruct (cond_pkt_ids c) as [cb ci] eqn:Ec. res_inv.
  exists v. split.
  - intros L. apply (edge_fact_len c base key fk v L). by rewrite Ec.
  - destruct (pget acc key) as [h|]; res_inv; [right; eauto|by left].
Qed.

Lemma merge_pkt_facts_ok c base acc l acc' :
  foldR (merge_pkt_fact c base) acc l = Ok acc' → weakened c acc l acc'.
Proof.
  apply (foldR_ind _ (λ pre a, weakened c acc pre a)).
  { intros id. split; [intros [? | H]; [done|by apply not_elem_of_nil in H]|].
    intros f L Hf [(h & Hh & ?) | (? & H & _)]; [by simplify_eq|by apply not_elem_of_nil in H]. }
  intros pre [key fk] a1 a2 _ IH HE id. destruct (IH id) as [Hm Hw].
  destruct (merge_pkt_fact_cases _ _ _ _ _ _ HE) as (fact & Hfact & Hc).
  assert (∀ g, a2 = pset a1 key g → is_Some (pget a1 id) ∨ id = key → is_Some (pget a2 id)) as Hs.
  { intros g -> Hor. rewrite pget_pset. case_decide; [eauto|]. by destruct Hor. }
  rewrite fmap_app, elem_of_app. simpl. rewrite list_elem_of_singleton. split.
  { intros Hor. destruct Hc as [[_ Hc] | (h & _ & Hc)]; eapply (Hs _ Hc); tauto. }
  intros f L Hf Hor.
  assert ((is_Some (pget a1 id) ∧ ∀ g, pget a1 id = Some g → len_ok g L) ∨
          (id = key ∧ len_ok fact L)) as [[Ha Hg] | [-> Hl]].
  { destruct Hor as [Hor | (f' & [Hin | Hin]%elem_of_app & Hl & He)].
    - left. split; [|intros; by eapply Hw; eauto]. apply Hm. left. destruct Hor as (? & -> & _). eauto.
    - left. split; [apply Hm; right; by apply (list_elem_of_fmap_2 fst) in Hin|].
      intros; eapply Hw; eauto.
    - apply list_elem_of_singleton in Hin. simplify_eq. right. auto. }
  - destruct Hc as [[Hn ->] | (h & Hh & ->)]; rewrite pget_pset in Hf; case_decide; simplify_eq; auto.
    + destruct Ha. congruence.
    + apply len_ok_both. right. by apply Hg.
  - destruct Hc as [[Hn ->] | (h & Hh & ->)]; rewrite pget_pset, decide_True in Hf by done;
      simplify_eq; [done|]. apply len_ok_both. by left.
Qed.

(** Copying the first predecessor's facts. *)
Lemma pset_all (l acc : list (option Z * PktFacts)) id : NoDup l.*1 →
  pget (fold_left (λ d kv, pset d kv.1 kv.2) l acc) id =
    match pget l id with Some f => Some f | None => pget acc id end.
Proof.
  revert acc. induction l as [|[k f] l IH]; intros acc Hnd; [done|]. simpl in *.
  apply NoDup_cons in Hnd as [Hk Hnd]. rewrite IH, pget_pset by done.
  destruct (decide (id = k)) as [-> | ?]; [|done].
  destruct (pget l k) eqn:E; [|done]. destruct Hk.
  clear IH Hnd. induction l as [|[k' f'] l IH]; [done|]. simpl in *.
  case_decide; subst; [left|right; auto].
Qed.

(** What the facts collected from the predecessors [seen] say. *)
Definition covers (seen : list (Block * option edge_fact)) (acc : list (option Z * PktFacts)) : Prop :=
  ∀ pb c id f' L, (pb, c) ∈ seen → pget (pkt_ptr_facts pb) id = Some f' → len_ok f' L →
    edge_len c id L → ∃ f, pget acc id = Some f ∧ len_ok f L.

Lemma imap_pair_snd {A} (l : list A) : (imap pair l).*2 = l.
Proof.
  apply list_eq. intros i. rewrite list_lookup_fmap, list_lookup_imap.
  by destruct (l !! i).
Qed.

(** The number of the element that extends a prefix of a numbered list. *)
Lemma imap_prefix {A} (l : list A) pre i x : (pre ++ [(i, x)]) `prefix_of` imap pair l →
  i = length pre ∧ x ∈ l.
Proof.
  intros [suf Hs]. assert (imap pair l !! length pre = Some (i, x)) as Hl.
  { rewrite Hs, <- app_assoc. by apply list_lookup_middle. }
  rewrite list_lookup_imap in Hl. apply fmap_Some in Hl as (y & Hy & [= -> ->]).
  split; [done|by eapply list_elem_of_lookup_2].
Qed.

(** One more predecessor. *)
Lemma merge_facts_of_ok pre acc i pb c acc' b : NoDup (pkt_ptr_facts pb).*1 →
  pred_view pb c = b → (i = O → fs_pkt acc = [] ∧ pre = []) → (i ≠ O → fs_base acc = b) →
  covers pre (fs_pkt acc) → merge_facts_of acc (i, (pb, c)) = Ok acc' →
  fs_base acc' = b ∧ covers (pre ++ [(pb, c)]) (fs_pkt acc').
Proof.
  intros Hnd Hv H0 HS Hc HE. unfold merge_facts_of in HE. cbv zeta in HE.
  apply bind_Ok in HE as (pf & _ & HE). fold (pred_view pb c) in HE. rewrite Hv in HE.
  destruct i as [|i].
  - destruct (H0 eq_refl) as [Hnil ->]. injection HE as <-. split; [done|]. simpl.
    intros pb' c' id f' L Hin Hf' Hl _. apply list_elem_of_singleton in Hin. simplify_eq.
    rewrite pset_all, Hf' by done. eauto.
  - rewrite (HS ltac:(done)), bool_decide_eq_true_2 in HE by done. res_inv. split; [done|]. simpl.
    apply merge_pkt_facts_ok in E. intros pb' c' id f' L Hin Hf' Hl He.
    destruct (E id) as [Hsome Hw]. apply elem_of_app in Hin as [Hin | Hin].
    + destruct (Hc _ _ _ _ _ Hin Hf' Hl He) as (h & Hh & Hhl).
      destruct Hsome as [f Hf]; [left; eauto|]. exists f. split; [done|]. eapply Hw; eauto.
    + apply list_elem_of_singleton in Hin. simplify_eq. apply pget_elem in Hf'.
      destruct Hsome as [f Hf]; [right; by apply (list_elem_of_fmap_2 fst) in Hf'|].
      exists f. split; [done|]. eapply Hw; eauto 10.
Qed.

(** The packet lengths known at the entry of a block hold whichever
    predecessor was taken. When all predecessors end in the same packet view, the
    block keeps it, and a length allowed by the predecessor taken (by its fact
    and by that of its edge) is allowed by the merged fact. *)
Theorem merge_facts_lengths init ps fs b :
  fs_pkt init = [] → ps ≠ [] → Forall (λ x, NoDup (pkt_ptr_facts x.1).*1) ps →
  Forall (λ x, pred_view x.1 x.2 = b) ps →
  merge_facts init ps = Ok fs →
  fs_base fs = b ∧ covers ps (fs_pkt fs).
Proof.
  intros Hi Hne Hnd Hv HE. rewrite Forall_forall in Hnd, Hv.
  unfold merge_facts in HE.
  apply (foldR_ind _ (λ pre acc, (pre = [] → acc = init) ∧ (pre ≠ [] → fs_base acc = b) ∧
    covers (pre.*2) (fs_pkt acc))) in HE as (_ & Hb & Hc).
  - rewrite imap_pair_snd in Hc. split; [|done]. apply Hb. by destruct ps.
  - split_and!; [done|done|]. intros pb c id f' L Hin. by apply not_elem_of_nil in Hin.
  - intros pre [i [pb c]] a1 a2 Hpre (H0 & HS & Hc) HM.
    apply imap_prefix in Hpre as [-> Hin].
    destruct (merge_facts_of_ok (pre.*2) a1 (length pre) pb c a2 b) as [Hb' Hc'];
      [by apply (Hnd _ Hin)|by apply (Hv _ Hin)| | |done|done|].
    + intros Hl. apply nil_length_inv in Hl. subst pre. split; [by rewrite H0|done].
    + intros Hl. apply HS. by intros ->.
    + split_and!; [by intros ?%app_eq_nil; naive_solver|done|]. by rewrite fmap_app.
Qed.

(** ** Concrete merges *)

Definition ex_pkt (o off : Z) (n : option bool) : val :=
  VPtr o (mk_ptr PTR_TO_PKT off VNone 5 (Some (-1)) None VNone None None None None n VNone).

(** The same non-null packet pointer on both edges. *)
Lemma merge_entry_nullity_witness :
  let x := ex_pkt 1 14 (Some false) in
  ∃ p, x = VPtr 1 p ∧ known_null [] None p = Some false.
Proof.
  intros x.
  destruct (merge_entry_nullity [(1, Fall); (2, Fall)] [x; x] 2 None
    (mk_bs (new_Block 3 0 1) 10 6) 1
    (mk_ptr PTR_TO_PKT 14 VNone 5 (Some (-1)) None VNone None None None None (Some false) VNone)
    (mk_bs (new_Block 3 0 1) 10 6) false) with (i := 0%nat) (x := x) as (ox & p & Hx & Hk).
  - intros l [=].
  - reflexivity.
  - reflexivity.
  - reflexivity.
  - injection Hx as <- <-. eexists. split; [reflexivity|exact Hk].
Defined.

(** Pointers 14 and 18 bytes into the packet, merged to a phi of the offsets. *)
Lemma merge_packet_pointers_witness :
  let x := ex_pkt 1 14 (Some false) in
  let y := ex_pkt 2 18 (Some false) in
  let w : world := λ _ _, 14 in
  match merge_uniform [(1, Fall); (2, Fall)] [x; y] 2 (mk_bs (new_Block 3 0 1) 10 6) with
  | Ok (VPtr _ q, _) => ptr_off w q = 14
  | _ => False
  end.
Proof.
  intros x y w. destruct (merge_uniform _ _ _ _) as [[u s']|] eqn:E; [|discriminate E].
  pose proof (λ H1 H2, merge_packet_pointers w [(1, Fall); (2, Fall)] [x; y] 2
    (mk_bs (new_Block 3 0 1) 10 6) u s' eq_refl H1 H2 E) as HM.
  vm_compute in E. injection E as <- <-.
  destruct HM as [(? & ? & ? & ? & Hx & Hy & Hne) | (o & q & [= <- <-] & _ & Hall)].
  - repeat constructor; (eexists _, _; split; [reflexivity|split; [reflexivity|]]);
      (split; [reflexivity|intros ? ? ? ? [=]]).
  - intros ox px oy py Hx Hy. rewrite !elem_of_cons, !elem_of_nil in Hx, Hy.
    destruct Hx as [[= -> ->] | [[= -> ->] | []]], Hy as [[= -> ->] | [[= -> ->] | []]];
      vm_compute; congruence.
  - rewrite !elem_of_cons, !elem_of_nil in Hx, Hy.
    destruct Hx as [[= -> ->] | [[= -> ->] | []]], Hy as [[= -> ->] | [[= -> ->] | []]];
      destruct (Hne eq_refl).
  - apply (Hall 0%nat (1, Fall) 1 _ eq_refl eq_refl). simpl.
    intros oj j v [=] _ (k & l & Hk & Hl & He); subst.
    destruct k as [|[|k]]; simpl in Hk, Hl; simplify_eq; [reflexivity|].
    rewrite list_elem_of_singleton in He. discriminate.
Defined.

(** One predecessor allows at least 34 bytes, the other at least 54. *)
Lemma merge_facts_lengths_witness :
  let pkt m := [(Some (-1), mk_pktf (Some (-1)) (Some (-1)) VNone (Some m) None)] in
  let pb m := set_facts [] (pkt m) (Some (-1)) (new_Block 1 0 1) in
  match merge_facts (mk_facts [] [] (Some (-1))) [(pb 34, None); (pb 54, None)] with
  | Ok fs => fs_base fs = Some (-1) ∧
      ∃ f, pget (fs_pkt fs) (Some (-1)) = Some f ∧ len_ok f 40
  | Err _ => False
  end.
Proof.
  intros pkt pb. destruct (merge_facts _ _) as [fs|] eqn:E; [|discriminate E].
  destruct (merge_facts_lengths (mk_facts [] [] (Some (-1))) [(pb 34, None); (pb 54, None)] fs
    (Some (-1))) as [Hb Hc].
  - reflexivity.
  - discriminate.
  - repeat constructor; apply not_elem_of_nil.
  - repeat constructor.
  - exact E.
  - split; [exact Hb|]. eapply (Hc (pb 34) None (Some (-1)) _ 40);
      [left|reflexivity|split; intros ? [=]; lia|intros ? [=]].
Defined.
