(* ===== verification/Cfg.v ===== *)
(** The control-flow graph: leaders, basic blocks, edges and the order in which
    blocks are traced ([bpf/cfg.py]). *)

From stdpp Require Import sorting.
From S2P Require Import Prelude Constants Instr Link Expr Block.

(** ** The callee of a tail call *)

(** The region whose map the tail call at [end_] uses: the last map loaded into
    [r2] in its block, or the only callee. *)
Definition loads_map (ins : instr) : bool :=
  (opcode_class ins =? LD) && (opcode_mode ins =? IMM) && (dst_reg ins =? 2)
  && relocated ins && (reloc_region ins =? 0).

(** [for i in range(end - 1, start - 1, -1)] up to the [break]: the first map
    loaded, in the order of the indices given. *)
Fixpoint scan_map (instrs : list instr) (is_ : list Z) : res tag :=
  match is_ with
  | [] => Ok TagNone
  | i :: is' =>
      ins ← py_index instrs i;
      if loads_map ins then Ok (reloc_tag ins) else scan_map instrs is'
  end.

Definition _tail_target (instrs : list instr) (s e : Z) (progs : list ProgRegion)
    : res ProgRegion :=
  let callees := filter (λ r, is_main r = false) progs in
  guard_or (negb (bool_decide (callees = [])))
    (ValueError "is a bpf_tail_call but no callee was given");;
  map_id ← scan_map instrs (rev (zrange s e));
  match map_id with
  | TagNone =>
      match callees with
      | [r] => Ok r
      | _ => Err (ValueError "cannot tell which prog array this bpf_tail_call uses")
      end
  | _ =>
      match filter (λ r, TagNum <$> r_map_id r = Some map_id) callees with
      | r :: _ => Ok r
      | [] => Err (ValueError "bpf_tail_call into a map no --tail target was loaded into")
      end
  end.

(** ** Blocks *)

Definition instr_leaders (n : Z) (i : Z) (ins : instr) : list Z :=
  let next := if i + 1 <? n then [i + 1] else [] in
  if negb (is_jump ins) then []
  else if is_exit ins then next
  else if is_call ins then if is_tail_call ins then next else []
  else
    let target := i + 1 + jump_offset ins in
    (if (0 <=? target) && (target <? n) then [target] else []) ++ next.

Definition leaders (instrs : list instr) (progs : list ProgRegion) : gset Z :=
  let n := Z.of_nat (length instrs) in
  {[0]} ∪ list_to_set (map r_start progs)
  ∪ list_to_set (mjoin (imap (λ i ins, instr_leaders n (Z.of_nat i) ins) instrs)).

Definition sorted_leaders (instrs : list instr) (progs : list ProgRegion) : list Z :=
  merge_sort Z.le (elements (leaders instrs progs)).

(** Blocks [i], [i + 1], ... of a sorted list of leaders. *)
Fixpoint cut (n i : Z) (ls : list Z) : list Block :=
  match ls with
  | [] => []
  | s :: ls' => new_Block i s (match ls' with s' :: _ => s' - 1 | [] => n - 1 end)
                :: cut n (i + 1) ls'
  end.

Definition start_map (blocks : list Block) : list (Z * Z) :=
  fold_left (λ d ib, pset d (start ib.2) (Z.of_nat ib.1)) (imap pair blocks) [].

(** ** Edges *)

(** The blocks and [cfg], the successor lists in the order they were found. *)
Definition graph : Type := list Block * list (list Z).

Definition upd_nth (f : Block → Block) (i : Z) (g : graph) : graph :=
  (alter f (Z.to_nat i) g.1, g.2).

(** [cfg[i].append(succ)], the successor field, [blocks[succ].preds.append(i)]. *)
Definition add_edge (e : edge) (i succ : Z) (g : graph) : graph :=
  let '(bs, cfg) := g in
  let set_succ b := match e with
    | Taken => set_edges (preds b) (succ_f b) (Some succ) (exit_ b) (jump b) (branch b) b
    | Fall => set_edges (preds b) (Some succ) (succ_t b) (exit_ b) (jump b) (branch b) b
    end in
  let add_pred b :=
    set_edges (preds b ++ [i]) (succ_f b) (succ_t b) (exit_ b) (jump b) (branch b) b in
  (alter add_pred (Z.to_nat succ) (alter set_succ (Z.to_nat i) bs),
   alter (λ l, l ++ [succ]) (Z.to_nat i) cfg).

Definition mark_exit (b : Block) : Block :=
  set_edges (preds b) (succ_f b) (succ_t b) true (jump b) (branch b) b.
Definition mark_jump (b : Block) : Block :=
  set_edges (preds b) (succ_f b) (succ_t b) (exit_ b) true (branch b) b.
Definition mark_branch (b : Block) : Block :=
  set_edges (preds b) (succ_f b) (succ_t b) (exit_ b) (jump b) true b.

Section connect.
Context (instrs : list instr) (progs : list ProgRegion) (starts : list (Z * Z)).

Definition connect_block (g : graph) (i : Z) : res graph :=
  b ← py_index g.1 i;
  let e := end_ b in
  last_instr ← py_index instrs e;
  if is_jump last_instr then
    let code := opcode_code last_instr in
    if code =? JA then
      succ ← of_option AssertionError (pget starts (e + 1 + jump_offset last_instr));
      Ok (upd_nth mark_jump i (add_edge Taken i succ g))
    else if code =? CALL then
      g ← (if is_tail_call last_instr then
             callee ← _tail_target instrs (start b) e progs;
             succ ← of_option KeyError (pget starts (r_start callee));
             Ok (add_edge Taken i succ (upd_nth mark_branch i g))
           else Ok g);
      succ ← of_option AssertionError (pget starts (e + 1));
      Ok (add_edge Fall i succ g)
    else if code =? EXIT then Ok (upd_nth mark_exit i g)
    else
      succ ← of_option SystemExit (pget starts (e + 1 + offset last_instr));
      let g := add_edge Taken i succ (upd_nth mark_branch i g) in
      succ ← of_option SystemExit (pget starts (e + 1));
      guard_or (succ =? i + 1) AssertionError;;
      Ok (add_edge Fall i succ g)
  else
    match pget starts (e + 1) with
    | Some succ => Ok (add_edge Fall i succ g)
    | None => Ok g
    end.

Definition set_entry_block (r : ProgRegion) (b : Z) : ProgRegion :=
  mk_region (r_name r) (r_path r) (r_start r) (r_end r) (r_slot r) (r_map_id r) (Some b).

Definition place_region (st : list Block * list ProgRegion) (r : ProgRegion)
    : res (list Block * list ProgRegion) :=
  let '(bs, done) := st in
  eb ← of_option KeyError (pget starts (r_start r));
  let r' := set_entry_block r eb in
  Ok (if eb =? 0 then bs else alter (set_prog_entry (Some r')) (Z.to_nat eb) bs, done ++ [r']).
End connect.

Definition build_cfg (instrs : list instr) (progs : list ProgRegion)
    : res (list Block * list (list Z) * list (Z * Z) * list ProgRegion) :=
  let n := Z.of_nat (length instrs) in
  let blocks := cut n 0 (sorted_leaders instrs progs) in
  let starts := start_map blocks in
  '(blocks, cfg) ← foldR (connect_block instrs progs starts)
                      (blocks, replicate (length blocks) [])
                      (zrange 0 (Z.of_nat (length blocks)));
  '(blocks, progs) ← foldR (place_region starts) (blocks, []) progs;
  Ok (blocks, cfg, starts, progs).

(** The untraced blocks come in the order the set is iterated. *)
Definition get_next_block_no (blocks : list Block) (untraced : list Z) : res Z :=
  let ready item := match py_index blocks item with
    | Ok b => forallb (λ p, negb (bool_decide (p ∈ untraced))) (preds b)
    | Err _ => false
    end in
  match filter (λ item, ready item = true) untraced with
  | item :: _ => Ok item
  | [] => Err SystemExit
  end.
