(* ===== verification/CfgSound.v ===== *)
(** The control-flow graph is that of the program: the blocks partition the
    instructions, straight-line code is inside them, and their edges are the
    machine's control transfers. *)

From stdpp Require Import sorting.
From S2P Require Import Prelude Constants Instr Link Expr Block Cfg.

#[local] Arguments add_edge : simpl never.
#[local] Arguments upd_nth : simpl never.

(** ** Leaders and blocks *)

Lemma strictly_sorted (l : list Z) : Sorted Z.le l → NoDup l → StronglySorted Z.lt l.
Proof.
  intros Hs%Sorted_StronglySorted; [|intros x y z; lia].
  induction Hs as [|x l Hs IH Hx]; intros Hnd; constructor.
  - apply IH. by inversion Hnd.
  - apply NoDup_cons in Hnd as [Hin _]. rewrite Forall_forall in Hx |- *.
    intros y Hy. specialize (Hx y Hy). assert (x ≠ y) by (by intros ->). lia.
Qed.

Lemma sorted_leaders_sorted instrs progs : StronglySorted Z.lt (sorted_leaders instrs progs).
Proof.
  apply strictly_sorted.
  - apply Sorted_merge_sort. intros x y. lia.
  - unfold sorted_leaders. rewrite merge_sort_Permutation. apply NoDup_elements.
Qed.

Lemma elem_sorted_leaders instrs progs x :
  x ∈ sorted_leaders instrs progs ↔ x ∈ leaders instrs progs.
Proof. unfold sorted_leaders. by rewrite merge_sort_Permutation, elem_of_elements. Qed.

Lemma elem_leaders instrs progs x : x ∈ leaders instrs progs ↔
  x = 0 ∨ (∃ r, r ∈ progs ∧ x = r_start r) ∨
  ∃ i ins, instrs !! i = Some ins ∧
    x ∈ instr_leaders (Z.of_nat (length instrs)) (Z.of_nat i) ins.
Proof.
  unfold leaders. rewrite !elem_of_union, elem_of_singleton, !elem_of_list_to_set.
  rewrite list_elem_of_fmap, list_elem_of_join.
  split.
  - intros [[-> | (r & -> & Hr)] | (l & Hx & Hl)]; [by left|right; left; eauto|].
    right; right. apply elem_of_lookup_imap in Hl as (i & ins & -> & Hi). eauto.
  - intros [-> | [(r & Hr & ->) | (i & ins & Hi & Hx)]]; [by left; left|left; right; eauto|].
    right. eexists. split; [exact Hx|].
    by apply (elem_of_lookup_imap_2 (λ i ins, instr_leaders _ (Z.of_nat i) ins)).
Qed.

Lemma instr_leaders_range n i ins x : 0 <= i < n → x ∈ instr_leaders n i ins → 0 <= x < n.
Proof.
  intros Hi. unfold instr_leaders.
  assert (∀ y, y ∈ (if i + 1 <? n then [i + 1] else []) → 0 <= y < n) as Hn.
  { intros y. destruct (Z.ltb_spec (i + 1) n).
    - rewrite list_elem_of_singleton. lia.
    - by intros ?%not_elem_of_nil. }
  destruct (negb (is_jump ins)); [by intros ?%not_elem_of_nil|].
  destruct (is_exit ins); [apply Hn|].
  destruct (is_call ins); [destruct (is_tail_call ins); [apply Hn|by intros ?%not_elem_of_nil]|].
  rewrite elem_of_app. intros [H | H]; [|by apply Hn].
  destruct (_ && _) eqn:E; [|by apply not_elem_of_nil in H].
  apply list_elem_of_singleton in H as ->. apply andb_true_iff in E. lia.
Qed.

Lemma leaders_range instrs progs x : (0 < length instrs)%nat →
  Forall (λ r, 0 <= r_start r < Z.of_nat (length instrs)) progs →
  x ∈ leaders instrs progs → 0 <= x < Z.of_nat (length instrs).
Proof.
  intros Hn Hr. rewrite Forall_forall in Hr. rewrite elem_leaders.
  intros [-> | [(r & Hin & ->) | (i & ins & Hi & Hx)]]; [lia|by apply Hr|].
  eapply instr_leaders_range; [|done]. apply lookup_lt_Some in Hi. lia.
Qed.

Lemma cut_lookup n i ls k :
  cut n i ls !! k = (λ s, new_Block (i + Z.of_nat k) s
    (match ls !! S k with Some s' => s' - 1 | None => n - 1 end)) <$> ls !! k.
Proof.
  revert i k. induction ls as [|s ls IH]; intros i [|k]; try done.
  - simpl. rewrite Z.add_0_r. by destruct ls.
  - simpl cut. rewrite !lookup_cons. rewrite IH. simpl. destruct (ls !! k); simpl; [|done].
    f_equal. f_equal. lia.
Qed.

Lemma length_cut n i ls : length (cut n i ls) = length ls.
Proof. revert i. induction ls; intros; simpl; auto. Qed.

(** Every index from the first leader on lies between its leader and the next. *)
Lemma cut_covers n ls i : StronglySorted Z.lt ls → head ls = Some 0 → 0 <= i < n →
  ∃ k s, ls !! k = Some s ∧ s <= i ∧
    i <= match ls !! S k with Some s' => s' - 1 | None => n - 1 end.
Proof.
  intros Hs Hh Hi. assert (∃ s0, head ls = Some s0 ∧ s0 <= i) as (s0 & Hh0 & Hle) by
    (exists 0; split; [done|lia]).
  clear Hh. revert s0 Hh0 Hle. induction Hs as [|s ls Hs IH Hall]; intros s0 Hh0 Hle; [done|].
  simpl in Hh0. simplify_eq. destruct ls as [|s' ls]; [exists 0%nat, s0; simpl; split_and!; (done || lia)|].
  destruct (Z.ltb_spec i s') as [Hlt | Hge].
  - exists 0%nat, s0. simpl. split_and!; (done || lia).
  - destruct (IH s' eq_refl Hge) as (k & s & Hk & ? & ?). exists (S k), s. done.
Qed.

Lemma sorted_lookup_lt (ls : list Z) j k a b : StronglySorted Z.lt ls → (j < k)%nat →
  ls !! j = Some a → ls !! k = Some b → a < b.
Proof.
  intros Hs Hjk. revert j k Hjk. induction Hs as [|s ls Hs IH Hall]; intros [|j] [|k] Hjk Ha Hb;
    simplify_eq/=; try lia.
  - rewrite Forall_forall in Hall. apply Hall. by eapply list_elem_of_lookup_2.
  - eapply (IH j k); [lia|done..].
Qed.

Lemma head_leaders instrs progs : (0 < length instrs)%nat →
  Forall (λ r, 0 <= r_start r < Z.of_nat (length instrs)) progs →
  head (sorted_leaders instrs progs) = Some 0.
Proof.
  intros Hn Hr. pose proof (sorted_leaders_sorted instrs progs) as Hs.
  assert (0 ∈ sorted_leaders instrs progs) as H0.
  { apply elem_sorted_leaders, elem_leaders. by left. }
  assert (∀ x, x ∈ sorted_leaders instrs progs → 0 <= x) as Hge.
  { intros x Hx%elem_sorted_leaders. apply leaders_range in Hx; [lia|done..]. }
  destruct (sorted_leaders instrs progs) as [|s ls]; [by apply not_elem_of_nil in H0|].
  apply elem_of_cons in H0 as [-> | H0]; [done|].
  inversion Hs as [|? ? _ Hall]; subst. rewrite Forall_forall in Hall.
  specialize (Hall 0 H0). specialize (Hge s ltac:(by left)). lia.
Qed.

(** ** The start map *)

Lemma start_map_get blocks p z : NoDup (map start blocks) →
  pget (start_map blocks) p = Some z ↔
  ∃ k b, z = Z.of_nat k ∧ blocks !! k = Some b ∧ start b = p.
Proof.
  intros Hnd. unfold start_map.
  assert (∀ pre, pre `prefix_of` imap pair blocks →
    pget (fold_left (λ d ib, pset d (start ib.2) (Z.of_nat ib.1)) pre []) p = Some z ↔
    ∃ k b, z = Z.of_nat k ∧ (k, b) ∈ pre ∧ start b = p) as H.
  { intros pre. induction pre as [|[k b] pre IH] using rev_ind; intros Hp.
    { simpl. split; [done|]. by intros (? & ? & _ & ?%not_elem_of_nil & _). }
    rewrite fold_left_app. simpl. rewrite pget_pset.
    assert (pre `prefix_of` imap pair blocks) as Hp' by (etrans; [by eexists|done]).
    specialize (IH Hp'). destruct (decide (p = start b)) as [-> | Hne].
    - split; [intros [= <-]; exists k, b; rewrite elem_of_app, list_elem_of_singleton; auto|].
      intros (k' & b' & -> & Hin & Hb). apply elem_of_app in Hin as [Hin | Hin].
      + exfalso. destruct Hp as [suf Hsuf]. apply list_elem_of_lookup in Hin as [j Hj].
        assert (imap pair blocks !! j = Some (k', b')) as H1.
        { rewrite Hsuf, <- app_assoc. by apply lookup_app_l_Some. }
        assert (imap pair blocks !! length pre = Some (k, b)) as H2.
        { rewrite Hsuf, <- app_assoc. by apply list_lookup_middle. }
        rewrite list_lookup_imap in H1, H2.
        apply fmap_Some in H1 as (? & H1 & [= -> ->]), H2 as (? & H2 & [= -> ->]).
        apply lookup_lt_Some in Hj.
        assert (j = length pre); [|lia].
        eapply (NoDup_lookup (map start blocks)); [done| |].
        * change (map start blocks) with (start <$> blocks). by rewrite list_lookup_fmap, H1.
        * change (map start blocks) with (start <$> blocks). rewrite list_lookup_fmap, H2. simpl.
          by rewrite Hb.
      + apply list_elem_of_singleton in Hin. by simplify_eq.
    - rewrite IH. split; intros (k' & b' & ? & Hin & ?); exists k', b'; split_and!; try done.
      + apply elem_of_app. by left.
      + apply elem_of_app in Hin as [? | Hin%list_elem_of_singleton]; [done|by simplify_eq]. }
  rewrite (H (imap pair blocks)) by done. split; intros (k & b & ? & Hin & ?); exists k, b;
    (split; [done|split; [|done]]).
  - apply elem_of_lookup_imap in Hin as (i & y & [= -> ->] & ?). done.
  - by apply (elem_of_lookup_imap_2 pair).
Qed.

(** ** Edges, one block at a time *)

(** The instruction a jump, a conditional jump or a tail call transfers to, and
    the one execution falls through to. *)
Definition pc_taken (instrs : list instr) (progs : list ProgRegion) (s e : Z) (ins : instr)
    : res (option Z) :=
  if negb (is_jump ins) then Ok None
  else if opcode_code ins =? JA then Ok (Some (e + 1 + jump_offset ins))
  else if opcode_code ins =? CALL then
    if is_tail_call ins then r ← _tail_target instrs s e progs; Ok (Some (r_start r)) else Ok None
  else if opcode_code ins =? EXIT then Ok None
  else Ok (Some (e + 1 + offset ins)).

Definition pc_fall (e : Z) (ins : instr) : option Z :=
  if is_jump ins && ((opcode_code ins =? JA) || (opcode_code ins =? EXIT)) then None
  else Some (e + 1).

(** The fields of a block that connecting leaves alone. *)
Definition same_block (b b' : Block) : Prop :=
  num b' = num b ∧ start b' = start b ∧ end_ b' = end_ b.

(** [b'] is [b], number [k], after block [i] was connected to [t] and [f]. *)
Definition connected (ins : instr) (i k : Z) (t f : option Z) (b b' : Block) : Prop :=
  same_block b b' ∧
  preds b' = preds b ++ (if decide (t = Some k) then [i] else [])
                     ++ (if decide (f = Some k) then [i] else []) ∧
  if decide (k = i) then
    succ_t b' = (match t with Some _ => t | None => succ_t b end) ∧
    succ_f b' = (match f with Some _ => f | None => succ_f b end) ∧
    exit_ b' = exit_ b || is_exit ins ∧
    jump b' = jump b || (is_jump ins && (opcode_code ins =? JA)) ∧
    branch b' = branch b || is_branch ins || is_tail_call ins
  else succ_t b' = succ_t b ∧ succ_f b' = succ_f b ∧ exit_ b' = exit_ b ∧ jump b' = jump b ∧
       branch b' = branch b.

Section connect.
Context (instrs : list instr) (progs : list ProgRegion) (starts : list (Z * Z)).
Hypothesis starts_nonneg : ∀ p z, pget starts p = Some z → 0 <= z.

Lemma lookup_alter_Z {A} (f : A → A) (l : list A) i k : 0 <= i →
  alter f (Z.to_nat i) l !! k = if decide (Z.of_nat k = i) then f <$> l !! k else l !! k.
Proof.
  intros Hi. destruct (decide _) as [<- | Hne].
  - by rewrite Nat2Z.id, list_lookup_alter_eq.
  - rewrite list_lookup_alter_ne; [done|]. lia.
Qed.

Lemma add_edge_lookup e i s g k b : 0 <= i → 0 <= s → (add_edge e i s g).1 !! k = Some b →
  ∃ b0, g.1 !! k = Some b0 ∧ b =
    set_edges (preds b0 ++ (if decide (Some s = Some (Z.of_nat k)) then [i] else []))
      (if decide (Z.of_nat k = i) then match e with Fall => Some s | Taken => succ_f b0 end
       else succ_f b0)
      (if decide (Z.of_nat k = i) then match e with Taken => Some s | Fall => succ_t b0 end
       else succ_t b0)
      (exit_ b0) (jump b0) (branch b0) b0.
Proof.
  intros Hi Hs. destruct g as [bs cfg]. unfold add_edge. simpl.
  rewrite !lookup_alter_Z by done.
  assert (∀ b0 : Block, b0 = set_edges (preds b0 ++ []) (succ_f b0) (succ_t b0) (exit_ b0)
    (jump b0) (branch b0) b0) as Hid.
  { intros []. unfold set_edges. simpl. by rewrite app_nil_r. }
  destruct (decide (Z.of_nat k = s)) as [<- | Hks].
  - rewrite (decide_True (P := Some (Z.of_nat k) = _)) by done.
    destruct (decide _), (bs !! k) as [b0|]; simpl; intros [= <-]; exists b0; (split; [done|]);
      by destruct e.
  - rewrite (decide_False (P := Some s = _)) by congruence.
    destruct (decide _), (bs !! k) as [b0|]; simpl; intros [= <-]; exists b0; (split; [done|]);
      rewrite ?app_nil_r; destruct e, b0; try done; unfold set_edges; simpl;
      by rewrite app_nil_r.
Qed.

Lemma upd_nth_lookup f i g k b : 0 <= i → (upd_nth f i g).1 !! k = Some b →
  ∃ b0, g.1 !! k = Some b0 ∧ b = if decide (Z.of_nat k = i) then f b0 else b0.
Proof.
  intros Hi. unfold upd_nth. cbn [fst]. rewrite lookup_alter_Z by done.
  destruct (decide _), (g.1 !! k); simpl; intros [= <-]; eauto.
Qed.

Lemma length_add_edge e i s g : length (add_edge e i s g).1 = length g.1.
Proof. destruct g. unfold add_edge. simpl. by rewrite !length_alter. Qed.
Lemma length_upd_nth f i g : length (upd_nth f i g).1 = length g.1.
Proof. unfold upd_nth. simpl. by rewrite length_alter. Qed.

(** What is found for an edge: the block that starts at the target. *)
Definition found (p s : option Z) : Prop :=
  match p, s with
  | Some p, Some s => pget starts p = Some s
  | None, None => True
  | _, _ => False
  end.

Lemma jump_flags ins : is_jump ins = true →
  is_exit ins = (opcode_code ins =? EXIT) ∧
  is_branch ins = negb ((opcode_code ins =? JA) || ((opcode_code ins =? CALL)
                        || ((opcode_code ins =? EXIT) || false))) ∧
  (opcode_code ins ≠ CALL → is_tail_call ins = false).
Proof.
  intros Hj. unfold is_tail_call, is_exit, is_branch, is_call, in_classes. rewrite Hj.
  split_and!; [done|done|]. intros Hc. by rewrite (proj2 (Z.eqb_neq _ _)).
Qed.

Lemma no_jump_flags ins : is_jump ins = false →
  is_exit ins = false ∧ is_branch ins = false ∧ is_tail_call ins = false.
Proof. intros Hj. unfold is_tail_call, is_exit, is_branch, is_call. by rewrite Hj. Qed.

(** Reads the blocks of a graph built by [add_edge] and [upd_nth] back to the
    original and settles [connected]. *)
Ltac edges i Hi :=
  split_and!; [..|by rewrite ?length_upd_nth, ?length_add_edge, ?length_upd_nth|];
  [..|let k := fresh "k" in let b' := fresh "b'" in let Hk := fresh "Hk" in
  intros k b' Hk;
  repeat match type of Hk with
  | (add_edge _ _ _ _).1 !! _ = _ =>
      apply add_edge_lookup in Hk as (? & Hk & ->); [|exact Hi|by eapply starts_nonneg]
  | (upd_nth _ _ _).1 !! _ = _ => apply upd_nth_lookup in Hk as (? & Hk & ->); [|exact Hi]
  end;
  eexists; split; [exact Hk|];
  unfold connected; destruct (decide (Z.of_nat k = i)); simpl;
  rewrite ?app_nil_r, ?app_nil_l, <- ?app_assoc, ?orb_false_r, ?orb_true_r; split_and!; done].

(** Connecting a block adds the edges of its last instruction; a block that ends
    in no jump falls through unless it ends the program. *)
Lemma connect_block_cases g i g' : 0 <= i → connect_block instrs progs starts g i = Ok g' →
  ∃ b ins tp t f, g.1 !! Z.to_nat i = Some b ∧ py_index instrs (end_ b) = Ok ins ∧
    pc_taken instrs progs (start b) (end_ b) ins = Ok tp ∧ found tp t ∧
    (found (pc_fall (end_ b) ins) f ∨ is_jump ins = false ∧ f = None ∧
       pget starts (end_ b + 1) = None) ∧
    length g'.1 = length g.1 ∧
    ∀ k b', g'.1 !! k = Some b' → ∃ b0, g.1 !! k = Some b0 ∧
      connected ins i (Z.of_nat k) t f b0 b'.
Proof.
  intros Hi HE. unfold connect_block in HE. res_inv.
  apply py_index_Ok in E; [|done]. exists v, v0. unfold pc_taken, pc_fall, connected.
  destruct (is_jump v0) eqn:Ej; cbn [negb andb].
  2:{ destruct (no_jump_flags _ Ej) as (-> & -> & ->).
    destruct (pget starts (end_ v + 1)) as [s|] eqn:Ef; res_inv.
    - exists None, None, (Some s). edges i Hi; try done. by left.
    - exists None, None, None. edges i Hi; try done. by right. }
  destruct (jump_flags _ Ej) as (-> & -> & Ht).
  destruct (Z.eqb_spec (opcode_code v0) JA) as [Ea | Ea].
  { rewrite (Ht ltac:(rewrite Ea; done)). res_inv.
    exists (Some (end_ v + 1 + jump_offset v0)), (Some v1), None. rewrite Ea. edges i Hi; try done. by left. }
  destruct (Z.eqb_spec (opcode_code v0) CALL) as [Ec | Ec].
  { rewrite Ec. change (CALL =? EXIT) with false. res_inv. destruct (is_tail_call v0) eqn:Et; res_inv.
    - exists (Some (r_start v3)), (Some v4), (Some v2). edges i Hi; try done; [|by left].
      by rewrite E3.
    - exists None, None, (Some v2). edges i Hi; try done. by left. }
  rewrite (Ht Ec). destruct (Z.eqb_spec (opcode_code v0) EXIT) as [Ex | Ex]; res_inv.
  - exists None, None, None. edges i Hi; try done. by left.
  - exists (Some (end_ v + 1 + offset v0)), (Some v1), (Some v2). edges i Hi; try done. by left.
Qed.
End connect.

(** ** All blocks *)

(** The fields [build_cfg] decides. *)
Definition core (b : Block) :=
  (num b, start b, end_ b, preds b, succ_f b, succ_t b, (exit_ b, jump b, branch b)).

(** The edges and the kind of a connected block are those of its last
    instruction. *)
Definition edges_ok (instrs : list instr) (progs : list ProgRegion) (starts : list (Z * Z))
    (b : Block) : Prop :=
  ∃ ins tp, py_index instrs (end_ b) = Ok ins ∧
    pc_taken instrs progs (start b) (end_ b) ins = Ok tp ∧ found starts tp (succ_t b) ∧
    (found starts (pc_fall (end_ b) ins) (succ_f b) ∨
     is_jump ins = false ∧ succ_f b = None ∧ pget starts (end_ b + 1) = None) ∧
    exit_ b = is_exit ins ∧ jump b = (is_jump ins && (opcode_code ins =? JA)) ∧
    branch b = is_branch ins || is_tail_call ins.

Definition unconnected (b : Block) : Prop :=
  succ_t b = None ∧ succ_f b = None ∧ exit_ b = false ∧ jump b = false ∧ branch b = false.

(** After the first [m] blocks were connected. *)
Definition connected_to (instrs : list instr) (progs : list ProgRegion) (starts : list (Z * Z))
    (blocks0 : list Block) (m : Z) (g : list Block) : Prop :=
  length g = length blocks0 ∧
  ∀ k b, g !! k = Some b →
    (∃ b0, blocks0 !! k = Some b0 ∧ same_block b0 b) ∧
    (if decide (Z.of_nat k < m) then edges_ok instrs progs starts b else unconnected b) ∧
    ∀ p, p ∈ preds b ↔ 0 <= p < m ∧ ∃ pb, g !! Z.to_nat p = Some pb ∧
      (succ_t pb = Some (Z.of_nat k) ∨ succ_f pb = Some (Z.of_nat k)).

Lemma preds_step m (g g' : list Block) (l : list Z) k t f :
  0 <= m → length g' = length g → is_Some (g !! Z.to_nat m) →
  (∀ p pb', Z.of_nat p ≠ m → g' !! p = Some pb' →
     ∃ pb, g !! p = Some pb ∧ succ_t pb' = succ_t pb ∧ succ_f pb' = succ_f pb) →
  (∀ pb', g' !! Z.to_nat m = Some pb' → succ_t pb' = t ∧ succ_f pb' = f) →
  (∀ p, p ∈ l ↔ 0 <= p < m ∧ ∃ pb, g !! Z.to_nat p = Some pb ∧
      (succ_t pb = Some k ∨ succ_f pb = Some k)) →
  ∀ p, p ∈ l ++ (if decide (t = Some k) then [m] else []) ++ (if decide (f = Some k) then [m] else [])
    ↔ 0 <= p < m + 1 ∧ ∃ pb, g' !! Z.to_nat p = Some pb ∧
      (succ_t pb = Some k ∨ succ_f pb = Some k).
Proof.
  intros Hm Hlen HmS Hold Hnew Hl p. rewrite !elem_of_app, Hl.
  assert (∀ x : option Z, p ∈ (if decide (x = Some k) then [m] else []) ↔ p = m ∧ x = Some k)
    as Hopt.
  { intros x. destruct (decide _); [rewrite list_elem_of_singleton; tauto|].
    split; [by intros ?%not_elem_of_nil|tauto]. }
  rewrite !Hopt. destruct (decide (p = m)) as [-> | Hne].
  - destruct (lookup_lt_is_Some_2 g' (Z.to_nat m)) as [pb' Hpb'].
    { rewrite Hlen. by apply lookup_lt_is_Some. }
    destruct (Hnew _ Hpb') as [Ht Hf]. split.
    + intros [[? _] | [[_ ?] | [_ ?]]]; [lia| |]; (split; [lia|]); exists pb'; split; try done;
        [left|right]; congruence.
    + intros [_ (pb & Hpb & Hor)]. simplify_eq. right. destruct Hor; [left|right]; split; congruence.
  - split.
    + intros [[Hp (pb & Hpb & Hor)] | [[? _] | [? _]]]; [|done..]. split; [lia|].
      destruct (lookup_lt_is_Some_2 g' (Z.to_nat p)) as [pb' Hpb'].
      { rewrite Hlen. by eapply lookup_lt_Some. }
      destruct (Hold (Z.to_nat p) pb' ltac:(lia) Hpb') as (pb0 & Hpb0 & Ht & Hf). simplify_eq.
      exists pb'. rewrite Ht, Hf. done.
    + intros [Hp (pb' & Hpb' & Hor)]. left. split; [lia|].
      destruct (Hold (Z.to_nat p) pb' ltac:(lia) Hpb') as (pb0 & Hpb0 & Ht & Hf).
      exists pb0. rewrite <- Ht, <- Hf. done.
Qed.

Lemma connect_step instrs progs starts blocks0 m g g' :
  (∀ p z, pget starts p = Some z → 0 <= z) → 0 <= m →
  connected_to instrs progs starts blocks0 m g.1 →
  connect_block instrs progs starts g m = Ok g' →
  connected_to instrs progs starts blocks0 (m + 1) g'.1.
Proof.
  intros Hst Hm [Hlen Hinv] HE.
  destruct (connect_block_cases _ _ _ Hst _ _ _ Hm HE)
    as (bm & ins & tp & t & f & Hbm & Hins & Htp & Hft & Hff & Hl & Hall).
  destruct (Hinv _ _ Hbm) as (_ & Hun & _). rewrite decide_False in Hun by lia.
  destruct Hun as (U1 & U2 & U3 & U4 & U5).
  assert (∀ k b', g'.1 !! k = Some b' → Z.of_nat k = m →
    succ_t b' = t ∧ succ_f b' = f ∧ edges_ok instrs progs starts b') as Hnew.
  { intros k b' Hk Hkm. destruct (Hall k b' Hk) as (b0 & Hb0 & (Hn & Hs & He) & _ & Hc).
    rewrite decide_True in Hc by done. replace k with (Z.to_nat m) in Hb0 by lia. simplify_eq.
    destruct Hc as (Ct & Cf & C3 & C4 & C5). rewrite U1 in Ct. rewrite U2 in Cf.
    rewrite U3 in C3. rewrite U4 in C4. rewrite U5 in C5.
    assert (succ_t b' = t ∧ succ_f b' = f) as [-> ->] by (split; [by destruct t|by destruct f]).
    split_and!; [done|done|]. exists ins, tp. rewrite He, Hs.
    split_and!; try done; [by destruct t; rewrite Ct|]. rewrite Cf. destruct f; tauto. }
  split; [congruence|]. intros k b' Hk. destruct (Hall k b' Hk) as (b0 & Hb0 & Hsame & Hp & Hc).
  destruct (Hinv k b0 Hb0) as ((b00 & Hb00 & Hs00) & Hif & Hpreds). split_and!.
  - exists b00. split; [done|]. destruct Hs00 as (? & ? & ?), Hsame as (? & ? & ?).
    split_and!; congruence.
  - destruct (decide (Z.of_nat k = m)) as [Hkm | Hkm].
    + rewrite decide_True by lia. by apply (Hnew k b').
    + destruct Hc as (Ct & Cf & C3 & C4 & C5), Hsame as (Hn & Hs & He).
      destruct (decide (Z.of_nat k < m)); [rewrite decide_True by lia|rewrite decide_False by lia].
      * destruct Hif as (ins' & tp' & Hif). exists ins', tp'.
        by rewrite Hs, He, Ct, Cf, C3, C4, C5.
      * unfold unconnected. by rewrite Ct, Cf, C3, C4, C5.
  - rewrite Hp. apply (preds_step m g.1 g'.1); try done.
    + intros p pb' Hne Hpb. destruct (Hall _ _ Hpb) as (pb & Hpb0 & _ & _ & Hcp).
      exists pb. split; [done|]. rewrite decide_False in Hcp by done. tauto.
    + intros pb' Hpb. destruct (Hnew _ _ Hpb ltac:(lia)) as (? & ? & _). done.
Qed.

Lemma cut_unconnected n i ls k b : cut n i ls !! k = Some b → preds b = [] ∧ unconnected b.
Proof. rewrite cut_lookup. intros (s & _ & ->)%fmap_Some. done. Qed.

Lemma connect_all instrs progs starts blocks0 cfg0 g :
  (∀ p z, pget starts p = Some z → 0 <= z) →
  (∀ k b, blocks0 !! k = Some b → preds b = [] ∧ unconnected b) →
  foldR (connect_block instrs progs starts) (blocks0, cfg0)
    (zrange 0 (Z.of_nat (length blocks0))) = Ok g →
  connected_to instrs progs starts blocks0 (Z.of_nat (length blocks0)) g.1.
Proof.
  intros Hst H0 HE.
  apply (foldR_ind _ (λ pre g, connected_to instrs progs starts blocks0 (Z.of_nat (length pre)) g.1))
    in HE; [|split; [done|]|].
  - unfold zrange in HE. rewrite length_seqZ in HE.
    by replace (Z.of_nat (Z.to_nat (Z.of_nat (length blocks0) - 0)))
      with (Z.of_nat (length blocks0)) in HE by lia.
  - intros k b Hb. destruct (H0 k b Hb) as [Hp Hu]. split_and!.
    + by exists b.
    + rewrite decide_False; [done|]. simpl. lia.
    + intros p. rewrite Hp. split; [by intros ?%not_elem_of_nil|simpl; lia].
  - intros pre a g1 g2 [suf Hpre] IH HE1.
    assert (a = Z.of_nat (length pre)) as ->.
    { assert (zrange 0 (Z.of_nat (length blocks0)) !! length pre = Some a) as Hl
        by (rewrite Hpre, <- app_assoc; by apply list_lookup_middle).
      unfold zrange in Hl. apply lookup_seqZ in Hl. lia. }
    rewrite length_app. simpl. replace (Z.of_nat (length pre + 1)) with (Z.of_nat (length pre) + 1)
      by lia.
    eapply connect_step; [done|lia|done|done].
Qed.

(** Placing the regions only records them in the blocks they enter. *)
Lemma place_regions_core starts progs bs0 done0 bs done1 :
  foldR (place_region starts) (bs0, done0) progs = Ok (bs, done1) → core <$> bs = core <$> bs0.
Proof.
  revert bs0 done0. induction progs as [|r progs IH]; intros bs0 done0 HE; simpl in HE; res_inv;
    [done|]. rewrite (IH _ _ HE). destruct (_ =? 0); [done|].
  apply list_eq. intros k. rewrite !list_lookup_fmap.
  destruct (decide (k = Z.to_nat v0)) as [-> | ?].
  - rewrite list_lookup_alter_eq. by destruct (bs0 !! _).
  - by rewrite list_lookup_alter_ne.
Qed.

Lemma cut_starts n i ls : start <$> cut n i ls = ls.
Proof. revert i. induction ls as [|s ls IH]; intros i; [done|]. simpl. by rewrite IH. Qed.

Lemma strictly_NoDup (l : list Z) : StronglySorted Z.lt l → NoDup l.
Proof.
  induction 1 as [|x l Hs IH Hx]; constructor; [|done]. rewrite Forall_forall in Hx.
  intros H. specialize (Hx x H). lia.
Qed.

Lemma cut_starts_NoDup n i instrs progs :
  NoDup (map start (cut n i (sorted_leaders instrs progs))).
Proof.
  change (NoDup (start <$> cut n i (sorted_leaders instrs progs))). rewrite cut_starts.
  apply strictly_NoDup, sorted_leaders_sorted.
Qed.

(** The shape of the graph [build_cfg] returns. *)
Lemma build_cfg_shape instrs progs blocks cfg starts progs' :
  build_cfg instrs progs = Ok (blocks, cfg, starts, progs') →
  let blocks0 := cut (Z.of_nat (length instrs)) 0 (sorted_leaders instrs progs) in
  starts = start_map blocks0 ∧
  ∃ bs, core <$> blocks = core <$> bs ∧
    connected_to instrs progs starts blocks0 (Z.of_nat (length blocks0)) bs.
Proof.
  intros HE blocks0. unfold build_cfg in HE. fold blocks0 in HE. cbv zeta in HE.
  apply bind_Ok in HE as ([bs1 cfg1] & HC & HE). apply bind_Ok in HE as ([bs2 pr2] & HP & HE).
  injection HE as <- <- <- <-. split; [done|]. exists bs1.
  split; [by eapply place_regions_core|].
  eapply connect_all in HC; [done| |].
  - intros p z Hg. apply start_map_get in Hg as (k & b & -> & _ & _); [lia|].
    apply cut_starts_NoDup.
  - intros k b. apply cut_unconnected.
Qed.

(** [s] is the number of the block that starts at instruction [p]. *)
Definition at_block (blocks : list Block) (p s : option Z) : Prop :=
  match p, s with
  | Some p, Some s => 0 <= s ∧ ∃ b, blocks !! Z.to_nat s = Some b ∧ start b = p
  | None, None => True
  | _, _ => False
  end.

Lemma core_lookup (blocks bs : list Block) (k : nat) b : core <$> blocks = core <$> bs → blocks !! k = Some b →
  ∃ b', bs !! k = Some b' ∧ core b' = core b.
Proof.
  intros Hc Hb. assert ((core <$> bs) !! k = Some (core b)) as H.
  { rewrite <- Hc, list_lookup_fmap, Hb. done. }
  rewrite list_lookup_fmap in H. apply fmap_Some in H as (b' & ? & ?). eauto.
Qed.

(** Number [k]'s leader, and the next. *)
Lemma block_bounds instrs progs blocks cfg starts progs' k b :
  build_cfg instrs progs = Ok (blocks, cfg, starts, progs') → blocks !! k = Some b →
  num b = Z.of_nat k ∧ sorted_leaders instrs progs !! k = Some (start b) ∧
  end_ b = match sorted_leaders instrs progs !! S k with
           | Some s' => s' - 1 | None => Z.of_nat (length instrs) - 1 end.
Proof.
  intros HE Hb. destruct (build_cfg_shape _ _ _ _ _ _ HE) as (_ & bs & Hc & _ & Hinv).
  destruct (core_lookup _ _ _ _ Hc Hb) as (b' & Hb' & Hcore).
  destruct (Hinv _ _ Hb') as ((b0 & Hb0 & Hn & Hs & He) & _).
  rewrite cut_lookup in Hb0. apply fmap_Some in Hb0 as (s & Hs0 & ->).
  unfold core in Hcore. injection Hcore as <- <- <- _ _ _ _ _ _.
  rewrite Hn, Hs, He. split_and!; (done || simpl; lia).
Qed.

Lemma blocks_of_leaders instrs progs blocks cfg starts progs' k s :
  build_cfg instrs progs = Ok (blocks, cfg, starts, progs') →
  sorted_leaders instrs progs !! k = Some s → ∃ b, blocks !! k = Some b ∧ start b = s.
Proof.
  intros HE Hs. destruct (build_cfg_shape _ _ _ _ _ _ HE) as (_ & bs & Hc & Hl & _).
  rewrite length_cut in Hl. assert (length blocks = length bs) as Hl'.
  { apply (f_equal length) in Hc. by rewrite !length_fmap in Hc. }
  destruct (lookup_lt_is_Some_2 blocks k) as [b Hb].
  { rewrite Hl', Hl. by eapply lookup_lt_Some. }
  exists b. split; [done|].
  destruct (block_bounds _ _ _ _ _ _ _ _ HE Hb) as (_ & Hs' & _). by simplify_eq.
Qed.

Lemma found_at_block instrs progs blocks cfg starts progs' p s :
  build_cfg instrs progs = Ok (blocks, cfg, starts, progs') →
  found starts p s → at_block blocks p s.
Proof.
  intros HE. destruct p as [p|], s as [s|]; try done. simpl. intros Hg.
  destruct (build_cfg_shape _ _ _ _ _ _ HE) as (-> & _).
  apply start_map_get in Hg as (k & b & -> & Hb & <-); [|apply cut_starts_NoDup].
  rewrite cut_lookup in Hb. apply fmap_Some in Hb as (s & Hs & ->). simpl.
  destruct (blocks_of_leaders _ _ _ _ _ _ _ _ HE Hs) as (b' & ? & ?).
  split; [lia|]. exists b'. by rewrite Nat2Z.id.
Qed.

(** A block as it was connected, before the regions were placed. *)
Lemma connected_block instrs progs blocks cfg starts progs' k b :
  build_cfg instrs progs = Ok (blocks, cfg, starts, progs') → blocks !! k = Some b →
  ∃ bs b', core <$> blocks = core <$> bs ∧ bs !! k = Some b' ∧ core b' = core b ∧
    connected_to instrs progs starts (cut (Z.of_nat (length instrs)) 0 (sorted_leaders instrs progs))
      (Z.of_nat (length bs)) bs.
Proof.
  intros HE Hb. destruct (build_cfg_shape _ _ _ _ _ _ HE) as (_ & bs & Hc & Hl & Hinv).
  destruct (core_lookup _ _ _ _ Hc Hb) as (b' & Hb' & Hcore). exists bs, b'.
  split_and!; [done..|]. rewrite Hl. by split.
Qed.

Lemma cfg_block_edges instrs progs blocks cfg starts progs' k b :
  build_cfg instrs progs = Ok (blocks, cfg, starts, progs') → blocks !! k = Some b →
  ∃ ins tp, py_index instrs (end_ b) = Ok ins ∧
     pc_taken instrs progs (start b) (end_ b) ins = Ok tp ∧ at_block blocks tp (succ_t b) ∧
     (at_block blocks (pc_fall (end_ b) ins) (succ_f b) ∨
      is_jump ins = false ∧ succ_f b = None ∧ end_ b = Z.of_nat (length instrs) - 1) ∧
     exit_ b = is_exit ins ∧ jump b = (is_jump ins && (opcode_code ins =? JA)) ∧
     branch b = is_branch ins || is_tail_call ins.
Proof.
  intros HE Hb. pose proof (block_bounds _ _ _ _ _ _ _ _ HE Hb) as (_ & Hlead & Hend).
  destruct (build_cfg_shape _ _ _ _ _ _ HE) as (Hst & _).
  destruct (connected_block _ _ _ _ _ _ _ _ HE Hb) as (bs & b' & Hc & Hb' & Hcore & Hl & Hinv).
  destruct (Hinv _ _ Hb') as (_ & Hif & _). pose proof (lookup_lt_Some _ _ _ Hb') as Hlt.
  rewrite decide_True in Hif by lia. destruct Hif as (ins & tp & Hif).
  unfold core in Hcore. injection Hcore as Hnum Hs He _ Hsf Hst' Hex Hj Hbr.
  rewrite Hs, He, Hsf, Hst', Hex, Hj, Hbr in Hif.
  destruct Hif as (Hi & Htp & Ht & Hf & Hkind).
  exists ins, tp. split_and!; try done; try apply Hkind; [by eapply found_at_block|].
  destruct Hf as [Hf | (Hnj & Hnone & Hmiss)]; [left; by eapply found_at_block|right].
  split_and!; [done..|]. rewrite Hend.
  destruct (sorted_leaders instrs progs !! S k) as [s'|] eqn:Es; [|done]. exfalso.
  assert (pget starts (end_ b + 1) = Some (Z.of_nat (S k))) as Hg; [|congruence].
  rewrite Hst. apply start_map_get; [apply cut_starts_NoDup|].
  eexists (S k), _. rewrite cut_lookup, Es. simpl. split_and!; try done. simpl. lia.
Qed.

Lemma cfg_preds instrs progs blocks cfg starts progs' k b :
  build_cfg instrs progs = Ok (blocks, cfg, starts, progs') → blocks !! k = Some b →
  ∀ p, p ∈ preds b ↔ 0 <= p ∧ ∃ pb, blocks !! Z.to_nat p = Some pb ∧
    (succ_t pb = Some (Z.of_nat k) ∨ succ_f pb = Some (Z.of_nat k)).
Proof.
  intros HE Hb p.
  destruct (connected_block _ _ _ _ _ _ _ _ HE Hb) as (bs & b' & Hc & Hb' & Hcore & Hl & Hinv).
  destruct (Hinv _ _ Hb') as (_ & _ & Hp). injection Hcore as _ _ _ Hpr _ _ _ _ _.
  rewrite Hpr in Hp. rewrite Hp. split.
  - intros [? (pb & Hpb & Hor)]. split; [lia|]. symmetry in Hc.
    destruct (core_lookup _ _ _ _ Hc Hpb) as (pb' & Hpb' & Hcp). exists pb'. split; [done|].
    unfold core in Hcp. injection Hcp as _ _ _ _ Hf' Ht' _ _ _. by rewrite Ht', Hf'.
  - intros [? (pb & Hpb & Hor)].
    destruct (core_lookup _ _ _ _ Hc Hpb) as (pb' & Hpb' & Hcp).
    split; [apply lookup_lt_Some in Hpb'; lia|]. exists pb'. split; [done|].
    unfold core in Hcp. injection Hcp as _ _ _ _ Hf' Ht' _ _ _. by rewrite Ht', Hf'.
Qed.

(** C21 The edges of the graph are the machine's control transfers: the taken
    edge of a block goes to the block that starts at its last instruction's jump
    target (or tail-call callee), the fall edge to the one that starts right
    after it, and a block lacks an edge only where the machine has none or the
    program ends; its kind is that of its last instruction; and the predecessors
    of a block are exactly the blocks with an edge to it. *)
Theorem cfg_edges instrs progs blocks cfg starts progs' k b :
  build_cfg instrs progs = Ok (blocks, cfg, starts, progs') → blocks !! k = Some b →
  (∃ ins tp, py_index instrs (end_ b) = Ok ins ∧
     pc_taken instrs progs (start b) (end_ b) ins = Ok tp ∧ at_block blocks tp (succ_t b) ∧
     (at_block blocks (pc_fall (end_ b) ins) (succ_f b) ∨
      is_jump ins = false ∧ succ_f b = None ∧ end_ b = Z.of_nat (length instrs) - 1) ∧
     exit_ b = is_exit ins ∧ jump b = (is_jump ins && (opcode_code ins =? JA)) ∧
     branch b = is_branch ins || is_tail_call ins) ∧
  ∀ p, p ∈ preds b ↔ 0 <= p ∧ ∃ pb, blocks !! Z.to_nat p = Some pb ∧
    (succ_t pb = Some (Z.of_nat k) ∨ succ_f pb = Some (Z.of_nat k)).
Proof. intros HE Hb. split; [by eapply cfg_block_edges|by eapply cfg_preds]. Qed.

(** Only a branch has two successors, and the end of the program none. *)
Lemma cfg_successors instrs progs blocks cfg starts progs' k b :
  build_cfg instrs progs = Ok (blocks, cfg, starts, progs') → blocks !! k = Some b →
  (branch b = false → succ_t b = None ∨ succ_f b = None) ∧
  (kind b = KExit → succ_t b = None ∧ succ_f b = None).
Proof.
  intros HE Hb.
  destruct (cfg_block_edges _ _ _ _ _ _ _ _ HE Hb) as (ins & tp & _ & Htp & Ht & Hf & He & Hj & Hbr).
  assert (pc_fall (end_ b) ins = None → succ_f b = None) as Hnf.
  { intros Hn. destruct Hf as [Hf | (_ & ? & _)]; [|done]. rewrite Hn in Hf. by destruct (succ_f b). }
  assert (tp = None → succ_t b = None) as Hnt by (intros ->; by destruct (succ_t b)).
  unfold pc_fall, pc_taken in *. unfold kind. rewrite He, Hj, Hbr.
  unfold is_branch, is_exit, is_tail_call, is_call, in_classes in *. simpl.
  destruct (is_jump ins) eqn:E; simpl in *; [|injection Htp as <-; split; [auto|done]].
  destruct (Z.eqb_spec (opcode_code ins) JA) as [Ea | ?]; simpl in *.
  { rewrite Ea. split; [auto|]. change (JA =? CALL) with false. done. }
  destruct (Z.eqb_spec (opcode_code ins) CALL) as [Ec | ?]; simpl in *.
  { rewrite Ec. change (CALL =? EXIT) with false. split.
    - destruct (_ && _); [done|]. injection Htp as <-. auto.
    - by destruct (_ && _). }
  destruct (Z.eqb_spec (opcode_code ins) EXIT) as [Ex | ?]; simpl in *.
  { injection Htp as <-. auto. }
  done.
Qed.

Lemma cfg_nonempty instrs progs blocks cfg starts progs' :
  build_cfg instrs progs = Ok (blocks, cfg, starts, progs') → (0 < length blocks)%nat.
Proof.
  intros HE. destruct (build_cfg_shape _ _ _ _ _ _ HE) as (_ & bs & Hc & Hl & _).
  apply (f_equal length) in Hc. rewrite !length_fmap in Hc. rewrite Hc, Hl.
  rewrite <- (length_fmap start), cut_starts.
  assert (0 ∈ sorted_leaders instrs progs) as H0.
  { unfold sorted_leaders. rewrite merge_sort_Permutation, elem_of_elements. unfold leaders. set_solver. }
  destruct (sorted_leaders instrs progs); [by apply elem_of_nil in H0|simpl; lia].
Qed.

(** An instruction after which a new block must start. *)
Definition ends_block (ins : instr) : bool :=
  is_jump ins && (negb (is_call ins) || is_tail_call ins).

Lemma ends_block_leader n i ins : ends_block ins = true → i + 1 < n → i + 1 ∈ instr_leaders n i ins.
Proof.
  unfold ends_block, instr_leaders. intros He Hi. bool_prop. rewrite H. cbn [negb].
  rewrite (proj2 (Z.ltb_lt (i + 1) n)) by done.
  destruct (is_exit ins); [by apply list_elem_of_singleton|].
  destruct (is_call ins) eqn:Ec; cbn [negb orb] in *.
  - rewrite H0. by apply list_elem_of_singleton.
  - apply elem_of_app. right. by apply list_elem_of_singleton.
Qed.

(** The leader after number [k] is at most any later one. *)
Lemma next_leader (ls : list Z) j k a c : StronglySorted Z.lt ls → (k < j)%nat →
  ls !! k = Some a → ls !! j = Some c → ∃ s, ls !! S k = Some s ∧ a < s <= c.
Proof.
  intros Hs Hkj Hk Hj. destruct (lookup_lt_is_Some_2 ls (S k)) as [s Hsk];
    [apply lookup_lt_Some in Hj; lia|]. exists s. split; [done|].
  pose proof (sorted_lookup_lt _ k (S k) _ _ Hs ltac:(lia) Hk Hsk).
  destruct (decide (S k = j)) as [<- | ?]; [simplify_eq; lia|].
  pose proof (sorted_lookup_lt _ (S k) j _ _ Hs ltac:(lia) Hsk Hj). lia.
Qed.

Section partition.
Context (instrs : list instr) (progs progs' : list ProgRegion) (blocks : list Block)
  (cfg : list (list Z)) (starts : list (Z * Z)).
Hypothesis HE : build_cfg instrs progs = Ok (blocks, cfg, starts, progs').
Hypothesis Hn : (0 < length instrs)%nat.
Hypothesis Hr : Forall (λ r, 0 <= r_start r < Z.of_nat (length instrs)) progs.

Lemma leader_range k s : sorted_leaders instrs progs !! k = Some s →
  0 <= s < Z.of_nat (length instrs).
Proof using Hn Hr.
  intros Hs. apply list_elem_of_lookup_2 in Hs. apply elem_sorted_leaders in Hs.
  by eapply leaders_range.
Qed.

(** Two blocks do not overlap. *)
Lemma blocks_apart i k k' b b' : (k < k')%nat → blocks !! k = Some b → blocks !! k' = Some b' →
  start b' <= i → i <= end_ b → False.
Proof using HE.
  clear Hn Hr. intros Hlt Hb Hb' H1 H2. pose proof (sorted_leaders_sorted instrs progs) as Hsort.
  destruct (block_bounds _ _ _ _ _ _ _ _ HE Hb) as (_ & Hk & He).
  destruct (block_bounds _ _ _ _ _ _ _ _ HE Hb') as (_ & Hk' & _).
  destruct (next_leader _ _ _ _ _ Hsort Hlt Hk Hk') as (s & Hs & ?). rewrite Hs in He. lia.
Qed.

Lemma block_inside k b : blocks !! k = Some b →
  start b <= end_ b < Z.of_nat (length instrs) ∧
  ∀ i ins, start b <= Z.of_nat i < end_ b → instrs !! i = Some ins → ends_block ins = false.
Proof using HE Hn Hr.
  intros Hb. pose proof (sorted_leaders_sorted instrs progs) as Hsort.
  destruct (block_bounds _ _ _ _ _ _ _ _ HE Hb) as (_ & Hk & He).
  pose proof (leader_range _ _ Hk) as Hkr.
  assert (start b <= end_ b < Z.of_nat (length instrs)) as Hse.
  { rewrite He. destruct (sorted_leaders instrs progs !! S k) as [s|] eqn:Es; [|lia].
    pose proof (leader_range _ _ Es). pose proof (sorted_lookup_lt _ k (S k) _ _ Hsort ltac:(lia) Hk Es).
    lia. }
  split; [done|]. intros i ins Hi Hins. destruct (ends_block ins) eqn:Eb; [exfalso|done].
  assert (Z.of_nat i + 1 ∈ sorted_leaders instrs progs) as Hl.
  { apply elem_sorted_leaders, elem_leaders. right; right. exists i, ins. split; [done|].
    apply ends_block_leader; [done|]. lia. }
  apply list_elem_of_lookup in Hl as [j Hj]. assert (k < j)%nat as Hkj.
  { destruct (Nat.lt_trichotomy k j) as [? | [-> | Hlt]]; [done|simplify_eq; lia|].
    pose proof (sorted_lookup_lt _ j k _ _ Hsort Hlt Hj Hk). lia. }
  destruct (next_leader _ _ _ _ _ Hsort Hkj Hk Hj) as (s & Hs & ?). rewrite Hs in He. lia.
Qed.

(** C22 The blocks partition the program: every instruction lies in exactly one
    block, blocks are numbered in order and are not empty, every region starts a
    block, and inside a block, before its last instruction, control only moves to
    the next one. *)
Theorem cfg_partition :
  (∀ i, 0 <= i < Z.of_nat (length instrs) →
     ∃ k b, blocks !! k = Some b ∧ start b <= i <= end_ b ∧
       ∀ k' b', blocks !! k' = Some b' → start b' <= i <= end_ b' → k' = k) ∧
  (∀ k b, blocks !! k = Some b →
     num b = Z.of_nat k ∧ start b <= end_ b < Z.of_nat (length instrs) ∧
     ∀ i ins, start b <= Z.of_nat i < end_ b → instrs !! i = Some ins → ends_block ins = false) ∧
  ∀ r, r ∈ progs → ∃ k b, blocks !! k = Some b ∧ start b = r_start r.
Proof using HE Hn Hr.
  pose proof (sorted_leaders_sorted instrs progs) as Hsort. split_and!.
  - intros i Hi. pose proof (head_leaders instrs progs Hn Hr) as Hh.
    destruct (cut_covers _ _ _ Hsort Hh Hi) as (k & s & Hk & Hle & Hge).
    destruct (blocks_of_leaders _ _ _ _ _ _ _ _ HE Hk) as (b & Hb & <-).
    destruct (block_bounds _ _ _ _ _ _ _ _ HE Hb) as (_ & _ & He). exists k, b.
    split_and!; [done|done|by rewrite He|]. intros k' b' Hb' [? ?].
    destruct (Nat.lt_trichotomy k k') as [Hlt | [? | Hlt]]; [|done|]; exfalso;
      eapply blocks_apart; try done. by rewrite He.
  - intros k b Hb. destruct (block_bounds _ _ _ _ _ _ _ _ HE Hb) as (Hnum & _ & _).
    split; [done|]. by apply (block_inside k).
  - intros r Hin. assert (r_start r ∈ sorted_leaders instrs progs) as Hl.
    { apply elem_sorted_leaders, elem_leaders. right; left. eauto. }
    apply list_elem_of_lookup in Hl as [k Hk].
    destruct (blocks_of_leaders _ _ _ _ _ _ _ _ HE Hk) as (b & ? & ?). eauto.
Qed.
End partition.

(** ** The tracing order *)

(** The block traced next has all its predecessors traced; and where the
    untraced blocks have no cycle (some rank grows along every edge between
    them) there is one, so the tracing order covers them all. *)
Theorem next_block_progress blocks untraced (rank : Z → nat) :
  untraced ≠ [] → (∀ b, b ∈ untraced → is_Some (blocks !! Z.to_nat b) ∧ 0 <= b) →
  (∀ b blk p, b ∈ untraced → blocks !! Z.to_nat b = Some blk → p ∈ preds blk →
     p ∈ untraced → (rank p < rank b)%nat) →
  ∃ b blk, get_next_block_no blocks untraced = Ok b ∧ b ∈ untraced ∧
    blocks !! Z.to_nat b = Some blk ∧ ∀ p, p ∈ preds blk → p ∉ untraced.
Proof.
  intros Hne Hin Hrank. unfold get_next_block_no. cbv zeta.
  set (ready := λ item, match py_index blocks item with
    | Ok b => forallb (λ p, negb (bool_decide (p ∈ untraced))) (preds b) | Err _ => false end).
  assert (∀ b, b ∈ untraced → ready b = true →
    ∃ blk, blocks !! Z.to_nat b = Some blk ∧ ∀ p, p ∈ preds blk → p ∉ untraced) as Hready.
  { intros b Hb Hr. destruct (Hin b Hb) as [[blk Hblk] H0]. exists blk. split; [done|].
    unfold ready in Hr. apply py_index_Ok in Hblk; [|done]. rewrite Hblk in Hr.
    intros p Hp. rewrite forallb_forall in Hr. specialize (Hr p (proj1 (list_elem_of_In _ _) Hp)).
    by bool_prop. }
  assert (∃ b, b ∈ untraced ∧ ready b = true) as (b & Hb & Hr).
  { assert (∀ n b, b ∈ untraced → (rank b <= n)%nat → ∃ b', b' ∈ untraced ∧ ready b' = true) as Hall.
    { intros n. induction n as [n IH] using lt_wf_ind. intros b Hb Hn.
      destruct (ready b) eqn:Er; [by exists b|]. unfold ready in Er.
      destruct (Hin b Hb) as [[blk Hblk] H0]. pose proof Hblk as Hpy.
      apply py_index_Ok in Hpy; [|done]. rewrite Hpy in Er.
      assert (∃ p, p ∈ preds blk ∧ p ∈ untraced) as (p & Hp & Hpu).
      { apply not_true_iff_false in Er. rewrite forallb_forall in Er.
        destruct (decide (Exists (λ p, p ∈ untraced) (preds blk))) as [Hex | Hnex].
        - apply Exists_exists in Hex. naive_solver.
        - destruct Er. intros p Hp%list_elem_of_In. apply negb_true_iff, bool_decide_eq_false.
          intros Hpu. apply Hnex, Exists_exists. eauto. }
      pose proof (Hrank b blk p Hb Hblk Hp Hpu). eapply (IH (rank p)); [lia|done|lia]. }
    destruct untraced as [|b l]; [done|]. by apply (Hall (rank b) b); [left|]. }
  destruct (filter (λ item, ready item = true) untraced) as [|b' l] eqn:Ef.
  { exfalso. assert (b ∈ filter (λ item, ready item = true) untraced) as Hf
      by (by apply list_elem_of_filter). rewrite Ef in Hf. by apply not_elem_of_nil in Hf. }
  assert (b' ∈ filter (λ item, ready item = true) untraced) as [Hr' Hb']%list_elem_of_filter
    by (rewrite Ef; left).
  destruct (Hready b' Hb' Hr') as (blk & ? & ?). exists b', blk.
  split_and!; try done.
  change (match filter (λ item, ready item = true) untraced with
    [] => Err SystemExit | item :: _ => Ok item end = Ok b'). by rewrite Ef.
Qed.

(** ** A concrete program *)

(** [if (r1 == 0) goto +1; r0 = 1; exit]. *)
Definition ex_cfg_instr (n op off : Z) : instr :=
  match new_instr n (n * 8) [op; 0; off; 0; 0; 0; 0; 0] false with
  | Ok i => i | Err _ => nop_instr n 0 end.
Definition ex_cfg_prog : list instr :=
  [ex_cfg_instr 0 0x15 1; ex_cfg_instr 1 0xb7 0; ex_cfg_instr 2 0x95 0].

Definition ex_cfg_result :=
  match build_cfg ex_cfg_prog [] with
  | Ok r => r | Err _ => ([], [], [], []) end.

Lemma ex_cfg_eq : build_cfg ex_cfg_prog [] =
  Ok (ex_cfg_result.1.1.1, ex_cfg_result.1.1.2, ex_cfg_result.1.2, ex_cfg_result.2).
Proof. vm_compute. reflexivity. Qed.

Lemma cfg_edges_witness : ∃ b, ex_cfg_result.1.1.1 !! 0%nat = Some b ∧
  succ_t b = Some 2 ∧ ∀ p, p ∈ preds b → False.
Proof.
  destruct (ex_cfg_result.1.1.1 !! 0%nat) as [b|] eqn:Eb; [|discriminate Eb].
  destruct (cfg_edges ex_cfg_prog [] _ _ _ _ 0 b ex_cfg_eq Eb) as [_ Hp].
  vm_compute in Eb. injection Eb as <-. eexists. split; [reflexivity|]. split; [reflexivity|].
  intros p H. apply Hp in H as [_ (pb & Hpb & Hor)].
  destruct (Z.to_nat p) as [|[|[|n]]]; vm_compute in Hpb; try discriminate Hpb;
    injection Hpb as <-; destruct Hor; discriminate.
Defined.

Lemma cfg_partition_witness : ∃ k b, ex_cfg_result.1.1.1 !! k = Some b ∧ start b <= 1 <= end_ b.
Proof.
  destruct (cfg_partition ex_cfg_prog [] _ _ _ _ ex_cfg_eq) as [H _].
  - vm_compute. lia.
  - constructor.
  - destruct (H 1) as (k & b & Hb & Hin & _); [vm_compute; split; [discriminate|reflexivity]|].
    exists k, b. split; [exact Hb|exact Hin].
Defined.

Lemma next_block_progress_witness :
  ∃ b, get_next_block_no ex_cfg_result.1.1.1 [1; 2] = Ok b ∧ b ∈ [1; 2].
Proof.
  destruct (next_block_progress ex_cfg_result.1.1.1 [1; 2] Z.to_nat) as (b & _ & Hb & Hin & _).
  - discriminate.
  - intros b Hb. rewrite !elem_of_cons, elem_of_nil in Hb.
    destruct Hb as [-> | [-> | []]]; vm_compute; split; try eauto; discriminate.
  - intros b blk p Hb Hblk Hp Hu. rewrite !elem_of_cons, elem_of_nil in Hb, Hu.
    destruct Hb as [-> | [-> | []]]; vm_compute in Hblk; injection Hblk as <-; simpl in Hp;
      rewrite ?elem_of_cons, ?elem_of_nil in Hp; destruct Hu as [-> | [-> | []]];
      repeat destruct Hp as [Hp | Hp]; try discriminate; try contradiction; vm_compute; lia.
  - exists b. split; [exact Hb|exact Hin].
Defined.
