(* ===== verification/Prune.v ===== *)
(** Reachability over the control-flow graph and the reach condition of every
    block ([verify/prune.py]). *)

From stdpp Require Import sorting.
From S2P Require Import Prelude Constants Smt Expr Encode Action Block.

(** ** Graph traversals

    The traversals are loops on an explicit stack, the top first. [fuel] bounds
    the pops; the bounds used are proved enough in [PruneSound]. *)

Definition successors (s : Block) : list Z :=
  match succ_t s with Some t => [t] | None => [] end ++
  match succ_f s with
  | Some f => if bool_decide (succ_f s = succ_t s) then [] else [f]
  | None => []
  end.

Definition out_of_fuel : err := RuntimeError "fuel".

Section worklist.
Context (skip : Z → bool) (next : gset Z → Z → res (list Z)).

Fixpoint worklist (fuel : nat) (seen : gset Z) (stack : list Z) : res (gset Z) :=
  match stack with
  | [] => Ok seen
  | b :: stack' =>
      match fuel with
      | O => Err out_of_fuel
      | S fuel' =>
          if bool_decide (b ∈ seen) || skip b then worklist fuel' seen stack'
          else
            let seen := {[b]} ∪ seen in
            l ← next seen b;
            worklist fuel' seen (rev l ++ stack')
      end
  end.
End worklist.

Definition in_range (blocks : list Block) (b : Z) : bool :=
  (0 <=? b) && (b <? Z.of_nat (length blocks)).

Definition forward_reachable (blocks : list Block) : res (gset Z) :=
  worklist (λ b, negb (in_range blocks b))
    (λ _ b, s ← py_index blocks b; Ok (successors s))
    (1 + sum_list (map (length ∘ successors) blocks)) ∅ [0].

Definition _slice_to (blocks : list Block) (live : gset Z) (target : Z) : res (gset Z) :=
  worklist (λ _, false)
    (λ bwd b, s ← py_index blocks b;
       Ok (filter (λ p, p ∈ live ∧ p ∉ bwd) (preds s)))
    (1 + sum_list (map (length ∘ preds) blocks)) ∅ [target].

(** One successor of the block being expanded. *)
Definition push_succ (live : gset Z) (color : gmap Z Z) (stack : list (Z * bool)) (u : Z)
    : res (list (Z * bool)) :=
  if negb (bool_decide (u ∈ live)) then Ok stack
  else if bool_decide (color !! u = Some 1) then
    Err (RuntimeError "prune: cycle detected at block")
  else if negb (bool_decide (color !! u = Some 2)) then Ok ((u, false) :: stack)
  else Ok stack.

Fixpoint topo_loop (fuel : nat) (blocks : list Block) (live : gset Z) (order : list Z)
    (color : gmap Z Z) (stack : list (Z * bool)) : res (list Z) :=
  match stack with
  | [] => Ok order
  | (b, done) :: stack' =>
      match fuel with
      | O => Err out_of_fuel
      | S fuel' =>
          if (done : bool) then topo_loop fuel' blocks live (order ++ [b]) (<[b := 2]> color) stack'
          else if bool_decide (is_Some (color !! b)) then
            topo_loop fuel' blocks live order color stack'
          else
            let color := <[b := 1]> color in
            s ← py_index blocks b;
            stack ← foldR (push_succ live color) ((b, true) :: stack') (successors s);
            topo_loop fuel' blocks live order color stack
      end
  end.

Definition topo_order (blocks : list Block) (live : gset Z) : res (list Z) :=
  order ← topo_loop (1 + 3 * length blocks) blocks live [] ∅ [(0, false)];
  let order := rev order in
  if bool_decide (length order = base.size live) then Ok order
  else Err (RuntimeError "prune: topological sort does not cover the live blocks").

(** One block of [order]: its predecessors already placed and their ancestors. *)
Definition ancestors_step (blocks : list Block) (anc : list (Z * gset Z)) (b : Z)
    : res (list (Z * gset Z)) :=
  blk ← py_index blocks b;
  let s := fold_left (λ s p, match pget anc p with
                             | Some a => {[p]} ∪ s ∪ a
                             | None => s
                             end) (preds blk) ∅ in
  Ok (pset anc b s).

Definition ancestors (blocks : list Block) (order : list Z) : res (list (Z * gset Z)) :=
  foldR (ancestors_step blocks) [] order.

Definition exit_blocks (blocks : list Block) : list Z :=
  omap (λ b, match kind b with KExit => Some (num b) | _ => None end) blocks.

(** ** Reach conditions *)

Section reach.
Context `{SMT}.

Record BlockInfo := mk_info {
  bi_num : Z;
  bi_reach : guard;
  bi_taken : guard;
  bi_fall : guard;
  bi_in_edges : list (Z * edge * guard);
  bi_imprecise : bool
}.

Definition info_map : Type := list (Z * BlockInfo).

Definition _lit (t : guard) : guard :=
  match t with
  | GPy _ => t
  | GTm t =>
      let r := simplify t in
      if is_true r then GPy true else if is_false r then GPy false else GTm r
  end.

Definition branch_name (n : Z) : string := "branch" +:+ pretty n +:+ "_taken".

Definition _branch_guards (b : Block) (st : Z3State) : res (guard * guard * bool) :=
  match cond b with
  | None => let c := GTm (Bool (branch_name (num b))) in Ok (c, _not c, true)
  | Some c => t ← cond_to_z3 st c; let g := _lit t in Ok (g, _not g, false)
  end.

(** The edges by which predecessor [p] enters [b]. *)
Definition edges_of (blocks : list Block) (info : info_map) (b p : Z)
    : res (list (Z * edge * guard)) :=
  match pget info p with
  | None => Ok []
  | Some pi =>
      if is_False (bi_reach pi) then Ok []
      else
        ps ← py_index blocks p;
        let entry (succ : option Z) (e : edge) (eg : guard) :=
          if bool_decide (succ = Some b) then
            let g := _and (bi_reach pi) eg in
            if is_False g then [] else [(p, e, g)]
          else [] in
        Ok (entry (succ_t ps) Taken (bi_taken pi) ++ entry (succ_f ps) Fall (bi_fall pi))
  end.

Definition analyze_block (blocks : list Block) (state_at : Z → Z3State) (info : info_map) (b : Z)
    : res info_map :=
  s ← py_index blocks b;
  '(reach, in_edges) ← (if b =? 0 then Ok (GPy true, [])
                        else
                          ls ← mapR (edges_of blocks info b)
                                 (merge_sort Z.le (remove_dups (preds s)));
                          let in_edges := mjoin ls in
                          Ok (_or_all (map snd in_edges), in_edges));
  '(taken, fall, imprecise) ← match kind s with
                              | KBranch => _branch_guards s (state_at b)
                              | _ => Ok (GPy true, GPy true, false)
                              end;
  Ok (pset info b (mk_info b reach taken fall in_edges imprecise)).

(** The blocks to keep: all live ones, or those that lead to the targets. *)
Definition live_blocks (blocks : list Block) (targets : option (list Z)) : res (gset Z) :=
  live ← forward_reachable blocks;
  match targets with
  | None => Ok live
  | Some ts =>
      foldR (λ keep t, if bool_decide (t ∈ live) then
                         sl ← _slice_to blocks live t; Ok (keep ∪ sl)
                       else Ok keep) {[0]} ts
  end.

Definition analyze (blocks : list Block) (state_at : Z → Z3State) (targets : option (list Z))
    (info : info_map) : res info_map :=
  live ← live_blocks blocks targets;
  order ← topo_order blocks live;
  foldR (analyze_block blocks state_at) info order.
End reach.
