(* ===== verification/Worklist.v ===== *)
(** The search several parts of the program make: objects are taken off a stack, one
    whose identity was met before is left out, and the parts of the others are put on
    the stack. Whatever the order, it visits each object the roots lead to once. *)

From stdpp Require Import relations.
From S2P Require Import Prelude Prune.

Section walk.
Context {N A : Type} (skip : N → bool) (key : N → Z) (kids : N → list N) (visit : A → N → A).

(** [while stack: x = stack.pop(); if skip(x) or key(x) in seen: continue;
    seen.add(key(x)); visit(x); stack.extend(kids(x))], the top of the stack first. *)
Fixpoint walk (fuel : nat) (acc : A) (seen : gset Z) (stack : list N) : res (A * gset Z) :=
  match stack with
  | [] => Ok (acc, seen)
  | x :: stack' =>
      match fuel with
      | O => Err out_of_fuel
      | S fuel' =>
          if skip x || bool_decide (key x ∈ seen) then walk fuel' acc seen stack'
          else walk fuel' (visit acc x) ({[key x]} ∪ seen) (rev (kids x) ++ stack')
      end
  end.

(** ** What it visits *)

Definition part_edge (a b : N) : Prop := skip a = false ∧ b ∈ kids a.
Definition leads_from (roots : list N) (n : N) : Prop := ∃ r, r ∈ roots ∧ rtc part_edge r n.

(** Objects of one identity have the same parts. *)
Definition one_object (roots : list N) : Prop := ∀ a b, leads_from roots a → leads_from roots b →
  skip a = false → skip b = false → key a = key b → kids a = kids b.

Definition covered (stack : list N) (seen : gset Z) (n : N) : Prop := skip n = true ∨ key n ∈ seen ∨ n ∈ stack.

Record explored (roots stack : list N) (seen : gset Z) : Prop := {
  ex_stack : ∀ n, n ∈ stack → leads_from roots n;
  ex_seen : ∀ k, k ∈ seen → ∃ n, leads_from roots n ∧ skip n = false ∧ key n = k;
  ex_roots : ∀ r, r ∈ roots → covered stack seen r;
  ex_closed : ∀ n c, leads_from roots n → skip n = false → key n ∈ seen → c ∈ kids n → covered stack seen c
}.

Lemma leads_kid roots n c : leads_from roots n → skip n = false → c ∈ kids n → leads_from roots c.
Proof. intros (r & Hr & Hn) Hs Hc. exists r. split; [done|]. eapply rtc_r; [done|by split]. Qed.

Lemma leads_more roots more n : leads_from roots n → leads_from (roots ++ more) n.
Proof. intros (r & ? & ?). exists r. split; [|done]. apply elem_of_app. by left. Qed.

(** What is closed under parts holds what is led to. *)
Lemma leads_closed (P : N → Prop) roots n : (∀ r, r ∈ roots → P r) →
  (∀ a b, P a → skip a = false → b ∈ kids a → P b) → leads_from roots n → P n.
Proof.
  intros Hr Hc (r & Hin & Hn). revert n Hn. apply (rtc_ind_r P); [by apply Hr|].
  intros a b _ [Hs Hb] Ha. by apply (Hc a).
Qed.

(** An exploration that is over can go on from further roots. *)
Lemma explored_more roots more seen : one_object (roots ++ more) →
  explored roots [] seen → explored (roots ++ more) (rev more) seen.
Proof.
  intros Hone [_ H2 H3 H4].
  assert (∀ n, covered [] seen n → covered (rev more) seen n) as Hcov
    by (intros n [? | [? | ?%elem_of_nil]]; [by left|by right; left|done]).
  split.
  - intros n Hn. rewrite elem_of_rev in Hn. exists n. split; [|apply rtc_refl]. apply elem_of_app. by right.
  - intros k Hk. destruct (H2 k Hk) as (n & ? & ? & ?). exists n. split; [by apply leads_more|done].
  - intros r [Hr | Hr]%elem_of_app; [by apply Hcov, H3|]. right. right. by apply elem_of_rev.
  - intros n c Hn Hs Hk Hc. destruct (H2 _ Hk) as (m & Hm & Hms & Hmk).
    apply Hcov, (H4 m); [done|done|by rewrite Hmk|].
    rewrite (Hone m n); [done|by apply leads_more|done..].
Qed.

Lemma explored_none : explored [] [] ∅.
Proof. split; [by intros ? ?%elem_of_nil|by intros ? ?%not_elem_of_empty|by intros ? ?%elem_of_nil|].
  by intros ? ? ? ? ?%not_elem_of_empty. Qed.

(** One turn. *)
Lemma explored_skip roots x stack seen : skip x = true ∨ key x ∈ seen →
  explored roots (x :: stack) seen → explored roots stack seen.
Proof.
  intros Hx [H1 H2 H3 H4].
  assert (∀ n, covered (x :: stack) seen n → covered stack seen n) as Hcov.
  { intros n [? | [? | [-> | ?]%elem_of_cons]]; unfold covered; tauto. }
  split; [intros n ?; apply H1; by right|done|eauto..].
Qed.

Lemma explored_visit roots x stack seen : one_object roots → skip x = false →
  explored roots (x :: stack) seen → explored roots (rev (kids x) ++ stack) ({[key x]} ∪ seen).
Proof.
  intros Hone Hx [H1 H2 H3 H4]. assert (leads_from roots x) as Hlx by (apply H1; left).
  assert (∀ n, covered (x :: stack) seen n → covered (rev (kids x) ++ stack) ({[key x]} ∪ seen) n) as Hcov.
  { intros n [? | [? | [-> | ?]%elem_of_cons]]; unfold covered; rewrite elem_of_app; [by left|set_solver..|auto]. }
  split.
  - intros n [Hn | Hn]%elem_of_app; [rewrite elem_of_rev in Hn; by eapply leads_kid|apply H1; by right].
  - intros k [->%elem_of_singleton | Hk]%elem_of_union; eauto.
  - intros r Hr. by apply Hcov, H3.
  - intros n c Hn Hs [Hk%elem_of_singleton | Hk]%elem_of_union Hc; [|by eapply Hcov, H4].
    right. right. apply elem_of_app. left. apply elem_of_rev. by rewrite <- (Hone n x).
Qed.

(** When the stack is empty, every object the roots lead to was met. *)
Lemma explored_all roots seen n : explored roots [] seen → leads_from roots n → skip n = false → key n ∈ seen.
Proof.
  intros [_ _ H3 H4] (r & Hr & Hn) Hs.
  assert (leads_from roots n ∧ covered [] seen n) as [_ [? | [? | ?%elem_of_nil]]]; [|congruence|done|done].
  clear Hs. revert n Hn. apply (rtc_ind_r (λ n, leads_from roots n ∧ covered [] seen n)).
  - split; [by exists r|by apply H3].
  - intros a b Ha [Hs Hb] [Hla IH]. split; [by eapply leads_kid|].
    destruct IH as [? | [? | ?%elem_of_nil]]; [congruence| |done]. by eapply H4.
Qed.

(** The objects visited, in order: each identity once, and only what the roots lead to. *)
Lemma walk_run fuel roots acc seen stack acc' seen' : one_object roots →
  walk fuel acc seen stack = Ok (acc', seen') → explored roots stack seen →
  explored roots [] seen' ∧ ∃ vs, acc' = fold_left visit vs acc ∧ NoDup (map key vs) ∧
    seen' = list_to_set (map key vs) ∪ seen ∧ ∀ v, v ∈ vs → leads_from roots v ∧ skip v = false ∧ key v ∉ seen.
Proof.
  intros Hone. revert acc seen stack. induction fuel as [|fuel IH]; intros acc seen [|x stack] HE Hex; simpl in HE; try done.
  1,2: injection HE as <- <-; split; [done|]; exists []; split_and!; [done|constructor|set_solver|by intros ? ?%elem_of_nil].
  destruct (skip x || bool_decide (key x ∈ seen)) eqn:E.
  - apply (IH _ _ _ HE). apply (explored_skip _ x); [|done]. apply orb_true_iff in E as [? | ?%bool_decide_eq_true]; auto.
  - apply orb_false_iff in E as [Hs Hk%bool_decide_eq_false].
    destruct (IH _ _ _ HE) as (Hend & vs & -> & Hnd & -> & Hvs); [by apply explored_visit|].
    split; [done|]. exists (x :: vs). split; [done|]. split.
    { simpl. constructor; [|done]. intros (v & Hv & Hin)%list_elem_of_fmap. destruct (Hvs v Hin) as (_ & _ & Hn).
      rewrite <- Hv in Hn. set_solver. }
    split; [simpl; set_solver|]. intros v [-> | Hv]%elem_of_cons.
    + split_and!; [|done|done]. by apply (ex_stack _ _ _ Hex); left.
    + destruct (Hvs v Hv) as (? & ? & ?). split_and!; [done|done|set_solver].
Qed.

(** ** That it ends *)

Lemma sum_app_rev (f : N → nat) l k : list_sum (map f (rev l ++ k)) = (list_sum (map f l) + list_sum (map f k))%nat.
Proof. rewrite map_app, list_sum_app, map_rev. f_equal. induction (map f l) as [|x m IH]; [done|]. simpl. rewrite list_sum_app. simpl. lia. Qed.

(** Parts are smaller than their whole. *)
Lemma walk_sized (sz : N → nat) fuel acc seen stack :
  (∀ n, (list_sum (map sz (kids n)) < sz n)%nat) → (list_sum (map sz stack) <= fuel)%nat →
  ∃ r, walk fuel acc seen stack = Ok r.
Proof.
  intros Hsz. revert acc seen stack. induction fuel as [|fuel IH]; intros acc seen [|x stack] Hf; simpl in *; eauto.
  - pose proof (Hsz x). lia.
  - pose proof (Hsz x). destruct (_ || _); apply IH; [lia|]. rewrite sum_app_rev. lia.
Qed.

(** Or the objects are listed. *)
Definition parts_left (all : list N) (seen : gset Z) : nat :=
  list_sum (map (λ n, if bool_decide (key n ∈ seen) then O else length (kids n)) all).

Lemma parts_left_visit all x seen : x ∈ all → key x ∉ seen →
  (length (kids x) + parts_left all ({[key x]} ∪ seen) <= parts_left all seen)%nat.
Proof.
  intros Hx Hk. unfold parts_left.
  assert (∀ l, (list_sum (map (λ n, if bool_decide (key n ∈ ({[key x]} ∪ seen : gset Z)) then O else length (kids n)) l) <=
    list_sum (map (λ n, if bool_decide (key n ∈ seen) then O else length (kids n)) l))%nat) as Hle.
  { induction l as [|n l IH]; [done|]. simpl. repeat case_bool_decide; set_solver || lia. }
  induction all as [|n l IH]; [by apply elem_of_nil in Hx|]. simpl. specialize (Hle l).
  apply elem_of_cons in Hx as [<- | Hx].
  - rewrite (bool_decide_eq_true_2 (key x ∈ {[key x]} ∪ seen)), (bool_decide_eq_false_2 (key x ∈ seen)) by set_solver. lia.
  - specialize (IH Hx). clear Hle. repeat case_bool_decide; set_solver || lia.
Qed.

Lemma walk_listed all fuel roots acc seen stack : one_object roots → explored roots stack seen →
  (∀ n, leads_from roots n → skip n = false → n ∈ all) → (length stack + parts_left all seen <= fuel)%nat →
  ∃ r, walk fuel acc seen stack = Ok r.
Proof.
  intros Hone Hex Hall. revert acc seen stack Hex. induction fuel as [|fuel IH]; intros acc seen [|x stack] Hex Hf; simpl in *; eauto; [lia|].
  destruct (skip x || bool_decide (key x ∈ seen)) eqn:E.
  - apply IH; [|lia]. apply (explored_skip _ x); [|done]. apply orb_true_iff in E as [? | ?%bool_decide_eq_true]; auto.
  - apply orb_false_iff in E as [Hs Hk%bool_decide_eq_false]. apply IH; [by apply explored_visit|].
    pose proof (parts_left_visit all x seen (Hall x ltac:(by apply (ex_stack _ _ _ Hex); left) Hs) Hk).
    rewrite length_app, length_rev. lia.
Qed.
End walk.
