(* ===== verification/PruneSound.v ===== *)
(** The traversals compute what they stand for, on every graph, within their
    fuel; the reach condition of a block is that of the paths that lead to it. *)

From stdpp Require Import sorting.
From S2P Require Import Prelude Constants Smt SmtTerm Expr Encode Action Block Prune.

Lemma py_index_at {A} (l : list A) i x : 0 <= i → l !! Z.to_nat i = Some x → py_index l i = Ok x.
Proof. intros. by apply py_index_Ok. Qed.

Lemma filter_length_mono {A} (P Q : A → Prop) `{!∀ x, Decision (P x), !∀ x, Decision (Q x)} l :
  (∀ x, P x → Q x) → (length (filter P l) <= length (filter Q l))%nat.
Proof.
  intros HPQ. induction l as [|x l IH]; [done|]. rewrite !filter_cons.
  destruct (decide (P x)), (decide (Q x)); simpl; try lia. naive_solver.
Qed.

(** ** Worklists *)

Section pending.
Context (E : Z → list Z).

(** The edges of the nodes of [l] not yet seen. *)
Definition pending (seen : gset Z) (l : list Z) : nat :=
  sum_list (map (λ b, if decide (b ∈ seen) then O else length (E b)) l).

Lemma pending_out (seen : gset Z) b l : b ∉ l → pending ({[b]} ∪ seen) l = pending seen l.
Proof.
  unfold pending. induction l as [|x l IH]; intros Hb; [done|]. simpl.
  apply not_elem_of_cons in Hb as [Hx Hb]. rewrite IH by done. f_equal.
  destruct (decide (x ∈ seen)), (decide (x ∈ {[b]} ∪ seen)); set_solver.
Qed.

Lemma pending_remove (seen : gset Z) b l : NoDup l → b ∈ l → b ∉ seen →
  pending seen l = (length (E b) + pending ({[b]} ∪ seen) l)%nat.
Proof.
  induction l as [|x l IH]; intros Hnd Hb Hs; [by apply not_elem_of_nil in Hb|].
  apply NoDup_cons in Hnd as [Hx Hnd]. unfold pending in *. simpl.
  destruct (decide (x = b)) as [-> | Hne].
  - rewrite decide_False by done. rewrite decide_True by set_solver. simpl.
    f_equal. symmetry. by apply pending_out.
  - assert (b ∈ l) as Hbl by (apply elem_of_cons in Hb as [? | ?]; [congruence|done]).
    rewrite (IH Hnd Hbl Hs).
    destruct (decide (x ∈ seen)), (decide (x ∈ {[b]} ∪ seen)); try lia; set_solver.
Qed.
End pending.

Section worklist.
Context (skip : Z → bool) (next : gset Z → Z → res (list Z)).
(** The edges followed, the nodes the search starts from, and a finite list of
    all nodes that can be met. *)
Context (E : Z → list Z) (init : list Z) (U : list Z).

Inductive reached : Z → Prop :=
| reached_init b : b ∈ init → skip b = false → reached b
| reached_step b x : reached b → x ∈ E b → skip x = false → reached x.

Hypothesis HU : NoDup U.
Hypothesis in_U : ∀ b, reached b → b ∈ U.
Hypothesis Hnext : ∀ seen b, reached b → ∃ l, next seen b = Ok l ∧
  (∀ x, x ∈ l → x ∈ E b) ∧ (∀ x, x ∈ E b → x ∈ l ∨ x ∈ seen) ∧ (length l <= length (E b))%nat.

(** [seen] and [stack] during a run: everything met is reached, and whatever a
    node already seen leads to has been seen or waits on the stack. *)
Definition wl_inv (seen : gset Z) (stack : list Z) : Prop :=
  (∀ b, b ∈ seen → reached b) ∧ (∀ b, b ∈ stack → skip b = false → reached b) ∧
  (∀ b, b ∈ init → b ∈ stack ∨ b ∈ seen ∨ skip b = true) ∧
  (∀ b x, b ∈ seen → x ∈ E b → x ∈ stack ∨ x ∈ seen ∨ skip x = true).

Lemma worklist_run fuel seen stack :
  wl_inv seen stack → (length stack + pending E seen U <= fuel)%nat →
  ∃ out, worklist skip next fuel seen stack = Ok out ∧ wl_inv out [].
Proof using HU in_U Hnext.
  revert seen stack. induction fuel as [|fuel IH]; intros seen [|b stack] Hinv Hf; simpl in Hf |- *;
    try lia; try (by exists seen).
  destruct Hinv as (Hs & Hst & Hi & He).
  destruct (bool_decide (b ∈ seen) || skip b) eqn:Eb.
  - apply IH; [|lia]. apply orb_true_iff in Eb. rewrite bool_decide_eq_true in Eb.
    split_and!; [done|set_solver| |].
    + intros x Hx. specialize (Hi x Hx). rewrite elem_of_cons in Hi. naive_solver.
    + intros y x Hy Hx. specialize (He y x Hy Hx). rewrite elem_of_cons in He. naive_solver.
  - bool_prop. destruct (Hnext ({[b]} ∪ seen) b) as (l & -> & Hl1 & Hl2 & Hl3);
      [apply Hst; [left|done]|]. simpl.
    assert (reached b) as Hrb by (apply Hst; [left|done]). apply IH.
    + split_and!.
      * intros x [->%elem_of_singleton | Hx]%elem_of_union; [done|by apply Hs].
      * intros x Hx Hsk. rewrite elem_of_app, elem_of_rev in Hx.
        destruct Hx as [Hx | Hx]; [|apply Hst; [by right|done]].
        eapply reached_step; [exact Hrb|by apply Hl1|done].
      * intros x Hx. rewrite elem_of_app, elem_of_union, elem_of_singleton.
        specialize (Hi x Hx). rewrite elem_of_cons in Hi. naive_solver.
      * intros y x Hy Hx. rewrite elem_of_app, elem_of_rev, elem_of_union, elem_of_singleton.
        apply elem_of_union in Hy as [->%elem_of_singleton | Hy].
        -- destruct (Hl2 x Hx) as [? | [?%elem_of_singleton | ?]%elem_of_union]; auto.
        -- specialize (He y x Hy Hx). rewrite elem_of_cons in He. naive_solver.
    + rewrite length_app, length_rev.
      rewrite (pending_remove E seen b U) in Hf by auto. lia.
Qed.

(** The search returns exactly the nodes reached. *)
Lemma worklist_reached fuel stack : (∀ b, b ∈ stack ↔ b ∈ init) →
  (length stack + sum_list (map (length ∘ E) U) <= fuel)%nat →
  ∃ out, worklist skip next fuel ∅ stack = Ok out ∧ ∀ b, b ∈ out ↔ reached b.
Proof using HU in_U Hnext.
  intros Hst Hf. destruct (worklist_run fuel ∅ stack) as (out & Hout & H1 & _ & H3 & H4).
  - split_and!; [set_solver| |intros b Hb; left; by apply Hst|set_solver].
    intros b Hb Hs. apply reached_init; [by apply Hst|done].
  - unfold pending. etrans; [|exact Hf]. apply Nat.add_le_mono_l, Nat.eq_le_incl. f_equal.
  - exists out. split; [done|]. intros b. split; [apply H1|].
    induction 1 as [b Hb Hs | b x Hb IH Hx Hs].
    + destruct (H3 b Hb) as [?%not_elem_of_nil | [? | ?]]; [done|done|congruence].
    + destruct (H4 b x IH Hx) as [?%not_elem_of_nil | [? | ?]]; [done|done|congruence].
Qed.
End worklist.

(** ** Reachable blocks *)

(** [a] has an edge to [b]. *)
Definition edge_to (blocks : list Block) (a b : Z) : Prop :=
  0 <= a ∧ ∃ s, blocks !! Z.to_nat a = Some s ∧ b ∈ successors s.

Lemma elem_successors s b : b ∈ successors s ↔ succ_t s = Some b ∨ succ_f s = Some b.
Proof.
  unfold successors. destruct (succ_t s) as [t|] eqn:Et, (succ_f s) as [f|] eqn:Ef; simpl;
    try case_bool_decide; rewrite ?elem_of_app, ?elem_of_cons, ?elem_of_nil; naive_solver.
Qed.

Definition succs_of (blocks : list Block) (b : Z) : list Z :=
  match py_index blocks b with Ok s => successors s | Err _ => [] end.

Lemma in_range_lookup blocks b : in_range blocks b = true ↔
  0 <= b ∧ is_Some (blocks !! Z.to_nat b).
Proof.
  unfold in_range. rewrite andb_true_iff, lookup_lt_is_Some. lia.
Qed.

Lemma zrange_elem a b x : x ∈ zrange a b ↔ a <= x < b.
Proof. unfold zrange. rewrite elem_of_seqZ. lia. Qed.

(** Summing over the blocks by number is summing over the blocks. *)
Lemma sum_blocks blocks (f : Block → nat) (g : Z → nat) :
  (∀ k b, blocks !! k = Some b → g (Z.of_nat k) = f b) →
  sum_list (map g (zrange 0 (Z.of_nat (length blocks)))) = sum_list (map f blocks).
Proof.
  intros H. f_equal. apply list_eq. intros k.
  change (map g ?l) with (g <$> l). change (map f blocks) with (f <$> blocks).
  rewrite !list_lookup_fmap. unfold zrange.
  destruct (blocks !! k) as [b|] eqn:Eb.
  - pose proof (lookup_lt_Some _ _ _ Eb). rewrite lookup_seqZ_lt by lia. simpl.
    by rewrite <- (H k b Eb).
  - apply lookup_ge_None in Eb. rewrite lookup_seqZ_ge by lia. done.
Qed.

Lemma edge_to_range blocks a b : edge_to blocks a b → in_range blocks a = true.
Proof. intros (? & s & Hs & _). apply in_range_lookup. split; [done|by exists s]. Qed.

Lemma succs_of_lookup blocks k b : blocks !! k = Some b → succs_of blocks (Z.of_nat k) = successors b.
Proof.
  intros Hb. unfold succs_of. rewrite (py_index_at _ _ b); [done|lia|by rewrite Nat2Z.id].
Qed.

Lemma in_succs_of blocks a b : 0 <= a → b ∈ succs_of blocks a → edge_to blocks a b.
Proof.
  unfold succs_of. intros Ha. destruct (py_index blocks a) as [s|] eqn:E;
    [|by intros ?%not_elem_of_nil]. apply py_index_Ok in E; [|done]. intros Hb.
  split; [done|by exists s].
Qed.

Lemma forward_reachable_run blocks : ∃ live, forward_reachable blocks = Ok live ∧
  ∀ b, b ∈ live ↔ in_range blocks b = true ∧ rtc (edge_to blocks) 0 b.
Proof.
  assert (∀ b, reached (λ b, negb (in_range blocks b)) (succs_of blocks) [0] b ↔
    in_range blocks b = true ∧ rtc (edge_to blocks) 0 b) as Hr.
  { intros b. split.
    - induction 1 as [b ->%list_elem_of_singleton Hs | b x Hb [H1 H2] Hx Hs]; bool_prop;
        (split; [done|]); [done|]. eapply rtc_r; [exact H2|].
      apply in_range_lookup in H1 as [? _]. by apply in_succs_of.
    - intros [Hb Hp]. revert b Hp Hb. refine (rtc_ind_r (λ b, in_range blocks b = true →
        reached (λ b, negb (in_range blocks b)) (succs_of blocks) [0] b) 0 _ _).
      + intros Hy. apply reached_init; [left|by rewrite Hy].
      + intros x y Hp Hxy IH Hy. pose proof (edge_to_range _ _ _ Hxy) as Hx. destruct Hxy as (H0 & s & Hs & Hin).
        eapply reached_step; [by apply IH| |by rewrite Hy].
        rewrite <- (Z2Nat.id x) by done. by rewrite (succs_of_lookup _ _ s). }
  destruct (worklist_reached (λ b, negb (in_range blocks b))
    (λ _ b, s ← py_index blocks b; Ok (successors s)) (succs_of blocks) [0]
    (zrange 0 (Z.of_nat (length blocks)))) with (stack := [0])
    (fuel := (1 + sum_list (map (length ∘ successors) blocks))%nat) as (live & Hl & Hspec).
  - apply NoDup_seqZ.
  - intros b [Hb _]%Hr. apply zrange_elem. unfold in_range in Hb. lia.
  - intros seen b [[H0 [s Hs]]%in_range_lookup _]%Hr. exists (successors s).
    rewrite (py_index_at _ _ s) by done.
    assert (succs_of blocks b = successors s) as ->
      by (rewrite <- (Z2Nat.id b) by done; by apply succs_of_lookup). split_and!; auto.
  - done.
  - simpl. apply le_n_S, Nat.eq_le_incl. apply sum_blocks. intros k b Hb. simpl.
    by rewrite (succs_of_lookup _ _ b).
  - exists live. split; [exact Hl|]. intros b. by rewrite Hspec, Hr.
Qed.

(** [forward_reachable] terminates and returns exactly the blocks that a path
    from the entry block leads to. *)
Theorem forward_reachable_spec blocks : ∃ live, forward_reachable blocks = Ok live ∧
  ∀ b, b ∈ live ↔ in_range blocks b = true ∧ rtc (edge_to blocks) 0 b.
Proof. exact (forward_reachable_run blocks). Qed.

(** [_slice_to] terminates and returns exactly the blocks from which a path
    through live blocks leads to the target. *)
Theorem slice_to_spec blocks live target :
  (∀ b, b ∈ live → in_range blocks b = true) → in_range blocks target = true →
  ∃ sl, _slice_to blocks live target = Ok sl ∧
    ∀ b, b ∈ sl ↔ rtc (λ x p, p ∈ live ∧ ∃ s, blocks !! Z.to_nat x = Some s ∧ p ∈ preds s) target b.
Proof.
  intros Hlive Ht.
  set (E b := match py_index blocks b with Ok s => filter (λ p, p ∈ live) (preds s)
              | Err _ => [] end).
  assert (∀ b s, in_range blocks b = true → blocks !! Z.to_nat b = Some s →
    E b = filter (λ p, p ∈ live) (preds s)) as HE.
  { intros b s [H0 _]%in_range_lookup Hs. unfold E. by rewrite (py_index_at _ _ s). }
  assert (∀ b, reached (λ _, false) E [target] b → in_range blocks b = true) as Hrange.
  { induction 1 as [b ->%list_elem_of_singleton _ | b x Hb Hr Hx _]; [done|].
    pose proof Hr as [_ [s Hs]]%in_range_lookup. rewrite (HE b s Hr Hs) in Hx.
    apply list_elem_of_filter in Hx as [Hx _]. by apply Hlive. }
  assert (∀ b, reached (λ _, false) E [target] b ↔
    rtc (λ x p, p ∈ live ∧ ∃ s, blocks !! Z.to_nat x = Some s ∧ p ∈ preds s) target b) as Hr.
  { intros b. split.
    - induction 1 as [b ->%list_elem_of_singleton _ | b x Hb IH Hx _]; [done|].
      eapply rtc_r; [exact IH|]. pose proof (Hrange b Hb) as Hb'.
      pose proof Hb' as [_ [s Hs]]%in_range_lookup. rewrite (HE b s Hb' Hs) in Hx.
      apply list_elem_of_filter in Hx as [? ?]. eauto.
    - revert b. refine (rtc_ind_r (reached (λ _, false) E [target]) target _ _).
      + by apply reached_init; [left|].
      + intros x y Hp Hxy IH. destruct Hxy as [Hy (s & Hs & Hps)]. eapply reached_step; [exact IH| |done].
        rewrite (HE x s (Hrange x IH) Hs). by apply list_elem_of_filter. }
  destruct (worklist_reached (λ _, false)
    (λ bwd b, s ← py_index blocks b; Ok (filter (λ p, p ∈ live ∧ p ∉ bwd) (preds s)))
    E [target] (zrange 0 (Z.of_nat (length blocks)))) with (stack := [target])
    (fuel := (1 + sum_list (map (length ∘ preds) blocks))%nat) as (sl & Hl & Hspec).
  - apply NoDup_seqZ.
  - intros b Hb%Hrange. apply zrange_elem. unfold in_range in Hb. lia.
  - intros seen b Hb%Hrange. pose proof Hb as [H0 [s Hs]]%in_range_lookup.
    exists (filter (λ p, p ∈ live ∧ p ∉ seen) (preds s)). rewrite (HE b s Hb Hs).
    rewrite (py_index_at _ _ s) by done. split_and!; [done| | |].
    + intros x. rewrite !list_elem_of_filter. tauto.
    + intros x. rewrite !list_elem_of_filter. destruct (decide (x ∈ seen)); tauto.
    + apply filter_length_mono. tauto.
  - done.
  - simpl. apply le_n_S. rewrite <- (sum_blocks blocks (length ∘ preds)
      (λ b, match py_index blocks b with Ok s => length (preds s) | Err _ => O end)).
    + induction (zrange 0 _) as [|b l IH]; simpl; [done|]. apply Nat.add_le_mono; [|done].
      unfold E. destruct (py_index blocks b); [apply length_filter|done].
    + intros k b Hb. rewrite (py_index_at _ _ b); [done|lia|by rewrite Nat2Z.id].
  - exists sl. split; [exact Hl|]. intros b. by rewrite Hspec, Hr.
Qed.
