(* ===== verification/TopoSound.v ===== *)
(** [topo_order] of [verify/prune.py]: the depth-first search with an explicit
    stack orders a graph topologically or finds a cycle. *)

From S2P Require Import Prelude Expr Block Prune PruneSound.

Section topo.
Context (blocks : list Block) (live : gset Z).
Hypothesis live_range : ∀ b, b ∈ live → in_range blocks b = true.

(** An edge between live blocks. *)
Definition live_edge (a b : Z) : Prop := edge_to blocks a b ∧ b ∈ live.

(** [A] lies above the marker [(g, true)] of an expanded node. *)
Definition above (stack A : list (Z * bool)) (g : Z) : Prop :=
  ∃ B, stack = A ++ (g, true) :: B.

(** A run of the loop: black nodes are those in [order] and have their live
    successors before them; gray nodes have a marker on the stack, under which no
    entry of theirs lies above, whose unfinished successors wait above it, and
    everything above it is a descendant. *)
Record run (order : list Z) (color : gmap Z Z) (stack : list (Z * bool)) : Prop := {
  run_black b : color !! b = Some 2 ↔ b ∈ order;
  run_gray b : color !! b = Some 1 ↔ (b, true) ∈ stack;
  run_colors b c : color !! b = Some c → c = 1 ∨ c = 2;
  run_nodup : NoDup order;
  run_live b : b ∈ order ∨ (∃ d, (b, d) ∈ stack) → b ∈ live;
  run_once A g d : above stack A g → (g, d) ∉ A;
  run_wait A g u : above stack A g → live_edge g u → u ∈ order ∨ ∃ d, (u, d) ∈ A;
  run_desc A g x d : above stack A g → (x, d) ∈ A → tc live_edge g x;
  run_order O1 O2 b u : order = O1 ++ b :: O2 → live_edge b u → u ∈ O1;
  run_root : 0 ∈ order ∨ ∃ d, (0, d) ∈ stack
}.

Lemma above_cons b d stack A g : above stack A g → above ((b, d) :: stack) ((b, d) :: A) g.
Proof. intros [B ->]. by exists B. Qed.

Lemma above_top b stack : above ((b, true) :: stack) [] b.
Proof. by exists stack. Qed.

Lemma above_uncons b d stack A g : above ((b, d) :: stack) A g →
  (A = [] ∧ g = b ∧ d = true) ∨ ∃ A', A = (b, d) :: A' ∧ above stack A' g.
Proof.
  intros [B HB]. destruct A as [|[x e] A]; simplify_eq/=; [by left|right].
  exists A. split; [done|by exists B].
Qed.

Lemma above_app pushed stack A g : (∀ x, x ∈ pushed → x.2 = false) → above (pushed ++ stack) A g →
  ∃ A', A = pushed ++ A' ∧ above stack A' g.
Proof.
  revert A. induction pushed as [|[x e] pushed IH]; intros A Hf HA; [by exists A|].
  apply above_uncons in HA as [(-> & -> & ->) | (A' & -> & HA)].
  - specialize (Hf (x, true) ltac:(left)). done.
  - destruct (IH A') as (A2 & -> & ?); [intros; apply Hf; by right|done|]. by exists A2.
Qed.

Lemma in_above stack g : (g, true) ∈ stack → ∃ A, above stack A g.
Proof. intros (A & B & ->)%list_elem_of_split. exists A, B. done. Qed.

(** ** The steps *)

Lemma finish_step order color b stack : run order color ((b, true) :: stack) →
  run (order ++ [b]) (<[b := 2]> color) stack.
Proof.
  intros [Hb Hg Hc Hnd Hl Ho Hw Hd Hor Hr].
  assert (color !! b = Some 1) as Hb1 by (apply Hg; left).
  assert (b ∉ order) as Hbo by (rewrite <- Hb; congruence).
  assert ((b, true) ∉ stack) as Hbs.
  { intros [A HA]%in_above. apply (Ho ((b, true) :: A) b true); [by apply above_cons|left]. }
  split.
  - intros x. rewrite elem_of_app, list_elem_of_singleton, lookup_insert.
    destruct (decide (b = x)) as [-> | ?]; [tauto|]. rewrite Hb. naive_solver.
  - intros x. rewrite lookup_insert. destruct (decide (b = x)) as [-> | ?]; [naive_solver|].
    rewrite Hg, elem_of_cons. naive_solver.
  - intros x c. rewrite lookup_insert. destruct (decide (b = x)); [naive_solver|apply Hc].
  - apply NoDup_app. split_and!; [done| |apply NoDup_singleton].
    intros x Hx ->%list_elem_of_singleton. done.
  - intros x [[? | ->%list_elem_of_singleton]%elem_of_app | [d ?]]; apply Hl;
      [by left|right; exists true; left|right; exists d; by right].
  - intros A g d HA Hin. eapply (Ho ((b, true) :: A) g d); [by apply above_cons|by right].
  - intros A g u HA He. rewrite elem_of_app, list_elem_of_singleton.
    destruct (Hw _ _ u (above_cons b true _ _ _ HA) He) as [? | [d Hin]]; [auto|].
    apply elem_of_cons in Hin as [[= -> _] | ?]; eauto.
  - intros A g x d HA Hin. eapply (Hd ((b, true) :: A)); [by apply above_cons|by right].
  - intros O1 O2 x u HO He. destruct O2 as [|y O2 _] using rev_ind.
    + apply app_inj_tail in HO as [<- <-].
      destruct (Hw [] b u (above_top _ _) He) as [? | [d ?%not_elem_of_nil]]; done.
    + rewrite app_comm_cons, app_assoc in HO. apply app_inj_tail in HO as [-> _]. by eapply Hor.
  - rewrite elem_of_app, list_elem_of_singleton. destruct Hr as [? | [d Hin]]; [auto|].
    apply elem_of_cons in Hin as [[= -> _] | ?]; eauto.
Qed.

Lemma white_or_black order color b stack : run order color ((b, false) :: stack) →
  color !! b = None ∨ b ∈ order.
Proof.
  intros HR. destruct (color !! b) as [c|] eqn:Ec; [right|by left].
  destruct (run_colors _ _ _ HR _ _ Ec) as [-> | ->].
  - apply (run_gray _ _ _ HR) in Ec. apply elem_of_cons in Ec as [Ec | [A HA]%in_above]; [done|].
    destruct (run_once _ _ _ HR ((b, false) :: A) b false); [by apply above_cons|left].
  - by apply (run_black _ _ _ HR).
Qed.

Lemma skip_step order color b stack : run order color ((b, false) :: stack) → b ∈ order →
  run order color stack.
Proof.
  intros [Hb Hg Hc Hnd Hl Ho Hw Hd Hor Hr] Hbo. split; try done.
  - intros x. rewrite Hg, elem_of_cons. naive_solver.
  - intros x [? | [d ?]]; apply Hl; [by left|right; exists d; by right].
  - intros A g d HA Hin. eapply (Ho ((b, false) :: A) g d); [by apply above_cons|by right].
  - intros A g u HA He. destruct (Hw _ _ u (above_cons b false _ _ _ HA) He) as [? | [d Hin]];
      [auto|]. apply elem_of_cons in Hin as [[= -> _] | ?]; eauto.
  - intros A g x d HA Hin. eapply (Hd ((b, false) :: A)); [by apply above_cons|by right].
  - destruct Hr as [? | [d Hin]]; [auto|]. apply elem_of_cons in Hin as [[= -> _] | ?]; eauto.
Qed.

Lemma push_one color st u :
  (u ∉ live ∧ push_succ live color st u = Ok st) ∨
  (u ∈ live ∧ color !! u = Some 1 ∧
     push_succ live color st u = Err (RuntimeError "prune: cycle detected at block")) ∨
  (u ∈ live ∧ color !! u = Some 2 ∧ push_succ live color st u = Ok st) ∨
  (u ∈ live ∧ color !! u ≠ Some 1 ∧ push_succ live color st u = Ok ((u, false) :: st)).
Proof.
  unfold push_succ. destruct (bool_decide (u ∈ live)) eqn:El; bool_prop; cbn [negb]; [|auto].
  destruct (bool_decide (color !! u = Some 1)) eqn:E1; bool_prop; [auto|].
  destruct (bool_decide (color !! u = Some 2)) eqn:E2; bool_prop; cbn [negb]; auto 10.
Qed.

(** What expanding [b] pushes: its live successors that are not finished. *)
Lemma push_all color st0 us :
  (∃ pushed, foldR (push_succ live color) st0 us = Ok (pushed ++ st0) ∧
     (length pushed <= length us)%nat ∧
     (∀ x, x ∈ pushed → x.2 = false ∧ x.1 ∈ us ∧ x.1 ∈ live ∧ color !! x.1 ≠ Some 1) ∧
     ∀ u, u ∈ us → u ∈ live → color !! u = Some 2 ∨ (u, false) ∈ pushed) ∨
  ∃ u, u ∈ us ∧ u ∈ live ∧ color !! u = Some 1 ∧
    foldR (push_succ live color) st0 us = Err (RuntimeError "prune: cycle detected at block").
Proof.
  revert st0. induction us as [|u us IH]; intros st0.
  { left. exists []. split_and!; [done|done|by intros ? ?%not_elem_of_nil|by intros ? ?%not_elem_of_nil]. }
  cbn [foldR]. destruct (push_one color st0 u)
    as [(Hl & ->) | [(Hl & Hg & ->) | [(Hl & Hb & ->) | (Hl & Hg & ->)]]]; simpl.
  - destruct (IH st0) as [(p & -> & Hlen & H1 & H2) | (v & ? & ? & ? & ->)].
    + left. exists p. split_and!; [done|simpl; lia| |].
      * intros x Hx. destruct (H1 x Hx) as (? & ? & ? & ?). split_and!; try done. by right.
      * intros v [-> | Hv]%elem_of_cons Hvl; [done|by apply H2].
    + right. exists v. split_and!; try done. by right.
  - right. exists u. split_and!; try done. by left.
  - destruct (IH st0) as [(p & -> & Hlen & H1 & H2) | (v & ? & ? & ? & ->)].
    + left. exists p. split_and!; [done|simpl; lia| |].
      * intros x Hx. destruct (H1 x Hx) as (? & ? & ? & ?). split_and!; try done. by right.
      * intros v [-> | Hv]%elem_of_cons Hvl; [by left|by apply H2].
    + right. exists v. split_and!; try done. by right.
  - destruct (IH ((u, false) :: st0)) as [(p & -> & Hlen & H1 & H2) | (v & ? & ? & ? & ->)].
    + left. exists (p ++ [(u, false)]). split_and!.
      * by rewrite <- app_assoc.
      * rewrite length_app. simpl. lia.
      * intros x [Hx | ->%list_elem_of_singleton]%elem_of_app.
        -- destruct (H1 x Hx) as (? & ? & ? & ?). split_and!; try done. by right.
        -- split_and!; try done. by left.
      * intros v Hv Hvl. rewrite elem_of_app, list_elem_of_singleton.
        apply elem_of_cons in Hv as [-> | Hv]; [by right; right|]. destruct (H2 v Hv Hvl); auto.
    + right. exists v. split_and!; try done. by right.
Qed.

Lemma expand_step order color b s stack pushed :
  run order color ((b, false) :: stack) → color !! b = None →
  0 <= b → blocks !! Z.to_nat b = Some s →
  (∀ x, x ∈ pushed → x.2 = false ∧ x.1 ∈ successors s ∧ x.1 ∈ live ∧ <[b := 1]> color !! x.1 ≠ Some 1) →
  (∀ u, u ∈ successors s → u ∈ live → <[b := 1]> color !! u = Some 2 ∨ (u, false) ∈ pushed) →
  run order (<[b := 1]> color) (pushed ++ (b, true) :: stack).
Proof.
  intros [Hb Hg Hc Hnd Hl Ho Hw Hd Hor Hr] Hwhite H0 Hs Hp1 Hp2.
  assert (∀ A g, above (pushed ++ (b, true) :: stack) A g →
    (A = pushed ∧ g = b) ∨ ∃ A', A = pushed ++ (b, true) :: A' ∧ above stack A' g) as Hcase.
  { intros A g HA. apply above_app in HA as (A2 & -> & HA); [|by intros x [? _]%Hp1].
    apply above_uncons in HA as [(-> & -> & _) | (A' & -> & HA)]; [left|right; eauto].
    by rewrite app_nil_r. }
  assert (∀ x, x ∈ order → x ≠ b) as Hob by (intros x Hx%Hb ->; congruence).
  assert (∀ u, live_edge b u ↔ u ∈ successors s ∧ u ∈ live) as Hsucc.
  { intros u. unfold live_edge, edge_to. naive_solver. }
  split; try done.
  - intros x. rewrite lookup_insert. destruct (decide (b = x)) as [-> | ?]; [|apply Hb].
    split; [done|]. intros Hx. by destruct (Hob x Hx).
  - intros x. rewrite lookup_insert, elem_of_app, elem_of_cons.
    destruct (decide (b = x)) as [-> | ?]; [naive_solver|]. rewrite Hg, elem_of_cons.
    split; [naive_solver|]. intros [Hx | Hx]; [|naive_solver].
    by destruct (Hp1 (x, true) Hx).
  - intros x c. rewrite lookup_insert. destruct (decide (b = x)); [naive_solver|apply Hc].
  - intros x [? | [d [Hx | Hx]%elem_of_app]]; [apply Hl; by left|by apply (Hp1 (x, d))|].
    apply Hl. right. apply elem_of_cons in Hx as [[= -> ->] | Hx]; [exists false; left|].
    exists d. by right.
  - intros A g d HA Hin. apply Hcase in HA as [[-> ->] | (A' & -> & HA)].
    + destruct (Hp1 _ Hin) as (_ & _ & _ & Hne). simpl in Hne. by rewrite lookup_insert_eq in Hne.
    + assert (color !! g = Some 1) as Hgg.
      { apply Hg. right. destruct HA as [B ->]. apply elem_of_app. right. left. }
      rewrite elem_of_app, elem_of_cons in Hin. destruct Hin as [Hin | [[= -> ->] | Hin]].
      * destruct (Hp1 _ Hin) as (_ & _ & _ & Hne). simpl in Hne.
        rewrite lookup_insert in Hne. destruct (decide (b = g)); congruence.
      * congruence.
      * eapply (Ho ((b, false) :: A') g d); [by apply above_cons|by right].
  - intros A g u HA He. apply Hcase in HA as [[-> ->] | (A' & -> & HA)].
    + apply Hsucc in He as [Hu Hul]. destruct (Hp2 u Hu Hul) as [H2 | ?]; [left|right; eauto].
      rewrite lookup_insert in H2. destruct (decide (b = u)); [done|by apply Hb].
    + destruct (Hw _ _ u (above_cons b false _ _ _ HA) He) as [? | [d Hin]]; [by left|right].
      apply elem_of_cons in Hin as [[= -> _] | Hin].
      * exists true. apply elem_of_app. right. left.
      * exists d. apply elem_of_app. right. by right.
  - intros A g x d HA Hin. apply Hcase in HA as [[-> ->] | (A' & -> & HA)].
    + apply tc_once, Hsucc. destruct (Hp1 _ Hin) as (_ & ? & ? & _). done.
    + assert (tc live_edge g b) as Hgb by
        (eapply (Hd ((b, false) :: A')); [by apply above_cons|left]).
      rewrite elem_of_app, elem_of_cons in Hin. destruct Hin as [Hin | [[= -> ->] | Hin]].
      * eapply tc_r; [exact Hgb|]. apply Hsucc. destruct (Hp1 _ Hin) as (_ & ? & ? & _). done.
      * done.
      * eapply (Hd ((b, false) :: A')); [by apply above_cons|by right].
  - destruct Hr as [? | [d Hin]]; [by left|right]. apply elem_of_cons in Hin as [[= -> _] | Hin].
    + exists true. apply elem_of_app. right. left.
    + exists d. apply elem_of_app. right. by right.
Qed.

(** A gray successor closes a cycle. *)
Lemma gray_cycle order color b s stack u :
  run order color ((b, false) :: stack) → 0 <= b → blocks !! Z.to_nat b = Some s →
  u ∈ successors s → u ∈ live → <[b := 1]> color !! u = Some 1 → tc live_edge u u.
Proof.
  intros HR H0 Hs Hu Hul Hc. assert (live_edge b u) as He by (split; [split; [done|eauto]|done]).
  rewrite lookup_insert in Hc. destruct (decide (b = u)) as [-> | Hne]; [by apply tc_once|].
  apply (run_gray _ _ _ HR) in Hc. apply elem_of_cons in Hc as [Hc | [A HA]%in_above]; [done|].
  eapply tc_r; [|exact He]. eapply (run_desc _ _ _ HR ((b, false) :: A)); [by apply above_cons|left].
Qed.

(** ** The loop *)

Definition nodes_of : list Z := zrange 0 (Z.of_nat (length blocks)).

(** Three stack entries at most for every node not yet coloured. *)
Definition white (color : gmap Z Z) : nat :=
  pending (λ _, [0; 0; 0]) (dom color) nodes_of.

Lemma white_insert color b c : color !! b = None → in_range blocks b = true →
  white color = (3 + white (<[b := c]> color))%nat.
Proof.
  intros Hn Hb. unfold white. rewrite (pending_remove _ (dom color) b);
    [|apply NoDup_seqZ| |by apply not_elem_of_dom].
  - simpl. do 3 f_equal. unfold pending. f_equal. apply map_ext. intros x.
    rewrite dom_insert_L. done.
  - apply zrange_elem. unfold in_range in Hb. lia.
Qed.

Lemma white_update color b c : is_Some (color !! b) → white (<[b := c]> color) = white color.
Proof.
  intros Hs. unfold white, pending. f_equal. apply map_ext. intros x.
  apply elem_of_dom in Hs. rewrite dom_insert_L.
  destruct (decide (x ∈ {[b]} ∪ dom color)), (decide (x ∈ dom color)); try done; set_solver.
Qed.

Definition is_cycle (r : res (list Z)) : Prop :=
  r = Err (RuntimeError "prune: cycle detected at block") ∧ ∃ u, u ∈ live ∧ tc live_edge u u.

Lemma topo_loop_run fuel order color stack : run order color stack →
  (length stack + white color <= fuel)%nat →
  (∃ out color', topo_loop fuel blocks live order color stack = Ok out ∧ run out color' []) ∨
  is_cycle (topo_loop fuel blocks live order color stack).
Proof using live_range.
  revert order color stack. induction fuel as [|fuel IH]; intros order color [|[b d] stack] HR Hf;
    simpl in Hf; try lia; try (left; by exists order, color).
  simpl. destruct d.
  { apply IH; [by apply finish_step|]. rewrite white_update; [lia|].
    rewrite (proj2 (run_gray _ _ _ HR b)) by left. eauto. }
  destruct (white_or_black _ _ _ _ HR) as [Hw | Hbo].
  2:{ rewrite bool_decide_eq_true_2.
    - apply IH; [by eapply skip_step|lia].
    - apply (run_black _ _ _ HR) in Hbo. eauto. }
  rewrite bool_decide_eq_false_2 by (rewrite Hw; intros [? [=]]).
  assert (in_range blocks b = true) as Hb.
  { apply live_range, (run_live _ _ _ HR). right. exists false. left. }
  pose proof Hb as [H0 [s Hs]]%in_range_lookup. rewrite (py_index_at _ _ s) by done. simpl.
  destruct (push_all (<[b := 1]> color) ((b, true) :: stack) (successors s))
    as [(p & -> & Hlen & H1 & H2) | (u & Hu & Hul & Hc & ->)]; simpl.
  - apply IH; [by eapply expand_step|]. rewrite (white_insert _ b 1) in Hf by done.
    rewrite length_app. simpl.
    assert (length (successors s) <= 2)%nat; [|lia].
    unfold successors. destruct (succ_t s), (succ_f s); simpl; try case_bool_decide; simpl; lia.
  - right. split; [done|]. exists u. split; [done|]. by eapply gray_cycle.
Qed.

Lemma run_init : 0 ∈ live → run [] ∅ [(0, false)].
Proof.
  assert (∀ A g, ¬ above [(0, false)] A g) as Hno.
  { intros A g HA. apply above_uncons in HA as [(_ & _ & ?) | (A' & _ & [B HB])]; [done|].
    by destruct A'. }
  intros H0. split.
  - intros b. split; [done|by intros ?%not_elem_of_nil].
  - intros b. rewrite list_elem_of_singleton. done.
  - done.
  - constructor.
  - intros b [?%not_elem_of_nil | [d [= -> _]%list_elem_of_singleton]]; done.
  - intros A g d HA. by destruct (Hno A g).
  - intros A g u HA. by destruct (Hno A g).
  - intros A g x d HA. by destruct (Hno A g).
  - intros O1 O2 b u HO. by destruct O1.
  - right. exists false. left.
Qed.

(** The order found, or the cycle. *)
Lemma topo_order_run :
  0 ∈ live → (∀ b, b ∈ live → rtc live_edge 0 b) →
  (∃ order, topo_order blocks live = Ok order ∧ NoDup order ∧ (∀ b, b ∈ order ↔ b ∈ live) ∧
     ∀ O1 O2 a b, order = O1 ++ a :: O2 → live_edge a b → b ∈ O2) ∨
  is_cycle (topo_order blocks live).
Proof using live_range.
  intros H0 Hreach. unfold topo_order.
  destruct (topo_loop_run (1 + 3 * length blocks) [] ∅ [(0, false)]) as
    [(out & color & -> & HR) | [-> Hcyc]]; [by apply run_init| | |by right].
  { unfold white, pending, nodes_of. simpl. apply le_n_S.
    transitivity (sum_list (map (λ _, 3%nat) (zrange 0 (Z.of_nat (length blocks))))).
    - apply Nat.eq_le_incl. f_equal.
    - rewrite (sum_blocks blocks (λ _, 3%nat)) by done. clear.
      induction blocks; simpl; lia. }
  left. simpl. destruct HR as [Hb Hg Hc Hnd Hl Ho Hw Hd Hor Hr].
  assert (∀ b, b ∈ out ↔ b ∈ live) as Hiff.
  { intros b. split; [intros ?; apply Hl; by left|]. intros Hbl.
    assert (0 ∈ out) as H0o by (destruct Hr as [? | [d ?%not_elem_of_nil]]; done).
    specialize (Hreach b Hbl). clear Hbl. revert b Hreach.
    refine (rtc_ind_r (λ b, b ∈ out) 0 H0o _). intros x y _ Hxy Hx.
    apply list_elem_of_split in Hx as (O1 & O2 & HO). rewrite HO. apply elem_of_app. left.
    by eapply Hor. }
  assert (length (rev out) = base.size live) as Hlen.
  { rewrite length_rev. rewrite <- (size_list_to_set (C := gset Z) out Hnd). f_equal.
    apply leibniz_equiv. intros x. by rewrite elem_of_list_to_set, Hiff. }
  rewrite bool_decide_eq_true_2 by done. exists (rev out). split_and!; [done| | |].
  - by rewrite <- Permutation_rev.
  - intros b. by rewrite elem_of_rev, Hiff.
  - intros O1 O2 a b HO He. apply (f_equal (@rev Z)) in HO. rewrite rev_involutive, rev_app_distr in HO.
    simpl in HO. rewrite <- app_assoc in HO. simpl in HO.
    pose proof (Hor _ _ _ _ HO He) as Hb'. by rewrite elem_of_rev in Hb'.
Qed.

(** [topo_order] terminates: it returns the live blocks in an order in which
    every edge between them points forward, or it reports a cycle and there is
    one. *)
Theorem topo_order_spec :
  0 ∈ live → (∀ b, b ∈ live → rtc live_edge 0 b) →
  (∃ order, topo_order blocks live = Ok order ∧ NoDup order ∧ (∀ b, b ∈ order ↔ b ∈ live) ∧
     ∀ O1 O2 a b, order = O1 ++ a :: O2 → live_edge a b → b ∈ O2) ∨
  is_cycle (topo_order blocks live).
Proof using live_range. exact topo_order_run. Qed.
End topo.

(** ** Ancestors *)

(** An edge into [b] from a block of [order]. *)
Definition pred_edge_in (blocks : list Block) (order : list Z) (p b : Z) : Prop :=
  p ∈ order ∧ b ∈ order ∧ ∃ s, blocks !! Z.to_nat b = Some s ∧ p ∈ preds s.

Lemma anc_fold (anc : list (Z * gset Z)) (ps : list Z) x :
  x ∈ fold_left (λ s p, match pget anc p with Some a => {[p]} ∪ s ∪ a | None => s end) ps (∅ : gset Z) ↔
  ∃ p a, p ∈ ps ∧ pget anc p = Some a ∧ (x = p ∨ x ∈ a).
Proof.
  assert (∀ acc : gset Z, x ∈ fold_left (λ s p, match pget anc p with
      Some a => {[p]} ∪ s ∪ a | None => s end) ps acc ↔
    x ∈ acc ∨ ∃ p a, p ∈ ps ∧ pget anc p = Some a ∧ (x = p ∨ x ∈ a)) as H.
  { induction ps as [|p ps IH]; intros acc; simpl.
    - split; [auto|]. intros [? | (? & ? & ?%not_elem_of_nil & _)]; done.
    - rewrite IH. destruct (pget anc p) as [a|] eqn:Ep.
      + rewrite !elem_of_union, elem_of_singleton. setoid_rewrite elem_of_cons.
        naive_solver.
      + setoid_rewrite elem_of_cons. naive_solver. }
  rewrite H. split; [intros [?%elem_of_empty | ?]; done|auto].
Qed.

Lemma tc_last {A} (R : relation A) x z : tc R x z → ∃ y, rtc R x y ∧ R y z.
Proof.
  induction 1 as [x z H | x y z Hxy _ (u & Hyu & Huz)]; [by exists x|].
  exists u. split; [by eapply rtc_l|done].
Qed.

(** [ancestors] of a topological order maps every block of the order to the
    blocks from which a non-empty path through the order leads to it. *)
Theorem ancestors_spec blocks order : NoDup order →
  (∀ b, b ∈ order → in_range blocks b = true) →
  (∀ O1 O2 b p, order = O1 ++ b :: O2 → pred_edge_in blocks order p b → p ∈ O1) →
  ∃ anc, ancestors blocks order = Ok anc ∧
    ∀ b, b ∈ order → ∃ s, pget anc b = Some s ∧
      ∀ x, x ∈ s ↔ tc (pred_edge_in blocks order) x b.
Proof.
  intros Hnd Hr Hord. unfold ancestors.
  assert (∀ pre, pre `prefix_of` order → ∃ anc, foldR (ancestors_step blocks) [] pre = Ok anc ∧
    ∀ b, (is_Some (pget anc b) ↔ b ∈ pre) ∧ ∀ s, pget anc b = Some s →
      ∀ x, x ∈ s ↔ tc (pred_edge_in blocks order) x b) as H.
  { induction pre as [|b pre IH] using rev_ind; intros Hp.
    { exists []. split; [done|]. intros b. split; [|done].
      split; [by intros [? ?]|by intros ?%not_elem_of_nil]. }
    destruct IH as (anc & HF & Hanc); [etrans; [by eexists|done]|].
    destruct Hp as [suf Hs]. rewrite <- app_assoc in Hs. simpl in Hs.
    assert (b ∈ order) as Hbo by (rewrite Hs; apply elem_of_app; right; left).
    pose proof (Hr b Hbo) as [H0 [s Hsb]]%in_range_lookup.
    set (a := fold_left (λ s p, match pget anc p with Some a => {[p]} ∪ s ∪ a | None => s end)
                (preds s) (∅ : gset Z)).
    exists (pset anc b a). split.
    { rewrite foldR_app, HF. simpl. unfold ancestors_step. by rewrite (py_index_at _ _ s). }
    intros x. rewrite pget_pset, elem_of_app, list_elem_of_singleton.
    destruct (Hanc x) as [Hk Hv]. destruct (decide (x = b)) as [-> | Hne].
    - split; [split; [by right|eauto]|]. intros ? [= <-] y. unfold a. rewrite anc_fold. split.
      + intros (p & ap & Hp & Hap & Hor). destruct (Hanc p) as [Hkp Hvp].
        assert (pred_edge_in blocks order p b) as Hpb.
        { split_and!; [|done|by exists s]. rewrite Hs. apply elem_of_app. left. apply Hkp. eauto. }
        destruct Hor as [-> | Hy]; [by apply tc_once|]. eapply tc_r; [by apply (Hvp ap Hap)|done].
      + intros (p & Hyp & Hpb)%tc_last. pose proof Hpb as (Hpo & _ & s' & Hs' & Hps).
        rewrite Hsb in Hs'. injection Hs' as <-.
        assert (p ∈ pre) as Hpre by (eapply Hord; [exact Hs|exact Hpb]).
        destruct (Hanc p) as [Hkp Hvp]. apply Hkp in Hpre as [ap Hap].
        exists p, ap. split_and!; [done|done|]. apply rtc_tc in Hyp as [-> | Hyp]; [by left|right].
        by apply (Hvp ap Hap).
    - rewrite Hk. split; [|done]. split; [by left|]. by intros [? | ?]. }
  destruct (H order ltac:(done)) as (anc & HF & Hanc). exists anc. split; [done|].
  intros b Hb. destruct (Hanc b) as [Hk Hv]. apply Hk in Hb as [s Hs]. exists s. eauto.
Qed.
