(* ===== verification/ReachSound.v ===== *)
(** The reach condition of a block is the condition of the paths that lead to
    it: [analyze] of [verify/prune.py]. *)

From stdpp Require Import sorting.
From S2P Require Import Prelude Words Constants Smt SmtTerm Expr Denote Branch Encode Action Bits Alu.
From S2P Require Import EncodeSound Block Cfg CfgSound Prune PruneSound TopoSound.

Section reach.
Context `{HL : SMTLaws}.
Implicit Types (m : model) (g : guard).

(** ** Guards *)

Lemma evg_and m a b : evg m (_and a b) = evg m a && evg m b.
Proof.
  destruct a as [[]|a], b as [[]|b]; simpl; try done; rewrite ?andb_true_r, ?andb_false_r; try done.
  rewrite evb_And. simpl. by rewrite andb_true_r.
Qed.

Lemma evg_not m a : evg m (_not a) = negb (evg m a).
Proof. destruct a; simpl; [done|apply evb_Not]. Qed.

Lemma evg_False m g : is_False g = true → evg m g = false.
Proof. by destruct g as [[]|]. Qed.

Lemma evg_or_all m l : evg m (_or_all l) = existsb (evg m) l.
Proof.
  unfold _or_all. cbv zeta.
  assert (existsb (evg m) (filter (λ g, is_False g = false) l) = existsb (evg m) l) as Hf.
  { induction l as [|g l IH]; [done|]. rewrite filter_cons.
    destruct (decide (is_False g = false)) as [H | H]; simpl; [by rewrite IH|].
    rewrite IH, evg_False; [done|]. by destruct (is_False g). }
  rewrite <- Hf. destruct (filter _ l) as [|g gs]; [done|].
  destruct (existsb is_True (g :: gs)) eqn:Et.
  - symmetry. apply existsb_exists in Et as (x & Hx & Htx). apply existsb_exists.
    exists x. split; [done|]. by destruct x as [[]|].
  - destruct gs as [|g' gs]; [by rewrite <- (orb_false_r (evg m g))|].
    generalize (g :: g' :: gs). intros k. simpl evg. rewrite evb_Or.
    induction k as [|x k IH]; [done|]. simpl. by rewrite evb_to_bl, IH.
Qed.

Lemma evg_lit m g : evg m (_lit g) = evg m g.
Proof.
  destruct g as [b|t]; [done|]. unfold _lit. cbv zeta.
  transitivity (evb m (simplify t)); [|apply evb_simplify].
  destruct (is_true (simplify t)) eqn:Et; [symmetry; by apply is_true_evb|].
  destruct (is_false (simplify t)) eqn:Ef; [symmetry; by apply is_false_evb|done].
Qed.

(** ** Edges open in a model *)

(** The branch of block [s] is taken: by its condition, or, where that is not
    known, by a free choice of its own. *)
Definition branch_taken (state_at : Z → Z3State) m (s : Block) (b : Z) : bool :=
  match cond s with
  | Some c => match cond_to_z3 (state_at b) c with Ok g => evg m g | Err _ => false end
  | None => evb m (Bool (branch_name (num s)))
  end.

(** The machine goes from [a] to [b]. *)
Definition edge_open (blocks : list Block) (state_at : Z → Z3State) m (a b : Z) : Prop :=
  0 <= a ∧ ∃ s, blocks !! Z.to_nat a = Some s ∧
  (succ_t s = Some b ∧ (kind s = KBranch → branch_taken state_at m s a = true) ∨
   succ_f s = Some b ∧ (kind s = KBranch → branch_taken state_at m s a = false)).

Lemma edge_open_to blocks state_at m a b : edge_open blocks state_at m a b → edge_to blocks a b.
Proof.
  intros (H0 & s & Hs & Hor). split; [done|]. exists s. split; [done|].
  apply elem_successors. naive_solver.
Qed.

Lemma branch_guards_sound state_at m s b t f i : _branch_guards s (state_at b) = Ok (t, f, i) →
  evg m t = branch_taken state_at m s b ∧ evg m f = negb (evg m t).
Proof.
  unfold _branch_guards, branch_taken. destruct (cond s) as [c|]; intros HE; res_inv.
  - rewrite E. by rewrite evg_lit, evg_not, evg_lit.
  - split; [done|]. apply evb_Not.
Qed.

(** ** One block *)

(** What is recorded of the blocks placed. *)
Definition placed (blocks : list Block) state_at m (pre : list Z) (info : info_map) : Prop :=
  ∀ b, (is_Some (pget info b) ↔ b ∈ pre) ∧ ∀ i, pget info b = Some i →
    (evg m (bi_reach i) = true ↔ rtc (edge_open blocks state_at m) 0 b) ∧
    ∀ s, blocks !! Z.to_nat b = Some s →
      (evg m (bi_taken i) = true ↔ (kind s = KBranch → branch_taken state_at m s b = true)) ∧
      (evg m (bi_fall i) = true ↔ (kind s = KBranch → branch_taken state_at m s b = false)).

Lemma mapR_Forall2 {A B} (f : A → res B) l l' : mapR f l = Ok l' → Forall2 (λ x y, f x = Ok y) l l'.
Proof.
  revert l'. induction l as [|x l IH]; intros l' HE; simpl in HE; res_inv; constructor; auto.
Qed.

(** Some edge of [p] into [b] is open and [p] is reached. *)
Lemma edges_of_open blocks state_at m pre info b p l :
  0 <= p → placed blocks state_at m pre info → edges_of blocks info b p = Ok l →
  existsb (λ x, evg m x.2) l = true ↔
  p ∈ pre ∧ rtc (edge_open blocks state_at m) 0 p ∧ edge_open blocks state_at m p b.
Proof.
  intros H0 Hpl HE. unfold edges_of in HE. destruct (Hpl p) as [Hk Hv].
  destruct (pget info p) as [pi|] eqn:Ep.
  2:{ res_inv. simpl. split; [done|]. intros [[? ?]%Hk _]. done. }
  destruct (Hv pi eq_refl) as [Hr Hg]. assert (p ∈ pre) as Hp by (apply Hk; eauto).
  destruct (is_False (bi_reach pi)) eqn:Ef.
  { res_inv. simpl. split; [done|]. intros (_ & Hreach & _). apply Hr in Hreach.
    apply (evg_False m) in Ef. congruence. }
  res_inv. rename v into s. apply py_index_Ok in E; [|done]. destruct (Hg s E) as [Ht Hf].
  assert (∀ (succ : option Z) (e : edge) eg, existsb (λ x : Z * edge * guard, evg m x.2) (if bool_decide (succ = Some b) then
      if is_False (_and (bi_reach pi) eg) then [] else [(p, e, _and (bi_reach pi) eg)] else []) = true ↔
    succ = Some b ∧ evg m (bi_reach pi) = true ∧ evg m eg = true) as Hent.
  { intros succ e eg. case_bool_decide; [|simpl; naive_solver].
    destruct (is_False (_and (bi_reach pi) eg)) eqn:Efa.
    - apply (evg_False m) in Efa. rewrite evg_and in Efa. simpl.
      split; [done|]. intros (_ & H1 & H2). rewrite H1, H2 in Efa. done.
    - simpl. rewrite evg_and, orb_false_r, andb_true_iff. tauto. }
  rewrite existsb_app, orb_true_iff, !Hent, Ht, Hf, Hr. unfold edge_open. naive_solver.
Qed.

Lemma existsb_mjoin {A} (f : A → bool) ls : existsb f (mjoin ls) = existsb (existsb f) ls.
Proof. induction ls as [|l ls IH]; [done|]. simpl. by rewrite existsb_app, IH. Qed.

Lemma analyze_step blocks state_at m pre b info info' :
  0 <= b →
  (∀ s p, blocks !! Z.to_nat b = Some s → p ∈ preds s ↔ edge_to blocks p b) →
  (∀ p, edge_to blocks p b → rtc (edge_to blocks) 0 p → p ∈ pre) →
  placed blocks state_at m pre info →
  analyze_block blocks state_at info b = Ok info' →
  placed blocks state_at m (pre ++ [b]) info'.
Proof.
  intros H0 Hpreds Hpre Hpl HE. unfold analyze_block in HE.
  apply bind_Ok in HE as (s & Hs & HE). apply py_index_Ok in Hs; [|done].
  apply bind_Ok in HE as ([reach in_edges] & HR & HE).
  apply bind_Ok in HE as ([[taken fall] imp] & HG & HE). injection HE as <-.
  assert (evg m reach = true ↔ rtc (edge_open blocks state_at m) 0 b) as Hreach.
  { destruct (Z.eqb_spec b 0) as [-> | Hb].
    { injection HR as <- <-. split; [done|done]. }
    apply bind_Ok in HR as (ls & HM & HR). injection HR as <- <-.
    apply mapR_Forall2 in HM. rewrite evg_or_all.
    assert (existsb (evg m) (map snd (mjoin ls)) = existsb (λ x, evg m x.2) (mjoin ls)) as ->.
    { generalize (mjoin ls). intros l. induction l as [|x l IH]; [done|]. simpl. by rewrite IH. }
    rewrite existsb_mjoin. split.
    - intros (l & Hl%list_elem_of_In & Hx)%existsb_exists.
      apply list_elem_of_lookup in Hl as [k Hl].
      pose proof (Forall2_lookup_r _ _ _ _ _ HM Hl) as (p & Hp & Hpe).
      apply list_elem_of_lookup_2 in Hp.
      rewrite merge_sort_Permutation, elem_of_remove_dups, (Hpreds s p Hs) in Hp.
      pose proof Hp as [Hp0 _].
      pose proof (proj1 (edges_of_open _ _ _ _ _ _ _ _ Hp0 Hpl Hpe) Hx) as (_ & Hr & He).
      by eapply rtc_r.
    - intros Hr. apply rtc_inv_r in Hr as [? | (p & Hr & He)]; [congruence|].
      pose proof (edge_open_to _ _ _ _ _ He) as Het.
      assert (p ∈ merge_sort Z.le (remove_dups (preds s))) as Hp.
      { rewrite merge_sort_Permutation, elem_of_remove_dups. by apply (Hpreds s p Hs). }
      apply list_elem_of_lookup in Hp as [k Hp].
      pose proof (Forall2_lookup_l _ _ _ _ _ HM Hp) as (l & Hl & Hpe).
      apply existsb_exists. exists l. split; [apply list_elem_of_In; by eapply list_elem_of_lookup_2|].
      pose proof Het as [Hp0 _]. apply (edges_of_open _ _ _ _ _ _ _ _ Hp0 Hpl Hpe).
      split_and!; [|done|done]. apply Hpre; [done|].
      revert Hr. apply rtc_subrel. intros x y. apply edge_open_to. }
  intros x. rewrite pget_pset, elem_of_app, list_elem_of_singleton.
  destruct (Hpl x) as [Hk Hv]. destruct (decide (x = b)) as [-> | Hne]; [|naive_solver].
  split; [split; [by right|eauto]|]. intros i [= <-]. simpl. split; [done|].
  intros s' Hs'. rewrite Hs in Hs'. injection Hs' as <-.
  destruct (kind s); simplify_eq/=; try (split; split; done).
  destruct (branch_guards_sound _ m _ _ _ _ _ HG) as [H1 H2]. rewrite H2, H1.
  destruct (branch_taken state_at m s b); simpl; naive_solver.
Qed.

(** In an order where edges point forward, what has an edge to [b] comes before. *)
Lemma before_in_order (order pre suf : list Z) b p (R : Z → Z → Prop) : NoDup order →
  (∀ O1 O2 x y, order = O1 ++ x :: O2 → R x y → y ∈ O2) →
  order = pre ++ b :: suf → p ∈ order → R p b → p ∈ pre.
Proof.
  intros Hnd Hfw Ho Hp HR. rewrite Ho, elem_of_app, elem_of_cons in Hp.
  rewrite Ho in Hnd. apply NoDup_app in Hnd as (_ & Hdis & Hnd).
  apply NoDup_cons in Hnd as [Hb _].
  destruct Hp as [? | [-> | Hp]]; [done| |]; exfalso; apply Hb.
  - by eapply Hfw.
  - apply list_elem_of_split in Hp as (S1 & S2 & ->). apply elem_of_app. right. right.
    eapply (Hfw (pre ++ b :: S1)); [|exact HR]. by rewrite Ho, <- app_assoc.
Qed.

(** C20 The reach condition [analyze] computes for a block is true in a model
    exactly when the model's own path from the entry leads there: the one that
    takes the taken edge of a branch when its condition holds and the fall edge
    when it does not. Exactly the blocks some path leads to are recorded. *)
Theorem analyze_reach blocks state_at m info :
  (0 < length blocks)%nat →
  (∀ b s p, 0 <= b → blocks !! Z.to_nat b = Some s → p ∈ preds s ↔ edge_to blocks p b) →
  analyze blocks state_at None [] = Ok info →
  ∀ b, (is_Some (pget info b) ↔ in_range blocks b = true ∧ rtc (edge_to blocks) 0 b) ∧
    ∀ i, pget info b = Some i →
      (evg m (bi_reach i) = true ↔ rtc (edge_open blocks state_at m) 0 b).
Proof.
  intros Hlen Hpreds HE. unfold analyze, live_blocks in HE.
  destruct (forward_reachable_run blocks) as (live & Hl & Hlive). rewrite Hl in HE. simpl in HE.
  apply bind_Ok in HE as (order & HO & HE).
  assert (0 ∈ live) as H0.
  { apply Hlive. split; [|done]. unfold in_range. lia. }
  destruct (topo_order_run blocks live) as [(order' & HO' & Hnd & Hel & Hfw) | [Hcy _]];
    [by intros b [? _]%Hlive|done| | |congruence].
  { intros b [Hb Hr]%Hlive. revert b Hr Hb.
    refine (rtc_ind_r (λ b, in_range blocks b = true → rtc (live_edge blocks live) 0 b) 0 _ _); [done|].
    intros x y Hx Hxy IH Hy. eapply rtc_r; [apply IH; by eapply edge_to_range|].
    split; [done|]. apply Hlive. split; [done|]. by eapply rtc_r. }
  rewrite HO in HO'. injection HO' as <-.
  apply (foldR_ind _ (λ pre info, placed blocks state_at m pre info)) in HE.
  - intros b. destruct (HE b) as [Hk Hv]. rewrite Hk, Hel, Hlive. split; [done|].
    intros i Hi. by apply (Hv i Hi).
  - intros b. split; [|done]. split; [by intros [? ?]|by intros ?%not_elem_of_nil].
  - intros pre b i1 i2 [suf Hs] Hpl HA. rewrite <- app_assoc in Hs. simpl in Hs.
    assert (b ∈ live) as Hb by (apply Hel; rewrite Hs; apply elem_of_app; right; left).
    pose proof Hb as [Hbr _]%Hlive. apply in_range_lookup in Hbr as [Hb0 _].
    eapply analyze_step; [done| | |done|done].
    + intros s p Hbs. by apply (Hpreds b).
    + intros p Hp Hr. eapply (before_in_order order pre suf b p (live_edge blocks live)); try done.
      apply Hel, Hlive. split; [by eapply edge_to_range|done].
Qed.
End reach.

(** ** Examples *)

Definition ex_blocks : list Block := ex_cfg_result.1.1.1.

(** Block 0 branches to 2 or 1, block 1 falls to 2, block 2 exits. *)
Lemma ex_blocks_eq : ∃ b0 b1 b2, ex_blocks = [b0; b1; b2] ∧
  (succ_t b0 = Some 2 ∧ succ_f b0 = Some 1 ∧ preds b0 = [] ∧ kind b0 = KBranch ∧ cond b0 = None) ∧
  (succ_t b1 = None ∧ succ_f b1 = Some 2 ∧ preds b1 = [0]) ∧
  (succ_t b2 = None ∧ succ_f b2 = None ∧ preds b2 = [0; 1]).
Proof. vm_compute. eexists _, _, _. split_and!; reflexivity. Qed.

Lemma ex_edges a b : edge_to ex_blocks a b ↔ a = 0 ∧ (b = 2 ∨ b = 1) ∨ a = 1 ∧ b = 2.
Proof.
  destruct ex_blocks_eq as (b0 & b1 & b2 & -> & (H1 & H2 & _) & (H3 & H4 & _) & (H5 & H6 & _)).
  unfold edge_to. setoid_rewrite elem_successors. split.
  - intros (Ha & s & Hs & Hor). pose proof (lookup_lt_Some _ _ _ Hs) as Hlt. simpl in Hlt.
    assert (a = 0 ∨ a = 1 ∨ a = 2) as [-> | [-> | ->]] by lia; simplify_eq/=;
      rewrite ?H1, ?H2, ?H3, ?H4, ?H5, ?H6 in Hor; naive_solver.
  - intros [[-> [-> | ->]] | [-> ->]]; (split; [lia|]).
    + exists b0. auto.
    + exists b0. auto.
    + exists b1. auto.
Qed.

Lemma ex_range b : in_range ex_blocks b = true ↔ b = 0 ∨ b = 1 ∨ b = 2.
Proof.
  destruct ex_blocks_eq as (b0 & b1 & b2 & -> & _). unfold in_range.
  rewrite andb_true_iff, Z.leb_le, Z.ltb_lt. cbn [length]. lia.
Qed.

Lemma ex_preds b s p : 0 <= b → ex_blocks !! Z.to_nat b = Some s →
  p ∈ preds s ↔ edge_to ex_blocks p b.
Proof.
  intros Hb Hs. rewrite ex_edges.
  destruct ex_blocks_eq as (b0 & b1 & b2 & Heq & (_ & _ & H1 & _) & (_ & _ & H2) & (_ & _ & H3)).
  rewrite Heq in Hs. pose proof (lookup_lt_Some _ _ _ Hs) as Hlt. simpl in Hlt.
  assert (b = 0 ∨ b = 1 ∨ b = 2) as [-> | [-> | ->]] by lia; simplify_eq/=;
    rewrite ?H1, ?H2, ?H3, ?elem_of_cons, ?elem_of_nil; naive_solver lia.
Qed.

Definition ex_live : gset Z := {[0; 1; 2]}.

Lemma ex_live_elem b : b ∈ ex_live ↔ b = 0 ∨ b = 1 ∨ b = 2.
Proof. unfold ex_live. rewrite !elem_of_union, !elem_of_singleton. tauto. Qed.

Lemma ex_live_range b : b ∈ ex_live → in_range ex_blocks b = true.
Proof. rewrite ex_live_elem, ex_range. done. Qed.

Lemma slice_to_spec_witness : ∃ sl, _slice_to ex_blocks ex_live 1 = Ok sl ∧ 0 ∈ sl.
Proof.
  destruct (slice_to_spec ex_blocks ex_live 1 ex_live_range) as (sl & Hsl & Hin).
  - reflexivity.
  - exists sl. split; [exact Hsl|]. apply Hin. apply rtc_once. split; [by apply ex_live_elem; left|].
    destruct ex_blocks_eq as (b0 & b1 & b2 & -> & _ & (_ & _ & Hp) & _).
    exists b1. split; [reflexivity|]. rewrite Hp. left.
Defined.

Lemma topo_order_spec_witness : ∃ order, topo_order ex_blocks ex_live = Ok order ∧ 2 ∈ order.
Proof.
  destruct (topo_order_spec ex_blocks ex_live ex_live_range) as [(order & Ho & _ & Hin & _) | [Hc _]].
  - by apply ex_live_elem; left.
  - intros b Hb. assert (live_edge ex_blocks ex_live 0 1 ∧ live_edge ex_blocks ex_live 0 2) as [H1 H2].
    { unfold live_edge. rewrite !ex_edges, !ex_live_elem. lia. }
    apply ex_live_elem in Hb as [-> | [-> | ->]]; [done|by apply rtc_once|by apply rtc_once].
  - exists order. split; [exact Ho|]. apply Hin, ex_live_elem. auto.
  - vm_compute in Hc. discriminate Hc.
Defined.

Lemma ancestors_spec_witness : ∃ anc s, ancestors ex_blocks [0; 1; 2] = Ok anc ∧
  pget anc 2 = Some s ∧ 0 ∈ s.
Proof.
  destruct (ancestors_spec ex_blocks [0; 1; 2]) as (anc & Ha & Hs).
  - by apply (bool_decide_unpack _); vm_compute.
  - intros b Hb. apply ex_range. rewrite !elem_of_cons, elem_of_nil in Hb. lia.
  - intros O1 O2 b p HO (_ & _ & s & Hs & Hp).
    assert (0 <= b) as Hb0.
    { assert (b ∈ [0; 1; 2]) as Hb by (rewrite HO; apply elem_of_app; right; left).
      rewrite !elem_of_cons, elem_of_nil in Hb. lia. }
    apply (ex_preds b s p Hb0 Hs), ex_edges in Hp.
    destruct O1 as [|x [|y [|z O1]]].
    + injection HO as <- <-. lia.
    + injection HO as <- <- <-. assert (p = 0) as -> by lia. left.
    + injection HO as <- <- <- <-. rewrite !elem_of_cons. lia.
    + injection HO as _ _ _ HO. by destruct O1.
  - destruct (Hs 2) as (s & Hg & Hx); [by apply (bool_decide_unpack _); vm_compute|].
    exists anc, s. split_and!; [exact Ha|exact Hg|]. apply Hx, tc_once. split_and!.
    + left.
    + right. right. left.
    + destruct ex_blocks_eq as (b0 & b1 & b2 & -> & _ & _ & (_ & _ & Hp)).
      exists b2. split; [reflexivity|]. rewrite Hp. left.
Defined.

(** Block 1 is reached in every model in which the free branch of block 0 falls
    through. *)
Lemma analyze_reach_witness :
  match @analyze z3 ex_blocks (λ _, ex_st) None [] with
  | Ok info => ∃ i, pget info 1 = Some i ∧
      (@evg z3 ex_model (bi_reach i) = true ↔ rtc (@edge_open z3 ex_blocks (λ _, ex_st) ex_model) 0 1)
  | Err _ => False
  end.
Proof.
  assert (is_Ok (@analyze z3 ex_blocks (λ _, ex_st) None []) = true) as Hok
    by (vm_compute; reflexivity).
  destruct (@analyze z3 ex_blocks (λ _, ex_st) None []) as [info|] eqn:E; [|discriminate Hok].
  destruct (@analyze_reach z3 z3_laws ex_blocks (λ _, ex_st) ex_model info) with (b := 1) as [Hk Hv];
    [vm_compute; lia|exact ex_preds|exact E|].
  destruct (proj2 Hk) as [i Hi]; [split; [apply ex_range; auto|apply rtc_once, ex_edges; lia]|].
  exists i. split; [exact Hi|exact (Hv i Hi)].
Defined.
