(* ===== verification/Dce.v ===== *)
(** Phi elimination ([track/dce.py]): the phis an action, a branch condition, a fact or
    a returned value can reach are kept among the sources of the blocks, the others
    dropped. The example at the end branches on one phi and reads the packet at another. *)

From stdpp Require Import relations.
From S2P Require Import Prelude Constants Expr Record Encode Action Block Prune Worklist.

(** ** The objects below an object

    Of the attributes [_children] lists, those that can hold a value: numbers, strings,
    bytes and lists of edges have no phi below them. *)

Definition _children (v : val) : list val :=
  match v with
  | VJoin _ j => j_values j
  | VFunc _ f => [fr_map_key f]
  | VPkt _ p => [pv_var_off p]
  | VMap _ m => [mv_map_key m; mv_var_off m]
  | VBss _ b => [bv_var_off b]
  | VRodata _ r => [rv_var_off r]
  | VHit _ h => [lh_map_key h]
  | VByteSeq _ cs _ _ => cs
  | VUn _ u => [u_dst u]
  | VBin _ b => [b_dst b; b_src b]
  | VPtr _ p => [p_var_off p; p_map_key p; p_null_phi p]
  | VNone | VScalar _ _ _ | VIngress _ | VRxq _ | VEgress _ | VPktLen _ _ _ | VNum _ _ _ _ => []
  end.

(** The values an action, a condition and a fact hold. *)
Definition action_values (a : action) : list val :=
  match a_kind a with
  | Return v => [v]
  | PktWrite _ _ var_off _ value => [var_off; value]
  | MapWrite _ key _ _ value var_off => [key; value; var_off]
  | MapAtomicAdd _ key _ _ value var_off old => [key; value; var_off; old]
  | MapLookup _ key _ => [key]
  | MapUpdate _ key value _ _ _ => [key; value]
  | MapDelete _ key => [key]
  | BssWrite _ _ _ value var_off => [value; var_off]
  | BssAtomicAdd _ _ _ value var_off old => [value; var_off; old]
  | AdjustHead _ r | AdjustTail _ r | AdjustMeta _ r | XdpBuffLen r => [r]
  | CtxWrite v => [v]
  | TailCall _ index _ _ _ => [index; index]
  | perf_event_output => []
  end.

Definition condition_values (c : condition) : list val :=
  match c with
  | CCond _ dst src _ => [dst; src]
  | CAdjust _ _ => []
  | CContain _ key _ _ => [key]
  | CTail _ index _ _ _ _ => [index]
  end.

Definition edge_fact_values (f : edge_fact) : list val :=
  match f with FPtr f => [pf_ptr f] | FPkt f => [kf_ptr f] | FAdjust _ => [] end.

(** ** The phis that live *)

Definition opt_values {A} (f : A → list val) (o : option A) : list val :=
  match o with Some x => f x | None => [] end.

(** The values the objects on the first stack hold; [regs] has eleven entries. *)
Definition block_roots (b : Block) : list val :=
  mjoin (map action_values (actions b))
  ++ opt_values condition_values (cond b) ++ opt_values edge_fact_values (cond_f b)
  ++ opt_values edge_fact_values (cond_t b)
  ++ map (λ x : option Z * PtrFacts, pf_ptr x.2) (ptr_facts b)
  ++ map (λ x : option Z * PktFacts, kf_ptr x.2) (pkt_ptr_facts b)
  ++ (if exit_ b then match regs b !! 0%nat with Some r => if is_none r then [] else [r] | None => [] end else [])
  ++ filter (λ s, is_join s = false) (sources b).
Definition roots_of (blocks : list Block) : list val := mjoin (map block_roots blocks).

(** The objects of a value, with repetitions. *)
Fixpoint tree_size (v : val) : nat :=
  S match v with
    | VJoin _ j => list_sum (map tree_size (j_values j))
    | VFunc _ f => tree_size (fr_map_key f)
    | VPkt _ p => tree_size (pv_var_off p)
    | VMap _ m => tree_size (mv_map_key m) + tree_size (mv_var_off m)
    | VBss _ b => tree_size (bv_var_off b)
    | VRodata _ r => tree_size (rv_var_off r)
    | VHit _ h => tree_size (lh_map_key h)
    | VByteSeq _ cs _ _ => list_sum (map tree_size cs)
    | VUn _ u => tree_size (u_dst u)
    | VBin _ b => tree_size (b_dst b) + tree_size (b_src b)
    | VPtr _ p => tree_size (p_var_off p) + tree_size (p_map_key p) + tree_size (p_null_phi p)
    | _ => O
    end.

Definition visit_phi (live : gset Z) (x : val) : gset Z := if is_join x then {[oid x]} ∪ live else live.

Definition live_phis (blocks : list Block) : res (gset Z) :=
  let roots := roots_of blocks in
  fst <$> walk is_none oid _children visit_phi (list_sum (map tree_size roots)) ∅ ∅ (rev roots).

(** ** The sources kept *)

Definition keep_source (live : gset Z) (s : list val * Z) (v : val) : list val * Z :=
  if is_join v then if bool_decide (oid v ∈ live) then (s.1 ++ [v], s.2 + 1) else s
  else (s.1 ++ [v], s.2).

Definition drop_block (live : gset Z) (s : list Block * Z) (b : Block) : list Block * Z :=
  let '(keep, kept) := fold_left (keep_source live) (sources b) ([], s.2) in
  (s.1 ++ [set_out (actions b) keep b], kept).

(** The blocks with their sources replaced, and the number of phis kept. *)
Definition drop_dead_phis (blocks : list Block) : res (list Block * Z) :=
  live ← live_phis blocks;
  Ok (fold_left (drop_block live) blocks ([], 0)).

(** ** What is kept *)

Notation held blocks := (leads_from is_none _children (roots_of blocks)).

(** Identities tell the values of the blocks apart. *)
Definition one_identity (blocks : list Block) : Prop := ∀ v w, held blocks v → is_none v = false → is_none w = false →
  held blocks w ∨ (∃ b, b ∈ blocks ∧ w ∈ sources b) → oid v = oid w → v = w.

Lemma tree_size_children v : (list_sum (map tree_size (_children v)) < tree_size v)%nat.
Proof. destruct v; simpl; lia. Qed.

Lemma visits_live vs live o : o ∈ fold_left visit_phi vs live ↔ (∃ v, v ∈ vs ∧ is_join v = true ∧ oid v = o) ∨ o ∈ live.
Proof.
  revert live. induction vs as [|v vs IH]; intros live; simpl.
  { split; [by right|]. by intros [(v & ?%elem_of_nil & _) | ?]. }
  rewrite IH. setoid_rewrite elem_of_cons.
  assert (o ∈ visit_phi live v ↔ is_join v = true ∧ oid v = o ∨ o ∈ live) as ->.
  { unfold visit_phi. destruct (is_join v); [rewrite elem_of_union, elem_of_singleton|]; intuition congruence. }
  split; [intros [(w & Hw & Hj & Ho) | [[Hj Ho] | Hl]]; eauto 6|].
  intros [(w & [-> | Hw] & Hj & Ho) | Hl]; eauto 6.
Qed.

(** The phis found alive are those the roots lead to. *)
Lemma live_phis_spec blocks : one_identity blocks → ∃ live, live_phis blocks = Ok live ∧
  ∀ o, o ∈ live ↔ ∃ v, held blocks v ∧ is_join v = true ∧ oid v = o.
Proof.
  intros Hid. unfold live_phis. set (roots := roots_of blocks).
  assert (one_object is_none oid _children roots) as Hone.
  { intros a b Ha Hb Hna Hnb E. f_equal. by apply Hid; auto. }
  destruct (walk_sized is_none oid _children visit_phi tree_size (list_sum (map tree_size roots)) ∅ ∅ (rev roots))
    as [[live seen] HE]; [apply tree_size_children| |].
  { pose proof (sum_app_rev tree_size roots []) as E. rewrite app_nil_r in E. rewrite E. simpl. lia. }
  rewrite HE. exists live. split; [done|]. intros o.
  destruct (walk_run is_none oid _children visit_phi _ _ _ _ _ _ _ Hone HE) as (Hend & vs & -> & _ & -> & Hvs);
    [exact (explored_more _ _ _ [] roots ∅ Hone (explored_none _ _ _))|].
  rewrite visits_live. split.
  - intros [(v & Hv & Hj & <-) | ?%not_elem_of_empty]; [|done]. exists v. by destruct (Hvs v Hv) as (? & _ & _).
  - intros (v & Hv & Hj & <-). left. assert (is_none v = false) as Hn by (by destruct v).
    pose proof (explored_all _ _ _ _ _ _ Hend Hv Hn) as Hin.
    apply elem_of_union in Hin as [Hin | ?%not_elem_of_empty]; [|done].
    apply elem_of_list_to_set, list_elem_of_fmap in Hin as (w & E & Hw). destruct (Hvs w Hw) as (Hlw & Hnw & _).
    rewrite (Hid v w) in Hj |- * by auto. eauto.
Qed.

(** ** The sources that are left *)

Definition kept_source (live : gset Z) (v : val) : bool := negb (is_join v) || bool_decide (oid v ∈ live).
Definition keep_in (live : gset Z) (b : Block) : Block :=
  set_out (actions b) (filter (λ v, kept_source live v = true) (sources b)) b.
Definition phis (l : list val) : list val := filter (λ v, is_join v = true) l.
Definition all_phis (blocks : list Block) : list val := mjoin (map (λ b, phis (sources b)) blocks).

Lemma keep_sources live vs l n : fold_left (keep_source live) vs (l, n) =
  (l ++ filter (λ v, kept_source live v = true) vs,
   n + Z.of_nat (length (phis (filter (λ v, kept_source live v = true) vs)))).
Proof.
  revert l n. induction vs as [|v vs IH]; intros l n; simpl.
  { rewrite app_nil_r. f_equal. simpl. lia. }
  assert (keep_source live (l, n) v =
    if kept_source live v then (l ++ [v], n + Z.of_nat (length (phis [v]))) else (l, n)) as ->.
  { unfold keep_source, kept_source, phis. rewrite filter_cons. destruct (is_join v); [destruct (bool_decide _)|];
      simpl; [done|done|]. by rewrite Z.add_0_r. }
  rewrite filter_cons. destruct (kept_source live v); rewrite IH; [|done].
  rewrite decide_True by done. rewrite <- app_assoc. simpl. f_equal.
  unfold phis. rewrite !filter_cons. case_decide; simpl; lia.
Qed.

Lemma drop_blocks live bs out n : fold_left (drop_block live) bs (out, n) =
  (out ++ map (keep_in live) bs, n + Z.of_nat (length (all_phis (map (keep_in live) bs)))).
Proof.
  revert out n. induction bs as [|b bs IH]; intros out n; simpl.
  { rewrite app_nil_r. f_equal. simpl. lia. }
  unfold drop_block at 2. cbn [fst snd]. rewrite keep_sources. cbn [app]. rewrite IH, <- app_assoc. f_equal.
  unfold all_phis, keep_in. cbn [map mjoin list_join]. rewrite length_app. cbn [set_out sources]. rewrite Nat2Z.inj_add. symmetry. apply Z.add_assoc.
Qed.

(** What is dropped is no root. *)
Lemma roots_kept live bs : roots_of (map (keep_in live) bs) = roots_of bs.
Proof.
  unfold roots_of. rewrite map_map. f_equal. apply map_ext. intros b. unfold block_roots, keep_in.
  cbn [actions cond cond_f cond_t ptr_facts pkt_ptr_facts exit_ regs set_out sources]. do 7 f_equal.
  induction (sources b) as [|v l IH]; [done|]. rewrite !filter_cons.
  assert (is_join v = false → kept_source live v = true) as Hk by (unfold kept_source; by intros ->).
  case_decide as H1; case_decide as H2; rewrite ?filter_cons; try case_decide; rewrite ?IH; tauto || congruence || done.
Qed.

(** Dropping phis ends, on any blocks whose values are told apart by their identities, and drops exactly the
    phis that no action, branch condition, recorded fact, returned value or other source can reach: every other
    source stays, in its order and in its block, nothing else of a block changes, the number returned is that of
    the phis left, and a second run drops nothing. *)
Theorem drop_dead_phis_exact blocks : one_identity blocks → ∃ keep blocks' kept,
  drop_dead_phis blocks = Ok (blocks', kept) ∧
  (∀ b v, b ∈ blocks → v ∈ sources b → keep v = true ↔ is_join v = false ∨ held blocks v) ∧
  blocks' = map (λ b, set_out (actions b) (filter (λ v, keep v = true) (sources b)) b) blocks ∧
  kept = Z.of_nat (length (all_phis blocks')) ∧ drop_dead_phis blocks' = Ok (blocks', kept).
Proof.
  intros Hid. destruct (live_phis_spec blocks Hid) as (live & HL & Hlive).
  assert (∀ bs, roots_of bs = roots_of blocks →
    drop_dead_phis bs = Ok (map (keep_in live) bs, Z.of_nat (length (all_phis (map (keep_in live) bs))))) as Hrun.
  { intros bs E. unfold drop_dead_phis, live_phis. rewrite E. fold (live_phis blocks). rewrite HL. simpl.
    by rewrite drop_blocks. }
  exists (kept_source live), (map (keep_in live) blocks), (Z.of_nat (length (all_phis (map (keep_in live) blocks)))).
  split; [by apply Hrun|]. split; [|split; [done|split; [done|]]].
  - intros b v Hb Hv. unfold kept_source. rewrite orb_true_iff, negb_true_iff, bool_decide_eq_true, Hlive.
    split; [intros [? | (w & Hw & Hj & E)]; [by left|]|intros [? | Hh]; [by left|]].
    + destruct (is_join v) eqn:Ej; [|by left]. right. rewrite <- (Hid w v); [done|done|by destruct w|by destruct v|eauto|done].
    + destruct (is_join v) eqn:Ej; [|by left]. right. eauto.
  - rewrite Hrun by apply roots_kept. rewrite map_map.
    assert (∀ b, keep_in live (keep_in live b) = keep_in live b) as Hk.
    { intros b. unfold keep_in, set_out. cbn. by rewrite list_filter_filter_l by done. }
    by setoid_rewrite Hk.
Qed.

(** ** An example: a block that branches on one phi and reads at another *)

Local Open Scope Z_scope.

Definition dc_num : val := VNum 20 7 4 (-1).
Definition dc_phi (o : Z) (l : list val) : val := VJoin o (mk_join 8 (-1) 1 o l []).
Definition dc_in : val := dc_phi 21 [dc_num].
Definition dc_cond : val := dc_phi 22 [dc_in; dc_num].
Definition dc_off : val := dc_phi 23 [dc_num].
Definition dc_lost : val := dc_phi 24 [dc_num].
Definition dc_dead : val := dc_phi 25 [dc_lost; dc_cond].
Definition dc_pkt : val := VPkt 26 (mk_pkt 1 4 0 dc_off 2).
Definition dc_block : Block := set_cond (Some (CCond JEQ dc_cond dc_num false)) None None
  (set_out [] [dc_in; dc_dead; dc_cond; dc_pkt; dc_off; dc_lost] (new_Block 1 3 5)).

(** Every object of the block. *)
Definition dc_objects : list val := [VNone; dc_num; dc_in; dc_cond; dc_off; dc_lost; dc_dead; dc_pkt].

(** A case for each object of a list. *)
Ltac each H := repeat (apply elem_of_cons in H as [-> | H]; [try done|]); try by apply elem_of_nil in H.
Ltac among := first [left | right; among].

Lemma dc_distinct v w : v ∈ dc_objects → w ∈ dc_objects → oid v = oid w → v = w.
Proof. intros Hv Hw E. unfold dc_objects in *. each Hv; each Hw. Qed.

Lemma dc_held v : leads_from is_none _children (roots_of [dc_block]) v → v ∈ dc_objects.
Proof.
  apply (leads_closed is_none _children (λ v, v ∈ dc_objects)).
  - intros r Hr. change (r ∈ [dc_cond; dc_num; dc_pkt]) in Hr. each Hr; unfold dc_objects; among.
  - intros a b Ha _ Hb. unfold dc_objects in Ha. each Ha; simpl in Hb; each Hb; unfold dc_objects; among.
Qed.

Lemma dc_identity : one_identity [dc_block].
Proof.
  intros v w Hv _ _ Hw. apply dc_distinct; [by apply dc_held|]. destruct Hw as [Hw | (b & ->%list_elem_of_singleton & Hw)].
  - by apply dc_held.
  - simpl in Hw. each Hw; unfold dc_objects; among.
Qed.

(** The dead phi goes, and the one only it reaches; the others stay. *)
Lemma drop_dead_phis_exact_witness : ∃ b kept, drop_dead_phis [dc_block] = Ok ([b], kept) ∧
  sources b = [dc_in; dc_cond; dc_pkt; dc_off] ∧ kept = 3 ∧
  ¬ leads_from is_none _children (roots_of [dc_block]) dc_lost ∧ drop_dead_phis [b] = Ok ([b], kept).
Proof.
  destruct (drop_dead_phis_exact [dc_block] dc_identity) as (keep & bs & kept & E & Hk & -> & Hn & E2).
  assert (fst <$> drop_dead_phis [dc_block] = Ok [set_out [] [dc_in; dc_cond; dc_pkt; dc_off] dc_block]) as Hr
    by (vm_compute; reflexivity).
  rewrite E in Hr. injection Hr as Hr. cbn [map] in *. set (b := set_out _ _ dc_block) in *.
  exists b, kept. assert (sources b = [dc_in; dc_cond; dc_pkt; dc_off]) as Hs by exact Hr.
  split; [exact E|]. split; [exact Hs|]. split; [|split; [|exact E2]].
  - rewrite Hn. unfold all_phis. cbn [map]. rewrite Hs. reflexivity.
  - intros Hl. assert (dc_lost ∈ sources b) as Hin.
    { apply list_elem_of_filter. split; [|simpl; among]. apply (Hk dc_block dc_lost); [left|simpl; among|by right]. }
    rewrite Hs in Hin. apply (list_elem_of_fmap_2 oid) in Hin. revert Hin.
    by apply (bool_decide_eq_false_1 _).
Defined.
