(* ===== verification/Tracker.v ===== *)
(** The abstract interpreter of [track/tracker.py]: one operation per class of
    instruction, run on the abstract state of a basic block.

    What a [Tracker] only reads is the record [tracker]; what it mutates is the
    [bstate] of the current block (with [id_box]), and, in [track], the list of
    blocks. Printing ([verbose]) is not modelled. *)

From S2P Require Import Prelude Constants Instr Link Expr Record Denote Branch Encode Action Block Cfg.

Record tracker := mk_tracker {
  t_blocks : list Block;
  t_instrs : list instr;
  t_maps : list map_info;
  t_progs : list ProgRegion;
  t_rodata_data : list Z;
  t_brief : bool
}.

Definition set_t_blocks (bs : list Block) (t : tracker) : tracker :=
  mk_tracker bs (t_instrs t) (t_maps t) (t_progs t) (t_rodata_data t) (t_brief t).

(** ** Helpers *)

Definition _is_ptr (x : val) (ptr_type : Z) : bool :=
  match x with VPtr _ p => p_type p =? ptr_type | _ => false end.

(** [maps[map_id]]: a map pointer without a number is no index. *)
Definition map_at (maps : list map_info) (map_id : option Z) : res map_info :=
  i ← of_option TypeError map_id; py_index maps i.

Definition num_of (v : val) : res Z :=
  match v with VNum _ n _ _ => Ok n | _ => Err AssertionError end.

Definition set_var_off (v : val) (p : ptr_ val) : ptr_ val :=
  mk_ptr (p_type p) (p_off p) v (p_id p) (p_base_id p) (p_map_id p) (p_map_key p)
    (p_map_key_id p) (p_bss_idx p) (p_rodata_offset p) (p_rodata_data p) (p_checked_null p)
    (p_null_phi p).
Definition set_off (n : Z) (p : ptr_ val) : ptr_ val :=
  mk_ptr (p_type p) n (p_var_off p) (p_id p) (p_base_id p) (p_map_id p) (p_map_key p)
    (p_map_key_id p) (p_bss_idx p) (p_rodata_offset p) (p_rodata_data p) (p_checked_null p)
    (p_null_phi p).
Definition set_map (m : option Z) (p : ptr_ val) : ptr_ val :=
  mk_ptr (p_type p) (p_off p) (p_var_off p) (p_id p) (p_base_id p) m (p_map_key p)
    (p_map_key_id p) (p_bss_idx p) (p_rodata_offset p) (p_rodata_data p) (p_checked_null p)
    (p_null_phi p).
Definition set_bss_idx (b : option string) (p : ptr_ val) : ptr_ val :=
  mk_ptr (p_type p) (p_off p) (p_var_off p) (p_id p) (p_base_id p) (p_map_id p) (p_map_key p)
    (p_map_key_id p) b (p_rodata_offset p) (p_rodata_data p) (p_checked_null p)
    (p_null_phi p).
Definition set_rodata (o : option Z) (d : option (list Z)) (p : ptr_ val) : ptr_ val :=
  mk_ptr (p_type p) (p_off p) (p_var_off p) (p_id p) (p_base_id p) (p_map_id p) (p_map_key p)
    (p_map_key_id p) (p_bss_idx p) o d (p_checked_null p) (p_null_phi p).

(** The relocation tags of a map and of a global: the loader gives the first a
    number and the second a name. *)
Definition map_tag (t : tag) : option Z := match t with TagNum n => Some n | _ => None end.
Definition bss_tag (t : tag) : option string := match t with TagStr s => Some s | _ => None end.

(** A source is recorded on full runs only. *)
Definition add_source_unless (brief : bool) (v : val) : ST bstate unit :=
  if brief then mret tt else add_source v.

(** ** Loads *)

(** [data[base:base + size]], padded and read little-endian. *)
Definition rodata_const (data : list Z) (base size : Z) : Z :=
  let chunk := if 0 <=? base then take (Z.to_nat size) (drop (Z.to_nat base) data) else [] in
  le_int (chunk ++ replicate (Z.to_nat size - length chunk) 0).

Definition load_ctx (idx : Z) (p : ptr_ val) (addr size : Z) (brief : bool) : ST bstate val :=
  lift (guard_or (size =? 4) AssertionError);;
  match dict_get [(0, PTR_TO_PKT); (4, PTR_TO_PKT_END); (8, PTR_TO_PKT_META)] addr with
  | Some region => new_PTR (ptr_default region 0 VNone idx (p_base_id p))
  | None =>
      let scalar (mk : Z → val) :=
        if brief then new_scalar 8 (-1) else o ← fresh; mret (mk o) in
      if addr =? 12 then scalar VIngress
      else if addr =? 16 then scalar VRxq
      else if addr =? 20 then scalar VEgress
      else raise (ExceptionErr "load: unallowed ctx access")
  end.

Definition load (idx : Z) (ptr : ptr_ val) (offset size : Z) (brief : bool) : ST bstate val :=
  lift (guard_or (bool_decide (p_checked_null ptr = Some false))
          (ExceptionErr "load: dereference of a pointer not proven non-null"));;
  b ← get_blk;
  let addr := p_off ptr + offset in
  let t := p_type ptr in
  let source (mk : Z → val) :=
    o ← fresh; add_source_unless brief (mk o);; mret (mk o) in
  if t =? PTR_TO_CTX then load_ctx idx ptr addr size brief
  else if t =? PTR_TO_STK then stk_load addr size
  else if t =? PTR_TO_PKT then
    source (λ o, VPkt o (mk_pkt (num b) idx addr (p_var_off ptr) size))
  else if t =? PTR_TO_MAP_VALUE then
    source (λ o, VMap o (mk_map (num b) idx (p_map_id ptr) (p_map_key ptr) (p_map_key_id ptr)
                           addr (p_var_off ptr) size))
  else if t =? PTR_TO_BSS then
    source (λ o, VBss o (mk_bss (num b) idx (p_bss_idx ptr) addr (p_var_off ptr) size))
  else if t =? PTR_TO_RODATA then
    let data := default [] (p_rodata_data ptr) in
    let base := default 0 (p_rodata_offset ptr) + addr in
    if is_none (p_var_off ptr) then new_num (rodata_const data base size) size (-1)
    else o ← fresh; mret (VRodata o (mk_rodata data base (p_var_off ptr) size))
  else raise (ExceptionErr "load: unallowed load").

(** ** Arithmetic *)

(** [dst_value.var_off], or the constant 0. *)
Definition var_off_or_0 (p : ptr_ val) : ST bstate val :=
  if is_none (p_var_off p) then new_num 0 8 (-1) else mret (p_var_off p).

Definition alu_pkt_sub_pkt (brief : bool) (idx : Z) (p q : ptr_ val) : ST bstate val :=
  if brief || negb (bool_decide (p_base_id p = p_base_id q)) then new_scalar 8 idx
  else x ← total_offset p; y ← total_offset q; expr_alu x y SUB 8 brief idx 0.

Definition alu_pkt (brief : bool) (idx code : Z) (p : ptr_ val) (src : val) : ST bstate val :=
  lift (guard_or (negb (is_ptr src)) AssertionError);;
  match src with
  | VNum _ n _ _ =>
      let delta := if code =? ADD then n else - n in
      new_PTR (ptr_default PTR_TO_PKT (p_off p + delta) (p_var_off p) (p_id p) (p_base_id p))
  | _ =>
      base ← var_off_or_0 p;
      var_off ← expr_alu base src code 4 brief idx 0;
      pid ← new_ptr_id;
      dst_new ← new_PTR (ptr_default PTR_TO_PKT (p_off p) var_off pid (p_base_id p));
      set_pkt_fact (Some pid) (mk_pktf (Some pid) (p_base_id p) dst_new None None);;
      mret dst_new
  end.

Definition alu_end_sub_pkt (brief : bool) (idx code : Z) (dst src : val) (p q : ptr_ val)
    : ST bstate val :=
  lift (guard_or (code =? SUB) AssertionError);;
  if brief then new_scalar 4 idx
  else if negb (bool_decide (p_base_id p = p_base_id q)) then new_binary SUB dst src 0 4 idx
  else l ← new_pkt_len 4 (p_base_id p); y ← total_offset q; expr_alu l y SUB 4 brief idx 0.

Definition alu_other_ptr (brief : bool) (idx code : Z) (p : ptr_ val) (src : val)
    : ST bstate val :=
  match src with
  | VNum _ n _ _ => copy_ptr (set_off (if code =? ADD then p_off p + n else p_off p - n) p)
  | _ =>
      if existsb (Z.eqb (p_type p)) VAR_OFF_REGIONS then
        base ← var_off_or_0 p;
        var_off ← expr_alu base src code 8 brief idx 0;
        copy_ptr (set_var_off var_off p)
      else raise (ExceptionErr "track_alu: variable offset on pointer")
  end.

Definition alu_ptr (brief : bool) (idx code : Z) (dst : val) (p : ptr_ val) (src : val)
    : ST bstate val :=
  let t := p_type p in
  if bool_decide (p_checked_null p = None) then mret dst
  else if negb ((code =? ADD) || (code =? SUB)) then
    raise (ExceptionErr "track_alu: unallowed arithmetic on pointer")
  else
    match src with
    | VPtr _ q =>
        if (t =? PTR_TO_PKT) && (code =? SUB) && (p_type q =? PTR_TO_PKT)
        then alu_pkt_sub_pkt brief idx p q
        else if t =? PTR_TO_PKT then alu_pkt brief idx code p src
        else if (t =? PTR_TO_PKT_END) && (p_type q =? PTR_TO_PKT)
        then alu_end_sub_pkt brief idx code dst src p q
        else alu_other_ptr brief idx code p src
    | _ =>
        if t =? PTR_TO_PKT then alu_pkt brief idx code p src
        else alu_other_ptr brief idx code p src
    end.

Definition alu_unary (brief : bool) (idx code s imm size : Z) (dst : val) : ST bstate val :=
  if brief then new_scalar 8 idx
  else
    match (code =? NEG), dst with
    | true, VNum _ n _ _ =>
        if size =? 8 then new_num (arith NEG n 0 64 false) 8 idx
        else new_num (arith NEG n 0 32 false) 4 idx
    | is_neg, _ =>
        let width := if is_neg then size
                     else if existsb (Z.eqb imm) [16; 32; 64] then imm / 8 else 8 in
        new_unary (mk_unary code dst (Some s) imm width (size =? 8))
    end.

(** The new value of the destination register. [size = 8] is the class
    [ALU64]. *)
Definition alu_value (brief : bool) (idx : Z) (ins : instr) (src_value dst_value : val)
    : ST bstate val :=
  let code := opcode_code ins in
  let size := if opcode_class ins =? ALU64 then 8 else 4 in
  if (code =? MOV) && negb (offset ins =? 0) then
    if brief then new_scalar 8 idx else sext src_value (offset ins) size idx
  else if code =? MOV then
    if size =? 8 then mret src_value else trunc32 src_value idx
  else
    match dst_value with
    | VPtr _ p => alu_ptr brief idx code dst_value p src_value
    | _ =>
        if (code =? NEG) || (code =? END) then
          alu_unary brief idx code (opcode_s ins) (imm ins) size dst_value
        else
          dst_new ← expr_alu dst_value src_value code size brief idx
                      (if (code =? DIV) || (code =? MOD) then offset ins else 0);
          if (size =? 4) && is_same dst_new dst_value then trunc32 dst_new idx else mret dst_new
    end.

Definition track_alu (t : tracker) (idx : Z) : ST bstate unit :=
  ins ← lift (py_index (t_instrs t) idx);
  src_value ← get_reg (src_reg ins);
  src_value ← (if opcode_s ins =? S_IMM then
                 if opcode_class ins =? ALU64 then imm64 (imm ins) else new_num (imm ins) 4 (-1)
               else mret src_value);
  dst_value ← get_reg (dst_reg ins);
  dst_new ← alu_value (t_brief t) idx ins src_value dst_value;
  set_reg (dst_reg ins) dst_new.

(** ** Load instructions *)

Definition load_imm (t : tracker) (ins : instr) : ST bstate val :=
  lift (guard_or (wide_instr ins && (src_reg ins =? 0)) AssertionError);;
  if relocated ins then
    if reloc_region ins =? 0 then
      new_PTR (set_map (map_tag (reloc_tag ins))
                 (ptr_default PTR_TO_MAP 0 VNone NO_FACT_ID (Some (-1))))
    else if reloc_region ins =? 1 then
      new_PTR (set_bss_idx (bss_tag (reloc_tag ins))
                 (ptr_default PTR_TO_BSS (bss_offset ins) VNone NO_FACT_ID (Some (-1))))
    else if reloc_region ins =? 2 then
      new_PTR (set_rodata (rodata_offset ins) (Some (t_rodata_data t))
                 (ptr_default PTR_TO_RODATA 0 VNone NO_FACT_ID (Some (-1))))
    else mret VNone
  else
    let hi := Z.land (Z.shiftr (next_imm ins) 32) 0xFFFFFFFF in
    new_num (Z.lor (Z.shiftl hi 32) (Z.land (imm ins) 0xFFFFFFFF)) 8 (-1).

Definition load_mem (t : tracker) (idx : Z) (ins : instr) (size : Z) : ST bstate val :=
  src_ptr ← get_reg (src_reg ins);
  match src_ptr with
  | VPtr _ p =>
      v ← load idx p (offset ins) size (t_brief t);
      if (opcode_mode ins =? MEMSX) && (size <? 8) then sext v (size * 8) 8 idx else mret v
  | _ => raise (ExceptionErr "track_load: src_reg is not a PTR")
  end.

Definition track_load (t : tracker) (idx : Z) : ST bstate unit :=
  ins ← lift (py_index (t_instrs t) idx);
  size ← lift (dict_getitem sz_map (opcode_sz ins));
  dst_new ←
    (if opcode_class ins =? LD then
       lift (guard_or (opcode_mode ins =? IMM) (ExceptionErr "track_load: invalid BPF_LD mode"));;
       load_imm t ins
     else if opcode_class ins =? LDX then
       lift (guard_or ((opcode_mode ins =? MEM) || (opcode_mode ins =? MEMSX))
               (ExceptionErr "track_load: invalid BPF_LDX mode"));;
       load_mem t idx ins size
     else mret VNone);
  set_reg (dst_reg ins) dst_new.

(** ** Stores *)

Definition store_mem (idx : Z) (p : ptr_ val) (offset size : Z) (src_value : val)
    : ST bstate unit :=
  lift (guard_or (bool_decide (p_checked_null p = Some false))
          (ExceptionErr "track_store: store through a pointer not proven non-null"));;
  let t := p_type p in
  let addr := p_off p + offset in
  if t =? PTR_TO_STK then stk_store addr size src_value
  else if t =? PTR_TO_CTX then
    lift (guard_or (addr =? 16) AssertionError);;
    lift (guard_or (size =? 4) AssertionError);;
    emit (CtxWrite src_value)
  else if t =? PTR_TO_MAP_VALUE then
    emit (MapWrite (p_map_id p) (p_map_key p) addr size src_value (p_var_off p))
  else if t =? PTR_TO_BSS then emit (BssWrite (p_bss_idx p) addr size src_value (p_var_off p))
  else if t =? PTR_TO_PKT then emit (PktWrite (p_id p) addr (p_var_off p) size src_value)
  else raise (ExceptionErr "track_store: unallowed store to pointer").

(** The read-modify-write operations on the stack. *)
Definition atomic_ops : list (Z * Z) := [(0x00, ADD); (0x40, OR); (0x50, AND); (0xa0, XOR)].

Definition _atomic_stack (brief : bool) (idx : Z) (ins : instr) (addr size : Z) (src_value : val)
    (atomic_op fetch : Z) : ST bstate unit :=
  old ← stk_load addr size;
  let width := if size =? 4 then 4 else 8 in
  match dict_get atomic_ops atomic_op with
  | Some op =>
      new ← expr_alu old src_value op width brief idx 0;
      stk_store addr size new;;
      if negb (fetch =? 0) then set_reg (src_reg ins) old else mret tt
  | None =>
      if (atomic_op =? 0xe0) && negb (fetch =? 0) then
        stk_store addr size src_value;; set_reg (src_reg ins) old
      else if (atomic_op =? 0xf0) && negb (fetch =? 0) then
        raise (ExceptionErr "track_store: atomic cmpxchg on the stack not implemented")
      else raise (ExceptionErr "track_store: unidentified atomic op")
  end.

Definition store_atomic (brief : bool) (idx : Z) (ins : instr) (size : Z)
    (src_value dst_value : val) : ST bstate unit :=
  lift (guard_or (opcode_class ins =? STX) AssertionError);;
  let fetch := Z.land (imm ins) 1 in
  let atomic_op := Z.land (imm ins) 0xF0 in
  match dst_value with
  | VPtr _ p =>
      let addr := p_off p + offset ins in
      if p_type p =? PTR_TO_STK then
        _atomic_stack brief idx ins addr size src_value atomic_op fetch
      else
        lift (guard_or ((p_type p =? PTR_TO_MAP_VALUE) || (p_type p =? PTR_TO_BSS))
                AssertionError);;
        old_value ← load idx p (offset ins) size brief;
        (if atomic_op =? 0x00 then
           if p_type p =? PTR_TO_MAP_VALUE then
             emit (MapAtomicAdd (p_map_id p) (p_map_key p) addr size src_value (p_var_off p)
                     old_value)
           else emit (BssAtomicAdd (p_bss_idx p) addr size src_value (p_var_off p) old_value)
         else if existsb (Z.eqb atomic_op) [0x40; 0x50; 0xa0; 0xe0; 0xf0] then
           raise (ExceptionErr "track_store: atomic op not implemented")
         else raise (ExceptionErr "track_store: unidentified atomic op"));;
        if negb (fetch =? 0) then set_reg (src_reg ins) old_value else mret tt
  | _ => raise AssertionError
  end.

Definition track_store (t : tracker) (idx : Z) : ST bstate unit :=
  ins ← lift (py_index (t_instrs t) idx);
  let mode := opcode_mode ins in
  size ← lift (dict_getitem sz_map (opcode_sz ins));
  src_value ← get_reg (src_reg ins);
  dst_value ← get_reg (dst_reg ins);
  src_value ← (if opcode_class ins =? ST_ then imm64 (imm ins) else mret src_value);
  if (mode =? ABS) || (mode =? IND) then
    raise (ExceptionErr "track_store: legacy packet access not implemented")
  else if (mode =? IMM) || (mode =? MEMSX) then
    raise (ExceptionErr "track_store: invalid BPF_STX mode")
  else if mode =? MEM then
    match dst_value with
    | VPtr _ p => store_mem idx p (offset ins) size src_value
    | _ => raise (ExceptionErr "track_store: dst_reg is not a PTR")
    end
  else if mode =? ATOMIC then store_atomic (t_brief t) idx ins size src_value dst_value
  else raise (ExceptionErr "track_store: invalid BPF_STX mode").

(** ** Branches *)

Definition set_cond_t (c : edge_fact) : ST bstate unit :=
  upd_blk (λ b, set_cond (cond b) (cond_f b) (Some c) b).
Definition set_cond_f (c : edge_fact) : ST bstate unit :=
  upd_blk (λ b, set_cond (cond b) (Some c) (cond_t b) b).
Definition set_branch_cond (c : condition) : ST bstate unit :=
  upd_blk (λ b, set_cond (Some c) (cond_f b) (cond_t b) b).

(** Which results take the branch: success, failure, where the operands can
    be evaluated at both. *)
Definition adjust_outcomes (rv dst src : val) (code : Z) (jmp32 : bool)
    : res (option (bool * bool)) :=
  match _eval_at dst rv 0, _eval_at src rv 0, _eval_at dst rv (- EINVAL),
        _eval_at src rv (- EINVAL) with
  | Some a, Some b, Some a', Some b' =>
      ok_taken ← _jmp_taken code a b jmp32;
      failed_taken ← _jmp_taken code a' b' jmp32;
      Ok (Some (ok_taken, failed_taken))
  | _, _, _, _ => Ok None
  end.

Definition branch_adjust (brief : bool) (rv_idx : Z) (ok_taken : bool) : ST bstate unit :=
  b ← get_blk;
  (match adjust_pending b with
   | Some (i, before) =>
       if i =? rv_idx then
         let after := Some rv_idx in
         set_cond_t (FAdjust (mk_adjf rv_idx (if ok_taken then after else before)));;
         set_cond_f (FAdjust (mk_adjf rv_idx (if ok_taken then before else after)))
       else mret tt
   | None => mret tt
   end);;
  if brief then mret tt else set_branch_cond (CAdjust ok_taken rv_idx).

(** A test of a pointer of unknown nullity: [code] already refers to it as the
    left operand. *)
Definition branch_null (brief : bool) (code : Z) (dst : val) (p : ptr_ val) (src : val)
    : ST bstate unit :=
  n ← lift (num_of src);
  lift (guard_or (n =? 0) AssertionError);;
  if negb ((code =? JEQ) || (code =? JNE)) then mret tt
  else
    let pid := null_fact_id p in
    let fact n := FPtr (mk_ptrf pid dst (Some n)) in
    (if code =? JNE then set_cond_f (fact true);; set_cond_t (fact false)
     else set_cond_t (fact true);; set_cond_f (fact false));;
    if brief then mret tt
    else
      let res := negb (code =? JEQ) in
      if negb (is_none (p_null_phi p)) then
        z ← new_num 0 1 (-1); set_branch_cond (CCond code (p_null_phi p) z false)
      else if p_type p =? PTR_TO_MAP_VALUE then
        set_branch_cond (CContain (p_map_id p) (p_map_key p) (p_map_key_id p) res)
      else mret tt.

Definition mirror_jmp : list (Z * Z) := [(JGT, JLT); (JGE, JLE); (JLT, JGT); (JLE, JGE)].

(** The bounds [(max on taken, min on fall)] or [(min on taken, max on fall)]
    of the packet length that a comparison with [data_end] gives. *)
Definition branch_pkt_on (code : Z) (p : ptr_ val) : ST bstate unit :=
  let offset := p_off p in
  let fact min max := FPkt (mk_pktf (Some (p_id p)) (p_base_id p) VNone min max) in
  let finish :=
    off ← total_offset p;
    l ← new_pkt_len 4 (p_base_id p);
    set_branch_cond (CCond code off l false) in
  if (code =? JGT) || (code =? JGE) then
    let '(max_len_t, min_len_f) :=
      if code =? JGT then (offset - 1, offset) else (offset, offset + 1) in
    set_cond_t (fact None (Some max_len_t));;
    set_cond_f (fact (Some min_len_f) None);;
    finish
  else if (code =? JLT) || (code =? JLE) then
    let '(min_len_t, max_len_f) :=
      if code =? JLE then (offset, offset + 1) else (offset + 1, offset) in
    set_cond_t (fact (Some min_len_t) None);;
    set_cond_f (fact None (Some max_len_f));;
    finish
  else raise (ExceptionErr "track_branch: unidentified PTR_TO_PKT comparison code").

(** The two pointers of [p OP q], of types packet and packet end. *)
Definition branch_pkt (code : Z) (p q : ptr_ val) : ST bstate unit :=
  if p_type q =? PTR_TO_PKT then
    code ← lift (dict_getitem mirror_jmp code); branch_pkt_on code q
  else branch_pkt_on code p.

Definition pkt_size_check (dst src : val) : option (ptr_ val * ptr_ val) :=
  match dst, src with
  | VPtr _ p, VPtr _ q =>
      if ((p_type p =? PTR_TO_PKT) && (p_type q =? PTR_TO_PKT_END)
          || (p_type p =? PTR_TO_PKT_END) && (p_type q =? PTR_TO_PKT))
         && bool_decide (p_base_id p = p_base_id q)
      then Some (p, q) else None
  | _, _ => None
  end.

(** [if 0 == p], turned around with the code [swap_jmp_code] gives. *)
Definition orient (code : Z) (dst src : val) : Z * val * val :=
  match dst, src with
  | VNum _ 0 _ _, VPtr _ p =>
      if negb (code =? JSET) && bool_decide (p_checked_null p = None)
      then (swap_jmp_code code, src, dst) else (code, dst, src)
  | _, _ => (code, dst, src)
  end.

Definition branch_test (brief : bool) (code : Z) (dst src : val) (jmp32 : bool)
    : ST bstate unit :=
  let '(code, dst, src) := orient code dst src in
  let rest :=
    if brief then mret tt
    else match pkt_size_check dst src with
         | Some (p, q) => branch_pkt code p q
         | None => set_branch_cond (CCond code dst src jmp32)
         end in
  match dst with
  | VPtr _ p =>
      if bool_decide (p_checked_null p = None) then branch_null brief code dst p src else rest
  | _ => rest
  end.

Definition track_branch (t : tracker) (idx : Z) : ST bstate unit :=
  ins ← lift (py_index (t_instrs t) idx);
  let code := opcode_code ins in
  src_value ← get_reg (src_reg ins);
  src_value ← (if opcode_s ins =? S_IMM then
                 if opcode_class ins =? JMP then imm64 (imm ins)
                 else new_num (Z.land (imm ins) 0xFFFFFFFF) 4 (-1)
               else mret src_value);
  dst_value ← get_reg (dst_reg ins);
  lift (guard_or (negb (swap_jmp_code code =? -1) || (code =? JSET))
          (ExceptionErr "track_branch: no negation for jump code"));;
  let jmp32 := opcode_class ins =? JMP32 in
  let rv := match _adjust_ret_in dst_value with
            | Some v => Some v
            | None => _adjust_ret_in src_value
            end in
  decided ← match rv with
            | Some (VFunc _ f as v) =>
                out ← lift (adjust_outcomes v dst_value src_value code jmp32);
                mret (match out with
                      | Some (ok, failed) => if eqb ok failed then None else Some (fr_idx f, ok)
                      | None => None
                      end)
            | _ => mret None
            end;
  match decided with
  | Some (rv_idx, ok_taken) => branch_adjust (t_brief t) rv_idx ok_taken
  | None => branch_test (t_brief t) code dst_value src_value jmp32
  end.

(** ** Calls *)

Definition _tail_region (t : tracker) (idx : Z) : ST bstate ProgRegion :=
  b ← get_blk;
  lift (guard_or (negb (bool_decide (t_progs t = [])))
          (ExceptionErr "track_call: bpf_tail_call but no callee was given"));;
  lift (guard_or (match region_of (t_progs t) idx with Some r => is_main r | None => true end)
          (ExceptionErr "track_call: chained tail calls are not implemented"));;
  target ← lift (match succ_t b with
                 | None => Ok None
                 | Some s => prog_entry <$> py_index (t_blocks t) s
                 end);
  lift (of_option (ExceptionErr "track_call: bpf_tail_call has no callee edge") target).

Definition to_scalar (idx : Z) : ST bstate unit := s ← new_scalar 8 idx; set_reg 0 s.

(** [func_retval(size=, idx=, func=, block=block.num)]. *)
Definition new_retval (size idx func : Z) : ST bstate val :=
  b ← get_blk; new_func (mk_func size idx func (num b) None VNone None 0 false).

(** The pointer in a register that must hold one. *)
Definition ptr_reg (r : Z) : ST bstate (ptr_ val) :=
  v ← get_reg r;
  match v with VPtr _ p => mret p | _ => raise AssertionError end.

(** The map behind a register, where it holds one. *)
Definition as_map (v : val) : option (option Z) :=
  match v with
  | VPtr _ p => if p_type p =? PTR_TO_MAP then Some (p_map_id p) else None
  | _ => None
  end.

Definition call_lookup (t : tracker) (idx : Z) : ST bstate unit :=
  map_ptr ← ptr_reg 1;
  key_reg ← get_reg 2;
  lift (guard_or (p_type map_ptr =? PTR_TO_MAP) AssertionError);;
  key_ptr ← match key_reg with VPtr _ p => mret p | _ => raise AssertionError end;
  let map_id := p_map_id map_ptr in
  m ← lift (map_at (t_maps t) map_id);
  map_key ← load idx key_ptr 0 (mi_key_size m) false;
  r0 ← new_PTR (set_map map_id (set_key map_key (Some idx) (set_null None
         (ptr_default PTR_TO_MAP_VALUE 0 VNone (-1) (Some idx)))));
  set_reg 0 r0;;
  (if t_brief t then mret tt else emit (MapLookup map_id map_key idx));;
  set_ptr_fact (Some idx) (mk_ptrf (Some idx) r0 None).

Definition call_update (t : tracker) (idx : Z) : ST bstate unit :=
  r1 ← get_reg 1;
  key_reg ← get_reg 2;
  value_reg ← get_reg 3;
  (match as_map r1, key_reg, value_reg with
   | Some map_id, VPtr _ key_ptr, VPtr _ value_ptr =>
       m ← lift (map_at (t_maps t) map_id);
       map_key ← load idx key_ptr 0 (mi_key_size m) false;
       map_value ← load idx value_ptr 0 (mi_value_size m) false;
       r4 ← get_reg 4;
       let flags := match r4 with VNum _ n _ _ => Some n | _ => None end in
       emit (MapUpdate map_id map_key map_value flags 0 (mi_value_size m))
   | _, _, _ => mret tt
   end);;
  to_scalar idx.

Definition call_delete (t : tracker) (idx : Z) : ST bstate unit :=
  r1 ← get_reg 1;
  key_reg ← get_reg 2;
  (match as_map r1, key_reg with
   | Some map_id, VPtr _ key_ptr =>
       m ← lift (map_at (t_maps t) map_id);
       map_key ← load idx key_ptr 0 (mi_key_size m) false;
       if t_brief t then mret tt else emit (MapDelete map_id map_key)
   | _, _ => mret tt
   end);;
  to_scalar idx.

Definition SCALAR_HELPERS : list Z := [5; 7; 8; 14; 15; 42; 118; 125; 160; 208].

Definition call_scalar (t : tracker) (idx func : Z) : ST bstate unit :=
  v ← new_retval (if func =? 7 then 4 else 8) idx func;
  set_reg 0 v;; add_source_unless (t_brief t) v.

Definition call_csum_diff (t : tracker) (idx func : Z) : ST bstate unit :=
  v ← (if t_brief t then new_scalar 4 idx else new_retval 4 idx func);
  set_reg 0 v;; add_source_unless (t_brief t) v.

(** The context in [r1] and the signed 32-bit constant in [r2]. *)
Definition adjust_args : ST bstate (ptr_ val * Z) :=
  ctx_ptr ← ptr_reg 1;
  lift (guard_or ((p_type ctx_ptr =? PTR_TO_CTX) && (p_off ctx_ptr =? 0)) AssertionError);;
  r2 ← get_reg 2;
  n ← lift (num_of r2);
  let adjust := Z.land n 0xFFFFFFFF in
  mret (ctx_ptr, if Z.shiftl 1 31 <=? adjust then adjust - Z.shiftl 1 32 else adjust).

Definition call_adjust_head (t : tracker) (idx func : Z) : ST bstate unit :=
  '(ctx_ptr, adjust) ← adjust_args;
  r0 ← new_retval 8 idx func;
  set_reg 0 r0;;
  (if t_brief t then mret tt else emit (AdjustHead adjust r0));;
  upd_blk (set_pending (Some (idx, p_base_id ctx_ptr)));;
  set_ctx_view None.

Definition call_adjust_other (t : tracker) (idx func : Z) : ST bstate unit :=
  '(_, adjust) ← adjust_args;
  r0 ← new_retval 8 idx func;
  set_reg 0 r0;;
  if t_brief t then mret tt
  else emit ((if func =? 65 then AdjustTail else AdjustMeta) adjust r0).

Definition redirect_fallback (func : Z) (known : bool) (flags : val) : Z :=
  match known, flags with
  | true, VNum _ n _ _ => if func =? 51 then Z.land n 3 else if n =? 0 then 4 else 0
  | _, _ => 0
  end.

Definition call_redirect (t : tracker) (idx func : Z) : ST bstate unit :=
  let is_map := func =? 51 in
  map_ptr ← (if is_map then get_reg 1 else mret VNone);
  flags ← get_reg (if is_map then 3 else 2);
  let map_id := if is_map then default None (as_map map_ptr) else None in
  let known := is_num flags && eqb is_map (bool_decide (is_Some map_id)) in
  map_key ← (if is_map then get_reg 2 else mret VNone);
  b ← get_blk;
  r0 ← new_func (mk_func 8 idx func (num b) map_id map_key (Some idx)
                   (redirect_fallback func known flags) known);
  set_reg 0 r0;; add_source_unless (t_brief t) r0.

Definition call_tail (t : tracker) (idx : Z) : ST bstate unit :=
  region ← _tail_region t idx;
  ctx_ptr ← get_reg 1;
  map_ptr ← get_reg 2;
  index ← get_reg 3;
  lift (guard_or (_is_ptr ctx_ptr PTR_TO_CTX) (ExceptionErr "track_call: non-ctx in r1"));;
  map_id ← lift (of_option (ExceptionErr "track_call: non-map in r2") (as_map map_ptr));
  m ← lift (map_at (t_maps t) map_id);
  lift (guard_or (mi_type m =? BPF_MAP_TYPE_PROG_ARRAY)
          (ExceptionErr "track_call: not a PROG_ARRAY"));;
  (if bool_decide (r_map_id region = map_id) then mret tt
   else
     lift (map_at (t_maps t) (r_map_id region));;
     raise (ExceptionErr "track_call: the callee was loaded into another map"));;
  upd_blk (set_tail ctx_ptr (Some region));;
  set_branch_cond (CTail map_id index (r_slot region) (r_name region) idx (mi_name m));;
  (if t_brief t then mret tt
   else emit (TailCall map_id index (r_slot region) (r_name region) (mi_name m)));;
  to_scalar idx.

Definition call_buff_len (t : tracker) : ST bstate unit :=
  ctx_ptr ← ptr_reg 1;
  lift (guard_or ((p_type ctx_ptr =? PTR_TO_CTX) && (p_off ctx_ptr =? 0)) AssertionError);;
  b ← get_blk;
  r0 ← new_pkt_len 8 (pkt_base_id b);
  set_reg 0 r0;;
  if t_brief t then mret tt else emit (XdpBuffLen r0).

Definition call_helper (t : tracker) (idx func : Z) : ST bstate unit :=
  if func =? 1 then call_lookup t idx
  else if func =? 2 then call_update t idx
  else if func =? 3 then call_delete t idx
  else if existsb (Z.eqb func) SCALAR_HELPERS then call_scalar t idx func
  else if func =? 25 then emit perf_event_output;; to_scalar idx
  else if func =? 28 then call_csum_diff t idx func
  else if func =? 44 then call_adjust_head t idx func
  else if (func =? 23) || (func =? 51) then call_redirect t idx func
  else if func =? 12 then call_tail t idx
  else if (func =? 54) || (func =? 65) then call_adjust_other t idx func
  else if func =? 188 then call_buff_len t
  else if (func =? 10) || (func =? 11) then raise (ExceptionErr "track_call: a TC helper")
  else raise (ExceptionErr "track_call: unknown helper").

(** The caller-saved argument registers. *)
Definition clobber : ST bstate unit := mapST (λ i, set_reg i VNone) (zrange 1 6);; mret tt.

Definition track_call (t : tracker) (idx : Z) : ST bstate unit :=
  ins ← lift (py_index (t_instrs t) idx);
  if negb (src_reg ins =? 0) then to_scalar idx
  else call_helper t idx (imm ins);; clobber.

(** ** Blocks and the program *)

Definition track_instr (t : tracker) (i : Z) : ST bstate unit :=
  upd_blk (set_idx_ (Some i));;
  ins ← lift (py_index (t_instrs t) i);
  if is_alu ins then track_alu t i
  else if is_load ins then track_load t i
  else if is_store ins then track_store t i
  else if is_call ins then track_call t i
  else if is_branch ins then track_branch t i
  else mret tt.

Definition reset_block (b : Block) : Block :=
  set_pending None (set_facts [] [] (pkt_base_id b) (set_cond None None None (set_out [] [] b))).

Definition enter_block (t : tracker) (block_no : Z) : ST bstate unit :=
  upd_blk reset_block;;
  b ← get_blk;
  if block_no =? 0 then init_state
  else if bool_decide (is_Some (prog_entry b)) then init_tail_entry (t_blocks t)
  else merge_predecessors (t_blocks t).

Definition track_body (t : tracker) (s e : Z) : ST bstate unit :=
  mapST (track_instr t) (zrange s (e + 1));; mret tt.

Definition track_block_st (t : tracker) (block_no : Z) : ST bstate unit :=
  enter_block t block_no;;
  b ← get_blk;
  track_body t (start b) (end_ b).

(** The blocks, the next object identity and [id_box]. *)
Record tstate := mk_ts { ts_blocks : list Block; ts_oid : Z; ts_id : Z }.

(** [block_no] is the index of [blocks], and of the block it writes back. *)
Definition track_block (t : tracker) (block_no : Z) (st : tstate) : res tstate :=
  b ← py_index (ts_blocks st) block_no;
  '(_, s) ← track_block_st (set_t_blocks (ts_blocks st) t) block_no
              (mk_bs b (ts_oid st) (ts_id st));
  bs ← py_setitem (ts_blocks st) block_no (bs_blk s);
  Ok (mk_ts bs (bs_oid s) (bs_id s)).

(** The loop over [untraced]; every round takes one block out. *)
Fixpoint track_loop (t : tracker) (fuel : nat) (untraced : list Z) (st : tstate) : res tstate :=
  match untraced with
  | [] => Ok st
  | _ =>
      match fuel with
      | O => Err (RuntimeError "out of fuel")
      | S fuel' =>
          target ← get_next_block_no (ts_blocks st) untraced;
          st ← track_block t target st;
          track_loop t fuel' (filter (λ i, i ≠ target) untraced) st
      end
  end.

(** [track(brief)], from the first free object identity [oid]: the blocks and
    [sources]. *)
Definition track (t : tracker) (oid : Z) : res (list Block * list val) :=
  let n := Z.of_nat (length (t_blocks t)) in
  st ← track_block t 0 (mk_ts (t_blocks t) oid (Z.of_nat (length (t_instrs t))));
  let untraced := zrange 1 n in
  st ← track_loop t (length untraced) untraced st;
  Ok (ts_blocks st, mjoin (map sources (ts_blocks st))).
