(* ===== verification/Frame.v ===== *)
(** What the operations of a block leave alone.

    [Keeps R m]: every successful run of [m] goes from a state to one [R]
    relates it to. With [R] a preorder it composes through the combinators of
    the monad; the operations of a block and of the tracker are instances for
    the two relations the proofs need. *)

From S2P Require Import Prelude Constants Instr Link Expr Record Denote Branch Encode Action Block Cfg.
From S2P Require Import Tracker.

Class Keeps {S} (R : relation S) {A} (m : ST S A) : Prop :=
  keeps : ∀ s a s', m s = Ok (a, s') → R s s'.

#[global] Hint Mode Keeps + + + + : typeclass_instances.

Section combinators.
Context {S : Type} (R : relation S) `{!PreOrder R}.

#[export] Instance keeps_ret {A} (a : A) : Keeps R (mret a).
Proof using PreOrder0. intros s b s' H. res_inv. done. Qed.
#[export] Instance keeps_raise {A} e : Keeps R (raise (A := A) e).
Proof using PreOrder0. intros s a s' H. res_inv. Qed.
#[export] Instance keeps_lift {A} (r : res A) : Keeps R (lift r).
Proof using PreOrder0. intros s a s' H. res_inv. done. Qed.
#[export] Instance keeps_gets {A} (f : S → A) : Keeps R (gets f).
Proof using PreOrder0. intros s a s' H. res_inv. done. Qed.
#[export] Instance keeps_bind {A B} (m : ST S A) (k : A → ST S B) :
  Keeps R m → (∀ a, Keeps R (k a)) → Keeps R (mbind k m).
Proof using PreOrder0.
  intros Hm Hk s b s' H. res_inv. transitivity s0; [by eapply Hm|by eapply Hk].
Qed.
#[export] Instance keeps_mapST {A B} (f : A → ST S B) l :
  (∀ a, Keeps R (f a)) → Keeps R (mapST f l).
Proof using PreOrder0. intros Hf. induction l; simpl; apply _. Qed.
#[export] Instance keeps_if {A} (b : bool) (m m' : ST S A) :
  Keeps R m → Keeps R m' → Keeps R (if b then m else m').
Proof. by destruct b. Qed.
End combinators.

(** The case analysis the instances do not see through. *)
Ltac keeps_step :=
  first
    [ apply _
    | match goal with
      | |- ∀ _, _ => intro
      | |- Keeps _ (mbind _ _) => apply keeps_bind; [apply _| |]
      | |- Keeps _ (mapST _ _) => apply keeps_mapST; [apply _|]
      | |- Keeps _ (match ?x with _ => _ end) => destruct x
      | |- Keeps _ (let '(_, _) := ?x in _) => destruct x
      end
    | progress cbv zeta ].
Ltac keeps_auto := repeat keeps_step.

(** ** A block keeps its place in the graph *)

(** The attributes [build_cfg] sets; tracking only reads them. *)
Definition place (b : Block) :=
  (num b, start b, end_ b, preds b, succ_f b, succ_t b, exit_ b, jump b, branch b, prog_entry b).

Definition same_place (s s' : bstate) : Prop := place (bs_blk s') = place (bs_blk s).

#[global] Instance same_place_preorder : PreOrder same_place.
Proof. split; [done|]. intros s1 s2 s3. unfold same_place. congruence. Qed.

(** An action without a result: no call record. *)
Definition silent (k : action_kind) : bool := bool_decide (action_ret (mk_action 0 0 k) = None).

(** A relation that does not look at what the allocations, the facts and the
    outputs of a block change, the records of calls excepted. *)
Class BlockFrame (R : relation bstate) : Prop := {
  bf_preorder :: PreOrder R;
  bf_quiet : ∀ s o i, R s (mk_bs (bs_blk s) o i);
  bf_source : ∀ s v o i, is_func v = false →
    R s (mk_bs (set_out (actions (bs_blk s)) (sources (bs_blk s) ++ [v]) (bs_blk s)) o i);
  bf_emit : ∀ s k o i, silent k = true →
    R s (mk_bs (set_out (actions (bs_blk s) ++ [mk_action (num (bs_blk s)) (default (-1) (idx_ (bs_blk s))) k])
                  (sources (bs_blk s)) (bs_blk s)) o i);
  bf_facts : ∀ s p k v o i, R s (mk_bs (set_facts p k v (bs_blk s)) o i);
  bf_cond : ∀ s c f t o i, R s (mk_bs (set_cond c f t (bs_blk s)) o i)
}.

(** One that does not look at the calls either. *)
Class OutFrame (R : relation bstate) : Prop := {
  of_frame :: BlockFrame R;
  of_out : ∀ s a l o i, R s (mk_bs (set_out a l (bs_blk s)) o i)
}.

#[global] Instance same_place_frame : OutFrame same_place.
Proof. split; [split; [apply _|done..]|done]. Qed.

Section block_ops.
Context (R : relation bstate) `{!BlockFrame R}.

#[export] Instance keeps_fresh : Keeps R fresh.
Proof using All. intros s a s' H. unfold fresh in H. simplify_eq. apply bf_quiet. Qed.
#[export] Instance keeps_new_ptr_id : Keeps R new_ptr_id.
Proof using All. intros s a s' H. unfold new_ptr_id in H. simplify_eq. apply bf_quiet. Qed.
Lemma keeps_upd_blk f : (∀ s, R s (mk_bs (f (bs_blk s)) (bs_oid s) (bs_id s))) →
  Keeps R (upd_blk f).
Proof. intros Hf s a s' H. unfold upd_blk, modify in H. simplify_eq. apply Hf. Qed.
#[export] Instance keeps_add_plain v : TCEq (is_func v) false → Keeps R (add_source v).
Proof using All. intros H. apply keeps_upd_blk. intros. apply bf_source. by rewrite H. Qed.
#[export] Instance keeps_emit_silent k : TCEq (silent k) true → Keeps R (emit k).
Proof using All. intros H. apply keeps_upd_blk. intros. apply bf_emit. by rewrite H. Qed.
#[export] Instance keeps_set_ptr_fact k f : Keeps R (set_ptr_fact k f).
Proof using All. apply keeps_upd_blk. intros. apply bf_facts. Qed.
#[export] Instance keeps_set_pkt_fact k f : Keeps R (set_pkt_fact k f).
Proof using All. apply keeps_upd_blk. intros. apply bf_facts. Qed.


#[export] Instance keeps_new_num n sz i : Keeps R (new_num n sz i).
Proof using All. unfold new_num. apply _. Qed.
#[export] Instance keeps_new_scalar sz i : Keeps R (new_scalar sz i).
Proof using All. unfold new_scalar. apply _. Qed.
#[export] Instance keeps_new_pkt_len sz b : Keeps R (new_pkt_len sz b).
Proof using All. unfold new_pkt_len. apply _. Qed.
#[export] Instance keeps_new_func f : Keeps R (new_func f).
Proof using All. unfold new_func. apply _. Qed.
#[export] Instance keeps_new_unary u : Keeps R (new_unary u).
Proof using All. unfold new_unary. apply _. Qed.
#[export] Instance keeps_new_binary op d r f sz i : Keeps R (new_binary op d r f sz i).
Proof using All. unfold new_binary. apply _. Qed.
#[export] Instance keeps_new_byteseq c sz f : Keeps R (new_byteseq c sz f).
Proof using All. unfold new_byteseq. apply _. Qed.
#[export] Instance keeps_new_hit m k i sz : Keeps R (new_hit m k i sz).
Proof using All. unfold new_hit. apply _. Qed.
#[export] Instance keeps_new_join b r v e : Keeps R (new_join b r v e).
Proof using All. unfold new_join. apply _. Qed.
(** What follows knows that the new value is a phi. *)
#[export] Instance keeps_bind_join {A} b r v e (k : val → ST bstate A) :
  (∀ o j, Keeps R (k (VJoin o j))) → Keeps R (mbind k (new_join b r v e)).
Proof using All.
  intros Hk s x s' HE. unfold new_join in HE. res_inv. transitivity s0; [by eapply keeps_fresh|by eapply Hk].
Qed.
#[export] Instance keeps_copy_ptr p : Keeps R (copy_ptr p).
Proof using All. unfold copy_ptr. apply _. Qed.
#[export] Instance keeps_new_PTR p : Keeps R (new_PTR p).
Proof using All. unfold new_PTR. apply _. Qed.


#[export] Instance keeps_imm64 i : Keeps R (imm64 i).
Proof using All. unfold imm64. apply _. Qed.
#[export] Instance keeps_expr_alu d r c sz br i off : Keeps R (expr_alu d r c sz br i off).
Proof using All. unfold expr_alu. keeps_auto. Qed.
#[export] Instance keeps_trunc32 v i : Keeps R (trunc32 v i).
Proof using All. unfold trunc32. keeps_auto. Qed.
#[export] Instance keeps_sext v b sz i : Keeps R (sext v b sz i).
Proof using All. unfold sext. keeps_auto. Qed.


#[export] Instance keeps_total_offset p : Keeps R (total_offset p).
Proof using All. unfold total_offset. apply _. Qed.
#[export] Instance keeps_with_view v b : Keeps R (_with_view v b).
Proof using All. unfold _with_view. keeps_auto. Qed.
#[export] Instance keeps_alu8 op d r : Keeps R (alu8 op d r).
Proof using All. unfold alu8, get_blk. apply _. Qed.
#[export] Instance keeps_stk_load a sz : Keeps R (stk_load a sz).
Proof using All. unfold stk_load, get_blk, const8. keeps_auto. Qed.
#[export] Instance keeps_source_plain br v : TCEq (is_func v) false → Keeps R (add_source_unless br v).
Proof using All. unfold add_source_unless. apply _. Qed.
#[export] Instance keeps_load i p off sz br : Keeps R (load i p off sz br).
Proof using All. unfold load, load_ctx, get_blk. keeps_auto. Qed.

(** ** Merging *)

#[export] Instance keeps_with_nullity o p n : Keeps R (_with_nullity o p n).
Proof using All. unfold _with_nullity. keeps_auto. Qed.
#[export] Instance keeps_nullity_value v : Keeps R (_nullity_value v).
Proof using All. unfold _nullity_value. keeps_auto. Qed.
#[export] Instance keeps_stamp p pe es r : Keeps R (_stamp_null_phi p pe es r).
Proof using All. unfold _stamp_null_phi, get_blk. keeps_auto. Qed.
#[export] Instance keeps_resolve c v : Keeps R (resolve_entry c v).
Proof using All. unfold resolve_entry, get_blk. keeps_auto. Qed.
#[export] Instance keeps_total_of v : Keeps R (total_of v).
Proof using All. unfold total_of. keeps_auto. Qed.
#[export] Instance keeps_keep_first o p n pe es r : Keeps R (keep_first o p n pe es r).
Proof using All. unfold keep_first. apply _. Qed.
#[export] Instance keeps_merge_pkt o p n pe es r : Keeps R (merge_pkt o p n pe es r).
Proof using All. unfold merge_pkt, get_blk. keeps_auto. Qed.
#[export] Instance keeps_merge_map o p n pe es r : Keeps R (merge_map_value o p n pe es r).
Proof using All. unfold merge_map_value, get_blk. keeps_auto. Qed.
#[export] Instance keeps_merge_other o p n pe es r : Keeps R (merge_other o p n pe es r).
Proof using All. unfold merge_other. keeps_auto. Qed.
#[export] Instance keeps_merge_pointers o p pe es r : Keeps R (merge_pointers o p pe es r).
Proof using All. unfold merge_pointers. keeps_auto. Qed.
#[export] Instance keeps_merge_scalars v pe es r : Keeps R (merge_scalars v pe es r).
Proof using All. unfold merge_scalars, get_blk. keeps_auto. Qed.
#[export] Instance keeps_merge_uniform pe es r : Keeps R (merge_uniform pe es r).
Proof using All. unfold merge_uniform. keeps_auto. Qed.
#[export] Instance keeps_merge_entry_f n pe es r cs : Keeps R (merge_entry_f n pe es r cs).
Proof using All. revert pe es cs. induction n; intros; simpl; keeps_auto. Qed.
#[export] Instance keeps_merge_entry pe es r cs : Keeps R (merge_entry pe es r cs).
Proof using All. unfold merge_entry. apply _. Qed.
End block_ops.

(** ** Registers, stack and calls *)

(** A relation that does not look at the abstract state either. *)
Class StoreFrame (R : relation bstate) : Prop := {
  sf_frame :: BlockFrame R;
  sf_store : ∀ s r k o i, R s (mk_bs (set_store r k (bs_blk s)) o i);
  sf_pending : ∀ s p o i, R s (mk_bs (set_pending p (bs_blk s)) o i);
  sf_tail : ∀ s c r o i, R s (mk_bs (set_tail c r (bs_blk s)) o i)
}.

(** One that looks at nothing that tracking changes. *)
Class FullFrame (R : relation bstate) : Prop := {
  ff_store :: StoreFrame R;
  ff_out :: OutFrame R;
  ff_idx : ∀ s n o i, R s (mk_bs (set_idx_ n (bs_blk s)) o i)
}.

#[global] Instance same_place_store : FullFrame same_place.
Proof. split; [split; [apply _|done..]|apply _|done]. Qed.

Section tracker_ops.
Context (R : relation bstate) `{!StoreFrame R}.

Lemma keeps_store f g : Keeps R (upd_blk (λ b, set_store (f b) (g b) b)).
Proof using All. apply keeps_upd_blk. intros. apply sf_store. Qed.
Lemma keeps_cond c f t : Keeps R (upd_blk (λ b, set_cond (c b) (f b) (t b) b)).
Proof using All. apply keeps_upd_blk. intros. apply bf_cond. Qed.
Lemma keeps_facts p k v : Keeps R (upd_blk (λ b, set_facts (p b) (k b) (v b) b)).
Proof using All. apply keeps_upd_blk. intros. apply bf_facts. Qed.
Lemma keeps_pending p : Keeps R (upd_blk (set_pending p)).
Proof using All. apply keeps_upd_blk. intros. apply sf_pending. Qed.
Lemma keeps_tail c r : Keeps R (upd_blk (set_tail c r)).
Proof using All. apply keeps_upd_blk. intros. apply sf_tail. Qed.

#[local] Hint Resolve keeps_store keeps_cond keeps_facts keeps_pending keeps_tail : typeclass_instances.

#[export] Instance keeps_set_reg r v : Keeps R (set_reg r v).
Proof using All. unfold set_reg, get_blk. keeps_auto. Qed.
#[export] Instance keeps_get_reg r : Keeps R (get_reg r).
Proof using All. unfold get_reg, get_blk. apply _. Qed.
#[export] Instance keeps_set_stk l : Keeps R (set_stk l).
Proof using All. apply (keeps_store regs (λ _, l)). Qed.
#[export] Instance keeps_cond_t c : Keeps R (set_cond_t c).
Proof using All. apply (keeps_cond cond cond_f (λ _, Some c)). Qed.
#[export] Instance keeps_cond_f c : Keeps R (set_cond_f c).
Proof using All. apply (keeps_cond cond (λ _, Some c) cond_t). Qed.
#[export] Instance keeps_branch_cond c : Keeps R (set_branch_cond c).
Proof using All. apply (keeps_cond (λ _, Some c) cond_f cond_t). Qed.
#[export] Instance keeps_ctx_view b : Keeps R (set_ctx_view b).
Proof using All.
  unfold set_ctx_view, get_blk. keeps_auto.
Qed.
#[export] Instance keeps_stk_store a sz v : Keeps R (stk_store a sz v).
Proof using All. unfold stk_store, const8, get_blk. keeps_auto. Qed.

#[export] Instance keeps_var_off_or_0 p : Keeps R (var_off_or_0 p).
Proof using All. unfold var_off_or_0. apply _. Qed.
#[export] Instance keeps_alu_pkt br i c p v : Keeps R (alu_pkt br i c p v).
Proof using All. unfold alu_pkt. keeps_auto. Qed.
#[export] Instance keeps_alu_other br i c p v : Keeps R (alu_other_ptr br i c p v).
Proof using All. unfold alu_other_ptr. keeps_auto. Qed.
#[export] Instance keeps_alu_ptr br i c d p v : Keeps R (alu_ptr br i c d p v).
Proof using All. unfold alu_ptr, alu_pkt_sub_pkt, alu_end_sub_pkt. keeps_auto. Qed.
#[export] Instance keeps_alu_unary br i c s m sz d : Keeps R (alu_unary br i c s m sz d).
Proof using All. unfold alu_unary. keeps_auto. Qed.
#[export] Instance keeps_track_alu t i : Keeps R (track_alu t i).
Proof using All. unfold track_alu, alu_value. keeps_auto. Qed.
#[export] Instance keeps_track_load t i : Keeps R (track_load t i).
Proof using All. unfold track_load, load_imm, load_mem. keeps_auto. Qed.
#[export] Instance keeps_track_store t i : Keeps R (track_store t i).
Proof using All.
  unfold track_store, store_mem, store_atomic, _atomic_stack. keeps_auto.
Qed.
#[export] Instance keeps_track_branch t i : Keeps R (track_branch t i).
Proof using All.
  unfold track_branch, branch_adjust, branch_test, branch_null, branch_pkt, branch_pkt_on, get_blk.
  keeps_auto.
Qed.
#[export] Instance keeps_clobber : Keeps R clobber.
Proof using All. unfold clobber. apply _. Qed.
#[export] Instance keeps_to_scalar i : Keeps R (to_scalar i).
Proof using All. unfold to_scalar. apply _. Qed.
#[export] Instance keeps_ptr_reg r : Keeps R (ptr_reg r).
Proof using All. unfold ptr_reg. keeps_auto. Qed.
#[export] Instance keeps_new_retval sz i f : Keeps R (new_retval sz i f).
Proof using All. unfold new_retval, get_blk. apply _. Qed.
#[export] Instance keeps_adjust_args : Keeps R adjust_args.
Proof using All. unfold adjust_args. keeps_auto. Qed.
#[export] Instance keeps_tail_region t i : Keeps R (_tail_region t i).
Proof using All. unfold _tail_region, get_blk. keeps_auto. Qed.
#[export] Instance keeps_set_pending p : Keeps R (upd_blk (set_pending p)).
Proof using All. apply _. Qed.
#[export] Instance keeps_set_tail c r : Keeps R (upd_blk (set_tail c r)).
Proof using All. apply _. Qed.
#[export] Instance keeps_call_update t i : Keeps R (call_update t i).
Proof using All. unfold call_update, get_blk. keeps_auto. Qed.
#[export] Instance keeps_call_delete t i : Keeps R (call_delete t i).
Proof using All. unfold call_delete, get_blk. keeps_auto. Qed.

(** Entering a block, once its outputs were reset. *)
Definition entry (t : tracker) (block_no : Z) : ST bstate unit :=
  b ← get_blk;
  if block_no =? 0 then init_state
  else if bool_decide (is_Some (prog_entry b)) then init_tail_entry (t_blocks t)
  else merge_predecessors (t_blocks t).
#[export] Instance keeps_entry t n : Keeps R (entry t n).
Proof using All.
  unfold entry, init_state, init_tail_entry, merge_predecessors, get_blk. keeps_auto.
Qed.
End tracker_ops.

(** ** Calls and whole blocks *)

Section out_ops.
Context (R : relation bstate) `{!OutFrame R}.

#[export] Instance keeps_add_source v : Keeps R (add_source v).
Proof using All. apply keeps_upd_blk. intros. apply of_out. Qed.
#[export] Instance keeps_emit k : Keeps R (emit k).
Proof using All. apply keeps_upd_blk. intros. apply of_out. Qed.
#[export] Instance keeps_source br v : Keeps R (add_source_unless br v).
Proof using All. unfold add_source_unless. apply _. Qed.
End out_ops.

Section full_ops.
Context (R : relation bstate) `{!FullFrame R}.

#[export] Instance keeps_call_tail t i : Keeps R (call_tail t i).
Proof using All. unfold call_tail. keeps_auto. Qed.
#[export] Instance keeps_call_helper t i f : Keeps R (call_helper t i f).
Proof using All.
  unfold call_helper, call_lookup, call_scalar, call_csum_diff, call_adjust_head, call_adjust_other,
    call_redirect, call_buff_len, get_blk. keeps_auto.
Qed.
#[export] Instance keeps_track_call t i : Keeps R (track_call t i).
Proof using All. unfold track_call. apply _. Qed.
#[export] Instance keeps_idx n : Keeps R (upd_blk (set_idx_ n)).
Proof using All. apply keeps_upd_blk. intros. apply ff_idx. Qed.
#[export] Instance keeps_track_instr t i : Keeps R (track_instr t i).
Proof using All. unfold track_instr. apply _. Qed.
#[export] Instance keeps_track_body t s e : Keeps R (track_body t s e).
Proof using All. unfold track_body. apply _. Qed.
#[export] Instance keeps_reset : Keeps R (upd_blk reset_block).
Proof using All.
  apply keeps_upd_blk. intros s. unfold reset_block. set (b := bs_blk s).
  transitivity (mk_bs (set_out [] [] b) (bs_oid s) (bs_id s)); [apply of_out|].
  set (b1 := set_out [] [] b). transitivity (mk_bs (set_cond None None None b1) (bs_oid s) (bs_id s));
    [apply (bf_cond (mk_bs b1 (bs_oid s) (bs_id s)))|].
  set (b2 := set_cond _ _ _ b1).
  transitivity (mk_bs (set_facts [] [] (pkt_base_id b) b2) (bs_oid s) (bs_id s));
    [apply (bf_facts (mk_bs b2 (bs_oid s) (bs_id s)))|].
  apply (sf_pending (mk_bs (set_facts [] [] (pkt_base_id b) b2) (bs_oid s) (bs_id s))).
Qed.
#[export] Instance keeps_enter t n : Keeps R (enter_block t n).
Proof using All. change (enter_block t n) with (upd_blk reset_block;; entry t n). apply _. Qed.
End full_ops.
