(* ===== verification/Identity.v ===== *)
(** The identities of a tracked program's values. A [store] is the heap of the
    interpreter: each identity names one object, older than the objects built from it.
    Every operation of a block and of the tracker, run with the values it works on in a
    store, leaves them and what it returns in a larger one ([Yields]); so in the blocks of
    a program two values with one identity are one value. *)

From stdpp Require Import relations.
From S2P Require Import Prelude Constants Instr Link Expr Record Denote Branch Encode Action Block Cfg.
From S2P Require Import Prune Worklist Dce Tracker Frame.

(** ** The values of the data *)

(** The values an object of [A] refers to. *)
Class Values (A : Type) := values : A → list val.
#[global] Hint Mode Values ! : typeclass_instances.

(** Most data refer to none. *)
#[export] Instance values_nothing A : Values A | 1000 := λ _, [].
#[export] Instance values_val : Values val := λ v, [v].
#[export] Instance values_ptr : Values (ptr_ val) := λ p, [p_var_off p; p_map_key p; p_null_phi p].
#[export] Instance values_list `{Values A} : Values (list A) := λ l, mjoin (map values l).
#[export] Instance values_option `{Values A} : Values (option A) := λ o, opt_values values o.
#[export] Instance values_prod `{Values A, Values B} : Values (A * B) := λ x, values x.1 ++ values x.2.
#[export] Instance values_action : Values action := action_values.
#[export] Instance values_action_kind : Values action_kind := λ k, action_values (mk_action 0 0 k).
#[export] Instance values_condition : Values condition := condition_values.
#[export] Instance values_edge_fact : Values edge_fact := edge_fact_values.
#[export] Instance values_ptr_fact : Values PtrFacts := λ f, [pf_ptr f].
#[export] Instance values_pkt_fact : Values PktFacts := λ f, [kf_ptr f].
#[export] Instance values_facts : Values facts := λ f, values (fs_ptr f) ++ values (fs_pkt f).
#[export] Instance values_block : Values Block := λ b,
  values (regs b) ++ values (stk b) ++ values (tail_ctx b) ++ values (actions b) ++ values (sources b)
  ++ values (cond b) ++ values (cond_f b) ++ values (cond_t b) ++ values (ptr_facts b) ++ values (pkt_ptr_facts b).

(** ** Stores *)

Definition consistent_store (h : gmap Z val) : Prop := ∀ o v, h !! o = Some v → oid v = o ∧ 0 < o ∧
  ∀ c, c ∈ _children v → is_none c = false → h !! oid c = Some c ∧ oid c < o.

Record store := mk_store { objects : gmap Z val; store_ok : consistent_store objects }.

#[global] Instance store_le : SqSubsetEq store := λ h h', objects h ⊆ objects h'.
#[global] Instance store_preorder : PreOrder (⊑@{store}).
Proof. split; [intros h; unfold sqsubseteq, store_le; done|]. intros h1 h2 h3. unfold sqsubseteq, store_le. by etransitivity. Qed.

(** [v] is an object of the store, or [None]. *)
Definition in_store (h : store) (v : val) : Prop := is_none v = false → objects h !! oid v = Some v.

(** All that [a] refers to is in the store. *)
Class Stored (h : store) {A} `{Values A} (a : A) : Prop := stored : Forall (in_store h) (values a).

Lemma stored_mono `{Values A} (h h' : store) (a : A) : h ⊑ h' → Stored h a → Stored h' a.
Proof.
  intros Hle Ha. eapply Forall_impl; [exact Ha|]. intros v Hv Hn. by eapply lookup_weaken; [apply Hv|].
Qed.

Lemma stored_in `{Values A} h (l : list A) : Stored h l ↔ ∀ x, x ∈ l → Stored h x.
Proof.
  unfold Stored. unfold values at 1, values_list. rewrite Forall_forall. setoid_rewrite Forall_forall. split.
  - intros Hl x Hx v Hv. apply Hl, list_elem_of_join. exists (values x). split; [done|]. by apply list_elem_of_fmap_2.
  - intros Hl v (l' & Hv & (x & -> & Hx)%list_elem_of_fmap)%list_elem_of_join. by apply (Hl x).
Qed.

Lemma stored_pair `{Values A, Values B} h (a : A) (b : B) : Stored h (a, b) ↔ Stored h a ∧ Stored h b.
Proof. unfold Stored. unfold values at 1, values_prod. apply Forall_app. Qed.

Lemma stored_val h v : Stored h v ↔ in_store h v.
Proof. exact (Forall_singleton (in_store h) v). Qed.

Lemma stored_head `{Values A} h (a : A) l : Stored h (a :: l) → Stored h a ∧ Stored h l.
Proof. rewrite !stored_in. intros Hl. split; [apply Hl; left|intros; apply Hl; by right]. Qed.

(** The parts of what is stored are. *)
Lemma stored_child h v c : is_none v = false → Stored h v → c ∈ _children v → Stored h c.
Proof.
  rewrite !stored_val. intros Hn Hv Hc Hcn.
  destruct (store_ok h _ _ (Hv Hn)) as (_ & _ & H). by destruct (H c Hc Hcn).
Qed.

(** *** What is stored *)

(** Data without values. *)
Class Inert (A : Type) `{Values A} : Prop := inert : ∀ a : A, values a = [].
#[export] Instance inert_nothing A : @Inert A (values_nothing A).
Proof. done. Qed.
#[export] Instance inert_list `{Inert A} : Inert (list A).
Proof. intros l. unfold values, values_list. induction l as [|a l IH]; [done|]. simpl. by rewrite IH, (inert a). Qed.
#[export] Instance inert_option `{Inert A} : Inert (option A).
Proof. intros [a|]; [exact (inert a)|done]. Qed.
#[export] Instance inert_prod `{Inert A, Inert B} : Inert (A * B).
Proof. intros [a b]. unfold values, values_prod. by rewrite (inert a), (inert b). Qed.

Section stored.
Context (h : store).

#[export] Instance stored_inert `{Inert A} (a : A) : Stored h a.
Proof. unfold Stored. by rewrite (inert a). Qed.
#[export] Instance stored_none : Stored h VNone.
Proof. by apply stored_val. Qed.
#[export] Instance stored_nil `{Values A} : Stored h (@nil A).
Proof. by apply Forall_nil. Qed.
#[export] Instance stored_cons `{Values A} (a : A) l : Stored h a → Stored h l → Stored h (a :: l).
Proof. rewrite !stored_in. intros ? Hl x [-> | Hx]%elem_of_cons; auto. Qed.
#[export] Instance stored_app `{Values A} (l k : list A) : Stored h l → Stored h k → Stored h (l ++ k).
Proof. rewrite !stored_in. intros ? ? x [Hx | Hx]%elem_of_app; auto. Qed.
#[export] Instance stored_replicate `{Values A} n (a : A) : Stored h a → Stored h (replicate n a).
Proof. rewrite stored_in. by intros ? x [-> _]%elem_of_replicate. Qed.
#[export] Instance stored_some `{Values A} (a : A) : Stored h a → Stored h (Some a).
Proof. done. Qed.
#[export] Instance stored_no `{Values A} : Stored h (@None A).
Proof. by apply Forall_nil. Qed.
#[export] Instance stored_if `{Values A} (b : bool) (x y : A) : Stored h x → Stored h y → Stored h (if b then x else y).
Proof. by destruct b. Qed.
#[export] Instance stored_both `{Values A, Values B} (a : A) (b : B) : Stored h a → Stored h b → Stored h (a, b).
Proof. rewrite stored_pair. auto. Qed.
#[export] Instance stored_zip `{Values A, Values B} (l : list A) (k : list B) : Stored h l → Stored h k → Stored h (zip l k).
Proof.
  rewrite !stored_in. intros Hl Hk [a b] Hx. apply stored_pair.
  split; [by eapply Hl, elem_of_zip_l|by eapply Hk, elem_of_zip_r].
Qed.
#[export] Instance stored_fst `{Values A, Values B} (x : A * B) : Stored h x → Stored h x.1.
Proof. destruct x. rewrite stored_pair. by intros []. Qed.
#[export] Instance stored_snd `{Values A, Values B} (x : A * B) : Stored h x → Stored h x.2.
Proof. destruct x. rewrite stored_pair. by intros []. Qed.
#[export] Instance stored_with_default `{Values A} (o : option A) a : Stored h o → Stored h a → Stored h (default a o).
Proof. by destruct o. Qed.
Lemma stored_map `{Values A, Values B} (f : A → B) l :
  (∀ a, Stored h a → Stored h (f a)) → Stored h l → Stored h (map f l).
Proof. rewrite !stored_in. intros Hf Hl x (a & -> & Ha)%list_elem_of_fmap. auto. Qed.
Lemma stored_tabulate {A} `{Values B} (f : A → B) l : (∀ a, Stored h (f a)) → Stored h (map f l).
Proof. intros Hf. apply stored_in. by intros x (a & -> & _)%list_elem_of_fmap. Qed.
#[export] Instance stored_nth `{Values A} i l (d : A) : Stored h l → Stored h d → Stored h (nth i l d).
Proof. rewrite stored_in. intros Hl Hd. destruct (nth_in_or_default i l d) as [Hx | ->]; [|done]. apply Hl. by apply list_elem_of_In. Qed.
Lemma stored_sub `{Values A} (l k : list A) : (∀ x, x ∈ k → x ∈ l) → Stored h l → Stored h k.
Proof. rewrite !stored_in. auto. Qed.
#[export] Instance stored_filter `{Values A} (P : A → Prop) `{∀ x, Decision (P x)} (l : list A) : Stored h l → Stored h (filter P l).
Proof. apply stored_sub. by intros x [_ Hx]%list_elem_of_filter. Qed.
#[export] Instance stored_snds `{Values A, Values B} (l : list (A * B)) : Stored h l → Stored h (l.*2).
Proof. apply stored_map. apply _. Qed.
#[export] Instance stored_nones `{Values A} {B} (l : list B) : Stored h (map (λ _, @None A) l).
Proof. apply stored_in. intros x (y & -> & _)%list_elem_of_fmap. apply _. Qed.
Lemma stored_index `{Values A} (l : list A) i a : Stored h l → py_index l i = Ok a → Stored h a.
Proof.
  intros Hl Ha. unfold py_index in Ha. cbv zeta in Ha. case_match; [done|].
  apply of_option_Ok, list_elem_of_lookup_2 in Ha. revert Ha. by apply stored_in.
Qed.
Lemma stored_setitem `{Values A} (l : list A) i x k : Stored h l → Stored h x → py_setitem l i x = Ok k → Stored h k.
Proof.
  intros Hl Hx Hk. unfold py_setitem in Hk. cbv zeta in Hk. case_match; [done|].
  injection Hk as <-. apply stored_in. intros y [j Hj]%list_elem_of_lookup.
  apply list_lookup_insert_Some in Hj as [(_ & <- & _) | [_ Hj]]; [done|].
  apply list_elem_of_lookup_2 in Hj. revert Hj. by apply stored_in.
Qed.
End stored.

(** *** Pointers and blocks *)

Section data.
Context (h : store).

Lemma stored_block b : Stored h b ↔ Stored h (regs b) ∧ Stored h (stk b) ∧ Stored h (tail_ctx b) ∧
  Stored h (actions b) ∧ Stored h (sources b) ∧ Stored h (cond b) ∧ Stored h (cond_f b) ∧ Stored h (cond_t b) ∧
  Stored h (ptr_facts b) ∧ Stored h (pkt_ptr_facts b).
Proof. unfold Stored. unfold values at 1, values_block. by rewrite !Forall_app. Qed.

Lemma stored_ptr_fields p : Stored h p ↔ Stored h (p_var_off p) ∧ Stored h (p_map_key p) ∧ Stored h (p_null_phi p).
Proof. rewrite !stored_val. unfold Stored. unfold values, values_ptr. by rewrite !Forall_cons, Forall_nil, (right_id True (∧)). Qed.

#[export] Instance stored_ptr o p : Stored h (VPtr o p) → Stored h p.
Proof.
  intros Hv. apply stored_ptr_fields. split_and!; apply (stored_child h (VPtr o p)); try done; simpl;
    rewrite !elem_of_cons; auto.
Qed.
#[export] Instance stored_var_off p : Stored h p → Stored h (p_var_off p).
Proof. rewrite stored_ptr_fields. tauto. Qed.
#[export] Instance stored_map_key p : Stored h p → Stored h (p_map_key p).
Proof. rewrite stored_ptr_fields. tauto. Qed.
#[export] Instance stored_null_phi p : Stored h p → Stored h (p_null_phi p).
Proof. rewrite stored_ptr_fields. tauto. Qed.

#[export] Instance stored_set_null n p : Stored h p → Stored h (set_null n p) := id.
#[export] Instance stored_set_id i p : Stored h p → Stored h (set_id i p) := id.
#[export] Instance stored_set_base i p : Stored h p → Stored h (set_base i p) := id.
#[export] Instance stored_set_off i p : Stored h p → Stored h (set_off i p) := id.
#[export] Instance stored_set_map i p : Stored h p → Stored h (set_map i p) := id.
#[export] Instance stored_set_bss i p : Stored h p → Stored h (set_bss_idx i p) := id.
#[export] Instance stored_set_rodata i d p : Stored h p → Stored h (set_rodata i d p) := id.
#[export] Instance stored_set_key k i p : Stored h p → Stored h k → Stored h (set_key k i p).
Proof. rewrite !stored_ptr_fields. simpl. tauto. Qed.
#[export] Instance stored_set_phi v p : Stored h p → Stored h v → Stored h (set_phi v p).
Proof. rewrite !stored_ptr_fields. simpl. tauto. Qed.
#[export] Instance stored_set_var v p : Stored h p → Stored h v → Stored h (set_var_off v p).
Proof. rewrite !stored_ptr_fields. simpl. tauto. Qed.
#[export] Instance stored_default t off v i base : Stored h v → Stored h (ptr_default t off v i base).
Proof. rewrite !stored_ptr_fields. simpl. intros. split_and!; [done|apply _..]. Qed.

Lemma stored_regs b : Stored h b → Stored h (regs b).
Proof. rewrite stored_block. tauto. Qed.
Lemma stored_stk b : Stored h b → Stored h (stk b).
Proof. rewrite stored_block. tauto. Qed.
Lemma stored_tail_ctx b : Stored h b → Stored h (tail_ctx b).
Proof. rewrite stored_block. tauto. Qed.
Lemma stored_ptr_facts b : Stored h b → Stored h (ptr_facts b).
Proof. rewrite stored_block. tauto. Qed.
Lemma stored_pkt_facts b : Stored h b → Stored h (pkt_ptr_facts b).
Proof. rewrite stored_block. tauto. Qed.
Lemma stored_actions b : Stored h b → Stored h (actions b).
Proof. rewrite stored_block. tauto. Qed.
Lemma stored_sources b : Stored h b → Stored h (sources b).
Proof. rewrite stored_block. tauto. Qed.
Lemma stored_cond b : Stored h b → Stored h (cond b).
Proof. rewrite stored_block. tauto. Qed.
Lemma stored_cond_f b : Stored h b → Stored h (cond_f b).
Proof. rewrite stored_block. tauto. Qed.
Lemma stored_cond_t b : Stored h b → Stored h (cond_t b).
Proof. rewrite stored_block. tauto. Qed.
#[export] Instance stored_action n i k : Stored h k → Stored h (mk_action n i k) := id.
#[export] Instance stored_ptr_fact i v n : Stored h v → Stored h (mk_ptrf i v n) := id.
#[export] Instance stored_pkt_fact i j v m n : Stored h v → Stored h (mk_pktf i j v m n) := id.
#[export] Instance stored_pf_ptr f : Stored h f → Stored h (pf_ptr f) := id.
#[export] Instance stored_kf_ptr f : Stored h f → Stored h (kf_ptr f) := id.
#[export] Instance stored_FPtr f : Stored h f → Stored h (FPtr f) := id.
#[export] Instance stored_FPkt f : Stored h f → Stored h (FPkt f) := id.
#[export] Instance stored_FAdjust f : Stored h (FAdjust f).
Proof. by apply Forall_nil. Qed.
Lemma stored_edge_cond b e : Stored h b → Stored h (edge_cond b e).
Proof. rewrite stored_block. destruct e; simpl; tauto. Qed.

Lemma stored_set_store b r k : Stored h b → Stored h r → Stored h k → Stored h (set_store r k b).
Proof. rewrite !stored_block. simpl. tauto. Qed.
Lemma stored_set_out b a k : Stored h b → Stored h a → Stored h k → Stored h (set_out a k b).
Proof. rewrite !stored_block. simpl. tauto. Qed.
Lemma stored_set_cond b c f t : Stored h b → Stored h c → Stored h f → Stored h t → Stored h (set_cond c f t b).
Proof. rewrite !stored_block. simpl. tauto. Qed.
Lemma stored_set_facts b p k v : Stored h b → Stored h p → Stored h k → Stored h (set_facts p k v b).
Proof. rewrite !stored_block. simpl. tauto. Qed.
Lemma stored_set_tail b c r : Stored h b → Stored h c → Stored h (set_tail c r b).
Proof. rewrite !stored_block. simpl. tauto. Qed.
Lemma stored_set_pending b p : Stored h b → Stored h (set_pending p b).
Proof. by rewrite !stored_block. Qed.
Lemma stored_set_idx b i : Stored h b → Stored h (set_idx_ i b).
Proof. by rewrite !stored_block. Qed.

Lemma stored_pset `{Values V} (d : list (option Z * V)) k v : Stored h d → Stored h v → Stored h (pset d k v).
Proof.
  induction d as [|[k' v'] d IH]; simpl; intros Hd Hv; [apply _|].
  pose proof (proj1 (stored_in h _) Hd) as Hd'. assert (Stored h d) by (apply stored_in; intros; apply Hd'; by right).
  destruct (decide (k = k')); [apply _|]. apply stored_cons; [apply Hd'; left|auto].
Qed.
End data.

#[export] Hint Resolve stored_regs stored_stk stored_tail_ctx stored_ptr_facts stored_pkt_facts stored_edge_cond
  stored_actions stored_sources stored_cond stored_cond_f stored_cond_t
  stored_set_store stored_set_out stored_set_cond stored_set_facts stored_set_tail stored_set_pending stored_set_idx
  stored_pset : typeclass_instances.

(** ** Runs *)

(** The state of a run: its block is stored, and the next identity is free. *)
Record sound (h : store) (s : bstate) : Prop := {
  sound_pos : 0 < bs_oid s;
  sound_next : ∀ o v, objects h !! o = Some v → o < bs_oid s;
  sound_blk : Stored h (bs_blk s)
}.

(** From a state in [h], a run ends in a state and with a result in a larger store. *)
Class Yields (h : store) {A} `{Values A} (m : ST bstate A) : Prop := yields : ∀ s a s', sound h s →
  m s = Ok (a, s') → ∃ h', h ⊑ h' ∧ sound h' s' ∧ Stored h' a.
#[global] Hint Mode Yields + + + + : typeclass_instances.

Section rules.
Context (h : store).

#[export] Instance yields_ret `{Values A} (a : A) : Stored h a → Yields h (mret a).
Proof. intros Ha s b s' Hs HE. res_inv. by exists h. Qed.
#[export] Instance yields_raise `{Values A} e : Yields h (raise (A := A) e).
Proof. intros s b s' Hs HE. res_inv. Qed.
Lemma yields_lift `{Values A} (r : res A) : (∀ a, r = Ok a → Stored h a) → Yields h (lift r).
Proof. intros Ha s b s' Hs HE. res_inv. exists h. auto. Qed.
#[export] Instance yields_lift_inert `{Inert A} (r : res A) : Yields h (lift r).
Proof. apply yields_lift. apply _. Qed.
#[export] Instance yields_lift_index `{Values A} (l : list A) i : Stored h l → Yields h (lift (py_index l i)).
Proof. intros Hl. apply yields_lift. intros a. by apply stored_index. Qed.
#[export] Instance yields_lift_setitem `{Values A} (l : list A) i x :
  Stored h l → Stored h x → Yields h (lift (py_setitem l i x)).
Proof. intros Hl Hx. apply yields_lift. intros k. by apply stored_setitem. Qed.

Lemma yields_bind `{Values A, Values B} (m : ST bstate A) (k : A → ST bstate B) :
  Yields h m → (∀ h' a, h ⊑ h' → Stored h' a → Yields h' (k a)) → Yields h (mbind k m).
Proof.
  intros Hm Hk s b s' Hs HE. apply ST_bind_Ok in HE as (a & s1 & H1 & H2).
  destruct (Hm _ _ _ Hs H1) as (h1 & Hle & Hs1 & Ha). destruct (Hk h1 a Hle Ha _ _ _ Hs1 H2) as (h2 & Hle2 & ? & ?).
  exists h2. split_and!; [by etransitivity|done..].
Qed.

#[export] Instance yields_get_blk : Yields h get_blk.
Proof. intros s b s' Hs HE. unfold get_blk in HE. res_inv. exists h. split_and!; [done|done|apply Hs]. Qed.
#[export] Instance yields_new_ptr_id : Yields h new_ptr_id.
Proof. intros s b s' [] HE. unfold new_ptr_id in HE. simplify_eq. exists h. split_and!; [done|done|apply _]. Qed.
Lemma yields_upd f : (∀ b, Stored h b → Stored h (f b)) → Yields h (upd_blk f).
Proof.
  intros Hf s b s' [] HE. unfold upd_blk, modify in HE. simplify_eq. exists h. split_and!; [done| |apply _].
  split; [done..|by apply Hf].
Qed.

(** An object built from what is stored is stored from now on. *)
Lemma yields_new `{Values A} (mk : Z → val) (k : Z → ST bstate A) :
  (∀ o, oid (mk o) = o) → (∀ o, is_none (mk o) = false) → (∀ o, Stored h (_children (mk o))) →
  (∀ h' o, h ⊑ h' → Stored h' (mk o) → Yields h' (k o)) → Yields h (mbind k fresh).
Proof.
  intros Ho Hn Hc Hk s a s' [Hpos Hnext Hblk] HE. apply ST_bind_Ok in HE as (o & s1 & [= <- <-] & HE). simpl in HE.
  set (o := bs_oid s) in *.
  assert (objects h !! o = None) as Hfree.
  { destruct (objects h !! o) as [v|] eqn:E; [|done]. apply Hnext in E. unfold o in E. lia. }
  assert (consistent_store (<[o := mk o]> (objects h))) as Hok.
  { intros o' v [[<- <-] | [Hne Hv]]%lookup_insert_Some.
    - split; [done|]. split; [done|]. intros c Hin Hcn. pose proof (proj1 (stored_in _ _) (Hc o) c Hin) as Hs%stored_val.
      specialize (Hs Hcn). pose proof (Hnext _ _ Hs) as Hlt. split; [|done]. rewrite lookup_insert_ne; [done|unfold o; lia].
    - destruct (store_ok h _ _ Hv) as (Hov & Hp & Hch). split; [done|]. split; [done|]. intros c Hin Hcn. destruct (Hch c Hin Hcn) as [Hs Hlt].
      split; [|done]. rewrite lookup_insert_ne; [done|]. intros E. rewrite <- E, Hfree in Hs. done. }
  assert (h ⊑ mk_store _ Hok) as Hle by by apply insert_subseteq.
  destruct (Hk (mk_store _ Hok) o Hle) with (s := mk_bs (bs_blk s) (o + 1) (bs_id s)) (a := a) (s' := s')
    as (h' & Hle' & Hs' & Ha); [| |done|].
  - apply stored_val. intros _. simpl. by rewrite Ho, lookup_insert_eq.
  - split; simpl; [unfold o; lia| |by eapply stored_mono].
    intros o' v [[<- _] | [_ Hv%Hnext]]%lookup_insert_Some; unfold o in *; lia.
  - exists h'. split_and!; [by etransitivity|done..].
Qed.
End rules.

Lemma yields_mapST `{Values A, Values B} h (f : A → ST bstate B) l :
  Stored h l → (∀ h' a, h ⊑ h' → Stored h' a → Yields h' (f a)) → Yields h (mapST f l).
Proof.
  revert h. induction l as [|a l IH]; intros h Hl Hf; simpl; [apply _|].
  pose proof (proj1 (stored_in h _) Hl) as Hin. apply (yields_bind h (f a)).
  { apply Hf; [done|]. apply Hin. left. }
  intros h1 b H1 Hb. apply (yields_bind h1 (mapST f l)).
  { apply IH; [|intros h2 x H2 Hx; apply Hf; [by etransitivity|done]].
    apply stored_in. intros x Hx. eapply (stored_mono h); [exact H1|]. apply Hin. by right. }
  intros h2 bs H2 Hbs. apply yields_ret, stored_cons; [by eapply (stored_mono h1)|done].
Qed.

(** What is known of the store is known of a larger one. *)
Ltac carry h h' Hle :=
  repeat match goal with H : Stored h ?x |- _ => apply (stored_mono h h' x Hle) in H end;
  clear Hle; try clear h.
Ltac grow := let h := fresh "h" in let H := fresh "Hle" in intros h ? H ?; match type of H with ?h0 ⊑ _ => carry h0 h H end.

Ltac yields_step :=
  first
    [ apply _
    | match goal with
      | H : Stored _ (_, _) |- _ => apply stored_pair in H as [? ?]
      | H : Stored _ (_ :: _) |- _ => apply stored_head in H as [? ?]
      | H : Stored ?h (Some ?a) |- _ => change (Stored h a) in H
      | |- ∀ h' _, _ ⊑ h' → _ => grow
      | |- ∀ _, _ => intro
      | |- Yields _ (mbind (λ o, mret (@?mk o)) fresh) =>
          apply (yields_new _ mk); [reflexivity|reflexivity|intro; cbn [_children]; apply _|grow]
      | |- Yields _ (mbind (λ o, mbind (λ _, mret (@?mk o)) _) fresh) =>
          apply (yields_new _ mk); [reflexivity|reflexivity|intro; cbn [_children]; apply _|grow]
      | |- Yields _ (mbind _ fresh) => fail 1
      | |- Yields ?h (mbind ?k ?m) => apply (yields_bind h m k)
      | |- Yields ?h (mapST ?f ?l) => apply (yields_mapST h f l); [apply _|]
      | |- Yields ?h (match ?x with _ => _ end) =>
          first [ is_var x; destruct x
                | match type of x with bool => destruct x end
                | let H := fresh in assert (Stored h x) as H by apply _; destruct x
                | destruct x ]
      end
    | progress cbv zeta ].
Ltac yields_auto := repeat yields_step.

(** ** The operations of a block *)

#[export] Instance yields_new_num h n sz i : Yields h (new_num n sz i).
Proof. unfold new_num. yields_auto. Qed.
#[export] Instance yields_new_scalar h sz i : Yields h (new_scalar sz i).
Proof. unfold new_scalar. yields_auto. Qed.
#[export] Instance yields_new_pkt_len h sz b : Yields h (new_pkt_len sz b).
Proof. unfold new_pkt_len. yields_auto. Qed.
#[export] Instance yields_new_func h f : Stored h (fr_map_key f) → Yields h (new_func f).
Proof. intros. unfold new_func. yields_auto. Qed.
#[export] Instance yields_new_unary h u : Stored h (u_dst u) → Yields h (new_unary u).
Proof. intros. unfold new_unary. yields_auto. Qed.
#[export] Instance yields_new_binary h op d r f sz i : Stored h d → Stored h r → Yields h (new_binary op d r f sz i).
Proof. intros. unfold new_binary. yields_auto. Qed.
#[export] Instance yields_new_byteseq h c sz f : Stored h c → Yields h (new_byteseq c sz f).
Proof. intros. unfold new_byteseq. yields_auto. Qed.
#[export] Instance yields_new_hit h m k i sz : Stored h k → Yields h (new_hit m k i sz).
Proof. intros. unfold new_hit. yields_auto. Qed.
#[export] Instance yields_new_join h b r v e : Stored h v → Yields h (new_join b r v e).
Proof. intros. unfold new_join. yields_auto. Qed.
#[export] Instance yields_copy_ptr h p : Stored h p → Yields h (copy_ptr p).
Proof. intros. unfold copy_ptr. yields_auto. Qed.
#[export] Instance yields_new_PTR h p : Stored h p → Yields h (new_PTR p).
Proof. intros. unfold new_PTR. yields_auto. Qed.

#[export] Instance yields_imm64 h i : Yields h (imm64 i).
Proof. unfold imm64. apply _. Qed.
#[export] Instance yields_expr_alu h d r c sz br i off : Stored h d → Stored h r → Yields h (expr_alu d r c sz br i off).
Proof. intros. unfold expr_alu. yields_auto. Qed.
#[export] Instance yields_trunc32 h v i : Stored h v → Yields h (trunc32 v i).
Proof. intros. unfold trunc32. yields_auto. Qed.
#[export] Instance yields_sext h v b sz i : Stored h v → Yields h (sext v b sz i).
Proof. intros. unfold sext. yields_auto. Qed.
#[export] Instance yields_total_offset h p : Stored h p → Yields h (total_offset p).
Proof. intros. unfold total_offset. yields_auto. Qed.
#[export] Instance yields_with_view h v b : Stored h v → Yields h (_with_view v b).
Proof. intros. unfold _with_view. yields_auto. Qed.
#[export] Instance yields_alu8 h op d r : Stored h d → Stored h r → Yields h (alu8 op d r).
Proof. intros. unfold alu8. yields_auto. Qed.

#[export] Hint Extern 2 (Yields _ (upd_blk _)) => apply yields_upd; intros ? ?; cbv beta; apply _ : typeclass_instances.

#[export] Instance yields_add_source h v : Stored h v → Yields h (add_source v).
Proof. intros. unfold add_source. apply _. Qed.
#[export] Instance yields_add_source_unless h br v : Stored h v → Yields h (add_source_unless br v).
Proof. intros. unfold add_source_unless. yields_auto. Qed.
#[export] Instance yields_emit h k : Stored h k → Yields h (emit k).
Proof. intros. unfold emit. apply _. Qed.
#[export] Instance yields_set_ptr_fact h k f : Stored h f → Yields h (set_ptr_fact k f).
Proof. intros. unfold set_ptr_fact. apply _. Qed.
#[export] Instance yields_set_pkt_fact h k f : Stored h f → Yields h (set_pkt_fact k f).
Proof. intros. unfold set_pkt_fact. apply _. Qed.
#[export] Instance yields_get_reg h r : Yields h (get_reg r).
Proof. unfold get_reg. yields_auto. Qed.
#[export] Instance yields_set_reg h r v : Stored h v → Yields h (set_reg r v).
Proof. intros. unfold set_reg. yields_auto. Qed.
#[export] Instance yields_set_stk h l : Stored h l → Yields h (set_stk l).
Proof. intros. unfold set_stk. apply _. Qed.

(** *** Merging *)

(** Grouping the entries of a phi adds none. *)
Lemma group_fold {A} (same : A → A → bool) l vs es x :
  x ∈ (fold_left (group_step same) l (vs, es)).1 → x ∈ vs ∨ x ∈ map snd l.
Proof.
  revert vs es. induction l as [|[e y] l IH]; intros vs es; simpl; [by left|].
  destruct (find_index same vs y); intros [Hx | Hx]%IH; rewrite ?elem_of_cons; auto.
  apply elem_of_app in Hx as [? | ->%list_elem_of_singleton]; auto.
Qed.

#[export] Instance stored_group `{Values A} h (same : A → A → bool) pe l : Stored h l → Stored h (group_edges same pe l).
Proof.
  intros Hl. unfold group_edges. destruct (fold_left _ _ _) as [vs es] eqn:E. apply stored_both; [|apply _].
  apply (stored_sub h l); [|done]. intros x Hx.
  assert (x ∈ (fold_left (group_step same) (zip pe l) ([], [])).1) as [?%elem_of_nil | Hs]%group_fold by (by rewrite E); [done|].
  apply list_elem_of_fmap in Hs as ([e y] & -> & Hy). by eapply elem_of_zip_r.
Qed.

#[export] Instance stored_ptrs_of h l : Stored h l → Stored h (ptrs_of l).
Proof.
  rewrite !stored_in. intros Hl p (v & Hv & Hp)%list_elem_of_omap. destruct v; simplify_eq. eapply stored_ptr. by apply Hl.
Qed.
#[export] Instance stored_keys h (l : list (ptr_ val)) : Stored h l → Stored h (map p_map_key l).
Proof. apply stored_map. apply _. Qed.

#[export] Instance yields_with_nullity h o p n : Stored h (VPtr o p) → Yields h (_with_nullity o p n).
Proof. intros. unfold _with_nullity. yields_auto. Qed.
#[export] Instance yields_nullity_value h v : Stored h v → Yields h (_nullity_value v).
Proof. intros. unfold _nullity_value. yields_auto. Qed.
#[export] Instance yields_stamp h p pe es r : Stored h p → Stored h es → Yields h (_stamp_null_phi p pe es r).
Proof. intros. unfold _stamp_null_phi. yields_auto. Qed.
#[export] Instance yields_resolve h c v : Stored h v → Yields h (resolve_entry c v).
Proof. intros. unfold resolve_entry. yields_auto. Qed.
#[export] Instance yields_total_of h v : Stored h v → Yields h (total_of v).
Proof. intros. unfold total_of. yields_auto. Qed.
#[export] Instance yields_keep_first h o p n pe es r : Stored h (VPtr o p) → Stored h es → Yields h (keep_first o p n pe es r).
Proof. intros. unfold keep_first. yields_auto. Qed.
#[export] Instance yields_merge_pkt h o p n pe es r : Stored h (VPtr o p) → Stored h es → Yields h (merge_pkt o p n pe es r).
Proof. intros. unfold merge_pkt. yields_auto. Qed.
#[export] Instance yields_merge_map h o p n pe es r : Stored h (VPtr o p) → Stored h es →
  Yields h (merge_map_value o p n pe es r).
Proof. intros. unfold merge_map_value. yields_auto. Qed.
#[export] Instance yields_merge_other h o p n pe es r : Stored h (VPtr o p) → Stored h es → Yields h (merge_other o p n pe es r).
Proof. intros. unfold merge_other. yields_auto. Qed.
#[export] Instance yields_merge_pointers h o p pe es r : Stored h (VPtr o p) → Stored h es →
  Yields h (merge_pointers o p pe es r).
Proof. intros. unfold merge_pointers. yields_auto. Qed.
#[export] Instance yields_merge_scalars h v pe es r : Stored h v → Stored h es → Yields h (merge_scalars v pe es r).
Proof. intros. unfold merge_scalars. yields_auto. Qed.
#[export] Instance yields_merge_uniform h pe es r : Stored h es → Yields h (merge_uniform pe es r).
Proof. intros. unfold merge_uniform. yields_auto. Qed.

(** A pointer that takes its identity before its number. *)
Lemma yields_numbered `{Values A} h p (k : Z → Z → ST bstate A) : Stored h p →
  (∀ h' o i, h ⊑ h' → Stored h' (VPtr o (set_id i p)) → Yields h' (k o i)) →
  Yields h (o ← fresh; i ← new_ptr_id; k o i).
Proof.
  intros Hp Hk. assert (Yields h (i ← new_ptr_id; o ← fresh; k o i)) as Hy.
  { apply (yields_bind h new_ptr_id); [apply _|]. intros h1 i H1 _. apply (stored_mono h h1 p H1) in Hp.
    apply (yields_new h1 (λ o, VPtr o (set_id i p))); [done..| |].
    - intros o. cbn [_children]. apply _.
    - intros h2 o H2 Hv. apply Hk; [by etransitivity|done]. }
  intros s a s' Hs HE. by apply (Hy s a s').
Qed.

#[export] Instance yields_merge_entry_f h n pe es r cs : Stored h es → Stored h cs → Yields h (merge_entry_f n pe es r cs).
Proof.
  revert h pe es cs. induction n as [|n IH]; intros h pe es cs He Hc; cbn [merge_entry_f]; yields_auto.
  apply (yields_numbered h (set_null None p)); [apply _|]. intros h' o' i Hle Hv. carry h h' Hle. yields_auto.
Qed.
#[export] Instance yields_merge_entry h pe es r cs : Stored h es → Stored h cs → Yields h (merge_entry pe es r cs).
Proof. intros. unfold merge_entry. apply _. Qed.

#[export] Instance yields_stk_load h a sz : Yields h (stk_load a sz).
Proof. unfold stk_load, const8. yields_auto. apply yields_new_byteseq, stored_tabulate. intros. apply _. Qed.
#[export] Instance yields_stk_store h a sz v : Stored h v → Yields h (stk_store a sz v).
Proof. intros. unfold stk_store, const8. yields_auto. Qed.

(** *** The facts of the predecessors *)

Lemma stored_foldR {A B} `{Values B} h (g : B → A → res B) b l b' :
  (∀ b a b', a ∈ l → Stored h b → g b a = Ok b' → Stored h b') → Stored h b → foldR g b l = Ok b' → Stored h b'.
Proof.
  intros Hg. revert b. induction l as [|a l IH]; intros b Hb HE; simpl in HE; res_inv; [done|].
  eapply IH; [intros; eapply Hg; [by right|..]; done| |done]. eapply Hg; [left|..]; done.
Qed.

Lemma stored_mapR {A} `{Values B} h (f : A → res B) l l' : (∀ a b, a ∈ l → f a = Ok b → Stored h b) →
  mapR f l = Ok l' → Stored h l'.
Proof.
  revert l'. induction l as [|a l IH]; intros l' Hf HE; simpl in HE; res_inv; [apply _|].
  apply stored_cons; [by eapply Hf; [left|]|]. apply IH; [|done]. intros. eapply Hf; [by right|done].
Qed.

Lemma stored_merge_ptr h c acc kf acc' : Stored h c → Stored h acc → Stored h kf →
  merge_ptr_fact c acc kf = Ok acc' → Stored h acc'.
Proof.
  destruct kf as [k f]. intros Hc Ha [_ Hf]%stored_pair HE. unfold merge_ptr_fact in HE. res_inv.
  assert (Stored h v). { destruct (bool_decide _); [destruct c as [[g| |]|]|]; res_inv; done. }
  destruct (pget acc k) as [have|]; [case_match|]; res_inv; [done|apply _..].
Qed.

Lemma stored_merge_pkt h c base acc kf acc' : Stored h c → Stored h acc → Stored h kf →
  merge_pkt_fact c base acc kf = Ok acc' → Stored h acc'.
Proof.
  destruct kf as [k f]. intros Hc Ha [_ Hf]%stored_pair HE. unfold merge_pkt_fact in HE.
  destruct (cond_pkt_ids c) as [cb cid]. res_inv.
  assert (Stored h v). { destruct (_ && _); [destruct c as [[|g|]|]|]; res_inv; done. }
  destruct (pget acc k) as [have|]; res_inv; apply _.
Qed.

Lemma stored_merge_facts h init ps fs : Stored h init → Stored h ps → merge_facts init ps = Ok fs → Stored h fs.
Proof.
  intros Hi Hps. unfold merge_facts. apply stored_foldR; [|done].
  intros acc [i [pb c]] acc' Hin Ha HE.
  assert (Stored h (pb, c)) as [Hb Hc]%stored_pair.
  { apply (proj1 (stored_in h _) Hps). apply elem_of_lookup_imap in Hin as (? & ? & [= _ <-] & Hl).
    by eapply list_elem_of_lookup_2. }
  assert (Stored h (fs_ptr acc) ∧ Stored h (fs_pkt acc)) as [Hp Hk] by (by apply Forall_app).
  unfold merge_facts_of in HE. apply bind_Ok in HE as (ptr & Hptr & HE).
  assert (Stored h ptr).
  { revert Hptr. apply stored_foldR; [|done]. intros b kf b' Hkf Hsb. apply (stored_merge_ptr h); [done..|].
    by apply (proj1 (stored_in h _) (stored_ptr_facts h pb Hb)). }
  assert (∀ x y z, Stored h x → Stored h y → Stored h (mk_facts x y z)) as Hmk by (intros; by apply Forall_app).
  destruct i as [|i].
  - injection HE as <-. apply Hmk; [done|]. pose proof (stored_pkt_facts h pb Hb) as Hpk. revert Hk Hpk. clear.
    generalize (fs_pkt acc). induction (pkt_ptr_facts pb) as [|[k v] l IH]; intros d Hd Hl; [done|]. simpl.
    pose proof (proj1 (stored_in h _) Hl) as Hin. apply IH; [|apply stored_in; intros; apply Hin; by right].
    apply stored_pset; [done|]. destruct (proj1 (stored_pair h k v) (Hin (k, v) ltac:(left))). done.
  - destruct (bool_decide _); [|injection HE as <-; apply Hmk; [done|apply _]].
    apply bind_Ok in HE as (pkt & Hpkt & [= <-]). apply Hmk; [done|]. revert Hpkt.
    apply stored_foldR; [|done]. intros b kf b' Hkf Hsb. apply (stored_merge_pkt h); [done..|].
    by apply (proj1 (stored_in h _) (stored_pkt_facts h pb Hb)).
Qed.

#[export] Instance yields_blocks_at h blocks l : Stored h blocks → Yields h (lift (mapR (py_index (A := Block) blocks) l)).
Proof. intros Hb. apply yields_lift. intros bs. apply stored_mapR. intros i b _. by apply stored_index. Qed.
#[export] Instance yields_each_block h (f : Block → list val) bs i : Stored h bs → (∀ b, Stored h b → Stored h (f b)) →
  Yields h (lift (mapR (λ b, py_index (f b) i) bs)).
Proof.
  intros Hb Hf. apply yields_lift. intros vs. apply stored_mapR. intros b v Hin. apply stored_index, Hf.
  by apply (proj1 (stored_in h _) Hb).
Qed.
#[export] Instance stored_edge_conds h bs (es : list pred_edge) : Stored h bs →
  Stored h (zip_with (λ pb e, edge_cond pb e.2) bs es).
Proof.
  intros Hb. apply stored_in. intros c (b & e & -> & Hin & _)%elem_of_zip_with. apply stored_edge_cond.
  by apply (proj1 (stored_in h _) Hb).
Qed.
#[export] Instance yields_merge_facts h init ps : Stored h init → Stored h ps → Yields h (lift (merge_facts init ps)).
Proof. intros Hi Hps. apply yields_lift. intros fs. by apply stored_merge_facts. Qed.
#[export] Instance stored_mk_facts h x y z : Stored h x → Stored h y → Stored h (mk_facts x y z).
Proof. intros. by apply Forall_app. Qed.
#[export] Instance stored_fs_ptr h f : Stored h f → Stored h (fs_ptr f).
Proof. by intros [? _]%Forall_app. Qed.
#[export] Instance stored_fs_pkt h f : Stored h f → Stored h (fs_pkt f).
Proof. by intros [_ ?]%Forall_app. Qed.

#[export] Instance stored_tail_ctxs h l : Stored h l → Stored h (map tail_ctx l).
Proof. apply stored_map. apply _. Qed.

#[export] Instance yields_merge_predecessors h blocks : Stored h blocks → Yields h (merge_predecessors blocks).
Proof. intros. unfold merge_predecessors, pred_reg. yields_auto. Qed.

#[export] Instance yields_init_state h : Yields h init_state.
Proof. unfold init_state. yields_auto. Qed.
#[export] Instance yields_init_tail_entry h blocks : Stored h blocks → Yields h (init_tail_entry blocks).
Proof. intros. unfold init_tail_entry. yields_auto. Qed.
#[export] Instance yields_set_ctx_view h b : Yields h (set_ctx_view b).
Proof. unfold set_ctx_view. yields_auto. Qed.

(** ** The tracker *)

Lemma stored_vals h (l : list val) : Stored h l ↔ Forall (in_store h) l.
Proof. rewrite stored_in, Forall_forall. by setoid_rewrite stored_val. Qed.
Lemma stored_kind h k : Stored h (action_values (mk_action 0 0 k)) → Stored h k.
Proof. by rewrite stored_vals. Qed.
Lemma stored_condition h c : Stored h (condition_values c) → Stored h c.
Proof. by rewrite stored_vals. Qed.
#[export] Hint Extern 2 (Stored _ (_ : action_kind)) => apply stored_kind; cbn [action_values a_kind]; apply _ : typeclass_instances.
#[export] Hint Extern 2 (Stored _ (_ : condition)) => apply stored_condition; cbn [condition_values]; apply _ : typeclass_instances.

#[export] Instance yields_load h i p off sz br : Stored h p → Yields h (load i p off sz br).
Proof. intros. unfold load, load_ctx. yields_auto. Qed.
#[export] Instance yields_var_off_or_0 h p : Stored h p → Yields h (var_off_or_0 p).
Proof. intros. unfold var_off_or_0. yields_auto. Qed.
#[export] Instance yields_alu_pkt h br i c p v : Stored h p → Stored h v → Yields h (alu_pkt br i c p v).
Proof. intros. unfold alu_pkt. yields_auto. Qed.
#[export] Instance yields_alu_other h br i c p v : Stored h p → Stored h v → Yields h (alu_other_ptr br i c p v).
Proof. intros. unfold alu_other_ptr. yields_auto. Qed.
#[export] Instance yields_alu_ptr h br i c d p v : Stored h d → Stored h p → Stored h v → Yields h (alu_ptr br i c d p v).
Proof. intros. unfold alu_ptr, alu_pkt_sub_pkt, alu_end_sub_pkt. yields_auto. Qed.
#[export] Instance yields_alu_unary h br i c s m sz d : Stored h d → Yields h (alu_unary br i c s m sz d).
Proof. intros. unfold alu_unary. yields_auto. Qed.
#[export] Instance yields_track_alu h t i : Yields h (track_alu t i).
Proof. unfold track_alu, alu_value. yields_auto. Qed.
#[export] Instance yields_track_load h t i : Yields h (track_load t i).
Proof. unfold track_load, load_imm, load_mem. yields_auto. Qed.
#[export] Instance yields_track_store h t i : Yields h (track_store t i).
Proof. unfold track_store, store_mem, store_atomic, _atomic_stack. yields_auto. Qed.
#[export] Instance yields_set_cond_t h c : Stored h c → Yields h (set_cond_t c).
Proof. intros. unfold set_cond_t. apply _. Qed.
#[export] Instance yields_set_cond_f h c : Stored h c → Yields h (set_cond_f c).
Proof. intros. unfold set_cond_f. apply _. Qed.
#[export] Instance yields_branch_cond h c : Stored h c → Yields h (set_branch_cond c).
Proof. intros. unfold set_branch_cond. apply _. Qed.
#[export] Instance yields_branch_adjust h br i ok : Yields h (branch_adjust br i ok).
Proof. unfold branch_adjust. yields_auto. Qed.
#[export] Instance yields_branch_null h br c d p s : Stored h d → Stored h p → Yields h (branch_null br c d p s).
Proof. intros. unfold branch_null. yields_auto. Qed.
#[export] Instance yields_branch_pkt h c p q : Stored h p → Stored h q → Yields h (branch_pkt c p q).
Proof. intros. unfold branch_pkt, branch_pkt_on. yields_auto. Qed.
#[export] Instance stored_orient h c d s : Stored h d → Stored h s → Stored h (orient c d s).
Proof. intros. unfold orient. repeat (case_match; try apply _). Qed.
#[export] Instance stored_size_check h d s : Stored h d → Stored h s → Stored h (pkt_size_check d s).
Proof. intros. unfold pkt_size_check. repeat (case_match; try apply _). Qed.
#[export] Instance yields_branch_test h br c d s j : Stored h d → Stored h s → Yields h (branch_test br c d s j).
Proof. intros. unfold branch_test. yields_auto. Qed.
#[export] Instance yields_track_branch h t i : Yields h (track_branch t i).
Proof. unfold track_branch. yields_auto. Qed.

#[export] Instance yields_to_scalar h i : Yields h (to_scalar i).
Proof. unfold to_scalar. yields_auto. Qed.
#[export] Instance yields_new_retval h sz i f : Yields h (new_retval sz i f).
Proof. unfold new_retval. yields_auto. Qed.
#[export] Instance yields_ptr_reg h r : Yields h (ptr_reg r).
Proof. unfold ptr_reg. yields_auto. Qed.
#[export] Instance yields_adjust_args h : Yields h adjust_args.
Proof. unfold adjust_args. yields_auto. Qed.
#[export] Instance yields_tail_region h t i : Yields h (_tail_region t i).
Proof. unfold _tail_region. yields_auto. Qed.
#[export] Instance yields_call_lookup h t i : Yields h (call_lookup t i).
Proof. unfold call_lookup. yields_auto. Qed.
#[export] Instance yields_call_update h t i : Yields h (call_update t i).
Proof. unfold call_update. yields_auto. Qed.
#[export] Instance yields_call_delete h t i : Yields h (call_delete t i).
Proof. unfold call_delete. yields_auto. Qed.
#[export] Instance yields_call_tail h t i : Yields h (call_tail t i).
Proof. unfold call_tail. yields_auto. Qed.
#[export] Instance yields_call_redirect h t i f : Yields h (call_redirect t i f).
Proof. unfold call_redirect. yields_auto. Qed.
#[export] Instance yields_call_helper h t i f : Yields h (call_helper t i f).
Proof.
  unfold call_helper, call_scalar, call_csum_diff, call_adjust_head, call_adjust_other, call_buff_len. yields_auto.
  destruct (f =? 65); apply _.
Qed.
#[export] Instance yields_clobber h : Yields h clobber.
Proof. unfold clobber. yields_auto. Qed.
#[export] Instance yields_track_instr h t i : Yields h (track_instr t i).
Proof. unfold track_instr, track_call. yields_auto. Qed.
#[export] Instance stored_reset h b : Stored h b → Stored h (reset_block b).
Proof. intros. unfold reset_block. cbv zeta. apply _. Qed.
#[export] Instance yields_track_block_st h t n : Stored h (t_blocks t) → Yields h (track_block_st t n).
Proof. intros. unfold track_block_st, enter_block, track_body. yields_auto. Qed.

(** ** Programs *)

(** The blocks are in a store whose identities are all below [o]. *)
Definition identified (o : Z) (bs : list Block) : Prop := 0 < o ∧ ∃ h, Stored h bs ∧ ∀ i v, objects h !! i = Some v → i < o.


Lemma track_block_identified t n st st' : identified (ts_oid st) (ts_blocks st) → track_block t n st = Ok st' →
  identified (ts_oid st') (ts_blocks st').
Proof.
  intros (Hpos & h & Hb & Hn) HE. unfold track_block in HE. apply bind_Ok in HE as (b & Hbn & HE).
  apply bind_Ok in HE as ([[] s] & Hrun & HE). apply bind_Ok in HE as (bs & Hset & [= <-]).
  pose proof (yields_track_block_st h (set_t_blocks (ts_blocks st) t) n Hb) as Hy.
  apply Hy in Hrun as (h' & Hle & [Hp' Hn' Hb'] & _); [|split; [exact Hpos|exact Hn|exact (stored_index h _ _ _ Hb Hbn)]].
  split; [done|]. exists h'. split; [|done]. exact (stored_setitem h' _ _ _ _ (stored_mono h h' _ Hle Hb) Hb' Hset).
Qed.

Lemma track_loop_identified t fuel untraced st st' : identified (ts_oid st) (ts_blocks st) →
  track_loop t fuel untraced st = Ok st' → identified (ts_oid st') (ts_blocks st').
Proof.
  revert untraced st. induction fuel as [|fuel IH]; intros [|u l] st Hst HE; simpl in HE; simplify_eq; try done.
  apply bind_Ok in HE as (b & _ & HE). apply bind_Ok in HE as (st1 & H1 & HE).
  eapply IH; [|done]. by eapply track_block_identified.
Qed.

Lemma track_identified t o bs srcs : identified o (t_blocks t) → track t o = Ok (bs, srcs) → ∃ o', identified o' bs.
Proof.
  intros Ht HE. unfold track in HE. cbv zeta in HE. apply bind_Ok in HE as (st & H0 & HE).
  apply bind_Ok in HE as (st' & H1 & [= <- _]). exists (ts_oid st').
  eapply track_loop_identified; [|exact H1]. by eapply (track_block_identified t 0 (mk_ts _ _ _)); [|exact H0].
Qed.

(** The first identity above those of the objects the blocks hold; 0 is that of [None]. *)
Definition first_free (oid0 : Z) (bs : list Block) : Z := foldr (λ v n, Z.max (oid v + 1) n) (Z.max oid0 1) (values bs).

Lemma first_free_bound oid0 bs : 0 < first_free oid0 bs ∧ ∀ v, v ∈ values bs → oid v < first_free oid0 bs.
Proof.
  unfold first_free. induction (values bs) as [|v l [H1 H2]]; simpl; [split; [lia|by intros ? ?%elem_of_nil]|].
  split; [lia|]. intros w [-> | Hw%H2]%elem_of_cons; lia.
Qed.

(** Objects are older than what is built from them: those below it are a store. *)
Lemma identified_free oid0 o bs : identified o bs → identified (first_free oid0 bs) bs.
Proof.
  intros (_ & h & Hb & _). destruct (first_free_bound oid0 bs) as [Hpos Hlt]. set (n := first_free oid0 bs) in *.
  split; [done|]. set (f := filter (λ x : Z * val, x.1 < n) (objects h)).
  assert (∀ i v, f !! i = Some v ↔ objects h !! i = Some v ∧ i < n) as Hf by (intros; apply map_lookup_filter_Some).
  assert (consistent_store f) as Hok.
  { intros i v [Hv Hi]%Hf. destruct (store_ok h i v Hv) as (Ho & H0 & Hc). split; [done|]. split; [done|].
    intros c Hin Hn. destruct (Hc c Hin Hn) as [? ?]. split; [|done]. apply Hf. split; [done|lia]. }
  exists (mk_store f Hok). split; [|by intros i v [_ ?]%Hf].
  apply Forall_forall. intros v Hv Hn. apply Hf. split; [|by apply Hlt].
  unfold Stored in Hb. rewrite Forall_forall in Hb. by apply Hb.
Qed.

(** *** The graph *)

Lemma stored_alter h (f : Block → Block) (i : nat) (bs : list Block) : (∀ b, Stored h b → Stored h (f b)) → Stored h bs → Stored h (alter f i bs).
Proof.
  intros Hf Hb. pose proof (proj1 (stored_in h _) Hb) as Hin. apply stored_in. intros b [k Hk]%list_elem_of_lookup.
  rewrite list_lookup_alter in Hk. case_decide; [|by eapply Hin, list_elem_of_lookup_2].
  apply fmap_Some in Hk as (b0 & Hb0 & ->). by eapply Hf, Hin, list_elem_of_lookup_2.
Qed.

Lemma stored_graph h f (g : graph) : (∀ b, Stored h b → Stored h (f b)) → Stored h g.1 → ∀ i, Stored h (upd_nth f i g).1.
Proof. intros Hf Hg i. by apply stored_alter. Qed.

Lemma stored_add_edge h e i s (g : graph) : Stored h g.1 → Stored h (add_edge e i s g).1.
Proof.
  destruct g as [bs cfg]. intros Hg. cbn [add_edge fst]. apply stored_alter; [intros b Hb; exact Hb|].
  apply stored_alter; [|done]. intros b Hb. by destruct e.
Qed.

Lemma stored_connect h instrs progs starts (g g' : graph) i : Stored h g.1 →
  connect_block instrs progs starts g i = Ok g' → Stored h g'.1.
Proof.
  intros Hg HE. unfold connect_block in HE. res_inv.
  repeat (case_match; res_inv); repeat (apply stored_add_edge || (apply stored_graph; [by intros|])); try done;
    cbn [fst]; by repeat (apply stored_alter; [by intros|]).
Qed.

Lemma stored_cut h n i ls : Stored h (cut n i ls).
Proof.
  revert i. induction ls as [|l ls IH]; intros i; cbn [cut]; [apply _|].
  apply stored_cons; [|apply IH]. apply stored_block. split_and!; cbn; apply _.
Qed.

Lemma stored_build h instrs progs bs cfg starts pr : build_cfg instrs progs = Ok (bs, cfg, starts, pr) → Stored h bs.
Proof.
  intros HE. unfold build_cfg in HE. cbv zeta in HE. apply bind_Ok in HE as ([bs1 cfg1] & H1 & HE).
  apply bind_Ok in HE as ([bs2 pr2] & H2 & [= <- _ _ _]).
  assert (Stored h bs1) as Hs1.
  { refine (foldR_ind _ (λ _ g, Stored h g.1) _ _ _ _ _ H1).
    - apply stored_cut.
    - intros. by eapply stored_connect. }
  refine (foldR_ind _ (λ _ g, Stored h g.1) _ _ _ Hs1 _ H2).
  intros pre r [b d] [b' d'] _ Hb HP. unfold place_region in HP. res_inv. case_match; [done|]. by apply stored_alter.
Qed.

Lemma bare_identified bs : (∀ h, Stored h bs) → identified 1 bs.
Proof.
  intros Hb. split; [done|]. assert (consistent_store ∅) as H0 by by intros ? ? ?%lookup_empty_Some.
  exists (mk_store ∅ H0). split; [apply Hb|]. intros i v Hv. simpl in Hv. by rewrite lookup_empty in Hv.
Qed.

(** *** One identity, one object *)

(** [v] is a value the blocks refer to, or a part of one. *)
Definition object_of (bs : list Block) (v : val) : Prop := leads_from is_none _children (values bs) v.

Lemma stored_object h bs v : Stored h bs → object_of bs v → Stored h v.
Proof.
  intros Hb. apply (leads_closed is_none _children (λ v, Stored h v)).
  - intros r Hr. apply stored_val. unfold Stored in Hb. rewrite Forall_forall in Hb. by apply Hb.
  - intros a b Ha Hn Hin. by eapply stored_child.
Qed.

Lemma stored_unique h v w : Stored h v → Stored h w → is_none v = false → is_none w = false → oid v = oid w → v = w.
Proof.
  rewrite !stored_val. intros Hv Hw Hnv Hnw E. specialize (Hv Hnv). specialize (Hw Hnw). rewrite E in Hv. congruence.
Qed.

(** The identity of [None] is no object's. *)
Lemma stored_same h v w : Stored h v → Stored h w → oid v = oid w → v = w.
Proof.
  intros Hv Hw E. assert (∀ x, Stored h x → is_none x = false → 0 < oid x) as Hpos.
  { intros x Hx%stored_val Hn. by destruct (store_ok h _ _ (Hx Hn)) as (_ & ? & _). }
  destruct (is_none v) eqn:Ev, (is_none w) eqn:Ew.
  - destruct v; try done. by destruct w.
  - apply Hpos in Hw; [|done]. destruct v; try done. simpl in E. lia.
  - apply Hpos in Hv; [|done]. destruct w; try done. simpl in E. lia.
  - by eapply stored_unique.
Qed.
