(* ===== verification/TrackProg.v ===== *)
(** Tracking a whole program ([Tracker.track] of [track/tracker.py]): every block
    is interpreted once, after its predecessors, so that a single pass reaches a
    solution of the data-flow equations; a program with a cycle that avoids block 0
    is refused. *)

From S2P Require Import Prelude Constants Instr Link Expr Record Denote Branch Encode Action Block Cfg.
From S2P Require Import CfgSound Tracker Frame.

Implicit Types (t : tracker) (st : tstate) (untraced order : list Z).

(** ** One block *)

(** The run of [track_block] that produced block [i] of [final]: it started from
    the block list [bl] and the block [b0] of it. *)
Record tracked (t : tracker) (bl final : list Block) (i : Z) (b0 : Block) : Prop := {
  tr_start : bl !! Z.to_nat i = Some b0;
  tr_run : ∃ oid id s', track_block_st (set_t_blocks bl t) i (mk_bs b0 oid id) = Ok (tt, s') ∧
    final !! Z.to_nat i = Some (bs_blk s')
}.

Lemma track_block_inv t i st st' : 0 <= i → track_block t i st = Ok st' →
  ∃ b0, tracked t (ts_blocks st) (ts_blocks st') i b0 ∧
    (∀ j, 0 <= j → j ≠ i → ts_blocks st' !! Z.to_nat j = ts_blocks st !! Z.to_nat j) ∧
    place <$> ts_blocks st' = place <$> ts_blocks st.
Proof.
  intros Hi HE. unfold track_block in HE. res_inv. destruct v0 as [[] s]. res_inv.
  rename v into b0, E into Hb, E0 into Hrun, E1 into Hset.
  apply py_index_Ok in Hb; [|done]. apply py_setitem_Ok in Hset; [|done]. subst. simpl in *.
  pose proof (lookup_lt_Some _ _ _ Hb) as Hlt.
  exists b0. split_and!.
  - split; [done|]. exists (ts_oid st), (ts_id st), s. split; [done|].
    by apply list_lookup_insert_eq.
  - intros j Hj Hne. apply list_lookup_insert_ne. lia.
  - rewrite list_fmap_insert. apply list_insert_id. rewrite list_lookup_fmap, Hb. simpl. f_equal.
    assert (Keeps same_place (track_block_st (set_t_blocks (ts_blocks st) t) i)) as Hk.
    { unfold track_block_st, get_blk. apply _. }
    symmetry. exact (Hk _ _ _ Hrun).
Qed.

Lemma tracked_place t bl final i b0 : tracked t bl final i b0 →
  ∃ b, final !! Z.to_nat i = Some b ∧ place b = place b0.
Proof.
  intros [_ (oid & id & s & Hrun & Hs)]. exists (bs_blk s). split; [done|].
  assert (Keeps same_place (track_block_st (set_t_blocks bl t) i)) as Hk.
  { unfold track_block_st, get_blk. apply _. }
  exact (Hk _ _ _ Hrun).
Qed.

Lemma next_block_ready blocks untraced b : get_next_block_no blocks untraced = Ok b →
  b ∈ untraced ∧ ∀ blk, 0 <= b → blocks !! Z.to_nat b = Some blk →
    ∀ p, p ∈ preds blk → p ∉ untraced.
Proof.
  unfold get_next_block_no. cbv zeta. destruct (filter _ untraced) as [|b' l] eqn:Ef; [done|].
  intros [= ->]. pose proof (list_elem_of_here b l) as Hin. rewrite <- Ef in Hin.
  apply list_elem_of_filter in Hin as [Hr Hin]. split; [done|].
  intros blk H0 Hb. apply py_index_Ok in Hb; [|done]. rewrite Hb in Hr.
  intros p Hp. rewrite forallb_forall in Hr. specialize (Hr p (proj1 (list_elem_of_In _ _) Hp)).
  by bool_prop.
Qed.

(** ** The loop *)

(** The blocks of [order] were tracked in that order: each from a list that
    already holds the final predecessors, which come before it or were traced
    at the start. *)
Definition in_order (t : tracker) (final : list Block) (untraced order : list Z) : Prop :=
  ∀ k i, order !! k = Some i → ∃ bl b0, tracked t bl final i b0 ∧
    ∀ p, p ∈ preds b0 → 0 <= p →
      bl !! Z.to_nat p = final !! Z.to_nat p ∧ (p ∉ untraced ∨ p ∈ take k order).

Lemma track_loop_inv t fuel untraced st st' :
  (∀ i, i ∈ untraced → 0 <= i) → NoDup untraced → track_loop t fuel untraced st = Ok st' →
  place <$> ts_blocks st' = place <$> ts_blocks st ∧
  (∀ i, 0 <= i → i ∉ untraced → ts_blocks st' !! Z.to_nat i = ts_blocks st !! Z.to_nat i) ∧
  ∃ order, order ≡ₚ untraced ∧ in_order t (ts_blocks st') untraced order.
Proof.
  revert untraced st. induction fuel as [|fuel IH]; intros untraced st Hpos Hnd HE.
  all: destruct (decide (untraced = [])) as [-> | Hne].
  1, 3: assert (st' = st) as -> by (simpl in HE; congruence);
    split_and!; [done..|]; exists []; by split.
  { by destruct untraced. }
  assert (track_loop t (S fuel) untraced st = (target ← get_next_block_no (ts_blocks st) untraced;
    st ← track_block t target st;
    track_loop t fuel (filter (λ i, i ≠ target) untraced) st)) as HT by (by destruct untraced).
  rewrite HT in HE. clear HT. res_inv. rename v into target, v0 into st1.
  apply next_block_ready in E as [Hin Hready]. pose proof (Hpos _ Hin) as Ht0.
  destruct (track_block_inv _ _ _ _ Ht0 E0) as (b0 & Htr & Hother & Hpl).
  destruct (IH (filter (λ i, i ≠ target) untraced) st1) as (Hpl' & Hkeep & order & Hord & Hall).
  { intros i Hi. apply list_elem_of_filter in Hi as [_ Hi]. auto. }
  { by apply NoDup_filter. }
  { done. }
  set (rest := filter (λ i, i ≠ target) untraced) in *.
  assert (∀ i, i ∈ rest ↔ i ≠ target ∧ i ∈ untraced) as Hrest by (intros i; unfold rest; rewrite list_elem_of_filter; tauto).
  assert (∀ i, 0 <= i → i ∉ untraced →
    ts_blocks st' !! Z.to_nat i = ts_blocks st !! Z.to_nat i) as Hout.
  { intros i H0 Hi. rewrite Hkeep by (rewrite ?Hrest; naive_solver).
    apply Hother; [done|]. by intros ->. }
  split_and!; [by rewrite Hpl', Hpl|exact Hout|].
  exists (target :: order). split.
  { rewrite Hord. apply NoDup_Permutation; [|done|].
    - constructor; [rewrite Hrest; naive_solver|by apply NoDup_filter].
    - intros i. rewrite elem_of_cons, Hrest. destruct (decide (i = target)); naive_solver. }
  intros [|k] i Hk; simplify_eq/=.
  - destruct Htr as [Hb0 (oid & id & s & Hrun & Hs)].
    exists (ts_blocks st), b0. split.
    + split; [done|]. exists oid, id, s. split; [done|].
      rewrite Hkeep by (rewrite ?Hrest; naive_solver). done.
    + intros p Hp H0. pose proof (Hready _ Ht0 Hb0 _ Hp) as Hpu. split; [|by left].
      symmetry. by apply Hout.
  - destruct (Hall k i Hk) as (bl & b1 & Htr1 & Hp1). exists bl, b1. split; [done|].
    intros p Hp H0. destruct (Hp1 p Hp H0) as [? [Hpr | ?]]; (split; [done|]).
    + rewrite Hrest in Hpr. destruct (decide (p = target)) as [-> | ?]; [right; by apply list_elem_of_here|]. left. tauto.
    + right. by right.
Qed.

(** More fuel than there are blocks to trace changes nothing. *)
Lemma track_loop_fuel t fuel untraced st : (length untraced <= fuel)%nat →
  track_loop t fuel untraced st = track_loop t (length untraced) untraced st.
Proof.
  assert (∀ n fuel untraced st, (length untraced <= n)%nat → (n <= fuel)%nat →
    track_loop t fuel untraced st = track_loop t n untraced st) as H; [|by intros; apply H].
  clear. intros n. induction n as [|n IH]; intros fuel untraced st Hn Hf.
  { destruct untraced; [by destruct fuel|simpl in Hn; lia]. }
  destruct fuel as [|fuel]; [lia|]. destruct untraced as [|x l]; [done|]. cbn [track_loop mbind res_bind].
  destruct (get_next_block_no (ts_blocks st) (x :: l)) as [target|] eqn:Eg; [|reflexivity].
  cbn [mbind res_bind]. destruct (track_block t target st) as [st1|]; [|reflexivity].
  cbn [mbind res_bind].
  apply IH; [|lia]. apply next_block_ready in Eg as [Hin _].
  enough (length (filter (λ i, i ≠ target) (x :: l)) < length (x :: l))%nat by lia.
  apply length_filter_lt with target; [done|naive_solver].
Qed.

(** The graph is left as it was, and the order of the pass. *)
Lemma track_run t oid bs srcs : track t oid = Ok (bs, srcs) →
  place <$> bs = place <$> t_blocks t ∧ srcs = mjoin (map sources bs) ∧
  ∃ order, 0 :: order ≡ₚ zrange 0 (Z.of_nat (length (t_blocks t))) ∧
    in_order t bs (zrange 1 (Z.of_nat (length (t_blocks t)))) order ∧
    ∃ b0, tracked t (t_blocks t) bs 0 b0.
Proof.
  intros HE. unfold track in HE. res_inv. rename v into st0, v0 into st.
  destruct (track_block_inv _ _ _ _ ltac:(done) E) as (b0 & Htr & _ & Hpl0).
  set (n := Z.of_nat (length (t_blocks t))) in *.
  assert (0 < n) as Hn.
  { destruct Htr as [Hb _]. apply lookup_lt_Some in Hb. simpl in Hb. lia. }
  assert (∀ i, i ∈ zrange 1 n ↔ 1 <= i < n) as Hz.
  { intros i. unfold zrange. rewrite elem_of_seqZ. lia. }
  destruct (track_loop_inv _ _ _ _ _ (λ i Hi, ltac:(apply Hz in Hi; lia)) (NoDup_seqZ _ _) E0)
    as (Hpl & Hkeep & order & Hord & Hall).
  split_and!; [by rewrite Hpl, Hpl0|done|]. exists order. split_and!; [|exact Hall|].
  - rewrite Hord. unfold zrange. rewrite (seqZ_cons 0) by lia.
    replace (Z.pred (n - 0)) with (n - 1) by lia. done.
  - exists b0. destruct Htr as [Hb (o & id & s & Hrun & Hs)].
    split; [done|]. exists o, id, s. split; [done|]. rewrite Hkeep; [done..|]. rewrite Hz. lia.
Qed.

(** C28 One pass solves the data-flow equations. When tracking a program
    succeeds, every block was interpreted exactly once, in an order that starts
    with block 0 and puts each block after all its predecessors, and from a list
    of blocks that already held the predecessors' final states: no block depends
    on a state that changed later. The graph is left as it was, and the sources
    of the program are those of its blocks in order. In particular a program
    with a cycle that avoids block 0 is refused. *)
Theorem track_one_pass t oid bs srcs : track t oid = Ok (bs, srcs) →
  place <$> bs = place <$> t_blocks t ∧ srcs = mjoin (map sources bs) ∧
  ∃ order, 0 :: order ≡ₚ zrange 0 (Z.of_nat (length (t_blocks t))) ∧
    ∀ k i, (0 :: order) !! k = Some i → ∃ bl b0, tracked t bl bs i b0 ∧
      (i ≠ 0 → ∀ p, p ∈ preds b0 → 0 <= p < Z.of_nat (length (t_blocks t)) →
         bl !! Z.to_nat p = bs !! Z.to_nat p ∧ p ∈ take k (0 :: order)).
Proof.
  intros HE. destruct (track_run _ _ _ _ HE) as (Hpl & Hs & order & Hord & Hall & b0 & Htr).
  split_and!; [done..|]. exists order. split; [done|].
  intros [|k] i Hk; simplify_eq/=; [by exists (t_blocks t), b0|].
  destruct (Hall k i Hk) as (bl & b1 & Htr1 & Hp1). exists bl, b1. split; [done|].
  intros _ p Hp Hr. destruct (Hp1 p Hp ltac:(lia)) as [? Hor]. split; [done|].
  unfold zrange in Hor. rewrite elem_of_seqZ in Hor. destruct Hor as [Hor | ?]; [|by right].
  assert (p = 0) as -> by lia. left.
Qed.

(** The program of [CfgSound]: three blocks, the last joining the others. *)
Definition ex_tracker : tracker := mk_tracker ex_cfg_result.1.1.1 ex_cfg_prog [] [] [] false.

Lemma track_one_pass_witness : ∃ bs srcs, track ex_tracker 1000 = Ok (bs, srcs) ∧
  length bs = 3%nat ∧ place <$> bs = place <$> t_blocks ex_tracker.
Proof.
  destruct (track ex_tracker 1000) as [[bs srcs]|] eqn:E; [|vm_compute in E; discriminate E].
  exists bs, srcs. destruct (track_one_pass ex_tracker 1000 bs srcs E) as [Hp _].
  split; [reflexivity|]. split; [|exact Hp].
  apply (f_equal length) in Hp. rewrite !length_fmap in Hp. rewrite Hp. reflexivity.
Defined.

(** The joined register is the phi of the two values of [r0]. *)
Example track_ex : (λ r, map (λ b, vsize (default VNone (regs b !! 0%nat))) r.1)
  <$> track ex_tracker 1000 = Ok [Err AttributeError; Ok 4; Err AttributeError].
Proof. vm_compute. reflexivity. Qed.
