(* ===== verification/TrackerSound.v ===== *)
(** The operations of the tracker ([track/tracker.py]) against the instruction
    set: ALU instructions and wide constants compute the machine's values, and
    the facts a branch leaves on its edges hold on the edge the machine takes. *)

From S2P Require Import Prelude Words Constants Instr Link Expr Record Denote Branch Encode Action.
From S2P Require Import Block Cfg Tracker.

(** ** Running the primitive operations *)

Lemma get_blk_run (s : bstate) : get_blk s = Ok (bs_blk s, s).
Proof. done. Qed.

Lemma bind_run {A B} (m : ST bstate A) (k : A → ST bstate B) a s s' :
  m s = Ok (a, s') → (x ← m; k x) s = k a s'.
Proof. intros HE. unfold mbind, ST_bind. by rewrite HE. Qed.

(** Two states agree but for the object counter. *)
Definition quiet (s s' : bstate) : Prop := bs_blk s' = bs_blk s ∧ bs_id s' = bs_id s.

Lemma quiet_refl s : quiet s s.
Proof. done. Qed.
Lemma quiet_trans s1 s2 s3 : quiet s1 s2 → quiet s2 s3 → quiet s1 s3.
Proof. unfold quiet. intros [-> ->] [-> ->]. done. Qed.
#[export] Hint Resolve quiet_refl : hornet.

Lemma fresh_run (s : bstate) : ∃ o s', fresh s = Ok (o, s') ∧ quiet s s'.
Proof. eexists _, _. split; [reflexivity|done]. Qed.

Section runs.
Implicit Types s : bstate.

Lemma new_num_run n sz i s : ∃ o s', new_num n sz i s = Ok (VNum o n sz i, s') ∧ quiet s s'.
Proof. eexists _, _. split; [reflexivity|done]. Qed.
Lemma new_scalar_run sz i s : ∃ o s', new_scalar sz i s = Ok (VScalar o sz i, s') ∧ quiet s s'.
Proof. eexists _, _. split; [reflexivity|done]. Qed.
Lemma new_binary_run op d r off sz i s : ∃ o s',
  new_binary op d r off sz i s = Ok (VBin o (mk_binary op d r off sz i), s') ∧ quiet s s'.
Proof. eexists _, _. split; [reflexivity|done]. Qed.
Lemma new_unary_run u s : ∃ v s', new_unary u s = Ok (v, s') ∧ quiet s s'.
Proof. eexists _, _. split; [reflexivity|done]. Qed.

Lemma expr_alu_run d r code sz br i off s :
  ∃ v s', expr_alu d r code sz br i off s = Ok (v, s') ∧ quiet s s'.
Proof.
  unfold expr_alu. repeat case_match; eexists _, _; (split; [reflexivity|done]).
Qed.

Lemma trunc32_run v i s : ∃ v' s', trunc32 v i s = Ok (v', s') ∧ quiet s s'.
Proof.
  unfold trunc32. destruct v; simpl; unfold mbind, ST_bind, lift; simpl;
    repeat case_match; simplify_eq; try (eexists _, _; split; [reflexivity|done]).
Qed.

Lemma sext_run v bits sz i s : is_ptr v = false →
  ∃ v' s', sext v bits sz i s = Ok (v', s') ∧ quiet s s'.
Proof.
  intros Hp. unfold sext. destruct v; try done; repeat case_match; eexists _, _;
    (split; [reflexivity|done]).
Qed.
End runs.

Lemma set_reg_run r v (s : bstate) : 0 <= r < Z.of_nat (length (regs (bs_blk s))) →
  ∃ s', set_reg r v s = Ok (tt, s') ∧ regs (bs_blk s') = <[Z.to_nat r := v]> (regs (bs_blk s)) ∧
    bs_id s' = bs_id s.
Proof.
  intros Hr. unfold set_reg, get_blk, gets, py_setitem, mbind, ST_bind, lift. cbv zeta.
  rewrite (proj2 (Z.ltb_ge r 0)) by lia. rewrite (proj2 (Z.ltb_ge r 0)) by lia.
  rewrite (proj2 (Z.leb_gt _ _)) by lia. simpl. eexists. split; [reflexivity|done].
Qed.

Lemma get_reg_run r v (s : bstate) : 0 <= r → regs (bs_blk s) !! Z.to_nat r = Some v →
  get_reg r s = Ok (v, s).
Proof.
  intros Hr Hv. unfold get_reg, get_blk, gets, mbind, ST_bind, lift.
  apply py_index_Ok in Hv; [|done]. by rewrite Hv.
Qed.

(** ** ALU instructions *)

(** The machine's ALU instruction on the destination [x] and the second operand
    [y] (the source register or the sign-extended immediate). *)
Definition isa_instr (ins : instr) (x y : Z) : Z :=
  let code := opcode_code ins in
  let bits := if opcode_class ins =? ALU64 then 64 else 32 in
  if code =? MOV then
    if offset ins =? 0 then wrap bits y else wrap bits (sgn (offset ins) y)
  else if code =? NEG then wrap bits (- x)
  else if code =? END then
    if (opcode_class ins =? ALU64) || (opcode_s ins =? S_REG)
    then bswap (imm ins) (wrap (imm ins) x) else wrap (imm ins) x
  else isa_alu code bits ((offset ins =? 1) && ((code =? DIV) || (code =? MOD))) x y.

(** The ALU instructions of the instruction set. *)
Record alu_wf (ins : instr) : Prop := {
  aw_class : opcode_class ins = ALU ∨ opcode_class ins = ALU64;
  aw_s : opcode_s ins = S_IMM ∨ opcode_s ins = S_REG;
  aw_code : opcode_code ins ∈ MOV :: END :: alu_ops;
  aw_imm : - 2 ^ 31 <= imm ins < 2 ^ 31;
  aw_sext : opcode_code ins = MOV → offset ins ≠ 0 →
    opcode_s ins = S_REG ∧ (offset ins = 8 ∨ offset ins = 16 ∨
      offset ins = 32 ∧ opcode_class ins = ALU64);
  aw_end : opcode_code ins = END → imm ins ∈ [16; 32; 64]
}.

Definition alu_size (ins : instr) : Z := if opcode_class ins =? ALU64 then 8 else 4.

Lemma alu_size_cases ins : alu_size ins = 4 ∨ alu_size ins = 8.
Proof. unfold alu_size. destruct (_ =? _); auto. Qed.

Lemma alu_size_bits ins :
  reg_bits (alu_size ins) = if opcode_class ins =? ALU64 then 64 else 32.
Proof. unfold alu_size. by destruct (_ =? _). Qed.

(** The second operand as the tracker sees it. *)
Definition src_operand (w : world) (ins : instr) (v : val) (y : Z) : Prop :=
  if opcode_s ins =? S_IMM then ∃ o s, v = VNum o (imm ins) s (-1) ∧ y = wrap 64 (imm ins) ∧
      (s = 4 ∨ s = 8) ∧ (opcode_class ins = ALU64 → imm ins < 0 → s = 8)
  else rep w v y.

Lemma src_operand_on w ins v y : alu_wf ins → src_operand w ins v y →
  rep_on w (reg_bits (alu_size ins)) v y.
Proof.
  intros Hwf Hs. unfold src_operand in Hs. pose proof (reg_bits_range (alu_size ins)).
  destruct (opcode_s ins =? S_IMM); [|by apply rep_rep_on].
  destruct Hs as (o & s & -> & -> & Hsz & Hneg). pose proof (aw_imm _ Hwf) as Hi.
  assert (wrap (reg_bits (alu_size ins)) (wrap (8 * s) (imm ins))
          = wrap (reg_bits (alu_size ins)) (imm ins)) as Hw.
  { destruct Hsz as [-> | ->]; [|by rewrite wrap_wrap_le by lia].
    rewrite alu_size_bits in *. destruct (opcode_class ins =? ALU64) eqn:Ec.
    - apply Z.eqb_eq in Ec. assert (0 <= imm ins) by (destruct (Z.lt_ge_cases (imm ins) 0);
        [specialize (Hneg Ec ltac:(lia)); lia|lia]).
      by rewrite (wrap_small (8 * 4)) by lia.
    - by rewrite wrap_wrap_le by lia. }
  split_and!; [done| |].
  - simpl den. by rewrite Hw, wrap_wrap_le by lia.
  - intros ? ? ? ? [=]; subst. by rewrite wrap_wrap_le by lia.
Qed.

Section alu.
Context (w : world) (ins : instr) (Hwf : alu_wf ins) (i : Z).
Context (sv dv : val) (x y : Z).
Hypothesis Hs : src_operand w ins sv y.

(** The result of a run that leaves the block alone. *)
Definition yields (m : ST bstate val) (z : Z) : Prop :=
  ∀ s, ∃ v s', m s = Ok (v, s') ∧ quiet s s' ∧ rep w v z.

Lemma yields_sound m z :
  (∀ s, ∃ v s', m s = Ok (v, s') ∧ quiet s s') →
  (∀ s v s', m s = Ok (v, s') → rep w v z) → yields m z.
Proof. intros Hr Hv s. destruct (Hr s) as (v & s' & HE & Hq). eauto 6. Qed.

Lemma mov32_sound : opcode_class ins = ALU → yields (trunc32 sv i) (wrap 32 y).
Proof using Hwf Hs.
  intros Hc. apply yields_sound; [apply trunc32_run|]. intros s v s' HE.
  unfold src_operand in Hs. destruct (opcode_s ins =? S_IMM); [|by eapply trunc32_rep].
  destruct Hs as (o & sz & -> & -> & _). simpl in HE. apply new_num_Ok in HE as [o' ->].
  change 4294967295 with (mask 32). rewrite land_mask, wrap_wrap_le by lia.
  pose proof (wrap_range 32 (imm ins) ltac:(lia)).
  apply rep_num; [left; split; [done|lia]|]. by apply wrap_wrap_ge.
Qed.

Lemma mov64_sound : opcode_class ins = ALU64 → yields (mret sv) (wrap 64 y).
Proof using Hwf Hs.
  intros Hc s. exists sv, s. split; [done|]. split; [done|]. unfold src_operand in Hs.
  destruct (opcode_s ins =? S_IMM).
  - destruct Hs as (o & sz & -> & -> & Hsz & Hneg). pose proof (aw_imm _ Hwf) as Hi.
    apply rep_num; [|by rewrite wrap_wrap_le by lia].
    destruct Hsz as [-> | ->]; [left|by right]. split; [done|].
    destruct (Z.lt_ge_cases (imm ins) 0); [specialize (Hneg Hc ltac:(lia)); lia|lia].
  - by rewrite wrap_small by apply Hs.
Qed.

Lemma movsx_sound : opcode_code ins = MOV → offset ins ≠ 0 →
  yields (sext sv (offset ins) (alu_size ins) i)
    (wrap (reg_bits (alu_size ins)) (sgn (offset ins) y)).
Proof using Hwf Hs.
  intros Hm Ho. destruct (aw_sext _ Hwf Hm Ho) as [Hr Hb]. unfold src_operand in Hs.
  rewrite Hr in Hs. simpl in Hs. apply yields_sound.
  - intros s. apply sext_run. apply Hs.
  - intros s v s' HE. eapply sext_rep; [| | |exact Hs|exact HE]; [tauto|apply alu_size_cases|].
    unfold alu_size. destruct Hb as [-> | [-> | [-> ->]]]; [| |done]; destruct (_ =? _); lia.
Qed.

Hypothesis Hd : rep w dv x.

Lemma alu_unary_neg s sz im sz' : is_num dv = false →
  alu_unary false i NEG sz im sz' dv s
  = new_unary (mk_unary NEG dv (Some sz) im sz' (sz' =? 8)) s.
Proof. by destruct dv. Qed.

Lemma neg_sound : opcode_code ins = NEG →
  yields (alu_unary false i NEG (opcode_s ins) (imm ins) (alu_size ins) dv)
    (wrap (reg_bits (alu_size ins)) (- x)).
Proof using Hd.
  intros _. pose proof Hd as (Hne & Hp & Hden & Hr & _ & Hn).
  assert (∀ b, b = 32 ∨ b = 64 → wrap b (- x) = isa_alu NEG b false x 0) as Hisa.
  { intros b Hb. symmetry. apply wrap_opp. lia. }
  destruct (is_num dv) eqn:En.
  { destruct dv as [| | | | | | | | | | | | |o n sz i0| | | |]; try done.
    destruct (Hn _ _ _ _ eq_refl) as [Hx _]. unfold alu_unary. simpl.
    assert (NEG ∈ alu_ops) as Hop by (unfold alu_ops; rewrite !elem_of_cons; auto 12).
    apply yields_sound.
    { intros s. destruct (alu_size_cases ins) as [-> | ->]; simpl;
        eexists _, _; (split; [reflexivity|done]). }
    intros s v s' HE. destruct (alu_size_cases ins) as [Hz | Hz]; rewrite Hz in *; simpl in HE;
      apply new_num_Ok in HE as [o' ->].
    - rewrite arith32_exact by done. rewrite reg_bits_4, Hisa by auto.
      rewrite (isa_alu_args _ 32 _ n 0 x 0) by
        (auto; rewrite <- Hx; symmetry; apply wrap_wrap_le; lia).
      pose proof (isa_alu_range 32 ltac:(auto) NEG false x 0). apply rep_num.
      + left. split; [done|lia].
      + apply wrap_small. lia.
    - apply rep_num; [by right|]. rewrite arith_isa_eq by auto. rewrite reg_bits_8, Hisa by auto.
      apply isa_alu_args; [auto| |done]. rewrite <- Hx. symmetry. by apply wrap_wrap. }
  apply yields_sound.
  { intros s. rewrite alu_unary_neg by done. apply new_unary_run. }
  intros s v s' HE. rewrite alu_unary_neg in HE by done. apply new_unary_Ok in HE as [o ->].
  pose proof (wrap_range (reg_bits (alu_size ins)) (- x) (proj1 (reg_bits_range _))) as Hw.
  split_and!; try done.
  - simpl. by rewrite Hden.
  - lia.
  - destruct (alu_size_cases ins) as [Hz | Hz]; rewrite Hz in *;
      rewrite ?reg_bits_4, ?reg_bits_8 in *; lia.
  - intros sz [=] ?. subst. destruct (alu_size_cases ins) as [Hz | Hz]; rewrite Hz in *;
      rewrite ?reg_bits_4, ?reg_bits_8 in *; lia.
Qed.

Lemma bswap_range bits z : bits ∈ [16; 32; 64] → 0 <= bswap bits z < 2 ^ bits.
Proof.
  intros Hb. unfold bswap.
  pose proof (le_int_range (rev (le_bytes (Z.to_nat (bits / 8)) z))) as Hr.
  rewrite length_rev, length_le_bytes in Hr.
  replace (8 * Z.of_nat (Z.to_nat (bits / 8))) with bits in Hr.
  - apply Hr, Forall_rev, le_bytes_byte.
  - rewrite !elem_of_cons, elem_of_nil in Hb. destruct Hb as [-> | [-> | [-> | []]]]; reflexivity.
Qed.

Lemma end_sound : opcode_code ins = END →
  yields (alu_unary false i END (opcode_s ins) (imm ins) (alu_size ins) dv)
    (if (opcode_class ins =? ALU64) || (opcode_s ins =? S_REG)
     then bswap (imm ins) (wrap (imm ins) x) else wrap (imm ins) x).
Proof using Hd Hwf.
  intros Hc. pose proof (aw_end _ Hwf Hc) as Him.
  assert (existsb (Z.eqb (imm ins)) [16; 32; 64] = true) as Hex.
  { apply existsb_exists. exists (imm ins). split; [by apply list_elem_of_In|lia]. }
  assert (∀ s, alu_unary false i END (opcode_s ins) (imm ins) (alu_size ins) dv s
    = new_unary (mk_unary END dv (Some (opcode_s ins)) (imm ins) (imm ins / 8)
        (alu_size ins =? 8)) s) as Hrun.
  { intros s. unfold alu_unary. rewrite Hex. by destruct dv. }
  apply yields_sound; [intros s; rewrite Hrun; apply new_unary_run|].
  intros s v s' HE. rewrite Hrun in HE. apply new_unary_Ok in HE as [o ->].
  set (r := if _ || _ then _ else _).
  assert (den w (VUn o (mk_unary END dv (Some (opcode_s ins)) (imm ins) (imm ins / 8)
    (alu_size ins =? 8))) = r) as Hden.
  { simpl. replace (den w dv) with x by (symmetry; apply Hd). unfold isa_unary, r, alu_size.
    rewrite Hex. destruct (opcode_class ins =? ALU64); simpl; [done|].
    destruct (aw_s _ Hwf) as [-> | ->]; done. }
  assert (0 <= r < 2 ^ imm ins) as Hr.
  { unfold r. destruct (_ || _); [by apply bswap_range|]. apply wrap_range.
    rewrite !elem_of_cons, elem_of_nil in Him. lia. }
  clearbody r.
  assert (0 <= r < 2 ^ 64 ∧ (imm ins / 8 <= 4 → r < 2 ^ 32)) as [Hr64 Hr4].
  { clear -Him Hr. rewrite !elem_of_cons, elem_of_nil in Him. destruct Him as [E | [E | [E | []]]];
      rewrite E in *; split; try lia; intros H; by vm_compute in H. }
  split_and!; try done; try apply Hr64. intros sz [=] ?; subst. auto.
Qed.

Lemma binary_sound code off : code ∈ alu_ops →
  yields (v ← expr_alu dv sv code (alu_size ins) false i off;
          if (alu_size ins =? 4) && is_same v dv then trunc32 v i else mret v)
    (isa_alu code (reg_bits (alu_size ins)) (off =? 1) x y).
Proof using Hd Hs Hwf.
  intros Hop. apply yields_sound.
  - intros s. destruct (expr_alu_run dv sv code (alu_size ins) false i off s) as (v & s1 & H1 & Q1).
    rewrite (bind_run _ _ _ _ _ H1). destruct (_ && _).
    + destruct (trunc32_run v i s1) as (v' & s2 & H2 & Q2). eauto using quiet_trans.
    + exists v, s1. by split.
  - intros s v s' HE. res_inv. eapply expr_alu_trunc; [apply alu_size_cases|done|exact Hd| |done..].
    by apply src_operand_on.
Qed.
End alu.

Lemma yields_ext w m m' z : (∀ s, m s = m' s) → yields w m' z → yields w m z.
Proof. intros Hm Hy s. rewrite Hm. apply Hy. Qed.

Lemma alu_value_sound w ins i sv dv x y : alu_wf ins → src_operand w ins sv y →
  (opcode_code ins ≠ MOV → rep w dv x) → yields w (alu_value false i ins sv dv) (isa_instr ins x y).
Proof.
  intros Hwf Hs Hd. unfold alu_value, isa_instr. cbv zeta. fold (alu_size ins).
  rewrite <- alu_size_bits. destruct (opcode_code ins =? MOV) eqn:Em.
  - apply Z.eqb_eq in Em. destruct (offset ins =? 0) eqn:Eo; simpl.
    + unfold alu_size. destruct (aw_class _ Hwf) as [Hc | Hc]; rewrite Hc; simpl.
      * by eapply mov32_sound.
      * by eapply mov64_sound.
    + apply Z.eqb_neq in Eo. by eapply movsx_sound.
  - apply Z.eqb_neq in Em. specialize (Hd Em). simpl.
    eapply (yields_ext _ _ (if (opcode_code ins =? NEG) || (opcode_code ins =? END) then
      alu_unary false i (opcode_code ins) (opcode_s ins) (imm ins) (alu_size ins) dv
      else v ← expr_alu dv sv (opcode_code ins) (alu_size ins) false i
                 (if (opcode_code ins =? DIV) || (opcode_code ins =? MOD) then offset ins else 0);
           if (alu_size ins =? 4) && is_same v dv then trunc32 v i else mret v)).
    { intros s. destruct Hd as (_ & Hp & _). by destruct dv. }
    destruct (opcode_code ins =? NEG) eqn:En.
    { apply Z.eqb_eq in En. rewrite En. by eapply neg_sound. }
    destruct (opcode_code ins =? END) eqn:Ee.
    { apply Z.eqb_eq in Ee. rewrite Ee. by eapply end_sound. }
    apply Z.eqb_neq in Ee. simpl.
    replace ((offset ins =? 1) && ((opcode_code ins =? DIV) || (opcode_code ins =? MOD)))
      with ((if (opcode_code ins =? DIV) || (opcode_code ins =? MOD) then offset ins else 0) =? 1)
      by (destruct (_ || _); [by rewrite andb_true_r|by rewrite andb_false_r]).
    eapply binary_sound; [done|done|done|]. pose proof (aw_code _ Hwf) as Hc.
    rewrite !elem_of_cons in Hc. tauto.
Qed.

(** ** The register file *)

(** Every scalar register stands for the machine's register; pointers and
    registers without a value are not constrained. *)
Definition regs_rep (w : world) (rs : list val) (xs : list Z) : Prop :=
  length rs = length xs ∧
  ∀ r v x, rs !! r = Some v → xs !! r = Some x → v ≠ VNone → is_ptr v = false → rep w v x.

(** One step of the machine's ALU on its registers. *)
Definition isa_alu_step (ins : instr) (xs : list Z) : option (list Z) :=
  x ← xs !! Z.to_nat (dst_reg ins);
  y ← (if opcode_s ins =? S_IMM then Some (wrap 64 (imm ins)) else xs !! Z.to_nat (src_reg ins));
  Some (<[Z.to_nat (dst_reg ins) := isa_instr ins x y]> xs).

(** The registers the instruction reads hold scalars. *)
Definition scalar_reg (rs : list val) (r : Z) : Prop :=
  ∃ v, rs !! Z.to_nat r = Some v ∧ v ≠ VNone ∧ is_ptr v = false.
Definition reads_scalars (ins : instr) (rs : list val) : Prop :=
  (opcode_code ins ≠ MOV → scalar_reg rs (dst_reg ins)) ∧
  (opcode_s ins = S_REG → scalar_reg rs (src_reg ins)).

Lemma src_value_run w ins (s : bstate) xs v0 : alu_wf ins → regs_rep w (regs (bs_blk s)) xs →
  get_reg (src_reg ins) s = Ok (v0, s) → 0 <= src_reg ins →
  (opcode_s ins = S_REG → scalar_reg (regs (bs_blk s)) (src_reg ins)) →
  ∃ sv s' y,
    (if opcode_s ins =? S_IMM then
       if opcode_class ins =? ALU64 then imm64 (imm ins) else new_num (imm ins) 4 (-1)
     else mret v0) s = Ok (sv, s') ∧ quiet s s' ∧ src_operand w ins sv y ∧
    (if opcode_s ins =? S_IMM then Some (wrap 64 (imm ins)) else xs !! Z.to_nat (src_reg ins))
      = Some y.
Proof.
  intros Hwf [Hl Hr] Hg H0 Hsc. unfold src_operand. destruct (opcode_s ins =? S_IMM) eqn:Es.
  - unfold imm64. destruct (opcode_class ins =? ALU64) eqn:Ec;
      eexists _, _, _; (split; [reflexivity|]); (split; [done|]); (split; [|reflexivity]).
    + eexists _, _. split_and!; [done|done|destruct (0 <=? imm ins); auto|].
      intros _ Hneg. by rewrite (proj2 (Z.leb_gt 0 _)) by lia.
    + eexists _, _. split_and!; [done|done|auto|]. intros Hc. bool_prop. congruence.
  - destruct (aw_s _ Hwf) as [Hs | Hs]; rewrite Hs in Es; [done|].
    destruct (Hsc Hs) as (v & Hv & Hn & Hp). pose proof Hv as Hv'.
    apply (get_reg_run _ _ _ H0) in Hv'. assert (v0 = v) as -> by congruence.
    destruct (xs !! Z.to_nat (src_reg ins)) as [y|] eqn:Ey.
    + exists v, s, y. split_and!; [done..| |done]. by eapply Hr.
    + apply lookup_ge_None in Ey. apply lookup_lt_Some in Hv. lia.
Qed.

(** C29 ALU instructions simulate the machine. On registers that stand for the
    machine's, an ALU instruction whose operands are scalars is tracked without
    failing, and the new registers stand for the registers after the machine's
    step: all operations, both widths, immediates, the sign-extending moves,
    the byte swaps and the signed divisions included. Nothing else of the block
    changes. *)
Theorem track_alu_sound t i ins w s xs :
  t_brief t = false → py_index (t_instrs t) i = Ok ins → alu_wf ins →
  0 <= dst_reg ins < 11 → 0 <= src_reg ins < 11 → length xs = 11%nat →
  regs_rep w (regs (bs_blk s)) xs → reads_scalars ins (regs (bs_blk s)) →
  ∃ s' xs', track_alu t i s = Ok (tt, s') ∧ isa_alu_step ins xs = Some xs' ∧
    regs_rep w (regs (bs_blk s')) xs' ∧
    bs_blk s' = set_store (regs (bs_blk s')) (stk (bs_blk s)) (bs_blk s).
Proof.
  intros Hb Hi Hwf Hdr Hsr Hlen Hrep [Hrd Hrs]. pose proof Hrep as [Hl Hr].
  destruct (lookup_lt_is_Some_2 (regs (bs_blk s)) (Z.to_nat (src_reg ins))) as [v0 Hv0]; [lia|].
  destruct (lookup_lt_is_Some_2 (regs (bs_blk s)) (Z.to_nat (dst_reg ins))) as [dv Hdv]; [lia|].
  destruct (lookup_lt_is_Some_2 xs (Z.to_nat (dst_reg ins))) as [x Hx]; [lia|].
  apply get_reg_run in Hv0; [|lia].
  destruct (src_value_run w ins s xs v0 Hwf Hrep Hv0 ltac:(lia) Hrs)
    as (sv & s1 & y & H1 & [Hq1 Hid1] & Hop & Hy).
  assert (opcode_code ins ≠ MOV → rep w dv x) as Hd.
  { intros Hm. destruct (Hrd Hm) as (v & Hv & ? & ?). simplify_eq. by eapply Hr. }
  destruct (alu_value_sound w ins i sv dv x y Hwf Hop Hd s1) as (v & s2 & H2 & [Hq2 Hid2] & Hv).
  destruct (set_reg_run (dst_reg ins) v s2) as (s3 & H3 & Hr3 & Hid3); [rewrite Hq2, Hq1; lia|].
  exists s3, (<[Z.to_nat (dst_reg ins) := isa_instr ins x y]> xs). split_and!.
  - unfold track_alu. rewrite Hi, lift_bind, (bind_run _ _ _ _ _ Hv0), (bind_run _ _ _ _ _ H1).
    rewrite (bind_run _ _ dv s1 s1) by (apply get_reg_run; [lia|by rewrite Hq1]).
    rewrite Hb, (bind_run _ _ _ _ _ H2). exact H3.
  - unfold isa_alu_step. rewrite Hx. simpl. by rewrite Hy.
  - rewrite Hr3, Hq2, Hq1. split; [by rewrite !length_insert|].
    intros r u z Hu Hz Hne Hp. destruct (decide (r = Z.to_nat (dst_reg ins))) as [-> | Hne'].
    + rewrite list_lookup_insert_eq in Hu by lia. rewrite list_lookup_insert_eq in Hz by lia. by simplify_eq.
    + rewrite list_lookup_insert_ne in Hu by done. rewrite list_lookup_insert_ne in Hz by done. by eapply Hr.
  - unfold set_reg, get_blk, gets, upd_blk, modify in H3. res_inv. simpl. by rewrite Hq2, Hq1.
Qed.

(** [w2 -= 5] (32 bits) in a world where [r2] holds [3 + 2^40]. *)
Definition ex_alu : instr :=
  match new_instr 0 0 (encode_slot 0x14 2 0 0 5) false with Ok i => i | Err _ => nop_instr 0 0 end.
Definition ex_alu_tracker : tracker := mk_tracker [] [ex_alu] [] [] [] false.
Definition ex_block : Block :=
  set_store (<[2%nat := VScalar 1 8 7]> (replicate 11 VNone)) [] (new_Block 0 0 0).
Definition ex_alu_world : world := λ _ _, 3 + 2 ^ 40.
Definition ex_alu_regs : list Z := <[2%nat := 3 + 2 ^ 40]> (replicate 11 0).

Lemma ex_regs_rep : regs_rep ex_alu_world (regs ex_block) ex_alu_regs.
Proof.
  split; [reflexivity|]. intros r v x Hv Hx Hne Hp.
  destruct (decide (r = 2%nat)) as [-> | Hr].
  - vm_compute in Hv, Hx. injection Hv as <-. injection Hx as <-.
    split_and!; try done; try (by vm_compute). intros sz [=]; lia.
  - destruct Hne. unfold ex_block in Hv. simpl regs in Hv.
    destruct r as [|[|[|r]]]; try done; [by injection Hv|by injection Hv|].
    do 8 (destruct r as [|r]; [by injection Hv|]). done.
Qed.

Lemma track_alu_sound_witness : ∃ s' xs',
  track_alu ex_alu_tracker 0 (mk_bs ex_block 10 0) = Ok (tt, s') ∧
  isa_alu_step ex_alu ex_alu_regs = Some xs' ∧ xs' !! 2%nat = Some (2 ^ 32 - 2) ∧
  regs_rep ex_alu_world (regs (bs_blk s')) xs'.
Proof.
  assert (alu_wf ex_alu) as Hwf.
  { split; [by left|by left| |split; vm_compute; congruence|intros [=]|intros [=]].
    change (SUB ∈ MOV :: END :: alu_ops). unfold alu_ops. rewrite !elem_of_cons. auto 12. }
  destruct (track_alu_sound ex_alu_tracker 0 ex_alu ex_alu_world (mk_bs ex_block 10 0) ex_alu_regs)
    as (s' & xs' & H1 & H2 & H3 & _).
  - reflexivity.
  - reflexivity.
  - exact Hwf.
  - split; vm_compute; congruence.
  - split; vm_compute; congruence.
  - reflexivity.
  - exact ex_regs_rep.
  - split; [intros _|intros [=]]. exists (VScalar 1 8 7). split_and!; [reflexivity|discriminate|reflexivity].
  - exists s', xs'. split_and!; [exact H1|exact H2| |exact H3].
    vm_compute in H2. injection H2 as <-. reflexivity.
Defined.
