(* ===== verification/FactSound.v ===== *)
(** The facts a branch leaves on its edges ([Tracker.track_branch] of
    [track/tracker.py]) hold on the edge the machine takes: bounds of the packet
    length after a comparison with [data_end], nullity after a null test, the
    packet view after a test of the result of [bpf_xdp_adjust_*]. *)

From S2P Require Import Prelude Words Constants Instr Link Expr Record Denote Branch Encode Action.
From S2P Require Import Block Cfg Tracker TrackerSound.

(** ** Comparing a packet pointer with the end of the packet *)

(** A fact about the packet length that holds of [len]. *)
Definition len_ok (f : PktFacts) (len : Z) : Prop :=
  (∀ m, kf_min_len f = Some m → m <= len) ∧ (∀ m, kf_max_len f = Some m → len <= m).

Definition pkt_codes : list Z := [JGT; JGE; JLT; JLE].

(** The edge a branch takes. *)
Definition fact_on (taken : bool) (b : Block) : option edge_fact :=
  if taken then cond_t b else cond_f b.

(** What [branch_pkt_on] says of [code]: the jump is taken iff [offset code len]. *)
Lemma branch_pkt_on_run w code p len taken s :
  code ∈ pkt_codes → p_var_off p = VNone → 0 <= p_off p < 2 ^ 64 → 0 <= len < 2 ^ 64 →
  (∀ o, w (VPktLen o 4 (p_base_id p)) [] = len) →
  _jmp_taken code (p_off p) len false = Ok taken →
  ∃ s' f off l, branch_pkt_on code p s = Ok (tt, s') ∧
    fact_on taken (bs_blk s') = Some (FPkt f) ∧ kf_id f = Some (p_id p) ∧
    kf_base_id f = p_base_id p ∧ len_ok f len ∧
    cond (bs_blk s') = Some (CCond code off l false) ∧
    _jmp_taken code (den w off) (den w l) false = Ok taken.
Proof.
  intros Hc Hv Ho Hlen Hw Ht. pose proof Ht as Ht'.
  rewrite jmp_taken_isa in Ht'. unfold isa_jmp in Ht'. simpl jmp_bits in Ht'.
  rewrite !wrap_small in Ht' by lia.
  assert (∀ o, den w (VNum o (p_off p) 8 (-1)) = p_off p) as Hden
    by (intros o; by apply wrap_small).
  assert (∀ o, den w (VPktLen o 4 (p_base_id p)) = len) as Hdl by (intros o; apply Hw).
  unfold pkt_codes in Hc. rewrite !elem_of_cons, elem_of_nil in Hc.
  unfold branch_pkt_on, total_offset. rewrite Hv.
  destruct Hc as [-> | [-> | [-> | [-> | []]]]]; simpl in Ht'; injection Ht' as Ht';
    destruct taken; eexists _, _, _, _; (split; [reflexivity|]); cbn [bs_blk cond cond_t cond_f set_cond];
    unfold fact_on; rewrite Hden, Hdl; cbn;
    (split_and!; [reflexivity..|split; intros m [= <-]; lia|reflexivity|exact Ht]).
Qed.

(** The address of a pointer into the packet that starts at [base]. *)
Definition pkt_addr (base len : Z) (p : ptr_ val) : Z :=
  if p_type p =? PTR_TO_PKT then base + p_off p else base + len.

Lemma jmp_shift code base a b taken : 0 <= a < 2 ^ 64 → 0 <= b < 2 ^ 64 → 0 <= base →
  base + a < 2 ^ 64 → base + b < 2 ^ 64 → code ∈ pkt_codes →
  _jmp_taken code (base + a) (base + b) false = Ok taken → _jmp_taken code a b false = Ok taken.
Proof.
  intros. rewrite jmp_taken_isa in *. unfold isa_jmp in *. simpl jmp_bits in *.
  rewrite !wrap_small in * by lia. unfold pkt_codes in *.
  repeat match goal with H : _ ∈ _ :: _ |- _ => apply elem_of_cons in H as [-> | H] end;
    try (by apply elem_of_nil in H4); simpl in *;
  match goal with H : Ok _ = Ok _ |- _ => injection H as <- end; f_equal; lia.
Qed.

Lemma jmp_mirror code a b taken : code ∈ pkt_codes →
  _jmp_taken code a b false = Ok taken →
  ∃ code', dict_getitem mirror_jmp code = Ok code' ∧ code' ∈ pkt_codes ∧
    _jmp_taken code' b a false = Ok taken.
Proof.
  intros Hc. unfold pkt_codes in *. rewrite !elem_of_cons, elem_of_nil in Hc.
  destruct Hc as [-> | [-> | [-> | [-> | []]]]]; intros Ht;
    eexists; (split; [reflexivity|]); rewrite !elem_of_cons; auto 10.
Qed.

(** C30 The bounds check on a packet pointer is tracked soundly. For a packet of
    [len] bytes at [base] and any of the four unsigned comparisons of a pointer
    at a constant offset with [data_end], in either order: the branch is tracked,
    the fact on the edge the machine takes is about that pointer and bounds the
    length by what is true of [len], and the condition recorded for the block,
    evaluated at the offset and the length, is taken exactly when the machine
    takes the branch. *)
Theorem pkt_check_sound w code j o o' p q base len taken s :
  let view := if p_type q =? PTR_TO_PKT then q else p in
  pkt_size_check (VPtr o p) (VPtr o' q) = Some (p, q) →
  p_checked_null p ≠ None → code ∈ pkt_codes →
  p_var_off view = VNone → 0 <= p_off view → 0 <= len → 0 <= base →
  base + p_off view < 2 ^ 64 → base + len < 2 ^ 64 →
  (∀ l, w (VPktLen l 4 (p_base_id view)) [] = len) →
  _jmp_taken code (pkt_addr base len p) (pkt_addr base len q) false = Ok taken →
  ∃ s' f c off l, branch_test false code (VPtr o p) (VPtr o' q) j s = Ok (tt, s') ∧
    fact_on taken (bs_blk s') = Some (FPkt f) ∧ kf_id f = Some (p_id view) ∧
    kf_base_id f = p_base_id view ∧ len_ok f len ∧
    cond (bs_blk s') = Some (CCond c off l false) ∧
    _jmp_taken c (den w off) (den w l) false = Ok taken.
Proof.
  intros view Hchk Hnn Hc Hv Ho Hlen Hb Hbo Hbl Hw Ht.
  assert (branch_test false code (VPtr o p) (VPtr o' q) j s = branch_pkt code p q s) as Hrun.
  { unfold branch_test. cbn [orient]. rewrite bool_decide_eq_false_2 by done. by rewrite Hchk. }
  rewrite Hrun. unfold branch_pkt, pkt_addr, pkt_size_check in *.
  destruct (p_type q =? PTR_TO_PKT) eqn:Eq; subst view.
  - assert (p_type p =? PTR_TO_PKT = false) as Ep.
    { destruct (_ || _) eqn:Eo in Hchk; [|done]. apply Z.eqb_eq in Eq. rewrite Eq in Eo.
      simpl in Eo. destruct (Z.eqb_spec (p_type p) PTR_TO_PKT) as [E |]; [|done].
      rewrite E in Eo. done. }
    rewrite Ep in Ht. apply jmp_shift in Ht; [|lia..|done].
    destruct (jmp_mirror _ _ _ _ Hc Ht) as (code' & Hm & Hc' & Ht'). rewrite Hm, lift_bind.
    destruct (branch_pkt_on_run w code' q len taken s Hc' Hv ltac:(lia) ltac:(lia) Hw Ht')
      as (s' & f & off & l & H). exists s', f, code', off, l. exact H.
  - assert (p_type p =? PTR_TO_PKT = true) as Ep.
    { destruct (_ || _) eqn:Eo in Hchk; [|done]. rewrite andb_false_r, orb_false_r in Eo.
      by destruct (p_type p =? PTR_TO_PKT). }
    rewrite Ep in Ht. apply jmp_shift in Ht; [|lia..|done].
    destruct (branch_pkt_on_run w code p len taken s Hc Hv ltac:(lia) ltac:(lia) Hw Ht)
      as (s' & f & off & l & H). exists s', f, code, off, l. exact H.
Qed.

(** [if (data + 14 > data_end)] on a 60-byte packet. *)
Definition ex_pkt_ptr : ptr_ val := ptr_default PTR_TO_PKT 14 VNone 3 (Some (-1)).
Definition ex_end_ptr : ptr_ val := ptr_default PTR_TO_PKT_END 0 VNone 4 (Some (-1)).
Definition ex_state : bstate := mk_bs (new_Block 0 0 0) 100 50.

Lemma pkt_check_sound_witness : ∃ s' f,
  branch_test false JGT (VPtr 1 ex_pkt_ptr) (VPtr 2 ex_end_ptr) false ex_state = Ok (tt, s') ∧
  cond_f (bs_blk s') = Some (FPkt f) ∧ len_ok f 60.
Proof.
  destruct (pkt_check_sound (λ _ _, 60) JGT false 1 2 ex_pkt_ptr ex_end_ptr 4096 60 false ex_state)
    as (s' & f & c & off & l & H1 & H2 & _ & _ & H3 & _).
  - reflexivity.
  - discriminate.
  - unfold pkt_codes. rewrite elem_of_cons. by left.
  - reflexivity.
  - discriminate.
  - discriminate.
  - discriminate.
  - reflexivity.
  - reflexivity.
  - reflexivity.
  - reflexivity.
  - exists s', f. split; [exact H1|]. split; [exact H2|exact H3].
Defined.

(** The bound on the fall edge of [data + 14 <= data_end] is two bytes above what
    the comparison gives: the packet has fewer than 14 bytes there, the recorded
    maximum is 15. *)
Example jle_fall_bound_loose :
  (λ r, cond_f (bs_blk r.2)) <$> branch_test false JLE (VPtr 1 ex_pkt_ptr) (VPtr 2 ex_end_ptr)
    false ex_state
  = Ok (Some (FPkt (mk_pktf (Some 3) (Some (-1)) VNone None (Some 15)))) ∧
  ∀ len taken, 0 <= len < 2 ^ 32 → _jmp_taken JLE 14 len false = Ok taken →
    (taken = false ↔ len <= 13).
Proof.
  split; [reflexivity|]. intros len taken Hl. rewrite jmp_taken_isa. unfold isa_jmp. simpl.
  rewrite !wrap_small by lia. intros [= <-]. rewrite Z.leb_gt. lia.
Qed.

(** ** Testing a helper's pointer against null *)

Lemma jmp_zero code a taken : 0 <= a < 2 ^ 64 → code = JEQ ∨ code = JNE →
  _jmp_taken code a 0 false = Ok taken → taken = (if code =? JEQ then a =? 0 else negb (a =? 0)).
Proof.
  intros Ha Hc. rewrite jmp_taken_isa. unfold isa_jmp. simpl jmp_bits.
  rewrite !wrap_small by lia. destruct Hc as [-> | ->]; intros [= <-]; done.
Qed.

Lemma branch_null_run brief code dst p o n sz i s : p_checked_null p = None →
  code = JEQ ∨ code = JNE → n = 0 →
  ∃ s', branch_null brief code dst p (VNum o n sz i) s = Ok (tt, s') ∧
    (∀ null, fact_on (if code =? JEQ then null else negb null) (bs_blk s')
       = Some (FPtr (mk_ptrf (null_fact_id p) dst (Some null)))) ∧
    (brief = false → p_null_phi p = VNone → p_type p = PTR_TO_MAP_VALUE →
       cond (bs_blk s') = Some (CContain (p_map_id p) (p_map_key p) (p_map_key_id p)
                                  (negb (code =? JEQ)))) ∧
    (brief = false → p_null_phi p ≠ VNone →
       ∃ z, cond (bs_blk s') = Some (CCond code (p_null_phi p) (VNum z 0 1 (-1)) false)).
Proof.
  intros Hn Hc ->. unfold branch_null, mbind, ST_bind.
  destruct Hc as [-> | ->]; simpl;
    (destruct brief; [eexists; split; [reflexivity|]; split_and!; [by intros []|done|done]|]);
    (destruct (is_none (p_null_phi p)) eqn:Ei; simpl;
     [|eexists; (split; [reflexivity|]); split_and!; [by intros []| |by eexists];
       intros _ Hv; by rewrite Hv in Ei]);
    (destruct (p_type p =? PTR_TO_MAP_VALUE) eqn:Et;
     (eexists; (split; [reflexivity|]); split_and!;
       [by intros []| |intros _ Hv; by destruct (p_null_phi p)]);
     [done|intros _ _ HT; bool_prop; done]).
Qed.

(** A null test leaves the right nullity on each edge. Comparing with [== 0] or
    [!= 0] a pointer [p] that a helper returned and nothing has tested yet, the
    edge the machine takes carries the fact that [p] is null exactly when its
    address is 0, under the id that the copies of [p] share; and for a map value
    without a nullity phi the recorded condition asks for the key's presence
    exactly on the edge where the pointer is not null. *)
Theorem null_test_sound brief code j o o' p sz i addr taken s :
  p_checked_null p = None → code = JEQ ∨ code = JNE → 0 <= addr < 2 ^ 64 →
  _jmp_taken code addr 0 false = Ok taken →
  ∃ s', branch_test brief code (VPtr o p) (VNum o' 0 sz i) j s = Ok (tt, s') ∧
    fact_on taken (bs_blk s')
    = Some (FPtr (mk_ptrf (null_fact_id p) (VPtr o p) (Some (addr =? 0)))) ∧
    (brief = false → p_null_phi p = VNone → p_type p = PTR_TO_MAP_VALUE →
       ∃ result, cond (bs_blk s')
         = Some (CContain (p_map_id p) (p_map_key p) (p_map_key_id p) result) ∧
         taken = eqb result (negb (addr =? 0))).
Proof.
  intros Hn Hc Ha Ht. pose proof (jmp_zero _ _ _ Ha Hc Ht) as ->.
  destruct (branch_null_run brief code (VPtr o p) p o' 0 sz i s Hn Hc eq_refl)
    as (s' & Hrun & Hf & Hcond & _).
  exists s'. split_and!; [|apply (Hf (addr =? 0))|].
  - unfold branch_test. cbn [orient]. by rewrite bool_decide_eq_true_2 by done.
  - intros Hb Hp Hm. eexists. split; [by apply Hcond|].
    destruct Hc as [-> | ->]; simpl; by destruct (addr =? 0).
Qed.

Definition ex_lookup_ptr : ptr_ val :=
  set_map (Some 0) (set_key (VNum 5 1 4 (-1)) (Some 9) (set_null None
    (ptr_default PTR_TO_MAP_VALUE 0 VNone (-1) (Some 9)))).

Lemma null_test_sound_witness : ∃ s',
  branch_test false JNE (VPtr 1 ex_lookup_ptr) (VNum 2 0 4 (-1)) false ex_state = Ok (tt, s') ∧
  cond_t (bs_blk s') = Some (FPtr (mk_ptrf (Some 9) (VPtr 1 ex_lookup_ptr) (Some false))).
Proof.
  destruct (null_test_sound false JNE false 1 2 ex_lookup_ptr 4 (-1) 4096 true ex_state)
    as (s' & H1 & H2 & _).
  - reflexivity.
  - by right.
  - split; [discriminate|reflexivity].
  - reflexivity.
  - exists s'. split; [exact H1|exact H2].
Defined.

(** With the constant on the left, [0 == p] or [0 != p], the test is turned
    around with the negated jump code instead of the mirrored one: the fact on
    the edge the machine takes says the opposite of what holds, that a null
    pointer is safe to dereference and that a valid one is null. *)
Theorem flipped_null_test_unsound brief code j o o' p sz i addr taken s :
  p_checked_null p = None → code = JEQ ∨ code = JNE → 0 <= addr < 2 ^ 64 →
  _jmp_taken code 0 addr false = Ok taken →
  ∃ s', branch_test brief code (VNum o' 0 sz i) (VPtr o p) j s = Ok (tt, s') ∧
    fact_on taken (bs_blk s')
    = Some (FPtr (mk_ptrf (null_fact_id p) (VPtr o p) (Some (negb (addr =? 0))))).
Proof.
  intros Hn Hc Ha Ht.
  assert (taken = (if code =? JEQ then addr =? 0 else negb (addr =? 0))) as ->.
  { rewrite jmp_taken_isa in Ht. unfold isa_jmp in Ht. simpl jmp_bits in Ht.
    rewrite !wrap_small, (Z.eqb_sym 0) in Ht by lia.
    by destruct Hc as [-> | ->]; injection Ht as <-. }
  destruct (branch_null_run brief (swap_jmp_code code) (VPtr o p) p o' 0 sz i s Hn)
    as (s' & Hrun & Hf & _); [destruct Hc as [-> | ->]; auto|done|].
  exists s'. split.
  - assert (orient code (VNum o' 0 sz i) (VPtr o p)
      = (swap_jmp_code code, VPtr o p, VNum o' 0 sz i)) as Ho.
    { unfold orient. rewrite bool_decide_eq_true_2 by done. by destruct Hc as [-> | ->]. }
    unfold branch_test. rewrite Ho. by rewrite bool_decide_eq_true_2 by done.
  - pose proof (Hf (negb (addr =? 0))) as Hf'. destruct Hc as [-> | ->].
    + change (swap_jmp_code JEQ =? JEQ) with false in Hf'. cbv iota in Hf'.
      by rewrite negb_involutive in Hf'.
    + exact Hf'.
Qed.

Lemma flipped_null_test_unsound_witness : ∃ s',
  branch_test false JEQ (VNum 2 0 4 (-1)) (VPtr 1 ex_lookup_ptr) false ex_state = Ok (tt, s') ∧
  cond_t (bs_blk s') = Some (FPtr (mk_ptrf (Some 9) (VPtr 1 ex_lookup_ptr) (Some false))).
Proof.
  destruct (flipped_null_test_unsound false JEQ false 1 2 ex_lookup_ptr 4 (-1) 0 true ex_state)
    as (s' & H1 & H2).
  - reflexivity.
  - by left.
  - split; [discriminate|reflexivity].
  - reflexivity.
  - exists s'. split; [exact H1|exact H2].
Defined.

(** ** Testing the result of [bpf_xdp_adjust_*] *)

Lemma jmp_taken_ext code a b a' b' j : wrap (jmp_bits j) a = wrap (jmp_bits j) a' →
  wrap (jmp_bits j) b = wrap (jmp_bits j) b' → _jmp_taken code a b j = _jmp_taken code a' b' j.
Proof. intros. rewrite !jmp_taken_isa. f_equal. by apply isa_jmp_ext. Qed.

Definition is_jmp32 (ins : instr) : bool := opcode_class ins =? JMP32.

(** The immediate operand of a jump. *)
Lemma jmp_imm_run ins s v0 : opcode_s ins = S_IMM →
  ∃ o n sz s', (if opcode_s ins =? S_IMM then
      if opcode_class ins =? JMP then imm64 (imm ins)
      else new_num (Z.land (imm ins) 0xFFFFFFFF) 4 (-1) else mret v0) s = Ok (VNum o n sz (-1), s') ∧
    quiet s s' ∧ (is_jmp32 ins = true ∨ opcode_class ins = JMP →
      wrap (jmp_bits (is_jmp32 ins)) (Z.land n (mask 64)) = wrap (jmp_bits (is_jmp32 ins)) (imm ins)).
Proof.
  intros ->. simpl. unfold imm64. pose proof (jmp_bits_range (is_jmp32 ins)).
  destruct (opcode_class ins =? JMP) eqn:Ec;
    eexists _, _, _, _; (split; [reflexivity|]); (split; [done|]); intros Hc;
    rewrite land_mask, wrap_wrap_le by lia; [done|].
  destruct Hc as [Hc | Hc]; [|by rewrite Hc in Ec]. rewrite Hc. simpl jmp_bits.
  change 4294967295 with (mask 32). rewrite land_mask by lia. by apply wrap_wrap.
Qed.

Lemma branch_adjust_run brief idx ok s before : adjust_pending (bs_blk s) = Some (idx, before) →
  ∃ s', branch_adjust brief idx ok s = Ok (tt, s') ∧
    (∀ success, fact_on (eqb ok success) (bs_blk s')
       = Some (FAdjust (mk_adjf idx (if success then Some idx else before)))) ∧
    (brief = false → cond (bs_blk s') = Some (CAdjust ok idx)).
Proof.
  intros Hp. unfold branch_adjust, mbind, ST_bind, get_blk, gets. rewrite Hp. simpl.
  rewrite Z.eqb_refl. destruct brief, ok; eexists; (split; [reflexivity|]);
    (split; [by intros []|done]).
Qed.

(** C31 A test of the result of [bpf_xdp_adjust_head] selects the right packet view.
    For a call whose result reaches the test through constants and sign
    extensions only, and a test that tells 0 from [-EINVAL], the edge the machine
    takes when the call returned [ret] carries the view of a successful call
    exactly when it succeeded, and the old view otherwise; the recorded condition
    is the success of the call or its negation, as the branch asks. *)
Theorem adjust_test_sound t i ins w s o f dv before a0 a1 ok ret :
  py_index (t_instrs t) i = Ok ins → opcode_s ins = S_IMM →
  opcode_class ins = JMP ∨ opcode_class ins = JMP32 →
  swap_jmp_code (opcode_code ins) ≠ -1 ∨ opcode_code ins = JSET →
  0 <= dst_reg ins → regs (bs_blk s) !! Z.to_nat (dst_reg ins) = Some dv →
  0 <= src_reg ins → is_Some (regs (bs_blk s) !! Z.to_nat (src_reg ins)) →
  _adjust_ret_in dv = Some (VFunc o f) → evaluable (jmp_bits (is_jmp32 ins)) dv →
  adjust_pending (bs_blk s) = Some (fr_idx f, before) →
  _eval_at dv (VFunc o f) 0 = Some a0 → _eval_at dv (VFunc o f) (- EINVAL) = Some a1 →
  _jmp_taken (opcode_code ins) a0 (imm ins) (is_jmp32 ins) = Ok ok →
  _jmp_taken (opcode_code ins) a1 (imm ins) (is_jmp32 ins) = Ok (negb ok) →
  ret = 0 ∨ ret = - EINVAL → returned w (VFunc o f) ret →
  ∃ s' taken, track_branch t i s = Ok (tt, s') ∧
    _jmp_taken (opcode_code ins) (den w dv) (imm ins) (is_jmp32 ins) = Ok taken ∧
    fact_on taken (bs_blk s')
    = Some (FAdjust (mk_adjf (fr_idx f) (if ret =? 0 then Some (fr_idx f) else before))) ∧
    taken = eqb ok (ret =? 0) ∧
    (t_brief t = false → cond (bs_blk s') = Some (CAdjust ok (fr_idx f))).
Proof.
  intros Hi Hs Hcl Hsw H0d Hdv H0s [v0 Hv0] Hrv Hev Hp Ha0 Ha1 Ht0 Ht1 Hret Hw.
  set (j := is_jmp32 ins) in *.
  destruct (jmp_imm_run ins s v0 Hs) as (on & n & sz & s1 & H1 & [Hq1 _] & Hk).
  assert (wrap (jmp_bits j) (Z.land n (mask 64)) = wrap (jmp_bits j) (imm ins)) as Hn.
  { apply Hk. unfold j, is_jmp32. destruct Hcl as [-> | ->]; auto. }
  assert (adjust_outcomes (VFunc o f) dv (VNum on n sz (-1)) (opcode_code ins) j
    = Ok (Some (ok, negb ok))) as Hout.
  { unfold adjust_outcomes. rewrite Ha0, Ha1. simpl.
    rewrite (jmp_taken_ext _ a0 _ a0 (imm ins)), (jmp_taken_ext _ a1 _ a1 (imm ins)) by done.
    by rewrite Ht0, Ht1. }
  destruct (branch_adjust_run (t_brief t) (fr_idx f) ok s1 before) as (s2 & H2 & Hf & Hc);
    [by rewrite Hq1|].
  exists s2, (eqb ok (ret =? 0)). split_and!; [| |apply Hf|done|exact Hc].
  - unfold track_branch. rewrite Hi, lift_bind.
    rewrite (bind_run _ _ v0 s s) by (by apply get_reg_run). rewrite (bind_run _ _ _ _ _ H1).
    rewrite (bind_run _ _ dv s1 s1) by (apply get_reg_run; [done|by rewrite Hq1]).
    assert (negb (swap_jmp_code (opcode_code ins) =? -1) || (opcode_code ins =? JSET) = true) as ->.
    { destruct Hsw as [Hsw | ->]; [|by rewrite orb_true_r].
      by rewrite (proj2 (Z.eqb_neq _ _) Hsw). }
    simpl guard_or. rewrite lift_bind, Hrv. change (opcode_class ins =? JMP32) with j.
    unfold mbind, ST_bind. rewrite Hout. simpl. by destruct ok.
  - pose proof (jmp_bits_range j) as Hj.
    destruct Hret as [-> | ->].
    + rewrite <- (jmp_taken_ext _ a0 (imm ins)); [|by eapply eval_at_wrap; [done|lia|..]|done].
      rewrite Ht0. by destruct ok.
    + rewrite <- (jmp_taken_ext _ a1 (imm ins)); [|by eapply eval_at_wrap; [done|lia|..]|done].
      rewrite Ht1. by destruct ok.
Qed.

(** [if (bpf_xdp_adjust_head(...)) goto fail] after a failed call at 5. *)
Definition ex_adjust_ins : instr :=
  match new_instr 0 0 (encode_slot 0x55 0 0 3 0) false with Ok i => i | Err _ => nop_instr 0 0 end.
Definition ex_adjust_state : bstate :=
  mk_bs (set_pending (Some (5, Some (-1)))
           (set_store (ex_rv :: replicate 10 VNone) [] (new_Block 0 0 0))) 100 50.

Lemma adjust_test_sound_witness : ∃ s',
  track_branch (mk_tracker [] [ex_adjust_ins] [] [] [] false) 0 ex_adjust_state = Ok (tt, s') ∧
  cond_t (bs_blk s') = Some (FAdjust (mk_adjf 5 (Some (-1)))) ∧
  cond (bs_blk s') = Some (CAdjust false 5).
Proof.
  destruct (adjust_test_sound (mk_tracker [] [ex_adjust_ins] [] [] [] false) 0 ex_adjust_ins
    (λ v _, if is_func v then wrap 64 (-22) else 0) ex_adjust_state 1
    (mk_func 8 5 44 0 None VNone None 0 false) ex_rv (Some (-1)) 0 (wrap 64 (-22)) false (-22))
    as (s' & taken & H1 & H2 & H3 & H4 & H5).
  all: try (reflexivity || exact I).
  - by left.
  - left. discriminate.
  - by eexists.
  - by right.
  - intros o f l _. reflexivity.
  - exists s'. split; [exact H1|]. rewrite H4 in H3. split; [exact H3|exact (H5 eq_refl)].
Defined.
