(* ===== verification/AccessSound.v ===== *)
(** Loads, stores and calls of the tracker ([track/tracker.py]): wide constants
    round-trip through the decoder, memory is only accessed through pointers
    proven not to be null and of a region that allows it, and a helper call
    clobbers exactly the caller-saved registers. *)

From S2P Require Import Prelude Words Constants Instr Link Expr Record Denote Branch Encode Action.
From S2P Require Import Block Cfg Tracker Frame TrackerSound FactSound.

(** ** Wide constants *)

(** The two slots of [lddw dst, hi:lo]. *)
Definition encode_wide (dst lo hi : Z) : list Z :=
  encode_slot 0x18 dst 0 0 lo ++ encode_slot 0 0 0 0 hi.

Lemma le_int_app xs ys : le_int (xs ++ ys) = le_int xs + 2 ^ (8 * Z.of_nat (length xs)) * le_int ys.
Proof.
  induction xs as [|x xs IH]; [simpl; lia|].
  cbn [app le_int length]. rewrite IH.
  replace (8 * Z.of_nat (S (length xs))) with (8 + 8 * Z.of_nat (length xs)) by lia.
  rewrite Z.pow_add_r by lia. lia.
Qed.

Lemma wide_next hi : le_int (encode_slot 0 0 0 0 hi) = 2 ^ 32 * wrap 32 hi.
Proof.
  change (encode_slot 0 0 0 0 hi) with ([0; 0; 0; 0] ++ le_bytes 4 (wrap 32 hi)).
  rewrite le_int_app, le_int_bytes. change (8 * Z.of_nat 4) with 32.
  change (length [0; 0; 0; 0]) with 4%nat. change (8 * Z.of_nat 4) with 32.
  change (le_int [0; 0; 0; 0]) with 0. rewrite Z.mod_small by (apply wrap_range; lia). lia.
Qed.

Lemma parse_wide n a dst lo hi : 0 <= dst < 16 → - 2 ^ 31 <= lo < 2 ^ 31 →
  ∃ ins, new_instr n a (encode_wide dst lo hi) false = Ok ins ∧
    opcode_class ins = LD ∧ opcode_mode ins = IMM ∧ opcode_sz ins = 3 ∧ wide_instr ins = true ∧
    src_reg ins = 0 ∧ dst_reg ins = dst ∧ relocated ins = false ∧ imm ins = lo ∧
    next_imm ins = 2 ^ 32 * wrap 32 hi.
Proof.
  intros Hd Hl. pose proof (le_signed_bytes 4 lo ltac:(lia) Hl) as E4. simpl in E4.
  eexists. split; [reflexivity|]. cbn.
  change (0 * 16 + dst) with dst. assert (Z.shiftr dst 4 = 0) as Hs.
  { rewrite Z.shiftr_div_pow2 by lia. apply Z.div_small. lia. }
  split_and!; try done.
  - by rewrite Hs.
  - change 15 with (Z.ones 4). rewrite Z.land_ones by lia. by apply Z.mod_small.
  - apply wide_next.
Qed.

Lemma lor_concat hi lo :
  Z.lor (Z.shiftl (wrap 32 hi) 32) (wrap 32 lo) = wrap 32 lo + 2 ^ 32 * wrap 32 hi.
Proof.
  pose proof (wrap_range 32 lo ltac:(lia)) as Hl. rewrite Z.add_comm, Z.mul_comm.
  apply Z.bits_inj'. intros n Hn. rewrite Z.lor_spec, testbit_concat by lia.
  destruct (Z.ltb_spec n 32).
  - by rewrite Z.shiftl_spec_low by done.
  - rewrite Z.shiftl_spec_high, (testbit_high (wrap 32 lo) 32) by lia. apply orb_false_r.
Qed.

Lemma track_wide t i ins dst lo hi s : py_index (t_instrs t) i = Ok ins →
  0 <= dst < Z.of_nat (length (regs (bs_blk s))) →
  opcode_class ins = LD → opcode_mode ins = IMM → opcode_sz ins = 3 → wide_instr ins = true →
  src_reg ins = 0 → dst_reg ins = dst → relocated ins = false → imm ins = lo →
  next_imm ins = 2 ^ 32 * wrap 32 hi →
  ∃ s' o, track_load t i s = Ok (tt, s') ∧ regs (bs_blk s') = <[Z.to_nat dst :=
    VNum o (wrap 32 lo + 2 ^ 32 * wrap 32 hi) 8 (-1)]> (regs (bs_blk s)).
Proof.
  intros Hi Hdst Hc Hm Hz Hwd Hs Hd Hr Him Hn.
  assert (Z.lor (Z.shiftl (Z.land (Z.shiftr (next_imm ins) 32) 0xFFFFFFFF) 32)
            (Z.land (imm ins) 0xFFFFFFFF) = wrap 32 lo + 2 ^ 32 * wrap 32 hi) as Hv.
  { change 4294967295 with (mask 32). rewrite !land_mask, Him, Hn by lia.
    rewrite Z.mul_comm, <- Z.shiftl_mul_pow2, Z.shiftr_shiftl_l by lia.
    simpl (32 - 32). rewrite Z.shiftl_0_r, wrap_wrap, lor_concat, Z.shiftl_mul_pow2 by lia. lia. }
  destruct (new_num_run (wrap 32 lo + 2 ^ 32 * wrap 32 hi) 8 (-1) s) as (o & s1 & H1 & [Hq _]).
  destruct (set_reg_run dst (VNum o (wrap 32 lo + 2 ^ 32 * wrap 32 hi) 8 (-1)) s1)
    as (s2 & H2 & Hr2 & _); [by rewrite Hq|].
  exists s2, o. split; [|by rewrite Hr2, Hq].
  unfold track_load, load_imm. rewrite Hi, lift_bind, Hz.
  change (dict_getitem sz_map 3) with (Ok 8). rewrite lift_bind, Hd.
  erewrite bind_run; [exact H2|]. rewrite Hc, Hm, Hwd, Hs, Hr, Hv. exact H1.
Qed.

(** A wide constant survives decoding and tracking: the two slots of
    [lddw dst, c], decoded and tracked, leave in [dst] a constant that stands for
    the 64 bits of [c] (the low word sign-encoded in the first slot, the high
    word in the second); no other register changes. *)
Theorem wide_constant_roundtrip w t i a dst lo hi s :
  0 <= dst < Z.of_nat (length (regs (bs_blk s))) → dst < 16 →
  - 2 ^ 31 <= lo < 2 ^ 31 → - 2 ^ 31 <= hi < 2 ^ 31 →
  py_index (t_instrs t) i = new_instr i a (encode_wide dst lo hi) false →
  ∃ s' v, track_load t i s = Ok (tt, s') ∧
    regs (bs_blk s') = <[Z.to_nat dst := v]> (regs (bs_blk s)) ∧
    rep w v (wrap 64 (wrap 32 lo + 2 ^ 32 * hi)).
Proof.
  intros Hd Hd' Hl Hh Hi.
  destruct (parse_wide i a dst lo hi) as (ins & HE & H1 & H2 & H3 & H4 & H5 & H6 & H7 & H8 & H9);
    [lia|done|]. rewrite HE in Hi.
  destruct (track_wide t i ins dst lo hi s Hi Hd H1 H2 H3 H4 H5 H6 H7 H8 H9)
    as (s' & o & Hrun & Hr).
  exists s', (VNum o (wrap 32 lo + 2 ^ 32 * wrap 32 hi) 8 (-1)). split_and!; [done..|].
  apply rep_num; [by right|]. rewrite <- (wrap_add 64 (wrap 32 lo) (2 ^ 32 * hi)) by lia.
  rewrite <- wrap_add by lia. f_equal. f_equal. unfold wrap.
  change (2 ^ 64) with (2 ^ 32 * 2 ^ 32). rewrite !Z.mul_mod_distr_l by lia.
  by rewrite Z.mod_mod by lia.
Qed.

Definition ex_wide : instr :=
  match new_instr 0 0 (encode_wide 3 (-1) 7) false with Ok i => i | Err _ => nop_instr 0 0 end.

Lemma wide_constant_roundtrip_witness : ∃ s' v,
  track_load (mk_tracker [] [ex_wide] [] [] [] false) 0 ex_state = Ok (tt, s') ∧
  regs (bs_blk s') !! 3%nat = Some v ∧ rep (λ _ _, 0) v 0x7ffffffff.
Proof.
  destruct (wide_constant_roundtrip (λ _ _, 0) (mk_tracker [] [ex_wide] [] [] [] false) 0 0 3 (-1) 7
    ex_state) as (s' & v & H1 & H2 & H3).
  - split; vm_compute; congruence.
  - reflexivity.
  - split; vm_compute; congruence.
  - split; vm_compute; congruence.
  - reflexivity.
  - exists s', v. split; [exact H1|]. split; [by rewrite H2|exact H3].
Defined.

(** ** Memory accesses *)

Definition readable : list Z :=
  [PTR_TO_CTX; PTR_TO_STK; PTR_TO_PKT; PTR_TO_MAP_VALUE; PTR_TO_BSS; PTR_TO_RODATA].
Definition writable : list Z :=
  [PTR_TO_CTX; PTR_TO_STK; PTR_TO_PKT; PTR_TO_MAP_VALUE; PTR_TO_BSS].

(** A pointer the tracker lets a load go through. *)
Definition may_read (v : val) : Prop :=
  ∃ o p, v = VPtr o p ∧ p_checked_null p = Some false ∧ p_type p ∈ readable.

(** And a store of [size] bytes at offset [off] from it. *)
Definition may_write (v : val) (off size : Z) : Prop :=
  ∃ o p, v = VPtr o p ∧ (p_checked_null p = Some false ∨ p_type p = PTR_TO_STK) ∧
    p_type p ∈ writable ∧ (p_type p = PTR_TO_CTX → p_off p + off = 16 ∧ size = 4).

Ltac member := unfold readable, writable; rewrite !elem_of_cons; tauto.

Lemma load_checked i p off sz br s r : load i p off sz br s = Ok r →
  p_checked_null p = Some false ∧ p_type p ∈ readable.
Proof.
  intros HE. unfold load in HE. destruct r as [v s']. res_inv. bool_prop. split; [done|].
  unfold readable. rewrite !elem_of_cons.
  repeat (case_match; bool_prop; [tauto|]). by res_inv.
Qed.

Lemma store_checked i o p off sz v s s' : store_mem i p off sz v s = Ok (tt, s') →
  may_write (VPtr o p) off sz.
Proof.
  intros HE. unfold store_mem in HE. res_inv. bool_prop. exists o, p.
  split; [done|]. split; [by left|]. unfold writable. rewrite !elem_of_cons.
  destruct (p_type p =? PTR_TO_STK) eqn:E1; [bool_prop; rewrite E1; split; [tauto|done]|].
  destruct (p_type p =? PTR_TO_CTX) eqn:E2.
  { bool_prop. res_inv. bool_prop. split; [tauto|]. done. }
  bool_prop. split; [|done]. repeat (case_match; bool_prop; [tauto|]). by res_inv.
Qed.

Lemma atomic_checked br i ins sz v dv s s' : store_atomic br i ins sz v dv s = Ok (tt, s') →
  may_write dv (offset ins) sz.
Proof.
  intros HE. unfold store_atomic in HE. res_inv. destruct dv as [| | | | | | | | | | | | | | | | |o p];
    try by res_inv.
  exists o, p. split; [done|]. destruct (p_type p =? PTR_TO_STK) eqn:E1.
  { bool_prop. rewrite E1. split; [by right|]. split; [member|done]. }
  res_inv. bool_prop. match goal with H : load _ _ _ _ _ _ = Ok _ |- _ =>
    apply load_checked in H as [Hn _] end.
  split; [by left|].
  assert (p_type p = PTR_TO_MAP_VALUE ∨ p_type p = PTR_TO_BSS) as [Ht | Ht];
    [|rewrite Ht; split; [member|discriminate]..].
  match goal with H : _ ∨ _ |- _ => exact H | H : (_ || _) = true |- _ =>
    apply orb_true_iff in H; by rewrite !Z.eqb_eq in H end.
Qed.

(** C32 Memory safety of the accesses that are tracked. A load instruction the
    tracker accepts goes through a pointer proven not to be null, to the context,
    the stack, the packet, a map value, a global or read-only data; a store or an
    atomic operation it accepts goes through such a pointer (or one to the stack)
    to a writable region, and to the context only at the four bytes of
    [rx_queue_index]. Everything else raises: scalars and missing values, the
    result of a map lookup not yet tested, [data_end], map handles, read-only
    data. *)
Theorem memory_access_checked t i ins s s' :
  py_index (t_instrs t) i = Ok ins →
  (opcode_class ins = LDX → track_load t i s = Ok (tt, s') →
     ∃ v, py_index (regs (bs_blk s)) (src_reg ins) = Ok v ∧ may_read v) ∧
  (track_store t i s = Ok (tt, s') →
     ∃ v size, py_index (regs (bs_blk s)) (dst_reg ins) = Ok v ∧
       dict_getitem sz_map (opcode_sz ins) = Ok size ∧ may_write v (offset ins) size).
Proof.
  intros Hi. split.
  - intros Hc HE. unfold track_load in HE. rewrite Hi, lift_bind, Hc in HE. res_inv.
    unfold load_mem, get_reg, get_blk in *. simpl in *. res_inv.
    match goal with H : py_index _ _ = Ok ?v |- _ => exists v; split; [done|]; destruct v end;
      try by res_inv.
    res_inv. match goal with H : load _ _ _ _ _ _ = Ok _ |- _ => apply load_checked in H as [??] end.
    by eexists _, _.
  - intros HE. unfold track_store in HE. rewrite Hi, lift_bind in HE. cbv zeta in HE.
    unfold get_reg, get_blk in HE. res_inv. eexists _, _. split; [done|]. split; [done|].
    repeat (case_match; [by res_inv|]). case_match.
    + case_match; try by res_inv. by eapply store_checked.
    + case_match; [|by res_inv]. by eapply atomic_checked.
Qed.

(** [r0 = *(u32 * )(r1 + 0)] from the context, and through an untested lookup. *)
Definition ex_load : instr :=
  match new_instr 0 0 (encode_slot 0x61 0 1 0 0) false with Ok i => i | Err _ => nop_instr 0 0 end.
Definition ex_load_tracker : tracker := mk_tracker [] [ex_load] [] [] [] false.
Definition ex_load_state (v : val) : bstate :=
  mk_bs (set_store (<[1%nat := v]> (replicate 11 VNone)) [] (new_Block 0 0 0)) 100 50.
Definition ex_ctx : val := VPtr 1 (ptr_default PTR_TO_CTX 0 VNone (-1) (Some (-1))).

Lemma memory_access_checked_witness :
  is_Ok (track_load ex_load_tracker 0 (ex_load_state ex_ctx)) = true ∧ may_read ex_ctx.
Proof.
  destruct (track_load ex_load_tracker 0 (ex_load_state ex_ctx)) as [[[] s']|] eqn:E;
    [|vm_compute in E; discriminate E].
  split; [reflexivity|].
  destruct (proj1 (memory_access_checked ex_load_tracker 0 ex_load (ex_load_state ex_ctx) s' eq_refl)
    eq_refl E) as (v & Hv & Hr).
  vm_compute in Hv. injection Hv as <-. exact Hr.
Defined.

Example load_untested_lookup :
  track_load ex_load_tracker 0 (ex_load_state (VPtr 1 ex_lookup_ptr))
  = Err (ExceptionErr "load: dereference of a pointer not proven non-null").
Proof. reflexivity. Qed.

(** ** Calls *)

(** The registers from [r6] on and the stack stay as they are. *)
Definition callee_saved (s s' : bstate) : Prop :=
  stk (bs_blk s') = stk (bs_blk s) ∧ length (regs (bs_blk s')) = length (regs (bs_blk s)) ∧
  ∀ r, (6 <= r)%nat → regs (bs_blk s') !! r = regs (bs_blk s) !! r.

#[export] Instance callee_saved_frame : OutFrame callee_saved.
Proof.
  split; [|done]. split; [split|done..]; [done|]. intros s1 s2 s3 (E1 & L1 & H1) (E2 & L2 & H2).
  split; [congruence|]. split; [congruence|]. intros r Hr. by rewrite H2, H1.
Qed.

Lemma callee_saved_low r v : (0 <= r < 6) → Keeps callee_saved (set_reg r v).
Proof.
  intros Hr s a s' HE. unfold set_reg, get_blk, upd_blk in HE. res_inv.
  match goal with H : py_setitem _ _ _ = Ok _ |- _ => apply py_setitem_Ok in H; [|lia]; subst end.
  split; [done|]. simpl. split; [apply length_insert|]. intros n Hn.
  apply list_lookup_insert_ne. lia.
Qed.

Lemma callee_saved_upd f : (∀ b, stk (f b) = stk b) → (∀ b, regs (f b) = regs b) →
  Keeps callee_saved (upd_blk f).
Proof.
  intros Hs Hr s a s' HE. unfold upd_blk in HE. res_inv. unfold callee_saved. simpl.
  by rewrite Hs, Hr.
Qed.

#[local] Hint Extern 1 (Keeps callee_saved (set_reg _ _)) =>
  apply callee_saved_low; lia : typeclass_instances.
#[local] Hint Extern 1 (Keeps callee_saved (upd_blk _)) =>
  apply callee_saved_upd; intros; reflexivity : typeclass_instances.

#[local] Instance callee_saved_get r : Keeps callee_saved (get_reg r).
Proof. unfold get_reg, get_blk. apply _. Qed.
#[local] Instance callee_saved_cond c : Keeps callee_saved (set_branch_cond c).
Proof. unfold set_branch_cond. apply _. Qed.
#[local] Instance callee_saved_scalar i : Keeps callee_saved (to_scalar i).
Proof. unfold to_scalar. apply _. Qed.
#[local] Instance callee_saved_ptr r : Keeps callee_saved (ptr_reg r).
Proof. unfold ptr_reg. keeps_auto. Qed.
#[local] Instance callee_saved_retval sz i f : Keeps callee_saved (new_retval sz i f).
Proof. unfold new_retval, get_blk. apply _. Qed.
#[local] Instance callee_saved_args : Keeps callee_saved adjust_args.
Proof. unfold adjust_args. keeps_auto. Qed.
#[local] Instance callee_saved_tail t i : Keeps callee_saved (call_tail t i).
Proof. unfold call_tail, _tail_region, get_blk. keeps_auto. Qed.

Lemma callee_saved_helper t i f : f ≠ 44 → Keeps callee_saved (call_helper t i f).
Proof.
  intros Hf. unfold call_helper, call_lookup, call_update, call_delete, call_scalar,
    call_csum_diff, call_adjust_other, call_redirect, call_buff_len, get_blk.
  rewrite (proj2 (Z.eqb_neq f 44) Hf). keeps_auto.
Qed.

Lemma set_reg_inv r v a (s s' : bstate) : 0 <= r → set_reg r v s = Ok (a, s') →
  (Z.to_nat r < length (regs (bs_blk s)))%nat ∧
  regs (bs_blk s') = <[Z.to_nat r := v]> (regs (bs_blk s)).
Proof.
  intros Hr HE. unfold set_reg, get_blk, upd_blk in HE. res_inv. simpl.
  match goal with H : py_setitem _ _ _ = Ok _ |- _ => pose proof H as Hi;
    apply py_setitem_Ok in H; [|done]; subst; split; [|done] end.
  unfold py_setitem in Hi. cbv zeta in Hi. rewrite (proj2 (Z.ltb_ge r 0)) in Hi by done.
  destruct (_ || _) eqn:Eo in Hi; [done|]. apply orb_false_iff in Eo as [_ Eo].
  apply Z.leb_gt in Eo. lia.
Qed.

Lemma clobber_list l vs s s' : (∀ i, i ∈ l → 0 <= i < 6) →
  mapST (λ i, set_reg i VNone) l s = Ok (vs, s') →
  callee_saved s s' ∧ ∀ r, Z.of_nat r ∈ l ∨ regs (bs_blk s) !! r = Some VNone →
    regs (bs_blk s') !! r = Some VNone.
Proof.
  revert s vs. induction l as [|i l IH]; intros s vs Hl HE.
  { simpl in HE. res_inv. split; [reflexivity|]. intros r [Hr | ?]; [|done].
    by apply not_elem_of_nil in Hr. }
  cbn [mapST] in HE. res_inv. pose proof (Hl i ltac:(left)) as Hi.
  pose proof (callee_saved_low i VNone Hi _ _ _ E) as Hs.
  destruct (set_reg_inv _ _ _ _ _ (proj1 Hi) E) as [Hlt Hreg].
  destruct (IH _ _ (λ j Hj, Hl j ltac:(by right)) E0) as [Hs' Hall].
  split; [by etransitivity|]. intros r Hr. apply Hall. rewrite Hreg.
  destruct (decide (r = Z.to_nat i)) as [-> | Hne].
  - right. by apply list_lookup_insert_eq.
  - rewrite elem_of_cons in Hr. destruct Hr as [[Hri | ?] | ?]; [lia|by left|].
    right. by rewrite list_lookup_insert_ne.
Qed.

Lemma clobber_run s s' : clobber s = Ok (tt, s') →
  callee_saved s s' ∧ ∀ r, (1 <= r < 6)%nat → regs (bs_blk s') !! r = Some VNone.
Proof.
  intros HE. unfold clobber in HE. res_inv.
  assert (∀ i, i ∈ zrange 1 6 ↔ 1 <= i < 6) as Hz.
  { intros i. unfold zrange. rewrite elem_of_seqZ. lia. }
  destruct (clobber_list _ _ _ _ (λ i Hi, ltac:(apply Hz in Hi; lia)) E) as [Hs Hr].
  split; [done|]. intros r ?. apply Hr. left. apply Hz. lia.
Qed.

(** Equal but for the packet view of a context pointer. *)
Definition same_but_view (v v' : val) : Prop :=
  v' = v ∨ ∃ o o' p, v = VPtr o p ∧ p_type p = PTR_TO_CTX ∧ v' = VPtr o' (set_base None p).

Lemma with_view_run v s v' s' : _with_view v None s = Ok (v', s') →
  same_but_view v v' ∧ bs_blk s' = bs_blk s.
Proof.
  unfold _with_view. destruct v; intros HE; try (res_inv; split; [by left|done]).
  destruct (_ || _) eqn:Eo in HE; [res_inv; split; [by left|done]|].
  apply copy_ptr_blk in HE as [[o' ->] Hb]. split; [|done]. right.
  apply orb_false_iff in Eo as [Eo _]. apply negb_false_iff, Z.eqb_eq in Eo. eauto 6.
Qed.

Lemma with_views_run l (s : bstate) l' s' :
  mapST (λ v, _with_view v None) l s = Ok (l', s') → Forall2 same_but_view l l'.
Proof.
  intros Hl. apply (mapST_inv _ (λ _, True)) in Hl as [_ Hl]; [|done..].
  eapply Forall2_impl; [exact Hl|]. intros x y (t1 & t2 & _ & Hr). exact (proj1 (with_view_run _ _ _ _ Hr)).
Qed.

Lemma ctx_view_run s s' : set_ctx_view None s = Ok (tt, s') →
  Forall2 same_but_view (regs (bs_blk s)) (regs (bs_blk s')) ∧
  Forall2 same_but_view (stk (bs_blk s)) (stk (bs_blk s')).
Proof.
  intros HE. unfold set_ctx_view, get_blk, upd_blk in HE. res_inv. simpl.
  split; by eapply with_views_run.
Qed.

Lemma adjust_head_run t i f s s' : call_adjust_head t i f s = Ok (tt, s') →
  ∃ s1, callee_saved s s1 ∧ set_ctx_view None s1 = Ok (tt, s').
Proof.
  intros HE. unfold call_adjust_head in HE. apply ST_bind_Ok in HE as ([p d] & s0 & H0 & HE).
  assert (∀ v, Keeps callee_saved (if t_brief t then mret tt else emit (AdjustHead d v))) as Hk
    by (intros; apply _).
  apply ST_bind_Ok in HE as (r0 & s1 & H1 & HE). apply ST_bind_Ok in HE as ([] & s2 & H2 & HE).
  apply ST_bind_Ok in HE as ([] & s3 & H3 & HE). apply ST_bind_Ok in HE as ([] & s4 & H4 & HE).
  exists s4. split; [|exact HE].
  transitivity s0; [exact (callee_saved_args _ _ _ H0)|].
  transitivity s1; [exact (callee_saved_retval _ _ _ _ _ _ H1)|].
  transitivity s2; [exact (callee_saved_low 0 r0 ltac:(lia) _ _ _ H2)|].
  transitivity s3; [exact (Hk _ _ _ _ H3)|].
  exact (callee_saved_upd (set_pending _) (λ _, eq_refl) (λ _, eq_refl) _ _ _ H4).
Qed.

(** The calling convention of helpers. When a helper call is tracked, [r1] to
    [r5] hold nothing afterwards, and the registers from [r6] on and the stack
    are what they were; [bpf_xdp_adjust_head], which invalidates the packet,
    changes no more than the packet view of the context pointers among them. *)
Theorem call_convention t i ins s s' :
  py_index (t_instrs t) i = Ok ins → src_reg ins = 0 → track_call t i s = Ok (tt, s') →
  (∀ r, (1 <= r < 6)%nat → regs (bs_blk s') !! r = Some VNone) ∧
  (imm ins ≠ 44 → stk (bs_blk s') = stk (bs_blk s) ∧
     ∀ r, (6 <= r)%nat → regs (bs_blk s') !! r = regs (bs_blk s) !! r) ∧
  (imm ins = 44 → Forall2 same_but_view (stk (bs_blk s)) (stk (bs_blk s')) ∧
     ∀ r v, (6 <= r)%nat → regs (bs_blk s) !! r = Some v →
       ∃ v', regs (bs_blk s') !! r = Some v' ∧ same_but_view v v').
Proof.
  intros Hi Hsrc HE. unfold track_call in HE. rewrite Hi, lift_bind, Hsrc in HE. simpl in HE.
  apply ST_bind_Ok in HE as ([] & s1 & E & HE). destruct (clobber_run _ _ HE) as [(Hstk & _ & Hsav) Hnone].
  split_and!; [done| |].
  - intros Hf. pose proof (callee_saved_helper t i _ Hf _ _ _ E) as (Hk & _ & Hr).
    split; [congruence|]. intros r ?. by rewrite Hsav, Hr.
  - intros Hf. rewrite Hf in E. change (call_helper t i 44) with (call_adjust_head t i 44) in E.
    destruct (adjust_head_run _ _ _ _ _ E) as (s2 & (Hk & _ & Hr) & Hv).
    destruct (ctx_view_run _ _ Hv) as [Hregs Hstks]. split; [by rewrite Hstk, <- Hk|].
    intros r v Hr6 Hv0. rewrite <- Hr in Hv0 by done.
    destruct (Forall2_lookup_l _ _ _ _ _ Hregs Hv0) as (v' & Hv' & Hsame). exists v'.
    by rewrite Hsav.
Qed.

(** A call to [bpf_get_prandom_u32] with the context in [r1] and [r6]. *)
Definition ex_call : instr :=
  match new_instr 0 0 (encode_slot 0x85 0 0 0 7) false with Ok i => i | Err _ => nop_instr 0 0 end.
Definition ex_call_state : bstate :=
  mk_bs (set_store (<[6%nat := ex_ctx]> (<[1%nat := ex_ctx]> (replicate 11 VNone))) []
           (new_Block 0 0 0)) 100 50.

Lemma call_convention_witness : ∃ s',
  track_call (mk_tracker [] [ex_call] [] [] [] false) 0 ex_call_state = Ok (tt, s') ∧
  regs (bs_blk s') !! 1%nat = Some VNone ∧ regs (bs_blk s') !! 6%nat = Some ex_ctx.
Proof.
  destruct (track_call (mk_tracker [] [ex_call] [] [] [] false) 0 ex_call_state) as [[[] s']|] eqn:E;
    [|vm_compute in E; discriminate E].
  exists s'. split; [reflexivity|].
  destruct (call_convention (mk_tracker [] [ex_call] [] [] [] false) 0 ex_call ex_call_state s'
    eq_refl eq_refl E) as (H1 & H2 & _).
  split; [apply H1; split; apply Nat.leb_le; reflexivity|].
  destruct (H2 ltac:(discriminate)) as [_ H]. rewrite H by (apply Nat.leb_le; reflexivity).
  reflexivity.
Defined.
