(* ===== verification/Slice.v ===== *)
(** Reads resolved against the writes before them ([verify/slice.py]): [Memory]
    turns a read of the packet, a map or a global into the last visible write of
    each byte, [Phis] a phi into the value of the edge taken.

    [m_st] is the state [install] leaves, whose hooks are the readers themselves.
    The dictionaries [_cache], [_keyz3] and [_applies_memo] and the counters are
    not modelled: a hit returns the term an earlier call with the same arguments
    computed. *)

From S2P Require Import Prelude Constants Smt Expr Record Link Encode Action Block Prune.

Section memory.
Context `{SMT}.

Record Memory := mk_mem {
  m_st : Z3State;
  m_blocks : list Block;
  m_anc : list (Z * gset Z);
  m_reach : Z → guard
}.

Definition all_actions (mem : Memory) : list action := mjoin (map actions (m_blocks mem)).

Definition is_write (a : action) : bool := bool_decide (is_Some (ml_region (action_loc a))).
Definition writes (mem : Memory) : list action :=
  filter (λ a, is_write a = true) (all_actions mem).
Definition presence_writes (mem : Memory) : list action :=
  filter (λ a, is_Some (presence a)) (all_actions mem).
Definition adjusts (mem : Memory) : list action :=
  filter (λ a, is_Some (len_delta a)) (all_actions mem).
Definition is_ctx_write (a : action) : bool :=
  match a_kind a with CtxWrite _ => true | _ => false end.
Definition ctx_writes (mem : Memory) : list action :=
  filter (λ a, is_ctx_write a = true) (all_actions mem).

(** The fields of the writes, where the class has them. *)
Definition written_value (a : action) : val :=
  match a_kind a with
  | PktWrite _ _ _ _ v | MapWrite _ _ _ _ v _ | MapAtomicAdd _ _ _ _ v _ _
  | MapUpdate _ _ v _ _ _ | BssWrite _ _ _ v _ | BssAtomicAdd _ _ _ v _ _ | CtxWrite v => v
  | _ => VNone
  end.
Definition old_value (a : action) : val :=
  match a_kind a with MapAtomicAdd _ _ _ _ _ _ o | BssAtomicAdd _ _ _ _ _ o => o | _ => VNone end.
Definition update_flags (a : action) : option (option Z) :=
  match a_kind a with MapUpdate _ _ _ f _ _ => Some f | _ => None end.

(** [_Loc(region, off, size, map_id, map_key, bss_key)]. *)
Definition _Loc (region off size : Z) (map_id : option Z) (map_key : val)
    (bss_key : option string) : mloc :=
  mk_loc (Some region) off VNone size map_id map_key bss_key.

Section ops.
Context (mem : Memory).
Let st := m_st mem.

Definition _key (map_id : option Z) (key_expr : val) : res bv := _map_key_z3 st map_id key_expr.

(** [b in self.anc.get(at_block, ())], or the block itself. *)
Definition _ran_before_block (b at_block : Z) : bool :=
  (b =? at_block) || bool_decide (b ∈ default ∅ (pget (m_anc mem) at_block)).

Definition _ran_before (w : action) (at_block : Z) : bool :=
  _ran_before_block (a_block w) at_block && negb (is_False (m_reach mem (a_block w))).

Definition _visible (w : action) (at_block at_idx : Z) : bool :=
  _ran_before_block (a_block w) at_block
  && negb ((a_block w =? at_block) && (at_idx <=? a_idx w))
  && negb (is_False (m_reach mem (a_block w))).

(** The writes of [present], which is called with [at_idx] for a lookup and
    without for the end of a block. *)
Definition seen_from (w : action) (at_block : Z) (at_idx : option Z) : bool :=
  match at_idx with None => _ran_before w at_block | Some i => _visible w at_block i end.

(** The body of [_applies], with [present] a parameter: the two call each other. *)
Definition applies_with (present : option Z → bv → option Z → option Z → res bl)
    (flags : option Z) (w : action) : res guard :=
  if match flags with Some f => Z.land f 3 =? 0 | None => false end then Ok (GPy true)
  else
    let map_id := ml_map_id (action_loc w) in
    key ← _key map_id (ml_map_key (action_loc w));
    p ← match _map_info st map_id with
        | Some info =>
            if _is_array_map st map_id then Ok (ULT key (BitVecVal (mi_max_entries info) (size key)))
            else present map_id key (Some (a_block w)) (Some (a_idx w))
        | None => present map_id key (Some (a_block w)) (Some (a_idx w))
        end;
    Ok (update_applies flags (a_idx w) p).

(** One update or deletion of the loop of [present]. *)
Definition present_step (applies : option Z → action → res guard) (map_id : option Z) (key_z3 : bv)
    (b : Z) (at_idx : option Z) (p : bl) (w : action) : res bl :=
  let loc := action_loc w in
  if negb (bool_decide (ml_map_id loc = map_id)) || negb (seen_from w b at_idx) then Ok p
  else
    let g := m_reach mem (a_block w) in
    g ← (if is_none (ml_map_key loc) then Ok g
         else k ← _key map_id (ml_map_key loc); Ok (_and g (GTm (bveq k key_z3))));
    g ← match update_flags w with
        | Some flags => if is_False g then Ok g else a ← applies flags w; Ok (_and g a)
        | None => Ok g
        end;
    let new := BoolVal (default false (presence w)) in
    Ok (match g with GPy false => p | GPy true => new | GTm c => IfBL c new p end).

(** [present] calls [_applies], and through it itself, on ever earlier updates:
    [fuel] bounds the depth, and one more than the number of [presence_writes] is
    enough ([SliceFold]). *)
Fixpoint present_f (fuel : nat) (map_id : option Z) (key_z3 : bv) (at_block : option Z)
    (at_idx : option Z) : res bl :=
  '(p0, _) ← map_cell st map_id;
  match at_block with
  | None => Ok (PSelect p0 key_z3)
  | Some b =>
      match fuel with
      | O => Err (RuntimeError "maximum recursion depth exceeded")
      | S fuel' =>
          foldR (present_step (applies_with (present_f fuel')) map_id key_z3 b at_idx)
                (PSelect p0 key_z3) (presence_writes mem)
      end
  end.

Definition read_fuel : nat := S (length (presence_writes mem)).
Definition present : option Z → bv → option Z → option Z → res bl := present_f read_fuel.
Definition _applies : option Z → action → res guard := applies_with present.

(** The condition under which [w] writes to the location. *)
Definition _write_guard (loc : mloc) (w : action) : res guard :=
  let wl := action_loc w in
  let g := m_reach mem (a_block w) in
  g ← match update_flags w with
      | Some flags => if is_False g then Ok g else a ← _applies flags w; Ok (_and g a)
      | None => Ok g
      end;
  if negb (bool_decide (ml_region loc = Some MAP)) || is_False g then Ok g
  else if bool_decide (is_Some (_const (ml_map_key loc)))
          && bool_decide (is_Some (_const (ml_map_key wl))) then Ok g
  else if is_none (ml_map_key loc) || is_none (ml_map_key wl) then Ok g
  else if is_same (ml_map_key loc) (ml_map_key wl) then Ok g
  else
    a ← _key (ml_map_id loc) (ml_map_key loc);
    b ← _key (ml_map_id wl) (ml_map_key wl);
    Ok (_and g (GTm (bveq a b))).

(** The byte of the initial state at a location. *)
Definition _initial_at (loc : mloc) : res (option bv) :=
  if bool_decide (ml_region loc = Some PKT) then
    Ok (Some (Select (z_pkt st) (BitVecVal (ml_off loc) (domain_size (z_pkt st)))))
  else if bool_decide (ml_region loc = Some MAP) then
    '(_, a) ← map_cell st (ml_map_id loc);
    key ← _key (ml_map_id loc) (ml_map_key loc);
    let v := Select a key in
    let lo := ml_off loc * 8 in
    Ok (Some (if lo + 8 <=? size v then Extract (lo + 7) lo v else BitVecVal 0 8))
  else if bool_decide (ml_region loc = Some BSS) then
    Ok (Some (Select (_bss_of st (ml_bss_key loc)) (BitVecVal (ml_off loc) BSS_ADDR_BITS)))
  else Ok None.

(** The byte a write at a fixed offset leaves at [offset], where it does. *)
Definition _written_byte (w : action) (offset : Z) : res (option bv) :=
  let wl := action_loc w in
  let n := Z.max (ml_size wl) 1 in
  if negb (is_none (ml_var_off wl))
     || negb ((ml_off wl <=? offset) && (offset <? ml_off wl + n)) then Ok None
  else
    let width := n * 8 in
    v ← expr_z3 st (written_value w);
    let v := _resize v width in
    v ← (if is_none (old_value w) then Ok v
         else o ← expr_z3 st (old_value w); Ok (bvadd (_resize o width) v));
    let lo := (offset - ml_off wl) * 8 in
    Ok (Some (Extract (lo + 7) lo v)).

(** One write of the loop of [_read] and [loc_byte]. *)
Definition read_step (loc : mloc) (offset : Z) (term : bv) (w : action) : res bv :=
  got ← _written_byte w offset;
  match got with
  | None => Ok term
  | Some v => g ← _write_guard loc w; Ok (if_guard g v term)
  end.

Definition seen_writes (loc : mloc) (at_block at_idx : Z) : list action :=
  filter (λ w, _visible w at_block at_idx && may_alias loc (action_loc w) = true) (writes mem).

(** The byte at offset [off] for a read at [at_block], [at_idx]. *)
Definition read_byte (loc : mloc) (off at_block at_idx : Z) : res (option bv) :=
  init ← _initial_at loc;
  match init with
  | None => Ok None
  | Some t => t ← foldR (read_step loc off) t (seen_writes loc at_block at_idx); Ok (Some t)
  end.

(** All bytes, unless one is missing. *)
Fixpoint all_some {A} (l : list (option A)) : option (list A) :=
  match l with
  | [] => Some []
  | Some x :: l' => (x ::.) <$> all_some l'
  | None :: _ => None
  end.

Definition _read (region off size : Z) (map_id : option Z) (map_key : val) (at_block at_idx : Z)
    (bss_key : option string) : res (option bv) :=
  bs ← mapR (λ i, read_byte (_Loc region (off + i) 1 map_id map_key bss_key) (off + i)
                    at_block at_idx) (zrange 0 size);
  match all_some bs with
  | None => Ok None
  | Some terms => out ← concat_or (rev terms); Ok (Some out)
  end.

Definition mem_pkt (pv : pkt_val_ val) : res (option bv) :=
  if negb (is_none (pv_var_off pv)) then Ok None
  else _read PKT (pv_off pv) (pv_size pv) None VNone (pv_block pv) (pv_idx pv) None.
Definition mem_map (mv : map_val_ val) : res (option bv) :=
  _read MAP (mv_off mv) (mv_size mv) (mv_map_id mv) (mv_map_key mv) (mv_block mv) (mv_idx mv) None.
Definition mem_bss (b : bss_val_ val) : res (option bv) :=
  if negb (is_none (bv_var_off b)) then Ok None
  else _read BSS (bv_off b) (bv_size b) None VNone (bv_block b) (bv_idx b) (bv_key b).

(** The byte at the end of a block. *)
Definition loc_byte (region offset size : Z) (map_id : option Z) (map_key : val) (at_block : Z)
    (bss_key : option string) : res (option bv) :=
  let loc := _Loc region offset size map_id map_key bss_key in
  init ← _initial_at loc;
  match init with
  | None => Ok None
  | Some t =>
      t ← foldR (read_step loc offset) t
            (filter (λ w, _ran_before w at_block && may_alias loc (action_loc w) = true)
                    (writes mem));
      Ok (Some t)
  end.

Definition pkt_len_at (at_block : option Z) : bv :=
  match at_block with
  | None => z_pkt_len st
  | Some b =>
      fold_left (λ n w,
        if negb (_ran_before w b) then n
        else
          let g := _and (m_reach mem (a_block w))
                     (if a_idx w <? 0 then GPy true else GTm (Bool (adjust_name (a_idx w)))) in
          if_guard g (bvsub n (BitVecVal (default 0 (len_delta w)) (size n))) n)
        (adjusts mem) (z_pkt_len st)
  end.

Definition rx_index_at (at_block : option Z) : res bv :=
  match at_block with
  | None => Ok (z_rx_index st)
  | Some b =>
      foldR (λ v w,
        if negb (_ran_before w b) then Ok v
        else
          let g := m_reach mem (a_block w) in
          t ← expr_z3 st (written_value w);
          Ok (if_guard g (_resize t (size v)) v)) (z_rx_index st) (ctx_writes mem)
  end.
End ops.

(** ** Phis

    [st_of active] is the state [Phis.install] leaves, its [read_phi] hook being
    [value] with the phis of [active] under evaluation. *)
Section phis.
Context (guard_of : Z → edge → guard) (st_of : gset Z → Z3State).

Definition _free (j : join_ val) : bv := BitVec (phi_name (j_block_idx j) (j_reg_num j)) 64.

(** The guard and term of every value whose edges can be taken. *)
Definition phi_terms (st : Z3State) (j : join_ val) : res (list (guard * bv)) :=
  foldR (λ ts (ve : val * list (Z * edge)),
    let g := _or_all (map (λ pe, guard_of pe.1 pe.2) ve.2) in
    if is_False g then Ok ts
    else t ← expr_z3 st ve.1; Ok (ts ++ [(g, _resize t 64)])) [] (zip (j_values j) (j_edges j)).

(** [terms[-1]], then the others from the last to the first in front of it. *)
Definition phi_chain (terms : list (guard * bv)) (dflt : bv) : bv :=
  match rev terms with
  | [] => dflt
  | (_, t) :: rest => fold_left (λ out gt, if_guard gt.1 gt.2 out) rest t
  end.

Definition phi_value (active : gset Z) (o : Z) (j : join_ val) : res bv :=
  if bool_decide (o ∈ active) then Ok (_free j)
  else
    terms ← phi_terms (st_of ({[o]} ∪ active)) j;
    Ok (phi_chain terms (_free j)).
End phis.
End memory.
