(* ===== verification/SliceSound.v ===== *)
(** Reads resolved by [verify/slice.py] are reads of memory: executing, in order,
    the writes a read can see and reading the cell afterwards gives, in every
    model, the value of the term [_read] builds; [pkt_len_at], [rx_index_at],
    [present] and the phis fold their writes the same way. *)

From S2P Require Import Prelude Words Constants Smt SmtTerm Expr Denote Branch Record Link Encode.
From S2P Require Import Action Bits Alu EncodeSound Block Prune PruneSound TopoSound ReachSound.
From S2P Require Import Slice.

Section memory.
Context `{HL : SMTLaws} (m : model) (mem : Memory).
Let st := m_st mem.
Implicit Types (w : action) (loc : mloc) (c : cell) (t : bv).

(** ** The meaning of a write in a model *)

Definition rev_of (r : res bv) : Z := match r with Ok t => ev m t | Err _ => 0 end.

(** The value of a map key. *)
Definition key_at (map_id : option Z) (k : val) : Z := rev_of (_key mem map_id k).

(** Whether the write happens: its block is reached and, for an update, its
    flags allow it. *)
Definition happens w : bool :=
  evg m (m_reach mem (a_block w)) &&
  match update_flags w with
  | Some f => match _applies mem f w with Ok g => evg m g | Err _ => false end
  | None => true
  end.

(** The number a write stores, little-endian at its offset: the operand, added to
    the old contents by an atomic operation. *)
Definition stored w : Z :=
  let bits := Z.max (ml_size (action_loc w)) 1 * 8 in
  wrap bits (rev_of (expr_z3 st (written_value w))
             + if is_none (old_value w) then 0 else rev_of (expr_z3 st (old_value w))).

(** The cell at displacement [i] of a location at a fixed offset. *)
Definition mcell loc (i : Z) : cell :=
  let r := default (-1) (ml_region loc) in
  mk_cell r (if r =? MAP then Some (ml_map_id loc, key_at (ml_map_id loc) (ml_map_key loc)) else None)
    (if r =? BSS then Some (ml_bss_key loc) else None) (ml_off loc + i).

#[local] Instance cell_eq_dec : EqDecision cell.
Proof. solve_decision. Defined.

(** The cells a write covers. *)
Definition covers w c : bool :=
  let wl := action_loc w in
  let i := c_addr c - ml_off wl in
  bool_decide (mcell wl i = c) && (0 <=? i) && (i <? Z.max (ml_size wl) 1).

Definition memory : Type := cell → Z.

(** One write of the machine. *)
Definition exec_write (mm : memory) w : memory := λ c,
  if happens w && covers w c then byte_at (stored w) (c_addr c - ml_off (action_loc w)) else mm c.

(** The memory before any write. *)
Definition initial : memory := λ c,
  if c_region c =? PKT then eva m (z_pkt st) (wrap (domain_size (z_pkt st)) (c_addr c))
  else if c_region c =? MAP then
    match c_map c with
    | Some (id, k) =>
        match map_cell st id with
        | Ok (_, a) => if 8 * c_addr c + 8 <=? range_size a then byte_at (eva m a k) (c_addr c) else 0
        | Err _ => 0
        end
    | None => 0
    end
  else
    eva m (_bss_of st (default None (c_sym c))) (wrap BSS_ADDR_BITS (c_addr c)).

(** The memory a read at [at_block], [at_idx] finds. *)
Definition memory_at (at_block at_idx : Z) : memory :=
  fold_left exec_write (filter (λ w, _visible mem w at_block at_idx = true) (writes mem)) initial.

(** ** What the resolution relies on

    A location the forward analysis resolves: at a fixed offset, its key or
    symbol known, a constant key within the key width. *)
Record resolvable loc : Prop := {
  rv_off : ml_var_off loc = VNone;
  rv_key : ml_region loc = Some MAP → ml_map_key loc ≠ VNone ∧
    ∀ n, _const (ml_map_key loc) = Some n → key_at (ml_map_id loc) (ml_map_key loc) = n;
  rv_sym : ml_region loc = Some BSS → is_Some (ml_bss_key loc)
}.

(** Keys that are one object are one expression. *)
Definition keys_coherent loc : Prop := ∀ w, w ∈ writes mem →
  is_same (ml_map_key loc) (ml_map_key (action_loc w)) = true →
  ml_map_key loc = ml_map_key (action_loc w).

Record read_ok loc : Prop := {
  ro_loc : resolvable loc;
  ro_size : ml_size loc = 1;
  ro_writes : ∀ w, w ∈ writes mem → ml_region (action_loc w) = ml_region loc →
    resolvable (action_loc w);
  ro_same : keys_coherent loc
}.

(** ** Aliasing *)

Lemma may_alias_covers loc w : read_ok loc → is_Some (ml_region loc) → w ∈ writes mem →
  covers w (mcell loc 0) = true → may_alias loc (action_loc w) = true.
Proof.
  intros [Hl Hs Hw _] [r Hr] Hin Hc. unfold covers in Hc.
  rewrite !andb_true_iff, bool_decide_eq_true, Z.leb_le, Z.ltb_lt in Hc.
  destruct Hc as [[Hc H0] Hlt]. unfold mcell in Hc, H0, Hlt. rewrite Hr in *. simpl in *.
  injection Hc as Hrw Hm Hsym Ha.
  unfold writes in Hin. apply list_elem_of_filter in Hin as [Hisw Hin]. unfold is_write in Hisw.
  bool_prop. destruct (ml_region (action_loc w)) as [rw|] eqn:Erw; [|by destruct Hisw].
  simpl in *. subst rw.
  pose proof (Hw w ltac:(apply list_elem_of_filter; unfold is_write; rewrite Erw; split;
    [by apply bool_decide_eq_true; eexists|done]) Erw) as Hwl.
  unfold may_alias. rewrite Hr, Erw, Z.eqb_refl. simpl.
  destruct (r =? MAP) eqn:Em; simpl.
  - bool_prop. subst r. injection Hm as Hid Hk. rewrite <- Hid, bool_decide_true by done. simpl.
    assert (known_differ (_const (ml_map_key loc)) (_const (ml_map_key (action_loc w))) = false) as ->.
    { destruct (_const (ml_map_key loc)) as [n|] eqn:En; [|done].
      destruct (_const (ml_map_key (action_loc w))) as [n'|] eqn:En'; [|done]. simpl.
      apply negb_false_iff, bool_decide_eq_true.
      rewrite <- (proj2 (rv_key _ Hl Hr) n En), <- (proj2 (rv_key _ Hwl Erw) n' En'). done. }
    rewrite (rv_off _ Hl), (rv_off _ Hwl), Hs. simpl. lia.
  - destruct (r =? BSS) eqn:Eb; simpl.
    + injection Hsym as Hsym. rewrite Hsym.
      assert (known_differ (ml_bss_key loc) (ml_bss_key loc) = false) as ->.
      { destruct (ml_bss_key loc); [|done]. simpl. by rewrite bool_decide_true. }
      rewrite (rv_off _ Hl), (rv_off _ Hwl), Hs. simpl. lia.
    + rewrite (rv_off _ Hl), (rv_off _ Hwl), Hs. simpl. lia.
Qed.

Lemma may_alias_same loc l : may_alias loc l = true → is_Some (ml_region loc) ∧
  ml_region l = ml_region loc ∧
  (ml_region loc = Some MAP → ml_map_id loc = ml_map_id l ∧
     known_differ (_const (ml_map_key loc)) (_const (ml_map_key l)) = false) ∧
  (ml_region loc = Some BSS → known_differ (ml_bss_key loc) (ml_bss_key l) = false).
Proof.
  unfold may_alias. destruct (ml_region loc) as [a|], (ml_region l) as [b|]; try done.
  destruct (Z.eqb_spec a b) as [-> |]; [|done]. simpl. intros HA.
  split_and!; [by eexists|done| |]; intros [= ->]; simpl in HA;
    repeat case_match; bool_prop; try done.
Qed.

(** ** One write *)

Lemma if_guard_ev g a b : size a = size b →
  size (if_guard g a b) = size b ∧ ev m (if_guard g a b) = if evg m g then ev m a else ev m b.
Proof.
  intros Hz. destruct g as [[]|c]; simpl; [done|done|].
  by rewrite size_IfBV, ev_IfBV.
Qed.

Lemma written_byte_Some w off v : _written_byte mem w off = Ok (Some v) →
  let i := off - ml_off (action_loc w) in
  0 <= i < Z.max (ml_size (action_loc w)) 1 ∧ size v = 8 ∧ ev m v = byte_at (stored w) i.
Proof.
  intros HE. unfold _written_byte in HE. cbv zeta in *.
  set (wl := action_loc w) in *. set (n := Z.max (ml_size wl) 1) in *.
  destruct (negb (is_none (ml_var_off wl)) || negb _) eqn:Er in HE; [done|].
  apply orb_false_iff in Er as [_ Er]. apply negb_false_iff, andb_true_iff in Er.
  rewrite Z.leb_le, Z.ltb_lt in Er. res_inv. split; [lia|].
  assert (size v1 = n * 8 ∧ ev m v1 = stored w) as [Hz Hev].
  { unfold stored. fold wl n. fold st in E. unfold rev_of. rewrite E.
    destruct (is_none (old_value w)); res_inv.
    - rewrite resize_size, resize_ev, Z.add_0_r by lia. done.
    - fold st in E1. rewrite E1. rewrite size_bvadd, ev_bvadd, !resize_size, !resize_ev by
        (rewrite ?resize_size; lia). split; [done|].
      rewrite wrap_add by lia. f_equal. lia. }
  unfold byte_at. rewrite <- Hev.
  rewrite size_Extract, ev_Extract by lia. split; [lia|]. f_equal; [lia|]. do 2 f_equal. lia.
Qed.

Lemma written_byte_None w off : ml_var_off (action_loc w) = VNone →
  _written_byte mem w off = Ok None →
  ¬ (0 <= off - ml_off (action_loc w) < Z.max (ml_size (action_loc w)) 1).
Proof.
  intros Hv HE. unfold _written_byte in HE. rewrite Hv in HE. cbv zeta in *. simpl in HE.
  destruct (negb _) eqn:Er in HE.
  - apply negb_true_iff, andb_false_iff in Er. rewrite Z.leb_gt, Z.ltb_ge in Er. lia.
  - res_inv.
Qed.

Lemma key_size map_id k t p a : _key mem map_id k = Ok t → map_cell st map_id = Ok (p, a) →
  size t = domain_size a.
Proof.
  intros HE Hc. unfold _key, _map_key_z3 in HE. fold st in HE. res_inv.
  destruct v0 as [p' a']. rewrite Hc in E0. injection E0 as -> ->. res_inv.
  apply resize_size. apply domain_pos.
Qed.

(** The byte of [loc] and the byte of the write at the same offset are one cell
    when the maps' keys agree. *)
Lemma same_cell loc w r b : read_ok loc → w ∈ writes mem → ml_region loc = Some r →
  may_alias loc (action_loc w) = true →
  (b = true ↔ (r = MAP → key_at (ml_map_id (action_loc w)) (ml_map_key (action_loc w))
                         = key_at (ml_map_id loc) (ml_map_key loc))) →
  bool_decide (mcell (action_loc w) (ml_off loc - ml_off (action_loc w)) = mcell loc 0) = b.
Proof.
  intros [Hl _ Hw _] Hin HS Ha Hb.
  destruct (may_alias_same _ _ Ha) as (_ & Hreg & Hmap & Hbss).
  pose proof (Hw w Hin Hreg) as Hwl. rewrite HS in Hreg, Hmap, Hbss.
  assert (mcell (action_loc w) (ml_off loc - ml_off (action_loc w)) = mcell loc 0 ↔
    (r = MAP → key_at (ml_map_id (action_loc w)) (ml_map_key (action_loc w))
               = key_at (ml_map_id loc) (ml_map_key loc))) as Hc.
  { unfold mcell. rewrite Hreg, HS. simpl. split.
    - intros [= Hm _] ->. simpl in Hm. by injection Hm.
    - intros Hk. f_equal; [| |lia].
      + destruct (Z.eqb_spec r MAP) as [Em|]; [|done]. rewrite (Hk Em).
        by destruct Hmap as [-> _]; [rewrite Em|].
      + destruct (Z.eqb_spec r BSS) as [Eb|]; [|done]. f_equal.
        pose proof (Hbss ltac:(by rewrite Eb)) as Hd.
        destruct (rv_sym _ Hl ltac:(by rewrite HS, Eb)) as [x Hx].
        destruct (rv_sym _ Hwl ltac:(by rewrite Hreg, Eb)) as [y Hy]. rewrite Hx, Hy in *.
        simpl in Hd. apply negb_false_iff, bool_decide_eq_true in Hd. by rewrite Hd. }
  destruct b; [apply bool_decide_eq_true|apply bool_decide_eq_false]; rewrite Hc.
  - by apply Hb.
  - rewrite <- Hb. done.
Qed.

Lemma guard_happens w g :
  (match update_flags w with
   | Some f => if is_False (m_reach mem (a_block w)) then Ok (m_reach mem (a_block w))
               else a ← _applies mem f w; Ok (_and (m_reach mem (a_block w)) a)
   | None => Ok (m_reach mem (a_block w))
   end) = Ok g → evg m g = happens w.
Proof.
  intros HE. unfold happens. destruct (update_flags w) as [f|]; [|res_inv; by rewrite andb_true_r].
  destruct (is_False _) eqn:Ef in HE; res_inv.
  - by rewrite (evg_False m _ Ef).
  - by rewrite E, evg_and.
Qed.

Lemma key_eq_sound id k k' a b : _key mem id k = Ok a → _key mem id k' = Ok b →
  evb m (bveq a b) = (key_at id k =? key_at id k').
Proof.
  intros Ha Hb. assert (∃ p arr, map_cell st id = Ok (p, arr)) as (p & arr & Hc).
  { unfold _key, _map_key_z3 in Ha. fold st in Ha. res_inv. destruct v0. eauto. }
  rewrite evb_bveq by (by erewrite !key_size by eassumption).
  unfold key_at, rev_of. by rewrite Ha, Hb.
Qed.

Lemma write_guard_sound loc w g : read_ok loc → w ∈ writes mem →
  may_alias loc (action_loc w) = true → _write_guard mem loc w = Ok g →
  evg m g = happens w &&
    bool_decide (mcell (action_loc w) (ml_off loc - ml_off (action_loc w)) = mcell loc 0).
Proof.
  intros Hok Hin Ha HE. pose proof Hok as [Hl _ Hw Hsame].
  destruct (may_alias_same _ _ Ha) as ([r HS] & Hreg & Hmap & _).
  pose proof (Hw w Hin Hreg) as Hwl. pose proof (same_cell loc w r) as Hcell.
  unfold _write_guard in HE. cbv zeta in HE.
  apply bind_Ok in HE as (g0 & Hg0 & HE). apply guard_happens in Hg0. rewrite HS in Hreg, Hmap, HE.
  destruct (bool_decide (Some r = Some MAP)) eqn:Em; bool_prop; simpl in HE.
  2: { res_inv. rewrite (Hcell true), andb_true_r by (done || split; congruence). done. }
  assert (r = MAP) as -> by congruence. destruct (Hmap eq_refl) as [Hid Hdiff].
  destruct (is_False g0) eqn:Ef; [res_inv; by rewrite <- Hg0, (evg_False m _ Ef)|].
  destruct (bool_decide _ && bool_decide _) eqn:Ec.
  { res_inv. rewrite (Hcell true), andb_true_r; try done. split; [intros _ _|done].
    rewrite andb_true_iff, !bool_decide_eq_true in Ec. destruct Ec as [[n En] [n' En']].
    rewrite (proj2 (rv_key _ Hl HS) n En), (proj2 (rv_key _ Hwl Hreg) n' En').
    rewrite En, En' in Hdiff. simpl in Hdiff. by apply negb_false_iff, bool_decide_eq_true in Hdiff. }
  destruct (is_none _ || is_none _) eqn:En.
  { apply orb_true_iff in En as [En | En].
    - by destruct (proj1 (rv_key _ Hl HS)), (ml_map_key loc).
    - by destruct (proj1 (rv_key _ Hwl Hreg)), (ml_map_key (action_loc w)). }
  destruct (is_same _ _) eqn:Es.
  { res_inv. rewrite (Hcell true), andb_true_r; try done. split; [intros _ _|done].
    by rewrite <- Hid, <- (Hsame w Hin Es). }
  res_inv. rewrite <- Hid in E0. rewrite evg_and, Hg0. f_equal. simpl.
  rewrite (key_eq_sound _ _ _ _ _ E E0). symmetry. apply Hcell; try done.
  rewrite Z.eqb_eq, <- Hid. split; [by intros -> _|by intros ->].
Qed.

(** ** The initial state *)

Lemma initial_sound loc t : state_ok st → 0 <= ml_off loc → _initial_at mem loc = Ok (Some t) →
  size t = 8 ∧ ev m t = initial (mcell loc 0).
Proof.
  intros Hst Ho HE. unfold _initial_at in HE. fold st in HE. unfold initial, mcell. simpl.
  rewrite Z.add_0_r. destruct (ml_region loc) as [r|]; [|by repeat rewrite bool_decide_false in HE by done]. simpl.
  destruct (bool_decide _) eqn:E1 in HE; bool_prop.
  { simplify_eq. res_inv. simpl. assert (size (BitVecVal (ml_off loc) (domain_size (z_pkt st)))
      = domain_size (z_pkt st)) as Hz by apply size_BitVecVal, domain_pos.
    rewrite size_Select, ev_Select, ev_BitVecVal by (done || apply domain_pos).
    split; [by apply pkt_bytes|done]. }
  destruct (bool_decide _) eqn:E2 in HE; bool_prop.
  { simplify_eq. apply bind_Ok in HE as ([p a] & Hc & HE). apply bind_Ok in HE as (key & Hk & HE).
    simpl. rewrite Hc. pose proof (key_size _ _ _ _ _ Hk Hc) as Hz. simplify_eq.
    assert (key_at (ml_map_id loc) (ml_map_key loc) = ev m key) as -> by
      (unfold key_at, rev_of; by rewrite Hk).
    replace (8 * ml_off loc + 8) with (ml_off loc * 8 + 8) by lia.
    rewrite (size_Select a key) by done. destruct (Z.leb_spec (ml_off loc * 8 + 8) (range_size a)).
    - rewrite size_Extract, ev_Extract by (rewrite ?size_Select by done; lia).
      rewrite ev_Select by done. split; [lia|]. unfold byte_at. f_equal; [lia|]. do 2 f_equal. lia.
    - rewrite size_BitVecVal, ev_BitVecVal by lia. done. }
  destruct (bool_decide _) eqn:E3 in HE; bool_prop; [|res_inv].
  simplify_eq. simpl. set (arr := _bss_of st (ml_bss_key loc)).
  assert (domain_size arr = BSS_ADDR_BITS ∧ range_size arr = 8) as [Hd Hr].
  { unfold arr, _bss_of. destruct (pget _ _) eqn:Ep; simpl; [by eapply bss_sorts|].
    unfold zero_bss. rewrite domain_K, range_K, size_BitVecVal by done. done. }
  rewrite size_Select, ev_Select, ev_BitVecVal by (rewrite ?Hd, ?size_BitVecVal by done; done).
  done.
Qed.
(** ** Reads *)

Lemma read_step_sound loc w mm term term' : read_ok loc → w ∈ writes mem →
  may_alias loc (action_loc w) = true → size term = 8 → ev m term = mm (mcell loc 0) →
  read_step mem loc (ml_off loc) term w = Ok term' →
  size term' = 8 ∧ ev m term' = exec_write mm w (mcell loc 0).
Proof.
  intros Hok Hin Ha Hz He HE. unfold read_step in HE.
  assert (ml_var_off (action_loc w) = VNone) as Hv.
  { destruct (may_alias_same _ _ Ha) as (_ & Hreg & _). by apply (ro_writes _ Hok w Hin Hreg). }
  assert (covers w (mcell loc 0) =
    bool_decide (mcell (action_loc w) (ml_off loc - ml_off (action_loc w)) = mcell loc 0) &&
    ((0 <=? ml_off loc - ml_off (action_loc w)) &&
     (ml_off loc - ml_off (action_loc w) <? Z.max (ml_size (action_loc w)) 1))) as Hc.
  { unfold covers. change (c_addr (mcell loc 0)) with (ml_off loc + 0).
    rewrite Z.add_0_r. by rewrite andb_assoc. }
  unfold exec_write. rewrite Hc. change (c_addr (mcell loc 0)) with (ml_off loc + 0).
  rewrite Z.add_0_r. apply bind_Ok in HE as ([v|] & Hb & HE).
  - apply bind_Ok in HE as (g & Hg & [= <-]).
    apply written_byte_Some in Hb as (Hi & Hsv & Hev).
    pose proof (write_guard_sound _ _ _ Hok Hin Ha Hg) as Heg.
    destruct (if_guard_ev g v term) as [-> ->]; [lia|]. split; [done|]. rewrite Heg.
    replace (0 <=? _) with true by lia. replace (_ <? _) with true by lia.
    rewrite !andb_true_r. by case_match.
  - injection HE as <-. apply written_byte_None in Hb; [|done].
    replace ((0 <=? _) && (_ <? _)) with false by lia. by rewrite !andb_false_r.
Qed.

(** The writes a read does not fold leave its cell alone. *)
Lemma read_fold_sound loc at_block at_idx l mm term term' : read_ok loc → is_Some (ml_region loc) →
  l ⊆ writes mem → size term = 8 → ev m term = mm (mcell loc 0) →
  foldR (read_step mem loc (ml_off loc)) term
    (filter (λ w, _visible mem w at_block at_idx && may_alias loc (action_loc w) = true) l)
    = Ok term' →
  size term' = 8 ∧
  ev m term' = fold_left exec_write (filter (λ w, _visible mem w at_block at_idx = true) l) mm
                 (mcell loc 0).
Proof.
  intros Hok Hr. revert mm term. induction l as [|w l IH]; intros mm term Hl Hz He HE.
  { simpl in HE. by injection HE as <-. }
  assert (w ∈ writes mem) as Hin by (apply Hl; left).
  assert (l ⊆ writes mem) as Hl' by (intros x Hx; apply Hl; by right).
  rewrite !filter_cons in *. destruct (_visible mem w at_block at_idx) eqn:Ev; simpl in *.
  2: by eapply IH.
  destruct (may_alias loc (action_loc w)) eqn:Ea.
  - simpl in HE. apply bind_Ok in HE as (t1 & H1 & HE).
    destruct (read_step_sound _ _ mm _ _ Hok Hin Ea Hz He H1). by eapply IH.
  - simpl in HE. eapply IH; try done. rewrite He. unfold exec_write.
    destruct (covers w (mcell loc 0)) eqn:Hc; [|by rewrite andb_false_r].
    apply may_alias_covers in Hc; [congruence|done..].
Qed.

Lemma read_byte_sound loc at_block at_idx t : state_ok st → read_ok loc → 0 <= ml_off loc →
  read_byte mem loc (ml_off loc) at_block at_idx = Ok (Some t) →
  size t = 8 ∧ ev m t = memory_at at_block at_idx (mcell loc 0).
Proof.
  intros Hst Hok Ho HE. unfold read_byte in HE. apply bind_Ok in HE as ([t0|] & H0 & HE); [|done].
  apply bind_Ok in HE as (t1 & H1 & [= <-]).
  assert (is_Some (ml_region loc)) as Hr.
  { unfold _initial_at in H0. destruct (ml_region loc); [done|].
    by repeat rewrite bool_decide_false in H0 by done. }
  apply initial_sound in H0 as [Hz0 He0]; [|done..].
  unfold seen_writes in H1. unfold memory_at. by eapply read_fold_sound.
Qed.

Lemma mapR_all_some {A B} (f : A → res (option B)) (P : A → Prop) (Q : A → B → Prop) l os ts :
  (∀ x y, P x → f x = Ok (Some y) → Q x y) → Forall P l →
  mapR f l = Ok os → all_some os = Some ts → Forall2 Q l ts.
Proof.
  intros HQ HP. revert os ts. induction HP as [|x l Hx _ IH]; intros os ts HM HS; simpl in HM.
  - res_inv. simpl in HS. by simplify_eq.
  - apply bind_Ok in HM as (o & Ho & HM). apply bind_Ok in HM as (os' & Hos & [= <-]).
    destruct o as [y|]; simplify_option_eq. constructor; eauto.
Qed.

Lemma terms_sound k (g : Z → Z) l ts : Forall2 (λ i t, size t = k ∧ ev m t = g i) l ts →
  Forall (λ t, size t = k) ts ∧ map (ev m) ts = map g l ∧ length ts = length l.
Proof.
  induction 1 as [|i t l ts [Hz He] _ (IH1 & IH2 & IH3)]; [done|].
  simpl. rewrite He, IH2, IH3. split; [by constructor|done].
Qed.

(** C13 A read resolved by [_read] is a read of memory: at a location whose bytes
    the resolution covers, the term it builds has, in every model, the
    little-endian value of the cells read from the memory the visible writes
    leave, executed in order with their guards. *)
Theorem read_sound region off size map_id map_key at_block at_idx bss_key t :
  state_ok st → 0 <= off →
  (∀ i, 0 <= i < size → read_ok (_Loc region (off + i) 1 map_id map_key bss_key)) →
  _read mem region off size map_id map_key at_block at_idx bss_key = Ok (Some t) →
  Smt.size t = 8 * size ∧
  ev m t = le_int (map (λ i, memory_at at_block at_idx
             (mcell (_Loc region off size map_id map_key bss_key) i)) (zrange 0 size)).
Proof.
  intros Hst Ho Hok HE. unfold _read in HE. apply bind_Ok in HE as (bs & Hbs & HE).
  destruct (all_some bs) as [ts|] eqn:Ea; [|done]. apply bind_Ok in HE as (out & Hout & [= <-]).
  eapply (mapR_all_some _ (λ i, 0 <= i < size) (λ i x, Smt.size x = 8 ∧ ev m x =
    memory_at at_block at_idx (mcell (_Loc region off size map_id map_key bss_key) i)))
    in Hbs as HF; [| |by apply Forall_forall; intros i Hi; apply zrange_elem in Hi; lia|exact Ea].
  - apply terms_sound in HF as (Hz & Hev & Hlen). assert (ts ≠ []) as Hn by by destruct ts.
    apply (f_equal Z.of_nat) in Hlen. rewrite zrange_length in Hlen.
    eapply (concat_or_digits m 8) in Hout as [-> ->]; [|lia|done].
    rewrite digits_8, Hev. split; [|done]. destruct ts; simpl in *; [done|lia].
  - intros i x Hi HE.
    eapply (read_byte_sound (_Loc region (off + i) 1 map_id map_key bss_key)) in HE as [? ->];
      [|done|by apply Hok|simpl; lia].
    split; [done|]. f_equal. unfold mcell. simpl. f_equal. lia.
Qed.
End memory.
