(* ===== verification/SliceFold.v ===== *)
(** The other resolutions of [verify/slice.py]: the packet length folds the
    adjustments before a block, a phi is the value of the edge taken, and the
    mutual recursion of [present] and [_applies] ends on an acyclic program. *)

From S2P Require Import Prelude Constants Smt SmtTerm Expr Denote Branch Record Link Encode Action.
From S2P Require Import Bits Alu EncodeSound Block Prune PruneSound TopoSound ReachSound Slice SliceSound.

Section fold.
Context `{HL : SMTLaws} (m : model).
Implicit Types (mem : Memory) (w : action) (t : bv).

(** ** The packet length *)

(** What an adjustment takes off the length: its delta when its block is reached
    and the helper succeeds; the entry's own adjustments always do. *)
Definition taken_off mem w : Z :=
  if evg m (m_reach mem (a_block w)) &&
     ((a_idx w <? 0) || evb m (Bool (adjust_name (a_idx w))))
  then default 0 (len_delta w) else 0.

(** The packet length at a block is, in every model, the initial length less
    the deltas of the adjustments on the blocks before it that are reached and
    succeed, modulo the width of the length. *)
Theorem pkt_len_at_sound mem b :
  let n0 := z_pkt_len (m_st mem) in
  size (pkt_len_at mem (Some b)) = size n0 ∧
  ev m (pkt_len_at mem (Some b)) =
    wrap (size n0) (ev m n0 - fold_left (λ s w, s + taken_off mem w)
                                (filter (λ w, _ran_before mem w b = true) (adjusts mem)) 0).
Proof.
  intros n0. cbn [pkt_len_at].
  assert (∀ l n s, size n = size n0 → ev m n = wrap (size n0) (ev m n0 - s) → let out :=
    fold_left (λ n w, if negb (_ran_before mem w b) then n else
      if_guard (_and (m_reach mem (a_block w))
                  (if a_idx w <? 0 then GPy true else GTm (Bool (adjust_name (a_idx w)))))
        (bvsub n (BitVecVal (default 0 (len_delta w)) (size n))) n) l n in
    size out = size n0 ∧ ev m out = wrap (size n0) (ev m n0 -
      fold_left (λ s w, s + taken_off mem w) (filter (λ w, _ran_before mem w b = true) l) s)) as H.
  { pose proof (size_pos n0) as Hp. induction l as [|w l IH]; intros n s Hz He; [done|].
    rewrite filter_cons. cbn [fold_left]. destruct (_ran_before mem w b); cbn [negb].
    2: by apply IH.
    rewrite decide_True by done. cbn [fold_left].
    assert (size (BitVecVal (default 0 (len_delta w)) (size n)) = size n) as Hs
      by (apply size_BitVecVal; lia).
    apply IH.
    - match goal with |- size (if_guard ?g ?x ?y) = _ =>
        destruct (if_guard_ev m g x y) as [-> _]; [by rewrite size_bvsub|done] end.
    - match goal with |- ev m (if_guard ?g ?x ?y) = _ =>
        destruct (if_guard_ev m g x y) as [_ ->]; [by rewrite size_bvsub|] end.
      rewrite evg_and. unfold taken_off.
      replace (evg m (if a_idx w <? 0 then _ else _))
        with ((a_idx w <? 0) || evb m (Bool (adjust_name (a_idx w)))) by by destruct (a_idx w <? 0).
      destruct (_ && _); [|by rewrite He, Z.add_0_r].
      rewrite ev_bvsub, ev_BitVecVal, He, Hz by (done || lia).
      rewrite wrap_sub by lia. f_equal. lia. }
  apply H; [done|]. rewrite Z.sub_0_r. symmetry. apply ev_wrap.
Qed.

(** ** Phis *)

Section phis.
Context (guard_of : Z → edge → guard) (st_of : gset Z → Z3State).

(** Some edge of the group is taken in the model. *)
Definition edge_taken (es : list (Z * edge)) : bool :=
  existsb (λ pe, evg m (guard_of pe.1 pe.2)) es.

Lemma group_guard es : evg m (_or_all (map (λ pe, guard_of pe.1 pe.2) es)) = edge_taken es.
Proof.
  rewrite evg_or_all. unfold edge_taken. induction es as [|e es IH]; [done|]. simpl. by rewrite IH.
Qed.

(** The value of the first taken guard, or the last one's. *)
Fixpoint first_taken (d : Z) (l : list (bool * Z)) : Z :=
  match l with
  | [] => d
  | [(_, v)] => v
  | (b, v) :: l' => if b then v else first_taken d l'
  end.

Lemma phi_chain_ev ts d : Forall (λ gt, size gt.2 = 64) ts → size d = 64 →
  size (phi_chain ts d) = 64 ∧
  ev m (phi_chain ts d) = first_taken (ev m d) (map (λ gt, (evg m gt.1, ev m gt.2)) ts).
Proof.
  intros Hts Hd. unfold phi_chain.
  destruct ts as [|[g t] ts'] using rev_ind; [done|]. clear IHts'.
  rewrite rev_app_distr. simpl. apply Forall_app in Hts as [Hts Ht].
  inversion Ht as [|? ? Hz _]; subst. simpl in Hz. rewrite <- fold_left_rev_right, rev_involutive.
  induction ts' as [|[g' t'] ts' IH]; [done|]. inversion Hts as [|? ? Hz' Hr]; subst. simpl in *.
  destruct (IH Hr) as [IHz IHe]. 
  match goal with |- context [if_guard g' t' ?x] =>
    destruct (if_guard_ev m g' t' x) as [-> ->]; [congruence|] end.
  split; [done|]. rewrite IHe. by destruct ts' as [|[]].
Qed.
Lemma find_snoc {A} (f : A → bool) l x :
  List.find f (l ++ [x]) =
    match List.find f l with Some y => Some y | None => if f x then Some x else None end.
Proof. induction l as [|y l IH]; [done|]. simpl. by destruct (f y). Qed.

Lemma first_taken_find d (ts : list (guard * bv)) g t :
  List.find (λ gt, evg m gt.1) ts = Some (g, t) →
  first_taken d (map (λ gt, (evg m gt.1, ev m gt.2)) ts) = ev m t.
Proof.
  induction ts as [|[g' t'] ts IH]; [done|]. simpl. destruct (evg m g'); [intros [= -> ->]|].
  - by destruct ts as [|[]].
  - intros HF. destruct ts as [|x ts]; [done|]. by apply IH.
Qed.

Lemma phi_terms_sound st j ts : phi_terms guard_of st j = Ok ts →
  Forall (λ gt, size gt.2 = 64) ts ∧
  match List.find (λ ve, edge_taken ve.2) (zip (j_values j) (j_edges j)) with
  | Some ve => ∃ t g, expr_z3 st ve.1 = Ok t ∧
                 List.find (λ gt, evg m gt.1) ts = Some (g, _resize t 64)
  | None => List.find (λ gt, evg m gt.1) ts = None
  end.
Proof.
  unfold phi_terms. apply (foldR_ind _ (λ done ts, Forall (λ gt, size gt.2 = 64) ts ∧
    match List.find (λ ve, edge_taken ve.2) done with
    | Some ve => ∃ t g, expr_z3 st ve.1 = Ok t ∧
                   List.find (λ gt, evg m gt.1) ts = Some (g, _resize t 64)
    | None => List.find (λ gt, evg m gt.1) ts = None
    end)); [by split|].
  intros pre [v es] ts1 ts2 _ [Hz Hf] HE. rewrite find_snoc. cbn [fst snd] in *.
  rewrite <- (group_guard es). destruct (is_False _) eqn:Ef in HE.
  { injection HE as <-. split; [done|]. rewrite (evg_False _ _ Ef).
    by destruct (List.find _ pre). }
  apply bind_Ok in HE as (t & Ht & [= <-]). split.
  { apply Forall_app. split; [done|]. constructor; [by apply resize_size|done]. }
  rewrite find_snoc. destruct (List.find _ pre) as [ve|].
  - destruct Hf as (t' & g & ? & ->). eauto.
  - rewrite Hf. cbn [fst snd]. destruct (evg m _); eauto.
Qed.

(** C15 A phi has the value of the edge taken: in a model where some group of its
    edges is taken, [phi_value] is the value of the first such group, as a 64-bit
    number. *)
Theorem phi_value_sound active o j t : o ∉ active →
  phi_value guard_of st_of active o j = Ok t →
  size t = 64 ∧
  ∀ v es, List.find (λ ve, edge_taken ve.2) (zip (j_values j) (j_edges j)) = Some (v, es) →
    ∃ t', expr_z3 (st_of ({[o]} ∪ active)) v = Ok t' ∧ ev m t = wrap 64 (ev m t').
Proof.
  intros Ho HE. unfold phi_value in HE. rewrite bool_decide_false in HE by done.
  apply bind_Ok in HE as (ts & Hts & [= <-]). apply phi_terms_sound in Hts as [Hz Hf].
  destruct (phi_chain_ev ts (_free j) Hz) as [-> ->]; [by apply size_BitVec|].
  split; [done|]. intros v es Hfind. rewrite Hfind in Hf. destruct Hf as (t' & g & Ht' & Hg).
  exists t'. split; [done|]. rewrite (first_taken_find _ _ _ _ Hg). by apply resize_ev.
Qed.
End phis.
End fold.

(** ** Presence *)

Section presence.
Context `{S0 : SMT}.
Implicit Types (mem : Memory) (w : action).

(** The blocks before a block are before the blocks after it, and not itself. *)
Definition anc_order mem : Prop :=
  (∀ b s, pget (m_anc mem) b = Some s → b ∉ s) ∧
  ∀ a b c s s', pget (m_anc mem) b = Some s → a ∈ s → pget (m_anc mem) c = Some s' → b ∈ s' →
    a ∈ s'.

Definition seen_count mem (b : Z) (i : option Z) : nat :=
  length (filter (λ w, seen_from mem w b i = true) (presence_writes mem)).

Lemma seen_spec mem w b i : anc_order mem → seen_from mem w b i = true ↔
  is_False (m_reach mem (a_block w)) = false ∧
  ((a_block w = b ∧ match i with Some i => a_idx w < i | None => True end) ∨
   ∃ s, pget (m_anc mem) b = Some s ∧ a_block w ∈ s).
Proof.
  intros [Hirr _].
  assert (_ran_before_block mem (a_block w) b = true ↔
    a_block w = b ∨ ∃ s, pget (m_anc mem) b = Some s ∧ a_block w ∈ s) as Hb.
  { unfold _ran_before_block. rewrite orb_true_iff, Z.eqb_eq, bool_decide_eq_true.
    destruct (pget (m_anc mem) b) as [s|]; simpl; [naive_solver|set_solver]. }
  assert (∀ s, pget (m_anc mem) b = Some s → a_block w ∈ s → a_block w ≠ b) as Hne
    by (intros s Hs Hin Hw; rewrite Hw in Hin; by eapply Hirr).
  unfold seen_from, _visible, _ran_before. destruct i as [i|];
    rewrite !andb_true_iff, !negb_true_iff, ?andb_false_iff, Hb, ?Z.eqb_neq, ?Z.leb_gt;
    [|naive_solver].
  split; [|naive_solver]. intros [[[Hw | (s & Hs & Hin)] [Hn | Hn]] Hf]; naive_solver.
Qed.

Lemma seen_trans mem w w' b i : anc_order mem → seen_from mem w b i = true →
  seen_from mem w' (a_block w) (Some (a_idx w)) = true → seen_from mem w' b i = true.
Proof.
  intros Ha. rewrite !seen_spec by done.
  intros [_ [[Hb Hi] | (s & Hs & Hin)]] [Hf [[Hb' Hi'] | (s' & Hs' & Hin')]]; (split; [done|]).
  - left. split; [congruence|]. destruct i; [lia|done].
  - right. exists s'. by rewrite <- Hb.
  - right. exists s. by rewrite Hb'.
  - right. exists s. split; [done|]. by eapply (proj2 Ha).
Qed.

Lemma seen_count_lt mem w b i : anc_order mem → w ∈ presence_writes mem →
  seen_from mem w b i = true →
  (seen_count mem (a_block w) (Some (a_idx w)) < seen_count mem b i)%nat.
Proof.
  intros Ha Hin Hs. unfold seen_count.
  set (P := λ w', seen_from mem w' (a_block w) (Some (a_idx w)) = true).
  set (Q := λ w', seen_from mem w' b i = true).
  assert (filter P (presence_writes mem) = filter P (filter Q (presence_writes mem))) as ->.
  { rewrite list_filter_filter. apply list_filter_iff. intros w'. unfold P, Q. split; [|tauto].
    intros H. split; [done|]. by eapply seen_trans. }
  apply length_filter_lt with w; [by apply list_elem_of_filter|].
  unfold P. rewrite seen_spec by done. intros [_ [[_ ?] | (s & Hs' & Hin')]]; [lia|].
  by eapply (proj1 Ha).
Qed.

Lemma foldR_ext {A B} (f g : B → A → res B) b l :
  (∀ b a, a ∈ l → f b a = g b a) → foldR f b l = foldR g b l.
Proof.
  intros H. revert b. induction l as [|a l IH]; intros b; [done|]. simpl.
  rewrite H by left. destruct (g b a); [|done]. simpl. apply IH. intros. apply H. by right.
Qed.

Lemma applies_with_ext mem f g flags w :
  (∀ k, f (ml_map_id (action_loc w)) k (Some (a_block w)) (Some (a_idx w)) =
        g (ml_map_id (action_loc w)) k (Some (a_block w)) (Some (a_idx w))) →
  applies_with mem f flags w = applies_with mem g flags w.
Proof.
  intros H. unfold applies_with. case_match; [done|]. destruct (_key _ _ _); simpl; [|done].
  by rewrite H.
Qed.

Lemma present_f_fuel mem : anc_order mem → ∀ n map_id k b i fuel fuel',
  (seen_count mem b i <= n)%nat → (n < fuel)%nat → (n < fuel')%nat →
  present_f mem fuel map_id k (Some b) i = present_f mem fuel' map_id k (Some b) i.
Proof.
  intros Ha n. induction n as [n IH] using lt_wf_ind. intros map_id k b i fuel fuel' Hc Hf Hf'.
  destruct fuel as [|fuel]; [lia|]. destruct fuel' as [|fuel']; [lia|]. cbn [present_f].
  destruct (map_cell _ _) as [[p0 ?]|]; [|done]. cbn [mbind res_bind].
  apply foldR_ext. intros p w Hin. unfold present_step.
  destruct (negb (bool_decide _) || negb (seen_from mem w b i)) eqn:Eg; [done|].
  apply orb_false_iff in Eg as [_ Eg]. apply negb_false_iff in Eg.
  pose proof (seen_count_lt _ _ _ _ Ha Hin Eg) as Hlt.
  assert (∀ fl, applies_with mem (present_f mem fuel) fl w =
                applies_with mem (present_f mem fuel') fl w) as Hap.
  { intros fl. apply applies_with_ext. intros k'.
    apply (IH (seen_count mem (a_block w) (Some (a_idx w)))); lia. }
  destruct (update_flags w) as [fl|]; [by rewrite Hap|done].
Qed.

(** [present] and [_applies] end: on an acyclic program the depth of their
    mutual recursion is at most the number of updates and deletions, so any
    larger bound gives the same terms. *)
Theorem present_terminates mem map_id k at_block at_idx fuel : anc_order mem →
  (read_fuel mem <= fuel)%nat →
  present_f mem fuel map_id k at_block at_idx = present mem map_id k at_block at_idx ∧
  ∀ flags w, applies_with mem (present_f mem fuel) flags w = _applies mem flags w.
Proof.
  intros Ha Hf. unfold _applies, present, read_fuel in *.
  assert (∀ b i, seen_count mem b i <= length (presence_writes mem))%nat as Hc
    by (intros; apply length_filter).
  assert (∀ id k b i, present_f mem fuel id k b i =
    present_f mem (S (length (presence_writes mem))) id k b i) as H.
  { intros id k' [b|] i; [|by destruct fuel].
    apply (present_f_fuel _ Ha (length (presence_writes mem))); [done|lia..]. }
  split; [apply H|]. intros. by apply applies_with_ext.
Qed.
End presence.

(** ** Examples *)

(** Block 0 stores 0x1234 in the packet and inserts a map entry, block 1, reached
    when [c] holds, overwrites one byte and deletes the entry. *)
Definition ex_writes : list Block :=
  [ set_out [mk_action 0 1 (PktWrite 3 12 VNone 2 (VNum 1 0x1234 2 (-1)));
             mk_action 0 2 (MapUpdate (Some 0) (VNum 2 3 4 (-1)) (VNum 3 7 8 (-1)) (Some 1) 0 8)]
      [] (new_Block 0 0 3);
    set_out [mk_action 1 4 (PktWrite 3 13 VNone 1 (VNum 4 0xff 1 (-1)));
             mk_action 1 5 (MapDelete (Some 0) (VNum 5 3 4 (-1)))] [] (new_Block 1 4 6);
    new_Block 2 7 9 ].

Definition ex_mem : @Memory z3 :=
  @mk_mem z3 ex_st ex_writes [(0, ∅); (1, {[0]}); (2, {[0; 1]})]
    (λ b, if b =? 1 then @GTm z3 (BVar "c") else @GPy z3 true).

Lemma ex_loc_ok i : 0 <= i < 2 → read_ok ex_model ex_mem (_Loc PKT (12 + i) 1 None VNone None).
Proof.
  intros Hi. split; simpl; [by split|done| |].
  - intros w Hin Hr. apply list_elem_of_In in Hin. vm_compute in Hin.
    destruct_or! Hin; try done; subst w; by split.
  - intros w Hin Hr. apply list_elem_of_In in Hin. vm_compute in Hin.
    destruct_or! Hin; try done; subst w; done.
Qed.

Lemma read_sound_witness : ∃ t,
  _read ex_mem PKT 12 2 None VNone 2 9 None = Ok (Some t) ∧ ev ex_model t = 0xff34 ∧
  le_int (map (λ i, memory_at ex_model ex_mem 2 9
             (mcell ex_model ex_mem (_Loc PKT 12 2 None VNone None) i)) (zrange 0 2)) = 0xff34.
Proof.
  eexists. split; [vm_compute; reflexivity|]. split; [vm_compute; reflexivity|].
  edestruct (@read_sound z3 z3_laws ex_model ex_mem PKT 12 2 None VNone 2 9 None) as [_ <-].
  - apply (init_state_ok ex_maps).
  - lia.
  - intros i Hi. by apply ex_loc_ok.
  - vm_compute. reflexivity.
  - vm_compute. reflexivity.
Defined.

(** A register set to 5 on the fall edge and to 9 on the other. *)
Definition ex_phi : join_ val :=
  mk_join 8 (-1) 3 2 [VNum 1 5 8 (-1); VNum 2 9 8 (-1)] [[(0, Fall)]; [(0, Taken)]].
Definition ex_guard (p : Z) (e : edge) : @guard z3 :=
  match e with Fall => @GTm z3 (BNot (BVar "c")) | Taken => @GTm z3 (BVar "c") end.

Lemma phi_value_sound_witness : ∃ t, phi_value ex_guard (λ _, ex_st) ∅ 7 ex_phi = Ok t ∧
  Smt.size t = 64 ∧ ev ex_model t = 9.
Proof.
  eexists. split; [vm_compute; reflexivity|].
  destruct (@phi_value_sound z3 z3_laws ex_model ex_guard (λ _, ex_st) ∅ 7 ex_phi
    (TIte (BNot (BVar "c")) (TVal 5 64) (TVal 9 64))) as [Hs Hv].
  - set_solver.
  - vm_compute. reflexivity.
  - split; [exact Hs|]. edestruct Hv as (t' & Ht' & He); [vm_compute; reflexivity|].
    vm_compute in Ht'. injection Ht' as <-. vm_compute. reflexivity.
Defined.

(** 100 bytes, less the 14 the entry takes off. *)
Definition ex_adjusts : @Memory z3 :=
  @mk_mem z3 ex_st [set_out [mk_action 0 (-1) (AdjustHead 14 VNone)] [] (new_Block 0 0 3)]
    [(0, ∅)] (λ _, @GPy z3 true).
Definition ex_len_model : tmodel :=
  {| m_bv := λ _, 100; m_bool := λ _, true; m_arr := λ _ i, i; m_parr := λ _ _, true |}.

Lemma pkt_len_at_sound_witness : ev ex_len_model (pkt_len_at ex_adjusts (Some 0)) = 86.
Proof.
  destruct (@pkt_len_at_sound z3 z3_laws ex_len_model ex_adjusts 0) as [_ ->].
  vm_compute. reflexivity.
Defined.

Lemma ex_anc_order : anc_order ex_mem.
Proof.
  assert (∀ b s, pget (m_anc ex_mem) b = Some s →
    b = 0 ∧ s = ∅ ∨ b = 1 ∧ s = {[0]} ∨ b = 2 ∧ s = {[0; 1]}) as H.
  { intros b s. simpl. repeat case_decide; naive_solver. }
  split.
  - intros b s [[-> ->]|[[-> ->]|[-> ->]]]%H; set_solver.
  - intros a b c s s' [[-> ->]|[[-> ->]|[-> ->]]]%H Ha [[-> ->]|[[-> ->]|[-> ->]]]%H Hb; set_solver.
Qed.

Lemma present_terminates_witness : present_f ex_mem 10 (Some 0) (TVal 3 32) (Some 2) None =
  present ex_mem (Some 0) (TVal 3 32) (Some 2) None.
Proof.
  apply (@present_terminates z3 ex_mem (Some 0) (TVal 3 32) (Some 2) None 10).
  - apply ex_anc_order.
  - apply (bool_decide_unpack _). vm_compute. exact I.
Defined.

Example ex_present : present ex_mem (Some 0) (TVal 3 32) (Some 2) None ≠
  Err (RuntimeError "maximum recursion depth exceeded").
Proof. vm_compute. discriminate. Qed.
