(* ===== verification/Pystr.v ===== *)
(** Python text as the specification parser uses it: [str] methods and [int(s)]
    on ASCII strings, [int.to_bytes] and [bytes], and the values [json.load]
    returns with the operations on them that can raise. *)

From Stdlib Require Import QArith Ascii.
From S2P Require Import Prelude.

Local Open Scope Z_scope.

(** ** Strings *)

Fixpoint chars (s : string) : list ascii :=
  match s with EmptyString => [] | String c s' => c :: chars s' end.
Fixpoint of_chars (l : list ascii) : string :=
  match l with [] => EmptyString | c :: l' => String c (of_chars l') end.

Definition code_of (c : ascii) : Z := Z.of_nat (nat_of_ascii c).

(** [c.isspace()]. *)
Definition is_space (c : ascii) : bool :=
  let n := code_of c in ((9 <=? n) && (n <=? 13)) || ((28 <=? n) && (n <=? 32)).

Fixpoint lstrip_l (f : ascii → bool) (l : list ascii) : list ascii :=
  match l with c :: l' => if f c then lstrip_l f l' else l | [] => [] end.

(** [s.strip()]. *)
Definition strip_l (l : list ascii) : list ascii :=
  rev (lstrip_l is_space (rev (lstrip_l is_space l))).
Definition strip (s : string) : string := of_chars (strip_l (chars s)).

(** [s.split(sep)]. *)
Fixpoint split_l (sep : ascii) (l : list ascii) : list (list ascii) :=
  match l with
  | [] => [[]]
  | c :: l' =>
      if Ascii.eqb c sep then [] :: split_l sep l'
      else match split_l sep l' with
           | w :: ws => (c :: w) :: ws
           | [] => [[c]]
           end
  end.

Definition is_digit (c : ascii) : bool := let n := code_of c in (48 <=? n) && (n <=? 57).

(** [s.isdigit()]. *)
Definition isdigit (l : list ascii) : bool :=
  match l with [] => false | _ => forallb is_digit l end.

(** [s[:2].lower() == '0x']. *)
Definition has_0x (l : list ascii) : bool :=
  match l with
  | z :: x :: _ => Ascii.eqb z "0" && (Ascii.eqb x "x" || Ascii.eqb x "X")
  | _ => false
  end.

Definition starts_with (p s : string) : bool := String.prefix p s.

Lemma chars_app s t : chars (s +:+ t) = chars s ++ chars t.
Proof. induction s as [|c s IH]; [done|]. simpl. by rewrite IH. Qed.

Lemma lstrip_none f l : Forall (λ c, f c = false) l → lstrip_l f l = l.
Proof. destruct 1 as [|c l Hc _]; [done|]. simpl. by rewrite Hc. Qed.

Lemma strip_none l : Forall (λ c, is_space c = false) l → strip_l l = l.
Proof.
  intros Hl. unfold strip_l. rewrite (lstrip_none _ l), lstrip_none, rev_involutive; [done| |done].
  by apply Forall_rev.
Qed.

(** ** [int(s, base)] *)

Definition digit_value (c : ascii) : Z :=
  let n := code_of c in
  if (48 <=? n) && (n <=? 57) then n - 48
  else if (97 <=? n) && (n <=? 122) then n - 87
  else if (65 <=? n) && (n <=? 90) then n - 55
  else 37.

Definition bad_int : err := ValueError "invalid literal for int()".

(** Digits with single underscores between them; [after]: the last character read
    was a digit. *)
Fixpoint parse_digits (base acc : Z) (after : bool) (l : list ascii) : res Z :=
  match l with
  | [] => if after then Ok acc else Err bad_int
  | c :: l' =>
      if Ascii.eqb c "_" then (if after then parse_digits base acc false l' else Err bad_int)
      else if digit_value c <? base then parse_digits base (acc * base + digit_value c) true l'
      else Err bad_int
  end.

Definition parse_unsigned (base : Z) (l : list ascii) : res Z :=
  if (base =? 16) && has_0x l then
    match l with
    | _ :: _ :: c :: l' =>
        if Ascii.eqb c "_" then parse_digits base 0 false l' else parse_digits base 0 false (c :: l')
    | _ => Err bad_int
    end
  else parse_digits base 0 false l.

Definition py_int_l (base : Z) (l : list ascii) : res Z :=
  match strip_l l with
  | "-"%char :: l' => Z.opp <$> parse_unsigned base l'
  | "+"%char :: l' => parse_unsigned base l'
  | l' => parse_unsigned base l'
  end.
Definition py_int (base : Z) (s : string) : res Z := py_int_l base (chars s).

(** ** Byte strings *)

(** [v.to_bytes(size, 'big')]. *)
Definition to_bytes_big (v size : Z) : res (list Z) :=
  if size <? 0 then Err (ValueError "length argument must be non-negative")
  else if (v <? 0) || (2 ^ (8 * size) <=? v) then Err OverflowError
  else Ok (rev (le_bytes (Z.to_nat size) v)).

(** [bytes(l)]. *)
Definition py_bytes (l : list Z) : res (list Z) :=
  if forallb (λ b, (0 <=? b) && (b <? 256)) l then Ok l
  else Err (ValueError "bytes must be in range(0, 256)").

(** ** JSON values

    A number with a fraction or an exponent is the rational its double stands
    for; objects keep their keys in order, without repetition. *)

Inductive json :=
| JNull
| JBool (b : bool)
| JInt (z : Z)
| JFloat (q : Q)
| JStr (s : string)
| JList (l : list json)
| JObj (o : list (string * json)).

(** [int(x)]. *)
Definition json_int (x : json) : res Z :=
  match x with
  | JBool b => Ok (if b then 1 else 0)
  | JInt z => Ok z
  | JFloat q => Ok (Z.quot (Qnum q) (Z.pos (Qden q)))
  | JStr s => py_int 10 s
  | JNull | JList _ | JObj _ => Err TypeError
  end.

(** [bool(x)]. *)
Definition truthy (x : json) : bool :=
  match x with
  | JNull => false
  | JBool b => b
  | JInt z => negb (z =? 0)
  | JFloat q => negb (Qnum q =? 0)
  | JStr s => negb (String.eqb s "")
  | JList l => match l with [] => false | _ => true end
  | JObj o => match o with [] => false | _ => true end
  end.

(** [x == z] for an [int] and [x == s] for a [str] or [None]. *)
Definition eq_int (x : json) (z : Z) : bool :=
  match x with
  | JBool b => (if b then 1 else 0) =? z
  | JInt y => y =? z
  | JFloat q => Qnum q =? z * Z.pos (Qden q)
  | _ => false
  end.
Definition eq_name (x : json) (s : option string) : bool :=
  match x, s with
  | JStr a, Some b => String.eqb a b
  | JNull, None => true
  | _, _ => false
  end.
Definition eq_str (x : json) (s : string) : bool := eq_name x (Some s).

(** [k in x], [x[k]], [x.get(k)] and [x.items()] for a string [k]. *)
Definition json_in (k : string) (x : json) : res bool :=
  match x with
  | JObj o => Ok (pmem o k)
  | JList l => Ok (existsb (λ y, eq_str y k) l)
  | JStr s => Ok (bool_decide (is_Some (String.index 0 k s)))
  | JNull | JBool _ | JInt _ | JFloat _ => Err TypeError
  end.
Definition json_item (x : json) (k : string) : res json :=
  match x with JObj o => of_option KeyError (pget o k) | _ => Err TypeError end.
Definition json_get (x : json) (k : string) : res (option json) :=
  match x with JObj o => Ok (pget o k) | _ => Err AttributeError end.
Definition json_items (x : json) : res (list (string * json)) :=
  match x with JObj o => Ok o | _ => Err AttributeError end.

(** [x.get(k, d)] where [null] counts as present. *)
Definition json_get_or (x : json) (k : string) (d : json) : res json :=
  default d <$> json_get x k.

(** [x or {}]. *)
Definition or_empty (x : json) : json := if truthy x then x else JObj [].

Example int_hex : py_int 16 " 0xFf_0 " = Ok 4080.
Proof. reflexivity. Qed.
Example int_bad : py_int 10 "1__2" = Err bad_int.
Proof. reflexivity. Qed.
Example split_ip : map (py_int_l 10) (split_l "." (chars "10.0.0.254")) = [Ok 10; Ok 0; Ok 0; Ok 254].
Proof. reflexivity. Qed.
