(* ===== verification/Spec.v ===== *)
(** The specification language ([verify/spec.py]): the atoms and conditions with
    their formulas, the input they start from, and the parser from JSON.

    What the packet library computes is a parameter ([Scapy]); so is the solver's
    reading of a numeral given as text ([numeral]). *)

From Stdlib Require Import QArith Ascii.
From S2P Require Import Prelude Constants Smt Expr Record Link Encode Action Block Slice Pystr.

Local Open Scope Z_scope.

(** ** Parameters *)

(** The accumulator of [addfield]: the bytes, or the bytes and the bits of an
    unfinished bit field. *)
Inductive field_acc :=
| FBytes (l : list Z)
| FBits (l : list Z) (bits : Z * Z).

Record field := mk_field { f_explicit : bool; f_addfield : field_acc → field_acc }.
Definition layer : Type := list field.

Class Scapy := {
  (** [_eval_scapy_packet], the layers of the packet up to its [NoPayload]. *)
  scapy_eval : json → res (list layer);
  numeral : string → res Z
}.

(** ** Tables *)

Definition PROTOCOL_FIELDS : list (string * (Z * Z)) :=
  [("eth_dst", (0, 6)); ("eth_src", (6, 6)); ("eth_type", (12, 2)); ("ip_ver", (14, 1));
   ("ip_tos", (15, 1)); ("ip_len", (16, 2)); ("ip_id", (18, 2)); ("ip_flags", (20, 2));
   ("ip_ttl", (22, 1)); ("ip_proto", (23, 1)); ("ip_chk", (24, 2)); ("ip_src", (26, 4));
   ("ip_dst", (30, 4)); ("tcp_sport", (34, 2)); ("tcp_dport", (36, 2)); ("udp_sport", (34, 2));
   ("udp_dport", (36, 2))]%string.

Definition HELPER_IMM : list (string * Z) :=
  [("bpf_map_lookup_elem", 1); ("bpf_ktime_get_ns", 5); ("bpf_get_prandom_u32", 7);
   ("bpf_get_smp_processor_id", 8); ("bpf_tail_call", 12); ("bpf_get_current_pid_tgid", 14);
   ("bpf_get_current_uid_gid", 15); ("bpf_redirect", 23); ("bpf_get_numa_node_id", 42);
   ("bpf_csum_diff", 28); ("bpf_xdp_adjust_head", 44); ("bpf_redirect_map", 51);
   ("bpf_xdp_adjust_meta", 54); ("bpf_xdp_adjust_tail", 65); ("bpf_jiffies64", 118);
   ("bpf_ktime_get_boot_ns", 125); ("bpf_ktime_get_coarse_ns", 160);
   ("bpf_xdp_get_buff_len", 188); ("bpf_ktime_get_tai_ns", 208)]%string.

(** ** Numbers and byte strings *)

Definition spec_err (msg : string) : err := SpecError msg.

Definition sized (parts : list Z) (size : Z) (e : err) : res (list Z) :=
  if Z.of_nat (length parts) =? size then Ok parts else Err e.

Definition parse_val_str (s : string) (size : Z) : res (list Z) :=
  let v := strip_l (chars s) in
  if has_0x v then n ← py_int_l 16 v; to_bytes_big n size
  else if existsb (Ascii.eqb ".") v then
    parts ← mapR (py_int_l 10) (split_l "." v); sized parts size (spec_err "IPv4 does not match size")
  else if existsb (Ascii.eqb ":") v then
    parts ← mapR (py_int_l 16) (split_l ":" v); sized parts size (spec_err "MAC does not match size")
  else n ← py_int_l 10 v; to_bytes_big n size.

Definition _parse_val_bytes (value : json) (size : Z) : res (list Z) :=
  match value with
  | JBool _ => Err (spec_err "boolean is not a byte value")
  | JInt z => to_bytes_big z size
  | JList l =>
      if negb (Z.of_nat (length l) =? size) then Err (spec_err "byte list does not match size")
      else mapR (λ b, n ← json_int b; Ok (Z.land n 0xFF)) l
  | JStr s => parse_val_str s size
  | JNull | JFloat _ | JObj _ => Err (spec_err "unparseable value")
  end.

Definition _parse_multibyte_int (value : json) (size : Z) : res Z :=
  l ← _parse_val_bytes value size; b ← py_bytes l; Ok (le_int b).

Definition _parse_int (x : json) : res Z :=
  match x with
  | JBool _ => Err (spec_err "boolean is not an int")
  | JInt z => Ok z
  | JStr s => let v := strip_l (chars s) in if has_0x v then py_int_l 16 v else py_int_l 10 v
  | JNull | JFloat _ | JList _ | JObj _ => Err (spec_err "expected int")
  end.

(** ** The bytes a packet expression fixes *)

(** One field: the bytes so far, whether every field of the open group was given,
    the mask. *)
Definition add_field (s : field_acc * bool * list bool) (f : field) : field_acc * bool * list bool :=
  let '(p, group, m) := s in
  let before := length (match p with FBytes l => l | FBits l _ => l end) in
  let p := f_addfield f p in
  let group := group && f_explicit f in
  match p with
  | FBytes l => (p, true, m ++ replicate (length l - before) group)
  | FBits _ _ => (p, group, m)
  end.

Definition _layer_byte_facts (l : layer) : res (list Z * list bool) :=
  let '(p, _, m) := fold_left add_field l (FBytes [], true, []) in
  match p with
  | FBytes b => Ok (b, m)
  | FBits _ _ => Err (spec_err "layer has an unaligned bitfield header")
  end.

Definition _packet_byte_facts (pkt : list layer) : res (list Z * list bool) :=
  foldR (λ (s : list Z * list bool) l,
    match _layer_byte_facts l with
    | Ok (p, m) => Ok (s.1 ++ p, s.2 ++ m)
    | Err e => Err e
    end) ([], []) pkt.

(** ** The input *)

Record InputSpec := mk_input {
  in_pkt_bytes : list (Z * Z);
  in_pkt_len : option Z;
  in_map_values : list (Z * list (Z * Z));
  in_ingress : option Z;
  in_rx_queue : option Z;
  in_egress : option Z
}.

Definition _resolve_map (ref : json) (maps : option (list map_info)) : res map_info :=
  ms ← of_option (spec_err "map reference used but no maps") maps;
  of_option (spec_err "map not found")
    (List.find (λ m, eq_int ref (mi_id m) || eq_name ref (mi_name m)) ms).

(** [int(ref) if ref.lstrip('-').isdigit() else ref]. *)
Definition map_ref (ref : string) : res json :=
  if isdigit (lstrip_l (λ c, Ascii.eqb c "-") (chars ref)) then JInt <$> py_int 10 ref
  else Ok (JStr ref).

Definition parse_entries (m : map_info) (entries : json) : res (list (Z * Z)) :=
  kvs ← json_items (or_empty entries);
  foldR (λ kv e,
    k ← _parse_multibyte_int (JStr e.1) (mi_key_size m);
    v ← _parse_multibyte_int e.2 (mi_value_size m);
    Ok (pset kv k v)) [] kvs.

Definition parse_map_entry (maps : option (list map_info)) (out : list (Z * list (Z * Z)))
    (e : string * json) : res (list (Z * list (Z * Z))) :=
  if starts_with "_" e.1 then Ok out
  else
    ref ← map_ref e.1;
    m ← _resolve_map ref maps;
    if mi_type m =? BPF_MAP_TYPE_PROG_ARRAY then Err (spec_err "map is a PROG_ARRAY")
    else kv ← parse_entries m e.2; Ok (pset out (mi_id m) kv).

Section input.
Context `{Scapy}.

(** The entry of [enumerate(mask)]. *)
Definition explicit_bytes (bytes : list Z) (m : list bool) : res (list (Z * Z)) :=
  foldR (λ d '(i, ex), if (ex : bool) then b ← py_index bytes (Z.of_nat i); Ok (pset d (Z.of_nat i) b)
                       else Ok d) [] (imap pair m).

Definition parse_packet (node : json) : res (list (Z * Z) * option Z) :=
  has ← json_in "packet" node;
  if (has : bool) then
    e ← json_item node "packet";
    layers ← scapy_eval e;
    '(bytes, m) ← _packet_byte_facts layers;
    d ← explicit_bytes bytes m;
    Ok (d, Some (Z.of_nat (length bytes)))
  else Ok ([], None).

Definition _ctx_int (ctx : json) (name : string) : res (option Z) :=
  has ← json_in name ctx;
  if (has : bool) then x ← json_item ctx name; Some <$> _parse_int x else Ok None.

Definition _parse_input (node : json) (maps : option (list map_info)) : res InputSpec :=
  '(pkt_bytes, pkt_len) ← parse_packet node;
  ctx ← or_empty <$> json_get_or node "context" (JObj []);
  declared ← _ctx_int ctx "pkt_len";
  pkt_len ← match declared with
            | None => Ok pkt_len
            | Some d =>
                match pkt_len with
                | Some n => if d <? n then Err (spec_err "context.pkt_len is shorter than the packet")
                            else Ok declared
                | None => Ok declared
                end
            end;
  refs ← json_get_or node "maps" JNull;
  items ← json_items (or_empty refs);
  map_values ← foldR (parse_map_entry maps) [] items;
  ingress ← _ctx_int ctx "ingress_ifindex";
  rx ← _ctx_int ctx "rx_queue_index";
  egress ← _ctx_int ctx "egress_ifindex";
  Ok (mk_input pkt_bytes pkt_len map_values ingress rx egress).
End input.

(** ** The initial state of an input *)

Section state.
Context `{SMT}.

Definition input_map (input_spec : InputSpec) (m : map_info) : parr * barr :=
  let kw := Z.max (mi_key_size m) 1 * 8 in
  let vw := Z.max (mi_value_size m) 1 * 8 in
  let value := Array ("value" +:+ pretty (mi_id m)) kw vw in
  match pget (in_map_values input_spec) (mi_id m) with
  | None => (PArray ("present" +:+ pretty (mi_id m)) kw, value)
  | Some entries =>
      fold_left (λ pv kv,
        let kk := BitVecVal kv.1 kw in
        (PStore pv.1 kk (BoolVal true), Store pv.2 kk (BitVecVal kv.2 vw)))
        entries (PK kw (BoolVal false), value)
  end.

Definition input_scalar (name : string) (v : option Z) : bv :=
  match v with Some n => BitVecVal n 64 | None => BitVec name 64 end.

Definition input_pkt (input_spec : InputSpec) : barr :=
  fold_left (λ pkt0 ob, Store pkt0 (BitVecVal ob.1 PKT_ADDR_BITS) (BitVecVal ob.2 8))
    (in_pkt_bytes input_spec) (Array "pkt0" PKT_ADDR_BITS 8).

Definition z3_state_from_input (input_spec : InputSpec) (maps : list map_info) : Z3State :=
  mk_state maps None None None None None None None None
    (input_pkt input_spec) (map (input_map input_spec) maps)
    (BitVec "r0" 64)
    (input_scalar "rx_queue_index0" (in_rx_queue input_spec))
    (input_scalar "ingress_ifindex" (in_ingress input_spec))
    (input_scalar "egress_ifindex" (in_egress input_spec))
    (input_scalar "pkt_len" (in_pkt_len input_spec)) [].
End state.

(** ** Atoms and conditions *)

Inductive cmp_op := OEq | ONe | OLt | OLe | OGt | OGe.
Inductive ctx_target := TIngress | TRxIndex | TEgress.
Inductive helper_kind :=
| HScalar (retval : val) (op : cmp_op) (value : Z)
| HMapNull (map_id : option Z) (map_key : val) (map_key_id : option Z) (result : bool).

Inductive atom :=
| PktAtom (offset size : Z) (data : list Z) (op : cmp_op)
| MapAtom (map_id key : Z) (present : option bool) (value : option Z) (key_size value_size : Z)
| BssAtom (sym : string) (offset size value : Z) (op : cmp_op)
| LenAtom (min max : option json)
| ScalarAtom (target : ctx_target) (value : Z)
| HelperAtom (imm idx size : Z) (kind : helper_kind)
| RetAtom (op : cmp_op) (value : Z)
| ReadAtom (parts : list (val * Z)) (op : cmp_op) (target size region offset : Z)
           (map_id : option Z).

Inductive CondNode :=
| CLeaf (a : atom)
| CNot (c : CondNode)
| CAnd (l : list CondNode)
| COr (l : list CondNode).

Record BlockCondition := mk_bc { bc_name : string; bc_block : Z; bc_all : bool; bc_cond : CondNode }.
Record ExitCondition := mk_ec { ec_name : string; ec_all : bool; ec_cond : CondNode }.
Record Policy := mk_policy {
  pol_input : option InputSpec;
  pol_block : list BlockCondition;
  pol_exit : list ExitCondition
}.

Section formulas.
Context `{SMT} `{Scapy}.

(** What [==] on the two sides raises when a reader has no answer. *)
Definition no_term : err := ExceptionErr "z3: no term".

(** [op] on a term and a constant. *)
Definition cmp_const (op : cmp_op) (v rhs : bv) : bl :=
  match op with
  | OEq => bveq v rhs | ONe => bvne v rhs
  | OLt => ULT v rhs | OLe => ULE v rhs
  | OGt => UGT v rhs | OGe => UGE v rhs
  end.

(** [eq if op == 'eq' else Not(eq)]. *)
Definition eq_or_not (op : cmp_op) (eq : bl) : bl :=
  match op with OEq => eq | _ => Not eq end.

(** [st.read_loc(region, off, 1, map_id, map_key, bss_key)]. *)
Definition spec_byte (f : mloc → res (option bv)) (region off : Z) (map_id : option Z) (key : val)
    (sym : option string) : res bv :=
  t ← f (_Loc region off 1 map_id key sym); of_option no_term t.

(** The bytes of an atom on the packet or a global, lowest address first. *)
Definition pkt_atom_bytes (st : Z3State) (offset size : Z) : res (list bv) :=
  mapR (λ i, match read_loc st with
             | Some f => spec_byte f PKT (offset + i) None VNone None
             | None => Ok (Select (z_pkt st) (BitVecVal (offset + i) (domain_size (z_pkt st))))
             end) (zrange 0 size).
Definition bss_atom_bytes (st : Z3State) (sym : string) (offset size : Z) : res (list bv) :=
  mapR (λ i, match read_loc st with
             | Some f => spec_byte f BSS (offset + i) None VNone (Some sym)
             | None => Ok (Select (_bss_of st (Some sym)) (BitVecVal (offset + i) BSS_ADDR_BITS))
             end) (zrange 0 size).

Definition pkt_atom_z3 (st : Z3State) (offset size : Z) (data : list Z) (op : cmp_op) : res bl :=
  bs ← pkt_atom_bytes st offset size;
  eqs ← mapR (λ '(i, b), d ← py_index data (Z.of_nat i); Ok (bveq b (BitVecVal d 8))) (imap pair bs);
  Ok (eq_or_not op (And eqs)).

(** The key of a map atom: a new object, which no object of the program is. *)
Definition atom_key (key key_size : Z) : val := VNum (-1) key key_size (-1).

Definition map_atom_value (st : Z3State) (map_id key key_size value_size : Z) : res bv :=
  match read_loc st with
  | Some f =>
      parts ← mapR (λ i, spec_byte f MAP i (Some map_id) (atom_key key key_size) None)
                   (zrange 0 value_size);
      concat_or (rev parts)
  | None =>
      '(_, a) ← map_cell st (Some map_id); Ok (Select a (BitVecVal key (key_size * 8)))
  end.

Definition map_atom_z3 (st : Z3State) (map_id key : Z) (present : option bool) (value : option Z)
    (key_size value_size : Z) : res bl :=
  p ← cond_to_z3 st (CContain (Some map_id) (atom_key key key_size) None true);
  match value with
  | Some v =>
      got ← map_atom_value st map_id key key_size value_size;
      Ok (And [to_bl p; bveq got (BitVecVal v (value_size * 8))])
  | None => Ok (if default false present then to_bl p else to_bl (_not p))
  end.

Definition bss_atom_z3 (st : Z3State) (sym : string) (offset size value : Z) (op : cmp_op) : res bl :=
  bs ← bss_atom_bytes st sym offset size;
  whole ← concat_or (rev bs);
  Ok (eq_or_not op (bveq whole (BitVecVal value (size * 8)))).

(** [BitVecVal(x, 64)] of a JSON value. *)
Definition len_const (x : json) : res bv :=
  match x with
  | JInt z => Ok (BitVecVal z 64)
  | JBool b => Ok (BitVecVal (if b then 1 else 0) 64)
  | JFloat q => Ok (BitVecVal (Z.quot (Qnum q) (Z.pos (Qden q))) 64)
  | JStr s => z ← numeral s; Ok (BitVecVal z 64)
  | JNull | JList _ | JObj _ => Err (ExceptionErr "z3: parser error")
  end.

Definition len_atom_z3 (st : Z3State) (min max : option json) : res bl :=
  lo ← match min with Some x => t ← len_const x; Ok [UGE (z_pkt_len st) t] | None => Ok [] end;
  hi ← match max with Some x => t ← len_const x; Ok [ULE (z_pkt_len st) t] | None => Ok [] end;
  match lo ++ hi with
  | [] => Err IndexError
  | [p] => Ok p
  | ps => Ok (And ps)
  end.

Definition ctx_term (st : Z3State) (t : ctx_target) : bv :=
  match t with TIngress => z_ingress st | TRxIndex => z_rx_index st | TEgress => z_egress st end.

Definition helper_atom_z3 (st : Z3State) (k : helper_kind) : res bl :=
  match k with
  | HScalar retval op value =>
      v ← expr_z3 st retval; Ok (cmp_const op v (BitVecVal value (size v)))
  | HMapNull map_id map_key key_id result =>
      to_bl <$> cond_to_z3 st (CContain map_id map_key key_id result)
  end.

Definition read_atom_z3 (st : Z3State) (parts : list (val * Z)) (op : cmp_op) (target : Z)
    : res bl :=
  bs ← mapR (λ '(leaf, k), t ← expr_z3 st leaf; Ok (Extract (k * 8 + 7) (k * 8) t)) parts;
  v ← concat_or (rev bs);
  let rhs := BitVecVal target (size v) in
  Ok (match op with OEq => bveq v rhs | _ => bvne v rhs end).

Definition atom_to_z3 (st : Z3State) (a : atom) : res bl :=
  match a with
  | PktAtom offset sz data op => pkt_atom_z3 st offset sz data op
  | MapAtom id key present value ks vs => map_atom_z3 st id key present value ks vs
  | BssAtom sym offset sz value op => bss_atom_z3 st sym offset sz value op
  | LenAtom min max => len_atom_z3 st min max
  | ScalarAtom target value => Ok (bveq (ctx_term st target) (BitVecVal value 64))
  | HelperAtom _ _ _ k => helper_atom_z3 st k
  | RetAtom op value => Ok (cmp_const op (z_r0 st) (BitVecVal value 64))
  | ReadAtom parts op target _ _ _ _ => read_atom_z3 st parts op target
  end.

Fixpoint node_to_z3 (st : Z3State) (c : CondNode) : res bl :=
  let fix terms (l : list CondNode) : res (list bl) :=
    match l with
    | [] => Ok []
    | x :: l' => t ← node_to_z3 st x; ts ← terms l'; Ok (t :: ts)
    end in
  match c with
  | CLeaf a => atom_to_z3 st a
  | CNot c => t ← node_to_z3 st c; Ok (Not t)
  | CAnd l => ts ← terms l; Ok (And ts)
  | COr l => ts ← terms l; Ok (Or ts)
  end.
End formulas.

(** ** The parser *)

(** A helper call of the index: an action or a [func_retval]. *)
Definition rec_ret (r : action + val) : option string :=
  match r with inl a => action_ret a | inr _ => Some "scalar"%string end.
Definition rec_imm (r : action + val) : Z :=
  match r with
  | inl a =>
      match a_kind a with
      | MapLookup _ _ _ => 1
      | AdjustHead _ _ => 44
      | AdjustTail _ _ => 65
      | AdjustMeta _ _ => 54
      | XdpBuffLen _ => 188
      | TailCall _ _ _ _ _ => 12
      | _ => -1
      end
  | inr (VFunc _ f) => fr_func f
  | inr _ => -1
  end.
Definition rec_ret_size (r : action + val) : Z :=
  match r with inr (VFunc _ f) => fr_size f | _ => 8 end.
(** [getattr(rec, 'retval', rec)]. *)
Definition rec_retval (r : action + val) : val :=
  match r with
  | inl a =>
      match a_kind a with
      | AdjustHead _ v | AdjustTail _ v | AdjustMeta _ v | XdpBuffLen v => v
      | _ => VNone
      end
  | inr v => v
  end.

Definition ops_eq : list (string * cmp_op) := [("eq", OEq); ("ne", ONe)]%string.
Definition ops_all : list (string * cmp_op) :=
  app ops_eq [("lt", OLt); ("le", OLe); ("gt", OGt); ("ge", OGe)]%string.

Definition op_of (ops : list (string * cmp_op)) (x : json) (msg : string) : res cmp_op :=
  match x with
  | JStr s => of_option (spec_err msg) (pget ops s)
  | _ => Err (spec_err msg)
  end.

(** [d.get(x)] of a table keyed by names. *)
Definition table_get {A} (d : list (string * A)) (x : json) : res (option A) :=
  match x with
  | JList _ | JObj _ => Err TypeError
  | JStr s => Ok (pget d s)
  | _ => Ok None
  end.

(** The members of an atom, once it is known to be an object. *)
Definition members : Type := list (string * json).
Definition has (a : members) (k : string) : bool := pmem a k.
Definition item (a : members) (k : string) : res json := of_option KeyError (pget a k).
Definition get_or (a : members) (k : string) (d : json) : json := default d (pget a k).
(** [a.get(k)], where [null] is [None]. *)
Definition get_opt (a : members) (k : string) : option json :=
  match pget a k with Some JNull => None | o => o end.

Definition check_helper (a : members) (r : action + val) : res unit :=
  if has a "helper" then
    h ← item a "helper";
    want ← table_get HELPER_IMM h;
    want ← of_option (spec_err "unknown helper") want;
    guard_or (want =? rec_imm r) (spec_err "idx is another helper")
  else Ok tt.

Definition parse_scalar_helper (a : members) (r : action + val) (idx : Z) : res atom :=
  guard_or (has a "op" && has a "value") (spec_err "scalar helper atom needs 'op' and 'value'");;
  op ← item a "op";
  op ← op_of ops_all op "invalid helper op";
  v ← item a "value";
  v ← _parse_int v;
  Ok (HelperAtom (rec_imm r) idx (rec_ret_size r) (HScalar (rec_retval r) op v)).

Definition parse_pointer_helper (a : members) (r : action + val) (idx : Z) : res atom :=
  let ret := get_or a "returns" JNull in
  guard_or (eq_str ret "null" || eq_str ret "non_null")
    (spec_err "pointer helper atom needs returns: null|non_null");;
  match r with
  | inl (mk_action _ _ (MapLookup map_id map_key key_id)) =>
      Ok (HelperAtom (rec_imm r) idx 8
            (HMapNull map_id map_key (Some key_id) (eq_str ret "non_null")))
  | _ => Err AttributeError
  end.

Definition _parse_helper_atom (a : members) (calls : option call_index) : res atom :=
  calls ← of_option (spec_err "helper atom used but no calls") calls;
  i ← item a "idx";
  idx ← _parse_int i;
  r ← of_option (spec_err "idx is not a recorded helper call") (pget calls idx);
  guard_or (negb (bool_decide (rec_ret r = Some "transfer"%string)))
    (spec_err "idx is a bpf_tail_call");;
  check_helper a r;;
  if bool_decide (rec_ret r = Some "scalar"%string) then parse_scalar_helper a r idx
  else parse_pointer_helper a r idx.

Definition parse_ret_atom (a : members) (block : option Z) : res atom :=
  guard_or (bool_decide (block = None)) (spec_err "a 'ret' atom is only valid in exit_conditions");;
  op ← op_of ops_all (get_or a "op" (JStr "eq")) "invalid ret op";
  v ← item a "ret";
  v ← _parse_int v;
  Ok (RetAtom op v).

Definition parse_bss_atom (a : members) (op : cmp_op) : res atom :=
  b ← item a "bss";
  sym ← match b with JStr s => Ok s | _ => Err (spec_err "bss atom names a symbol by string") end;
  guard_or (has a "size" && has a "value") (spec_err "bss atom needs 'size' and 'value'");;
  sz ← item a "size";
  sz ← json_int sz;
  guard_or (1 <=? sz) (spec_err "bss atom size must be at least 1");;
  off ← json_int (get_or a "offset" (JInt 0));
  v ← item a "value";
  v ← _parse_multibyte_int v sz;
  Ok (BssAtom sym off sz v op).

Definition parse_map_atom (a : members) (maps : option (list map_info)) : res atom :=
  ref ← item a "map";
  m ← _resolve_map ref maps;
  let present := get_opt a "contains" in
  let value := get_opt a "value" in
  guard_or (bool_decide (is_Some present) || bool_decide (is_Some value))
    (spec_err "map atom needs 'contains' or 'value'");;
  guard_or (negb (bool_decide (is_Some value)
                  && match present with Some (JBool false) => true | _ => false end))
    (spec_err "an absent key has no value");;
  k ← item a "key";
  key ← _parse_multibyte_int k (mi_key_size m);
  v ← match value with
      | Some x => v ← _parse_multibyte_int x (mi_value_size m); Ok (Some v)
      | None => Ok None
      end;
  Ok (MapAtom (mi_id m) key (truthy <$> present) v (mi_key_size m) (mi_value_size m)).

Definition parse_len_atom (a : members) : res atom :=
  r ← item a "pkt_len";
  lo ← json_get r "min";
  hi ← json_get r "max";
  let opt x := match x with Some JNull => None | _ => x end in
  Ok (LenAtom (opt lo) (opt hi)).

Definition _CTX_TARGETS : list (string * ctx_target) :=
  [("ingress_ifindex", TIngress); ("rx_queue_index", TRxIndex); ("egress_ifindex", TEgress)]%string.

Definition parse_ctx_atom (a : members) : res atom :=
  c ← item a "ctx";
  tgt ← table_get _CTX_TARGETS c;
  tgt ← of_option (spec_err "unknown ctx target") tgt;
  v ← item a "value";
  v ← _parse_int v;
  Ok (ScalarAtom tgt v).

Definition parse_pkt_atom (a : members) (op : cmp_op) : res atom :=
  os ← (if has a "field" then
          f ← item a "field";
          t ← table_get PROTOCOL_FIELDS f;
          of_option (spec_err "unknown field") t
        else if has a "offset" && has a "size" then
          o ← item a "offset"; o ← json_int o;
          s ← item a "size"; s ← json_int s;
          Ok (o, s)
        else Err (spec_err "unrecognized atom shape"));
  guard_or (has a "value") (spec_err "packet atom needs 'value'");;
  v ← item a "value";
  data ← _parse_val_bytes v (snd os);
  Ok (PktAtom (fst os) (snd os) data op).

(** *** Reads *)

Definition index_value (region : Z) (map_id : option Z) (out : list (Z * (val * Z))) (v : val)
    : list (Z * (val * Z)) :=
  let fill off sz := fold_left (λ d i, pset d (off + i) (v, i)) (zrange 0 sz) out in
  match v with
  | VPkt _ p => if (region =? 0) && is_none (pv_var_off p) then fill (pv_off p) (pv_size p) else out
  | VMap _ m => if negb (region =? 0) && negb ((region =? 1) && negb (bool_decide (mv_map_id m = map_id)))
                then fill (mv_off m) (mv_size m) else out
  | _ => out
  end.

Definition _byte_index (sources : list val) (region : Z) (map_id : option Z)
    : list (Z * (val * Z)) :=
  fold_left (index_value region map_id) sources [].

Definition _assemble (sources : list val) (region offset sz : Z) (map_id : option Z)
    : option (list (val * Z)) :=
  let index := _byte_index sources region map_id in
  all_some (map (pget index) (zrange offset (offset + sz))).

(** The region, offset and map of a read. *)
Definition read_place (spec : members) (maps : option (list map_info))
    : res (Z * Z * option Z) :=
  if has spec "map" then
    ref ← item spec "map";
    m ← _resolve_map ref maps;
    off ← json_int (get_or spec "offset" (JInt 0));
    Ok (1, off, Some (mi_id m))
  else if has spec "offset" then
    o ← item spec "offset"; off ← json_int o;
    Ok (0, off, None)
  else Err (spec_err "'read' needs 'offset'+'size' or 'map'+'size'").

Definition read_target (a : members) (maps : option (list map_info)) (sources : list val)
    : res atom :=
  s ← item a "read";
  spec ← match s with JObj o => Ok o | _ => Err (spec_err "'read' must be an object") end;
  op ← op_of ops_eq (get_or a "op" (JStr "eq")) "invalid read op";
  guard_or (has a "value") (spec_err "read atom needs 'value'");;
  guard_or (has spec "size") (spec_err "'read' needs 'size'");;
  sz ← item spec "size";
  sz ← json_int sz;
  rom ← read_place spec maps;
  let '(region, off, map_id) := rom in
  parts ← of_option (spec_err "block never read some byte") (_assemble sources region off sz map_id);
  v ← item a "value";
  target ← _parse_multibyte_int v sz;
  Ok (ReadAtom parts op target sz region off map_id).

Definition _parse_read_atom (a : members) (maps : option (list map_info)) (block : option Z)
    (blocks : option (list Block)) : res atom :=
  n ← of_option (spec_err "a 'read' atom needs a specific block") block;
  bs ← of_option (spec_err "a 'read' atom needs blocks") blocks;
  guard_or ((0 <=? n) && (n <? Z.of_nat (length bs))) (spec_err "not a tracked block");;
  b ← py_index bs n;
  read_target a maps (sources b).

(** *** Atoms and conditions *)

Section parse.
Context (maps : option (list map_info)) (calls : option call_index).
Context (block : option Z) (blocks : option (list Block)).

Definition _parse_atom (x : json) : res atom :=
  match x with
  | JObj a =>
      if has a "idx" then _parse_helper_atom a calls
      else if has a "ret" then parse_ret_atom a block
      else if has a "read" then _parse_read_atom a maps block blocks
      else
        op ← op_of ops_eq (get_or a "op" (JStr "eq")) "invalid op";
        if has a "bss" then parse_bss_atom a op
        else if has a "map" then parse_map_atom a maps
        else if has a "pkt_len" then parse_len_atom a
        else if has a "ctx" then parse_ctx_atom a
        else parse_pkt_atom a op
  | _ => Err (spec_err "atom must be an object")
  end.

Fixpoint _parse_cond (node : json) : res CondNode :=
  let fix conds (l : list json) : res (list CondNode) :=
    match l with
    | [] => Ok []
    | x :: l' => c ← _parse_cond x; cs ← conds l'; Ok (c :: cs)
    end in
  match node with
  | JObj [(op, kids)] =>
      if String.eqb op "not" then
        match kids with
        | JList [k] => c ← _parse_cond k; Ok (CNot c)
        | JList _ => Err (spec_err "'not' takes exactly one child condition")
        | _ => c ← _parse_cond kids; Ok (CNot c)
        end
      else if String.eqb op "and" || String.eqb op "or" then
        match kids with
        | JList [] => Ok (CAnd [])
        | JList l => cs ← conds l; Ok (if String.eqb op "and" then CAnd cs else COr cs)
        | _ => Err (spec_err "needs a list of child conditions")
        end
      else CLeaf <$> _parse_atom node
  | _ => CLeaf <$> _parse_atom node
  end.
End parse.

(** [node.get('assert', 'exists')]: whether it is ['all']. *)
Definition parse_mode (node : json) : res bool :=
  m ← json_get_or node "assert" (JStr "exists");
  guard_or (eq_str m "all" || eq_str m "exists") (spec_err "invalid assert");;
  Ok (eq_str m "all").

Definition no_cond : json := JObj [("and"%string, JList [])].

Definition _parse_block_condition (name : string) (node : json) (maps : option (list map_info))
    (blocks : option (list Block)) (calls : option call_index) : res BlockCondition :=
  has ← json_in "block" node;
  guard_or has (spec_err "block_conditions needs a 'block'");;
  b ← json_item node "block";
  block ← json_int b;
  guard_or match blocks with
           | Some bs => (0 <=? block) && (block <? Z.of_nat (length bs))
           | None => true
           end (spec_err "block is not a tracked block");;
  all ← parse_mode node;
  c ← json_get_or node "cond" no_cond;
  cond ← _parse_cond maps calls (Some block) blocks c;
  Ok (mk_bc name block all cond).

Definition _parse_exit_condition (name : string) (node : json) (maps : option (list map_info))
    (calls : option call_index) : res ExitCondition :=
  all ← parse_mode node;
  c ← json_get_or node "cond" no_cond;
  cond ← _parse_cond maps calls None None c;
  Ok (mk_ec name all cond).

Definition _TOP_LEVEL_KEYS : list string := ["input"; "block_conditions"; "exit_conditions"]%string.
Definition is_top (k : string) : bool := existsb (String.eqb k) _TOP_LEVEL_KEYS.

(** The named conditions of a section, without the notes. *)
Definition parse_section {A} (f : string → json → res A) (x : json) : res (list A) :=
  items ← json_items (or_empty x);
  mapR (λ e, f e.1 e.2) (filter (λ e, starts_with "_" e.1 = false) items).

Definition parse_spec `{Scapy} (raw : json) (maps : option (list map_info))
    (blocks : option (list Block)) (calls : option call_index) : res Policy :=
  top ← match raw with JObj o => Ok o | _ => Err (spec_err "top level must be an object") end;
  guard_or (forallb (λ e, starts_with "_" e.1 || is_top e.1) top)
    (spec_err "unknown top-level key(s)");;
  guard_or (existsb (λ e, is_top e.1) top) (spec_err "spec has none of the sections");;
  input ← match pget top "input"%string with
          | Some x => i ← _parse_input x maps; Ok (Some i)
          | None => Ok None
          end;
  bcs ← parse_section (λ name node, _parse_block_condition name node maps blocks calls)
          (get_or top "block_conditions" JNull);
  ecs ← parse_section (λ name node, _parse_exit_condition name node maps calls)
          (get_or top "exit_conditions" JNull);
  Ok (mk_policy input bcs ecs).
