(* ===== verification/SpecSound.v ===== *)
(** Conditions mean what the specification language says ([verify/spec.py]): the
    formula of a condition is true in a model exactly when the condition holds of
    the model's packet, maps, globals, context and return value; an input fixes
    what it names and closes the maps it names; the parser's byte strings are in
    memory order and of the width asked for. *)

From S2P Require Import Prelude Words Constants Instr Smt SmtTerm Expr Denote Branch Record Link Encode.
From S2P Require Import Action Bits Alu EncodeSound CondSound Block ReachSound Slice SliceSound.
From S2P Require Import Pystr Spec.

Section meaning.
Context `{HL : SMTLaws} `{Scapy} (m : model) (st : Z3State).

(** ** The meaning of a condition *)

Definition cmp_holds (op : cmp_op) (x y : Z) : bool :=
  match op with
  | OEq => x =? y | ONe => negb (x =? y)
  | OLt => x <? y | OLe => x <=? y
  | OGt => y <? x | OGe => y <=? x
  end.
Definition eq_holds (op : cmp_op) (b : bool) : bool := match op with OEq => b | _ => negb b end.

Definition opt_val (r : res (option bv)) : Z :=
  match r with Ok (Some t) => ev m t | _ => 0 end.

(** A byte of the packet, of a global and of a map value. *)
Definition pkt_byte (off : Z) : Z :=
  match read_loc st with
  | Some f => opt_val (f (_Loc PKT off 1 None VNone None))
  | None => eva m (z_pkt st) (wrap (domain_size (z_pkt st)) off)
  end.
Definition bss_byte (sym : string) (off : Z) : Z :=
  match read_loc st with
  | Some f => opt_val (f (_Loc BSS off 1 None VNone (Some sym)))
  | None => eva m (_bss_of st (Some sym)) (wrap BSS_ADDR_BITS off)
  end.
Definition map_value (map_id key ks vs : Z) : Z :=
  match read_loc st with
  | Some f => le_int (map (λ i, opt_val (f (_Loc MAP i 1 (Some map_id) (atom_key key ks) None)))
                        (zrange 0 vs))
  | None => match map_cell st (Some map_id) with
            | Ok (_, a) => eva m a (wrap (ks * 8) key)
            | Err _ => 0
            end
  end.

(** Whether the map holds the key: the value of the presence test. *)
Definition map_holds (map_id : option Z) (key : val) (key_id : option Z) (r : bool) : bool :=
  match cond_to_z3 st (CContain map_id key key_id r) with Ok g => evg m g | Err _ => false end.

Definition len_value (x : json) : Z :=
  match len_const x with Ok t => ev m t | Err _ => 0 end.

Definition atom_holds (a : atom) : bool :=
  match a with
  | PktAtom off n data op =>
      eq_holds op (bool_decide (map (λ i, pkt_byte (off + i)) (zrange 0 n) =
                                map (wrap 8) (take (Z.to_nat n) data)))
  | MapAtom id key present value ks vs =>
      let p := map_holds (Some id) (atom_key key ks) None true in
      match value with
      | Some v => p && (map_value id key ks vs =? wrap (vs * 8) v)
      | None => if default false present then p else negb p
      end
  | BssAtom sym off n value op =>
      eq_holds op (le_int (map (λ i, bss_byte sym (off + i)) (zrange 0 n)) =? wrap (n * 8) value)
  | LenAtom min max =>
      match min with Some x => len_value x <=? ev m (z_pkt_len st) | None => true end
      && match max with Some x => ev m (z_pkt_len st) <=? len_value x | None => true end
  | ScalarAtom t value => ev m (ctx_term st t) =? wrap 64 value
  | HelperAtom _ _ _ (HScalar r op value) =>
      match expr_z3 st r with
      | Ok t => cmp_holds op (ev m t) (wrap (size t) value)
      | Err _ => false
      end
  | HelperAtom _ _ _ (HMapNull id key key_id r) => map_holds id key key_id r
  | RetAtom op value => cmp_holds op (ev m (z_r0 st)) (wrap 64 value)
  | ReadAtom parts op target _ _ _ _ =>
      eq_holds op (le_int (map (λ p, byte_at (rev_of m (expr_z3 st p.1)) p.2) parts)
                   =? wrap (8 * Z.of_nat (length parts)) target)
  end.

Fixpoint holds (c : CondNode) : bool :=
  match c with
  | CLeaf a => atom_holds a
  | CNot c => negb (holds c)
  | CAnd l => forallb holds l
  | COr l => existsb holds l
  end.

(** ** Well-formed states and atoms *)

Record spec_state : Prop := {
  ss_ok : state_ok st;
  ss_r0 : size (z_r0 st) = 64;
  ss_len : size (z_pkt_len st) = 64;
  ss_ctx : ∀ t, size (ctx_term st t) = 64;
  ss_loc : ∀ f l t, read_loc st = Some f → f l = Ok (Some t) → size t = 8
}.

(** The widths an atom was parsed with are those of the map and of the reads. *)
Definition atom_wf (a : atom) : Prop :=
  match a with
  | MapAtom id _ _ _ ks vs => 0 < ks ∧ 0 < vs ∧
      ∀ p a, map_cell st (Some id) = Ok (p, a) → domain_size a = ks * 8 ∧ range_size a = vs * 8
  | ReadAtom parts _ _ _ _ _ _ => Forall (λ p, 0 <= p.2 ∧
      ∀ t, expr_z3 st p.1 = Ok t → 8 * p.2 + 8 <= size t) parts
  | BssAtom _ _ n _ _ => 0 < n
  | _ => True
  end.

Fixpoint node_wf (c : CondNode) : Prop :=
  match c with
  | CLeaf a => atom_wf a
  | CNot c => node_wf c
  | CAnd l | COr l => (fix all l := match l with [] => True | x :: l' => node_wf x ∧ all l' end) l
  end.

Hypothesis Hst : spec_state.

Lemma cmp_const_ev op v rhs : size rhs = size v →
  evb m (cmp_const op v rhs) = cmp_holds op (ev m v) (ev m rhs).
Proof using HL.
  intros Hs. destruct op; simpl;
    rewrite ?evb_bveq, ?evb_bvne, ?evb_ULT, ?evb_ULE, ?evb_UGT, ?evb_UGE by done; done.
Qed.

Lemma eq_or_not_ev op t b : evb m t = b → evb m (eq_or_not op t) = eq_holds op b.
Proof using HL. intros <-. destruct op; simpl; rewrite ?evb_Not; done. Qed.

(** ** Bytes *)

Lemma mapR_bytes {A} (f : A → res bv) (g : A → Z) l ts :
  (∀ x t, f x = Ok t → size t = 8 ∧ ev m t = g x) → mapR f l = Ok ts →
  Forall (λ t, size t = 8) ts ∧ map (ev m) ts = map g l ∧ length ts = length l.
Proof using Type.
  intros Hf HE. revert ts HE. induction l as [|x l IH]; intros ts HE; simpl in HE.
  - injection HE as <-. done.
  - apply bind_Ok in HE as (t & Ht & HE). apply bind_Ok in HE as (ts' & Hts & [= <-]).
    destruct (IH _ Hts) as (H1 & H2 & H3), (Hf _ _ Ht) as [Hz He]. simpl.
    rewrite He, H2, H3. split; [by constructor|done].
Qed.

Lemma spec_byte_ev f r off id k sym t : read_loc st = Some f →
  spec_byte f r off id k sym = Ok t →
  size t = 8 ∧ ev m t = opt_val (f (_Loc r off 1 id k sym)).
Proof using Hst.
  intros Hf HE. unfold spec_byte in HE. apply bind_Ok in HE as (o & Ho & HE).
  apply of_option_Ok in HE as ->. rewrite Ho. split; [|done]. by eapply ss_loc.
Qed.

Lemma pkt_bytes_ev off n bs : pkt_atom_bytes st off n = Ok bs →
  Forall (λ t, size t = 8) bs ∧ map (ev m) bs = map (λ i, pkt_byte (off + i)) (zrange 0 n) ∧
  length bs = length (zrange 0 n).
Proof using Hst HL.
  apply mapR_bytes. intros i t HE. unfold pkt_byte. destruct (read_loc st) as [f|] eqn:Ef.
  - by apply spec_byte_ev.
  - injection HE as <-. pose proof (domain_pos (z_pkt st)).
    rewrite size_Select, ev_Select, ev_BitVecVal by (by rewrite ?size_BitVecVal).
    split; [apply pkt_bytes, Hst|done].
Qed.

Lemma bss_bytes_ev sym off n bs : bss_atom_bytes st sym off n = Ok bs →
  Forall (λ t, size t = 8) bs ∧ map (ev m) bs = map (λ i, bss_byte sym (off + i)) (zrange 0 n) ∧
  length bs = length (zrange 0 n).
Proof using Hst HL.
  apply mapR_bytes. intros i t HE. unfold bss_byte. destruct (read_loc st) as [f|] eqn:Ef.
  - by apply spec_byte_ev.
  - injection HE as <-. destruct (bss_of_sorts st (ss_ok Hst) (Some sym)) as [Hd Hr].
    rewrite size_Select, ev_Select, ev_BitVecVal by (by rewrite ?size_BitVecVal).
    by rewrite Hr.
Qed.

(** The bytes of a term against the bytes of an atom, one by one. *)
Lemma byte_eqs_ev data bs ts k :
  Forall (λ t, size t = 8) bs →
  mapR (λ '(i, b), d ← py_index data (Z.of_nat i); Ok (bveq b (BitVecVal d 8)))
    (imap (λ i b, ((k + i)%nat, b)) bs) = Ok ts →
  forallb (evb m) ts = bool_decide (map (ev m) bs = map (wrap 8) (take (length bs) (drop k data))).
Proof using HL.
  intros Hz. revert ts k. induction Hz as [|b bs Hb _ IH]; intros ts k HE; simpl in HE.
  { injection HE as <-. by rewrite bool_decide_true by done. }
  rewrite Nat.add_0_r in HE. apply bind_Ok in HE as (e & He & HE).
  apply bind_Ok in He as (d & Hd & [= <-]). apply bind_Ok in HE as (ts' & Hts & [= <-]).
  apply py_index_Ok in Hd; [|lia]. rewrite Nat2Z.id in Hd.
  rewrite (drop_S _ d k) by done. cbn [length take map forallb].
  rewrite evb_bveq, ev_BitVecVal by (rewrite ?size_BitVecVal; lia).
  assert (imap ((λ i (b : bv), ((k + i)%nat, b)) ∘ S) bs = imap (λ i (b : bv), ((S k + i)%nat, b)) bs)
    as Hi by (apply imap_ext; intros; simpl; f_equal; lia).
  rewrite Hi in Hts. rewrite (IH _ _ Hts).
  destruct (Z.eqb_spec (ev m b) (wrap 8 d)) as [-> | Hne]; simpl.
  - apply bool_decide_ext. split; [by intros ->|by intros [= ->]].
  - symmetry. apply bool_decide_false. by intros [= ? _].
Qed.

Lemma pkt_atom_sound off n data op t : pkt_atom_z3 st off n data op = Ok t →
  evb m t = atom_holds (PktAtom off n data op).
Proof using Hst HL.
  intros HE. unfold pkt_atom_z3 in HE. apply bind_Ok in HE as (bs & Hbs & HE).
  apply bind_Ok in HE as (eqs & Heqs & [= <-]). apply pkt_bytes_ev in Hbs as (Hz & Hev & Hl).
  apply eq_or_not_ev. rewrite evb_And, <- Hev, (byte_eqs_ev data bs eqs 0) by done.
  rewrite drop_0, Hl. unfold atom_holds, zrange. by rewrite length_seqZ, Z.sub_0_r.
Qed.

Lemma bytes_concat bs t n : Forall (λ t, size t = 8) bs → concat_or (rev bs) = Ok t →
  length bs = length (zrange 0 n) → ev m t = le_int (map (ev m) bs) ∧ size t = n * 8.
Proof using HL.
  intros Hz HC Hl. assert (bs ≠ []) as Hn by by destruct bs.
  eapply (concat_or_digits m 8) in HC as [-> ->]; [|lia|done]. rewrite digits_8. split; [done|].
  apply (f_equal Z.of_nat) in Hl. rewrite zrange_length in Hl. destruct bs; simpl in *; [done|lia].
Qed.

Lemma bss_atom_sound sym off n value op t : 0 < n → bss_atom_z3 st sym off n value op = Ok t →
  evb m t = atom_holds (BssAtom sym off n value op).
Proof using Hst HL.
  intros Hn HE. unfold bss_atom_z3 in HE. apply bind_Ok in HE as (bs & Hbs & HE).
  apply bind_Ok in HE as (whole & Hw & [= <-]). apply bss_bytes_ev in Hbs as (Hz & Hev & Hl).
  destruct (bytes_concat _ _ _ Hz Hw Hl) as [He Hs].
  apply eq_or_not_ev. rewrite evb_bveq, He, Hev, ev_BitVecVal by (rewrite ?size_BitVecVal; lia).
  done.
Qed.

Lemma map_value_sound map_id key ks vs got : 0 < ks → 0 < vs →
  (∀ p a, map_cell st (Some map_id) = Ok (p, a) → domain_size a = ks * 8 ∧ range_size a = vs * 8) →
  map_atom_value st map_id key ks vs = Ok got →
  size got = vs * 8 ∧ ev m got = map_value map_id key ks vs.
Proof using Hst HL.
  intros Hk Hv Hm HE. unfold map_atom_value in HE. unfold map_value.
  destruct (read_loc st) as [f|] eqn:Ef.
  - apply bind_Ok in HE as (parts & Hp & HE).
    eapply (mapR_bytes _ (λ i, opt_val (f (_Loc MAP i 1 (Some map_id) (atom_key key ks) None))))
      in Hp as (Hz & Hev & Hl); [|intros i t; by apply spec_byte_ev].
    destruct (bytes_concat _ _ _ Hz HE Hl) as [-> ->]. by rewrite Hev.
  - apply bind_Ok in HE as ([p a] & Hc & [= <-]). rewrite Hc.
    destruct (Hm _ _ Hc) as [Hd Hr].
    rewrite size_Select, ev_Select, ev_BitVecVal by (rewrite ?size_BitVecVal, ?Hd; lia). done.
Qed.

Lemma map_atom_sound map_id key present value ks vs t :
  atom_wf (MapAtom map_id key present value ks vs) →
  map_atom_z3 st map_id key present value ks vs = Ok t →
  evb m t = atom_holds (MapAtom map_id key present value ks vs).
Proof using Hst HL.
  intros (Hk & Hv & Hm) HE. unfold map_atom_z3 in HE. apply bind_Ok in HE as (p & Hp & HE).
  simpl. unfold map_holds. rewrite Hp. destruct value as [v|].
  - apply bind_Ok in HE as (got & Hg & [= <-]).
    apply map_value_sound in Hg as [Hs He]; [|done..].
    rewrite evb_And. simpl. rewrite andb_true_r, evb_to_bl.
    by rewrite evb_bveq, He, ev_BitVecVal by (rewrite ?size_BitVecVal; lia).
  - injection HE as <-. destruct (default false present); rewrite evb_to_bl; [done|apply evg_not].
Qed.

Lemma len_const_size x t : len_const x = Ok t → size t = 64.
Proof using HL. destruct x; simpl; intros HE; res_inv; by apply size_BitVecVal. Qed.

Lemma len_atom_sound min max t : len_atom_z3 st min max = Ok t →
  evb m t = atom_holds (LenAtom min max).
Proof using Hst HL.
  intros HE. unfold len_atom_z3 in HE.
  apply bind_Ok in HE as (lo & Hlo & HE). apply bind_Ok in HE as (hi & Hhi & HE). simpl.
  assert (forallb (evb m) lo = match min with Some x => len_value x <=? ev m (z_pkt_len st)
                                            | None => true end) as <-.
  { destruct min as [x|]; res_inv; [|done]. simpl. unfold len_value. rewrite E.
    rewrite evb_UGE, andb_true_r by (by rewrite (ss_len Hst), (len_const_size _ _ E)). done. }
  assert (forallb (evb m) hi = match max with Some x => ev m (z_pkt_len st) <=? len_value x
                                            | None => true end) as <-.
  { destruct max as [x|]; res_inv; [|done]. simpl. unfold len_value. rewrite E.
    rewrite evb_ULE, andb_true_r by (by rewrite (ss_len Hst), (len_const_size _ _ E)). done. }
  rewrite <- forallb_app. destruct (lo ++ hi) as [|x [|y l]]; res_inv; simpl.
  - by rewrite andb_true_r.
  - by rewrite evb_And.
Qed.

Lemma helper_atom_sound i idx sz k t : helper_atom_z3 st k = Ok t →
  evb m t = atom_holds (HelperAtom i idx sz k).
Proof using HL.
  intros HE. destruct k as [r op v | id key kid r]; cbn [helper_atom_z3 atom_holds] in *.
  - apply bind_Ok in HE as (tv & Ht & [= <-]). rewrite Ht. pose proof (size_pos tv).
    by rewrite cmp_const_ev, ev_BitVecVal by (rewrite ?size_BitVecVal; lia).
  - unfold map_holds. apply fmap_Ok in HE as (g & Hg & ->). rewrite Hg. apply evb_to_bl.
Qed.

Lemma read_parts_sound parts bs :
  Forall (λ p, 0 <= p.2 ∧ ∀ t, expr_z3 st p.1 = Ok t → 8 * p.2 + 8 <= size t) parts →
  mapR (λ '(leaf, k), t ← expr_z3 st leaf; Ok (Extract (k * 8 + 7) (k * 8) t)) parts = Ok bs →
  Forall (λ t, size t = 8) bs ∧ length bs = length parts ∧
  map (ev m) bs = map (λ p, byte_at (rev_of m (expr_z3 st p.1)) p.2) parts.
Proof using HL.
  intros HF. revert bs. induction HF as [|[leaf k] parts [Hk Hs] _ IH]; intros bs HE; simpl in HE.
  { by injection HE as <-. }
  apply bind_Ok in HE as (b & Hb & HE). apply bind_Ok in Hb as (t & Ht & [= <-]).
  apply bind_Ok in HE as (bs' & Hbs & [= <-]). destruct (IH _ Hbs) as (H1 & H2 & H3).
  simpl in *. rewrite Ht, H2, H3. specialize (Hs _ Ht).
  assert (size (Extract (k * 8 + 7) (k * 8) t) = 8) as H8 by (rewrite size_Extract; lia).
  split; [by constructor|]. split; [done|]. f_equal. simpl.
  rewrite ev_Extract by lia. unfold byte_at. f_equal; [lia|]. do 2 f_equal. lia.
Qed.

Lemma read_atom_sound parts op target a b c d t :
  atom_wf (ReadAtom parts op target a b c d) → read_atom_z3 st parts op target = Ok t →
  evb m t = atom_holds (ReadAtom parts op target a b c d).
Proof using HL.
  intros Hwf HE. unfold read_atom_z3 in HE. apply bind_Ok in HE as (bs & Hbs & HE).
  apply bind_Ok in HE as (v & Hv & [= <-]). apply read_parts_sound in Hbs as (Hz & Hl & Hev); [|done].
  eapply (concat_or_digits m 8) in Hv as [He Hs]; [|lia|done]. rewrite digits_8, Hev in He.
  pose proof (size_pos v). simpl. rewrite <- Hl, <- He, <- Hs.
  destruct op; simpl; rewrite ?evb_bveq, ?evb_bvne, ev_BitVecVal by (rewrite ?size_BitVecVal; lia);
    done.
Qed.

Lemma atom_sound a t : atom_wf a → atom_to_z3 st a = Ok t → evb m t = atom_holds a.
Proof using Hst HL.
  destruct a; simpl atom_to_z3; intros Hwf HE.
  - by apply pkt_atom_sound.
  - by apply map_atom_sound.
  - by apply bss_atom_sound.
  - by apply len_atom_sound.
  - injection HE as <-. rewrite evb_bveq, ev_BitVecVal; [done|done|].
    by rewrite size_BitVecVal, (ss_ctx Hst).
  - by apply helper_atom_sound.
  - injection HE as <-. rewrite cmp_const_ev, ev_BitVecVal; [done|done|].
    by rewrite size_BitVecVal, (ss_r0 Hst).
  - by apply read_atom_sound.
Qed.

(** The formula of a condition. *)
Lemma node_sound c t : node_wf c → node_to_z3 st c = Ok t → evb m t = holds c.
Proof using Hst HL.
  revert c t. fix IH 1. intros c t Hwf HE. destruct c as [a|c|l|l].
  - by apply atom_sound.
  - cbn [node_to_z3] in HE. apply bind_Ok in HE as (t' & Ht & [= <-]).
    rewrite evb_Not. simpl. f_equal. by apply IH.
  - cbn [node_to_z3] in HE. apply bind_Ok in HE as (ts & Hts & [= <-]).
    rewrite evb_And. simpl. revert ts Hts. induction l as [|x l IHl]; intros ts Hts.
    + by injection Hts as <-.
    + apply bind_Ok in Hts as (tx & Hx & Hts). apply bind_Ok in Hts as (ts' & Hts & [= <-]).
      destruct Hwf as [Hwx Hwl]. simpl. rewrite (IH _ _ Hwx Hx), (IHl Hwl _ Hts). done.
  - cbn [node_to_z3] in HE. apply bind_Ok in HE as (ts & Hts & [= <-]).
    rewrite evb_Or. simpl. revert ts Hts. induction l as [|x l IHl]; intros ts Hts.
    + by injection Hts as <-.
    + apply bind_Ok in Hts as (tx & Hx & Hts). apply bind_Ok in Hts as (ts' & Hts & [= <-]).
      destruct Hwf as [Hwx Hwl]. simpl. rewrite (IH _ _ Hwx Hx), (IHl Hwl _ Hts). done.
Qed.

(** C8 The formula of a condition is true in a model exactly when the condition
    holds of the model's packet bytes, map entries, globals, length, context,
    helper results and return value, through any nesting of [and], [or] and
    [not]. *)
Theorem spec_condition_sound c t : node_wf c → node_to_z3 st c = Ok t → evb m t = holds c.
Proof using Hst HL. apply node_sound. Qed.
End meaning.

(** ** Examples *)

(** A packet library that evaluates nothing and reads no numerals. *)
Definition ex_scapy : Scapy :=
  {| scapy_eval := λ _, Err (SpecError "no packet library"); numeral := λ _, Err TypeError |}.

(** The frame is IPv4, map 0 has key 3, and the length is at least 34 or the
    program does not pass the packet. *)
Definition ex_cond : CondNode :=
  CAnd [CLeaf (PktAtom 12 2 [8; 0] OEq);
        CLeaf (MapAtom 0 3 (Some true) None 4 8);
        COr [CLeaf (LenAtom (Some (JInt 34)) None); CNot (CLeaf (RetAtom OEq 2))]].

Definition ex_spec_model : tmodel :=
  {| m_bv := λ n, if bool_decide (n = "pkt_len"%string) then 60 else 2; m_bool := λ _, true;
     m_arr := λ _ i, if i =? 12 then 8 else 0; m_parr := λ _ i, i =? 3 |}.

Lemma ex_spec_state : @spec_state z3 ex_st.
Proof.
  split.
  - apply (@init_state_ok z3 z3_laws ex_maps).
  - reflexivity.
  - reflexivity.
  - by intros [].
  - discriminate.
Qed.

Definition ex_formula : tbl :=
  Eval vm_compute in
    match @node_to_z3 z3 ex_scapy ex_st ex_cond with Ok t => t | Err _ => BVal false end.

Lemma spec_condition_sound_witness :
  @node_to_z3 z3 ex_scapy ex_st ex_cond = Ok ex_formula ∧
  @holds z3 ex_scapy ex_spec_model ex_st ex_cond = true.
Proof.
  assert (@node_to_z3 z3 ex_scapy ex_st ex_cond = Ok ex_formula) as HE by (vm_compute; reflexivity).
  split; [exact HE|].
  rewrite <- (@spec_condition_sound z3 z3_laws ex_scapy ex_spec_model ex_st ex_spec_state ex_cond
    ex_formula).
  - vm_compute. reflexivity.
  - simpl. split_and!; try done. intros p a Hc. vm_compute in Hc. by injection Hc as <- <-.
  - exact HE.
Defined.
