(* ===== verification/SpecInput.v ===== *)
(** What the specification parser builds ([verify/spec.py]): byte strings of the
    width asked for and in memory order, their round trip through hexadecimal
    text, and initial states that fix exactly what the input names. *)

From Stdlib Require Import Ascii.
From S2P Require Import Prelude Words Constants Smt SmtTerm Expr Record Link Encode Action.
From S2P Require Import EncodeSound Block Slice Pystr Spec SpecSound.

Local Open Scope Z_scope.

(** ** Byte strings *)

Lemma to_bytes_big_length v n l : to_bytes_big v n = Ok l →
  0 <= n ∧ Z.of_nat (length l) = n ∧ Forall is_byte l ∧ le_int (rev l) = v.
Proof.
  unfold to_bytes_big. destruct (Z.ltb_spec n 0); [done|].
  destruct (_ || _) eqn:E; [done|]. intros [= <-].
  apply orb_false_iff in E as [H0 Hr]. apply Z.ltb_ge in H0. apply Z.leb_gt in Hr.
  split; [done|]. rewrite length_rev, length_le_bytes, rev_involutive, le_int_bytes, Z2Nat.id by done.
  split; [done|]. split; [apply Forall_rev, le_bytes_byte|]. apply Z.mod_small. lia.
Qed.

Lemma mapR_length {A B} (f : A → res B) l l' : mapR f l = Ok l' → length l' = length l.
Proof.
  revert l'. induction l as [|x l IH]; intros l' HE; simpl in HE; res_inv; simpl; [done|].
  by rewrite (IH _ E0).
Qed.

Lemma sized_Ok parts n e l : sized parts n e = Ok l → l = parts ∧ Z.of_nat (length parts) = n.
Proof. unfold sized. destruct (Z.eqb_spec (Z.of_nat (length parts)) n); [|done]. by intros [= <-]. Qed.

Lemma parse_val_length v n l : _parse_val_bytes v n = Ok l → Z.of_nat (length l) = n.
Proof.
  intros HE. destruct v as [|b|z|q|s|js|o]; simpl in HE; try done.
  - by apply to_bytes_big_length in HE as (_ & ? & _).
  - unfold parse_val_str in HE. cbv zeta in HE.
    destruct (has_0x _); [|destruct (existsb _ _); [|destruct (existsb _ _)]];
      apply bind_Ok in HE as (x & _ & HE);
      (by apply to_bytes_big_length in HE as (_ & ? & _)) || (by apply sized_Ok in HE as [-> ?]).
  - destruct (Z.eqb_spec (Z.of_nat (length js)) n); [|done]. simpl in HE.
    by apply mapR_length in HE as ->.
Qed.

Lemma multibyte_range v n x : _parse_multibyte_int v n = Ok x → 0 <= x < 2 ^ (8 * n).
Proof.
  intros HE. unfold _parse_multibyte_int in HE. apply bind_Ok in HE as (l & Hl & HE).
  apply bind_Ok in HE as (b & Hb & [= <-]). apply parse_val_length in Hl as <-.
  unfold py_bytes in Hb. destruct (forallb _ l) eqn:Ef; [|done]. injection Hb as <-.
  apply le_int_range. apply Forall_forall. intros y Hy. rewrite forallb_forall in Ef.
  apply list_elem_of_In in Hy. specialize (Ef y Hy). unfold is_byte. lia.
Qed.

(** A parsed multi-byte value fits the width it was parsed for, whatever form
    it was written in: integer, hexadecimal, dotted, colon-separated or a list. *)
Theorem multibyte_bounds v n x : _parse_multibyte_int v n = Ok x → 0 <= x < 2 ^ (8 * n).
Proof. apply multibyte_range. Qed.

Lemma multibyte_bounds_witness :
  _parse_multibyte_int (JStr "10.0.0.254") 4 = Ok 0xfe00000a ∧ 0 <= 0xfe00000a < 2 ^ (8 * 4).
Proof.
  split; [vm_compute; reflexivity|]. apply (multibyte_bounds (JStr "10.0.0.254") 4).
  vm_compute. reflexivity.
Defined.

(** *** Hexadecimal text *)

Definition hex_digit (n : Z) : ascii :=
  ascii_of_nat (Z.to_nat (if n <? 10 then n + 48 else n + 87)).
Definition hex_byte (b : Z) : list ascii := [hex_digit (b / 16); hex_digit (b mod 16)].
Definition hex_text (bs : list Z) : list ascii := "0"%char :: "x"%char :: mjoin (map hex_byte bs).

Lemma hex_digit_cases n : 0 <= n < 16 →
  digit_value (hex_digit n) = n ∧ is_space (hex_digit n) = false ∧ Ascii.eqb (hex_digit n) "_" = false.
Proof.
  intros Hn. assert (n ∈ zrange 0 16) as Hin by (unfold zrange; apply elem_of_seqZ; lia).
  revert n Hn Hin. cbn. intros n _ Hin.
  repeat (apply elem_of_cons in Hin as [-> | Hin]; [by vm_compute|]). by apply elem_of_nil in Hin.
Qed.

Lemma byte_nibbles x : is_byte x → 0 <= x / 16 < 16 ∧ 0 <= x mod 16 < 16.
Proof.
  unfold is_byte. change (2 ^ 8) with 256. intros Hx. split; [|apply Z.mod_pos_bound; lia].
  split; [apply Z.div_pos; lia|]. apply Z.div_lt_upper_bound; lia.
Qed.

Lemma le_bytes_int bs : Forall is_byte bs → le_bytes (length bs) (le_int bs) = bs.
Proof.
  induction 1 as [|b bs Hb _ IH]; [done|]. cbn [length le_bytes le_int]. unfold is_byte in Hb.
  rewrite (Z.mul_comm (2 ^ 8)), Z.mod_add, Z.mod_small by lia.
  rewrite Z.div_add, Z.div_small, Z.add_0_l by lia. by rewrite IH.
Qed.

(** The number written, most significant byte first. *)
Definition be_int (bs : list Z) : Z := fold_left (λ a b, a * 256 + b) bs 0.

Lemma parse_hex bs acc b : Forall is_byte bs → (bs ≠ [] ∨ b = true) →
  parse_digits 16 acc b (mjoin (map hex_byte bs)) = Ok (fold_left (λ a b, a * 256 + b) bs acc).
Proof.
  intros HF. revert acc b. induction HF as [|x bs Hx _ IH]; intros acc b Hb.
  { destruct Hb as [? | ->]; done. }
  cbn [map mjoin list_join concat]. unfold hex_byte at 1. cbn [app].
  destruct (byte_nibbles x Hx) as [Hhi Hlo].
  destruct (hex_digit_cases _ Hhi) as (D1 & _ & U1), (hex_digit_cases _ Hlo) as (D2 & _ & U2).
  cbn [parse_digits]. rewrite U1, U2, D1, D2.
  replace (x / 16 <? 16) with true by lia. replace (x mod 16 <? 16) with true by lia.
  rewrite IH by by right.
  cbn [fold_left]. f_equal. f_equal. pose proof (Z.div_mod x 16). lia.
Qed.

Lemma hex_no_space bs : Forall is_byte bs → Forall (λ c, is_space c = false) (hex_text bs).
Proof.
  intros HF. repeat constructor. induction HF as [|x bs Hx _ IH]; [constructor|].
  cbn. destruct (byte_nibbles x Hx).
  constructor; [|constructor; [|apply IH]]; by apply hex_digit_cases.
Qed.

Lemma be_int_le bs acc : fold_left (λ a b, a * 256 + b) bs acc =
  acc * 256 ^ Z.of_nat (length bs) + le_int (rev bs).
Proof.
  revert acc. induction bs as [|x bs IH]; intros acc; [simpl; lia|].
  cbn [fold_left rev length]. rewrite IH.
  assert (∀ l y, le_int (l ++ [y]) = le_int l + 256 ^ Z.of_nat (length l) * y) as ->.
  { clear. induction l as [|z l IH]; intros y; [simpl; lia|]. cbn [app le_int length].
    rewrite IH, Nat2Z.inj_succ, Z.pow_succ_r by lia. change (2 ^ 8) with 256. lia. }
  rewrite length_rev, Nat2Z.inj_succ, Z.pow_succ_r by lia. lia.
Qed.

Lemma chars_of_chars l : chars (of_chars l) = l.
Proof. induction l as [|c l IH]; [done|]. simpl. by rewrite IH. Qed.

(** Byte values survive hexadecimal text: writing bytes, lowest address first,
    as ["0x..."] and parsing the text at their width gives the bytes back. *)
Theorem hex_roundtrip bs : Forall is_byte bs → bs ≠ [] →
  _parse_val_bytes (JStr (of_chars (hex_text bs))) (Z.of_nat (length bs)) = Ok bs.
Proof.
  intros HF Hn. cbn [_parse_val_bytes]. unfold parse_val_str.
  rewrite chars_of_chars, strip_none by by apply hex_no_space. cbv zeta.
  change (has_0x (hex_text bs)) with true. cbv iota.
  assert (py_int_l 16 (hex_text bs) = Ok (be_int bs)) as HI.
  { unfold py_int_l. rewrite strip_none by by apply hex_no_space.
    unfold hex_text at 1. destruct bs as [|x bs]; [done|].
    pose proof (parse_hex (x :: bs) 0 false HF (or_introl Hn)) as HP. revert HP.
    unfold parse_unsigned, hex_text. cbn [has_0x]. change ((16 =? 16) && _) with true. cbv iota.
    remember (mjoin (map hex_byte (x :: bs))) as l eqn:El. intros HP.
    destruct l as [|c l]; [done|].
    assert (Ascii.eqb c "_" = false) as ->; [|exact HP].
    cbn in El. injection El as -> _. inversion HF; subst. by apply hex_digit_cases, byte_nibbles. }
  rewrite HI. cbn [mbind res_bind].
  unfold be_int. rewrite be_int_le, Z.mul_0_l, Z.add_0_l. unfold to_bytes_big.
  pose proof (le_int_range (rev bs) ltac:(by apply Forall_rev)) as Hr. rewrite length_rev in Hr.
  rewrite (proj2 (Z.ltb_ge _ 0)) by lia. rewrite (proj2 (Z.ltb_ge _ 0)) by lia.
  rewrite (proj2 (Z.leb_gt _ _)) by lia. simpl. rewrite Nat2Z.id.
  f_equal. rewrite <- (rev_involutive bs) at 3. f_equal.
  rewrite <- (length_rev bs). apply le_bytes_int. by apply Forall_rev.
Qed.

(** ** Initial states *)

Section dict.
Context {V : Type}.
Implicit Types (d : list (Z * V)).

Lemma pset_Forall (P : Z * V → Prop) d k v : Forall P d → P (k, v) → Forall P (pset d k v).
Proof.
  intros Hd Hkv. induction Hd as [|[k' v'] d Hx Hd IH]; simpl; [by constructor|].
  case_decide; subst; by constructor.
Qed.

Lemma pget_snoc d k v j : k ∉ map fst d →
  pget (d ++ [(k, v)]) j = if decide (j = k) then Some v else pget d j.
Proof.
  induction d as [|[k' v'] d IH]; simpl; intros Hn.
  - repeat case_decide; congruence.
  - rewrite not_elem_of_cons in Hn. rewrite IH by tauto. repeat case_decide; naive_solver.
Qed.

End dict.

(** The entries of a map: distinct keys, keys and values of their widths. *)
Lemma parse_entries_ok mi x entries : parse_entries mi x = Ok entries →
  NoDup (map fst entries) ∧
  Forall (λ kv, 0 <= kv.1 < 2 ^ (8 * mi_key_size mi) ∧ 0 <= kv.2 < 2 ^ (8 * mi_value_size mi)) entries.
Proof.
  intros HE. unfold parse_entries in HE. apply bind_Ok in HE as (kvs & _ & HE). revert HE.
  apply (foldR_ind _ (λ _ d, NoDup (map fst d) ∧ Forall (λ kv : Z * Z,
    0 <= kv.1 < 2 ^ (8 * mi_key_size mi) ∧ 0 <= kv.2 < 2 ^ (8 * mi_value_size mi)) d)).
  - split; constructor.
  - intros pre [ks v] d d' _ [Hn Hf] HE. apply bind_Ok in HE as (k & Hk & HE).
    apply bind_Ok in HE as (n & Hv & [= <-]).
    apply multibyte_range in Hk, Hv. split; [by apply pset_NoDup|].
    by apply pset_Forall.
Qed.

Section initial.
Context `{HL : SMTLaws} (m : model).

(** A map the input names is closed: it holds, in every model, exactly the
    entries given, with their values; a map not named is left to the model. *)
Theorem input_map_closed inp mi x entries k :
  parse_entries mi x = Ok entries → pget (in_map_values inp) (mi_id mi) = Some entries →
  0 < mi_key_size mi → 0 < mi_value_size mi →
  evp m (input_map inp mi).1 k = bool_decide (is_Some (pget entries k)) ∧
  ∀ v, pget entries k = Some v → eva m (input_map inp mi).2 k = v.
Proof.
  intros Hp Hg Hks Hvs. apply parse_entries_ok in Hp as [Hnd Hf].
  unfold input_map. rewrite Hg. rewrite !Z.max_l by lia.
  assert (0 < mi_key_size mi * 8 ∧ 0 < mi_value_size mi * 8) as [Hkw Hvw] by lia.
  set (a0 := Array _ _ _).
  assert (domain_size a0 = mi_key_size mi * 8 ∧ range_size a0 = mi_value_size mi * 8) as [Hd0 Hr0]
    by (unfold a0; rewrite domain_Array, range_Array by lia; done).
  assert (∀ l, NoDup (map fst l) → Forall (λ kv, 0 <= kv.1 < 2 ^ (8 * mi_key_size mi) ∧
      0 <= kv.2 < 2 ^ (8 * mi_value_size mi)) l → let out := fold_left (λ pv kv,
        let kk := BitVecVal kv.1 (mi_key_size mi * 8) in
        (PStore pv.1 kk (BoolVal true), Store pv.2 kk (BitVecVal kv.2 (mi_value_size mi * 8))))
        l (PK (mi_key_size mi * 8) (BoolVal false), a0) in
      domain_size out.2 = mi_key_size mi * 8 ∧ range_size out.2 = mi_value_size mi * 8 ∧
      evp m out.1 k = bool_decide (is_Some (pget l k)) ∧
      ∀ v, pget l k = Some v → eva m out.2 k = v) as H.
  2: { destruct (H entries Hnd Hf) as (_ & _ & ? & ?). done. }
  clear Hnd Hf Hg. induction l as [|[k' v'] l IH] using rev_ind; intros Hnd Hf; cbv zeta.
  { split_and!; [done|done| |done]. cbn [fold_left fst]. by rewrite evp_PK, evb_BoolVal. }
  rewrite map_app in Hnd. apply NoDup_app in Hnd as (Hnd & Hni & _).
  apply Forall_app in Hf as [Hf Hx]. inversion Hx as [|? ? [Hk' Hv'] _]; subst. simpl in Hk', Hv'.
  destruct (IH Hnd Hf) as (Hd & Hr & He & Hvv). rewrite fold_left_app. cbn [fold_left fst snd].
  assert (k' ∉ map fst l) as Hn by (intros Hin; apply (Hni _ Hin); simpl; left).
  rewrite domain_Store, range_Store, evp_PStore, (pget_snoc _ _ _ _ Hn).
  rewrite (Z.mul_comm 8) in Hk', Hv'. pose proof (wrap_small _ _ Hk') as Wk.
  pose proof (wrap_small _ _ Hv') as Wv.
  assert (ev m (BitVecVal k' (mi_key_size mi * 8)) = k') as Ek by by rewrite ev_BitVecVal.
  assert (ev m (BitVecVal v' (mi_value_size mi * 8)) = v') as Ev by by rewrite ev_BitVecVal.
  rewrite eva_Store, Ek, Ev by by rewrite size_BitVecVal.
  split; [done|]. split; [done|]. destruct (Z.eqb_spec k k') as [-> | Hne].
  - rewrite decide_True by done. rewrite evb_BoolVal, bool_decide_true by eauto. naive_solver.
  - by rewrite decide_False by done.
Qed.

(** The packet bytes an input fixes are the packet's first bytes in every model,
    every other byte is left to the model. *)
Theorem input_packet_fixed inp off :
  NoDup (map fst (in_pkt_bytes inp)) →
  Forall (λ ob, 0 <= ob.1 < 2 ^ PKT_ADDR_BITS ∧ is_byte ob.2) (in_pkt_bytes inp) →
  eva m (input_pkt inp) off =
    match pget (in_pkt_bytes inp) off with
    | Some b => b
    | None => eva m (Array "pkt0" PKT_ADDR_BITS 8) off
    end.
Proof.
  unfold input_pkt. set (a0 := Array _ _ _).
  assert (domain_size a0 = PKT_ADDR_BITS ∧ range_size a0 = 8) as [Hd0 Hr0]
    by (unfold a0; rewrite domain_Array, range_Array by done; done).
  generalize (in_pkt_bytes inp). intros l Hnd Hf.
  cut (let out := fold_left (λ pkt0 ob, Store pkt0 (BitVecVal ob.1 PKT_ADDR_BITS)
            (BitVecVal ob.2 8)) l a0 in
          domain_size out = PKT_ADDR_BITS ∧ range_size out = 8 ∧
          eva m out off = match pget l off with Some b => b | None => eva m a0 off end); [by intros (_ & _ & ?)|].
  induction l as [|[o b] l IH] using rev_ind; cbv zeta; [done|].
  rewrite map_app in Hnd. apply NoDup_app in Hnd as (Hnd & Hni & _).
  apply Forall_app in Hf as [Hf Hx]. inversion Hx as [|? ? [Ho Hb] _]; subst. simpl in Ho, Hb.
  destruct (IH Hnd Hf) as (Hd & Hr & He). rewrite fold_left_app. cbn [fold_left fst snd].
  assert (o ∉ map fst l) as Hn by (intros Hin; apply (Hni _ Hin); simpl; left).
  rewrite domain_Store, range_Store, (pget_snoc _ _ _ _ Hn).
  rewrite eva_Store, !ev_BitVecVal, (wrap_small _ o), (wrap_small _ b), He by
    (rewrite ?size_BitVecVal; done).
  split; [done|]. split; [done|].
  destruct (Z.eqb_spec off o) as [-> | ]; [by rewrite decide_True|by rewrite decide_False].
Qed.
End initial.

(** ** Conditions *)

(** An empty disjunction is parsed as an empty conjunction: [{"or": []}], which
    no alternative can satisfy, holds in every model. *)
Theorem empty_or_holds `{HL : SMTLaws} `{Scapy} maps calls block blocks (m : model) st :
  ∃ c, _parse_cond maps calls block blocks (JObj [("or"%string, JList [])]) = Ok c ∧
    ∃ t, node_to_z3 st c = Ok t ∧ evb m t = true.
Proof.
  exists (CAnd []). split; [reflexivity|]. exists (And []). split; [reflexivity|].
  by rewrite evb_And.
Qed.

(** ** Examples *)

Lemma empty_or_holds_witness :
  ∃ c, _parse_cond None None None None (JObj [("or"%string, JList [])]) = Ok c ∧
    ∃ t, @node_to_z3 z3 ex_scapy ex_st c = Ok t ∧ evb ex_spec_model t = true.
Proof.
  apply (@empty_or_holds z3 z3_laws ex_scapy None None None None ex_spec_model ex_st).
Defined.

Lemma hex_roundtrip_witness : _parse_val_bytes (JStr "0x0a0000fe") 4 = Ok [10; 0; 0; 254].
Proof.
  apply (hex_roundtrip [10; 0; 0; 254]); [|done]. unfold is_byte. repeat constructor; lia.
Defined.

(** Map 0 holds two entries, the packet starts with the bytes of an address. *)
Definition ex_entries : json := JObj [("0x03000000", JStr "0x0700000000000000"); ("5", JInt 0)]%string.
Definition ex_input : InputSpec :=
  mk_input [(0, 0xaa); (1, 0xbb)] None [(0, [(3, 7); (0x05000000, 0)])] None None None.
Definition ex_map0 : map_info := mk_map_info 0 (Some "m"%string) 1 4 8 16 0.

Lemma input_map_closed_witness :
  @evp z3 ex_spec_model (input_map ex_input ex_map0).1 3 = true ∧
  @evp z3 ex_spec_model (input_map ex_input ex_map0).1 4 = false ∧
  @eva z3 ex_spec_model (input_map ex_input ex_map0).2 3 = 7.
Proof.
  assert (parse_entries ex_map0 ex_entries = Ok [(3, 7); (0x05000000, 0)]) as Hp
    by (vm_compute; reflexivity).
  pose proof (λ k, @input_map_closed z3 z3_laws ex_spec_model ex_input ex_map0 ex_entries _ k
    Hp eq_refl eq_refl eq_refl) as H.
  split; [rewrite (proj1 (H 3)); vm_compute; reflexivity|].
  split; [rewrite (proj1 (H 4)); vm_compute; reflexivity|].
  apply (proj2 (H 3)). vm_compute. reflexivity.
Defined.

Lemma input_packet_fixed_witness :
  @eva z3 ex_spec_model (input_pkt ex_input) 1 = 0xbb ∧
  @eva z3 ex_spec_model (input_pkt ex_input) 12 = 8.
Proof.
  assert (NoDup (map fst (in_pkt_bytes ex_input))) as Hn
    by (apply (bool_decide_unpack _); vm_compute; exact I).
  assert (Forall (λ ob, 0 <= ob.1 < 2 ^ PKT_ADDR_BITS ∧ is_byte ob.2) (in_pkt_bytes ex_input)) as Hf
    by (unfold is_byte; repeat constructor; simpl; lia).
  pose proof (λ off, @input_packet_fixed z3 z3_laws ex_spec_model ex_input off Hn Hf) as H.
  split; rewrite H; vm_compute; reflexivity.
Defined.
