(* ===== verification/Forward.v ===== *)
(** The forward analysis ([verify/forward.py]): the regions the conditions depend
    on, the symbolic state at the end of every block with the states of the
    predecessors merged, and the readers that resolve an expression in it.

    The readers close over the context: here each state handed to the encoder is
    built from the context of that moment ([hooked]). Reading a value reads the
    values it was computed from; [e_depth] is the interpreter's recursion limit.
    Terms have no identity in the model: [SameTerm] says when two are one object.
    The dictionary [defs] is keyed by the solver's node numbers: it is built in
    [Checker], with [definitions] and [_closure], from the list of definitions kept
    here. The caches of the readers are left out. *)

From stdpp Require Import sorting.
From S2P Require Import Prelude Constants Smt Expr Record Link Encode Action Block Prune Slice Spec.

(** ** Regions *)

Inductive region :=
| RPkt
| RMap (map_id : option Z)
| RBss (key : option string)
| RPktLen
| RRx
| RIngress
| REgress.

#[global] Instance region_eq_dec : EqDecision region.
Proof. solve_decision. Defined.

(** The regions found, and the identities of the expressions visited. *)
Definition rset : Type := list region * gset Z.

Definition out_add (r : region) (s : rset) : rset :=
  (if bool_decide (r ∈ s.1) then s.1 else s.1 ++ [r], s.2).

(** [if eid in seen: return; seen.add(eid)], then the rest. *)
Definition visit (o : Z) (k : rset → rset) (s : rset) : rset :=
  if bool_decide (o ∈ s.2) then s else k (s.1, {[o]} ∪ s.2).

Fixpoint _expr_regions (expr : val) (s : rset) : rset :=
  let fix all (l : list val) (s : rset) : rset :=
    match l with [] => s | v :: l' => all l' (_expr_regions v s) end in
  match expr with
  | VNone => s
  | VPkt o p => visit o (λ s, _expr_regions (pv_var_off p) (out_add RPkt s)) s
  | VMap o m =>
      visit o (λ s, _expr_regions (mv_var_off m)
                      (_expr_regions (mv_map_key m) (out_add (RMap (mv_map_id m)) s))) s
  | VBss o b => visit o (λ s, _expr_regions (bv_var_off b) (out_add (RBss (bv_key b)) s)) s
  | VRodata o r => visit o (_expr_regions (rv_var_off r)) s
  | VHit o h =>
      visit o (λ s, _expr_regions (lh_map_key h) (out_add (RMap (lh_map_id h)) s)) s
  | VPktLen o _ _ => visit o (out_add RPktLen) s
  | VRxq o => visit o (out_add RRx) s
  | VIngress o => visit o (out_add RIngress) s
  | VEgress o => visit o (out_add REgress) s
  | VFunc o f =>
      visit o (λ s, if fr_redirects f && bool_decide (is_Some (fr_map_id f))
                    then _expr_regions (fr_map_key f) (out_add (RMap (fr_map_id f)) s)
                    else s) s
  | VJoin o j => visit o (all (j_values j)) s
  | VUn o u => visit o (_expr_regions (u_dst u)) s
  | VBin o b => visit o (λ s, _expr_regions (b_src b) (_expr_regions (b_dst b) s)) s
  | VByteSeq o cs _ _ => visit o (all cs) s
  | VNum o _ _ _ | VScalar o _ _ | VPtr o _ => visit o id s
  end.

Definition _branch_cond_regions (c : option condition) (s : rset) : rset :=
  match c with
  | Some (CContain (Some id) key _ _) => _expr_regions key (out_add (RMap (Some id)) s)
  | Some (CTail _ index _ _ _ _) => _expr_regions index s
  | Some (CCond _ dst src _) => _expr_regions src (_expr_regions dst s)
  | _ => s
  end.

Definition target_region (t : ctx_target) : region :=
  match t with TIngress => RIngress | TRxIndex => RRx | TEgress => REgress end.

Definition _atom_regions (a : atom) (s : rset) : rset :=
  match a with
  | PktAtom _ _ _ _ => out_add RPkt s
  | MapAtom id _ _ _ _ _ => out_add (RMap (Some id)) s
  | BssAtom sym _ _ _ _ => out_add (RBss (Some sym)) s
  | LenAtom _ _ => out_add RPktLen s
  | ScalarAtom t _ => out_add (target_region t) s
  | HelperAtom _ _ _ (HScalar r _ _) => _expr_regions r s
  | HelperAtom _ _ _ (HMapNull (Some id) key _ _) => _expr_regions key (out_add (RMap (Some id)) s)
  | HelperAtom _ _ _ (HMapNull None _ _ _) => s
  | RetAtom _ _ => s
  | ReadAtom parts _ _ _ _ _ _ => fold_left (λ s p, _expr_regions p.1 s) parts s
  end.

Fixpoint _cond_regions (c : CondNode) (s : rset) : rset :=
  let fix all (l : list CondNode) (s : rset) : rset :=
    match l with [] => s | x :: l' => all l' (_cond_regions x s) end in
  match c with
  | CLeaf a => _atom_regions a s
  | CNot c => _cond_regions c s
  | CAnd l | COr l => all l s
  end.

Definition _write_region (a : action) : option region :=
  match a_kind a with
  | PktWrite _ _ _ _ _ => Some RPkt
  | MapWrite id _ _ _ _ _ | MapAtomicAdd id _ _ _ _ _ _ | MapUpdate id _ _ _ _ _
  | MapDelete id _ => Some (RMap id)
  | BssWrite key _ _ _ _ | BssAtomicAdd key _ _ _ _ _ => Some (RBss key)
  | CtxWrite _ => Some RRx
  | AdjustHead _ _ | AdjustTail _ _ => Some RPktLen
  | _ => None
  end.

Definition _leaf_region (v : val) : option region :=
  match v with
  | VPkt _ _ => Some RPkt
  | VMap _ m => Some (RMap (mv_map_id m))
  | VBss _ b => Some (RBss (bv_key b))
  | VFunc _ f => if fr_redirects f && bool_decide (is_Some (fr_map_id f))
                 then Some (RMap (fr_map_id f)) else None
  | _ => None
  end.

(** One action of the loop of [relevant_regions], with [changed]. *)
Definition action_regions (s : rset * bool) (a : action) : rset * bool :=
  match _write_region a with
  | Some r =>
      if bool_decide (r ∈ s.1.1) then
        let s' := _expr_regions (ml_var_off (action_loc a))
                    (_expr_regions (ml_map_key (action_loc a))
                       (_expr_regions (written_value a) s.1)) in
        (s', s.2 || negb (length s'.1 =? length s.1.1)%nat)
      else s
  | None => s
  end.

Fixpoint regions_loop (fuel : nat) (acts : list action) (s : rset) : res rset :=
  match fuel with
  | O => Err out_of_fuel
  | S fuel' =>
      let '(s', changed) := fold_left action_regions acts (s, false) in
      if (changed : bool) then regions_loop fuel' acts s' else Ok s'
  end.

Definition block_list (blocks : list Block) (sl : list Z) : res (list Block) :=
  mapR (py_index blocks) sl.

Definition exit_regions (s : rset) (b : Block) : res rset :=
  match kind b with
  | KExit => r ← py_index (regs b) 0; Ok (_expr_regions r s)
  | _ => Ok s
  end.

(** The regions of the conditions, returns and branches, closed under the
    operands of the actions that write them. *)
Definition relevant_regions (blocks : list Block) (sl : list Z) (cond_trees : list CondNode)
    : res (list region) :=
  let s := fold_left (λ s c, _cond_regions c s) cond_trees ([], ∅) in
  bs ← block_list blocks sl;
  s ← foldR exit_regions s bs;
  let s := fold_left (λ s b, _branch_cond_regions (cond b) s) bs s in
  let acts := mjoin (map actions bs) in
  out ← regions_loop (S (length acts)) acts s;
  Ok (fst out).

(** [keep] of the targets, or all live blocks. *)
Definition _block_slice (blocks : list Block) (live : gset Z) (targets : option (list Z))
    : res (gset Z) :=
  match targets with
  | None => Ok live
  | Some ts =>
      foldR (λ keep t, if bool_decide (t ∈ live) then
                         sl ← _slice_to blocks live t; Ok (keep ∪ sl)
                       else Ok keep) {[0]} ts
  end.

Definition is_memory (r : region) : bool :=
  match r with RPkt | RMap _ | RBss _ => true | _ => false end.

(** [out[r] = True] or [out.setdefault(r, False)]. *)
Definition mark_var (out : list (region * bool)) (r : option region) (var_off : val)
    : list (region * bool) :=
  match r with
  | Some r =>
      if negb (is_memory r) then out
      else if negb (is_none var_off) then pset out r true
      else if pmem out r then out else pset out r false
  | None => out
  end.

Definition source_var_off (v : val) : val :=
  match v with
  | VPkt _ p => pv_var_off p
  | VMap _ m => mv_var_off m
  | VBss _ b => bv_var_off b
  | VRodata _ r => rv_var_off r
  | _ => VNone
  end.

Definition _region_has_var_off (bs : list Block) : list (region * bool) :=
  fold_left (λ out b,
    let out := fold_left (λ out a, mark_var out (_write_region a) (ml_var_off (action_loc a)))
                 (actions b) out in
    fold_left (λ out s, if is_join s then out else mark_var out (_leaf_region s) (source_var_off s))
      (sources b) out) bs [].

Definition fold_eligible_regions (bs : list Block) (relevant : list region) : list region :=
  let has_var := _region_has_var_off bs in
  filter (λ r, is_memory r && negb (default false (pget has_var r)) = true) relevant.

(** ** States *)

(** [a is b] on terms: one object is one term. *)
Class SameTerm `{SMT} := {
  same_bv : bv → bv → bool;
  same_arr : barr → barr → bool;
  same_parr : parr → parr → bool
}.
Class SameTermLaws `{SameTerm} : Prop := {
  same_bv_eq a b : same_bv a b = true → a = b;
  same_arr_eq a b : same_arr a b = true → a = b;
  same_parr_eq a b : same_parr a b = true → a = b
}.

Section merge.
Context `{SMT}.
Context {A : Type} (same : A → A → bool) (ite : bl → A → A → A).

(** One pair of the loop: the guard joins the first group of the same term. *)
Fixpoint add_group (g : guard) (t : A) (groups : list (guard * A)) : list (guard * A) :=
  match groups with
  | [] => [(g, t)]
  | (og, ot) :: rest =>
      if same ot t then (_or_all [og; g], ot) :: rest else (og, ot) :: add_group g t rest
  end.

Definition ite_guard (g : guard) (a b : A) : A :=
  match g with GPy true => a | GPy false => b | GTm c => ite c a b end.

Definition _merge_component (pairs : list (guard * A)) : res A :=
  let groups := fold_left (λ gs gt, add_group gt.1 gt.2 gs) pairs [] in
  match rev groups with
  | [] => Err IndexError
  | (_, last) :: rest => Ok (fold_left (λ out gt, ite_guard gt.1 gt.2 out) rest last)
  end.
End merge.

Section forward.
Context `{SMT} `{!SameTerm}.

(** [_with_reads(sigma, hooked, at_block, read_loc)]. *)
Definition _with_reads (sigma hooked : Z3State) (at_ : option Z)
    (rl : option (mloc → res (option bv))) : Z3State :=
  mk_state (map_meta hooked) (read_pkt hooked) (read_map hooked) (read_bss hooked)
    (read_fret hooked) (read_phi hooked)
    (match rl with Some _ => rl | None => read_loc hooked end)
    (match at_ with Some _ => at_ | None => at_block hooked end) (read_present hooked)
    (z_pkt sigma) (z_map sigma) (z_r0 sigma) (z_rx_index sigma) (z_ingress sigma)
    (z_egress sigma) (z_pkt_len sigma) (z_bss sigma).

Definition contribs_t : Type := list (guard * Z3State).

Definition merge_map_cell (contribs : contribs_t) (i : Z) : res (parr * barr) :=
  cells ← mapR (λ gs, c ← py_index (z_map gs.2) i; Ok (gs.1, c)) contribs;
  p ← _merge_component same_parr IfPArr (map (λ gc, (gc.1, gc.2.1)) cells);
  v ← _merge_component same_arr IfArr (map (λ gc, (gc.1, gc.2.2)) cells);
  Ok (p, v).

Definition bss_keys (contribs : contribs_t) : list (option string) :=
  remove_dups (mjoin (map (λ gs, map fst (z_bss gs.2)) contribs)).

Definition _merge_sigma (contribs : contribs_t) (init_st : Z3State) : res Z3State :=
  match contribs with
  | [(_, s)] => Ok s
  | _ =>
      pkt ← _merge_component same_arr IfArr (map (λ gs, (gs.1, z_pkt gs.2)) contribs);
      new_map ← mapR (merge_map_cell contribs) (zrange 0 (Z.of_nat (length (z_map init_st))));
      new_bss ← mapR (λ k, a ← _merge_component same_arr IfArr
                                  (map (λ gs, (gs.1, _bss_of gs.2 k)) contribs); Ok (k, a))
                  (bss_keys contribs);
      plen ← _merge_component same_bv IfBV (map (λ gs, (gs.1, z_pkt_len gs.2)) contribs);
      rx ← _merge_component same_bv IfBV (map (λ gs, (gs.1, z_rx_index gs.2)) contribs);
      Ok (with_fields init_st pkt new_map (z_r0 init_st) rx plen new_bss)
  end.

Definition _branch_guards_unpruned (b : Block) (st : Z3State) : res (guard * guard * bool) :=
  match cond b with
  | None => let c := GTm (Bool (branch_name (num b))) in Ok (c, _not c, true)
  | Some c =>
      g ← cond_to_z3 st c;
      let c := GTm (to_bl g) in
      Ok (c, _not c, false)
  end.

(** ** The context *)

Record ForwardInfo := mk_fi {
  fi_reach : guard;
  fi_taken : guard;
  fi_fall : guard;
  fi_sigma : Z3State;
  fi_imprecise : bool
}.

(** What [__init__] computes before the walk. *)
Record fenv := mk_fenv {
  e_blocks : list Block;
  e_init : Z3State;
  e_prune : bool;
  e_resolve : bool;
  e_slice : gset Z;
  e_relevant : list region;
  e_fold : list region;
  e_anc : list (Z * gset Z);
  e_lookup_block : list (Z * Z);
  e_depth : nat
}.

(** What the walk changes. *)
Record fctx := mk_fctx {
  c_info : list (Z * ForwardInfo);
  c_memo : gmap Z bv;
  c_stores : Z;
  c_cur : option (Z * guard * Z3State);
  c_lookup_sigma : list (Z * Z3State);
  c_defs : list (bv * bv)
}.

Section env.
Context (e : fenv).

Definition folded (r : region) : bool := bool_decide (r ∈ e_fold e).

Definition _edge_guard (c : fctx) (pred : Z) (k : edge) : guard :=
  match pget (c_info c) pred with
  | None => GPy false
  | Some pi => _and (fi_reach pi) (match k with Taken => fi_taken pi | Fall => fi_fall pi end)
  end.

Definition reach (c : fctx) (block : Z) : guard :=
  let of_info := match pget (c_info c) block with Some pi => fi_reach pi | None => GPy false end in
  match c_cur c with
  | Some (b, g, _) => if block =? b then g else of_info
  | None => of_info
  end.

Definition _sigma_at (c : fctx) (at_ : option Z) : Z3State :=
  match at_ with
  | None => e_init e
  | Some b =>
      let of_info := match pget (c_info c) b with Some pi => fi_sigma pi | None => e_init e end in
      match c_cur c with
      | Some (cb, _, s) => if b =? cb then s else of_info
      | None => of_info
      end
  end.

Definition _read_present (mem : Memory) (c : fctx) (map_id : option Z) (key_z3 : bv)
    (at_ at_idx : option Z) : res bl :=
  let blk := i ← at_idx; pget (e_lookup_block e) i in
  if folded (RMap map_id) then
    match blk with
    | Some b => present mem map_id key_z3 (Some b) at_idx
    | None => present mem map_id key_z3 at_ None
    end
  else
    let recorded := match blk with Some _ => i ← at_idx; pget (c_lookup_sigma c) i | None => None end in
    let sigma := default (_sigma_at c at_) recorded in
    '(p, _) ← map_cell sigma map_id;
    Ok (PSelect p key_z3).

Definition too_deep : err := RuntimeError "maximum recursion depth exceeded".

(** The state with the readers of the context, while the phis of [active] are
    evaluated. [read_fret] is [_memo.get] called with the expression, whose keys
    are integers: it never answers. *)
Fixpoint hooked (c : fctx) (depth : nat) (active : gset Z) : Z3State :=
  let init := e_init e in
  let reads pk mp bs ph pr :=
    mk_state (map_meta init) (Some pk) (Some mp) (Some bs) (Some (λ _, Ok None)) (Some ph)
      (read_loc init) (at_block init) (Some pr) (z_pkt init) (z_map init) (z_r0 init)
      (z_rx_index init) (z_ingress init) (z_egress init) (z_pkt_len init) (z_bss init) in
  match depth with
  | O => reads (λ _, Err too_deep) (λ _, Err too_deep) (λ _, Err too_deep) (λ _, Err too_deep)
           (λ _ _ _ _, Err too_deep)
  | S d =>
      let mem := mk_mem (hooked c d active) (e_blocks e) (e_anc e) (reach c) in
      let memo_get v := Ok (c_memo c !! oid v) in
      reads
        (λ v, match v with
              | VPkt _ p => if folded RPkt then mem_pkt mem p else memo_get v
              | _ => Err AttributeError
              end)
        (λ v, match v with
              | VMap _ m => if folded (RMap (mv_map_id m)) then mem_map mem m else memo_get v
              | _ => Err AttributeError
              end)
        (λ v, match v with
              | VBss _ b => if folded (RBss (bv_key b)) then mem_bss mem b else memo_get v
              | _ => Err AttributeError
              end)
        (λ v, match v with
              | VJoin o j => phi_value (_edge_guard c) (hooked c d) active o j
              | _ => Err AttributeError
              end)
        (_read_present mem c)
  end.

Definition hooked_st (c : fctx) : Z3State := hooked c (e_depth e) ∅.
Definition memory_of (c : fctx) : Memory :=
  mk_mem (hooked_st c) (e_blocks e) (e_anc e) (reach c).
(** [self._read_loc], the reader of specification atoms at the end of a block. *)
Definition _read_loc (c : fctx) (l : mloc) (at_ : Z) : res (option bv) :=
  let region := ml_region l in
  let offset := ml_off l in
  if bool_decide (region = Some PKT) then
    if folded RPkt then loc_byte (memory_of c) PKT offset (ml_size l) None VNone at_ None
    else
      let sigma := _sigma_at c (Some at_) in
      Ok (Some (Select (z_pkt sigma) (BitVecVal offset (domain_size (z_pkt sigma)))))
  else if bool_decide (region = Some MAP) then
    let map_id := ml_map_id l in
    if folded (RMap map_id) then
      loc_byte (memory_of c) MAP offset (ml_size l) map_id (ml_map_key l) at_ None
    else
      '(_, a) ← map_cell (_sigma_at c (Some at_)) map_id;
      key ← _map_key_z3 (hooked_st c) map_id (ml_map_key l);
      let v := Select a key in
      let lo := offset * 8 in
      Ok (Some (if size v <=? lo then BitVecVal 0 8
                else Extract (Z.min (lo + 8) (size v) - 1) lo v))
  else if bool_decide (region = Some BSS) then
    if folded (RBss (ml_bss_key l)) then
      loc_byte (memory_of c) BSS offset (ml_size l) None VNone at_ (ml_bss_key l)
    else
      Ok (Some (Select (_bss_of (_sigma_at c (Some at_)) (ml_bss_key l))
                  (BitVecVal offset BSS_ADDR_BITS)))
  else Ok None.

(** *** The walk *)

(** The items of a block: the values it read and its actions, in program order,
    reads first at one instruction. *)
Inductive item := ISrc (v : val) | IAct (a : action).

(** [v.idx]. *)
Definition val_idx (v : val) : res Z :=
  match v with
  | VScalar _ _ i | VNum _ _ _ i => Ok i
  | VJoin _ j => Ok (j_idx j)
  | VFunc _ f => Ok (fr_idx f)
  | VPkt _ p => Ok (pv_idx p)
  | VMap _ m => Ok (mv_idx m)
  | VBss _ b => Ok (bv_idx b)
  | VBin _ b => Ok (b_idx b)
  | VIngress _ | VRxq _ | VEgress _ | VPktLen _ _ _ | VRodata _ _ | VHit _ _ | VUn _ _ => Ok (-1)
  | VNone | VByteSeq _ _ _ _ | VPtr _ _ => Err AttributeError
  end.

Definition item_key (i : item) : res (Z * Z) :=
  match i with
  | ISrc v => x ← val_idx v; Ok (x, 0)
  | IAct a => Ok (a_idx a, 1)
  end.

Definition key_le (a b : Z * Z) : bool := (a.1 <? b.1) || ((a.1 =? b.1) && (a.2 <=? b.2)).

(** Insertion behind the items with a smaller or equal key. *)
Fixpoint insert_item (k : Z * Z) (i : item) (l : list (Z * Z * item)) : list (Z * Z * item) :=
  match l with
  | [] => [(k, i)]
  | x :: l' => if key_le x.1 k then x :: insert_item k i l' else (k, i) :: l
  end.

Definition block_items (b : Block) : res (list item) :=
  let items := map ISrc (filter (λ s, is_join s = false) (sources b)) ++ map IAct (actions b) in
  sorted ← foldR (λ l i, k ← item_key i; Ok (insert_item k i l)) [] items;
  Ok (map snd sorted).

Definition set_cur (x : option (Z * guard * Z3State)) (c : fctx) : fctx :=
  mk_fctx (c_info c) (c_memo c) (c_stores c) x (c_lookup_sigma c) (c_defs c).

(** What the encoder is given at [b]. *)
Definition reads_at (c : fctx) (sigma : Z3State) (b : Z) : Z3State :=
  _with_reads sigma (hooked_st c) (Some b) None.

(** Skipped: not relevant, or read from the writes. *)
Definition skip_region (r : option region) : bool :=
  match r with
  | Some r => negb (bool_decide (r ∈ e_relevant e)) || folded r
  | None => false
  end.

Definition def_name (n : Z) : string := "read" +:+ pretty n.

Definition set_memo (v : val) (t : bv) (defs : list (bv * bv)) (c : fctx) : fctx :=
  mk_fctx (c_info c) (<[oid v := t]> (c_memo c)) (c_stores c) (c_cur c) (c_lookup_sigma c) defs.

Definition _resolve_leaf (v : val) (sigma : Z3State) (c : fctx) (b : Z) : res fctx :=
  t ← expr_z3 (reads_at c sigma b) v;
  Ok (set_memo v t (c_defs c) c).

Definition _bind_unresolved (v : val) (sigma : Z3State) (c : fctx) (b : Z) : res fctx :=
  term ← expr_z3 (reads_at c sigma b) v;
  let var := BitVec (def_name (Z.of_nat (length (c_defs c)))) (size term) in
  Ok (set_memo v var (c_defs c ++ [(var, term)]) c).

Definition source_step (b : Z) (v : val) (cs : fctx * Z3State) : res (fctx * Z3State) :=
  let '(c, sigma) := cs in
  if bool_decide (is_Some (c_memo c !! oid v)) || skip_region (_leaf_region v) then Ok (c, sigma)
  else
    c ← (if e_resolve e then _resolve_leaf else _bind_unresolved) v sigma c b;
    Ok (c, sigma).

Definition note_lookup (a : action) (sigma : Z3State) (c : fctx) : fctx :=
  match a_kind a with
  | MapLookup _ _ key_id =>
      mk_fctx (c_info c) (c_memo c) (c_stores c) (c_cur c) (pset (c_lookup_sigma c) key_id sigma)
        (c_defs c)
  | _ => c
  end.

Definition action_step (b : Z) (a : action) (cs : fctx * Z3State) : res (fctx * Z3State) :=
  let '(c, sigma) := cs in
  let c := note_lookup a sigma c in
  if skip_region (_write_region a) then Ok (c, sigma)
  else
    sigma ← action_to_z3 (reads_at c sigma b) a;
    let cur := match c_cur c with Some (cb, g, _) => Some (cb, g, sigma) | None => None end in
    Ok (mk_fctx (c_info c) (c_memo c) (c_stores c + 1) cur (c_lookup_sigma c) (c_defs c), sigma).

Definition item_step (b : Z) (cs : fctx * Z3State) (i : item) : res (fctx * Z3State) :=
  match i with ISrc v => source_step b v cs | IAct a => action_step b a cs end.

(** The ways into [b] from predecessor [p]. *)
Definition contribs_of (c : fctx) (b p : Z) : res contribs_t :=
  match pget (c_info c) p with
  | None => Ok []
  | Some pi =>
      if is_False (fi_reach pi) then Ok []
      else
        ps ← py_index (e_blocks e) p;
        let entry (succ : option Z) (eg : guard) :=
          if bool_decide (succ = Some b) then
            let g := _and (fi_reach pi) eg in
            if is_False g then [] else [(g, fi_sigma pi)]
          else [] in
        Ok (entry (succ_t ps) (fi_taken pi) ++ entry (succ_f ps) (fi_fall pi))
  end.

Definition entry_of (c : fctx) (b : Z) (s : Block) : res (guard * Z3State) :=
  if b =? 0 then Ok (GPy true, e_init e)
  else
    ls ← mapR (contribs_of c b) (merge_sort Z.le (remove_dups (preds s)));
    let contribs := mjoin ls in
    sigma ← match contribs with [] => Ok (e_init e) | _ => _merge_sigma contribs (e_init e) end;
    Ok (_or_all (map fst contribs), sigma).

Definition branch_step (c : fctx) (sigma : Z3State) (b : Z) (s : Block)
    : res (guard * guard * bool) :=
  if branch s then
    (if e_prune e then _branch_guards else _branch_guards_unpruned) s (reads_at c sigma b)
  else Ok (GPy true, GPy true, false).

Definition walk_block (c : fctx) (b : Z) : res fctx :=
  s ← py_index (e_blocks e) b;
  '(reach, sigma) ← entry_of c b s;
  items ← block_items s;
  '(c, sigma) ← foldR (item_step b) (set_cur (Some (b, reach, sigma)) c, sigma) items;
  '(taken, fall, imprecise) ← branch_step c sigma b s;
  Ok (mk_fctx (pset (c_info c) b (mk_fi reach taken fall sigma imprecise)) (c_memo c)
        (c_stores c) (c_cur c) (c_lookup_sigma c) (c_defs c)).

Definition _walk (c : fctx) (order : list Z) : res fctx := foldR walk_block c order.

Definition no_ctx : fctx := mk_fctx [] ∅ 0 None [] [].

(** *** What the checker asks *)

Definition state_at (c : fctx) (block : Z) : Z3State :=
  let sigma := match pget (c_info c) block with Some pi => fi_sigma pi | None => e_init e end in
  _with_reads sigma (hooked_st c) (Some block) (Some (λ l, _read_loc c l block)).

Definition ret_state (c : fctx) (block : Z) : res (option Z3State) :=
  s ← py_index (e_blocks e) block;
  ret ← ret_expr s;
  if is_none ret then Ok None
  else
    let base := state_at c block in
    r0 ← expr_z3 base ret;
    Ok (Some (set_r0 (widen r0 64) base)).

Definition note_perf : string := "perf_event_output: recorded but has no state effect".
Definition note_meta : string := "adjust_meta: recorded, but the metadata area is not modelled".

(** One action of [dropped_effects]. *)
Definition dropped (seen : list string) (a : action) : list string :=
  match a_kind a with
  | perf_event_output =>
      if bool_decide ("perf_event_output"%string ∈ seen) then seen else seen ++ [note_perf]
  | AdjustMeta _ _ =>
      if bool_decide ("adjust_meta"%string ∈ seen) then seen else seen ++ [note_meta]
  | _ => seen
  end.

Definition dropped_effects (c : fctx) (block : Z) : res (list string) :=
  let reached := merge_sort Z.le (elements ({[block]} ∪ default ∅ (pget (e_anc e) block))) in
  foldR (λ seen b,
    if negb (pmem (c_info c) b) || is_False (reach c b) then Ok seen
    else s ← py_index (e_blocks e) b; Ok (fold_left dropped (actions s) seen)) [] reached.
End env.

(** [{a.map_key_id: blk.num}] of the lookups. *)
Definition lookup_blocks (blocks : list Block) : list (Z * Z) :=
  fold_left (λ d b, fold_left (λ d a, match a_kind a with
                                      | MapLookup _ _ key_id => pset d key_id (num b)
                                      | _ => d
                                      end) (actions b) d) blocks [].

(** [ForwardContext(blocks, maps, init_st, targets, cond_trees, ...)]. *)
Definition ForwardContext (blocks : list Block) (init_st : Z3State) (targets : option (list Z))
    (cond_trees : list CondNode) (prune_paths resolve_values hybrid_fold : bool) (depth : nat)
    : res (fenv * fctx) :=
  live ← forward_reachable blocks;
  sl ← _block_slice blocks live targets;
  let slice := elements sl in
  relevant ← relevant_regions blocks slice cond_trees;
  order ← topo_order blocks sl;
  anc ← ancestors blocks order;
  bs ← block_list blocks slice;
  let fold := if resolve_values && hybrid_fold then fold_eligible_regions bs relevant else [] in
  let e := mk_fenv blocks init_st prune_paths resolve_values sl relevant fold anc
             (lookup_blocks blocks) depth in
  c ← _walk e no_ctx order;
  Ok (e, set_cur None c).
End forward.
