(* ===== verification/ForwardMerge.v ===== *)
(** Merging symbolic states ([verify/forward.py]): in a model that takes one of the
    edges into a block, the merged state is that predecessor's state. *)

From S2P Require Import Prelude Constants Smt SmtTerm Expr Record Link Encode Action Bits.
From S2P Require Import EncodeSound ReachSound PruneSound Block Prune Slice Spec Forward.

(** ** One component *)

Section component.
Context `{HL : SMTLaws} (m : model).
Context {A V : Type} (same : A → A → bool) (ite : bl → A → A → A).
Context (P : A → Prop) (value : A → V).
Hypothesis same_eq : ∀ a b, same a b = true → a = b.
Hypothesis ite_ok : ∀ c a b, P a → P b →
  P (ite c a b) ∧ value (ite c a b) = if evb m c then value a else value b.

Lemma ite_guard_ok g a b : P a → P b →
  P (ite_guard ite g a b) ∧ value (ite_guard ite g a b) = if evg m g then value a else value b.
Proof. destruct g as [[]|c]; simpl; auto. Qed.

(** A group's guard is true when that of one of its terms is. *)
Lemma add_group_ok v g t groups :
  Forall (λ gt, P gt.2 ∧ (evg m gt.1 = true → value gt.2 = v)) groups →
  P t → (evg m g = true → value t = v) →
  Forall (λ gt, P gt.2 ∧ (evg m gt.1 = true → value gt.2 = v)) (add_group same g t groups) ∧
  existsb (λ gt, evg m gt.1) (add_group same g t groups)
  = existsb (λ gt, evg m gt.1) groups || evg m g.
Proof.
  intros HF Ht Hv. induction HF as [|[og ot] groups [Ho Hov] HF IH]; cbn [add_group existsb fst snd].
  - rewrite orb_false_r. split; [by repeat constructor|done].
  - destruct (same ot t) eqn:Es.
    + apply same_eq in Es as ->. cbn [existsb fst snd]. pose proof (evg_or_all m [og; g]) as Hor.
      cbn [existsb] in Hor. rewrite orb_false_r in Hor. rewrite Hor.
      split; [|by destruct (evg m og), (evg m g), (existsb _ groups)].
      constructor; [split; [done|]|done]. cbn [fst snd]. rewrite Hor.
      intros [? | ?]%orb_true_iff; auto.
    + destruct IH as [IHF IHe]. cbn [existsb fst snd]. rewrite IHe, orb_assoc. split; [by constructor|done].
Qed.

Lemma chain_ok v gs last : Forall (λ gt, P gt.2 ∧ (evg m gt.1 = true → value gt.2 = v)) gs →
  P last → let out := fold_left (λ out gt, ite_guard ite gt.1 gt.2 out) (rev gs) last in
  P out ∧ (existsb (λ gt, evg m gt.1) gs = true ∨ value last = v → value out = v).
Proof.
  intros HF Hl. cbv zeta. rewrite <- fold_left_rev_right, rev_involutive.
  induction HF as [|[g t] gs [Ht Hv] HF IH]; simpl in *; [naive_solver|].
  destruct IH as [IHP IHv]. destruct (ite_guard_ok g t _ Ht IHP) as [HP ->]. split; [done|].
  destruct (evg m g); [auto|]. intros [? | ?]; auto.
Qed.

(** The merged component has the value every true pair has, where there is one. *)
Lemma merge_component_ok v pairs t :
  Forall (λ gt, P gt.2 ∧ (evg m gt.1 = true → value gt.2 = v)) pairs →
  _merge_component same ite pairs = Ok t →
  P t ∧ (existsb (λ gt, evg m gt.1) pairs = true → value t = v).
Proof.
  intros HF HE. unfold _merge_component in HE. cbv zeta in HE.
  assert (∀ ps gs, Forall (λ gt, P gt.2 ∧ (evg m gt.1 = true → value gt.2 = v)) gs →
    Forall (λ gt, P gt.2 ∧ (evg m gt.1 = true → value gt.2 = v)) ps →
    let gs' := fold_left (λ gs gt, add_group same gt.1 gt.2 gs) ps gs in
    Forall (λ gt, P gt.2 ∧ (evg m gt.1 = true → value gt.2 = v)) gs' ∧
    existsb (λ gt, evg m gt.1) gs' =
      existsb (λ gt, evg m gt.1) gs || existsb (λ gt, evg m gt.1) ps) as H.
  { clear HF HE. induction ps as [|[g s] ps IH]; intros gs Hgs Hps; simpl.
    - by rewrite orb_false_r.
    - inversion Hps as [|? ? [Hs Hv] Hps']; subst. simpl in *.
      destruct (add_group_ok v g s gs Hgs Hs Hv) as [HG HX].
      destruct (IH _ HG Hps') as [H1 H2]. rewrite H2, HX, orb_assoc. done. }
  destruct (H pairs [] ltac:(done) HF) as [HG HX]. simpl in HX.
  destruct (fold_left _ pairs []) as [|[gl tl] gs] using rev_ind; [done|].
  rewrite rev_app_distr in HE. simpl in HE. injection HE as <-.
  apply Forall_app in HG as [HG Hl]. inversion Hl as [|? ? [Hpl Hvl] _]; subst. simpl in *.
  destruct (chain_ok v gs tl HG Hpl) as [HP HV]. split; [done|]. intros Hex. apply HV.
  rewrite Hex, existsb_app in HX. simpl in HX. rewrite orb_false_r in HX.
  apply orb_true_iff in HX as [? | ?]; auto.
Qed.
End component.

(** ** States *)

Section states.
Context `{HL : SMTLaws} `{!SameTerm} `{!SameTermLaws} (m : model).
Implicit Types (s : Z3State).

(** The sorts of the memory of a state, and of its queue register, are those of the
    initial one. *)
Record arrays_like (init s : Z3State) : Prop := {
  so_pkt : domain_size (z_pkt s) = domain_size (z_pkt init) ∧
           range_size (z_pkt s) = range_size (z_pkt init);
  so_map : Forall2 (λ c c0, domain_size c.2 = domain_size c0.2 ∧ range_size c.2 = range_size c0.2)
             (z_map s) (z_map init);
  so_len : size (z_pkt_len s) = size (z_pkt_len init);
  so_bss : ∀ k, domain_size (_bss_of s k) = BSS_ADDR_BITS ∧ range_size (_bss_of s k) = 8
}.
Record sorts_like (init s : Z3State) : Prop := {
  so_arrays : arrays_like init s;
  so_rx : size (z_rx_index s) = size (z_rx_index init)
}.

(** The two states are one memory in the model. *)
Record agree (s s' : Z3State) : Prop := {
  ag_pkt : ∀ i, eva m (z_pkt s) i = eva m (z_pkt s') i;
  ag_map : ∀ n c c', z_map s !! n = Some c → z_map s' !! n = Some c' →
    ∀ k, evp m c.1 k = evp m c'.1 k ∧ eva m c.2 k = eva m c'.2 k;
  ag_bss : ∀ k i, eva m (_bss_of s k) i = eva m (_bss_of s' k) i;
  ag_len : ev m (z_pkt_len s) = ev m (z_pkt_len s');
  ag_rx : ev m (z_rx_index s) = ev m (z_rx_index s')
}.

Lemma agree_refl s : agree s s.
Proof. split; try done. intros n c c' Hc Hc' k. by simplify_eq. Qed.

Lemma bss_of_zero (k : option string) : domain_size zero_bss = BSS_ADDR_BITS ∧ range_size zero_bss = 8.
Proof. unfold zero_bss. by rewrite domain_K, range_K, size_BitVecVal. Qed.

Section merged.
Context (init s0 : Z3State) (contribs : contribs_t).
Hypothesis Hsorts : Forall (λ gs, sorts_like init gs.2) contribs.
Hypothesis Htrue : Forall (λ gs, evg m gs.1 = true → gs.2 = s0) contribs.
Let some_true : Prop := existsb (λ gs, evg m gs.1) contribs = true.

(** A component read off every state. *)
Lemma component_ok {A V} same ite (P : A → Prop) (value : A → V) (f : Z3State → A) t :
  (∀ a b, same a b = true → a = b) →
  (∀ c a b, P a → P b → P (ite c a b) ∧ value (ite c a b) = if evb m c then value a else value b) →
  (∀ s, sorts_like init s → P (f s)) →
  _merge_component same ite (map (λ gs, (gs.1, f gs.2)) contribs) = Ok t →
  P t ∧ (some_true → value t = value (f s0)).
Proof.
  intros Hsame Hite HP HE.
  eapply (merge_component_ok m same ite P value Hsame Hite (value (f s0))) in HE as [HPt Hv];
    [split; [done|intros Ht; apply Hv; rewrite <- Ht]|].
  - clear. induction contribs as [|gs l IH]; [done|]. simpl. by rewrite IH.
  - apply Forall_map. rewrite !Forall_forall in *. intros gs Hgs. simpl. split; [by apply HP, Hsorts|].
    intros Hg. by rewrite (Htrue gs Hgs Hg).
Qed.

Definition arr_sort (d r : Z) (a : barr) : Prop := domain_size a = d ∧ range_size a = r.

Lemma ite_arr_ok d r i c a b : arr_sort d r a → arr_sort d r b →
  arr_sort d r (IfArr c a b) ∧
  eva m (IfArr c a b) i = if evb m c then eva m a i else eva m b i.
Proof.
  intros [Ha Ha'] [Hb Hb']. unfold arr_sort.
  by rewrite domain_IfArr, range_IfArr, eva_IfArr by congruence.
Qed.

Lemma arr_component_ok d r (f : Z3State → barr) t :
  (∀ s, sorts_like init s → arr_sort d r (f s)) →
  _merge_component same_arr IfArr (map (λ gs, (gs.1, f gs.2)) contribs) = Ok t →
  arr_sort d r t ∧ (some_true → ∀ i, eva m t i = eva m (f s0) i).
Proof.
  intros Hs HE.
  assert (∀ i, arr_sort d r t ∧ (some_true → eva m t i = eva m (f s0) i)) as HA
    by (intros i; exact (component_ok same_arr IfArr (arr_sort d r) (λ a, eva m a i) f t
          same_arr_eq (ite_arr_ok d r i) Hs HE)).
  split; [apply (HA 0)|intros Ht i; by apply HA].
Qed.

Lemma bv_component_ok w (f : Z3State → bv) t :
  (∀ s, sorts_like init s → size (f s) = w) →
  _merge_component same_bv IfBV (map (λ gs, (gs.1, f gs.2)) contribs) = Ok t →
  size t = w ∧ (some_true → ev m t = ev m (f s0)).
Proof.
  intros Hs HE. apply (component_ok same_bv IfBV (λ t, size t = w) (ev m) f t same_bv_eq); [|done|done].
  intros c a b Ha Hb. by rewrite size_IfBV, ev_IfBV by congruence.
Qed.

(** One cell of the maps; the states hold the cells of the initial one. *)
Lemma cells_of i c0 cells :
  mapR (λ gs, c ← py_index (z_map gs.2) (Z.of_nat i); Ok (gs.1, c)) contribs = Ok cells →
  cells = map (λ gs, (gs.1, default c0 (z_map gs.2 !! i))) contribs.
Proof.
  clear. revert cells. induction contribs as [|gs l IH]; intros cells HE; simpl in HE.
  - by injection HE as <-.
  - apply bind_Ok in HE as (gc & Hc & HE). apply bind_Ok in Hc as (c & Hc & [= <-]).
    apply bind_Ok in HE as (cs & Hcs & [= <-]). apply py_index_Ok in Hc; [|lia].
    rewrite Nat2Z.id in Hc. simpl. by rewrite Hc, (IH _ Hcs).
Qed.

Lemma map_cell_ok i c0 c : z_map init !! i = Some c0 →
  merge_map_cell contribs (Z.of_nat i) = Ok c →
  arr_sort (domain_size c0.2) (range_size c0.2) c.2 ∧
  (some_true → ∀ k, evp m c.1 k = evp m (default c0 (z_map s0 !! i)).1 k ∧
                    eva m c.2 k = eva m (default c0 (z_map s0 !! i)).2 k).
Proof.
  intros Hc0 HE. unfold merge_map_cell in HE. apply bind_Ok in HE as (cells & Hcells & HE).
  apply (cells_of i c0) in Hcells as ->. rewrite !map_map in HE. simpl in HE.
  apply bind_Ok in HE as (p & Hp & HE). apply bind_Ok in HE as (a & Ha & [= <-]). simpl.
  apply (arr_component_ok (domain_size c0.2) (range_size c0.2)
    (λ s, (default c0 (z_map s !! i)).2)) in Ha as [Hs Hea].
  2: { intros s Hs. destruct (z_map s !! i) as [c|] eqn:Ec; [|done]. simpl.
    destruct (Forall2_lookup_l _ _ _ _ _ (so_map _ _ (so_arrays _ _ Hs)) Ec) as (c' & Hc' & ?).
    by simplify_eq. }
  split; [done|]. intros Ht k. split; [|by apply Hea]. revert Ht.
  refine (proj2 (component_ok same_parr IfPArr (λ _, True) (λ q, evp m q k)
    (λ s, (default c0 (z_map s !! i)).1) p same_parr_eq _ (λ _ _, I) Hp)).
  intros c a' b _ _. split; [done|]. apply evp_IfPArr.
Qed.

Lemma maps_ok new_map :
  mapR (merge_map_cell contribs) (zrange 0 (Z.of_nat (length (z_map init)))) = Ok new_map →
  Forall2 (λ c c0, domain_size c.2 = domain_size c0.2 ∧ range_size c.2 = range_size c0.2)
    new_map (z_map init) ∧
  (some_true → ∀ n c c', new_map !! n = Some c → z_map s0 !! n = Some c' →
     ∀ k, evp m c.1 k = evp m c'.1 k ∧ eva m c.2 k = eva m c'.2 k).
Proof.
  intros HE. apply mapR_Forall2 in HE.
  assert (∀ n c, new_map !! n = Some c → ∃ c0, z_map init !! n = Some c0 ∧
    merge_map_cell contribs (Z.of_nat n) = Ok c) as HN.
  { intros n c Hc. destruct (Forall2_lookup_r _ _ _ _ _ HE Hc) as (z & Hz & Hm).
    unfold zrange in Hz. apply lookup_seqZ in Hz as [-> Hlt]. rewrite Z.add_0_l in Hm.
    destruct (lookup_lt_is_Some_2 (z_map init) n) as [c0 Hc0]; [lia|eauto]. }
  split.
  - apply Forall2_same_length_lookup. split.
    + apply Forall2_length in HE. rewrite <- HE. unfold zrange. rewrite length_seqZ. lia.
    + intros n c c0 Hc Hc0. destruct (HN n c Hc) as (c0' & Hc0' & Hm). simplify_eq.
      by destruct (map_cell_ok _ _ _ Hc0 Hm) as [[? ?] _].
  - intros Ht n c c' Hc Hc'. destruct (HN n c Hc) as (c0 & Hc0 & Hm).
    destruct (map_cell_ok _ _ _ Hc0 Hm) as [_ He]. specialize (He Ht). by rewrite Hc' in He.
Qed.

Lemma bss_ok new_bss :
  mapR (λ k, a ← _merge_component same_arr IfArr
                   (map (λ gs, (gs.1, _bss_of gs.2 k)) contribs); Ok (k, a)) (bss_keys contribs)
    = Ok new_bss →
  ∀ k, let a := default zero_bss (pget new_bss k) in
    arr_sort BSS_ADDR_BITS 8 a ∧ (some_true → ∀ i, eva m a i = eva m (_bss_of s0 k) i).
Proof.
  intros HE k. cbv zeta.
  assert (∀ keys out, mapR (λ k, a ← _merge_component same_arr IfArr
      (map (λ gs, (gs.1, _bss_of gs.2 k)) contribs); Ok (k, a)) keys = Ok out →
    match pget out k with
    | Some a => _merge_component same_arr IfArr (map (λ gs, (gs.1, _bss_of gs.2 k)) contribs) = Ok a
    | None => k ∉ keys
    end) as HG.
  { clear. induction keys as [|k' keys IH]; intros out HE; simpl in HE.
    - injection HE as <-. apply not_elem_of_nil.
    - apply bind_Ok in HE as (x & Hx & HE). apply bind_Ok in Hx as (a & Ha & [= <-]).
      apply bind_Ok in HE as (out' & Hout & [= <-]). specialize (IH _ Hout). simpl.
      case_decide; [by subst|]. destruct (pget out' k); [done|].
      rewrite not_elem_of_cons. by split; [congruence|]. }
  specialize (HG _ _ HE). destruct (pget new_bss k) as [a|].
  - apply (arr_component_ok BSS_ADDR_BITS 8 (λ s, _bss_of s k)) in HG; [done|].
    intros s Hs. apply (so_bss _ _ (so_arrays _ _ Hs)).
  - simpl. split; [apply (bss_of_zero k)|]. intros Hone i. f_equal. unfold _bss_of.
    destruct (pget (z_bss s0) k) as [a|] eqn:Ek; [|done]. exfalso. apply HG.
    unfold bss_keys. rewrite elem_of_remove_dups.
    apply existsb_exists in Hone as (gs & Hgs & Hg). rewrite Forall_forall in Htrue.
    apply list_elem_of_In in Hgs. rewrite <- (Htrue _ Hgs Hg) in Ek.
    apply list_elem_of_join. exists (map fst (z_bss gs.2)). split.
    + revert Ek. generalize (z_bss gs.2). intros d. induction d as [|[k' v] d IH]; simpl; [done|].
      case_decide; [intros _; subst; left|intros; right; auto].
    + apply list_elem_of_In, in_map_iff. exists gs. split; [done|]. by apply list_elem_of_In.
Qed.

(** The merged state. *)
Lemma merge_sigma_ok sigma : _merge_sigma contribs init = Ok sigma →
  sorts_like init sigma ∧ (some_true → agree sigma s0).
Proof.
  intros HE.
  assert ((∃ gs, contribs = [gs]) ∨ ∃ pkt new_map new_bss plen rx,
    _merge_component same_arr IfArr (map (λ gs, (gs.1, z_pkt gs.2)) contribs) = Ok pkt ∧
    mapR (merge_map_cell contribs) (zrange 0 (Z.of_nat (length (z_map init)))) = Ok new_map ∧
    mapR (λ k, a ← _merge_component same_arr IfArr
                     (map (λ gs, (gs.1, _bss_of gs.2 k)) contribs); Ok (k, a)) (bss_keys contribs)
      = Ok new_bss ∧
    _merge_component same_bv IfBV (map (λ gs, (gs.1, z_pkt_len gs.2)) contribs) = Ok plen ∧
    _merge_component same_bv IfBV (map (λ gs, (gs.1, z_rx_index gs.2)) contribs) = Ok rx ∧
    sigma = with_fields init pkt new_map (z_r0 init) rx plen new_bss) as HC.
  { unfold _merge_sigma in HE.
    destruct contribs as [|[g s] [|gs' l]]; [|left; eauto|]; right;
      apply bind_Ok in HE as (pkt & Hp & HE); apply bind_Ok in HE as (nm & Hm & HE);
      apply bind_Ok in HE as (nb & Hb & HE); apply bind_Ok in HE as (pl & Hl & HE);
      apply bind_Ok in HE as (rx & Hr & [= <-]); eauto 12. }
  destruct HC as [[[g s] Hc] | (pkt & nm & nb & pl & rx & Hp & Hm & Hb & Hl & Hr & ->)].
  { unfold _merge_sigma in HE. unfold some_true. rewrite Hc in HE, Htrue, Hsorts |- *.
    injection HE as <-. inversion Htrue as [|? ? Hs _]; subst. inversion Hsorts; subst.
    split; [done|]. simpl in *. rewrite orb_false_r. intros Ht. rewrite (Hs Ht). apply agree_refl. }
  clear HE.
  apply (arr_component_ok (domain_size (z_pkt init)) (range_size (z_pkt init)) z_pkt)
    in Hp as [Hps Hpe]; [|intros s Hs; apply (so_pkt _ _ (so_arrays _ _ Hs))].
  apply maps_ok in Hm as [Hms Hme]. pose proof (bss_ok _ Hb) as Hbs.
  apply (bv_component_ok (size (z_pkt_len init)) z_pkt_len) in Hl as [Hls Hle];
    [|intros s Hs; apply (so_len _ _ (so_arrays _ _ Hs))].
  apply (bv_component_ok (size (z_rx_index init)) z_rx_index) in Hr as [Hrs Hre];
    [|intros s Hs; apply (so_rx _ _ Hs)].
  split; [split; [split|]|intros Ht; split]; try done; try (intros k; by apply Hbs);
    [exact (Hpe Ht)|exact (Hme Ht)|exact (Hle Ht)|exact (Hre Ht)].
Qed.
End merged.

(** Something is merged whenever there is something to merge. *)
Lemma merge_component_total {A} (same : A → A → bool) ite (pairs : list (guard * A)) :
  pairs ≠ [] → ∃ t, _merge_component same ite pairs = Ok t.
Proof.
  intros Hne. unfold _merge_component. cbv zeta.
  assert (∀ g t (gs : list (guard * A)), add_group same g t gs ≠ []) as Hadd
    by (intros g t [|[og ot] gs]; simpl; [done|by destruct (same ot t)]).
  assert (∀ ps (gs : list (guard * A)), ps ≠ [] ∨ gs ≠ [] →
    fold_left (λ gs gt, add_group same gt.1 gt.2 gs) ps gs ≠ []) as Hf.
  { induction ps as [|[g t] ps IH]; intros gs Hgs; simpl; [naive_solver|]. apply IH. right. apply Hadd. }
  destruct (fold_left _ pairs []) as [|[g t] gs _] eqn:E using rev_ind; [by destruct (Hf pairs []); [left|]|].
  rewrite rev_app_distr. simpl. eauto.
Qed.

Lemma mapR_ok {A B} (f : A → res B) l : (∀ x, x ∈ l → ∃ y, f x = Ok y) → ∃ l', mapR f l = Ok l'.
Proof.
  induction l as [|x l IH]; intros Hf; simpl; [eauto|].
  destruct (Hf x ltac:(left)) as [y ->]. simpl.
  destruct IH as [l' ->]; [intros z Hz; apply Hf; by right|]. simpl. eauto.
Qed.

Lemma merge_sigma_total init contribs : contribs ≠ [] →
  Forall (λ gs, sorts_like init gs.2) contribs → ∃ sigma, _merge_sigma contribs init = Ok sigma.
Proof.
  intros Hne Hso. unfold _merge_sigma.
  assert (∀ A (same : A → A → bool) ite (f : guard * Z3State → guard * A),
    ∃ t, _merge_component same ite (map f contribs) = Ok t) as Hc
    by (intros; apply merge_component_total; by destruct contribs).
  destruct (mapR_ok (merge_map_cell contribs) (zrange 0 (Z.of_nat (length (z_map init))))) as [nm Hm].
  { intros i Hi. unfold merge_map_cell. unfold zrange in Hi. apply elem_of_seqZ in Hi.
    destruct (mapR_ok (λ gs : guard * Z3State, c ← py_index (z_map gs.2) i; Ok (gs.1, c)) contribs)
      as [cells Hcs].
    - intros gs Hgs. rewrite Forall_forall in Hso. pose proof (so_map _ _ (so_arrays _ _ (Hso _ Hgs))) as F.
      apply Forall2_length in F.
      destruct (lookup_lt_is_Some_2 (z_map gs.2) (Z.to_nat i)) as [c Hl]; [lia|].
      rewrite (py_index_at _ _ c) by (done || lia). simpl. eauto.
    - rewrite Hcs. simpl. assert (cells ≠ []) as Hcn.
      { apply mapR_Forall2 in Hcs. by destruct Hcs. }
      destruct (merge_component_total same_parr IfPArr (map (λ gc, (gc.1, gc.2.1)) cells)) as [p ->];
        [by destruct cells|]. simpl.
      destruct (merge_component_total same_arr IfArr (map (λ gc, (gc.1, gc.2.2)) cells)) as [a ->];
        [by destruct cells|]. simpl. eauto. }
  destruct (mapR_ok (λ k, a ← _merge_component same_arr IfArr
    (map (λ gs, (gs.1, _bss_of gs.2 k)) contribs); Ok (k, a)) (bss_keys contribs)) as [nb Hb].
  { intros k _. destruct (Hc _ same_arr IfArr (λ gs, (gs.1, _bss_of gs.2 k))) as [a ->]. simpl. eauto. }
  destruct (Hc _ same_arr IfArr (λ gs, (gs.1, z_pkt gs.2))) as [pk Hp].
  destruct (Hc _ same_bv IfBV (λ gs, (gs.1, z_pkt_len gs.2))) as [pl Hl].
  destruct (Hc _ same_bv IfBV (λ gs, (gs.1, z_rx_index gs.2))) as [rx Hr].
  destruct contribs as [|[g s] [|gs' l]]; [done|eauto|].
  rewrite Hp, Hm, Hb, Hl, Hr. simpl. eauto.
Qed.

(** Merging the states of the predecessors gives a state whenever there is one
    to merge; it has the sorts of the initial one, and in a model where the edge from
    one of them is the only one taken, it agrees with that predecessor's state
    on the packet and its length, on every map, on the static data and on the
    queue register, whatever the others hold. *)
Theorem merge_sigma_sound init s0 contribs :
  contribs ≠ [] → Forall (λ gs, sorts_like init gs.2) contribs →
  ∃ sigma, _merge_sigma contribs init = Ok sigma ∧
    (Forall (λ gs, evg m gs.1 = true → gs.2 = s0) contribs →
     sorts_like init sigma ∧ (existsb (λ gs, evg m gs.1) contribs = true → agree sigma s0)).
Proof.
  intros Hne Hso. destruct (merge_sigma_total init contribs Hne Hso) as [sigma HE].
  exists sigma. split; [done|]. intros Ht. by apply (merge_sigma_ok init s0 contribs).
Qed.
End states.
