(* ===== verification/ForwardSound.v ===== *)
(** The walk of the forward analysis is the program's execution seen from all
    paths at once ([verify/forward.py]): the reach condition of a block is true in a
    model exactly when the model's path leads there, and the state the block
    starts from is, in that model, the state its predecessor on the path ended
    with. *)

From stdpp Require Import sorting.
From S2P Require Import Prelude Constants Smt SmtTerm Expr Record Link Encode Action Bits.
From S2P Require Import EncodeSound ActionSound ReachSound PruneSound TopoSound Block Prune Slice Spec Forward ForwardMerge.

(** ** The sorts of the memory *)

Section sorts.
Context `{HL : SMTLaws} (init : Z3State).
Implicit Types (st : Z3State).

Lemma arrays_same st st' : z_pkt st' = z_pkt st → z_map st' = z_map st →
  z_pkt_len st' = z_pkt_len st → z_bss st' = z_bss st → arrays_like init st → arrays_like init st'.
Proof.
  intros Hp Hm Hl Hb [P M L B]. split; rewrite ?Hp, ?Hm, ?Hl; try done.
  intros k. specialize (B k). unfold _bss_of in *. by rewrite Hb.
Qed.

(** A cell of the maps replaced by one of the same sort. *)
Lemma arrays_set_map st i p a p' a' l : arrays_like init st → py_index (z_map st) i = Ok (p, a) →
  py_setitem (z_map st) i (p', a') = Ok l →
  domain_size a' = domain_size a → range_size a' = range_size a →
  arrays_like init (set_map l st).
Proof.
  intros [P M L B] Hi Hs Hd Hr. split; try done. simpl.
  unfold py_index in Hi. unfold py_setitem in Hs. cbv zeta in *.
  set (n := Z.of_nat (length (z_map st))) in *. set (j := if i <? 0 then i + n else i) in *.
  destruct (_ || _); [done|]. apply of_option_Ok in Hi. injection Hs as <-.
  destruct (Forall2_lookup_l _ _ _ _ _ M Hi) as (c0 & Hc0 & H1 & H2). simpl in *.
  rewrite <- (list_insert_id _ _ _ Hc0). apply Forall2_insert; [done|]. simpl. by rewrite Hd, Hr.
Qed.

Lemma arrays_map_store st i key v mark st' : arrays_like init st →
  _map_store st i key v mark = Ok st' → arrays_like init st'.
Proof.
  intros Ha HE. unfold _map_store in HE. apply bind_Ok in HE as ([p a] & Hi & HE).
  apply bind_Ok in HE as (l & Hl & [= <-]).
  eapply arrays_set_map; [done..| |]; [by rewrite domain_Store|by rewrite range_Store].
Qed.

Lemma arrays_bss st key arr : arrays_like init st →
  domain_size arr = BSS_ADDR_BITS → range_size arr = 8 →
  arrays_like init (set_bss (pset (z_bss st) key arr) st).
Proof.
  intros [P M L B] Hd Hr. split; try done. intros k. unfold _bss_of. simpl. rewrite pget_pset.
  case_decide; [done|]. apply B.
Qed.

Lemma arrays_bss_write st key off sz v var_off st' : arrays_like init st →
  bss_write_z3 st key off sz v var_off = Ok st' → arrays_like init st'.
Proof.
  intros Ha HE. unfold bss_write_z3 in HE. destruct key; [|by injection HE as <-]. res_inv.
  match goal with |- context [store_bytes ?x ?b ?w ?n ?v] =>
    destruct (store_bytes_dims x b w n v) as [D R] end.
  apply arrays_bss; [done|rewrite D|rewrite R]; apply (so_bss _ _ Ha).
Qed.

Lemma arrays_adjust st i d : arrays_like init st → arrays_like init (adjust_len_z3 st i d).
Proof.
  intros [P M L B]. unfold adjust_len_z3.
  set (sh := bvsub _ _). assert (size sh = size (z_pkt_len st)) as Hsh.
  { unfold sh. rewrite size_bvsub; [done|]. rewrite size_BitVecVal; [done|apply size_pos]. }
  destruct (_ <? 0); split; try done; simpl; [|rewrite size_IfBV by done]; congruence.
Qed.

Lemma arrays_on_map m st f st' : arrays_like init st → on_map m st f = Ok st' →
  (∀ i, f i = Ok st' → arrays_like init st') → arrays_like init st'.
Proof.
  intros Ha HE Hf. unfold on_map in HE. destruct m as [i|]; [|by injection HE as <-].
  destruct (i <? 0); [by injection HE as <-|]. by apply (Hf i).
Qed.

(** No action changes a sort, the queue register apart. *)
Lemma action_arrays st a st' : arrays_like init st → action_to_z3 st a = Ok st' →
  arrays_like init st'.
Proof.
  intros Ha HE. unfold action_to_z3 in HE.
  destruct (a_kind a); try (injection HE as <-; exact Ha);
    try (injection HE as <-; by apply arrays_adjust); try (by eapply arrays_bss_write);
    try (apply (arrays_on_map _ _ _ _ Ha HE); clear HE; intros i HE).
  - res_inv. revert Ha. by apply arrays_same.
  - unfold pkt_write_z3 in HE. res_inv. destruct Ha as [P M L B]. split; try done. simpl.
    match goal with |- context [store_bytes ?x ?b ?w ?n ?v] =>
      destruct (store_bytes_dims x b w n v) as [-> ->] end. done.
  - unfold map_write_z3 in HE. apply bind_Ok in HE as (k & _ & HE).
    apply bind_Ok in HE as ([p ar] & _ & HE). apply bind_Ok in HE as (v & _ & HE).
    apply bind_Ok in HE as (nv & _ & HE). by eapply arrays_map_store.
  - unfold map_atomic_z3 in HE. apply bind_Ok in HE as (k & _ & HE).
    apply bind_Ok in HE as ([p ar] & _ & HE). apply bind_Ok in HE as (nv & _ & HE).
    by eapply arrays_map_store.
  - unfold map_update_z3 in HE. apply bind_Ok in HE as (k & _ & HE).
    apply bind_Ok in HE as (v & _ & HE). apply bind_Ok in HE as ([p ar] & Hi & HE).
    apply bind_Ok in HE as (pr & _ & HE). destruct (update_applies _ _ _) as [[]|ok].
    + by eapply arrays_map_store.
    + by injection HE as <-.
    + apply bind_Ok in HE as (l & Hl & [= <-]).
      eapply arrays_set_map; [done..| |]; [by rewrite domain_Store|by rewrite range_Store].
  - unfold map_delete_z3 in HE. destruct (negb _); [by injection HE as <-|].
    apply bind_Ok in HE as (k & _ & HE). apply bind_Ok in HE as ([p ar] & Hi & HE).
    apply bind_Ok in HE as (l & Hl & [= <-]). by eapply arrays_set_map.
  - res_inv. revert Ha. by apply arrays_same.
Qed.
End sorts.

(** ** The edges taken *)

Section walk.
Context `{HL : SMTLaws} `{!SameTerm} `{!SameTermLaws} (m : model) (e : fenv).
Implicit Types (c : fctx) (b p : Z).

(** The machine leaves [p] for [b]: the recorded guard of that edge is true. *)
Definition edge_taken c p b : Prop := 0 <= p ∧ ∃ pi s, pget (c_info c) p = Some pi ∧
  e_blocks e !! Z.to_nat p = Some s ∧
  (succ_t s = Some b ∧ evg m (fi_taken pi) = true ∨ succ_f s = Some b ∧ evg m (fi_fall pi) = true).

(** [p] is reached and the machine goes on to [b]. *)
Definition comes_from c p b : Prop :=
  edge_taken c p b ∧ ∃ pi, pget (c_info c) p = Some pi ∧ evg m (fi_reach pi) = true.

Lemma contribs_of_ok c b p l : 0 <= p → contribs_of e c b p = Ok l →
  Forall (λ gs, ∃ pi, pget (c_info c) p = Some pi ∧ gs.2 = fi_sigma pi ∧
                      (evg m gs.1 = true → comes_from c p b)) l ∧
  (existsb (λ gs, evg m gs.1) l = true ↔ comes_from c p b).
Proof.
  intros Hp0 HE. unfold contribs_of in HE. unfold comes_from, edge_taken.
  destruct (pget (c_info c) p) as [pi|] eqn:Ep; [|injection HE as <-; naive_solver].
  destruct (is_False (fi_reach pi)) eqn:Ef.
  { injection HE as <-. split; [done|]. split; [done|].
    intros [_ (? & [= <-] & Hr)]. by rewrite (evg_False m _ Ef) in Hr. }
  apply bind_Ok in HE as (s & Hs & [= <-]). apply py_index_Ok in Hs; [|done].
  set (ent := λ (succ : option Z) (eg : guard),
    if bool_decide (succ = Some b) then
      if is_False (_and (fi_reach pi) eg) then []
      else [(_and (fi_reach pi) eg, fi_sigma pi)] else []).
  assert (∀ succ eg, Forall (λ gs : guard * Z3State, gs.2 = fi_sigma pi ∧
      (evg m gs.1 = true → succ = Some b ∧ evg m eg = true ∧ evg m (fi_reach pi) = true)) (ent succ eg)
    ∧ (existsb (λ gs : guard * Z3State, evg m gs.1) (ent succ eg) = true ↔
       succ = Some b ∧ evg m eg = true ∧ evg m (fi_reach pi) = true)) as Hent.
  { intros succ eg. unfold ent. case_bool_decide; [|split; [constructor|simpl; naive_solver]].
    destruct (is_False (_and (fi_reach pi) eg)) eqn:Efa.
    - apply (evg_False m) in Efa. rewrite evg_and in Efa. split; [constructor|]. simpl.
      split; [done|]. intros (_ & He & Hr). by rewrite He, Hr in Efa.
    - split.
      + constructor; [|constructor]. simpl. rewrite evg_and, andb_true_iff. naive_solver.
      + simpl. rewrite evg_and, orb_false_r, andb_true_iff. naive_solver. }
  destruct (Hent (succ_t s) (fi_taken pi)) as [F1 X1], (Hent (succ_f s) (fi_fall pi)) as [F2 X2].
  change (Forall (λ gs, ∃ pi0, Some pi = Some pi0 ∧ gs.2 = fi_sigma pi0 ∧ (evg m gs.1 = true →
    (0 <= p ∧ ∃ pi1 s, Some pi = Some pi1 ∧ e_blocks e !! Z.to_nat p = Some s ∧
      (succ_t s = Some b ∧ evg m (fi_taken pi1) = true
       ∨ succ_f s = Some b ∧ evg m (fi_fall pi1) = true)) ∧
    ∃ pi1, Some pi = Some pi1 ∧ evg m (fi_reach pi1) = true))
      (ent (succ_t s) (fi_taken pi) ++ ent (succ_f s) (fi_fall pi)) ∧
    (existsb (λ gs, evg m gs.1) (ent (succ_t s) (fi_taken pi) ++ ent (succ_f s) (fi_fall pi)) = true ↔
     (0 <= p ∧ ∃ pi1 s, Some pi = Some pi1 ∧ e_blocks e !! Z.to_nat p = Some s ∧
      (succ_t s = Some b ∧ evg m (fi_taken pi1) = true
       ∨ succ_f s = Some b ∧ evg m (fi_fall pi1) = true)) ∧
     ∃ pi1, Some pi = Some pi1 ∧ evg m (fi_reach pi1) = true)).
  rewrite existsb_app, orb_true_iff, X1, X2. split; [|naive_solver].
  apply Forall_app. split; (eapply Forall_impl; [eassumption|]); intros gs [Hs2 Hg];
    exists pi; (split; [done|]); (split; [done|]); intros Ht; destruct (Hg Ht) as (? & ? & ?);
    naive_solver.
Qed.

(** The sorts of every recorded state. *)
Definition info_sorts c : Prop := ∀ p pi, pget (c_info c) p = Some pi →
  sorts_like (e_init e) (fi_sigma pi).

(** The contributions of all predecessors. *)
Lemma contribs_ok c b ps ls : (∀ p, p ∈ ps → 0 <= p) → mapR (contribs_of e c b) ps = Ok ls →
  Forall (λ gs, ∃ p pi, p ∈ ps ∧ pget (c_info c) p = Some pi ∧ gs.2 = fi_sigma pi ∧
                        (evg m gs.1 = true → comes_from c p b)) (mjoin ls) ∧
  (existsb (λ gs, evg m gs.1) (mjoin ls) = true ↔ ∃ p, p ∈ ps ∧ comes_from c p b).
Proof.
  revert ls. induction ps as [|p ps IH]; intros ls Hp0 HE; simpl in HE.
  { injection HE as <-. split; [constructor|]. simpl. split; [done|].
    intros (p & Hp & _). by apply elem_of_nil in Hp. }
  apply bind_Ok in HE as (l & Hl & HE). apply bind_Ok in HE as (ls' & Hls & [= <-]).
  destruct (contribs_of_ok _ _ _ _ (Hp0 p ltac:(left)) Hl) as [F1 X1].
  destruct (IH ls' ltac:(intros q Hq; apply Hp0; by right) Hls) as [F2 X2].
  change (mjoin (l :: ls')) with (l ++ mjoin ls'). split.
  - apply Forall_app. split; (eapply Forall_impl; [eassumption|]).
    + intros gs (pi & ? & ? & ?). exists p, pi. split_and!; [left|done..].
    + intros gs (q & pi & ? & ? & ? & ?). exists q, pi. split_and!; [by right|done..].
  - rewrite existsb_app, orb_true_iff, X1, X2. split.
    + intros [Hc | (q & Hq & Hc)]; [exists p; split; [left|done]|exists q; split; [by right|done]].
    + intros (q & [-> | Hq]%elem_of_cons & Hc); [by left|right; eauto].
Qed.

(** Where a block starts: reached when some predecessor comes to it, in that
    predecessor's state when it is the only one. *)
Lemma entry_ok c b s r sigma : b ≠ 0 → (∀ p, p ∈ preds s → 0 <= p) →
  info_sorts c → (∀ p q, comes_from c p b → comes_from c q b → p = q) →
  sorts_like (e_init e) (e_init e) → entry_of e c b s = Ok (r, sigma) →
  (evg m r = true ↔ ∃ p, p ∈ preds s ∧ comes_from c p b) ∧ sorts_like (e_init e) sigma ∧
  ∀ p pi, p ∈ preds s → comes_from c p b → pget (c_info c) p = Some pi →
    agree m sigma (fi_sigma pi).
Proof.
  intros Hb Hp0 Hi Hu Hinit HE. unfold entry_of in HE. rewrite (proj2 (Z.eqb_neq b 0) Hb) in HE.
  apply bind_Ok in HE as (ls & Hls & HE). apply bind_Ok in HE as (sg & Hsg & [= <- <-]).
  assert (∀ p, p ∈ merge_sort Z.le (remove_dups (preds s)) ↔ p ∈ preds s) as Hps
    by (intros p; by rewrite merge_sort_Permutation, elem_of_remove_dups).
  destruct (contribs_ok _ _ _ _ ltac:(intros p Hp; apply Hp0, Hps, Hp) Hls) as [HF HX].
  assert (evg m (_or_all (map fst (mjoin ls))) = existsb (λ gs, evg m gs.1) (mjoin ls)) as Hor.
  { rewrite evg_or_all. generalize (mjoin ls). intros l. induction l as [|x l IH]; [done|].
    simpl. by rewrite IH. }
  setoid_rewrite Hps in HX. split; [by rewrite Hor|].
  assert (Forall (λ gs, sorts_like (e_init e) gs.2) (mjoin ls)) as Hsl.
  { eapply Forall_impl; [exact HF|]. intros gs (p & pi & _ & Hp & -> & _). by eapply Hi. }
  assert (∀ s0, Forall (λ gs, evg m gs.1 = true → gs.2 = s0) (mjoin ls) →
    sorts_like (e_init e) sg ∧ (existsb (λ gs, evg m gs.1) (mjoin ls) = true → agree m sg s0)) as HM.
  { intros s0 Hs0. destruct (mjoin ls) as [|x l] eqn:El; [by injection Hsg as <-|].
    by apply (merge_sigma_ok m (e_init e) s0 (x :: l)). }
  assert (∀ p pi, comes_from c p b → pget (c_info c) p = Some pi →
    Forall (λ gs, evg m gs.1 = true → gs.2 = fi_sigma pi) (mjoin ls)) as HT.
  { intros p pi Hc Hpi. eapply Forall_impl; [exact HF|].
    intros gs (q & qi & Hq & Hqi & -> & Hg) Ht. rewrite (Hu q p (Hg Ht) Hc) in Hqi. by simplify_eq. }
  split.
  - destruct (existsb (λ gs, evg m gs.1) (mjoin ls)) eqn:Ex.
    + destruct (proj1 HX eq_refl) as (p & _ & Hc). pose proof Hc as [_ (pi & Hpi & _)].
      by destruct (HM _ (HT p pi Hc Hpi)).
    + destruct (HM (e_init e)) as [? _]; [|done]. apply Forall_forall. intros gs Hgs Ht. exfalso.
      assert (existsb (λ gs, evg m gs.1) (mjoin ls) = true) as Ex'; [|congruence].
      apply existsb_exists. exists gs. split; [by apply list_elem_of_In|done].
  - intros p pi Hp Hc Hpi. apply (HM _ (HT p pi Hc Hpi)), HX. eauto.
Qed.
(** ** One block *)

(** Context writes are at most as wide as the queue register. *)
Definition narrow_ctx (blocks : list Block) (init : Z3State) : Prop :=
  size (z_rx_index init) = 64 ∧
  ∀ s a v st t, s ∈ blocks → a ∈ actions s → a_kind a = CtxWrite v →
    expr_z3 st v = Ok t → size t <= 64.

Lemma action_rx st a st' : (∀ v t, a_kind a = CtxWrite v → expr_z3 st v = Ok t → size t <= 64) →
  size (z_rx_index st) = 64 → action_to_z3 st a = Ok st' → size (z_rx_index st') = 64.
Proof.
  intros Hv Hs HE. unfold action_to_z3 in HE.
  assert (∀ mid f, on_map mid st f = Ok st' → (∀ i, f i = Ok st' → size (z_rx_index st') = 64) →
    size (z_rx_index st') = 64) as Hon.
  { intros mid f Ho Hf. unfold on_map in Ho. destruct mid as [i|]; [|by injection Ho as <-].
    destruct (i <? 0); [by injection Ho as <-|]. by apply (Hf i). }
  assert (∀ i k v mk, _map_store st i k v mk = Ok st' → size (z_rx_index st') = 64) as Hstore.
  { intros i k v mk Hm. unfold _map_store in Hm. res_inv. destruct v0. by res_inv. }
  destruct (a_kind a) eqn:Ek; try (injection HE as <-; exact Hs);
    try (apply (Hon _ _ HE); clear HE; intros i HE).
  - by res_inv.
  - unfold pkt_write_z3 in HE. by res_inv.
  - unfold map_write_z3 in HE. apply bind_Ok in HE as (k & _ & HE).
    apply bind_Ok in HE as ([p ar] & _ & HE). apply bind_Ok in HE as (v & _ & HE).
    apply bind_Ok in HE as (nv & _ & HE). by eapply Hstore.
  - unfold map_atomic_z3 in HE. apply bind_Ok in HE as (k & _ & HE).
    apply bind_Ok in HE as ([p ar] & _ & HE). apply bind_Ok in HE as (nv & _ & HE). by eapply Hstore.
  - unfold map_update_z3 in HE. apply bind_Ok in HE as (k & _ & HE).
    apply bind_Ok in HE as (v & _ & HE). apply bind_Ok in HE as ([p ar] & Hi & HE).
    apply bind_Ok in HE as (pr & _ & HE). destruct (update_applies _ _ _) as [[]|ok].
    + by eapply Hstore.
    + by injection HE as <-.
    + by apply bind_Ok in HE as (l & Hl & [= <-]).
  - unfold map_delete_z3 in HE. destruct (negb _); [by injection HE as <-|].
    apply bind_Ok in HE as (k & _ & HE). apply bind_Ok in HE as ([p ar] & Hi & HE).
    by apply bind_Ok in HE as (l & Hl & [= <-]).
  - unfold bss_write_z3 in HE. destruct bss_key; [|by injection HE as <-]. by res_inv.
  - unfold bss_write_z3 in HE. destruct bss_key; [|by injection HE as <-]. by res_inv.
  - injection HE as <-. unfold adjust_len_z3. by destruct (_ <? 0).
  - injection HE as <-. unfold adjust_len_z3. by destruct (_ <? 0).
  - apply bind_Ok in HE as (t & Ht & [= <-]). simpl. unfold widen64. rewrite widen_size.
    specialize (Hv _ _ eq_refl Ht). lia.
Qed.

(** The items of a block keep the record of the blocks and the sorts. *)
Lemma item_step_ok b c sigma i c' sigma' :
  (∀ a v st t, i = IAct a → a_kind a = CtxWrite v → expr_z3 st v = Ok t → size t <= 64) →
  size (z_rx_index (e_init e)) = 64 → sorts_like (e_init e) sigma →
  item_step e b (c, sigma) i = Ok (c', sigma') →
  c_info c' = c_info c ∧ sorts_like (e_init e) sigma'.
Proof.
  intros Hn Hrx [Ha Hr] HE. destruct i as [v|a]; simpl in HE.
  - destruct (_ || _); [by injection HE as <- <-|]. apply bind_Ok in HE as (c1 & Hc & [= <- <-]).
    split; [|done]. destruct (e_resolve e); by apply bind_Ok in Hc as (t & _ & [= <-]).
  - assert (c_info (note_lookup a sigma c) = c_info c) as Hl
      by (unfold note_lookup; by destruct (a_kind a)).
    destruct (skip_region _ _); [injection HE as <- <-; by split|].
    apply bind_Ok in HE as (sg & Hsg & [= <- <-]). split; [done|]. split.
    + eapply action_arrays; [|exact Hsg]. revert Ha. by apply arrays_same.
    + rewrite Hrx. refine (action_rx _ a sg _ _ Hsg); [intros; by eapply Hn|simpl; congruence].
Qed.

Lemma block_items_act s items a : block_items s = Ok items → IAct a ∈ items → a ∈ actions s.
Proof.
  intros HE Hin. unfold block_items in HE. apply bind_Ok in HE as (l & Hl & [= <-]).
  assert (∀ k i l x, x ∈ insert_item k i l ↔ x = (k, i) ∨ x ∈ l) as Hins.
  { clear. intros k i l x. induction l as [|y l IH]; simpl.
    - rewrite list_elem_of_singleton, elem_of_nil. tauto.
    - destruct (key_le _ _); rewrite !elem_of_cons, ?IH; tauto. }
  apply list_elem_of_In, in_map_iff in Hin as ([k i] & [= ->] & Hin).
  apply list_elem_of_In in Hin.
  assert (IAct a ∈ map ISrc (filter (λ s, is_join s = false) (sources s)) ++ map IAct (actions s))
    as Hx.
  { revert Hl Hin. apply (foldR_ind _ (λ pre l, (k, IAct a) ∈ l → IAct a ∈ pre)).
    - by intros ?%elem_of_nil.
    - intros pre i l1 l2 _ IH HE Hi. apply bind_Ok in HE as (k' & _ & [= <-]).
      apply Hins in Hi as [[= _ ->] | Hi]; rewrite elem_of_app; [right; left|left; auto]. }
  apply elem_of_app in Hx as [Hx | Hx]; apply list_elem_of_In, in_map_iff in Hx as (y & Hy & Hx);
    [done|]. injection Hy as ->. by apply list_elem_of_In.
Qed.
(** ** The whole walk *)

(** A block was run from a state that agrees, in the model, with the state the
    block the machine came from ended with; its items and its branch were encoded
    from there. *)
Definition started c b (fi : ForwardInfo) : Prop := ∃ s c0 c1 sigma0 items,
  e_blocks e !! Z.to_nat b = Some s ∧ block_items s = Ok items ∧
  foldR (item_step e b) (c0, sigma0) items = Ok (c1, fi_sigma fi) ∧
  branch_step e c1 (fi_sigma fi) b s = Ok (fi_taken fi, fi_fall fi, fi_imprecise fi) ∧
  (b = 0 → sigma0 = e_init e) ∧
  (b ≠ 0 → ∀ p pi, comes_from c p b → pget (c_info c) p = Some pi → agree m sigma0 (fi_sigma pi)).

(** The guards of a branch exclude each other. *)
Definition branches c : Prop := ∀ b fi s, pget (c_info c) b = Some fi →
  e_blocks e !! Z.to_nat b = Some s → branch s = true →
  evg m (fi_fall fi) = negb (evg m (fi_taken fi)).

Record walked (pre : list Z) c : Prop := {
  w_dom : ∀ b, is_Some (pget (c_info c) b) ↔ b ∈ pre;
  w_sorts : info_sorts c;
  w_branch : branches c;
  w_reach : ∀ b fi, pget (c_info c) b = Some fi →
    evg m (fi_reach fi) = true ↔ rtc (edge_taken c) 0 b;
  w_start : ∀ b fi, pget (c_info c) b = Some fi → started c b fi
}.

(** What the walk relies on: an order of the blocks in which edges point forward,
    predecessors that mirror the edges, one successor where there is no branch. *)
Record walkable (order : list Z) : Prop := {
  wk_nodup : NoDup order;
  wk_nonneg : ∀ b, b ∈ order → 0 <= b;
  wk_forward : ∀ O1 O2 x y, order = O1 ++ x :: O2 → edge_to (e_blocks e) x y → y ∈ order → y ∈ O2;
  wk_preds : ∀ b s p, 0 <= b → e_blocks e !! Z.to_nat b = Some s →
    p ∈ preds s ↔ edge_to (e_blocks e) p b;
  wk_single : ∀ s, s ∈ e_blocks e → branch s = false → succ_t s = None ∨ succ_f s = None;
  wk_ctx : narrow_ctx (e_blocks e) (e_init e);
  wk_init : sorts_like (e_init e) (e_init e)
}.

Section inv.
Context (order : list Z).
Hypothesis Hwk : walkable order.

Lemma edge_taken_to c p b : edge_taken c p b → edge_to (e_blocks e) p b.
Proof.
  intros (Hp & pi & s & _ & Hs & Hor). split; [done|]. exists s. split; [done|].
  apply elem_successors. naive_solver.
Qed.

Lemma edge_taken_det c p x y : branches c → edge_taken c p x → edge_taken c p y → x = y.
Proof.
  intros Hb (Hp & pi & s & Hpi & Hs & Hx) (_ & pi' & s' & Hpi' & Hs' & Hy). simplify_eq.
  destruct (branch s) eqn:Eb.
  - pose proof (Hb _ _ _ Hpi Hs Eb) as Hbr.
    destruct Hx as [[Hx Tx] | [Hx Tx]], Hy as [[Hy Ty] | [Hy Ty]]; simplify_eq; try done;
      rewrite ?Tx, ?Ty in Hbr; done.
  - destruct (wk_single _ Hwk s) as [Hn | Hn]; [by eapply list_elem_of_lookup_2|done| |];
      naive_solver.
Qed.

Lemma det_linear {A} (R : relation A) (x p q : A) : (∀ u v w : A, R u v → R u w → v = w) →
  rtc R x p → rtc R x q → rtc R p q ∨ rtc R q p.
Proof.
  intros Hdet Hp. revert q. induction Hp as [x|x y p Hxy Hp IH]; intros q Hq; [by left|].
  inversion Hq as [|? y' ? Hxy' Hq']; subst; [right; by eapply rtc_l|].
  rewrite (Hdet _ _ _ Hxy' Hxy) in Hq'. by apply IH.
Qed.

(** One predecessor at most leads to a block not yet placed. *)
Lemma unique_from pre c b p q : walked pre c → b ∉ pre → comes_from c p b → comes_from c q b → p = q.
Proof.
  intros [Hdom _ Hbr Hr _] Hb [Hp (pi & Hpi & Rp)] [Hq (qi & Hqi & Rq)].
  apply (Hr _ _ Hpi) in Rp. apply (Hr _ _ Hqi) in Rq.
  assert (∀ x y, edge_taken c x b → rtc (edge_taken c) x y → y ∈ pre → x = y) as H1.
  { intros x y Hx Hxy Hy. apply rtc_inv in Hxy as [? | (z & Hxz & Hzy)]; [done|]. exfalso.
    rewrite (edge_taken_det c x z b Hbr Hxz Hx) in Hzy. apply Hb.
    apply rtc_inv in Hzy as [-> | (w & Hbw & _)]; [done|].
    apply Hdom. destruct Hbw as (_ & bi & s & Hbi & _). eauto. }
  destruct (det_linear _ 0 p q (λ x y z, edge_taken_det c x y z Hbr) Rp Rq) as [Hpq | Hqp].
  - apply (H1 p q); [done..|]. apply Hdom. eauto.
  - symmetry. apply (H1 q p); [done..|]. apply Hdom. eauto.
Qed.

(** Adding a block leaves the edges into the blocks placed as they are. *)
Lemma edge_taken_add pre b post c c' fi x y : order = pre ++ b :: post →
  c_info c' = pset (c_info c) b fi → y ∈ pre ++ [b] → edge_taken c' x y ↔ edge_taken c x y.
Proof.
  intros Ho Hc Hy.
  assert (∀ d, edge_taken d x y → x ≠ b) as Hx.
  { intros d Hd ->. apply edge_taken_to in Hd.
    pose proof (wk_nodup _ Hwk) as Hnd. rewrite Ho in Hnd.
    assert (y ∈ post) as Hp.
    { eapply (wk_forward _ Hwk pre post); [done|exact Hd|].
      rewrite Ho, (cons_middle b pre post), app_assoc. apply elem_of_app. by left. }
    rewrite (cons_middle b pre post), app_assoc in Hnd. apply NoDup_app in Hnd as (_ & Hd' & _).
    by apply (Hd' y). }
  split; intros He; pose proof (Hx _ He) as Hn; destruct He as (Hx0 & pi & s & Hpi & Hrest);
    (split; [done|]); exists pi, s; (split; [|done]).
  - rewrite Hc, pget_pset in Hpi. by case_decide.
  - rewrite Hc, pget_pset. by case_decide.
Qed.

Lemma rtc_add pre b post c c' fi y : order = pre ++ b :: post →
  (∀ x, is_Some (pget (c_info c) x) ↔ x ∈ pre) →
  c_info c' = pset (c_info c) b fi → y ∈ pre ++ [b] →
  rtc (edge_taken c') 0 y ↔ rtc (edge_taken c) 0 y.
Proof.
  intros Ho Hdom Hc Hy.
  assert (∀ d x z, (∀ u, is_Some (pget (c_info c) u) → u ∈ pre ++ [b]) → edge_taken c x z →
    rtc (edge_taken d) 0 x → x ∈ pre ++ [b]) as Hin
    by (intros d x z Hu (_ & pi & s & Hpi & _) _; apply Hu; eauto).
  assert (∀ u, is_Some (pget (c_info c) u) → u ∈ pre ++ [b]) as Hu
    by (intros u Hx; apply elem_of_app; left; by apply Hdom).
  split; intros Hr; revert Hy.
  - refine (rtc_ind_r (λ z, z ∈ pre ++ [b] → rtc (edge_taken c) 0 z) 0 _ _ y Hr);
      [intros _; apply rtc_refl|].
    intros x z H0x Hxz IH Hz. apply (edge_taken_add _ _ _ _ _ _ x z Ho Hc Hz) in Hxz.
    eapply rtc_r; [|exact Hxz]. by eapply IH, Hin.
  - refine (rtc_ind_r (λ z, z ∈ pre ++ [b] → rtc (edge_taken c') 0 z) 0 _ _ y Hr);
      [intros _; apply rtc_refl|].
    intros x z H0x Hxz IH Hz. eapply rtc_r; [by eapply IH, Hin|].
    by apply (edge_taken_add _ _ _ _ _ _ x z Ho Hc Hz).
Qed.

Lemma branch_step_ok c sigma b s t f i : branch_step e c sigma b s = Ok (t, f, i) →
  branch s = true → evg m f = negb (evg m t).
Proof.
  unfold branch_step. intros HE Hb. rewrite Hb in HE. destruct (e_prune e).
  - by apply (branch_guards_sound (reads_at e c sigma) m) in HE as [_ ?].
  - unfold _branch_guards_unpruned in HE. destruct (cond s); res_inv; apply evb_Not.
Qed.

Lemma items_ok b s items c sigma c' sigma' : e_blocks e !! Z.to_nat b = Some s →
  block_items s = Ok items → sorts_like (e_init e) sigma →
  foldR (item_step e b) (c, sigma) items = Ok (c', sigma') →
  c_info c' = c_info c ∧ sorts_like (e_init e) sigma'.
Proof.
  intros Hs Hi Hsig. destruct (wk_ctx _ Hwk) as [Hrx Hn].
  intros HF. refine (foldR_ind _ (λ _ st, c_info st.1 = c_info c ∧ sorts_like (e_init e) st.2)
    (c, sigma) items (c', sigma') _ _ HF); [done|].
  intros pre i [c1 s1] [c2 s2] Hin [IH1 IH2] HE. simpl in *.
  apply item_step_ok in HE as [H1 H2]; [by rewrite H1, IH1| |done..].
  intros a v st t -> Ha Ht. eapply Hn; [by eapply list_elem_of_lookup_2| |done|done].
  eapply block_items_act; [done|]. destruct Hin as [suf ->]. rewrite !elem_of_app. left. right. left.
Qed.

(** The entry of the block the walk is at. *)
Lemma entry_reach pre b s r sigma c : walked pre c → 0 <= b → b ∉ pre →
  e_blocks e !! Z.to_nat b = Some s → entry_of e c b s = Ok (r, sigma) →
  (evg m r = true ↔ rtc (edge_taken c) 0 b) ∧ sorts_like (e_init e) sigma ∧
  (b = 0 → sigma = e_init e) ∧
  (b ≠ 0 → ∀ p pi, comes_from c p b → pget (c_info c) p = Some pi → agree m sigma (fi_sigma pi)).
Proof.
  intros Hw Hb0 Hb Hs HE. destruct (decide (b = 0)) as [-> | Hn].
  - injection HE as <- <-. split_and!; [by split|apply (wk_init _ Hwk)|done|done].
  - assert (∀ p, comes_from c p b → p ∈ preds s) as Hps.
    { intros p [He _]. apply (wk_preds _ Hwk _ _ _ Hb0 Hs). by eapply edge_taken_to. }
    apply entry_ok in HE as (Hr & Hso & Hag); [| done | | apply Hw | | apply (wk_init _ Hwk)].
    + split_and!; [|done|done|].
      * rewrite Hr. split.
        -- intros (p & _ & [He (pi & Hpi & Hev)]). eapply rtc_r; [|exact He].
           by apply (w_reach _ _ Hw _ _ Hpi).
        -- intros Hrtc. apply rtc_inv_r in Hrtc as [? | (p & H0p & Hpb)]; [done|].
           pose proof Hpb as (_ & pi & s' & Hpi & _).
           assert (comes_from c p b) as Hc
             by (split; [done|exists pi; split; [done|by apply (w_reach _ _ Hw _ _ Hpi)]]).
           exists p. split; [by apply Hps|done].
      * intros _ p pi Hc Hpi. eapply Hag; eauto.
    + intros p Hp. by apply (wk_preds _ Hwk _ _ _ Hb0 Hs) in Hp as [? _].
    + intros p q. by eapply unique_from.
Qed.

(** What came into a placed block before still does, and nothing else does. *)
Lemma comes_from_add pre b post c c' fi x y : order = pre ++ b :: post → b ∉ pre →
  (∀ x, is_Some (pget (c_info c) x) ↔ x ∈ pre) → c_info c' = pset (c_info c) b fi →
  y ∈ pre ++ [b] → comes_from c' x y →
  comes_from c x y ∧ pget (c_info c') x = pget (c_info c) x.
Proof.
  intros Ho Hb Hdom Hc Hy [He (pi & Hpi & Hr)].
  apply (edge_taken_add _ _ _ _ _ _ x y Ho Hc Hy) in He.
  assert (x ≠ b) as Hn.
  { intros ->. apply Hb, Hdom. destruct He as (_ & ? & ? & ? & _). eauto. }
  rewrite Hc, pget_pset, decide_False in Hpi |- * by congruence.
  split; [|done]. split; [done|]. eauto.
Qed.

Lemma walk_block_ok pre b post c c' : order = pre ++ b :: post → walked pre c →
  walk_block e c b = Ok c' → walked (pre ++ [b]) c'.
Proof.
  intros Ho Hw HE.
  assert (0 <= b) as Hb0 by (apply (wk_nonneg _ Hwk); rewrite Ho; apply elem_of_app; right; left).
  assert (b ∉ pre) as Hb.
  { pose proof (wk_nodup _ Hwk) as Hnd. rewrite Ho in Hnd. apply NoDup_app in Hnd as (_ & Hd & _).
    intros Hin. apply (Hd _ Hin). left. }
  unfold walk_block in HE. apply bind_Ok in HE as (s & Hs & HE).
  apply bind_Ok in HE as ([r sigma0] & Hent & HE). apply bind_Ok in HE as (items & Hit & HE).
  apply bind_Ok in HE as ([c1 sigma] & HF & HE). apply bind_Ok in HE as ([[t f] i] & HB & HE).
  injection HE as HE. apply py_index_Ok in Hs; [|done].
  destruct (entry_reach _ _ _ _ _ _ Hw Hb0 Hb Hs Hent) as (Hr & Hso & Hz & Hag).
  destruct (items_ok _ _ _ _ _ _ _ Hs Hit Hso HF) as [Hci Hso'].
  change (c_info (set_cur (Some (b, r, sigma0)) c)) with (c_info c) in Hci.
  set (fi := mk_fi r t f sigma i) in *.
  assert (c_info c' = pset (c_info c) b fi) as Hc by (subst c'; simpl; by rewrite Hci).
  pose proof (w_dom _ _ Hw) as Hdom. clear HE.
  assert (b ∈ pre ++ [b]) as Hbin by (apply elem_of_app; right; left).
  split.
  - intros x. rewrite Hc, pget_pset, elem_of_app, list_elem_of_singleton. case_decide; [naive_solver|].
    rewrite Hdom. naive_solver.
  - intros x xi. rewrite Hc, pget_pset. case_decide; [by intros [= <-]|]. apply (w_sorts _ _ Hw).
  - intros x xi s'. rewrite Hc, pget_pset. case_decide; [|by apply (w_branch _ _ Hw)].
    subst x. intros [= <-] Hs' Hbr. rewrite Hs in Hs'. injection Hs' as <-. by eapply branch_step_ok.
  - intros x xi. rewrite Hc, pget_pset. case_decide as Hx.
    + subst x. intros [= <-]. simpl. by rewrite Hr, (rtc_add _ _ _ _ _ _ b Ho Hdom Hc Hbin).
    + intros Hxi. assert (x ∈ pre ++ [b]) as Hin by (apply elem_of_app; left; apply Hdom; eauto).
      by rewrite (w_reach _ _ Hw _ _ Hxi), (rtc_add _ _ _ _ _ _ x Ho Hdom Hc Hin).
  - intros x xi. rewrite Hc, pget_pset. case_decide as Hx.
    + subst x. intros [= <-]. exists s, (set_cur (Some (b, r, sigma0)) c), c1, sigma0, items.
      split_and!; [done..|]. intros Hn p pi Hp. 
      destruct (comes_from_add _ _ _ _ _ _ _ _ Ho Hb Hdom Hc Hbin Hp) as [Hp' Heq].
      rewrite Heq. by apply Hag.
    + intros Hxi. assert (x ∈ pre ++ [b]) as Hin by (apply elem_of_app; left; apply Hdom; eauto).
      destruct (w_start _ _ Hw _ _ Hxi) as (s' & c0' & c1' & sg & it & H1 & H2 & H3 & H4 & H5 & H6).
      exists s', c0', c1', sg, it. split_and!; [done..|]. intros Hn p pi Hp.
      destruct (comes_from_add _ _ _ _ _ _ _ _ Ho Hb Hdom Hc Hin Hp) as [Hp' Heq].
      rewrite Heq. by apply H6.
Qed.

Lemma walk_ok pre post c c' : order = pre ++ post → walked pre c → foldR (walk_block e) c post = Ok c' →
  walked order c'.
Proof.
  revert pre c. induction post as [|b post IH]; intros pre c Ho Hw HE; simpl in HE.
  - injection HE as <-. rewrite app_nil_r in Ho. by rewrite Ho.
  - apply bind_Ok in HE as (c1 & H1 & HE). eapply (IH (pre ++ [b])); [|by eapply walk_block_ok|done].
    by rewrite <- app_assoc.
Qed.
End inv.
End walk.

(** ** The slice *)

(** Every block of the slice is reached from the entry inside it. *)
Lemma block_slice_ok blocks live targets sl : (0 < length blocks)%nat →
  (∀ b, b ∈ live ↔ in_range blocks b = true ∧ rtc (edge_to blocks) 0 b) →
  (∀ b s p, 0 <= b → blocks !! Z.to_nat b = Some s → p ∈ preds s ↔ edge_to blocks p b) →
  _block_slice blocks live targets = Ok sl →
  0 ∈ sl ∧ ∀ b, b ∈ sl → b ∈ live ∧ rtc (live_edge blocks sl) 0 b.
Proof.
  intros Hlen Hlive Hpreds HE.
  assert (0 ∈ live) as H0 by (apply Hlive; split; [unfold in_range; lia|done]).
  assert (∀ (L : gset Z) (R : Z → Z → Prop) t b, (∀ x y, R x y → y ∈ live) →
    (∀ x y, x ∈ live → y ∈ live → edge_to blocks y x → R x y) → (∀ x, rtc R t x → x ∈ L) →
    rtc R t b → b ∈ live → rtc (live_edge blocks L) 0 b) as Hback.
  { intros L R t b HR1 HR2 HL Hb Hbl. pose proof (proj1 (Hlive b) Hbl) as [_ Hr]. revert Hbl Hb.
    refine (rtc_ind_r (λ b, b ∈ live → rtc R t b → rtc (live_edge blocks L) 0 b) 0 _ _ b Hr); [done|].
    intros y x Hy Hyx IH Hx Hrx.
    assert (y ∈ live) as Hyl by (apply Hlive; split; [by eapply edge_to_range|done]).
    assert (rtc R t y) as Hry by (eapply rtc_r; [exact Hrx|by apply HR2]).
    eapply rtc_r; [by apply IH|]. split; [done|by apply HL]. }
  destruct targets as [ts|]; simpl in HE.
  2: { injection HE as <-. split; [done|]. intros b Hb. split; [done|].
    apply (Hback live (λ x y, y ∈ live ∧ edge_to blocks y x) b b); try done;
      [by intros x y [? _]|].
    intros x Hx. by destruct (rtc_inv_r _ _ Hx) as [<- | (z & _ & Hz & _)]. }
  apply (foldR_ind _ (λ _ keep, 0 ∈ keep ∧ ∀ b, b ∈ keep → b ∈ live ∧ rtc (live_edge blocks keep) 0 b))
    in HE; [done| |].
  { split; [set_solver|]. intros b ->%elem_of_singleton. split; [done|apply rtc_refl]. }
  intros _ t keep keep' _ [IH0 IH] HS. case_bool_decide as Ht; [|by injection HS as <-].
  apply bind_Ok in HS as (s & Hs & [= <-]).
  destruct (slice_to_spec blocks live t) as (s' & Hs' & Hsl);
    [by intros b [? _]%Hlive|by apply Hlive in Ht as [? _]|].
  rewrite Hs in Hs'. injection Hs' as <-. split; [set_solver|].
  intros b [Hb | Hb]%elem_of_union.
  - destruct (IH b Hb) as [Hbl Hr]. split; [done|]. revert Hr. apply rtc_subrel.
    intros x y [? ?]. split; [done|set_solver].
  - apply Hsl in Hb as Hr.
    assert (b ∈ live) as Hbl.
    { apply rtc_inv_r in Hr as [<- | (z & _ & Hz & _)]; done. }
    split; [done|]. eapply (Hback (keep ∪ s)); [| | |exact Hr|done].
    + by intros x y [? _].
    + intros x y Hx Hy Hyx. split; [done|].
      apply Hlive in Hx as [Hx _]. apply in_range_lookup in Hx as [Hx0 [sx Hsx]].
      exists sx. split; [done|]. by apply (Hpreds x sx y Hx0 Hsx).
    + intros x Hx. apply elem_of_union. right. by apply Hsl.
Qed.

Section sound.
Context `{HL : SMTLaws} `{!SameTerm} `{!SameTermLaws}.

(** What the analysis is run on: blocks whose predecessors mirror their edges, with
    one successor where there is no branch, and a well-sorted initial state. *)
Record analysable (blocks : list Block) (init : Z3State) : Prop := {
  an_entry : (0 < length blocks)%nat;
  an_preds : ∀ b s p, 0 <= b → blocks !! Z.to_nat b = Some s → p ∈ preds s ↔ edge_to blocks p b;
  an_single : ∀ s, s ∈ blocks → branch s = false → succ_t s = None ∨ succ_f s = None;
  an_ctx : narrow_ctx blocks init;
  an_init : sorts_like init init
}.

(** The context was made by a walk over an order of the slice. *)
Lemma forward_walked m blocks init targets conds prune resolve hybrid depth e c :
  analysable blocks init →
  ForwardContext blocks init targets conds prune resolve hybrid depth = Ok (e, c) →
  e_blocks e = blocks ∧ e_init e = init ∧
  ∃ order, walkable e order ∧ walked m e order c ∧
    (∀ b, b ∈ order ↔ b ∈ e_slice e) ∧ (∀ b, b ∈ order → in_range blocks b = true) ∧ 0 ∈ order ∧
    ancestors blocks order = Ok (e_anc e) ∧ c_cur c = None.
Proof.
  intros [Hlen Hpreds Hone Hctx Hinit] HE. unfold ForwardContext in HE.
  destruct (forward_reachable_run blocks) as (live & Hl & Hlive). rewrite Hl in HE. simpl in HE.
  apply bind_Ok in HE as (sl & Hsl & HE). apply bind_Ok in HE as (rel & _ & HE).
  apply bind_Ok in HE as (order & HO & HE). apply bind_Ok in HE as (anc & Hanc & HE).
  apply bind_Ok in HE as (bs & _ & HE). apply bind_Ok in HE as (c1 & HW & HE).
  set (e1 := mk_fenv _ _ _ _ _ _ _ _ _ _) in HE, HW. injection HE as <- <-.
  split; [done|]. split; [done|].
  destruct (block_slice_ok _ _ _ _ Hlen Hlive Hpreds Hsl) as [H0s Hs].
  assert (∀ b, b ∈ sl → in_range blocks b = true) as Hrange
    by (intros b Hb; apply Hs in Hb as [Hb _]; by apply Hlive in Hb as [? _]).
  destruct (topo_order_run blocks sl Hrange H0s) as [(order' & HO' & Hnd & Hel & Hfw) | [Hcy _]];
    [by intros b [_ ?]%Hs| |by rewrite HO in Hcy].
  rewrite HO in HO'. injection HO' as <-.
  assert (walkable e1 order) as Hwk.
  { split; try done.
    - intros b Hb. apply Hel, Hrange, in_range_lookup in Hb as [? _]. done.
    - intros O1 O2 x y Ho Hxy Hy. eapply Hfw; [exact Ho|]. split; [done|by apply Hel]. }
  unfold _walk in HW.
  assert (walked m e1 [] no_ctx) as Hw0.
  { split; try done. intros x. simpl. rewrite elem_of_nil. split; [by intros [? ?]|done]. }
  exists order. split; [done|]. split.
  - destruct (walk_ok m e1 order Hwk [] order no_ctx c1 eq_refl Hw0 HW) as [Hd Hi Hb Hr Hst]. by split.
  - split; [done|]. split; [intros b Hb; by apply Hrange, Hel|]. split; [by apply Hel|done].
Qed.

(** C4 The forward analysis runs every path at once: in a model, the reach
    condition recorded for a block is true exactly when the edges whose guards
    are true lead there from the entry; exactly the blocks of the slice are
    recorded; the guards of a branch exclude each other; and every block was
    encoded from a state that agrees, in that model, with the one the block the
    path came from ended with (the initial state, at the entry). *)
Theorem forward_reach m blocks init targets conds prune resolve hybrid depth e c :
  analysable blocks init →
  ForwardContext blocks init targets conds prune resolve hybrid depth = Ok (e, c) →
  e_blocks e = blocks ∧ e_init e = init ∧
  ∀ b, (is_Some (pget (c_info c) b) ↔ b ∈ e_slice e) ∧
    ∀ fi, pget (c_info c) b = Some fi →
      (evg m (fi_reach fi) = true ↔ rtc (edge_taken m e c) 0 b) ∧
      (∀ s, blocks !! Z.to_nat b = Some s → branch s = true →
         evg m (fi_fall fi) = negb (evg m (fi_taken fi))) ∧
      started m e c b fi.
Proof.
  intros Han HE.
  destruct (forward_walked m _ _ _ _ _ _ _ _ _ _ Han HE) as (He & Hi & order & _ & Hw & Hel & _ & _).
  split; [done|]. split; [done|]. intros b. destruct Hw as [Hd _ Hb Hr Hst].
  split; [rewrite <- Hel; apply Hd|]. intros fi Hfi. split; [by apply Hr|]. split; [|by apply Hst].
  intros s Hs Hbr. apply (Hb b fi s); [done|by rewrite He|done].
Qed.

(** C5 The states of the analysis are typed by the initial one: the packet, every map,
    every global, the packet's length and the receive queue keep their sorts. Each
    action of the program takes a state of those sorts to one of those sorts, and so
    the state recorded at the end of every block of the slice has them, merges and
    pruned writes included. *)
Theorem forward_typed (m : model) blocks init targets conds prune resolve hybrid depth e c :
  analysable blocks init →
  ForwardContext blocks init targets conds prune resolve hybrid depth = Ok (e, c) →
  (∀ s a st st', s ∈ blocks → a ∈ actions s → sorts_like init st → action_to_z3 st a = Ok st' → sorts_like init st') ∧
  ∀ b, b ∈ e_slice e → ∃ fi, pget (c_info c) b = Some fi ∧ sorts_like init (fi_sigma fi).
Proof.
  intros Han HE. split.
  - intros s a st st' Hs Ha [Harr Hrx] Hact. destruct (an_ctx _ _ Han) as [H64 Hnarrow]. split.
    + by eapply action_arrays.
    + rewrite H64 in Hrx |- *. eapply action_rx; [|exact Hrx|exact Hact]. intros v t Hk Ht. by eapply Hnarrow.
  - intros b Hb. destruct (forward_walked m _ _ _ _ _ _ _ _ _ _ Han HE) as (_ & Hi & order & _ & Hw & Hel & _).
    apply Hel, (w_dom _ _ _ _ Hw) in Hb as [fi Hfi]. exists fi. split; [done|]. rewrite <- Hi. by apply (w_sorts _ _ _ _ Hw b).
Qed.
End sound.
