(* ===== verification/ForwardExamples.v ===== *)
(** The forward analysis on concrete programs. *)

From S2P Require Import Prelude Constants Smt SmtTerm Expr Record Link Encode Action Bits.
From S2P Require Import EncodeSound Block CfgSound Prune PruneSound Slice Spec ReachSound.
From S2P Require Import Forward ForwardMerge ForwardSound.

(** Terms told apart by their variables only. *)
#[local] Instance ex_same : @SameTerm z3 := {|
  same_bv := λ x y, match x, y with TVar n w, TVar n' w' => bool_decide (n = n' ∧ w = w') | _, _ => false end;
  same_arr := λ _ _, false;
  same_parr := λ _ _, false
|}.
#[local] Instance ex_same_laws : SameTermLaws.
Proof. split; try done. intros [] []; simpl; try done. intros [-> ->]%bool_decide_eq_true. done. Qed.

(** Two ways in, with 7 and with 9 in the first byte of the packet. *)
Definition ex_pkt_is (n : Z) : Z3State :=
  set_pkt (@Store z3 (z_pkt ex_st) (TVal 0 16) (TVal n 8)) ex_st.
Definition ex_contribs : contribs_t :=
  [(@GTm z3 (BVar "c"), ex_pkt_is 7); (@GTm z3 (BNot (BVar "c")), ex_pkt_is 9)].

Lemma ex_pkt_sorts n : sorts_like ex_st (ex_pkt_is n).
Proof. split; [split|]; try done. by repeat constructor. Qed.

Lemma ex_st_sorts : sorts_like ex_st ex_st.
Proof. split; [split|]; try done. by repeat constructor. Qed.

Lemma merge_sigma_sound_witness : ∃ sigma, _merge_sigma ex_contribs ex_st = Ok sigma ∧
  eva ex_model (z_pkt sigma) 0 = 7.
Proof.
  destruct (@merge_sigma_sound z3 z3_laws ex_same ex_same_laws ex_model ex_st (ex_pkt_is 7) ex_contribs)
    as (sigma & Hs & Ha).
  - done.
  - repeat constructor; simpl; apply ex_pkt_sorts.
  - exists sigma. split; [exact Hs|].
    destruct Ha as [_ Ha].
    + constructor; [intros _; reflexivity|]. constructor; [intros Hc; discriminate Hc|constructor].
    + rewrite (ag_pkt _ _ _ (Ha eq_refl) 0). vm_compute. reflexivity.
Defined.

(** A diamond: block 0 branches to 2 or 1, block 1 falls to 2. *)
Definition ex_forward := ForwardContext ex_blocks ex_st None [] true true false 0.
Definition ex_not_taken : tmodel :=
  {| m_bv := λ _, 0; m_bool := λ _, false; m_arr := λ _ i, i; m_parr := λ _ _, true |}.

Definition ex_open (b : Z) (fall : bool) : bool :=
  match ex_forward with
  | Ok (_, c) => match pget (c_info c) b with
                 | Some fi => evg ex_not_taken (if fall then fi_fall fi else fi_reach fi)
                 | None => false
                 end
  | Err _ => false
  end.

Lemma ex_open_edge e c b s t : ex_forward = Ok (e, c) → e_blocks e = ex_blocks → 0 <= b →
  ex_open b true = true → ex_blocks !! Z.to_nat b = Some s → succ_f s = Some t →
  edge_taken ex_not_taken e c b t.
Proof.
  intros HE He Hb Ho Hs Ht. unfold ex_open in Ho. rewrite HE in Ho.
  destruct (pget (c_info c) b) as [fi|] eqn:Ef; [|discriminate Ho].
  split; [exact Hb|]. exists fi, s. rewrite He. auto.
Qed.

Lemma ex_narrow : narrow_ctx ex_blocks ex_st.
Proof.
  split; [reflexivity|]. intros s a v st t Hs Ha _ _. exfalso. revert Ha.
  assert (Forall (λ s, actions s = []) ex_blocks) as HF by (vm_compute; by repeat constructor).
  rewrite Forall_forall in HF. rewrite (HF s Hs). apply not_elem_of_nil.
Qed.

Lemma ex_analysable : analysable ex_blocks ex_st.
Proof.
  split.
  - vm_compute. lia.
  - apply ex_preds.
  - assert (Forall (λ s, branch s = false → succ_t s = None ∨ succ_f s = None) ex_blocks) as HF
      by (vm_compute; repeat constructor; intros; (discriminate || auto)).
    rewrite Forall_forall in HF. exact HF.
  - apply ex_narrow.
  - apply ex_st_sorts.
Qed.

Lemma forward_typed_witness : ∃ e c fi, ex_forward = Ok (e, c) ∧ pget (c_info c) 2 = Some fi ∧
  sorts_like ex_st (fi_sigma fi).
Proof.
  assert (match ex_forward with Ok (e, _) => bool_decide (2 ∈ e_slice e) | Err _ => false end = true) as Hok
    by (vm_compute; reflexivity).
  destruct ex_forward as [[e c]|] eqn:HE; [|discriminate Hok].
  destruct (@forward_typed z3 z3_laws ex_same ex_same_laws ex_not_taken ex_blocks ex_st None []
    true true false 0 e c ex_analysable HE) as (_ & Hb).
  destruct (Hb 2 (bool_decide_eq_true_1 _ Hok)) as (fi & Hfi & Hs).
  exists e, c, fi. split; [reflexivity|]. split; [exact Hfi|exact Hs].
Defined.

Lemma forward_reach_witness : ∃ e c fi, ex_forward = Ok (e, c) ∧ pget (c_info c) 2 = Some fi ∧
  evg ex_not_taken (fi_reach fi) = true.
Proof.
  assert (match ex_forward with Ok _ => true | Err _ => false end = true) as Hok
    by (vm_compute; reflexivity).
  destruct ex_forward as [[e c]|] eqn:HE; [|discriminate Hok].
  destruct (@forward_reach z3 z3_laws ex_same ex_same_laws ex_not_taken ex_blocks ex_st None []
    true true false 0 e c) as (He & _ & Hb).
  - apply ex_analysable.
  - exact HE.
  - assert (is_Some (pget (c_info c) 2)) as [fi Hfi].
    { apply Hb.
      assert (match ex_forward with Ok (e, _) => bool_decide (2 ∈ e_slice e) | Err _ => false end = true)
        as Hsl by (vm_compute; reflexivity).
      rewrite HE in Hsl. exact (bool_decide_eq_true_1 _ Hsl). }
    exists e, c, fi. split; [reflexivity|]. split; [exact Hfi|]. apply (Hb 2). { exact Hfi. }
    destruct ex_blocks_eq as (b0 & b1 & b2 & Heq & (_ & H0 & _) & (_ & H1 & _) & _).
    eapply rtc_l; [|eapply rtc_once].
    + apply (ex_open_edge e c 0 b0 1 HE He); [lia|vm_compute; reflexivity|by rewrite Heq|exact H0].
    + apply (ex_open_edge e c 1 b1 2 HE He); [lia|vm_compute; reflexivity|by rewrite Heq|exact H1].
Defined.
