(* ===== verification/Witness.v ===== *)
(** Counterexamples: [verify/witness.py].

    A model the solver found is read back as the packet, the maps, the helper
    results and the context it starts from, the path it takes through the blocks
    and the atoms of the condition it makes false. [model.eval(t,
    model_completion=True)] is [ev] (a bit vector) or [evb] (a Boolean) of the
    [SMT] interface, which are total, so the [default] of [_as_long] is only used
    where a term is missing or could not be built. [failed_atoms] keeps the atoms,
    of which the code keeps the printed form ([_atom_str]). The pipeline view
    is in [Stages]; the lines of [Witness.render] are left out. *)

From S2P Require Import Prelude Constants Smt Expr Record Link Encode Action Block Prune Slice.
From S2P Require Import Spec Forward.

Section witness.
Context `{SMT} `{!SameTerm} (m : model).

(** [_as_long(model, term)] and [_eval_bool(model, term)]. *)
Definition _as_long (t : bv) : Z := ev m t.
Definition _eval_bool (g : guard) : bool := match g with GPy b => b | GTm c => evb m c end.

Definition DISPLAY_BYTES : Z := 128.

Definition _packet (init_st : Z3State) : list Z * Z :=
  let dom := domain_size (z_pkt init_st) in
  let total := _as_long (z_pkt_len init_st) in
  let total := Z.max 0 (Z.min total (2 ^ dom)) in
  let n := Z.min total DISPLAY_BYTES in
  (map (λ i, Z.land (_as_long (Select (z_pkt init_st) (BitVecVal i dom))) 0xFF) (zrange 0 n), total).

Definition _map_name (maps : list map_info) (map_id : Z) : string :=
  let own := "map" +:+ pretty map_id in
  match list_find (λ i, mi_id i = map_id) maps with
  | Some (_, i) => match mi_name i with
                   | Some n => if bool_decide (n = ""%string) then own else n
                   | None => own
                   end
  | None => own
  end.

(** [{name: {key: (present, value)}}]. *)
Definition map_table : Type := list (string * list (Z * (bool * Z))).

Definition note_entry (out : map_table) (name : string) (key : Z) (x : bool * Z) : map_table :=
  pset out name (pset (default [] (pget out name)) key x).

(** One recorded call of [_maps]. *)
Definition map_call (st init_st : Z3State) (maps : list map_info) (out : map_table)
    (r : action + val) : res map_table :=
  match r with
  | inl a =>
      match a_kind a with
      | MapLookup (Some map_id) key_expr _ =>
          if (map_id <? 0) || is_none key_expr then Ok out
          else match _map_key_z3 st (Some map_id) key_expr with
               | Err _ => Ok out
               | Ok key_z3 =>
                   let key := _as_long key_z3 in
                   '(p, a) ← py_index (z_map init_st) map_id;
                   Ok (note_entry out (_map_name maps map_id) key
                         (_eval_bool (GTm (PSelect p key_z3)), _as_long (Select a key_z3)))
               end
      | _ => Ok out
      end
  | inr _ => Ok out
  end.

Definition _maps (st init_st : Z3State) (maps : list map_info) (calls : call_index)
    : res map_table :=
  foldR (map_call st init_st maps) [] (map snd calls).

Definition helper_call (st : Z3State) (out : list (Z * Z * Z)) (r : action + val)
    : res (list (Z * Z * Z)) :=
  match r with
  | inr (VFunc o f) => t ← expr_z3 st (VFunc o f); Ok (pset out (fr_func f, fr_idx f) (_as_long t))
  | _ => Ok out
  end.

Definition _helpers (st : Z3State) (calls : call_index) : res (list (Z * Z * Z)) :=
  foldR (helper_call st) [] (map snd calls).

(** *** The path *)

(** [nxt]: where the model goes on from [s]. *)
Definition next_on_path (s : Block) (i : ForwardInfo) : option Z :=
  let fall := match succ_f s with
              | Some f => if _eval_bool (fi_fall i) then Some f else None
              | None => None
              end in
  match succ_t s with
  | Some t => if _eval_bool (fi_taken i) then Some t else fall
  | None => fall
  end.

(** [s.kind == 'exit']. *)
Definition is_exit (s : Block) : bool := match kind s with KExit => true | _ => false end.

(** Every turn adds a block to [seen], so there are at most [len(blocks)]. *)
Fixpoint path_loop (fuel : nat) (blocks : list Block) (info : list (Z * ForwardInfo))
    (stop_at : option Z) (seen : gset Z) (b : Z) : list Z :=
  match fuel with
  | O => []
  | S fuel' =>
      let s := if (0 <=? b) && (b <? Z.of_nat (length blocks)) then blocks !! Z.to_nat b else None in
      match pget info b, s with
      | Some i, Some s =>
          if is_exit s || bool_decide (stop_at = Some b) then []
          else match next_on_path s i with
               | None => []
               | Some nxt =>
                   if bool_decide (nxt ∈ seen) || negb (pmem info nxt) then []
                   else nxt :: path_loop fuel' blocks info stop_at ({[nxt]} ∪ seen) nxt
               end
      | _, _ => []
      end
  end.

Definition _path (blocks : list Block) (info : list (Z * ForwardInfo)) (stop_at : option Z)
    : list Z :=
  0 :: path_loop (S (length blocks)) blocks info stop_at {[0]} 0.

(** The leaves of the condition that are false; one that cannot be encoded is
    passed over. *)
Fixpoint _failed_atoms `{!Scapy} (st : Z3State) (node : CondNode) : list atom :=
  match node with
  | CLeaf a => match atom_to_z3 st a with
               | Ok t => if _eval_bool (GTm t) then [] else [a]
               | Err _ => []
               end
  | CNot c => _failed_atoms st c
  | CAnd l | COr l => mjoin (map (_failed_atoms st) l)
  end.

Record Witness := mk_witness {
  w_packet : list Z;
  w_pkt_len : Z;
  w_maps : map_table;
  w_helpers : list (Z * Z * Z);
  w_ctx : list (string * Z);
  w_path : list Z;
  w_failed_atoms : list atom;
  w_model : model;
  w_target : Z
}.

(** [build(model, ctx, block, cond, st)]. *)
Definition build `{!Scapy} (e : fenv) (calls : call_index) (c : fctx) (block : Z) (cond : CondNode)
    (st : Z3State) : res Witness :=
  let init := e_init e in
  let '(data, n) := _packet init in
  maps ← _maps (hooked_st e c) init (map_meta init) calls;
  helpers ← _helpers (hooked_st e c) calls;
  Ok (mk_witness data n maps helpers
        [("ingress_ifindex", _as_long (z_ingress init)); ("rx_queue_index", _as_long (z_rx_index init));
         ("egress_ifindex", _as_long (z_egress init))]%string
        (_path (e_blocks e) (c_info c) None) (_failed_atoms st cond) m block).
End witness.
