(* ===== verification/WitnessSound.v ===== *)
(** The counterexample tells the model's story ([verify/witness.py]): its path is the
    one the model takes, and its packet is the memory the model starts with. *)

From S2P Require Import Prelude Constants Smt SmtTerm Expr Record Link Encode Action Bits Block.
From S2P Require Import EncodeSound ReachSound Prune PruneSound Slice Spec Forward ForwardMerge ForwardSound.
From S2P Require Import Witness.

Section path.
Context `{HL : SMTLaws} `{!SameTerm} `{!SameTermLaws} (m : model) (e : fenv) (c : fctx).
Context (order : list Z).
Hypothesis Hwk : walkable e order.
Hypothesis Hw : walked m e order c.
Hypothesis Hrange : ∀ b, b ∈ order → in_range (e_blocks e) b = true.
Hypothesis Hexit : ∀ s, s ∈ e_blocks e → kind s = KExit → succ_t s = None ∧ succ_f s = None.

Lemma next_edge b s fi z : 0 <= b → e_blocks e !! Z.to_nat b = Some s →
  pget (c_info c) b = Some fi → next_on_path m s fi = Some z ↔ edge_taken m e c b z.
Proof.
  intros Hb Hs Hfi.
  assert (next_on_path m s fi = Some z → edge_taken m e c b z) as Hto.
  { unfold next_on_path. intros HN. split; [done|]. exists fi, s. split; [done|]. split; [done|].
    change (_eval_bool m (fi_taken fi)) with (evg m (fi_taken fi)) in HN.
    change (_eval_bool m (fi_fall fi)) with (evg m (fi_fall fi)) in HN.
    destruct (succ_t s), (succ_f s), (evg m (fi_taken fi)) eqn:?, (evg m (fi_fall fi)) eqn:?;
      simplify_eq; auto. }
  split; [done|]. intros He. pose proof He as (_ & fi' & s' & Hfi' & Hs' & Hor).
  rewrite Hfi in Hfi'. injection Hfi' as <-. rewrite Hs in Hs'. injection Hs' as <-.
  destruct (next_on_path m s fi) as [y|] eqn:HN.
  - f_equal. eapply (edge_taken_det m e order Hwk c b); [apply Hw| |done].
    unfold next_on_path in HN. split; [done|]. exists fi, s. split; [done|]. split; [done|].
    change (_eval_bool m (fi_taken fi)) with (evg m (fi_taken fi)) in HN.
    change (_eval_bool m (fi_fall fi)) with (evg m (fi_fall fi)) in HN.
    destruct (succ_t s), (succ_f s), (evg m (fi_taken fi)) eqn:?, (evg m (fi_fall fi)) eqn:?;
      simplify_eq; auto.
  - exfalso. unfold next_on_path in HN.
    change (_eval_bool m (fi_taken fi)) with (evg m (fi_taken fi)) in HN.
    change (_eval_bool m (fi_fall fi)) with (evg m (fi_fall fi)) in HN.
    destruct Hor as [[Hs1 Ht] | [Hs1 Ht]]; rewrite Hs1, Ht in HN; [done|].
    by destruct (succ_t s), (evg m (fi_taken fi)).
Qed.

(** One turn of the loop at a recorded block. *)
Lemma path_step fuel seen b O1 O2 : order = O1 ++ b :: O2 →
  (∀ x, x ∈ seen → x = b ∨ x ∈ O1) →
  (∃ z O3 O4, edge_taken m e c b z ∧ order = (O1 ++ b :: O3) ++ z :: O4 ∧
     path_loop m (S fuel) (e_blocks e) (c_info c) None seen b =
       z :: path_loop m fuel (e_blocks e) (c_info c) None ({[z]} ∪ seen) z) ∨
  path_loop m (S fuel) (e_blocks e) (c_info c) None seen b = [] ∧
  ∀ z, edge_taken m e c b z → is_Some (pget (c_info c) z) → False.
Proof.
  intros Ho Hseen. assert (b ∈ order) as Hb by (rewrite Ho; apply elem_of_app; right; left).
  pose proof (proj2 (w_dom _ _ _ _ Hw b) Hb) as [fi Hfi].
  pose proof (Hrange b Hb) as HR. pose proof HR as [Hb0 [s Hs]]%in_range_lookup.
  simpl. unfold in_range in HR. rewrite Hfi, HR, Hs, orb_false_r.
  destruct (is_exit s) eqn:Ex.
  { right. split; [done|]. intros z (_ & fi' & s' & _ & Hs' & Hor) _.
    rewrite Hs in Hs'. injection Hs' as <-.
    destruct (Hexit s) as [H1 H2]; [by eapply list_elem_of_lookup_2| |naive_solver].
    unfold is_exit in Ex. by destruct (kind s). }
  destruct (next_on_path m s fi) as [z|] eqn:HN.
  2:{ right. split; [done|]. intros z Hz _. by rewrite (proj2 (next_edge b s fi z Hb0 Hs Hfi) Hz) in HN. }
  apply (next_edge b s fi z Hb0 Hs Hfi) in HN.
  destruct (pmem (c_info c) z) eqn:Ep.
  2:{ right. rewrite orb_true_r. split; [done|]. intros y Hy Hin.
      rewrite (edge_taken_det m e order Hwk c b y z (w_branch _ _ _ _ Hw) Hy HN) in Hin.
      unfold pmem in Ep. by apply bool_decide_eq_false in Ep. }
  unfold pmem in Ep. apply bool_decide_eq_true, (w_dom _ _ _ _ Hw) in Ep.
  pose proof (wk_forward _ _ Hwk O1 O2 b z Ho (edge_taken_to _ _ _ _ _ HN) Ep) as Hz.
  apply list_elem_of_split in Hz as (O3 & O4 & ->).
  left. exists z, O3, O4. split; [done|].
  assert (order = (O1 ++ b :: O3) ++ z :: O4) as Ho' by (by rewrite Ho, <- app_assoc).
  split; [done|].
  assert (z ∉ seen) as Hns.
  { intros Hin%Hseen. pose proof (wk_nodup _ _ Hwk) as Hnd. rewrite Ho' in Hnd.
    apply NoDup_app in Hnd as (_ & Hd & _). apply (Hd z); [|left].
    apply elem_of_app. destruct Hin as [-> | ?]; [right; left|by left]. }
  by rewrite bool_decide_eq_false_2.
Qed.

Lemma path_loop_ok fuel seen b O1 O2 : order = O1 ++ b :: O2 → (length O2 < fuel)%nat →
  (∀ x, x ∈ seen → x = b ∨ x ∈ O1) →
  (∀ i x y, (b :: path_loop m fuel (e_blocks e) (c_info c) None seen b) !! i = Some x →
     path_loop m fuel (e_blocks e) (c_info c) None seen b !! i = Some y → edge_taken m e c x y) ∧
  ∀ t, is_Some (pget (c_info c) t) → rtc (edge_taken m e c) b t →
     t ∈ b :: path_loop m fuel (e_blocks e) (c_info c) None seen b.
Proof.
  revert seen b O1 O2. induction fuel as [|fuel IH]; intros seen b O1 O2 Ho Hf Hseen; [lia|].
  destruct (path_step fuel seen b O1 O2 Ho Hseen) as [(z & O3 & O4 & Hz & Ho' & ->) | [-> Hno]].
  - destruct (IH ({[z]} ∪ seen) z (O1 ++ b :: O3) O4 Ho') as [IH1 IH2].
    + rewrite Ho' in Ho. rewrite <- app_assoc in Ho. apply app_inv_head in Ho. simpl in Ho.
      injection Ho as Ho. rewrite <- Ho, length_app in Hf. simpl in Hf. lia.
    + intros x [->%elem_of_singleton | Hx%Hseen]%elem_of_union; [by left|]. right.
      apply elem_of_app. destruct Hx as [-> | ?]; [right; left|by left].
    + split.
      * intros [|i] x y; simpl; [by intros [= <-] [= <-]|]. apply IH1.
      * intros t Ht Hr. apply rtc_inv in Hr as [<- | (y & Hy & Hr)]; [left|]. right.
        rewrite (edge_taken_det m e order Hwk c b y z (w_branch _ _ _ _ Hw) Hy Hz) in Hr. by apply IH2.
  - split; [intros [|i] x y; simpl; done|].
    intros t Ht Hr. apply rtc_inv in Hr as [<- | (y & Hy & Hr)]; [left|]. exfalso.
    apply (Hno y Hy). apply rtc_inv in Hr as [-> | (z & (_ & ? & ? & ? & _) & _)]; [done|eauto].
Qed.

Lemma path_ok : 0 ∈ order →
  (∀ i x y, _path m (e_blocks e) (c_info c) None !! i = Some x →
     _path m (e_blocks e) (c_info c) None !! S i = Some y → edge_taken m e c x y) ∧
  ∀ b fi, pget (c_info c) b = Some fi →
    b ∈ _path m (e_blocks e) (c_info c) None ↔ evg m (fi_reach fi) = true.
Proof.
  intros H0in. pose proof H0in as (O1 & O2 & Ho)%list_elem_of_split.
  unfold _path. set (fuel := S (length (e_blocks e))).
  assert (length order ≤ length (e_blocks e))%nat as Hlen.
  { rewrite <- (length_seq (length (e_blocks e)) 0). rewrite <- (length_fmap Z.of_nat (seq _ _)).
    apply submseteq_length, NoDup_submseteq; [apply Hwk|].
    intros b Hb. apply Hrange in Hb. unfold in_range in Hb. apply list_elem_of_fmap.
    exists (Z.to_nat b). rewrite elem_of_seq. lia. }
  destruct (path_loop_ok fuel {[0]} 0 O1 O2 Ho) as [HE HT].
  - rewrite Ho, length_app in Hlen. simpl in Hlen. unfold fuel. lia.
  - intros x ->%elem_of_singleton. by left.
  - split; [intros i x y Hx Hy; by apply (HE i)|]. intros b fi Hfi.
    rewrite (w_reach _ _ _ _ Hw b fi Hfi). split; [|intros Hr; apply HT; eauto].
    intros [i Hi]%list_elem_of_lookup. clear Hfi. revert b Hi.
    induction i as [|i IH]; intros b Hi; [injection Hi as <-; apply rtc_refl|].
    destruct (lookup_lt_is_Some_2 (0 :: path_loop m fuel (e_blocks e) (c_info c) None {[0]} 0) i)
      as [x Hx]; [apply lookup_lt_Some in Hi; lia|].
    eapply rtc_r; [by apply IH|by apply (HE i)].
Qed.
End path.

(** ** The packet *)

Section packet.
Context `{HL : SMTLaws} (m : model) (init : Z3State).

Lemma packet_ok data n : range_size (z_pkt init) = 8 → _packet m init = (data, n) →
  n = Z.min (ev m (z_pkt_len init)) (2 ^ domain_size (z_pkt init)) ∧
  Z.of_nat (length data) = Z.min n 128 ∧
  ∀ i x, data !! i = Some x → x = eva m (z_pkt init) (Z.of_nat i).
Proof.
  intros Hr [= <- <-]. pose proof (domain_pos (z_pkt init)) as Hd.
  set (dom := domain_size (z_pkt init)) in *.
  pose proof (ev_range m (z_pkt_len init)) as Hl. unfold _as_long.
  assert (0 < 2 ^ dom) as Hp by lia.
  rewrite (Z.max_r 0) by lia. set (n := Z.min _ (2 ^ dom)). split; [done|].
  unfold zrange, DISPLAY_BYTES. rewrite length_map, length_seqZ. split; [lia|].
  intros i x Hi. change (map ?f ?l) with (f <$> l) in Hi. apply list_lookup_fmap_Some in Hi as (j & -> & Hj).
  apply lookup_seqZ in Hj as [-> Hlt]. rewrite Z.add_0_l.
  set (t := Select _ _). assert (size (BitVecVal (Z.of_nat i) dom) = dom) as Hs by (by apply size_BitVecVal).
  assert (ev m t = eva m (z_pkt init) (Z.of_nat i)) as <-.
  { unfold t. rewrite ev_Select, ev_BitVecVal by done. f_equal. apply Z.mod_small. lia. }
  pose proof (ev_range m t) as Ht. assert (size t = 8) as H8 by (unfold t; by rewrite size_Select).
  rewrite H8 in Ht.
  change 255 with (Z.ones 8). rewrite Z.land_ones by lia. apply Z.mod_small. lia.
Qed.
End packet.

(** ** The failed atoms *)

(** The leaves of a condition. *)
Fixpoint leaves (c : CondNode) : list atom :=
  match c with
  | CLeaf a => [a]
  | CNot c => leaves c
  | CAnd l | COr l => mjoin (map leaves l)
  end.

Section failed.
Context `{HL : SMTLaws} `{!Scapy} (m : model) (st : Z3State).

(** The atom is encoded by a formula false in the model. *)
Definition failed (a : atom) : Prop := ∃ t, atom_to_z3 st a = Ok t ∧ evb m t = false.

Lemma failed_list l a :
  Forall (λ c, a ∈ _failed_atoms m st c ↔ a ∈ leaves c ∧ failed a) l →
  a ∈ mjoin (map (_failed_atoms m st) l) ↔ a ∈ mjoin (map leaves l) ∧ failed a.
Proof.
  induction 1 as [|c l Hc _ IHl]; simpl; [rewrite elem_of_nil; tauto|].
  rewrite !elem_of_app, Hc, IHl. tauto.
Qed.

Lemma failed_ok : ∀ c a, a ∈ _failed_atoms m st c ↔ a ∈ leaves c ∧ failed a.
Proof.
  fix IH 1. intros [x|c|l|l] a; simpl; [|apply IH| |].
  - unfold failed. destruct (atom_to_z3 st x) as [t|] eqn:E.
    + destruct (evb m t) eqn:Et; rewrite ?elem_of_nil, ?list_elem_of_singleton.
      * split; [done|]. intros [-> (t' & Ht' & Hf)]. congruence.
      * split; [intros ->; eauto|by intros [-> _]].
    + rewrite elem_of_nil, list_elem_of_singleton. split; [done|]. by intros [-> (t & Ht & _)]; rewrite E in Ht.
  - apply failed_list. induction l as [|c l IHl]; constructor; [apply IH|exact IHl].
  - apply failed_list. induction l as [|c l IHl]; constructor; [apply IH|exact IHl].
Qed.
End failed.

(** ** The counterexample *)

(** Blocks that end the program have no successor. *)
Definition exits_end (blocks : list Block) : Prop :=
  ∀ s, s ∈ blocks → kind s = KExit → succ_t s = None ∧ succ_f s = None.

Section faithful.
Context `{HL : SMTLaws} `{!SameTerm} `{!SameTermLaws} `{!Scapy}.

Lemma build_path m blocks init targets conds prune resolve hybrid depth e c calls block cond st w :
  analysable blocks init → exits_end blocks →
  ForwardContext blocks init targets conds prune resolve hybrid depth = Ok (e, c) →
  build m e calls c block cond st = Ok w →
  w_model w = m ∧
  (∀ i x y, w_path w !! i = Some x → w_path w !! S i = Some y → edge_taken m e c x y) ∧
  ∀ b fi, pget (c_info c) b = Some fi → b ∈ w_path w ↔ evg m (fi_reach fi) = true.
Proof.
  intros Han Hex HE HB. unfold build in HB. destruct (_packet m (e_init e)).
  apply bind_Ok in HB as (mp & _ & HB). apply bind_Ok in HB as (hs & _ & [= <-]). simpl.
  destruct (forward_walked m _ _ _ _ _ _ _ _ _ _ Han HE) as (He & _ & order & Hwk & Hw & _ & Hr & H0' & _).
  split; [done|]. apply (path_ok m e c order Hwk Hw); [by rewrite He|by rewrite He|done].
Qed.

(** C6 A counterexample tells the story of its model: the path it shows follows
    the edges the model takes and visits exactly the blocks the model reaches,
    the packet bytes are those of the model's initial packet, cut to the length
    the model gives it and to the bytes displayed, and the atoms reported as
    failed are the leaves of the condition that are false in the model. *)
Theorem witness_faithful m blocks init targets conds prune resolve hybrid depth e c calls block cond st w :
  analysable blocks init → exits_end blocks → range_size (z_pkt init) = 8 →
  ForwardContext blocks init targets conds prune resolve hybrid depth = Ok (e, c) →
  build m e calls c block cond st = Ok w →
  (∀ i x y, w_path w !! i = Some x → w_path w !! S i = Some y → edge_taken m e c x y) ∧
  (∀ b fi, pget (c_info c) b = Some fi → b ∈ w_path w ↔ evg m (fi_reach fi) = true) ∧
  w_pkt_len w = Z.min (ev m (z_pkt_len init)) (2 ^ domain_size (z_pkt init)) ∧
  Z.of_nat (length (w_packet w)) = Z.min (w_pkt_len w) 128 ∧
  (∀ i x, w_packet w !! i = Some x → x = eva m (z_pkt init) (Z.of_nat i)) ∧
  ∀ a, a ∈ w_failed_atoms w ↔ a ∈ leaves cond ∧ failed m st a.
Proof.
  intros Han Hex H8 HE HB.
  destruct (build_path _ _ _ _ _ _ _ _ _ _ _ _ _ _ _ _ Han Hex HE HB) as (_ & HP1 & HP2).
  destruct (forward_walked m _ _ _ _ _ _ _ _ _ _ Han HE) as (_ & Hi & _).
  split; [done|]. split; [done|]. clear HP1 HP2. unfold build in HB. rewrite Hi in HB.
  destruct (_packet m init) as [data n] eqn:EP.
  apply bind_Ok in HB as (mp & _ & HB). apply bind_Ok in HB as (hs & _ & [= <-]). simpl.
  destruct (packet_ok m init data n H8 EP) as (? & ? & ?). split_and!; [done..|].
  intros a. apply failed_ok.
Qed.
End faithful.
