(* ===== verification/Checker.v ===== *)
(** The verdicts: [verify/checker.py], and the definitions of the unresolved reads it
    adds to a query ([ForwardContext.definitions] of [verify/forward.py]).

    The solver and the term graph it walks are the library's: a [Solver] answers a
    list of assertions, an [SmtAst] gives a term its identity and its children.
    [push], [add], [check] and [pop] leave the solver as it was, so a query is one
    call. The cache of [_vacuous] is passed along; the cache of [definitions] is
    left out. [render] and [report] only print. *)

From Stdlib Require Import String.
From stdpp Require Import sorting.
From S2P Require Import Prelude Constants Smt Expr Record Link Encode Action Block Prune Slice.
From S2P Require Import Spec Forward Witness.

(** *** Orders of [sorted] *)

Definition by_key {A} (x y : Z * A) : Prop := x.1 <= y.1.
#[export] Instance by_key_dec {A} : RelDecision (@by_key A) := λ x y, decide (x.1 <= y.1).
Definition str_le (x y : string) : Prop := String.leb x y = true.
#[export] Instance str_le_dec : RelDecision str_le := λ x y, decide (String.leb x y = true).

(** *** The solver library *)

Inductive answer `{SMT} := Sat (m : model) | Unsat | Unknown.

Class Solver `{SMT} := { check_sat : list bl → answer }.

Class SmtAst `{SMT} := {
  node : Type;
  node_bl : bl → node;
  node_bv : bv → node;
  get_id : node → Z;
  children : node → list node
}.

Section checker.
Context `{SMT} `{!SameTerm} `{!Solver} `{!SmtAst} `{!Scapy}.
(** The turns allowed to the loop over a term's graph. *)
Context (ast_fuel : nat).
Context (e : fenv) (calls : call_index).

(** *** Definitions of unresolved reads *)

Definition defs_t : Type := list (Z * (bv * bv)).

(** [self.defs]. *)
Definition defs_of (c : fctx) : defs_t :=
  fold_left (λ d vt, pset d (get_id (node_bv vt.1)) vt) (c_defs c) [].

Fixpoint closure_loop (fuel : nat) (defs out : defs_t) (seen : gset Z) (stack : list node)
    : res defs_t :=
  match stack with
  | [] => Ok out
  | x :: stack' =>
      match fuel with
      | O => Err out_of_fuel
      | S fuel' =>
          let eid := get_id x in
          if bool_decide (eid ∈ seen) then closure_loop fuel' defs out seen stack'
          else
            match pget defs eid with
            | Some d => closure_loop fuel' defs (pset out eid d) ({[eid]} ∪ seen)
                          (node_bv d.2 :: stack')
            | None => closure_loop fuel' defs out ({[eid]} ∪ seen) (rev (children x) ++ stack')
            end
      end
  end.

Definition _closure (defs : defs_t) (root : node) : res defs_t :=
  closure_loop ast_fuel defs [] ∅ [root].

Definition guard_root (g : guard) : list node :=
  match g with GPy _ => [] | GTm t => [node_bl t] end.

Definition definitions (c : fctx) (roots : list guard) : res (list bl) :=
  match c_defs c with
  | [] => Ok []
  | _ =>
      need ← foldR (λ need r, out ← _closure (defs_of c) r;
                              Ok (fold_left (λ d x, pset d x.1 x.2) out need))
               [] (mjoin (map guard_root roots));
      Ok (map (λ x, bveq x.2.1 x.2.2) need)
  end.

(** *** Queries *)

Definition _query (g body : guard) (c : fctx) : res guard :=
  let combined := _and g body in
  match combined with
  | GPy _ => Ok combined
  | GTm t => defs ← definitions c [g; body];
             Ok (match defs with [] => combined | _ => GTm (And (t :: defs)) end)
  end.

Definition _decide (g body : guard) (c : fctx) : res (bool * option model) :=
  combined ← _query g body c;
  match combined with
  | GPy false => Ok (false, None)
  | _ =>
      Ok (match check_sat (match combined with GTm t => [simplify t] | GPy _ => [] end) with
          | Sat m => (true, Some m)
          | _ => (false, None)
          end)
  end.

(** *** Results *)

Record CheckResult := mk_result {
  cr_name : string;
  cr_kind : string;
  cr_verdict : string;
  cr_detail : string;
  cr_witness : option Witness
}.

Definition _vacuous (c : fctx) (block : Z) (cache : list (Z * bool)) : res (bool * list (Z * bool)) :=
  match reach c block with
  | GPy b => Ok (negb b, cache)
  | r =>
      match pget cache block with
      | Some v => Ok (v, cache)
      | None => '(ok, _) ← _decide r (GPy true) c; Ok (negb ok, pset cache block (negb ok))
      end
  end.

(** The verdicts of an assertion [exists] and [for all]. *)
Definition verdict (all ok : bool) : string :=
  if all then (if ok then "holds" else "violated") else (if ok then "sat" else "unsat").

(** The body that is asked of the solver: the negation, for all. *)
Definition asked (all : bool) (body : guard) : guard := if all then _not body else body.

Definition witness_of (om : option model) (c : fctx) (block : Z) (cond : CondNode) (st : Z3State)
    : res (option Witness) :=
  match om with
  | None => Ok None
  | Some m => w ← build m e calls c block cond st; Ok (Some w)
  end.

Definition block_detail (c : fctx) (b : Z) (imprecise vacuous : bool) (notes : list string) : string :=
  ("block=" +:+ pretty b
   +:+ (if imprecise then " (imprecise: unrecorded branch condition)" else "")
   +:+ String.concat "" (map (λ n, " (UNMODELLED: " +:+ n +:+ ")") notes)
   +:+ (if vacuous then " (VACUOUS: block is unreachable under this input)" else ""))%string.

Definition check_block_condition (bc : BlockCondition) (c : fctx) (cache : list (Z * bool))
    : res (CheckResult * list (Z * bool)) :=
  let block := bc_block bc in
  let r := reach c block in
  match pget (c_info c) block, is_False r with
  | Some info, false =>
      body ← node_to_z3 (state_at e c block) (bc_cond bc);
      '(ok, om) ← _decide r (asked (bc_all bc) (GTm body)) c;
      let ok := if bc_all bc then negb ok else ok in
      notes ← dropped_effects e c block;
      '(vacuous, cache) ← (if Bool.eqb (bc_all bc) ok then _vacuous c block cache
                           else Ok (false, cache));
      w ← witness_of om c block (bc_cond bc) (state_at e c block);
      Ok (mk_result (bc_name bc) "block_condition" (verdict (bc_all bc) ok)
            (block_detail c block (fi_imprecise info) vacuous notes) w, cache)
  | _, _ =>
      Ok (mk_result (bc_name bc) "block_condition" (verdict (bc_all bc) (bc_all bc))
            ("block " +:+ pretty block +:+ " unreachable") None, cache)
  end.

(** *** Exit conditions *)

Definition live_exits (blocks : list Block) (c : fctx) : list Z :=
  filter (λ b, pmem (c_info c) b && negb (is_False (reach c b)) = true) (exit_blocks blocks).

(** [per_exit], and the first counterexample with the exit it is of. *)
Definition exits_acc : Type := list (Z * bool) * option (Witness * Z).

Definition exit_step (ec : ExitCondition) (c : fctx) (acc : exits_acc) (b : Z) : res exits_acc :=
  let '(per_exit, w) := acc in
  st ← ret_state e c b;
  match st with
  | None => Ok acc
  | Some st =>
      body ← node_to_z3 st (ec_cond ec);
      '(hit, om) ← _decide (reach c b) (asked (ec_all ec) (GTm body)) c;
      w ← match om, w with
          | Some m, None => x ← build m e calls c b (ec_cond ec) st; Ok (Some (x, b))
          | _, _ => Ok w
          end;
      Ok (pset per_exit b (if ec_all ec then negb hit else hit), w)
  end.

Definition exits_detail (per_exit : list (Z * bool)) (w : option (Witness * Z))
    (notes : list string) : string :=
  ("exits: "
   +:+ String.concat ", " (map (λ x : Z * bool, pretty x.1 +:+ "=" +:+ (if x.2 then "ok" else "bad"))
         (merge_sort by_key per_exit))
   +:+ match w with Some (_, b) => " | witness at exit " +:+ pretty b | None => "" end
   +:+ String.concat "" (map (λ n, " (UNMODELLED: " +:+ n +:+ ")") notes))%string.

Definition check_exit_condition (ec : ExitCondition) (c : fctx) : res CheckResult :=
  let live := live_exits (e_blocks e) c in
  match live with
  | [] => Ok (mk_result (ec_name ec) "exit_condition" (verdict (ec_all ec) (ec_all ec))
                "no reachable exit" None)
  | _ =>
      '(per_exit, w) ← foldR (exit_step ec c) ([], None) live;
      noted ← mapR (dropped_effects e c) live;
      let notes := merge_sort str_le (remove_dups (mjoin noted)) in
      let ok := if ec_all ec then forallb snd per_exit else existsb snd per_exit in
      Ok (mk_result (ec_name ec) "exit_condition" (verdict (ec_all ec) ok)
            (exits_detail per_exit w notes) (fst <$> w))
  end.

(** *** Reachability of every block *)

Definition kind_name (k : kind_t) : string :=
  match k with KBranch => "branch" | KJump => "jump" | KExit => "exit" | KFall => "fall" end.

Definition reach_step (c : fctx) (entry : option Z) (acc : gset Z * list CheckResult) (b : Z)
    : res (gset Z * list CheckResult) :=
  let '(dead, out) := acc in
  s ← py_index (e_blocks e) b;
  let name := ("block" +:+ pretty b)%string in
  let kind := ("kind=" +:+ kind_name (kind s))%string in
  if negb (bool_decide (entry = Some b)) && negb (bool_decide (preds s = []))
     && forallb (λ p, bool_decide (p ∈ dead) || negb (pmem (c_info c) p)) (preds s) then
    Ok ({[b]} ∪ dead,
        out ++ [mk_result name "reachability" "unsat" (kind +:+ "; every predecessor is dead") None])
  else
    '(live, _) ← _decide (reach c b) (GPy true) c;
    Ok (if (live : bool) then dead else {[b]} ∪ dead,
        out ++ [mk_result name "reachability" (verdict false live) kind None]).

Definition reach_report (c : fctx) : res (list CheckResult) :=
  let order := merge_sort Z.le (map fst (c_info c)) in
  '(_, out) ← foldR (reach_step c (head order)) (∅, []) order;
  Ok out.

(** *** Return values *)

(** Some exit returns [v]; the first one found ends the search. *)
Fixpoint some_exit (c : fctx) (v : Z) (exits : list Z) : res bool :=
  match exits with
  | [] => Ok false
  | b :: exits' =>
      st ← ret_state e c b;
      st ← of_option AttributeError st;
      '(ok, _) ← _decide (reach c b) (GTm (bveq (z_r0 st) (BitVecVal v 64))) c;
      if (ok : bool) then Ok true else some_exit c v exits'
  end.

Definition reachable_return_values (blocks : list Block) (values : list Z) (c : fctx)
    : res (list Z) :=
  exits ← foldR (λ l b, s ← py_index blocks b; r ← ret_expr s;
                        Ok (if is_none r then l else l ++ [b])) [] (live_exits blocks c);
  foldR (λ out v, ok ← some_exit c v exits; Ok (if (ok : bool) then out ++ [v] else out)) [] values.

(** *** A policy *)

Definition check (policy : Policy) (reach_all : bool) (c : fctx) : res (list CheckResult) :=
  '(blocks, _) ← foldR (λ acc bc, '(r, cache) ← check_block_condition bc c acc.2;
                                  Ok (acc.1 ++ [r], cache)) ([], []) (pol_block policy);
  exits ← mapR (λ ec, check_exit_condition ec c) (pol_exit policy);
  reached ← (if reach_all then reach_report c else Ok []);
  Ok (blocks ++ exits ++ reached).
End checker.

(** [context_for(policies, ...)]. *)
Definition context_targets (policies : list Policy) (reach_all : bool) : option (list Z) :=
  if bool_decide (policies = []) || reach_all
     || existsb (λ p, match pol_exit p with [] => false | _ => true end) policies then None
  else Some (merge_sort Z.le
               (remove_dups (mjoin (map (λ p, map bc_block (pol_block p)) policies)))).

Definition context_for `{SMT} `{!SameTerm} (policies : list Policy) (blocks : list Block)
    (init_st : Z3State) (reach_all : bool) (depth : nat) : res (fenv * fctx) :=
  ForwardContext blocks init_st (context_targets policies reach_all)
    (mjoin (map (λ p, map bc_cond (pol_block p) ++ map ec_cond (pol_exit p)) policies))
    true true true depth.
