(* ===== verification/CheckerSound.v ===== *)
(** What the verdicts mean ([verify/checker.py]): a condition reported to hold is true
    on every path of every model, a violation comes with a model whose path leads to
    the block and makes the condition false there. *)

From stdpp Require Import sorting.
From S2P Require Import Prelude Constants Smt SmtTerm Expr Record Link Encode Action Bits Block.
From S2P Require Import EncodeSound ReachSound Prune PruneSound TopoSound Slice Spec Forward.
From S2P Require Import ForwardMerge ForwardSound Witness WitnessSound Checker.

(** The solver's answers are right, and it always answers. *)
Class SolverLaws `{Solver} : Prop := {
  sat_ok l m : check_sat l = Sat m → forallb (evb m) l = true;
  unsat_ok l m : check_sat l = Unsat → forallb (evb m) l = false
}.
Definition decides `{Solver} : Prop := ∀ l, check_sat l ≠ Unknown.

Section queries.
Context `{HL : SMTLaws} `{!SameTerm} `{!Solver} `{!SmtAst} `{!Scapy} `{!SolverLaws}.
Context (fuel : nat) (c : fctx).

(** With every read resolved the query is the conjunction. *)
Lemma query_ok g body q m : c_defs c = [] → _query fuel g body c = Ok q →
  evg m q = evg m g && evg m body.
Proof.
  intros Hd HE. unfold _query in HE. cbv zeta in HE. rewrite <- evg_and.
  assert (definitions fuel c [g; body] = Ok []) as Hds by (unfold definitions; by rewrite Hd).
  destruct (_and g body) as [b|t]; [by injection HE as <-|]. rewrite Hds in HE. by injection HE as <-.
Qed.

(** A query answered. *)
Lemma decide_ok g body ok om : c_defs c = [] → _decide fuel g body c = Ok (ok, om) →
  (ok = true → ∃ m, om = Some m ∧ evg m g = true ∧ evg m body = true) ∧
  (ok = false → om = None) ∧
  (decides → ok = false → ∀ m, evg m g = true → evg m body = false).
Proof.
  intros Hd HE. unfold _decide in HE. apply bind_Ok in HE as (q & Hq & HE).
  assert (∀ m, evg m q = evg m g && evg m body) as Hev by (intros m; by apply query_ok).
  assert (∀ m, evg m q = false → evg m g = true → evg m body = false) as Hno
    by (intros m Hf Hg; rewrite Hev, Hg in Hf; by rewrite andb_true_l in Hf).
  destruct q as [[|]|t].
  - destruct (check_sat []) as [m| |] eqn:Es; injection HE as <- <-.
    + split_and!; [|done|done]. intros _. exists m. split; [done|].
      specialize (Hev m). simpl in Hev. symmetry in Hev. by apply andb_true_iff in Hev.
    + split_and!; [done|done|]. intros _ _ m. by pose proof (unsat_ok [] m Es).
    + split_and!; [done|done|]. intros Hdec. by destruct (Hdec []).
  - injection HE as <- <-. split_and!; [done|done|]. intros _ _ m. by apply Hno.
  - destruct (check_sat [simplify t]) as [m| |] eqn:Es; injection HE as <- <-.
    + split_and!; [|done|done]. intros _. exists m. split; [done|].
      apply sat_ok in Es. simpl in Es. rewrite andb_true_r, evb_simplify in Es.
      specialize (Hev m). simpl in Hev. rewrite Es in Hev. symmetry in Hev. by apply andb_true_iff in Hev.
    + split_and!; [done|done|]. intros _ _ m. apply Hno. apply (unsat_ok _ m) in Es.
      simpl in Es. by rewrite andb_true_r, evb_simplify in Es.
    + split_and!; [done|done|]. intros Hdec. by destruct (Hdec [simplify t]).
Qed.

(** The query for a condition, with the sense of the assertion. *)
Lemma asked_ok all g body ok om : c_defs c = [] →
  _decide fuel g (asked all (GTm body)) c = Ok (ok, om) →
  (ok = true → ∃ m, om = Some m ∧ evg m g = true ∧ evb m body = negb all) ∧
  (ok = false → om = None) ∧
  (decides → ok = false → ∀ m, evg m g = true → evb m body = all).
Proof.
  intros Hd HE. destruct (decide_ok _ _ _ _ Hd HE) as (Q1 & Q2 & Q3).
  assert (∀ m, evg m (asked all (GTm body)) = if all then negb (evb m body) else evb m body) as Ha.
  { intros m. destruct all; simpl; [apply evb_Not|done]. }
  split_and!; [|done|].
  - intros Hok. destruct (Q1 Hok) as (m & Hm & Hg & Hb). exists m. split_and!; [done|done|].
    rewrite Ha in Hb. destruct all; [by apply negb_true_iff in Hb|done].
  - intros Hdec Hok m Hg. specialize (Q3 Hdec Hok m Hg). rewrite Ha in Q3.
    destruct all; [by apply negb_false_iff in Q3|done].
Qed.
End queries.

(** ** Entries of a dictionary *)

Section entries.
Context {V : Type}.
Implicit Types (d : list (Z * V)).

Lemma elem_of_pset d k v x : x ∈ pset d k v → x = (k, v) ∨ x ∈ d.
Proof.
  induction d as [|[k' v'] d IH]; simpl; [intros ->%list_elem_of_singleton; by left|].
  case_decide; intros [-> | Hx]%elem_of_cons; [subst; by left|right; by right|right; left|].
  destruct (IH Hx); [by left|right; by right].
Qed.

Lemma elem_of_pset_new d k v : (k, v) ∈ pset d k v.
Proof.
  induction d as [|[k' v'] d IH]; simpl; [left|]. case_decide; [subst; left|by right].
Qed.

Lemma elem_of_pset_old d k v k' v' : k' ≠ k → (k', v') ∈ d → (k', v') ∈ pset d k v.
Proof.
  intros Hn. induction d as [|[k2 v2] d IH]; simpl; [by intros ?%elem_of_nil|].
  intros [[= <- <-] | Hx]%elem_of_cons; case_decide; try congruence; [left|by right|right; by apply IH].
Qed.
End entries.

(** ** The context *)

Lemma elem_of_keys {V} (d : list (Z * V)) k : k ∈ map fst d ↔ is_Some (pget d k).
Proof.
  induction d as [|[k' v] d IH]; simpl.
  - rewrite elem_of_nil. split; [done|]. by intros [? ?].
  - rewrite elem_of_cons, IH. case_decide; naive_solver.
Qed.

Section context.
Context `{HL : SMTLaws} `{!SameTerm} `{!SameTermLaws}.

Lemma item_step_defs e b i c s c' s' : e_resolve e = true → item_step e b (c, s) i = Ok (c', s') →
  c_defs c' = c_defs c.
Proof.
  intros He HE. destruct i as [v|a]; simpl in HE.
  - destruct (_ || _); [by injection HE as <- <-|]. rewrite He in HE.
    apply bind_Ok in HE as (c1 & Hc & [= <- <-]). by apply bind_Ok in Hc as (t & _ & [= <-]).
  - assert (c_defs (note_lookup a s c) = c_defs c) as Hl by (unfold note_lookup; by destruct (a_kind a)).
    destruct (skip_region _ _); [by injection HE as <- <-|].
    by apply bind_Ok in HE as (sg & _ & [= <- <-]).
Qed.

(** With resolved values no read is left to define. *)
Lemma walk_defs e order c : e_resolve e = true → _walk e no_ctx order = Ok c → c_defs c = [].
Proof.
  intros He HE. unfold _walk in HE.
  refine (foldR_ind _ (λ _ c, c_defs c = []) no_ctx order c _ _ HE); [done|].
  intros pre b c1 c2 _ IH HW. unfold walk_block in HW.
  apply bind_Ok in HW as (s & _ & HW). apply bind_Ok in HW as ([r s0] & _ & HW).
  apply bind_Ok in HW as (items & _ & HW). apply bind_Ok in HW as ([c3 s3] & HF & HW).
  apply bind_Ok in HW as ([[t f] i] & _ & [= <-]). simpl.
  refine (foldR_ind _ (λ _ st, c_defs st.1 = []) _ items (c3, s3) _ _ HF); [done|].
  intros pre' x [c4 s4] [c5 s5] _ IH' HS. simpl in *. by rewrite (item_step_defs _ _ _ _ _ _ _ He HS).
Qed.

Lemma item_step_info e b i c s c' s' : item_step e b (c, s) i = Ok (c', s') → c_info c' = c_info c.
Proof.
  intros HE. destruct i as [v|a]; simpl in HE.
  - destruct (_ || _); [by injection HE as <- <-|].
    apply bind_Ok in HE as (c1 & Hc & [= <- <-]).
    destruct (e_resolve e); by apply bind_Ok in Hc as (t & _ & [= <-]).
  - assert (c_info (note_lookup a s c) = c_info c) as Hl by (unfold note_lookup; by destruct (a_kind a)).
    destruct (skip_region _ _); [by injection HE as <- <-|].
    by apply bind_Ok in HE as (sg & _ & [= <- <-]).
Qed.

(** The walk records exactly the blocks of the order. *)
Lemma walk_dom e order c : _walk e no_ctx order = Ok c →
  ∀ b, is_Some (pget (c_info c) b) ↔ b ∈ order.
Proof.
  intros HE. unfold _walk in HE.
  refine (foldR_ind _ (λ pre c, ∀ b, is_Some (pget (c_info c) b) ↔ b ∈ pre) no_ctx order c _ _ HE).
  - intros b. rewrite elem_of_nil. simpl. split; [by intros [? ?]|done].
  - intros pre b c1 c2 _ IH HW x. unfold walk_block in HW.
    apply bind_Ok in HW as (s & _ & HW). apply bind_Ok in HW as ([r s0] & _ & HW).
    apply bind_Ok in HW as (items & _ & HW). apply bind_Ok in HW as ([c3 s3] & HF & HW).
    apply bind_Ok in HW as ([[t f] i] & _ & [= <-]). simpl.
    assert (c_info c3 = c_info c1) as Hc3.
    { refine (foldR_ind _ (λ _ st, c_info st.1 = c_info c1) _ items (c3, s3) _ _ HF); [done|].
      intros pre' y [c4 s4] [c5 s5] _ IH' HS. simpl in *. by rewrite (item_step_info _ _ _ _ _ _ _ HS). }
    rewrite Hc3, pget_pset, elem_of_app, list_elem_of_singleton. case_decide; [naive_solver|].
    rewrite IH. naive_solver.
Qed.

(** Targets that can be reached are in the slice. *)
Lemma block_slice_targets blocks live targets sl t : (∀ b, b ∈ live → in_range blocks b = true) →
  _block_slice blocks live targets = Ok sl →
  t ∈ live → match targets with Some ts => t ∈ ts | None => True end → t ∈ sl.
Proof.
  intros Hlive HE Hl Ht. destruct targets as [ts|]; simpl in HE; [|by injection HE as <-].
  refine (foldR_ind _ (λ pre keep, ∀ t, t ∈ pre → t ∈ live → t ∈ keep) _ ts sl _ _ HE t Ht Hl).
  - by intros x ?%elem_of_nil.
  - intros pre x k1 k2 _ IH HS y [Hy | ->%list_elem_of_singleton]%elem_of_app Hyl.
    + case_bool_decide; [apply bind_Ok in HS as (s & _ & [= <-])|injection HS as <-]; [|by apply IH].
      apply elem_of_union. left. by apply IH.
    + rewrite bool_decide_true in HS by done. apply bind_Ok in HS as (s & Hs & [= <-]).
      destruct (slice_to_spec blocks live x Hlive (Hlive x Hyl)) as (s' & Hs' & Hsl).
      rewrite Hs in Hs'. injection Hs' as <-. apply elem_of_union. right. apply Hsl. apply rtc_refl.
Qed.

Lemma forward_targets blocks init targets conds prune hybrid depth e c :
  analysable blocks init →
  ForwardContext blocks init targets conds prune true hybrid depth = Ok (e, c) →
  c_defs c = [] ∧ c_cur c = None ∧ e_blocks e = blocks ∧
  ((∀ b, is_Some (pget (c_info c) b) → in_range blocks b = true) ∧ is_Some (pget (c_info c) 0)) ∧
  ∀ b, in_range blocks b = true → rtc (edge_to blocks) 0 b →
    match targets with Some ts => b ∈ ts | None => True end → b ∈ e_slice e.
Proof.
  intros Han HE. unfold ForwardContext in HE.
  destruct (forward_reachable_run blocks) as (live & Hl & Hlive). rewrite Hl in HE. simpl in HE.
  apply bind_Ok in HE as (sl & Hsl & HE). apply bind_Ok in HE as (rel & _ & HE).
  apply bind_Ok in HE as (order & HO & HE). apply bind_Ok in HE as (anc & _ & HE).
  apply bind_Ok in HE as (bs & _ & HE). apply bind_Ok in HE as (c1 & HW & HE).
  injection HE as <- <-. split; [|split; [done|split; [done|split]]].
  - by eapply walk_defs in HW.
  - destruct Han as [Hlen Hpreds _ _ _].
    destruct (block_slice_ok _ _ _ _ Hlen Hlive Hpreds Hsl) as [H0s Hs].
    assert (∀ b, b ∈ sl → in_range blocks b = true) as Hrange
      by (intros b Hb; apply Hs in Hb as [Hb _]; by apply Hlive in Hb as [? _]).
    destruct (topo_order_run blocks sl Hrange H0s) as [(order' & HO' & _ & Hel & _) | [Hcy _]];
      [by intros b [_ ?]%Hs| |by rewrite HO in Hcy].
    rewrite HO in HO'. injection HO' as <-. pose proof (walk_dom _ _ _ HW) as Hd.
    split; [intros b Hb; by apply Hrange, Hel, Hd|by apply Hd, Hel].
  - intros b Hb Hr Ht. simpl. eapply block_slice_targets; [by intros x [? _]%Hlive|exact Hsl| |exact Ht].
    by apply Hlive.
Qed.

(** The way of a model into a block, through the recorded edges. *)
Lemma edge_taken_rtc m e c b : rtc (edge_taken m e c) 0 b → rtc (edge_to (e_blocks e)) 0 b.
Proof. apply rtc_subrel. intros x y. apply edge_taken_to. Qed.
End context.

(** ** Conditions at a block *)

Section verdicts.
Context `{HL : SMTLaws} `{!SameTerm} `{!SameTermLaws} `{!Solver} `{!SmtAst} `{!Scapy} `{!SolverLaws}.
Context (fuel : nat) (calls : call_index).
Context (policies : list Policy) (blocks : list Block) (init : Z3State) (reach_all : bool) (depth : nat).
Context (e : fenv) (c : fctx).
Hypothesis Han : analysable blocks init.
Hypothesis Hex : exits_end blocks.
Hypothesis Hdec : decides.
Hypothesis HC : context_for policies blocks init reach_all depth = Ok (e, c).

(** The path of the model leads to the block. *)
Definition leads m b : Prop := rtc (edge_taken m e c) 0 b.

Lemma reach_leads b fi m : pget (c_info c) b = Some fi →
  reach c b = fi_reach fi ∧ (evg m (reach c b) = true ↔ leads m b).
Proof.
  intros Hfi. unfold context_for in HC.
  destruct (forward_targets _ _ _ _ _ _ _ _ _ Han HC) as (_ & Hcur & _ & _).
  destruct (forward_walked m _ _ _ _ _ _ _ _ _ _ Han HC) as (_ & _ & order & _ & Hw & _).
  assert (reach c b = fi_reach fi) as Hr by (unfold reach; by rewrite Hcur, Hfi).
  split; [done|]. rewrite Hr. by apply (w_reach _ _ _ _ Hw).
Qed.

(** A model's own way only goes through recorded blocks of the slice. *)
Lemma leads_recorded m b : leads m b → in_range blocks b = true →
  match context_targets policies reach_all with Some ts => b ∈ ts | None => True end →
  is_Some (pget (c_info c) b).
Proof.
  intros Hl Hb Ht. unfold context_for in HC.
  destruct (forward_walked m _ _ _ _ _ _ _ _ _ _ Han HC) as (He & _ & order & _ & Hw & Hel & _).
  apply (w_dom _ _ _ _ Hw), Hel.
  destruct (forward_targets _ _ _ _ _ _ _ _ _ Han HC) as (_ & _ & _ & _ & HT). apply HT; [done| |done].
  apply edge_taken_rtc in Hl. by rewrite He in Hl.
Qed.

Lemma build_leads m b fi cond st w : pget (c_info c) b = Some fi → leads m b →
  build m e calls c b cond st = Ok w → w_model w = m ∧ b ∈ w_path w.
Proof.
  intros Hfi Hl HB. unfold context_for in HC.
  destruct (build_path _ _ _ _ _ _ _ _ _ _ _ _ _ _ _ _ Han Hex HC HB) as (Hm & _ & HP).
  split; [done|]. apply (HP b fi Hfi).
  destruct (reach_leads b fi m Hfi) as [Hr Hq]. rewrite <- Hr. by apply Hq.
Qed.

Lemma ctx_resolved : c_defs c = [].
Proof.
  unfold context_for in HC. by destruct (forward_targets _ _ _ _ _ _ _ _ _ Han HC) as (? & _ & _).
Qed.

(** The targets of a policy's block conditions. *)
Lemma target_of p bc : p ∈ policies → bc ∈ pol_block p →
  match context_targets policies reach_all with Some ts => bc_block bc ∈ ts | None => True end.
Proof.
  intros Hp Hb. unfold context_targets. destruct (_ || _); [done|].
  rewrite merge_sort_Permutation, elem_of_remove_dups. apply list_elem_of_join.
  exists (map bc_block (pol_block p)). split.
  - apply list_elem_of_fmap. by exists bc.
  - apply (list_elem_of_fmap (λ p, map bc_block (pol_block p))). by exists p.
Qed.

(** What a verdict on an assertion of sense [all] claims: no counterexample when
    the verdict is the quiet one, a real one otherwise. *)
Definition quiet_at (all : bool) (b : Z) (st : Z3State) (cond : CondNode) : Prop :=
  ∀ m body, leads m b → node_to_z3 st cond = Ok body → evb m body = all.
Definition shown_at (all : bool) (b : Z) (st : Z3State) (cond : CondNode) (w : Witness) : Prop :=
  ∃ body, node_to_z3 st cond = Ok body ∧ leads (w_model w) b ∧ evb (w_model w) body = negb all ∧
    b ∈ w_path w.

Lemma block_condition_ok p bc cache r cache' : p ∈ policies → bc ∈ pol_block p →
  in_range blocks (bc_block bc) = true →
  check_block_condition fuel e calls bc c cache = Ok (r, cache') →
  let st := state_at e c (bc_block bc) in
  cr_verdict r = verdict (bc_all bc) (bc_all bc) ∧ cr_witness r = None ∧
    quiet_at (bc_all bc) (bc_block bc) st (bc_cond bc) ∨
  cr_verdict r = verdict (bc_all bc) (negb (bc_all bc)) ∧
    ∃ w, cr_witness r = Some w ∧ shown_at (bc_all bc) (bc_block bc) st (bc_cond bc) w.
Proof.
  intros Hp Hb Hr HE. set (b := bc_block bc) in *. set (all := bc_all bc) in *. cbv zeta.
  unfold check_block_condition in HE. cbv zeta in HE. fold b in HE. fold all in HE.
  pose proof ctx_resolved as Hdefs. destruct (pget (c_info c) b) as [fi|] eqn:Hfi.
  2:{ injection HE as <- <-. left. split_and!; [done..|]. intros m body Hl _. exfalso.
      destruct (leads_recorded m b Hl Hr (target_of p bc Hp Hb)) as [fi Hfi']. congruence. }
  destruct (is_False (reach c b)) eqn:Ef.
  { injection HE as <- <-. left. split_and!; [done..|]. intros m body Hl _. exfalso.
    apply (reach_leads b fi m Hfi) in Hl. by rewrite (evg_False m _ Ef) in Hl. }
  apply bind_Ok in HE as (body & Hbody & HE). apply bind_Ok in HE as ([ok om] & Hd & HE).
  apply bind_Ok in HE as (notes & _ & HE). apply bind_Ok in HE as ([vac cache2] & _ & HE).
  apply bind_Ok in HE as (w & Hw & [= <- <-]). simpl.
  destruct (asked_ok fuel c all _ _ _ _ Hdefs Hd) as (Q1 & Q2 & Q3). destruct ok.
  - right. destruct (Q1 eq_refl) as (m & -> & Hg & Hev). simpl in Hw.
    apply bind_Ok in Hw as (x & Hx & [= <-]). split; [by destruct all|]. exists x. split; [done|].
    apply (reach_leads b fi m Hfi) in Hg. destruct (build_leads m b fi _ _ x Hfi Hg Hx) as [Hm Hin].
    exists body. rewrite Hm. split; [exact Hbody|]. split; [exact Hg|]. split; [exact Hev|exact Hin].
  - left. rewrite (Q2 eq_refl) in Hw. injection Hw as <-. split; [by destruct all|]. split; [done|].
    intros m body' Hl Hb'. rewrite Hbody in Hb'. injection Hb' as <-. apply Q3; [done..|].
    by apply (reach_leads b fi m Hfi).
Qed.

(** ** Conditions at the exits *)

(** What an exit contributes to [per_exit]. *)
Definition exit_value (ec : ExitCondition) (b : Z) (v : bool) : Prop := ∃ st body ok om,
  ret_state e c b = Ok (Some st) ∧ node_to_z3 st (ec_cond ec) = Ok body ∧
  _decide fuel (reach c b) (asked (ec_all ec) (GTm body)) c = Ok (ok, om) ∧
  v = if ec_all ec then negb ok else ok.

Lemma exit_value_det ec b v v' : exit_value ec b v → exit_value ec b v' → v = v'.
Proof.
  intros (st & body & ok & om & Hs & Hb & Hd & ->) (st' & body' & ok' & om' & Hs' & Hb' & Hd' & ->).
  rewrite Hs in Hs'. injection Hs' as <-. rewrite Hb in Hb'. injection Hb' as <-.
  rewrite Hd in Hd'. by injection Hd' as <- _.
Qed.

Definition exits_done (ec : ExitCondition) (pre : list Z) (acc : exits_acc) : Prop :=
  (∀ b v, (b, v) ∈ acc.1 → b ∈ pre ∧ exit_value ec b v) ∧
  (∀ b st, b ∈ pre → ret_state e c b = Ok (Some st) → ∃ v, (b, v) ∈ acc.1) ∧
  match acc.2 with
  | None => ∀ x, x ∈ acc.1 → x.2 = ec_all ec
  | Some (w, b) => (b, negb (ec_all ec)) ∈ acc.1 ∧ ∃ st, ret_state e c b = Ok (Some st) ∧
                   shown_at (ec_all ec) b st (ec_cond ec) w
  end.

Lemma exit_step_ok ec pre b acc acc' : is_Some (pget (c_info c) b) → exits_done ec pre acc →
  exit_step fuel e calls ec c acc b = Ok acc' → exits_done ec (pre ++ [b]) acc'.
Proof.
  intros [fi Hfi] (I1 & I2 & I3) HE. destruct acc as [per w]. simpl in *.
  assert (∀ x y, (x, y) ∈ per → x ∈ pre ++ [b] ∧ exit_value ec x y) as I1'
    by (intros x y Hxy; destruct (I1 _ _ Hxy); split; [apply elem_of_app; by left|done]).
  apply bind_Ok in HE as (os & Hos & HE). destruct os as [st|].
  2:{ injection HE as <-. split_and!; [done| |done]. intros x st [Hx | ->%list_elem_of_singleton]%elem_of_app;
      [by apply I2|congruence]. }
  apply bind_Ok in HE as (body & Hbody & HE). apply bind_Ok in HE as ([ok om] & Hd & HE).
  apply bind_Ok in HE as (w' & Hw & [= <-]). set (v := if ec_all ec then negb ok else ok).
  assert (exit_value ec b v) as Hv by (exists st, body, ok, om; by split_and!).
  pose proof ctx_resolved as Hdefs. destruct (asked_ok fuel c _ _ _ _ _ Hdefs Hd) as (Q1 & Q2 & _).
  assert (∀ x, (b, x) ∈ per → x = v) as Hsame
    by (intros x Hx; eapply exit_value_det; [by apply I1|done]).
  split_and!; simpl.
  - intros x y [[= -> ->] | Hxy]%elem_of_pset; [|by apply I1'].
    split; [apply elem_of_app; right; left|done].
  - intros x st' [Hx | ->%list_elem_of_singleton]%elem_of_app Hst'.
    + destruct (I2 _ _ Hx Hst') as [y Hy]. destruct (decide (x = b)) as [-> | Hn].
      * exists v. apply elem_of_pset_new.
      * exists y. by apply elem_of_pset_old.
    + exists v. apply elem_of_pset_new.
  - destruct w as [[w0 b0]|]; [|destruct ok].
    + assert (w' = Some (w0, b0)) as -> by (destruct om; by injection Hw as <-).
      destruct I3 as [Hin Hsh]. split; [|done].
      destruct (decide (b0 = b)) as [-> | Hn]; [|by apply elem_of_pset_old].
      rewrite (Hsame _ Hin). apply elem_of_pset_new.
    + destruct (Q1 eq_refl) as (m & -> & Hg & Hev). apply bind_Ok in Hw as (x & Hx & [= <-]).
      split; [unfold v; destruct (ec_all ec); apply elem_of_pset_new|]. exists st. split; [done|].
      apply (reach_leads b fi m Hfi) in Hg. destruct (build_leads m b fi _ _ x Hfi Hg Hx) as [Hm Hin].
      exists body. rewrite Hm. split; [exact Hbody|]. split; [exact Hg|]. split; [exact Hev|exact Hin].
    + rewrite (Q2 eq_refl) in Hw. injection Hw as <-.
      intros x [-> | Hx]%elem_of_pset; [|by apply I3]. unfold v. simpl. by destruct (ec_all ec).
Qed.

Lemma exit_condition_ok ec r : check_exit_condition fuel e calls ec c = Ok r →
  context_targets policies reach_all = None →
  cr_verdict r = verdict (ec_all ec) (ec_all ec) ∧ cr_witness r = None ∧
    (∀ b st, b ∈ exit_blocks blocks → in_range blocks b = true → ret_state e c b = Ok (Some st) →
       quiet_at (ec_all ec) b st (ec_cond ec)) ∨
  cr_verdict r = verdict (ec_all ec) (negb (ec_all ec)) ∧
    ∃ w b st, cr_witness r = Some w ∧ b ∈ exit_blocks blocks ∧ ret_state e c b = Ok (Some st) ∧
      shown_at (ec_all ec) b st (ec_cond ec) w.
Proof.
  intros HE Htar. unfold check_exit_condition in HE. cbv zeta in HE.
  set (live := live_exits (e_blocks e) c) in *.
  assert (e_blocks e = blocks) as Heb
    by (unfold context_for in HC; by destruct (forward_targets _ _ _ _ _ _ _ _ _ Han HC) as (_ & _ & ? & _)).
  assert (∀ b, b ∈ live ↔ b ∈ exit_blocks blocks ∧ is_Some (pget (c_info c) b) ∧
    is_False (reach c b) = false) as Hlive.
  { intros b. unfold live, live_exits. rewrite Heb, list_elem_of_filter, andb_true_iff, negb_true_iff.
    unfold pmem. rewrite bool_decide_eq_true. tauto. }
  assert (∀ m b, b ∈ exit_blocks blocks → in_range blocks b = true → leads m b → b ∈ live) as Hin.
  { intros m b Hb Hr Hl. apply Hlive. split; [done|].
    assert (is_Some (pget (c_info c) b)) as Hi by (apply (leads_recorded m b Hl Hr); by rewrite Htar).
    split; [done|]. destruct Hi as [fi Hfi]. apply (reach_leads b fi m Hfi) in Hl.
    destruct (is_False (reach c b)) eqn:E; [|done]. by rewrite (evg_False m _ E) in Hl. }
  destruct live as [|b0 live'] eqn:El.
  { injection HE as <-. left. split_and!; [done..|]. intros b st Hb Hr _ m body Hl _. exfalso.
    specialize (Hin m b Hb Hr Hl). by apply elem_of_nil in Hin. }
  rewrite <- El in HE, Hin, Hlive.
  apply bind_Ok in HE as ([per w] & HF & HE). apply bind_Ok in HE as (notes & _ & [= <-]). simpl.
  assert (exits_done ec live (per, w)) as (I1 & I2 & I3).
  { refine (foldR_ind _ (λ pre acc, exits_done ec pre acc) ([], None) live (per, w) _ _ HF).
    - split_and!; simpl; [by intros ? ? ?%elem_of_nil|by intros ? ? ?%elem_of_nil|by intros ? ?%elem_of_nil].
    - intros pre b a1 a2 [suf Hs] Hd HS. eapply exit_step_ok; [|exact Hd|exact HS].
      apply Hlive. rewrite Hs, !elem_of_app. left. right. left. }
  simpl in *. destruct w as [[w b]|].
  - right. destruct I3 as (Hb & st & Hst & Hsh). split.
    + f_equal. destruct (ec_all ec); simpl in *.
      * destruct (forallb snd per) eqn:E; [|done]. rewrite forallb_forall in E.
        apply list_elem_of_In in Hb. by apply E in Hb.
      * apply existsb_exists. exists (b, true). split; [by apply list_elem_of_In|done].
    + exists w, b, st. split; [done|]. split; [|done].
      destruct (I1 _ _ Hb) as [Hl _]. by apply Hlive in Hl as [? _].
  - left. split_and!; [|done|].
    + f_equal. destruct (ec_all ec).
      * apply forallb_forall. intros x Hx. by apply I3, list_elem_of_In.
      * destruct (existsb snd per) eqn:E; [|done]. apply existsb_exists in E as (x & Hx & Hx2).
        apply list_elem_of_In, I3 in Hx. congruence.
    + intros b st Hb Hr Hst m body Hl Hbody. destruct (I2 b st (Hin m b Hb Hr Hl) Hst) as [v Hv].
      pose proof (I3 _ Hv) as Hq. simpl in Hq.
      destruct (I1 _ _ Hv) as [_ (st' & body' & ok & om & Hst' & Hb' & Hd & ->)].
      rewrite Hst in Hst'. injection Hst' as <-. rewrite Hbody in Hb'. injection Hb' as <-.
      pose proof ctx_resolved as Hdefs. destruct (asked_ok fuel c _ _ _ _ _ Hdefs Hd) as (_ & _ & Q3).
      apply Q3; [done|by destruct (ec_all ec), ok|]. 
      assert (is_Some (pget (c_info c) b)) as [fi Hfi] by (apply (leads_recorded m b Hl Hr); by rewrite Htar).
      by apply (reach_leads b fi m Hfi).
Qed.

(** ** Return values *)

Lemma some_exit_ok v exits ok : (∀ b, b ∈ exits → is_Some (pget (c_info c) b)) →
  (∀ b st, b ∈ exits → ret_state e c b = Ok (Some st) → size (z_r0 st) = 64) →
  some_exit fuel e c v exits = Ok ok →
  ok = true ↔ ∃ b m st, b ∈ exits ∧ leads m b ∧ ret_state e c b = Ok (Some st) ∧
                        ev m (z_r0 st) = wrap 64 v.
Proof.
  clear Hex. intros Hrec Hsz. induction exits as [|b exits IH]; intros HE; simpl in HE.
  { injection HE as <-. split; [done|]. by intros (b & m & st & Hb%elem_of_nil & _). }
  apply bind_Ok in HE as (os & Hos & HE). apply bind_Ok in HE as (st & Hst & HE).
  apply of_option_Ok in Hst as ->. apply bind_Ok in HE as ([hit om] & Hd & HE).
  destruct (Hrec b ltac:(left)) as [fi Hfi].
  assert (∀ m, evg m (GTm (bveq (z_r0 st) (BitVecVal v 64))) = true ↔ ev m (z_r0 st) = wrap 64 v) as Hev.
  { intros m. change (evg m (GTm ?t)) with (evb m t). pose proof (Hsz b st ltac:(left) Hos) as Hs.
    rewrite evb_bveq, ev_BitVecVal by (rewrite ?size_BitVecVal by lia; lia). apply Z.eqb_eq. }
  destruct (decide_ok fuel c _ _ _ _ ctx_resolved Hd) as (Q1 & Q2 & Q3). destruct hit.
  - injection HE as <-. split; [|done]. intros _. destruct (Q1 eq_refl) as (m & _ & Hg & Hb).
    exists b, m, st. split_and!; [left| |done|by apply Hev]. by apply (reach_leads b fi m Hfi).
  - rewrite (IH ltac:(intros; apply Hrec; by right) ltac:(intros; eapply Hsz; [right|]; done) HE).
    split; [intros (x & m & sx & Hx & ?); exists x, m, sx; split; [by right|done]|].
    intros (x & m & sx & [-> | Hx]%elem_of_cons & Hl & Hsx & Hv); [|by exists x, m, sx].
    exfalso. rewrite Hos in Hsx. injection Hsx as <-. apply Hev in Hv.
    rewrite (Q3 Hdec eq_refl m) in Hv; [done|]. by apply (reach_leads b fi m Hfi).
Qed.

Lemma return_values_ok values out :
  (∀ b st, b ∈ exit_blocks blocks → ret_state e c b = Ok (Some st) → size (z_r0 st) = 64) →
  reachable_return_values fuel e blocks values c = Ok out →
  ∀ v, v ∈ out ↔ v ∈ values ∧ ∃ b m st, b ∈ exit_blocks blocks ∧ is_Some (pget (c_info c) b) ∧
    leads m b ∧ ret_state e c b = Ok (Some st) ∧ ev m (z_r0 st) = wrap 64 v.
Proof.
  clear Hex. intros Hsz HE v. unfold reachable_return_values in HE.
  apply bind_Ok in HE as (exits & HX & HE).
  assert (e_blocks e = blocks) as Heb
    by (unfold context_for in HC; by destruct (forward_targets _ _ _ _ _ _ _ _ _ Han HC) as (_ & _ & ? & _)).
  assert (∀ b, b ∈ live_exits blocks c ↔ b ∈ exit_blocks blocks ∧ is_Some (pget (c_info c) b) ∧
    is_False (reach c b) = false) as Hlive.
  { intros b. unfold live_exits. rewrite list_elem_of_filter, andb_true_iff, negb_true_iff.
    unfold pmem. rewrite bool_decide_eq_true. tauto. }
  assert (∀ b, b ∈ exits ↔ b ∈ live_exits blocks c ∧ ∃ s r, py_index blocks b = Ok s ∧
    ret_expr s = Ok r ∧ is_none r = false) as Hexits.
  { refine (foldR_ind _ (λ pre l, ∀ b, b ∈ l ↔ b ∈ pre ∧ ∃ s r, py_index blocks b = Ok s ∧
      ret_expr s = Ok r ∧ is_none r = false) [] _ exits _ _ HX).
    - intros b. rewrite elem_of_nil. naive_solver.
    - intros pre b l l' _ IH HS x. apply bind_Ok in HS as (s & Hs & HS).
      apply bind_Ok in HS as (r & Hr & HS). injection HS as <-.
      rewrite elem_of_app, list_elem_of_singleton.
      destruct (is_none r) eqn:Er; rewrite ?elem_of_app, IH, ?list_elem_of_singleton.
      + split; [naive_solver|]. intros [[? | ->] (s' & r' & Hs' & Hr' & Hn)]; [naive_solver|].
        rewrite Hs in Hs'. injection Hs' as <-. rewrite Hr in Hr'. injection Hr' as <-. congruence.
      + naive_solver. }
  assert (∀ w ok, some_exit fuel e c w exits = Ok ok → ok = true ↔ ∃ b m st, b ∈ exit_blocks blocks ∧
    is_Some (pget (c_info c) b) ∧ leads m b ∧ ret_state e c b = Ok (Some st) ∧
    ev m (z_r0 st) = wrap 64 w) as Hsome.
  { intros w ok Hok. apply some_exit_ok in Hok as ->.
    - split.
      + intros (b & m & st & Hb & Hl & Hst & Hv). apply Hexits in Hb as [(? & ? & _)%Hlive _].
        by exists b, m, st.
      + intros (b & m & st & Hb & Hi & Hl & Hst & Hv). exists b, m, st. split_and!; [|done..].
        apply Hexits. split.
        * apply Hlive. split_and!; [done..|]. destruct Hi as [fi Hfi].
          apply (reach_leads b fi m Hfi) in Hl. destruct (is_False (reach c b)) eqn:E; [|done].
          by rewrite (evg_False m _ E) in Hl.
        * unfold ret_state in Hst. rewrite Heb in Hst. apply bind_Ok in Hst as (s & Hs & Hst).
          apply bind_Ok in Hst as (r & Hr & Hst). exists s, r. destruct (is_none r); [done|]. by split_and!.
    - intros b Hb. by apply Hexits in Hb as [(_ & ? & _)%Hlive _].
    - intros b st Hb. apply Hsz. by apply Hexits in Hb as [(? & _)%Hlive _]. }
  refine (foldR_ind _ (λ pre out, v ∈ out ↔ v ∈ pre ∧ _) [] values out _ _ HE).
  - rewrite !elem_of_nil. naive_solver.
  - intros pre w o o' _ IH HS. apply bind_Ok in HS as (ok & Hok & HS). injection HS as <-.
    pose proof (Hsome w ok Hok) as Hs. rewrite elem_of_app, list_elem_of_singleton.
    destruct ok; rewrite ?elem_of_app, ?list_elem_of_singleton, IH; [naive_solver|].
    split; [naive_solver|]. intros [[? | ->] Hx]; [done|]. by apply Hs in Hx.
Qed.

(** ** Reachability of the blocks *)

Definition reach_claim (b : Z) (r : CheckResult) : Prop :=
  cr_name r = ("block" +:+ pretty b)%string ∧
  (cr_verdict r = "sat"%string ∧ (∃ m, leads m b) ∨ cr_verdict r = "unsat"%string ∧ ∀ m, ¬ leads m b).

Lemma reach_step_ok pre b acc acc' : is_Some (pget (c_info c) b) →
  (∀ b, b ∈ acc.1 → ∀ m, ¬ leads m b) ∧ Forall2 reach_claim pre acc.2 →
  reach_step fuel e c (Some 0) acc b = Ok acc' →
  (∀ b, b ∈ acc'.1 → ∀ m, ¬ leads m b) ∧ Forall2 reach_claim (pre ++ [b]) acc'.2.
Proof.
  intros [fi Hfi] [Hdead Hout] HE. destruct acc as [dead out]. simpl in *.
  apply bind_Ok in HE as (s & Hs & HE).
  assert (e_blocks e = blocks) as Heb
    by (unfold context_for in HC; by destruct (forward_targets _ _ _ _ _ _ _ _ _ Han HC) as (_ & _ & ? & _)).
  assert (in_range blocks b = true) as Hr.
  { unfold context_for in HC.
    destruct (forward_targets _ _ _ _ _ _ _ _ _ Han HC) as (_ & _ & _ & [Hr _] & _). eauto. }
  rewrite Heb in Hs. pose proof Hr as [Hb0 _]%in_range_lookup. apply py_index_Ok in Hs; [|done].
  destruct (_ && _ && _) eqn:Ec.
  - injection HE as <-. simpl. apply andb_true_iff in Ec as [[H0b _]%andb_true_iff Hall].
    apply negb_true_iff, bool_decide_eq_false in H0b. rewrite forallb_forall in Hall.
    assert (∀ m, ¬ leads m b) as Hno.
    { intros m Hl. unfold leads in Hl. apply rtc_inv_r in Hl as [<- | (p & Hp & Hpb)]; [done|].
      pose proof (edge_taken_to _ _ _ _ _ Hpb) as He. rewrite Heb in He.
      apply (an_preds _ _ Han b s p Hb0 Hs) in He. apply list_elem_of_In, Hall in He.
      apply orb_true_iff in He as [Hd | Hd].
      - apply bool_decide_eq_true in Hd. by apply (Hdead p Hd m).
      - destruct Hpb as (_ & pi & _ & Hpi & _). unfold pmem in Hd.
        apply negb_true_iff, bool_decide_eq_false in Hd. apply Hd. eauto. }
    split; [intros x [->%elem_of_singleton | Hx]%elem_of_union; [done|by apply Hdead]|].
    apply Forall2_app; [done|]. constructor; [|constructor]. split; [done|]. right. by split.
  - apply bind_Ok in HE as ([live om] & Hd & [= <-]). simpl.
    destruct (decide_ok fuel c _ _ _ _ ctx_resolved Hd) as (Q1 & _ & Q3).
    assert (if live then ∃ m, leads m b else ∀ m, ¬ leads m b) as Hlive.
    { destruct live.
      - destruct (Q1 eq_refl) as (m & _ & Hg & _). exists m. by apply (reach_leads b fi m Hfi).
      - intros m Hl. apply (reach_leads b fi m Hfi) in Hl. by specialize (Q3 Hdec eq_refl m Hl). }
    split; [destruct live; [done|]; intros x [->%elem_of_singleton | Hx]%elem_of_union; [done|by apply Hdead]|].
    apply Forall2_app; [done|]. constructor; [|constructor]. split; [done|]. destruct live; [left|right]; by split.
Qed.

Lemma reach_report_ok out : reach_report fuel e c = Ok out →
  Forall2 reach_claim (merge_sort Z.le (map fst (c_info c))) out.
Proof.
  intros HE. unfold reach_report in HE. cbv zeta in HE. set (order := merge_sort Z.le _) in *.
  apply bind_Ok in HE as ([dead out'] & HF & [= <-]).
  assert (order ≡ₚ map fst (c_info c)) as Hp by apply merge_sort_Permutation.
  assert (∀ b, b ∈ order ↔ is_Some (pget (c_info c) b)) as Hin
    by (intros b; by rewrite Hp, elem_of_keys).
  assert (head order = Some 0) as Hh.
  { unfold context_for in HC.
    destruct (forward_targets _ _ _ _ _ _ _ _ _ Han HC) as (_ & _ & _ & [Hr H0s] & _).
    assert (0 ∈ order) as H0o by (by apply Hin).
    assert (Sorted Z.le order) as HS by (apply Sorted_merge_sort; intros x y; lia).
    destruct order as [|x order']; [by apply elem_of_nil in H0o|]. simpl. f_equal.
    assert (0 <= x) as Hx by (assert (in_range blocks x = true) as [? _]%in_range_lookup by (apply Hr, Hin; left); done).
    apply elem_of_cons in H0o as [? | H0o]; [done|].
    apply Sorted_StronglySorted in HS; [|intros ? ? ?; lia]. inversion HS as [|? ? _ Hall]; subst.
    rewrite Forall_forall in Hall. specialize (Hall 0 H0o). lia. }
  rewrite Hh in HF.
  refine (proj2 (foldR_ind _ (λ pre acc, (∀ b, b ∈ acc.1 → ∀ m, ¬ leads m b) ∧ Forall2 reach_claim pre acc.2)
    (∅, []) order (dead, out') _ _ HF)).
  - split; [intros b Hb; by apply elem_of_empty in Hb|constructor].
  - intros pre b a1 a2 [suf Hs] IH HS. eapply reach_step_ok; [|exact IH|exact HS].
    apply Hin. rewrite Hs, !elem_of_app. left. right. left.
Qed.

(** ** A whole policy *)

(** The claim a verdict on a block condition makes. *)
Definition block_claim (bc : BlockCondition) (r : CheckResult) : Prop :=
  let st := state_at e c (bc_block bc) in
  cr_verdict r = verdict (bc_all bc) (bc_all bc) ∧ cr_witness r = None ∧
    quiet_at (bc_all bc) (bc_block bc) st (bc_cond bc) ∨
  cr_verdict r = verdict (bc_all bc) (negb (bc_all bc)) ∧
    ∃ w, cr_witness r = Some w ∧ shown_at (bc_all bc) (bc_block bc) st (bc_cond bc) w.

(** And one on an exit condition. *)
Definition exit_claim (ec : ExitCondition) (r : CheckResult) : Prop :=
  cr_verdict r = verdict (ec_all ec) (ec_all ec) ∧ cr_witness r = None ∧
    (∀ b st, b ∈ exit_blocks blocks → in_range blocks b = true → ret_state e c b = Ok (Some st) →
       quiet_at (ec_all ec) b st (ec_cond ec)) ∨
  cr_verdict r = verdict (ec_all ec) (negb (ec_all ec)) ∧
    ∃ w b st, cr_witness r = Some w ∧ b ∈ exit_blocks blocks ∧ ret_state e c b = Ok (Some st) ∧
      shown_at (ec_all ec) b st (ec_cond ec) w.

Lemma check_ok p again out : p ∈ policies →
  (∀ bc, bc ∈ pol_block p → in_range blocks (bc_block bc) = true) →
  check fuel e calls p again c = Ok out → ∃ rb re rr, out = rb ++ re ++ rr ∧
    Forall2 block_claim (pol_block p) rb ∧ Forall2 exit_claim (pol_exit p) re ∧
    if again then reach_report fuel e c = Ok rr else rr = [].
Proof.
  intros Hp Hr HE. unfold check in HE. apply bind_Ok in HE as ([rb cache] & HB & HE).
  apply bind_Ok in HE as (re & HX & HE). apply bind_Ok in HE as (rr & HR & [= <-]).
  exists rb, re, rr. split; [done|]. split; [|split].
  - refine (foldR_ind _ (λ pre acc, Forall2 block_claim pre acc.1) ([], []) (pol_block p) (rb, cache) _ _ HB);
      [constructor|].
    intros pre bc [r1 c1] [r2 c2] [suf Hs] IH HS. apply bind_Ok in HS as ([r c3] & Hc & [= <- <-]). simpl in *.
    apply Forall2_app; [done|]. constructor; [|constructor].
    assert (bc ∈ pol_block p) as Hbc by (rewrite Hs, !elem_of_app; left; right; left).
    exact (block_condition_ok p bc _ _ _ Hp Hbc (Hr bc Hbc) Hc).
  - apply mapR_Forall2 in HX.
    assert (pol_exit p ≠ [] → context_targets policies reach_all = None) as Hnone.
    { intros Hne. unfold context_targets. rewrite (proj2 (existsb_exists _ policies)), orb_true_r; [done|].
      exists p. split; [by apply list_elem_of_In|]. by destruct (pol_exit p). }
    destruct (pol_exit p) as [|x l]; [inversion HX; constructor|]. specialize (Hnone ltac:(done)).
    eapply Forall2_impl; [exact HX|]. intros ec r Hc.
    by apply exit_condition_ok.
  - destruct again; [done|by injection HR as <-].
Qed.
End verdicts.

(** ** The verdicts of the tool *)

Section claims.
Context `{HL : SMTLaws} `{!SameTerm} `{!SameTermLaws} `{!Solver} `{!SmtAst} `{!Scapy}.

(** C3 The verdicts on a policy are sound and complete for the paths of the
    encoded program. A condition reported [holds] is true, and one reported
    [unsat] false, in every model whose path leads to the block (to any exit); a
    condition reported [violated] (or [sat]) comes with a counterexample whose
    path goes through that block and in whose model the condition is false (or
    true). The verdict is always one of the two. The solver is taken to decide every
    query: an answer [unknown] is treated as unsatisfiable. *)
Theorem check_sound `{!SolverLaws} fuel calls policies blocks init reach_all depth e c p again out :
  analysable blocks init → exits_end blocks → decides →
  context_for policies blocks init reach_all depth = Ok (e, c) → p ∈ policies →
  (∀ bc, bc ∈ pol_block p → in_range blocks (bc_block bc) = true) →
  check fuel e calls p again c = Ok out → ∃ rb re rr, out = rb ++ re ++ rr ∧
    Forall2 (block_claim e c) (pol_block p) rb ∧ Forall2 (exit_claim blocks e c) (pol_exit p) re ∧
    if again then reach_report fuel e c = Ok rr else rr = [].
Proof. intros Han Hex Hdec HC. by eapply check_ok. Qed.

(** C18 The reachability report has a line for every recorded block, in the order
    of their numbers, and calls a block reachable exactly when the path of some
    model leads to it, the blocks it condemns without a query included, where the
    solver decides every query. *)
Theorem reach_report_sound `{!SolverLaws} fuel policies blocks init reach_all depth e c out :
  analysable blocks init → decides →
  context_for policies blocks init reach_all depth = Ok (e, c) →
  reach_report fuel e c = Ok out →
  Forall2 (reach_claim e c) (merge_sort Z.le (map fst (c_info c))) out.
Proof. intros Han Hdec HC. by eapply reach_report_ok. Qed.

(** C17 [reachable_return_values] returns exactly the values asked about that some
    model's path returns at some exit of the context, where the solver decides every
    query. *)
Theorem return_values_exact `{!SolverLaws} fuel policies blocks init reach_all depth e c values out :
  analysable blocks init → decides →
  context_for policies blocks init reach_all depth = Ok (e, c) →
  (∀ b st, b ∈ exit_blocks blocks → ret_state e c b = Ok (Some st) → size (z_r0 st) = 64) →
  reachable_return_values fuel e blocks values c = Ok out →
  ∀ v, v ∈ out ↔ v ∈ values ∧ ∃ b m st, b ∈ exit_blocks blocks ∧ is_Some (pget (c_info c) b) ∧
    leads e c m b ∧ ret_state e c b = Ok (Some st) ∧ ev m (z_r0 st) = wrap 64 v.
Proof. intros Han Hdec HC Hsz HE. eapply return_values_ok; [exact Han|exact Hdec|exact HC|exact Hsz|exact HE]. Qed.

(** An answer [unknown] of the solver is taken for [unsat]: with a solver that
    never decides, every assertion on a block that is not provably true is still
    reported as [holds], whatever the program does. *)
Theorem unknown_reported_as_holds fuel e calls bc c cache r cache' :
  (∀ l, check_sat l = Unknown) → bc_all bc = true →
  check_block_condition fuel e calls bc c cache = Ok (r, cache') →
  cr_verdict r = "holds"%string ∧ cr_witness r = None.
Proof.
  intros Hu Hall HE. unfold check_block_condition in HE. cbv zeta in HE. rewrite Hall in HE.
  destruct (pget (c_info c) (bc_block bc)) as [fi|]; [|by injection HE as <- _].
  destruct (is_False (reach c (bc_block bc))); [by injection HE as <- _|].
  apply bind_Ok in HE as (body & _ & HE). apply bind_Ok in HE as ([ok om] & Hd & HE).
  assert (ok = false ∧ om = None) as [-> ->].
  { unfold _decide in Hd. apply bind_Ok in Hd as (q & _ & Hd).
    destruct q as [[]|]; rewrite ?Hu in Hd; by injection Hd as <- <-. }
  apply bind_Ok in HE as (notes & _ & HE). apply bind_Ok in HE as ([vac c2] & _ & HE).
  apply bind_Ok in HE as (w & Hw & HE). injection HE as <- _. by injection Hw as <-.
Qed.
End claims.
