(* ===== verification/CheckerExamples.v ===== *)
(** Verdicts on a concrete program, with a solver that tries two initial states. *)

From stdpp Require Import sorting.
From S2P Require Import Prelude Constants Smt SmtTerm Expr Record Link Encode Action Bits Block.
From S2P Require Import EncodeSound ReachSound CfgSound Prune PruneSound TopoSound Slice Pystr.
From S2P Require Import Spec SpecSound Forward ForwardMerge ForwardSound Witness WitnessSound.
From S2P Require Import Checker CheckerSound.

(** *** A library with fewer models *)

Definition narrow (S : SMT) (M : Type) (f : M → @model S) : SMT := {|
  bv := @bv S; bl := @bl S; barr := @barr S; parr := @parr S; model := M;
  size := @size S; BitVecVal := @BitVecVal S; BitVec := @BitVec S; is_bv_value := @is_bv_value S;
  as_long := @as_long S; Extract := @Extract S; Concat := @Concat S; SignExt := @SignExt S;
  bvadd := @bvadd S; bvsub := @bvsub S; bvmul := @bvmul S; bvsdiv := @bvsdiv S; UDiv := @UDiv S;
  URem := @URem S; SRem := @SRem S; bvand := @bvand S; bvor := @bvor S; bvxor := @bvxor S;
  bvshl := @bvshl S; LShR := @LShR S; bvashr := @bvashr S; bvneg := @bvneg S; bvnot := @bvnot S;
  IfBV := @IfBV S; bveq := @bveq S; bvne := @bvne S; ULT := @ULT S; ULE := @ULE S; UGT := @UGT S;
  UGE := @UGE S; bvslt := @bvslt S; bvsle := @bvsle S; bvsgt := @bvsgt S; bvsge := @bvsge S;
  BoolVal := @BoolVal S; Bool := @Bool S; Not := @Not S; And := @And S; Or := @Or S; beq := @beq S;
  IfBL := @IfBL S; simplify := @simplify S; is_true := @is_true S; is_false := @is_false S;
  Array := @Array S; K := @K S; Store := @Store S; Select := @Select S; IfArr := @IfArr S;
  domain_size := @domain_size S; range_size := @range_size S; PArray := @PArray S; PK := @PK S;
  PStore := @PStore S; PSelect := @PSelect S; IfPArr := @IfPArr S;
  ev := λ m, @ev S (f m); evb := λ m, @evb S (f m); eva := λ m, @eva S (f m); evp := λ m, @evp S (f m)
|}.

Lemma narrow_laws S M f : SMTLaws S → SMTLaws (narrow S M f).
Proof. intros []. split; cbn; intros; eauto. Qed.

(** Two initial states: a packet of 60 bytes that takes the branch, and one of 40
    that does not. *)
Definition two_states (b : bool) : tmodel :=
  {| m_bv := λ n, if bool_decide (n = "pkt_len"%string) then (if b then 60 else 40) else 2;
     m_bool := λ _, b; m_arr := λ _ i, i; m_parr := λ _ _, true |}.

#[local] Instance two : SMT := narrow z3 bool two_states.
#[local] Instance two_laws : SMTLaws two := narrow_laws z3 bool two_states z3_laws.
#[local] Instance two_same : SameTerm :=
  {| same_bv := λ _ _, false; same_arr := λ _ _, false; same_parr := λ _ _, false |}.
#[local] Instance two_same_laws : SameTermLaws.
Proof. by split. Qed.

(** The solver tries both. *)
#[local] Instance two_solver : Solver := {|
  check_sat := λ l, if forallb (evb true) l then Sat true
                    else if forallb (evb false) l then Sat false else Unsat
|}.
#[local] Instance two_solver_laws : SolverLaws.
Proof.
  split; intros l m; unfold check_sat, two_solver;
    destruct (forallb (@evb two true) l) eqn:E1, (forallb (@evb two false) l) eqn:E2; intros HE; try discriminate HE;
    try (injection HE as <-; assumption); by destruct m.
Qed.

Lemma two_decides : decides.
Proof. intros l. unfold check_sat, two_solver. by repeat destruct (forallb _ l). Qed.

#[local] Instance two_ast : SmtAst := {|
  node := unit; node_bl := λ _, (); node_bv := λ _, (); get_id := λ _, 0; children := λ _, []
|}.
#[local] Instance two_scapy : Scapy := ex_scapy.

(** *** A program: a diamond whose exit returns 2 *)

Definition two_init : Z3State := _make_init_state ex_maps.

(** Predecessors mirror successors, checked. *)
Definition mirrors (blocks : list Block) : bool :=
  let ids := zrange 0 (Z.of_nat (length blocks)) in
  forallb (λ b, match blocks !! Z.to_nat b with
                | Some s => forallb (λ p, bool_decide (p ∈ ids)) (preds s)
                            && forallb (λ p, bool_decide (bool_decide (p ∈ preds s) =
                                 match blocks !! Z.to_nat p with
                                 | Some q => bool_decide (b ∈ successors q) | None => false end)) ids
                | None => true
                end) ids.

Lemma mirrors_preds blocks : mirrors blocks = true →
  ∀ b s p, 0 <= b → blocks !! Z.to_nat b = Some s → p ∈ preds s ↔ edge_to blocks p b.
Proof.
  intros HM b s p Hb Hs. unfold mirrors in HM. cbv zeta in HM. rewrite forallb_forall in HM.
  pose proof (lookup_lt_Some _ _ _ Hs) as Hlt.
  assert (∀ x, 0 <= x < Z.of_nat (length blocks) → In x (zrange 0 (Z.of_nat (length blocks)))) as Hids
    by (intros x Hx; by apply list_elem_of_In, zrange_elem).
  specialize (HM b (Hids b ltac:(lia))).
  rewrite Hs in HM. apply andb_true_iff in HM as [H1 H2]. rewrite forallb_forall in H1, H2.
  assert (0 <= p < Z.of_nat (length blocks) → p ∈ preds s ↔ edge_to blocks p b) as Hin.
  { intros Hp. specialize (H2 p (Hids p Hp)).
    apply bool_decide_eq_true in H2. rewrite <- (bool_decide_eq_true (p ∈ preds s)), H2. unfold edge_to.
    destruct (blocks !! Z.to_nat p) as [q|] eqn:Eq; [rewrite bool_decide_eq_true|]; naive_solver lia. }
  split; intros Hp; apply Hin; try done.
  - apply list_elem_of_In, H1, bool_decide_eq_true in Hp. by apply zrange_elem in Hp.
  - destruct Hp as (Hp0 & q & Hq & _). apply lookup_lt_Some in Hq. lia.
Qed.

Definition ex_ret_blocks : list Block :=
  alter (λ b, set_store (<[0%nat := VNum 1 2 8 (-1)]> (regs b)) (stk b) b) 2%nat ex_blocks.

Lemma two_sorts : sorts_like two_init two_init.
Proof. split; [split|]; try done. by repeat constructor. Qed.

Lemma ret_analysable : analysable ex_ret_blocks two_init.
Proof.
  split.
  - vm_compute. lia.
  - apply mirrors_preds. vm_compute. reflexivity.
  - assert (Forall (λ s, branch s = false → succ_t s = None ∨ succ_f s = None) ex_ret_blocks) as HF
      by (vm_compute; repeat constructor; intros; (discriminate || auto)).
    rewrite Forall_forall in HF. exact HF.
  - split; [reflexivity|]. intros s a v st t Hs Ha _ _. exfalso. revert Ha.
    assert (Forall (λ s, actions s = []) ex_ret_blocks) as HF by (vm_compute; by repeat constructor).
    rewrite Forall_forall in HF. rewrite (HF s Hs). apply not_elem_of_nil.
  - apply two_sorts.
Qed.

Lemma ret_exits : exits_end ex_ret_blocks.
Proof.
  assert (Forall (λ s, kind s = KExit → succ_t s = None ∧ succ_f s = None) ex_ret_blocks) as HF
    by (vm_compute; repeat constructor; intros; (discriminate || auto)).
  rewrite Forall_forall in HF. exact HF.
Qed.

(** At the join the length is at least 20; where the branch is not taken it is not
    always 50; the program returns 2. *)
Definition ex_policy : Policy := mk_policy None
  [mk_bc "long" 2 true (CLeaf (LenAtom (Some (JInt 20)) None));
   mk_bc "longer" 1 true (CLeaf (LenAtom (Some (JInt 50)) None))]
  [mk_ec "passes" true (CLeaf (RetAtom OEq 2))].

Definition ex_context := context_for [ex_policy] ex_ret_blocks two_init true 3.
Definition ex_verdicts : list (string * string) :=
  match ex_context with
  | Ok (e, c) => match check 9 e [] ex_policy true c with
                 | Ok out => map (λ r, (cr_verdict r, cr_detail r)) out
                 | Err _ => []
                 end
  | Err _ => []
  end.

Definition ex_check (out : fenv → fctx → list CheckResult → bool) : bool :=
  match ex_context with
  | Ok (e, c) => match check 9 e [] ex_policy true c with Ok l => out e c l | Err _ => false end
  | Err _ => false
  end.

Lemma ex_check_run f : ex_check f = true → ∃ e c out, ex_context = Ok (e, c) ∧
  check 9 e [] ex_policy true c = Ok out ∧ f e c out = true.
Proof.
  unfold ex_check. destruct ex_context as [[e c]|]; [|discriminate].
  destruct (check 9 e [] ex_policy true c) as [out|] eqn:E; [|discriminate]. by exists e, c, out.
Qed.

Lemma check_sound_witness : ∃ e c out r w, ex_context = Ok (e, c) ∧
  check 9 e [] ex_policy true c = Ok out ∧ out !! 1%nat = Some r ∧ cr_witness r = Some w ∧
  leads e c (w_model w) 1 ∧ 1 ∈ w_path w.
Proof.
  destruct (ex_check_run (λ _ _ out, match out with
    | _ :: r :: _ => bool_decide (cr_verdict r = "violated"%string) | _ => false end))
    as (e & c & out & HC & HE & Hv); [vm_compute; reflexivity|].
  destruct (@check_sound two two_laws two_same two_same_laws two_solver two_ast two_scapy
    two_solver_laws 9 [] [ex_policy] ex_ret_blocks two_init true 3 e c ex_policy true out)
    as (rb & re & rr & Hout & HB & _).
  - apply ret_analysable.
  - apply ret_exits.
  - apply two_decides.
  - exact HC.
  - left.
  - intros bc [-> | [-> | Hbc%elem_of_nil]%elem_of_cons]%elem_of_cons; [reflexivity|reflexivity|destruct Hbc].
  - exact HE.
  - destruct rb as [|r1 [|r rb]]; [inversion HB|inversion HB as [|? ? ? ? _ HB']; inversion HB'|].
    inversion HB as [|? ? ? ? _ HB']; subst. inversion HB' as [|? ? ? ? Hr _]; subst.
    apply bool_decide_eq_true in Hv. destruct Hr as [(Hq & _) | (_ & w & Hw & Hs)].
    + rewrite Hv in Hq. discriminate Hq.
    + destruct Hs as (body & _ & Hl & _ & Hp).
      exists e, c, (r1 :: r :: rb ++ re ++ rr), r, w. split_and!; try done.
Defined.

Lemma reach_report_sound_witness : ∃ e c out, ex_context = Ok (e, c) ∧ reach_report 9 e c = Ok out ∧
  length out = length (c_info c).
Proof.
  destruct ex_context as [[e c]|] eqn:HC.
  - destruct (reach_report 9 e c) as [out|] eqn:HE.
    + pose proof (@reach_report_sound two two_laws two_same two_same_laws two_solver two_ast
        two_solver_laws 9 [ex_policy] ex_ret_blocks two_init true 3 e c out ret_analysable two_decides HC HE)
        as HF.
      exists e, c, out. split; [reflexivity|]. split; [exact HE|].
      rewrite <- (Forall2_length _ _ _ HF), merge_sort_Permutation. apply length_map.
    + assert (match ex_context with Ok (e, c) => match reach_report 9 e c with Ok _ => true | _ => false end
              | _ => false end = true) as Hok by (vm_compute; reflexivity).
      rewrite HC, HE in Hok. discriminate Hok.
  - assert (match ex_context with Ok _ => true | _ => false end = true) as Hok by (vm_compute; reflexivity).
    rewrite HC in Hok. discriminate Hok.
Defined.

Lemma return_values_exact_witness : ∃ e c out, ex_context = Ok (e, c) ∧
  reachable_return_values 9 e ex_ret_blocks [0; 1; 2; 3; 4] c = Ok out ∧
  ∀ v, v ∈ out → ∃ m st, leads e c m 2 ∧ ret_state e c 2 = Ok (Some st) ∧ ev m (z_r0 st) = wrap 64 v.
Proof.
  assert (match ex_context with
          | Ok (e, c) => match reachable_return_values 9 e ex_ret_blocks [0; 1; 2; 3; 4] c with
                         | Ok out => bool_decide (out = [2]) | _ => false end
                         && match ret_state e c 2 with Ok (Some st) => size (z_r0 st) =? 64 | _ => true end
          | _ => false end = true) as Hok by (vm_compute; reflexivity).
  destruct ex_context as [[e c]|] eqn:HC; [|discriminate Hok].
  destruct (reachable_return_values 9 e ex_ret_blocks [0; 1; 2; 3; 4] c) as [out|] eqn:HE;
    [|discriminate Hok].
  apply andb_true_iff in Hok as [_ Hsz].
  assert (∀ b, b ∈ exit_blocks ex_ret_blocks → b = 2) as Hb.
  { assert (exit_blocks ex_ret_blocks = [2]) as -> by (vm_compute; reflexivity).
    by intros b Hb%list_elem_of_singleton. }
  exists e, c, out. split; [reflexivity|]. split; [exact HE|]. intros v Hv.
  destruct (proj1 (@return_values_exact two two_laws two_same two_same_laws two_solver two_ast
    two_solver_laws 9 [ex_policy] ex_ret_blocks two_init true 3 e c [0; 1; 2; 3; 4] out
    ret_analysable two_decides HC (λ b st Hbe Hst, ltac:(rewrite (Hb b Hbe) in Hst; rewrite Hst in Hsz;
      exact (proj1 (Z.eqb_eq _ _) Hsz))) HE v) Hv) as (_ & b & m & st & Hbe & _ & Hl & Hst & Hev).
  rewrite (Hb b Hbe) in Hl, Hst. exists m, st. split; [exact Hl|]. split; [exact Hst|exact Hev].
Defined.

(** A solver that never answers. *)
Definition silent : @Solver two := {| check_sat := λ _, Unknown |}.

Lemma unknown_reported_as_holds_witness : ∃ e c r cache, ex_context = Ok (e, c) ∧
  @check_block_condition two silent two_ast two_scapy 9 e []
    (mk_bc "longer" 1 true (CLeaf (LenAtom (Some (JInt 50)) None))) c [] = Ok (r, cache) ∧
  cr_verdict r = "holds"%string.
Proof.
  assert (match ex_context with
          | Ok (e, c) => match @check_block_condition two silent two_ast two_scapy 9 e []
              (mk_bc "longer" 1 true (CLeaf (LenAtom (Some (JInt 50)) None))) c [] with
                         | Ok _ => true | _ => false end
          | _ => false end = true) as Hok by (vm_compute; reflexivity).
  destruct ex_context as [[e c]|] eqn:HC; [|discriminate Hok].
  destruct (@check_block_condition two silent two_ast two_scapy 9 e []
    (mk_bc "longer" 1 true (CLeaf (LenAtom (Some (JInt 50)) None))) c []) as [[r cache]|] eqn:HE;
    [|discriminate Hok].
  exists e, c, r, cache. split; [reflexivity|]. split; [exact HE|].
  eapply (@unknown_reported_as_holds two silent two_ast two_scapy 9 e []
    (mk_bc "longer" 1 true (CLeaf (LenAtom (Some (JInt 50)) None))) c [] r cache).
  - intros l. reflexivity.
  - reflexivity.
  - exact HE.
Defined.

Lemma witness_faithful_witness : ∃ e c w, ex_context = Ok (e, c) ∧
  @build two false two_scapy e [] c 1 (CLeaf (LenAtom (Some (JInt 50)) None)) (state_at e c 1) = Ok w ∧
  w_pkt_len w = 40 ∧ ∀ i x, w_packet w !! i = Some x → x = eva (SMT:=two) false (z_pkt two_init) (Z.of_nat i).
Proof.
  assert (match ex_context with
          | Ok (e, c) => match @build two false two_scapy e [] c 1
              (CLeaf (LenAtom (Some (JInt 50)) None)) (state_at e c 1) with Ok _ => true | _ => false end
          | _ => false end = true) as Hok by (vm_compute; reflexivity).
  destruct ex_context as [[e c]|] eqn:HC; [|discriminate Hok].
  destruct (@build two false two_scapy e [] c 1 (CLeaf (LenAtom (Some (JInt 50)) None))
    (state_at e c 1)) as [w|] eqn:HB; [|discriminate Hok].
  exists e, c, w. split; [reflexivity|]. split; [exact HB|]. unfold ex_context, context_for in HC.
  edestruct (@witness_faithful two two_laws two_same two_same_laws two_scapy false ex_ret_blocks two_init)
    as (_ & _ & Hl & _ & Hp & _); [apply ret_analysable|apply ret_exits|reflexivity|exact HC|exact HB|].
  split; [rewrite Hl; vm_compute; reflexivity|exact Hp].
Defined.
