(* ===== verification/SlicePath.v ===== *)
(** The writes a read resolves are those of the path taken: where the blocks are
    numbered along it, the memory a read finds is the one left by running, block by
    block, the edges the model takes from the entry up to the read. *)

From stdpp Require Import sorting.
From S2P Require Import Prelude Constants Instr Smt SmtTerm Expr Denote Branch Record Link Encode Action.
From S2P Require Import EncodeSound Block Cfg CfgSound Prune PruneSound TopoSound ReachSound Slice SliceSound SliceFold.
From S2P Require Import Spec Forward ForwardSound ForwardExamples CheckerExamples.

(** ** Walks *)

(** [walks R a path b]: the steps of [R] from [a] to [b]. *)
Inductive walks (R : Z → Z → Prop) : Z → list Z → Z → Prop :=
| walks_here b : walks R b [b] b
| walks_on a x path b : R a x → walks R x path b → walks R a (a :: path) b.

Lemma walks_on_way R a path b : walks R a path b → ∀ x, x ∈ path → rtc R a x ∧ rtc R x b.
Proof.
  induction 1 as [b | a y path b HR Hw IH]; intros x.
  - by intros ->%list_elem_of_singleton.
  - intros [-> | Hx]%elem_of_cons.
    + split; [done|]. eapply rtc_l; [done|]. apply (IH y). inversion Hw; left.
    + destruct (IH x Hx). split; [by eapply rtc_l|done].
Qed.

Lemma walks_end R a path b : walks R a path b → b ∈ path.
Proof. induction 1; [left|by right]. Qed.

(** Where each node has one way on and there is no way back, nothing else is on the way. *)
Lemma walks_all R a path b x : (∀ u v w, R u v → R u w → v = w) → ¬ tc R b b →
  walks R a path b → rtc R a x → rtc R x b → x ∈ path.
Proof.
  intros Hdet Hcyc Hw. induction Hw as [b | a y path b HR Hw IH]; intros Hax Hxb.
  - apply rtc_inv in Hax as [-> | (z & Hbz & Hzx)]; [left|]. exfalso. apply Hcyc.
    eapply tc_rtc_r; [by apply tc_once|]. by etrans.
  - apply rtc_inv in Hax as [-> | (z & Haz & Hzx)]; [left|right].
    rewrite (Hdet _ _ _ Haz HR) in Hzx. by apply IH.
Qed.

(** What follows in an order. *)
Lemma later_in (order : list Z) (R : Z → Z → Prop) :
  (∀ O1 O2 x y, order = O1 ++ x :: O2 → R x y → y ∈ O2) →
  ∀ x y, tc R x y → ∀ O1 O2, order = O1 ++ x :: O2 → y ∈ O2.
Proof.
  intros HR x y. induction 1 as [x y Hxy | x z y Hxz _ IH]; intros O1 O2 Ho; [by eapply HR|].
  pose proof (HR _ _ _ _ Ho Hxz) as (P1 & P2 & ->)%list_elem_of_split.
  apply elem_of_app. right. right. apply (IH (O1 ++ x :: P1)). by rewrite Ho, <- app_assoc.
Qed.

Lemma order_acyclic (order : list Z) (R : Z → Z → Prop) b : NoDup order →
  (∀ O1 O2 x y, order = O1 ++ x :: O2 → R x y → y ∈ O2) → b ∈ order → ¬ tc R b b.
Proof.
  intros Hnd HR (O1 & O2 & Ho)%list_elem_of_split Hc. pose proof (later_in _ _ HR _ _ Hc _ _ Ho) as Hb.
  rewrite Ho in Hnd. apply NoDup_app in Hnd as (_ & _ & [Hn _]%NoDup_cons). done.
Qed.

(** ** The writes seen *)

Section path.
Context `{HL : SMTLaws} (m : model) (mem : Memory).
Implicit Types (w : action) (c : cell) (b : Z).

(** Block [b]'s writes that come before the instruction [at_idx] of [at_block]. *)
Definition block_writes (at_block at_idx b : Z) : list action :=
  filter (λ w, is_write w && negb ((b =? at_block) && (at_idx <=? a_idx w)) = true)
    (match m_blocks mem !! Z.to_nat b with Some s => actions s | None => [] end).

(** The memory after running the blocks of a path up to that instruction. *)
Definition run_path (at_block at_idx : Z) (path : list Z) : memory :=
  fold_left (exec_write m mem) (mjoin (map (block_writes at_block at_idx) path)) (initial m mem).

(** Actions carry the number of their block. *)
Definition stamped : Prop := ∀ b s a, 0 <= b → m_blocks mem !! Z.to_nat b = Some s →
  a ∈ actions s → a_block a = b.

Lemma filter_ext_in {A} (P Q : A → Prop) `{∀ x, Decision (P x), ∀ x, Decision (Q x)} (l : list A) :
  (∀ x, x ∈ l → P x ↔ Q x) → filter P l = filter Q l.
Proof.
  induction l as [|x l IH]; intros HPQ; [done|]. rewrite !filter_cons, IH by set_solver.
  specialize (HPQ x ltac:(left)). do 2 case_decide; tauto.
Qed.

Lemma filter_sorted (P : Z → Prop) `{∀ x, Decision (P x)} (l : list Z) :
  StronglySorted Z.lt l → StronglySorted Z.lt (filter P l).
Proof.
  induction 1 as [|x l Hs IH Hx]; [constructor|]. rewrite filter_cons. case_decide; [|done].
  constructor; [done|]. rewrite Forall_forall in *. intros y [_ Hy]%list_elem_of_filter. auto.
Qed.

Lemma sorted_NoDup (l : list Z) : StronglySorted Z.lt l → NoDup l.
Proof.
  induction 1 as [|x l _ IH Hx]; constructor; [|done].
  intros Hin. rewrite Forall_forall in Hx. specialize (Hx x Hin). lia.
Qed.

Lemma zrange_sorted a n : StronglySorted Z.lt (seqZ a n).
Proof.
  destruct (Z.le_gt_cases 0 n) as [Hn | Hn]; [|by rewrite seqZ_nil by lia; constructor].
  revert a. pattern n. apply natlike_ind; [|clear n Hn; intros n Hn IH a|done].
  - intros a. constructor.
  - rewrite seqZ_cons, Z.pred_succ by lia. constructor; [done|].
    apply Forall_forall. intros y Hy%elem_of_seqZ. lia.
Qed.

(** A write of a block that is not reached changes nothing. *)
Lemma run_reached (P : action → bool) l mm c :
  fold_left (exec_write m mem) (filter (λ w, P w = true) l) mm c =
  fold_left (exec_write m mem) (filter (λ w, P w && evg m (m_reach mem (a_block w)) = true) l) mm c.
Proof.
  assert (∀ mm mm', mm c = mm' c →
    fold_left (exec_write m mem) (filter (λ w, P w = true) l) mm c =
    fold_left (exec_write m mem) (filter (λ w, P w && evg m (m_reach mem (a_block w)) = true) l) mm' c)
    as H; [|by apply H].
  induction l as [|w l IH]; intros m1 m2 Hm; [done|]. rewrite !filter_cons.
  destruct (P w); simpl; [|by apply IH].
  destruct (evg m (m_reach mem (a_block w))) eqn:E; simpl; apply IH; unfold exec_write.
  - by rewrite Hm.
  - unfold happens. by rewrite E.
Qed.

Lemma seen_by_block at_block at_idx : stamped →
  filter (λ w, _visible mem w at_block at_idx && evg m (m_reach mem (a_block w)) = true) (writes mem)
  = mjoin (map (block_writes at_block at_idx)
      (filter (λ b, _ran_before_block mem b at_block && evg m (m_reach mem b) = true)
         (zrange 0 (Z.of_nat (length (m_blocks mem)))))).
Proof.
  intros Hst. unfold writes, all_actions, zrange. rewrite Z.sub_0_r, list_filter_filter.
  assert (∀ bl k, 0 <= k → (∀ j s, bl !! j = Some s → m_blocks mem !! Z.to_nat (k + Z.of_nat j) = Some s) →
    filter (λ w, (_visible mem w at_block at_idx && evg m (m_reach mem (a_block w)) = true)
                 ∧ is_write w = true) (mjoin (map actions bl)) =
    mjoin (map (block_writes at_block at_idx)
      (filter (λ b, _ran_before_block mem b at_block && evg m (m_reach mem b) = true)
         (seqZ k (Z.of_nat (length bl)))))) as H.
  2: { apply H; [done|]. intros j s Hj. by rewrite Z.add_0_l, Nat2Z.id. }
  induction bl as [|s bl IH]; intros k Hk Hb; [done|].
  cbn [map length]. rewrite Nat2Z.inj_succ, seqZ_cons, Z.pred_succ by lia.
  change (mjoin (actions s :: ?l)) with (actions s ++ mjoin l).
  rewrite filter_app, filter_cons, (IH (Z.succ k)) by
    (lia || intros j s' Hj; rewrite <- (Hb (S j) s' Hj); do 2 f_equal; lia).
  pose proof (Hb 0%nat s eq_refl) as Hs. rewrite Z.add_0_r in Hs.
  assert (∀ w, w ∈ actions s → a_block w = k) as Hw by (intros; by eapply Hst).
  assert (filter (λ w, (_visible mem w at_block at_idx && evg m (m_reach mem (a_block w)) = true)
                 ∧ is_write w = true) (actions s) =
    if _ran_before_block mem k at_block && evg m (m_reach mem k)
    then block_writes at_block at_idx k else []) as ->.
  { unfold block_writes. rewrite Hs.
    destruct (_ran_before_block mem k at_block && evg m (m_reach mem k)) eqn:E.
    - apply filter_ext_in. intros w Hin. rewrite (Hw w Hin). unfold _visible. rewrite (Hw w Hin).
      apply andb_true_iff in E as [-> Er]. rewrite Er.
      assert (is_False (m_reach mem k) = false) as ->.
      { destruct (is_False _) eqn:Ef; [|done]. by rewrite (evg_False m _ Ef) in Er. }
      rewrite !andb_true_iff. tauto.
    - transitivity (filter (λ w : action, False) (actions s)).
      + apply filter_ext_in. intros w Hin. rewrite (Hw w Hin). unfold _visible. rewrite (Hw w Hin).
        split; [|done]. rewrite !andb_true_iff. intros ((((Ha & _) & _) & Hb') & _).
        by rewrite Ha, Hb' in E.
      + clear. induction (actions s); [done|]. by rewrite filter_cons, decide_False by tauto. }
  by destruct (_ && _).
Qed.

(** Blocks in the order of their numbers, which are the visible and reached ones. *)
Lemma memory_along at_block at_idx path c : stamped → StronglySorted Z.lt path →
  (∀ b, b ∈ path ↔ 0 <= b < Z.of_nat (length (m_blocks mem)) ∧
     _ran_before_block mem b at_block = true ∧ evg m (m_reach mem b) = true) →
  memory_at m mem at_block at_idx c = run_path at_block at_idx path c.
Proof.
  intros Hst Hsort Hpath. unfold memory_at, run_path. rewrite run_reached, seen_by_block by done.
  set (bs := filter _ (zrange 0 _)). replace path with bs; [done|].
  assert (StronglySorted Z.lt bs) as Hbs by by apply filter_sorted, zrange_sorted.
  apply (StronglySorted_unique_strong Z.lt); [intros; lia|done..|].
  apply NoDup_Permutation; [by apply sorted_NoDup..|].
  intros b. unfold bs. rewrite list_elem_of_filter, zrange_elem, andb_true_iff, Hpath. tauto.
Qed.
End path.

(** ** The path taken *)

Section taken.
Context `{HL : SMTLaws} `{!SameTerm} `{!SameTermLaws} (m : model).
Context (blocks : list Block) (init : Z3State) (targets : option (list Z)) (conds : list CondNode).
Context (prune resolve hybrid : bool) (depth : nat) (e : fenv) (c : fctx).
Hypothesis Han : analysable blocks init.
Hypothesis HC : ForwardContext blocks init targets conds prune resolve hybrid depth = Ok (e, c).

Notation taken := (edge_taken m e c).

(** The blocks before [b] that the model reaches are those of its path to [b]. *)
Lemma path_blocks b path : b ∈ e_slice e → walks taken 0 path b →
  ∀ x, x ∈ path ↔ 0 <= x < Z.of_nat (length blocks) ∧
    _ran_before_block (memory_of e c) x b = true ∧ evg m (m_reach (memory_of e c) x) = true.
Proof.
  intros Hb Hw.
  destruct (forward_walked m _ _ _ _ _ _ _ _ _ _ Han HC)
    as (He & _ & order & Hwk & Hwd & Hel & Hrange & _ & Hanc & Hcur).
  apply Hel in Hb.
  assert (∀ O1 O2 x y, order = O1 ++ x :: O2 → pred_edge_in blocks order x y → y ∈ O2) as Hfw.
  { intros O1 O2 x y Ho (_ & Hy & s & Hs & Hp). eapply (wk_forward _ _ Hwk); [exact Ho| |done].
    apply (wk_preds _ _ Hwk y s); [by apply (wk_nonneg _ _ Hwk)|by rewrite He|done]. }
  assert (∀ y, y ∈ order → ∃ s, pget (e_anc e) y = Some s ∧ ∀ x, x ∈ s ↔ tc (pred_edge_in blocks order) x y) as Hspec.
  { destruct (ancestors_spec blocks order (wk_nodup _ _ Hwk) Hrange) as (anc & HA & Hs).
    - intros O1 O2 y x Ho Hxy. pose proof Hxy as (Hx & _). rewrite Ho in Hx.
      apply elem_of_app in Hx as [? | [-> | Hx]%elem_of_cons]; [done| |]; exfalso.
      + by apply (order_acyclic order _ y (wk_nodup _ _ Hwk) Hfw (proj1 (proj2 Hxy))), tc_once.
      + apply list_elem_of_split in Hx as (P1 & P2 & ->).
        assert (y ∈ P2) as Hy by (eapply (Hfw (O1 ++ y :: P1)); [by rewrite Ho, <- app_assoc|done]).
        pose proof (wk_nodup _ _ Hwk) as Hnd. rewrite Ho in Hnd.
        apply NoDup_app in Hnd as (_ & _ & [Hn _]%NoDup_cons). apply Hn, elem_of_app. right. by right.
    - rewrite Hanc in HA. injection HA as <-. exact Hs. }
  destruct (Hspec b Hb) as (anc & Ha & Hmem).
  assert (∀ x, _ran_before_block (memory_of e c) x b = true ↔ x = b ∨ tc (pred_edge_in blocks order) x b) as Hran.
  { intros x. unfold _ran_before_block. simpl. rewrite Ha, orb_true_iff, Z.eqb_eq, bool_decide_eq_true. simpl. by rewrite Hmem. }
  assert (∀ x, evg m (reach c x) = true ↔ x ∈ order ∧ rtc taken 0 x) as Hreach.
  { intros x. unfold reach. rewrite Hcur, <- (w_dom _ _ _ _ Hwd).
    destruct (pget (c_info c) x) as [fi|] eqn:Ef; [rewrite (w_reach _ _ _ _ Hwd x fi Ef); naive_solver|].
    simpl. split; [done|]. by intros [[? ?] _]. }
  assert (∀ x y, taken x y → x ∈ order) as Hdom.
  { intros x y (_ & fi & _ & Hf & _). apply (w_dom _ _ _ _ Hwd). eauto. }
  assert (∀ x y, taken x y → y ∈ order → pred_edge_in blocks order x y) as Hpred.
  { intros x y Hxy Hy. split; [by eapply Hdom|]. split; [done|].
    pose proof (Hrange y Hy) as [Hy0 [s Hs]]%in_range_lookup. exists s. split; [done|].
    apply (wk_preds _ _ Hwk y s); [done|by rewrite He|]. by eapply edge_taken_to. }
  assert (∀ x t, tc taken x t → t ∈ order → x ∈ order ∧ tc (pred_edge_in blocks order) x t) as Htc.
  { induction 1 as [x t Hxt | x y t Hxy _ IH]; intros Ht; (split; [by eapply Hdom|]).
    - by apply tc_once, Hpred.
    - destruct (IH Ht) as [Hy Hyt]. eapply tc_l; [by apply Hpred|done]. }
  assert (¬ tc (pred_edge_in blocks order) b b) as Hcyc
    by (by apply (order_acyclic order _ b (wk_nodup _ _ Hwk) Hfw)).
  intros x. split.
  - intros Hx. destruct (walks_on_way _ _ _ _ Hw x Hx) as [H0x Hxb].
    assert (x ∈ order ∧ (x = b ∨ tc (pred_edge_in blocks order) x b)) as [Hxo Hor].
    { apply rtc_tc in Hxb as [-> | Hxb]; [by auto|]. destruct (Htc _ _ Hxb Hb); auto. }
    split; [|split; [by apply Hran|by apply Hreach]].
    pose proof (Hrange x Hxo) as Hr. unfold in_range in Hr. lia.
  - intros (_ & Hr%Hran & [Hxo H0x]%Hreach).
    assert (∀ u v w, taken u v → taken u w → v = w) as Hdet
      by (intros u v w; apply (edge_taken_det _ _ _ Hwk), Hwd).
    apply (walks_all taken 0 path b x Hdet); [by intros Ht; apply Hcyc, Htc|done|done|].
    assert (rtc taken 0 b) as H0b by (apply (walks_on_way _ _ _ _ Hw b); by apply walks_end in Hw).
    destruct (det_linear _ 0 x b Hdet H0x H0b) as [? | Hbx]; [done|].
    destruct Hr as [-> | Hxb]; [done|]. apply rtc_tc in Hbx as [-> | Hbx]; [done|].
    exfalso. apply Hcyc. etrans; [by apply Htc|done].
Qed.

(** C14 The memory a read finds is the one the path taken leaves. In a model, follow from
    the entry, at each block, the edge whose guard is true; where this leads to the reading
    block, actions carry their block's number and the blocks of the path are in the order of
    their numbers, [memory_at] is the memory after running the writes of those blocks, one
    after the other, up to the reading instruction. *)
Theorem memory_at_path at_block at_idx path cl :
  at_block ∈ e_slice e → walks (edge_taken m e c) 0 path at_block → StronglySorted Z.lt path →
  stamped (memory_of e c) →
  memory_at m (memory_of e c) at_block at_idx cl = run_path m (memory_of e c) at_block at_idx path cl.
Proof.
  intros Hb Hw Hs Hst. apply memory_along; [done|done|]. simpl.
  destruct (forward_walked m _ _ _ _ _ _ _ _ _ _ Han HC) as (-> & _). by apply path_blocks.
Qed.
End taken.

(** ** Examples *)

(** The diamond of [ex_blocks], with stores: block 0 stores 0x1234, block 1 overwrites
    one of the bytes, block 2 reads and overwrites it once more. *)
Definition ex_stores (b : nat) : list action :=
  nth b [[mk_action 0 1 (PktWrite 3 12 VNone 2 (VNum 1 0x1234 2 (-1)))];
         [mk_action 1 4 (PktWrite 3 13 VNone 1 (VNum 4 0xff 1 (-1)))];
         [mk_action 2 9 (PktWrite 3 13 VNone 1 (VNum 4 0xee 1 (-1)))]] [].
Definition ex_store_blocks : list Block := imap (λ b s, set_out (ex_stores b) [] s) ex_blocks.
#[local] Existing Instances ex_same ex_same_laws.
Definition ex_stored := ForwardContext ex_store_blocks ex_st None [] true true false 0.

Lemma ex_store_analysable : analysable ex_store_blocks ex_st.
Proof.
  split.
  - vm_compute. lia.
  - apply mirrors_preds. vm_compute. reflexivity.
  - assert (Forall (λ s, branch s = false → succ_t s = None ∨ succ_f s = None) ex_store_blocks) as HF
      by (vm_compute; repeat constructor; intros; (discriminate || auto)).
    rewrite Forall_forall in HF. exact HF.
  - split; [reflexivity|]. intros s a v st t Hs Ha Hk _. exfalso. revert Hk.
    assert (Forall (λ s, Forall (λ a, is_ctx_write a = false) (actions s)) ex_store_blocks) as HF
      by (vm_compute; by repeat constructor).
    rewrite Forall_forall in HF. specialize (HF s Hs). rewrite Forall_forall in HF. specialize (HF a Ha).
    unfold is_ctx_write in HF. intros Hk. by rewrite Hk in HF.
  - apply ex_st_sorts.
Qed.

Lemma ex_store_stamped b s a : 0 <= b → ex_store_blocks !! Z.to_nat b = Some s → a ∈ actions s → a_block a = b.
Proof.
  intros Hb Hs. unfold ex_store_blocks in Hs. rewrite list_lookup_imap in Hs.
  destruct (ex_blocks !! Z.to_nat b) as [s0|] eqn:E; [|discriminate Hs]. injection Hs as <-.
  apply lookup_lt_Some in E. change (length ex_blocks) with 3%nat in E. simpl.
  assert (b = 0 ∨ b = 1 ∨ b = 2) as [-> | [-> | ->]] by lia; by intros ->%list_elem_of_singleton.
Qed.

Definition leaves_to (r : res (fenv * fctx)) (b t : Z) : bool :=
  match r with
  | Ok (e, c) => match pget (c_info c) b, e_blocks e !! Z.to_nat b with
                 | Some fi, Some s => bool_decide (succ_f s = Some t) && evg ex_not_taken (fi_fall fi) ||
                                      bool_decide (succ_t s = Some t) && evg ex_not_taken (fi_taken fi)
                 | _, _ => false
                 end
  | Err _ => false
  end.

Lemma leaves_to_taken e c b t : 0 <= b → leaves_to (Ok (e, c)) b t = true → edge_taken ex_not_taken e c b t.
Proof.
  intros Hb HF. simpl in HF. split; [done|].
  destruct (pget (c_info c) b) as [fi|], (e_blocks e !! Z.to_nat b) as [s|]; try discriminate HF.
  apply orb_true_iff in HF as [HF | HF]; apply andb_true_iff in HF as [Hs%bool_decide_eq_true Hf]; exists fi, s; auto.
Qed.

Lemma memory_at_path_witness : let cl := mk_cell PKT None None 13 in
  ∃ e c, ex_stored = Ok (e, c) ∧
    memory_at ex_not_taken (memory_of e c) 2 8 cl = run_path ex_not_taken (memory_of e c) 2 8 [0; 1; 2] cl ∧
    run_path ex_not_taken (memory_of e c) 2 8 [0; 1; 2] cl = 0xff.
Proof.
  intros cl.
  assert (leaves_to ex_stored 0 1 = true) as H1 by (vm_compute; reflexivity).
  assert (leaves_to ex_stored 1 2 = true) as H2 by (vm_compute; reflexivity).
  assert (match ex_stored with
          | Ok (e, c) => bool_decide (2 ∈ e_slice e) && (run_path ex_not_taken (memory_of e c) 2 8 [0; 1; 2] cl =? 0xff)
          | Err _ => false
          end = true) as H3 by (vm_compute; reflexivity).
  destruct ex_stored as [[e c]|] eqn:HE; [|discriminate H3]. apply andb_true_iff in H3 as [H3%bool_decide_eq_true H4%Z.eqb_eq].
  exists e, c. split; [reflexivity|]. split; [|exact H4].
  apply (@memory_at_path z3 z3_laws ex_same ex_same_laws ex_not_taken ex_store_blocks ex_st None []
    true true false 0%nat e c ex_store_analysable HE); [exact H3| | |].
  - eapply walks_on; [apply leaves_to_taken; [lia|exact H1]|].
    eapply walks_on; [apply leaves_to_taken; [lia|exact H2]|]. apply walks_here.
  - repeat constructor; lia.
  - destruct (@forward_walked z3 z3_laws ex_same ex_same_laws ex_not_taken ex_store_blocks ex_st None []
      true true false 0%nat e c ex_store_analysable HE) as (He & _).
    intros b s a Hb Hs Ha. simpl in Hs. rewrite He in Hs. by apply (ex_store_stamped b s a).
Defined.

(** Where a jump goes back, the order of the numbers is not that of the path: block 2
    stores 0xbb and jumps to block 1, which stores 0xaa over it and reads 0xbb. *)
Definition ex_back_prog : list instr :=
  map (λ x : Z * list Z, match new_instr x.1 (x.1 * 8) x.2 false with Ok i => i | Err _ => nop_instr x.1 0 end)
    [(0, [0x05; 0; 2; 0; 0; 0; 0; 0]); (1, [0xb7; 0; 0; 0; 0; 0; 0; 0]); (2, [0x95; 0; 0; 0; 0; 0; 0; 0]);
     (3, [0xb7; 0; 0; 0; 0; 0; 0; 0]); (4, [0x05; 0; 0xfc; 0xff; 0; 0; 0; 0])].
Definition ex_back_blocks : list Block :=
  match build_cfg ex_back_prog [] with
  | Ok r => imap (λ b s, set_out (nth b [[]; [mk_action 1 1 (PktWrite 3 13 VNone 1 (VNum 1 0xaa 1 (-1)))];
                                         [mk_action 2 3 (PktWrite 3 13 VNone 1 (VNum 2 0xbb 1 (-1)))]] []) [] s) r.1.1.1
  | Err _ => []
  end.

Lemma backward_jump_misread : let cl := mk_cell PKT None None 13 in
  ∃ e c, ForwardContext ex_back_blocks ex_st None [] true true false 0 = Ok (e, c) ∧
    walks (edge_taken ex_not_taken e c) 0 [0; 2; 1] 1 ∧
    memory_at ex_not_taken (memory_of e c) 1 2 cl = 0xbb ∧
    run_path ex_not_taken (memory_of e c) 1 2 [0; 2; 1] cl = 0xaa.
Proof.
  intros cl. set (r := ForwardContext _ _ _ _ _ _ _ _).
  assert (leaves_to r 0 2 && leaves_to r 2 1 && match r with
          | Ok (e, c) => (memory_at ex_not_taken (memory_of e c) 1 2 cl =? 0xbb) &&
                         (run_path ex_not_taken (memory_of e c) 1 2 [0; 2; 1] cl =? 0xaa)
          | Err _ => false
          end = true) as H by (vm_compute; reflexivity).
  destruct r as [[e c]|]; [|discriminate H]. rewrite !andb_true_iff, !Z.eqb_eq in H. destruct H as [[H1 H2] [H3 H4]].
  exists e, c. split; [reflexivity|]. split; [|done].
  eapply walks_on; [apply leaves_to_taken; [lia|exact H1]|].
  eapply walks_on; [apply leaves_to_taken; [lia|exact H2]|]. apply walks_here.
Qed.
