(* ===== verification/Btf.v ===== *)
(** The type information of an object file: [_parse_btf] and [_btf_type_size] of
    [bpf/loader.py].

    A type's name is kept as the UTF-8 bytes of the Python string, a dict of [extra]
    as a constructor's arguments, the placeholder [types[0]] as [None]. A negative
    position cannot arise: every offset is an unsigned field. *)

From S2P Require Import Prelude Constants Instr.

Definition struct_error : err := ExceptionErr "struct.error".

(** *** Bytes *)

(** [data[pos:pos + n]]. *)
Definition sub_bytes (data : list Z) (pos n : Z) : list Z := take (Z.to_nat n) (drop (Z.to_nat pos) data).

(** Unsigned little-endian fields of the given widths, as [struct] reads them. *)
Fixpoint fields (widths : list nat) (bs : list Z) : list Z :=
  match widths with
  | [] => []
  | w :: ws => le_int (take w bs) :: fields ws (drop w bs)
  end.

(** [struct.unpack_from(fmt, data, pos)]. *)
Definition unpack_from (widths : list nat) (data : list Z) (pos : Z) : res (list Z) :=
  if pos + Z.of_nat (sum_list widths) <=? Z.of_nat (length data)
  then Ok (fields widths (drop (Z.to_nat pos) data)) else Err struct_error.

(** [struct.unpack(fmt, blob)]. *)
Definition unpack (widths : list nat) (blob : list Z) : res (list Z) :=
  if Nat.eqb (length blob) (sum_list widths) then Ok (fields widths blob) else Err struct_error.

(** [struct.iter_unpack('<3I', blob)]. *)
Fixpoint triples (n : nat) (blob : list Z) : list (Z * Z * Z) :=
  match n with
  | O => []
  | S n' => (le_int (take 4 blob), le_int (take 4 (drop 4 blob)), le_int (take 4 (drop 8 blob)))
            :: triples n' (drop 12 blob)
  end.
Definition iter_unpack (blob : list Z) : res (list (Z * Z * Z)) :=
  if Nat.eqb (length blob mod 12) 0 then Ok (triples (length blob / 12) blob) else Err struct_error.

(** *** Text *)

Definition cont (b : Z) : bool := (0x80 <=? b) && (b <=? 0xBF).
Definition within (lo hi b : Z) : bool := (lo <=? b) && (b <=? hi).

(** Well-formed UTF-8, as [bytes.decode] requires it. *)
Fixpoint utf8 (bs : list Z) : bool :=
  match bs with
  | [] => true
  | a :: r =>
      if a <? 0x80 then utf8 r
      else match r with
           | b :: r1 =>
               if within 0xC2 0xDF a then cont b && utf8 r1
               else match r1 with
                    | c :: r2 =>
                        if within 0xE0 0xEF a then
                          within (if a =? 0xE0 then 0xA0 else 0x80) (if a =? 0xED then 0x9F else 0xBF) b
                          && cont c && utf8 r2
                        else match r2 with
                             | d :: r3 =>
                                 within 0xF0 0xF4 a
                                 && within (if a =? 0xF0 then 0x90 else 0x80)
                                           (if a =? 0xF4 then 0x8F else 0xBF) b
                                 && cont c && cont d && utf8 r3
                             | [] => false
                             end
                    | [] => false
                    end
           | [] => false
           end
  end.

Fixpoint to_text (bs : list Z) : string :=
  match bs with [] => "" | b :: bs' => String (Ascii.ascii_of_nat (Z.to_nat b)) (to_text bs') end.

(** The bytes before the first zero; [index] raises without one. *)
Fixpoint until_zero (bs : list Z) : option (list Z) :=
  match bs with
  | [] => None
  | b :: bs' => if b =? 0 then Some [] else cons b <$> until_zero bs'
  end.

Definition get_str (data : list Z) (str_base off : Z) : res string :=
  bs ← of_option (ValueError "subsection not found") (until_zero (drop (Z.to_nat (str_base + off)) data));
  if utf8 bs then Ok (to_text bs) else Err (ValueError "invalid utf-8").

(** *** Types *)

Record btf_member := mk_member { mb_name : string; mb_type : Z; mb_offset : Z }.
Record btf_secinfo := mk_secinfo { si_type : Z; si_offset : Z; si_size : Z }.

Inductive btf_extra :=
| XInt (n : Z)
| XArray (elem index nelems : Z)
| XMembers (l : list btf_member)
| XLinkage (n : Z)
| XSections (l : list btf_secinfo)
| XNone.

Record btf_type := mk_btf {
  bt_name : string;
  bt_kind : Z;
  bt_vlen : Z;
  bt_kind_flag : Z;
  bt_size : Z;
  bt_extra : btf_extra
}.

Definition _EXTRA_FIXED : list (Z * Z) := [(1, 4); (3, 12); (14, 4); (17, 4)].
Definition _EXTRA_VLEN : list (Z * Z) := [(4, 12); (5, 12); (6, 8); (13, 8); (15, 12); (19, 12)].

(** The length of what follows a type's header. *)
Definition extra_len (kind vlen : Z) : Z :=
  match pget _EXTRA_FIXED kind with
  | Some n => n
  | None => default 0 (pget _EXTRA_VLEN kind) * vlen
  end.

Definition parse_extra (str : Z → res string) (kind : Z) (blob : list Z) : res btf_extra :=
  if kind =? 1 then x ← unpack [4%nat] blob; n ← py_index x 0; Ok (XInt n)
  else if kind =? 3 then
    x ← unpack [4%nat; 4%nat; 4%nat] blob;
    match x with [a; b; c] => Ok (XArray a b c) | _ => Err struct_error end
  else if (kind =? 4) || (kind =? 5) then
    l ← iter_unpack blob;
    ms ← mapR (λ x : Z * Z * Z, n ← str x.1.1; Ok (mk_member n x.1.2 x.2)) l;
    Ok (XMembers ms)
  else if kind =? 14 then x ← unpack [4%nat] blob; n ← py_index x 0; Ok (XLinkage n)
  else if kind =? 15 then
    l ← iter_unpack blob; Ok (XSections (map (λ x : Z * Z * Z, mk_secinfo x.1.1 x.1.2 x.2) l))
  else Ok XNone.

(** One type at [pos], and where the next one starts. *)
Definition parse_type (data : list Z) (str : Z → res string) (pos : Z) : res (btf_type * Z) :=
  x ← unpack_from [4%nat; 4%nat; 4%nat] data pos;
  match x with
  | [name_off; info; size_or_type] =>
      let pos := pos + 12 in
      let vlen := Z.land info 0xFFFF in
      let kind := Z.land (Z.shiftr info 24) 0x1F in
      let n := extra_len kind vlen in
      extra ← parse_extra str kind (sub_bytes data pos n);
      name ← str name_off;
      Ok (mk_btf name kind vlen (Z.land (Z.shiftr info 31) 1) size_or_type extra, pos + n)
  | _ => Err struct_error
  end.

(** A type takes twelve bytes at least, so the bytes bound the turns. *)
Fixpoint types_loop (fuel : nat) (data : list Z) (str : Z → res string) (type_end pos : Z)
    (types : list (option btf_type)) : res (list (option btf_type)) :=
  if pos <? type_end then
    match fuel with
    | O => Err (RuntimeError "out of fuel")
    | S fuel' => '(t, pos) ← parse_type data str pos;
                 types_loop fuel' data str type_end pos (types ++ [Some t])
    end
  else Ok types.

Definition _parse_btf (data : list Z) : res (list (option btf_type)) :=
  x ← unpack_from [2%nat; 1%nat; 1%nat; 4%nat; 4%nat; 4%nat; 4%nat; 4%nat] data 0;
  match x with
  | [magic; _; _; hdr_len; type_off; type_len; str_off; _] =>
      guard_or (magic =? 0xEB9F) (ValueError "Invalid BTF magic");;
      let pos := hdr_len + type_off in
      types_loop (S (length data)) data (get_str data (hdr_len + str_off)) (pos + type_len) pos [None]
  | _ => Err struct_error
  end.

(** [types[i]['kind']] and the rest: the placeholder has no items. *)
Definition type_at (types : list (option btf_type)) (i : Z) : res btf_type :=
  t ← py_index types i; of_option TypeError t.

(** [depth] is the recursion limit. *)
Fixpoint _btf_type_size (depth : nat) (types : list (option btf_type)) (type_id : Z) : res Z :=
  if type_id =? 0 then Ok 0
  else
    match depth with
    | O => Err (RuntimeError "maximum recursion depth exceeded")
    | S depth' =>
        t ← type_at types type_id;
        if existsb (Z.eqb (bt_kind t)) [1; 4; 5; 6; 16; 19] then Ok (bt_size t)
        else if bt_kind t =? 2 then Ok 8
        else if bt_kind t =? 3 then
          match bt_extra t with
          | XArray elem _ nelems => n ← _btf_type_size depth' types elem; Ok (n * nelems)
          | _ => Err TypeError
          end
        else if existsb (Z.eqb (bt_kind t)) [8; 9; 10; 11; 18] then _btf_type_size depth' types (bt_size t)
        else Ok 0
    end.
