(* ===== verification/BtfSound.v ===== *)
(** The type section is read back as it was written ([_parse_btf] of
    [bpf/loader.py]), and sizes are those of the type graph. *)

From S2P Require Import Prelude Constants Words Instr Btf.

(** ** An encoder

    A type as the section holds it: offsets of names in place of the names, and the
    words after the header. *)

Record raw_type := mk_raw {
  rt_name : Z;
  rt_kind : Z;
  rt_vlen : Z;
  rt_flag : Z;
  rt_size : Z;
  rt_words : list Z
}.

Definition le32 (v : Z) : list Z := le_bytes 4 v.
Definition le32s (ws : list Z) : list Z := mjoin (map le32 ws).

Definition info_word (t : raw_type) : Z := rt_vlen t + rt_kind t * 2 ^ 24 + rt_flag t * 2 ^ 31.
Definition enc_type (t : raw_type) : list Z :=
  le32s [rt_name t; info_word t; rt_size t] ++ le32s (rt_words t).

Definition u32 (v : Z) : Prop := 0 <= v < 2 ^ 32.
Record raw_ok (t : raw_type) : Prop := {
  ro_name : u32 (rt_name t);
  ro_kind : 0 <= rt_kind t < 32;
  ro_vlen : 0 <= rt_vlen t < 2 ^ 16;
  ro_flag : 0 <= rt_flag t < 2;
  ro_size : u32 (rt_size t);
  ro_words : Forall u32 (rt_words t);
  ro_len : 4 * Z.of_nat (length (rt_words t)) = extra_len (rt_kind t) (rt_vlen t)
}.

(** What the words of a type say. *)
Fixpoint word_triples (ws : list Z) : list (Z * Z * Z) :=
  match ws with a :: b :: c :: r => (a, b, c) :: word_triples r | _ => [] end.

Definition words_extra (str : Z → res string) (kind : Z) (ws : list Z) : res btf_extra :=
  if kind =? 1 then match ws with [n] => Ok (XInt n) | _ => Err struct_error end
  else if kind =? 3 then match ws with [a; b; c] => Ok (XArray a b c) | _ => Err struct_error end
  else if (kind =? 4) || (kind =? 5) then
    ms ← mapR (λ x : Z * Z * Z, n ← str x.1.1; Ok (mk_member n x.1.2 x.2)) (word_triples ws);
    Ok (XMembers ms)
  else if kind =? 14 then match ws with [n] => Ok (XLinkage n) | _ => Err struct_error end
  else if kind =? 15 then
    Ok (XSections (map (λ x : Z * Z * Z, mk_secinfo x.1.1 x.1.2 x.2) (word_triples ws)))
  else Ok XNone.

Definition raw_meaning (str : Z → res string) (t : raw_type) : res btf_type :=
  extra ← words_extra str (rt_kind t) (rt_words t);
  name ← str (rt_name t);
  Ok (mk_btf name (rt_kind t) (rt_vlen t) (rt_flag t) (rt_size t) extra).

(** ** Words *)

Lemma length_le32 v : length (le32 v) = 4%nat.
Proof. apply length_le_bytes. Qed.
Lemma length_le32s ws : length (le32s ws) = (4 * length ws)%nat.
Proof.
  induction ws as [|w ws IH]; [done|]. change (le32s (w :: ws)) with (le32 w ++ le32s ws).
  rewrite length_app, length_le32, IH. simpl. lia.
Qed.

Lemma le32_int v : u32 v → le_int (le32 v) = v.
Proof. intros Hv. unfold le32. rewrite le_int_bytes. apply Z.mod_small. exact Hv. Qed.

Lemma take_le32 v rest : take 4 (le32 v ++ rest) = le32 v.
Proof. apply take_app_length'. by rewrite length_le32. Qed.
Lemma drop_le32 v rest : drop 4 (le32 v ++ rest) = rest.
Proof. apply drop_app_length'. by rewrite length_le32. Qed.

Lemma fields_le32 ws rest : Forall u32 ws →
  fields (replicate (length ws) 4%nat) (le32s ws ++ rest) = ws.
Proof.
  induction 1 as [|w ws Hw _ IH]; [done|].
  change (le32s (w :: ws)) with (le32 w ++ le32s ws). cbn [length replicate fields].
  rewrite <- app_assoc, take_le32, drop_le32, IH, le32_int by done. done.
Qed.

Lemma triples_le32 n ws : Forall u32 ws → length ws = (3 * n)%nat →
  triples n (le32s ws) = word_triples ws.
Proof.
  revert ws. induction n as [|n IH]; intros ws Hu Hl; [by destruct ws|].
  destruct ws as [|a [|b [|c ws]]]; [simpl in Hl; lia..|].
  inversion Hu as [|? ? Ha Hu1]; subst. inversion Hu1 as [|? ? Hb Hu2]; subst.
  inversion Hu2 as [|? ? Hc Hu3]; subst.
  change (le32s (a :: b :: c :: ws)) with (le32 a ++ le32 b ++ le32 c ++ le32s ws).
  cbn [triples word_triples]. change 12%nat with (4 + 8)%nat. change 8%nat with (4 + 4)%nat.
  rewrite <- !drop_drop, !drop_le32, !take_le32, !le32_int by done. f_equal. apply IH; [done|simpl in Hl; lia].
Qed.

Lemma unpack_words ws : Forall u32 ws → unpack (replicate (length ws) 4%nat) (le32s ws) = Ok ws.
Proof.
  intros Hu. unfold unpack. rewrite length_le32s, sum_list_replicate, Nat.mul_comm, Nat.eqb_refl.
  pose proof (fields_le32 ws [] Hu) as HF. rewrite app_nil_r in HF. by rewrite HF.
Qed.

Lemma iter_words ws n : Forall u32 ws → length ws = (3 * n)%nat →
  iter_unpack (le32s ws) = Ok (word_triples ws).
Proof.
  intros Hu Hl. unfold iter_unpack. rewrite length_le32s, Hl.
  replace (4 * (3 * n))%nat with (n * 12)%nat by lia.
  rewrite Nat.Div0.mod_mul, Nat.eqb_refl, Nat.div_mul by lia. by rewrite triples_le32.
Qed.

Lemma parse_extra_words str t : raw_ok t →
  parse_extra str (rt_kind t) (le32s (rt_words t)) = words_extra str (rt_kind t) (rt_words t).
Proof.
  intros [_ _ Hv _ _ Hu Hl]. unfold parse_extra, words_extra, extra_len in *.
  assert (∀ n, Z.of_nat (length (rt_words t)) = Z.of_nat n → length (rt_words t) = n) as Hnat
    by (intros n; lia).
  pose proof (unpack_words _ Hu) as HU.
  destruct (rt_kind t =? 1) eqn:E1; [apply Z.eqb_eq in E1; rewrite E1 in Hl; simpl in Hl|].
  { rewrite (Hnat 1%nat ltac:(lia)) in HU. simpl in HU. rewrite HU. simpl.
    destruct (rt_words t) as [|a [|b l]]; simpl in *; try lia. done. }
  destruct (rt_kind t =? 3) eqn:E3; [apply Z.eqb_eq in E3; rewrite E3 in Hl; simpl in Hl|].
  { rewrite (Hnat 3%nat ltac:(lia)) in HU. simpl in HU. rewrite HU. simpl.
    by destruct (rt_words t) as [|a [|b [|c [|d l]]]]. }
  destruct ((rt_kind t =? 4) || (rt_kind t =? 5)) eqn:E4.
  { assert (4 * Z.of_nat (length (rt_words t)) = 12 * rt_vlen t) as Hl'
      by (apply orb_true_iff in E4 as [E|E]; apply Z.eqb_eq in E; rewrite E in Hl; exact Hl).
    by rewrite (iter_words _ (Z.to_nat (rt_vlen t))) by (done || lia). }
  destruct (rt_kind t =? 14) eqn:E14; [apply Z.eqb_eq in E14; rewrite E14 in Hl; simpl in Hl|].
  { rewrite (Hnat 1%nat ltac:(lia)) in HU. simpl in HU. rewrite HU. simpl.
    destruct (rt_words t) as [|a [|b l]]; simpl in *; try lia. done. }
  destruct (rt_kind t =? 15) eqn:E15; [apply Z.eqb_eq in E15; rewrite E15 in Hl|done].
  assert (4 * Z.of_nat (length (rt_words t)) = 12 * rt_vlen t) as Hl' by exact Hl.
  by rewrite (iter_words _ (Z.to_nat (rt_vlen t))) by (done || lia).
Qed.

(** ** Types *)

Lemma info_fields t : raw_ok t → u32 (info_word t) ∧ Z.land (info_word t) 0xFFFF = rt_vlen t ∧
  Z.land (Z.shiftr (info_word t) 24) 0x1F = rt_kind t ∧
  Z.land (Z.shiftr (info_word t) 31) 1 = rt_flag t.
Proof.
  intros [_ Hk Hv Hf _ _ _]. unfold info_word, u32.
  change 0xFFFF with (Z.ones 16).
  match goal with |- context [Z.land ?x 31] => change (Z.land x 31) with (Z.land x (Z.ones 5)) end.
  match goal with |- context [Z.land ?x 1] => change (Z.land x 1) with (Z.land x (Z.ones 1)) end.
  rewrite !Z.land_ones, !Z.shiftr_div_pow2 by lia. split_and!; try lia.
  - replace (rt_vlen t + rt_kind t * 2 ^ 24 + rt_flag t * 2 ^ 31)
      with (rt_vlen t + (rt_kind t * 2 ^ 8 + rt_flag t * 2 ^ 15) * 2 ^ 16) by lia.
    rewrite Z.mod_add by lia. by apply Z.mod_small.
  - replace (rt_vlen t + rt_kind t * 2 ^ 24 + rt_flag t * 2 ^ 31)
      with (rt_vlen t + (rt_kind t + rt_flag t * 2 ^ 7) * 2 ^ 24) by lia.
    rewrite Z.div_add, (Z.div_small (rt_vlen t)) by lia.
    replace (0 + (rt_kind t + rt_flag t * 2 ^ 7)) with (rt_kind t + (rt_flag t * 4) * 2 ^ 5) by lia.
    rewrite Z.mod_add by lia. by apply Z.mod_small.
  - rewrite Z.div_add, (Z.div_small (_ + _)) by lia. rewrite Z.add_0_l. by apply Z.mod_small.
Qed.

Definition enc_len (t : raw_type) : Z := Z.of_nat (length (enc_type t)).

Lemma enc_len_eq t : raw_ok t → enc_len t = 12 + extra_len (rt_kind t) (rt_vlen t).
Proof.
  intros Hok. unfold enc_len, enc_type. rewrite length_app, !length_le32s. rewrite <- (ro_len t Hok).
  simpl. lia.
Qed.

(** One type, wherever it starts. *)
Lemma parse_type_enc data str pos t rest : raw_ok t → 0 <= pos <= Z.of_nat (length data) →
  drop (Z.to_nat pos) data = enc_type t ++ rest →
  parse_type data str pos = (m ← raw_meaning str t; Ok (m, pos + enc_len t)).
Proof.
  intros Hok Hpos Hd. pose proof (info_fields t Hok) as (Hi & Hvl & Hkd & Hfl).
  assert (Z.of_nat (length data) = pos + enc_len t + Z.of_nat (length rest)) as Hlen.
  { apply (f_equal length) in Hd. rewrite length_drop, length_app in Hd. unfold enc_len. lia. }
  pose proof (enc_len_eq t Hok) as Hel.
  assert (0 <= extra_len (rt_kind t) (rt_vlen t)) as Hx by (rewrite <- (ro_len t Hok); lia).
  unfold parse_type, unpack_from. rewrite (proj2 (Z.leb_le _ _)) by (simpl; lia).
  rewrite Hd. unfold enc_type. rewrite <- app_assoc.
  pose proof (fields_le32 [rt_name t; info_word t; rt_size t] (le32s (rt_words t) ++ rest)) as HF.
  cbn [length replicate] in HF. rewrite HF by (repeat (constructor; [first [exact Hi | apply Hok]|]); constructor).
  cbn [mbind res_bind]. cbv zeta.
  rewrite Hvl, Hkd, Hfl. unfold raw_meaning.
  assert (sub_bytes data (pos + 12) (extra_len (rt_kind t) (rt_vlen t)) = le32s (rt_words t)) as ->.
  { unfold sub_bytes. replace (Z.to_nat (pos + 12)) with (Z.to_nat pos + 12)%nat by lia.
    rewrite <- drop_drop, Hd. unfold enc_type. rewrite <- app_assoc.
    rewrite drop_app_length' by (by rewrite length_le32s).
    apply take_app_length'. rewrite length_le32s. pose proof (ro_len t Hok). lia. }
  rewrite (parse_extra_words str t Hok).
  destruct (words_extra _ _ _); [|done]. simpl. destruct (str (rt_name t)); [|done]. simpl.
  by rewrite Hel, Z.add_assoc.
Qed.

Lemma types_loop_enc data str rts : ∀ fuel pos rest types, Forall raw_ok rts →
  0 <= pos <= Z.of_nat (length data) → (length rts < fuel)%nat →
  drop (Z.to_nat pos) data = mjoin (map enc_type rts) ++ rest →
  types_loop fuel data str (pos + Z.of_nat (length (mjoin (map enc_type rts)))) pos types =
    (ts ← mapR (raw_meaning str) rts; Ok (types ++ map Some ts)).
Proof.
  induction rts as [|t rts IH]; intros fuel pos rest types Hok Hpos Hf Hd.
  - simpl. destruct fuel; simpl; rewrite (proj2 (Z.ltb_ge _ _)) by lia; by rewrite app_nil_r.
  - inversion Hok as [|? ? Ht Hts]; subst. destruct fuel as [|fuel]; [simpl in Hf; lia|].
    change (mjoin (map enc_type (t :: rts))) with (enc_type t ++ mjoin (map enc_type rts)) in *.
    rewrite <- app_assoc in Hd.
    pose proof (enc_len_eq t Ht) as Hel. pose proof (ro_len t Ht) as Hrl.
    assert (Z.of_nat (length data) =
      pos + enc_len t + Z.of_nat (length (mjoin (map enc_type rts) ++ rest))) as Hlen.
    { apply (f_equal length) in Hd. rewrite length_drop, length_app in Hd. unfold enc_len. lia. }
    cbn [types_loop]. rewrite (proj2 (Z.ltb_lt _ _)) by (rewrite length_app; unfold enc_len in *; lia).
    rewrite (parse_type_enc data str pos t _ Ht Hpos Hd). cbn [mapR].
    destruct (raw_meaning str t) as [m|]; [|done]. cbn [mbind res_bind].
    replace (pos + Z.of_nat (length (enc_type t ++ mjoin (map enc_type rts))))
      with (pos + enc_len t + Z.of_nat (length (mjoin (map enc_type rts))))
      by (rewrite length_app; unfold enc_len; lia).
    rewrite (IH fuel (pos + enc_len t) rest (types ++ [Some m])); [|done|lia|simpl in Hf; lia|].
    + destruct (mapR (raw_meaning str) rts); [|done]. simpl. by rewrite <- app_assoc.
    + replace (Z.to_nat (pos + enc_len t)) with (Z.to_nat pos + length (enc_type t))%nat
        by (unfold enc_len; lia).
      by rewrite <- drop_drop, Hd, drop_app_length.
Qed.

(** A section: its header, the types and the strings. *)
Definition enc_btf (version flags : Z) (rts : list raw_type) (strs : list Z) : list Z :=
  let types := mjoin (map enc_type rts) in
  le_bytes 2 0xEB9F ++ [version; flags]
  ++ le32s [24; 0; Z.of_nat (length types); Z.of_nat (length types); Z.of_nat (length strs)]
  ++ types ++ strs.

Lemma length_types rts : Forall raw_ok rts → (length rts ≤ length (mjoin (map enc_type rts)))%nat.
Proof.
  induction 1 as [|t rts Ht _ IH]; [done|].
  change (mjoin (map enc_type (t :: rts))) with (enc_type t ++ mjoin (map enc_type rts)).
  rewrite length_app. pose proof (enc_len_eq t Ht) as Hel. pose proof (ro_len t Ht).
  unfold enc_len in Hel. simpl. lia.
Qed.

Lemma word_triples_u32 ws : Forall u32 ws → Forall (λ x, 0 <= x.1.1) (word_triples ws).
Proof.
  remember (length ws) as n eqn:Hn. revert ws Hn. induction (lt_wf n) as [n _ IH].
  intros [|a [|b [|c ws]]] -> Hu; simpl; try constructor.
  - inversion Hu as [|? ? [Ha _] _]; subst. exact Ha.
  - apply (IH (length ws)); [simpl; lia|done|]. by repeat (apply Forall_cons in Hu as [_ Hu]).
Qed.

Lemma mapR_ext {A B} (f g : A → res B) l : Forall (λ x, f x = g x) l → mapR f l = mapR g l.
Proof. induction 1 as [|x l Hx _ IH]; [done|]. simpl. by rewrite Hx, IH. Qed.

Lemma raw_meaning_ext str str' t : raw_ok t → (∀ o, 0 <= o → str o = str' o) →
  raw_meaning str t = raw_meaning str' t.
Proof.
  intros Hok Hs. unfold raw_meaning. rewrite (Hs (rt_name t)) by apply Hok.
  assert (words_extra str (rt_kind t) (rt_words t) = words_extra str' (rt_kind t) (rt_words t)) as ->; [|done].
  unfold words_extra. destruct (_ =? 1); [done|]. destruct (_ =? 3); [done|]. destruct (_ || _); [|done].
  f_equal. apply mapR_ext. eapply Forall_impl; [apply word_triples_u32, Hok|]. intros x Hx. simpl in *.
  by rewrite Hs.
Qed.

(** C26 The parser of the type information reads back what was written: on a section
    made of a header, types and their strings it returns the placeholder and, in
    order, every type with its name, kind, flag, size and members, and it fails
    exactly when a name is not a terminated UTF-8 string. It stops at the end of
    the types. *)
Theorem btf_roundtrip version flags rts strs :
  Forall raw_ok rts → u32 (Z.of_nat (length (mjoin (map enc_type rts)))) →
  u32 (Z.of_nat (length strs)) →
  _parse_btf (enc_btf version flags rts strs) =
    (ts ← mapR (raw_meaning (get_str strs 0)) rts; Ok (None :: map Some ts)).
Proof.
  intros Hok Hlt Hls. unfold enc_btf. cbv zeta. set (types := mjoin (map enc_type rts)) in *.
  set (lt := Z.of_nat (length types)) in *. set (ls := Z.of_nat (length strs)) in *.
  set (hdr := le_bytes 2 0xEB9F ++ [version; flags] ++ le32s [24; 0; lt; lt; ls]).
  assert (length hdr = 24%nat) as Hh
    by (unfold hdr; rewrite !length_app, length_le32s, length_le_bytes; done).
  set (data := _ ++ _ ++ _). assert (data = hdr ++ types ++ strs) as Hdata
    by (unfold data, hdr; by rewrite <- !app_assoc).
  assert (length data = 24 + length types + length strs)%nat as Hld
    by (rewrite Hdata, !length_app, Hh; lia).
  unfold _parse_btf, unpack_from. rewrite (proj2 (Z.leb_le _ _)) by (rewrite Hld; simpl; lia).
  change (Z.to_nat 0) with 0%nat. rewrite drop_0.
  assert (fields [2%nat; 1%nat; 1%nat; 4%nat; 4%nat; 4%nat; 4%nat; 4%nat] data
    = [0xEB9F; version; flags; 24; 0; lt; lt; ls]) as ->.
  { rewrite Hdata. unfold hdr. rewrite <- !app_assoc.
    change (le_bytes 2 0xEB9F ++ ?x) with (0x9F :: 0xEB :: x).
    change ([version; flags] ++ ?x) with (version :: flags :: x).
    set (rest := le32s [24; 0; lt; lt; ls] ++ types ++ strs).
    change (fields (2 :: 1 :: 1 :: ?ws)%nat (?a :: ?b :: ?c :: ?d :: rest))
      with (le_int [a; b] :: le_int [c] :: le_int [d] :: fields ws rest).
    change (le_int [0x9F; 0xEB]) with 0xEB9F. cbn [le_int]. rewrite !Z.mul_0_r, !Z.add_0_r. unfold rest.
    pose proof (fields_le32 [24; 0; lt; lt; ls] (types ++ strs)) as HF. cbn [length replicate] in HF.
    rewrite HF; [reflexivity|]. unfold u32 in *. rewrite !Forall_cons. split_and!; try lia. constructor. }
  cbn [mbind res_bind]. change (guard_or (0xEB9F =? 0xEB9F) ?x) with (@Ok unit ()). cbn [mbind res_bind].
  rewrite (types_loop_enc data _ rts (S (length data)) (24 + 0) strs [None] Hok); [|lia| |].
  - assert (mapR (raw_meaning (get_str data (24 + lt))) rts = mapR (raw_meaning (get_str strs 0)) rts) as ->;
      [|done].
    apply mapR_ext. eapply Forall_impl; [exact Hok|]. intros t Ht. apply (raw_meaning_ext _ _ t Ht).
    intros o Ho. unfold get_str.
    replace (Z.to_nat (24 + lt + o)) with (24 + (length types + Z.to_nat o))%nat by (unfold lt; lia).
    rewrite <- drop_drop, Hdata, <- Hh, drop_app_length, <- drop_drop, drop_app_length.
    by rewrite Z.add_0_l.
  - pose proof (length_types rts Hok). unfold types in Hld. lia.
  - change (Z.to_nat (24 + 0)) with 24%nat. rewrite Hdata, <- Hh. by rewrite drop_app_length.
Qed.

(** ** Sizes *)

Definition own_size (k : Z) : bool := existsb (Z.eqb k) [1; 4; 5; 6; 16; 19].
Definition alias (k : Z) : bool := existsb (Z.eqb k) [8; 9; 10; 11; 18].

(** The size of a type, by the rules of the format. *)
Inductive sizeof (types : list (option btf_type)) : Z → Z → Prop :=
| sz_void : sizeof types 0 0
| sz_own i t : i ≠ 0 → type_at types i = Ok t → own_size (bt_kind t) = true → sizeof types i (bt_size t)
| sz_ptr i t : i ≠ 0 → type_at types i = Ok t → bt_kind t = 2 → sizeof types i 8
| sz_array i t elem ix n s : i ≠ 0 → type_at types i = Ok t → bt_kind t = 3 →
    bt_extra t = XArray elem ix n → sizeof types elem s → sizeof types i (s * n)
| sz_alias i t s : i ≠ 0 → type_at types i = Ok t → alias (bt_kind t) = true →
    sizeof types (bt_size t) s → sizeof types i s
| sz_none i t : i ≠ 0 → type_at types i = Ok t → own_size (bt_kind t) = false →
    alias (bt_kind t) = false → bt_kind t ≠ 2 → bt_kind t ≠ 3 → sizeof types i 0.

Lemma kind_cases k :
  (own_size k = true ∧ alias k = false ∧ k ≠ 2 ∧ k ≠ 3) ∨ k = 2 ∨ k = 3 ∨
  (alias k = true ∧ own_size k = false ∧ k ≠ 2 ∧ k ≠ 3) ∨
  (own_size k = false ∧ alias k = false ∧ k ≠ 2 ∧ k ≠ 3).
Proof. unfold own_size, alias. simpl. lia. Qed.

(** Unfolding by the kind. *)
Lemma type_size_step types i t depth : i ≠ 0 → type_at types i = Ok t →
  _btf_type_size (S depth) types i =
    if own_size (bt_kind t) then Ok (bt_size t)
    else if bt_kind t =? 2 then Ok 8
    else if bt_kind t =? 3 then
      match bt_extra t with
      | XArray elem _ nelems => n ← _btf_type_size depth types elem; Ok (n * nelems)
      | _ => Err TypeError
      end
    else if alias (bt_kind t) then _btf_type_size depth types (bt_size t) else Ok 0.
Proof.
  intros Hi Ht. cbn [_btf_type_size]. rewrite (proj2 (Z.eqb_neq i 0) Hi), Ht. done.
Qed.

Lemma sizeof_run types i n : sizeof types i n → ∃ d, ∀ depth, (d <= depth)%nat →
  _btf_type_size depth types i = Ok n.
Proof.
  induction 1 as [|i t Hi Ht Hk|i t Hi Ht Hk|i t elem ix n s Hi Ht Hk Hx _ [d IH]|i t s Hi Ht Hk _ [d IH]
    |i t Hi Ht Ho Ha H2 H3].
  - exists 0%nat. intros [|depth] _; done.
  - exists 1%nat. intros [|depth] Hd; [lia|]. by rewrite (type_size_step _ _ _ _ Hi Ht), Hk.
  - exists 1%nat. intros [|depth] Hd; [lia|]. by rewrite (type_size_step _ _ _ _ Hi Ht), Hk.
  - exists (S d). intros [|depth] Hd; [lia|]. rewrite (type_size_step _ _ _ _ Hi Ht), Hk, Hx. simpl.
    by rewrite IH by lia.
  - exists (S d). intros [|depth] Hd; [lia|]. rewrite (type_size_step _ _ _ _ Hi Ht).
    destruct (kind_cases (bt_kind t)) as [(?&?&_)|[E|[E|[(?&Ho&H2&H3)|(?&?&_)]]]];
      try congruence; try (by rewrite E in Hk).
    rewrite Ho, (proj2 (Z.eqb_neq _ _) H2), (proj2 (Z.eqb_neq _ _) H3), Hk. apply IH. lia.
  - exists 1%nat. intros [|depth] Hd; [lia|]. rewrite (type_size_step _ _ _ _ Hi Ht).
    by rewrite Ho, (proj2 (Z.eqb_neq _ _) H2), (proj2 (Z.eqb_neq _ _) H3), Ha.
Qed.

Lemma run_sizeof types depth : ∀ i n, _btf_type_size depth types i = Ok n → sizeof types i n.
Proof.
  induction depth as [|depth IH]; intros i n HE.
  - simpl in HE. destruct (i =? 0) eqn:E; [|done]. apply Z.eqb_eq in E as ->. injection HE as <-. constructor.
  - destruct (Z.eq_dec i 0) as [-> | Hi]; [injection HE as <-; constructor|].
    destruct (type_at types i) as [t|] eqn:Ht.
    2:{ cbn [_btf_type_size] in HE. by rewrite (proj2 (Z.eqb_neq i 0) Hi), Ht in HE. }
    rewrite (type_size_step _ _ _ _ Hi Ht) in HE.
    destruct (own_size (bt_kind t)) eqn:Eo; [injection HE as <-; by apply (sz_own types i t)|].
    destruct (bt_kind t =? 2) eqn:E2; [injection HE as <-; apply (sz_ptr types i t); [done..|lia]|].
    destruct (bt_kind t =? 3) eqn:E3.
    + destruct (bt_extra t) as [|elem ix m| | | |] eqn:Ex; try done.
      apply bind_Ok in HE as (s & Hs & [= <-]). apply (sz_array types i t elem ix); auto. lia.
    + destruct (alias (bt_kind t)) eqn:Ea; [apply (sz_alias types i t); auto|].
      injection HE as <-. apply (sz_none types i t); [done..|lia|lia].
Qed.

(** The size computed for a type is the one the rules of the format give it, and
    it is computed, within some recursion depth, whenever the rules give one; a
    type that contains itself has none. *)
Theorem btf_type_size_correct types i n :
  (∃ depth, _btf_type_size depth types i = Ok n) ↔ sizeof types i n.
Proof.
  split; [intros [depth HE]; by eapply run_sizeof|].
  intros HS. apply sizeof_run in HS as [d Hd]. exists d. by apply Hd.
Qed.

(** ** Examples *)

(** [int] of four bytes and an array of three of them. *)
Definition ex_raws : list raw_type := [mk_raw 1 1 0 0 4 [32]; mk_raw 0 3 0 0 0 [1; 1; 3]].
Definition ex_strs : list Z := [0; 105; 110; 116; 0].

Lemma ex_raws_ok : Forall raw_ok ex_raws.
Proof.
  repeat constructor; unfold u32; simpl; try lia.
Qed.

Lemma btf_roundtrip_witness : ∃ types, _parse_btf (enc_btf 1 0 ex_raws ex_strs) = Ok types ∧
  _btf_type_size 5 types 2 = Ok 12.
Proof.
  eexists. split; [rewrite btf_roundtrip|].
  - vm_compute. reflexivity.
  - apply ex_raws_ok.
  - split; vm_compute; [discriminate|reflexivity].
  - split; vm_compute; [discriminate|reflexivity].
  - vm_compute. reflexivity.
Defined.
