(* ===== verification/Loader.v ===== *)
(** Reading an object file: [bpf/loader.py].

    The ELF library is not part of the repository: the class [Elf] has the operations
    the loader calls, with the attributes it reads of sections, symbols and
    relocations. [exit(1)] of [_fail] is [SystemExit]; logging is left out. A rodata
    symbol named [data] or [section_idx] would take the place of that entry of the
    dict; here the symbols are kept apart. *)

From S2P Require Import Prelude Constants Instr Link Btf.

(** *** The ELF library *)

(** [st_shndx]: a number, or the name of a special index. *)
Inductive shndx := ShNum (n : Z) | ShName (s : string).
#[global] Instance shndx_eq_dec : EqDecision shndx.
Proof. solve_decision. Defined.

Record section := mk_section { sec_name : string; sec_data : list Z }.
Record elf_symbol := mk_elf_symbol {
  es_name : string;
  es_value : Z;
  es_size : Z;
  es_shndx : shndx;
  es_type : string
}.
Record relocation := mk_reloc { rl_offset : Z; rl_sym : Z }.

Class Elf := {
  iter_sections : list section;
  get_section_by_name : string → option section;
  get_section : shndx → res (option section);
  iter_symbols : list elf_symbol;
  get_symbol_by_name : string → option (list elf_symbol);
  get_symbol : Z → res elf_symbol;
  iter_relocations : section → list relocation
}.

Definition MAP_DEF_SIZE : Z := 20.

(** *** Instructions *)

(** The slots of a text section: a wide instruction takes two. *)
Fixpoint instrs_loop (fuel : nat) (base_addr i idx : Z) (data : list Z) : res (list instr) :=
  match data, fuel with
  | [], _ => Ok []
  | _, O => Err (RuntimeError "out of fuel")
  | b :: _, S fuel' =>
      let size := if b =? 0x18 then 16%nat else 8%nat in
      x ← new_instr idx (i + base_addr) (take size data) false;
      if b =? 0x18 then
        y ← new_instr (idx + 1) (i + 8 + base_addr) [] true;
        rest ← instrs_loop fuel' base_addr (i + 16) (idx + 2) (drop size data);
        Ok (x :: y :: rest)
      else
        rest ← instrs_loop fuel' base_addr (i + 8) (idx + 1) (drop size data);
        Ok (x :: rest)
  end.

Section loader.
Context `{Elf}.

Definition _section_index (name : string) : option Z :=
  fold_left (λ idx x, if bool_decide (sec_name x.2 = name) then Some x.1 else idx)
    (zip (zrange 0 (Z.of_nat (length iter_sections))) iter_sections) None.

Definition parse_instrs (main_func : string) : res (list instr * section * Z * Z) :=
  sym ← of_option SystemExit (get_symbol_by_name main_func);
  sym ← py_index sym 0;
  let base_addr := es_value sym / 8 in
  main_text ← get_section (es_shndx sym);
  main_text ← of_option SystemExit main_text;
  let main_data := sec_data main_text in
  let main_data_size := Z.of_nat (length main_data) in
  guard_or (main_data_size mod 8 =? 0) SystemExit;;
  instrs ← instrs_loop (length main_data) base_addr 0 0 main_data;
  Ok (instrs, main_text, main_data_size, base_addr).

(** *** Maps *)

(** [info[field] = value]. *)
Inductive map_field := FType | FMaxEntries | FFlags | FKeySize | FValueSize.

Definition set_field (f : map_field) (v : Z) (i : map_info) : map_info :=
  mk_map_info (mi_id i) (mi_name i)
    (match f with FType => v | _ => mi_type i end)
    (match f with FKeySize => v | _ => mi_key_size i end)
    (match f with FValueSize => v | _ => mi_value_size i end)
    (match f with FMaxEntries => v | _ => mi_max_entries i end)
    (match f with FFlags => v | _ => mi_flags i end).

Definition _UINT_MEMBERS : list (string * map_field) :=
  [("type", FType); ("max_entries", FMaxEntries); ("map_flags", FFlags);
   ("key_size", FKeySize); ("value_size", FValueSize)]%string.
Definition _TYPE_MEMBERS : list (string * map_field) :=
  [("key", FKeySize); ("value", FValueSize)]%string.

(** One member of a map's definition. *)
Definition map_member (depth : nat) (types : list (option btf_type)) (info : map_info)
    (m : btf_member) : res map_info :=
  mtype ← type_at types (mb_type m);
  if negb (bt_kind mtype =? 2) then Ok info
  else
    match pget _UINT_MEMBERS (mb_name m), pget _TYPE_MEMBERS (mb_name m) with
    | Some f, _ =>
        t ← type_at types (bt_size mtype);
        if bt_kind t =? 3 then
          match bt_extra t with XArray _ _ n => Ok (set_field f n info) | _ => Err TypeError end
        else Ok info
    | None, Some f => n ← _btf_type_size depth types (bt_size mtype); Ok (set_field f n info)
    | None, None => Ok info
    end.

(** [info[f] = info[f] or 4]. *)
Definition or_four (v : Z) : Z := if v =? 0 then 4 else v.

Definition datasec_map (depth : nat) (types : list (option btf_type)) (maps : list map_info)
    (x : Z * btf_secinfo) : res (list map_info) :=
  let '(map_id, sec_info) := x in
  var_type ← type_at types (si_type sec_info);
  if negb (bt_kind var_type =? 14) then Ok maps
  else
    struct_type ← type_at types (bt_size var_type);
    if negb (bt_kind struct_type =? 4) then Ok maps
    else
      ms ← match bt_extra struct_type with XMembers l => Ok l | _ => Err TypeError end;
      info ← foldR (map_member depth types)
               (mk_map_info map_id (Some (bt_name var_type)) 0 0 0 0 0) ms;
      let info := if mi_type info =? BPF_MAP_TYPE_PROG_ARRAY
                  then set_field FValueSize (or_four (mi_value_size info))
                         (set_field FKeySize (or_four (mi_key_size info)) info)
                  else info in
      Ok (maps ++ [info]).

Definition is_datasec (t : option btf_type) : bool :=
  match t with
  | Some t => (bt_kind t =? 15) && bool_decide (bt_name t = ".maps"%string)
  | None => false
  end.

Definition _parse_maps_btf (depth : nat) : res (list map_info) :=
  btf_section ← of_option (ValueError "decode_binary: no .BTF section found")
                  (get_section_by_name ".BTF");
  types ← _parse_btf (sec_data btf_section);
  match List.find is_datasec (drop 1 types) with
  | Some (Some datasec) =>
      secs ← match bt_extra datasec with XSections l => Ok l | _ => Err TypeError end;
      foldR (datasec_map depth types) [] (zip (zrange 0 (Z.of_nat (length secs))) secs)
  | _ => Ok []
  end.

(** One definition of the traditional format. *)
Definition map_def (names : list (Z * string)) (data : list Z) (mi : Z) : res map_info :=
  x ← unpack_from [4%nat; 4%nat; 4%nat; 4%nat; 4%nat] data (mi * MAP_DEF_SIZE);
  match x with
  | [t; k; v; n; f] => Ok (mk_map_info mi (pget names mi) t k v n f)
  | _ => Err struct_error
  end.

Definition parse_maps (depth : nat) : res (list map_info) :=
  let found := match get_section_by_name ".maps" with
               | Some s => (".maps"%string, Some s)
               | None => ("maps"%string, get_section_by_name "maps")
               end in
  match found with
  | (_, None) => Ok []
  | (sec_name, Some s) =>
      let data := sec_data s in
      if Nat.eqb (length data) 0 then Ok []
      else if forallb (Z.eqb 0) data then _parse_maps_btf depth
      else
        let maps_idx := _section_index sec_name in
        let names := fold_left (λ d s, if bool_decide (Some (es_shndx s) = ShNum <$> maps_idx)
                                       then pset d (es_value s / MAP_DEF_SIZE) (es_name s) else d)
                       iter_symbols [] in
        mapR (map_def names data) (zrange 0 (Z.of_nat (length data) / MAP_DEF_SIZE))
  end.

(** *** Globals *)

Definition _object_symbols (name : string) : option Z * list (string * symbol) :=
  match get_section_by_name name with
  | None => (None, [])
  | Some _ =>
      let idx := _section_index name in
      (idx, fold_left (λ d s, if bool_decide (Some (es_shndx s) = ShNum <$> idx)
                                 && bool_decide (es_type s = "STT_OBJECT"%string)
                              then pset d (es_name s) (mk_symbol (es_size s) (es_value s)) else d)
              iter_symbols [])
  end.

Definition parse_rodata : option rodata :=
  match _object_symbols ".rodata" with
  | (None, _) => None
  | (Some idx, syms) => Some (mk_rodata_sec (sec_data <$> get_section_by_name ".rodata") (Some idx) syms)
  end.

Definition parse_bss : list (string * symbol) := snd (_object_symbols ".bss").

(** *** Relocations *)

Fixpoint _object_at (objects : list (string * symbol)) (addr : Z) : option string * Z :=
  match objects with
  | [] => (None, addr)
  | (name, o) :: objects' =>
      if (s_offset o <=? addr) && (addr <? s_offset o + Z.max (s_size o) 1)
      then (Some name, s_offset o) else _object_at objects' addr
  end.

(** [next(i for i, m in enumerate(maps) if m.get('name') == name)]. *)
Definition map_named (maps : list map_info) (name : string) : option Z :=
  (λ x, Z.of_nat x.1) <$> list_find (λ m, mi_name m = Some name) maps.

Definition map_of_symbol (maps : list map_info) (sym : elf_symbol) : res Z :=
  match map_named maps (es_name sym) with
  | Some i => Ok i
  | None =>
      let stride := match get_section_by_name ".maps", maps with
                    | Some s, _ :: _ => Z.of_nat (length (sec_data s)) / Z.of_nat (length maps)
                    | _, _ => MAP_DEF_SIZE
                    end in
      if stride =? 0 then Err (ExceptionErr "ZeroDivisionError") else Ok (es_value sym / stride)
  end.

Definition tag_of (key : option string) : tag :=
  match key with Some k => TagStr k | None => TagNone end.

(** [instrs[r_line].imm], which a placeholder does not have. *)
Definition imm_at (instrs : list instr) (r_line : Z) : res Z :=
  i ← py_index instrs r_line; if nop i then Err AttributeError else Ok (imm i).

Definition retag (instrs : list instr) (r_line : Z) (f : instr → instr) : res (list instr) :=
  i ← py_index instrs r_line; py_setitem instrs r_line (f i).

Definition is_data (t : string) : bool :=
  bool_decide (t = "STT_SECTION"%string) || bool_decide (t = "STT_OBJECT"%string).

Definition apply_reloc (bss : list (string * symbol)) (main_data_size : Z) (maps : list map_info)
    (instrs : list instr) (r : relocation) : res (list instr) :=
  if main_data_size <=? rl_offset r then Ok instrs
  else
    symbol ← get_symbol (rl_sym r);
    match es_shndx symbol with
    | ShName _ => Ok instrs
    | ShNum n =>
        if (n =? 0) || (100 <? n) then Ok instrs
        else
          section ← get_section (ShNum n);
          let name := sec_name <$> section in
          let r_line := rl_offset r / 8 in
          if bool_decide (es_type symbol = "STT_OBJECT"%string)
             && (bool_decide (name = Some "maps"%string) || bool_decide (name = Some ".maps"%string)) then
            map_id ← map_of_symbol maps symbol;
            retag instrs r_line (set_reloc_tag (TagNum map_id) 0 None 0)
          else if bool_decide (name = Some ".bss"%string) && is_data (es_type symbol) then
            imm ← imm_at instrs r_line;
            let addr := es_value symbol + imm in
            let '(key, base) := _object_at bss addr in
            retag instrs r_line (set_reloc_tag (tag_of key) 1 None (addr - base))
          else if bool_decide (name = Some ".rodata"%string) && is_data (es_type symbol) then
            imm ← imm_at instrs r_line;
            retag instrs r_line
              (set_reloc_tag (TagStr "rodata") 2 (Some (es_value symbol + imm)) 0)
          else Ok instrs
    end.

Definition apply_relocations (instrs : list instr) (bss : list (string * symbol))
    (main_text : section) (main_data_size : Z) (maps : list map_info) : res (list instr) :=
  match get_section_by_name (".rel" +:+ sec_name main_text) with
  | None => Ok instrs
  | Some reloc_text =>
      foldR (apply_reloc bss main_data_size maps) instrs (iter_relocations reloc_text)
  end.

(** [Loader(file_path, main_func).decode_binary()], on the ELF file opened. *)
Definition decode_binary (file_path main_func : string) (depth : nat) : res load :=
  guard_or (bool_decide (is_Some (get_section_by_name ".symtab"))) SystemExit;;
  '(instrs, main_text, main_data_size, entry_idx) ← parse_instrs main_func;
  maps ← parse_maps depth;
  let rodata := parse_rodata in
  let bss := parse_bss in
  instrs ← apply_relocations instrs bss main_text main_data_size maps;
  Ok (mk_load instrs maps rodata bss main_func entry_idx file_path (sec_name main_text)).
End loader.
