(* ===== verification/LoaderSound.v ===== *)
(** Reading an object file is exact ([bpf/loader.py]): every slot of the text section
    becomes one instruction, tables that were written are read back, sizes are those
    of the type graph, relocated globals keep their address. *)

From S2P Require Import Prelude Constants Words Instr Link Btf BtfSound Loader.

(** ** Instructions *)

Lemma parse_bytecode_total i a bs : (2 <= length bs)%nat → ∃ x, parse_bytecode i a bs = Ok x ∧
  idx x = i ∧ nop x = false ∧ addr x = a ∧ wide_instr x = (default 0 (head bs) =? 0x18).
Proof.
  intros Hl. destruct bs as [|b0 [|b1 bs]]; [simpl in Hl; lia..|]. unfold parse_bytecode.
  rewrite (proj2 (py_index_Ok (b0 :: b1 :: bs) 0 b0 ltac:(lia)) eq_refl).
  rewrite (proj2 (py_index_Ok (b0 :: b1 :: bs) 1 b1 ltac:(lia)) eq_refl).
  eexists. split; [reflexivity|]. done.
Qed.

(** The instructions of a run of slots that starts at slot [k]. *)
Record slots (base k : Z) (data : list Z) (l : list instr) : Prop := {
  sl_len : (length data ≤ 8 * length l ≤ length data + 8)%nat;
  sl_nil : data = [] → l = [];
  sl_at : ∀ j x, l !! j = Some x →
    idx x = k + Z.of_nat j ∧ addr x = 8 * (k + Z.of_nat j) + base ∧
    if nop x then ∃ j' y, j = S j' ∧ l !! j' = Some y ∧ nop y = false ∧ wide_instr y = true
    else parse_bytecode (idx x) (addr x)
           (take (if wide_instr x then 16 else 8) (drop (8 * j) data)) = Ok x;
  sl_wide : ∀ j x, l !! j = Some x → nop x = false → wide_instr x = true →
    ∃ y, l !! S j = Some y ∧ nop y = true
}.

Lemma instrs_loop_ok fuel base k data : (length data <= fuel)%nat → (length data mod 8 = 0)%nat →
  ∃ l, instrs_loop fuel base (8 * k) k data = Ok l ∧ slots base k data l.
Proof.
  remember (length data) as n eqn:Hn. revert fuel k data Hn.
  induction (lt_wf n) as [n _ IH]. intros fuel k data Hn Hf Hm.
  destruct data as [|b data].
  { simpl in Hn. subst n. exists []. split; [by destruct fuel|]. by split; [simpl; lia|..]. }
  destruct fuel as [|fuel]; [simpl in Hn; lia|].
  assert (8 <= n)%nat as Hn8.
  { simpl in Hn. pose proof (Nat.div_mod n 8 ltac:(lia)) as Hd. rewrite Hm in Hd.
    destruct (n / 8)%nat; lia. }
  cbn [instrs_loop]. cbv zeta. set (size := if b =? 0x18 then 16%nat else 8%nat).
  set (bs := b :: data) in *.
  destruct (parse_bytecode_total k (8 * k + base) (take size bs)) as (x & Hx & Hi & Hnop & Ha & Hw).
  { rewrite length_take, <- Hn. unfold size. destruct (b =? 0x18); lia. }
  assert (wide_instr x = (b =? 0x18)) as Hwb.
  { rewrite Hw. unfold bs, size. by destruct (b =? 0x18) eqn:E; simpl; rewrite E. }
  unfold new_instr. rewrite Hx. simpl.
  assert (∀ rest, slots base (k + 1) (drop 8 bs) rest → b =? 0x18 = false → slots base k bs (x :: rest)) as H8.
  { intros rest [Hl Hnil Hat Hwide] Hb. rewrite length_drop, <- Hn in Hl.
    split; [rewrite <- Hn; cbn [length]; lia|done| |].
    2:{ intros [|j] y Hy Hyn Hyw; simpl in Hy; [injection Hy as <-; congruence|]. by apply (Hwide j y). }
    intros [|j] y Hy; simpl in Hy.
    - injection Hy as <-. rewrite Hnop, Hi, Ha, Hwb, Hb. split; [lia|]. split; [lia|].
      unfold size in Hx. by rewrite Hb in Hx.
    - destruct (Hat j y Hy) as (H1 & H2 & H3). split; [lia|]. split; [lia|]. destruct (nop y).
      + destruct H3 as (j' & z & -> & Hz & ? & ?). exists (S j'), z. by split_and!.
      + rewrite drop_drop in H3. by replace (8 * S j)%nat with (8 + 8 * j)%nat by lia. }
  assert (∀ rest, slots base (k + 2) (drop 16 bs) rest → b =? 0x18 = true →
    slots base k bs (x :: nop_instr (k + 1) (8 * k + 8 + base) :: rest)) as H16.
  { intros rest [Hl Hnil Hat Hwide] Hb. rewrite length_drop, <- Hn in Hl.
    assert (n = 8%nat → length rest = 0%nat) as Hz8
      by (intros ->; rewrite Hnil; [done|]; apply nil_length_inv; by rewrite length_drop, <- Hn).
    assert (n = 8%nat ∨ (16 <= n)%nat) as Hn16
      by (apply Nat.Div0.mod_divides in Hm as [q Hq]; lia).
    split; [rewrite <- Hn; cbn [length]; lia|done| |].
    2:{ intros [|[|j]] y Hy Hyn Hyw; simpl in Hy; [by eexists|by injection Hy as <-|]. by apply (Hwide j y). }
    intros [|[|j]] y Hy; simpl in Hy.
    - injection Hy as <-. rewrite Hnop, Hi, Ha, Hwb, Hb. split; [lia|]. split; [lia|].
      unfold size in Hx. by rewrite Hb in Hx.
    - injection Hy as <-. simpl. split; [lia|]. split; [lia|]. exists O, x. rewrite Hwb. by split_and!.
    - destruct (Hat j y Hy) as (H1 & H2 & H3). split; [lia|]. split; [lia|]. destruct (nop y).
      + destruct H3 as (j' & z & -> & Hz & ? & ?). exists (S (S j')), z. by split_and!.
      + rewrite drop_drop in H3. by replace (8 * S (S j))%nat with (16 + 8 * j)%nat by lia. }
  assert (∀ m, (m mod 8 = 0)%nat → (8 <= m)%nat → ((n - m) mod 8 = 0)%nat ∧ (n - m < n)%nat) as Hmod.
  { intros m Hm8 Hle. split; [|lia]. destruct (Nat.le_gt_cases n m) as [Hl | Hl].
    - by replace (n - m)%nat with 0%nat by lia.
    - apply Nat.Div0.mod_divides in Hm as [q Hq], Hm8 as [r Hr].
      apply Nat.Div0.mod_divides. exists (q - r)%nat. lia. }
  destruct (b =? 0x18) eqn:Eb.
  - destruct (Hmod 16%nat) as [Hm1 Hm2]; [done|lia|].
    destruct (IH (n - 16)%nat Hm2 fuel (k + 2) (drop 16 bs)) as (rest & Hr & Hs);
      [by rewrite length_drop, <- Hn|lia|done|].
    unfold size. replace (8 * k + 16) with (8 * (k + 2)) by lia. rewrite Hr. simpl.
    eexists. split; [reflexivity|]. by apply H16.
  - destruct (Hmod 8%nat) as [Hm1 Hm2]; [done|lia|].
    destruct (IH (n - 8)%nat Hm2 fuel (k + 1) (drop 8 bs)) as (rest & Hr & Hs);
      [by rewrite length_drop, <- Hn|lia|done|].
    unfold size. replace (8 * k + 8) with (8 * (k + 1)) by lia. rewrite Hr. simpl.
    eexists. split; [reflexivity|]. by apply H8.
Qed.

Section loader.
Context `{Elf}.

(** C25 Decoding a text section always succeeds and gives every slot one instruction:
    instruction [j] is numbered [j] and decodes the bytes from [8 * j] on, sixteen
    of them when it is wide; every wide one has a placeholder behind it, and a
    placeholder stands nowhere else. *)
Theorem parse_instrs_slots main_func sym syms text :
  get_symbol_by_name main_func = Some (sym :: syms) → get_section (es_shndx sym) = Ok (Some text) →
  Z.of_nat (length (sec_data text)) mod 8 = 0 →
  ∃ l, parse_instrs main_func =
      Ok (l, text, Z.of_nat (length (sec_data text)), es_value sym / 8) ∧
    slots (es_value sym / 8) 0 (sec_data text) l.
Proof.
  intros Hs Ht Hm. unfold parse_instrs. rewrite Hs. cbn [of_option mbind res_bind].
  rewrite (proj2 (py_index_Ok (sym :: syms) 0 sym ltac:(lia)) eq_refl). simpl. rewrite Ht. simpl.
  rewrite Hm. simpl.
  destruct (instrs_loop_ok (length (sec_data text)) (es_value sym / 8) 0 (sec_data text))
    as (l & Hl & Hsl); [done| |].
  - apply Nat2Z.inj. by rewrite Nat2Z.inj_mod.
  - exists l. change (8 * 0) with 0 in Hl. rewrite Hl. done.
Qed.

(** ** Map definitions *)

(** A definition of the traditional format, as the section holds it. *)
Definition def_words (i : map_info) : list Z :=
  [mi_type i; mi_key_size i; mi_value_size i; mi_max_entries i; mi_flags i].
Definition enc_def (i : map_info) : list Z := le32s (def_words i).
Definition u32_def (i : map_info) : Prop := Forall u32 (def_words i).

Lemma length_defs defs : length (mjoin (map enc_def defs)) = (20 * length defs)%nat.
Proof.
  induction defs as [|d defs IH]; [done|].
  change (mjoin (map enc_def (d :: defs))) with (enc_def d ++ mjoin (map enc_def defs)).
  rewrite length_app, IH. unfold enc_def. rewrite length_le32s. simpl. lia.
Qed.

Lemma drop_defs defs j d : defs !! j = Some d → ∃ rest,
  drop (20 * j) (mjoin (map enc_def defs)) = enc_def d ++ rest.
Proof.
  revert j. induction defs as [|x defs IH]; intros j Hj; [done|].
  change (mjoin (map enc_def (x :: defs))) with (enc_def x ++ mjoin (map enc_def defs)).
  destruct j as [|j]; simpl in Hj.
  - injection Hj as ->. rewrite Nat.mul_0_r, drop_0. eauto.
  - destruct (IH j Hj) as [rest Hr]. exists rest. rewrite <- Hr.
    replace (20 * S j)%nat with (length (enc_def x) + 20 * j)%nat
      by (unfold enc_def; rewrite length_le32s; simpl; lia).
    by rewrite <- drop_drop, drop_app_length.
Qed.

(** Definition [j] of the section. *)
Lemma map_def_ok names defs j d : Forall u32_def defs → defs !! j = Some d →
  map_def names (mjoin (map enc_def defs)) (Z.of_nat j) =
    Ok (mk_map_info (Z.of_nat j) (pget names (Z.of_nat j)) (mi_type d) (mi_key_size d)
          (mi_value_size d) (mi_max_entries d) (mi_flags d)).
Proof.
  intros Hu Hj. pose proof (lookup_lt_Some _ _ _ Hj) as Hlt. unfold map_def, unpack_from, MAP_DEF_SIZE.
  rewrite (proj2 (Z.leb_le _ _)) by (rewrite length_defs; simpl; lia). cbn [mbind res_bind].
  replace (Z.to_nat (Z.of_nat j * 20)) with (20 * j)%nat by lia.
  destruct (drop_defs defs j d Hj) as [rest ->].
  rewrite Forall_forall in Hu. specialize (Hu d ltac:(by eapply list_elem_of_lookup_2)).
  pose proof (fields_le32 (def_words d) rest Hu) as HF. cbn [length def_words replicate] in HF.
  unfold enc_def. by rewrite HF.
Qed.

(** The names the symbols of the section give. *)
Lemma symbol_names (ok : elf_symbol → bool) l : ∀ d : list (Z * string),
  (∀ j n, pget d j = Some n → ∃ s, s ∈ iter_symbols ∧ ok s = true ∧ es_value s / 20 = j ∧ es_name s = n) →
  (∀ s, s ∈ l → s ∈ iter_symbols) →
  ∀ j n, pget (fold_left (λ d s, if ok s then pset d (es_value s / 20) (es_name s) else d) l d) j = Some n →
    ∃ s, s ∈ iter_symbols ∧ ok s = true ∧ es_value s / 20 = j ∧ es_name s = n.
Proof.
  induction l as [|s l IH]; intros d Hd Hl j n HE; simpl in HE; [by apply Hd|].
  revert HE. apply IH; [|intros x Hx; apply Hl; by right].
  intros j' n' HE. destruct (ok s) eqn:Ek; [|by apply Hd]. rewrite pget_pset in HE.
  case_decide; [|by apply Hd]. injection HE as <-. exists s. subst. split_and!; [apply Hl; left|done..].
Qed.

(** A table of map definitions in the traditional format is read back: one map
    for each definition, numbered by its position, with its type, sizes, number of
    entries and flags, and a name only from a symbol of that section at that place. *)
Theorem map_table_roundtrip depth s defs :
  get_section_by_name ".maps" = Some s → sec_data s = mjoin (map enc_def defs) →
  Forall u32_def defs → existsb (λ b, negb (b =? 0)) (sec_data s) = true →
  ∃ maps, parse_maps depth = Ok maps ∧ length maps = length defs ∧
    ∀ j d i, defs !! j = Some d → maps !! j = Some i →
      mi_id i = Z.of_nat j ∧ def_words i = def_words d ∧
      ∀ n, mi_name i = Some n → ∃ y, y ∈ iter_symbols ∧ es_name y = n ∧
        Some (es_shndx y) = ShNum <$> _section_index ".maps" ∧ es_value y / 20 = Z.of_nat j.
Proof.
  intros Hs Hd Hu Hnz. unfold parse_maps. rewrite Hs. cbv zeta. rewrite Hd in *.
  assert (Nat.eqb (length (mjoin (map enc_def defs))) 0 = false) as ->.
  { apply Nat.eqb_neq. intros E. apply nil_length_inv in E. by rewrite E in Hnz. }
  assert (forallb (Z.eqb 0) (mjoin (map enc_def defs)) = false) as ->.
  { apply not_true_iff_false. rewrite forallb_forall. intros Hall.
    apply existsb_exists in Hnz as (b & Hb & Hn). apply Hall in Hb. lia. }
  set (ok := λ y, bool_decide (Some (es_shndx y) = ShNum <$> _section_index ".maps")).
  set (names := fold_left _ _ _).
  assert (∀ j n, pget names j = Some n → ∃ y, y ∈ iter_symbols ∧ ok y = true ∧ es_value y / 20 = j ∧
    es_name y = n) as Hnames by (apply (symbol_names ok iter_symbols []); done).
  set (f := λ '(j, d), mk_map_info (Z.of_nat j) (pget names (Z.of_nat j)) (mi_type d) (mi_key_size d)
    (mi_value_size d) (mi_max_entries d) (mi_flags d)).
  set (maps := imap (λ j d, f (j, d)) defs).
  assert (mapR (map_def names (mjoin (map enc_def defs)))
    (zrange 0 (Z.of_nat (length (mjoin (map enc_def defs))) / MAP_DEF_SIZE)) = Ok maps) as ->.
  { unfold MAP_DEF_SIZE. rewrite length_defs. replace (Z.of_nat (20 * length defs)) with (Z.of_nat (length defs) * 20) by lia.
    rewrite Z.div_mul by lia. unfold maps.
    assert (∀ l k, (∀ j d, l !! j = Some d → defs !! (k + j)%nat = Some d) →
      mapR (map_def names (mjoin (map enc_def defs))) (seqZ (Z.of_nat k) (Z.of_nat (length l))) =
        Ok (imap (λ j d, f ((k + j)%nat, d)) l)) as Hgen.
    { clear Hnz. induction l as [|d l IH]; intros k Hl; [done|]. rewrite seqZ_cons by (simpl; lia).
      simpl. rewrite (map_def_ok names defs k d Hu); [|rewrite <- (Hl 0%nat d eq_refl); f_equal; lia].
      simpl. replace (Z.succ (Z.of_nat k)) with (Z.of_nat (S k)) by lia.
      replace (Z.pred (Z.of_nat (S (length l)))) with (Z.of_nat (length l)) by lia.
      rewrite (IH (S k)) by (intros j d' Hj; rewrite <- (Hl (S j) d' Hj); f_equal; lia). simpl.
      f_equal. f_equal; [by rewrite Nat.add_0_r|]. apply imap_ext. intros j x _. simpl.
      by rewrite Nat.add_succ_r. }
    specialize (Hgen defs 0%nat ltac:(done)). unfold zrange. by rewrite Z.sub_0_r. }
  exists maps. split; [done|]. split; [by apply length_imap|].
  intros j d i Hj Hi. unfold maps in Hi. rewrite list_lookup_imap, Hj in Hi. injection Hi as <-. simpl.
  split; [done|]. split; [done|]. intros n Hn. apply Hnames in Hn as (y & Hy & Hok & Hv & Hn).
  exists y. split_and!; try done. by apply bool_decide_eq_true in Hok.
Qed.

(** ** Relocations *)

(** The object an address lies in. *)
Lemma object_at_ok objects addr key base : _object_at objects addr = (key, base) →
  match key with
  | Some n => ∃ o, (n, o) ∈ objects ∧ base = s_offset o ∧
                   s_offset o <= addr < s_offset o + Z.max (s_size o) 1
  | None => base = addr ∧ ∀ n o, (n, o) ∈ objects →
              ¬ s_offset o <= addr < s_offset o + Z.max (s_size o) 1
  end.
Proof.
  induction objects as [|[n o] objects IH]; simpl; intros HE.
  - injection HE as <- <-. split; [done|]. by intros ? ? ?%elem_of_nil.
  - destruct (_ && _) eqn:E.
    + injection HE as <- <-. exists o. split; [left|]. split; [done|]. lia.
    + specialize (IH HE). destruct key as [n'|].
      * destruct IH as (o' & Ho & ?). exists o'. split; [by right|done].
      * destruct IH as [? IH]. split; [done|]. intros n' o' [[= -> ->] | Hin]%elem_of_cons; [lia|by eapply IH].
Qed.

(** A relocation of a global keeps its address: the instruction is tagged with the
    object of [.bss] its address (the symbol's value plus its immediate) lies in and
    the offset in that object, or with no object when it lies in none, and no other
    instruction and no other attribute changes. *)
Theorem bss_relocation bss size maps instrs r sym n sec out :
  rl_offset r < size → get_symbol (rl_sym r) = Ok sym → es_shndx sym = ShNum n → 0 < n <= 100 →
  get_section (ShNum n) = Ok (Some sec) → sec_name sec = ".bss"%string → is_data (es_type sym) = true →
  0 <= rl_offset r → apply_reloc bss size maps instrs r = Ok out →
  ∃ i key off, let line := Z.to_nat (rl_offset r / 8) in
    instrs !! line = Some i ∧ nop i = false ∧
    out = <[line := set_reloc_tag (tag_of key) 1 None off i]> instrs ∧
    match key with
    | Some k => ∃ o, (k, o) ∈ bss ∧ s_offset o + off = es_value sym + imm i ∧ 0 <= off < Z.max (s_size o) 1
    | None => off = 0 ∧ ∀ k o, (k, o) ∈ bss →
                ¬ s_offset o <= es_value sym + imm i < s_offset o + Z.max (s_size o) 1
    end.
Proof.
  intros Hsz Hsym Hsh Hn Hsec Hname Hdata H0 HE. unfold apply_reloc in HE.
  rewrite (proj2 (Z.leb_gt _ _) Hsz), Hsym in HE. cbn [mbind res_bind] in HE. rewrite Hsh in HE.
  assert ((n =? 0) || (100 <? n) = false) as Hnn by lia. rewrite Hnn, Hsec in HE. cbn [mbind res_bind fmap option_fmap option_map] in HE.
  rewrite Hname, Hdata in HE. cbv zeta in HE.
  rewrite (bool_decide_eq_false_2 (Some ".bss"%string = Some "maps"%string)) in HE by done.
  rewrite (bool_decide_eq_false_2 (Some ".bss"%string = Some ".maps"%string)) in HE by done.
  rewrite (bool_decide_eq_true_2 (Some ".bss"%string = Some ".bss"%string)) in HE by done.
  rewrite orb_false_r, andb_false_r in HE. cbn [andb] in HE.
  assert (0 <= rl_offset r / 8) as Hl by (apply Z.div_pos; lia).
  apply bind_Ok in HE as (im & Him & HE). unfold imm_at in Him.
  apply bind_Ok in Him as (i & Hi & Him). destruct (nop i) eqn:Enop; [done|]. injection Him as <-.
  destruct (_object_at bss (es_value sym + imm i)) as [key base] eqn:Eo. apply object_at_ok in Eo.
  unfold retag in HE. apply bind_Ok in HE as (i' & Hi' & HE). rewrite Hi in Hi'. injection Hi' as <-.
  apply py_index_Ok in Hi; [|done]. exists i, key, (es_value sym + imm i - base). cbv zeta.
  split; [done|]. split; [done|]. split.
  - unfold py_setitem in HE. cbv zeta in HE. rewrite (proj2 (Z.ltb_ge _ _) Hl) in HE.
    apply lookup_lt_Some in Hi. destruct (_ || _); [done|]. by injection HE as <-.
  - destruct key as [k|].
    + destruct Eo as (o & Ho & -> & ?). exists o. split; [done|]. lia.
    + destruct Eo as [-> Hno]. split; [lia|done].
Qed.
End loader.

(** ** Examples *)

(** An object with a program ([r1 = counter ll; r0 = 2; exit]), a map and a global. *)
Definition ex_text : section := mk_section "xdp"
  [0x18; 0x11; 0; 0; 4; 0; 0; 0; 0; 0; 0; 0; 0; 0; 0; 0;
   0xb7; 0; 0; 0; 2; 0; 0; 0; 0x95; 0; 0; 0; 0; 0; 0; 0].
Definition ex_def : map_info := mk_map_info 0 None 1 4 8 16 0.
Definition ex_maps_sec : section := mk_section ".maps" (mjoin (map enc_def [ex_def])).
Definition ex_bss_sec : section := mk_section ".bss" [].
Definition ex_main : elf_symbol := mk_elf_symbol "main" 0 32 (ShNum 0) "STT_FUNC".
Definition ex_counter : elf_symbol := mk_elf_symbol "counter" 8 8 (ShNum 2) "STT_OBJECT".

#[local] Instance ex_elf : Elf := {|
  iter_sections := [ex_text; ex_maps_sec; ex_bss_sec];
  get_section_by_name := λ n, List.find (λ s, bool_decide (sec_name s = n)) [ex_text; ex_maps_sec; ex_bss_sec];
  get_section := λ i, Ok (match i with ShNum n => [ex_text; ex_maps_sec; ex_bss_sec] !! Z.to_nat n | _ => None end);
  iter_symbols := [ex_main; mk_elf_symbol "table" 0 20 (ShNum 1) "STT_OBJECT"; ex_counter];
  get_symbol_by_name := λ n, if bool_decide (n = "main"%string) then Some [ex_main] else None;
  get_symbol := λ i, Ok (if i =? 2 then ex_counter else ex_main);
  iter_relocations := λ _, []
|}.

Lemma parse_instrs_slots_witness : ∃ l, parse_instrs "main" = Ok (l, ex_text, 32, 0) ∧
  map idx l = [0; 1; 2; 3] ∧ map nop l = [false; true; false; false] ∧ slots 0 0 (sec_data ex_text) l.
Proof.
  destruct (parse_instrs_slots "main" ex_main [] ex_text) as (l & Hl & Hs);
    [reflexivity|reflexivity|reflexivity|].
  exists l. split; [exact Hl|]. vm_compute in Hl. injection Hl as <-. split; [reflexivity|]. split; [reflexivity|exact Hs].
Defined.

Lemma map_table_roundtrip_witness : ∃ maps, parse_maps 5 = Ok maps ∧
  maps = [mk_map_info 0 (Some "table"%string) 1 4 8 16 0].
Proof.
  destruct (map_table_roundtrip 5 ex_maps_sec [ex_def]) as (maps & Hm & _);
    [reflexivity|reflexivity|repeat constructor; simpl; lia|reflexivity|].
  exists maps. split; [exact Hm|]. vm_compute in Hm. injection Hm as <-. reflexivity.
Defined.

(** [counter + 4] is four bytes into the object. *)
Definition ex_wide_slot : instr := match parse_bytecode 0 0 (sec_data ex_text) with
                                   | Ok i => i | Err _ => nop_instr 0 0 end.

Lemma bss_relocation_witness : ∃ out,
  apply_reloc [("counter"%string, mk_symbol 8 8)] 32 [] [ex_wide_slot] (mk_reloc 0 2) = Ok out ∧
  map bss_offset out = [4].
Proof.
  eexists. split; [vm_compute; reflexivity|].
  destruct (bss_relocation [("counter"%string, mk_symbol 8 8)] 32 [] [ex_wide_slot] (mk_reloc 0 2)
    ex_counter 2 ex_bss_sec
    (match apply_reloc [("counter"%string, mk_symbol 8 8)] 32 [] [ex_wide_slot] (mk_reloc 0 2) with
     | Ok l => l | Err _ => [] end)) as (i & key & off & Hi & _ & Hout & Hkey);
    [simpl; lia|reflexivity|reflexivity|lia|reflexivity|reflexivity|reflexivity|simpl; lia
    |vm_compute; reflexivity|].
  reflexivity.
Defined.
