(* ===== verification/Program.v ===== *)
(** The stages run on one program ([program.py]): what an [eBPFProgram] keeps, the
    order of its stages, and the entry points that check a specification.

    [timings] is the list of its keys: the durations are left out. [open] is the ELF
    file at a path, [read_spec] the JSON document at one; [depth] is the
    interpreter's recursion limit and [oid0] the least identity a tracker's objects
    get: each pass takes those above the objects the blocks still hold. Reports, the scaffold and [query_cost] are not part of this file. *)

From stdpp Require Import sorting.
From S2P Require Import Prelude Constants Smt Instr Link Expr Record Encode Action Block Cfg Tracker.
From S2P Require Import Identity Prune Pystr Spec Forward Witness Checker Loader.

(** ** The program object *)

Inductive stage := Decode | CfgStage | Track.
#[global] Instance stage_eq_dec : EqDecision stage.
Proof. solve_decision. Defined.

Definition STAGES : list stage := [Decode; CfgStage; Track].

Record eBPFProgram := mk_program {
  file_path : string;
  main_func : string;
  tails : list TailSpec;
  p_instrs : list instr;
  p_maps : list map_info;
  p_blocks : list Block;
  p_rodata : rodata;
  p_bss : list (string * symbol);
  p_progs : list ProgRegion;
  var_num : Z;
  p_sources : list val;
  p_calls : call_index;
  timings : list stage
}.

Definition no_rodata : rodata := mk_rodata_sec None None [].

(** [eBPFProgram(file_path, main_func, tails=...)]. *)
Definition new_program (file_path main_func : string) (tails : list TailSpec) : eBPFProgram :=
  mk_program file_path main_func tails [] [] [] no_rodata [] [] 0 [] [] [].

Definition set_timings (t : list stage) (p : eBPFProgram) : eBPFProgram :=
  mk_program (file_path p) (main_func p) (tails p) (p_instrs p) (p_maps p) (p_blocks p) (p_rodata p)
    (p_bss p) (p_progs p) (var_num p) (p_sources p) (p_calls p) t.

(** [self.STAGES[self.STAGES.index(stage) + 1:]]. *)
Definition later_stages (s : stage) : list stage :=
  match s with Decode => [CfgStage; Track] | CfgStage => [Track] | Track => [] end.

Definition _done (s : stage) (p : eBPFProgram) : eBPFProgram :=
  let kept := filter (λ x, x ∉ later_stages s) (timings p) in
  set_timings (if bool_decide (s ∈ kept) then kept else kept ++ [s]) p.

Definition done (s : stage) (p : eBPFProgram) : bool := bool_decide (s ∈ timings p).

(** ** The stages *)

Section stages.
Context (open : string → Elf) (depth : nat) (oid0 : Z).

(** The loaders: the main object's and one per tail-call target. *)
Definition loaders (p : eBPFProgram) : list (string * string) :=
  (file_path p, main_func p) :: map (λ t, (t_path t, t_entry t)) (tails p).

Definition load_objects (p : eBPFProgram) : res (list Link.load) :=
  mapR (λ l, @Loader.decode_binary (open l.1) l.1 l.2 depth) (loaders p).

Definition set_linked (l : linked) (p : eBPFProgram) : eBPFProgram :=
  mk_program (file_path p) (main_func p) (tails p) (lk_instrs l) (lk_maps l) (p_blocks p)
    (lk_rodata l) (lk_bss l) (lk_progs l) (var_num p) (p_sources p) (p_calls p) (timings p).

Definition decode_binary (p : eBPFProgram) : res eBPFProgram :=
  loads ← load_objects p;
  result ← link loads (tails p);
  Ok (_done Decode (set_linked result p)).

(** The regions are those of the program: [build_cfg] records their entry block. *)
Definition set_graph (bs : list Block) (progs : list ProgRegion) (p : eBPFProgram) : eBPFProgram :=
  mk_program (file_path p) (main_func p) (tails p) (p_instrs p) (p_maps p) bs (p_rodata p)
    (p_bss p) progs (var_num p) (p_sources p) (p_calls p) (timings p).

Definition build_cfg (p : eBPFProgram) : res eBPFProgram :=
  '(blocks, _, _, progs) ← Cfg.build_cfg (p_instrs p) (p_progs p);
  Ok (_done CfgStage (set_graph blocks progs p)).

Definition tracker_of (brief : bool) (p : eBPFProgram) : tracker :=
  mk_tracker (p_blocks p) (p_instrs p) (p_maps p) (p_progs p) (default [] (ro_data (p_rodata p)))
    brief.

Definition set_tracked (bs : list Block) (srcs : list val) (calls : call_index) (p : eBPFProgram)
    : eBPFProgram :=
  mk_program (file_path p) (main_func p) (tails p) (p_instrs p) (p_maps p) bs (p_rodata p)
    (p_bss p) (p_progs p) 0 srcs calls (timings p).

(** The tracker updates the blocks in place, also when [brief]; new objects are told
    apart from those of the last pass. *)
Definition track (brief : bool) (p : eBPFProgram) : res eBPFProgram :=
  '(bs, srcs) ← Tracker.track (tracker_of brief p) (first_free oid0 (p_blocks p));
  if brief then Ok (set_graph bs (p_progs p) p)
  else Ok (_done Track (set_tracked bs srcs (build_call_index bs) p)).

Definition analyze (p : eBPFProgram) : res eBPFProgram :=
  p ← (if done Decode p then Ok p else decode_binary p);
  p ← (if done CfgStage p then Ok p else build_cfg p);
  if done Track p then Ok p else track false p.

Definition tracked (p : eBPFProgram) : bool := done Track p.

(** [eBPFProgram.load(...)]. *)
Definition load_program (file_path main_func : string) (tails : list TailSpec) : res eBPFProgram :=
  analyze (new_program file_path main_func tails).

Definition run_analyze : ST eBPFProgram unit := λ p, p' ← analyze p; Ok (tt, p').

Definition exit_blocks_of : ST eBPFProgram (list Z) :=
  run_analyze;; gets (λ p, exit_blocks (p_blocks p)).

Record stats_t := mk_stats {
  n_instrs : Z; n_blocks : Z; n_edges : Z; n_maps : Z; n_programs : Z; n_exits : Z;
  n_sources : Z; n_vars : Z
}.

Definition zlen {A} (l : list A) : Z := Z.of_nat (length l).

Definition edge_count (b : Block) : Z :=
  (if bool_decide (is_Some (succ_t b)) then 1 else 0) + (if bool_decide (is_Some (succ_f b)) then 1 else 0).

(** [stats()], without the timings. *)
Definition stats : ST eBPFProgram stats_t :=
  run_analyze;;
  p ← get;
  exits ← exit_blocks_of;
  mret (mk_stats (zlen (p_instrs p)) (zlen (p_blocks p))
          (fold_left (λ n b, n + edge_count b) (p_blocks p) 0) (zlen (p_maps p))
          (Z.max 1 (zlen (p_progs p))) (zlen exits) (zlen (p_sources p)) (var_num p)).
End stages.

(** ** Results *)

Section results.
Context `{SMT}.

(** The list and the spec's path of a [Verification]. *)
Record Verification := mk_verification { v_results : list CheckResult; v_spec : option string }.

Definition verdicts (v : Verification) : list (string * string) :=
  fold_left (λ d r, pset d (cr_name r) (cr_verdict r)) (v_results v) [].

Definition is_violated (r : CheckResult) : bool := bool_decide (cr_verdict r = "violated"%string).

Definition violations (v : Verification) : list CheckResult :=
  filter (λ r, is_violated r = true) (v_results v).

Definition v_ok (v : Verification) : bool := bool_decide (length (violations v) = 0%nat).

Definition result (v : Verification) (name : string) : res CheckResult :=
  match filter (λ r, bool_decide (cr_name r = name) = true) (v_results v) with
  | r :: _ => Ok r
  | [] => Err KeyError
  end.
End results.

(** ** Checking a specification *)

(** What a specification is given as. *)
Inductive spec_arg := SpecPolicy (p : Policy) | SpecDict (raw : list (string * json)) | SpecPath (path : string).

(** [_select(policy, only)]; a single name is a set of one. *)
Definition _select (policy : Policy) (only : option (list string)) : res Policy :=
  match only with
  | None => Ok policy
  | Some names =>
      let known := map bc_name (pol_block policy) ++ map ec_name (pol_exit policy) in
      guard_or (forallb (λ n, bool_decide (n ∈ known)) names)
        (ValueError "no such condition(s)");;
      Ok (mk_policy (pol_input policy)
            (filter (λ c, bool_decide (bc_name c ∈ names) = true) (pol_block policy))
            (filter (λ c, bool_decide (ec_name c ∈ names) = true) (pol_exit policy)))
  end.

Section verify.
Context `{SMT} `{!SameTerm} `{!Solver} `{!SmtAst} `{!Scapy}.
Context (open : string → Elf) (read_spec : string → res json) (depth : nat) (oid0 : Z).
Context (ast_fuel : nat).

(** [spec.load_spec(path, ...)] and [spec.parse_spec(raw, ...)]. *)
Definition load_spec (spec : spec_arg) : ST eBPFProgram Policy :=
  match spec with
  | SpecPolicy p => mret p
  | _ =>
      run_analyze open depth oid0;;
      p ← get;
      let parse raw := parse_spec raw (Some (p_maps p)) (Some (p_blocks p)) (Some (p_calls p)) in
      match spec with
      | SpecDict raw => lift (parse (JObj raw))
      | SpecPath path => raw ← lift (read_spec path); lift (parse raw)
      | SpecPolicy p => mret p
      end
  end.

Definition init_state (spec : option spec_arg) : ST eBPFProgram (option Z3State) :=
  match spec with
  | None => mret None
  | Some spec =>
      policy ← load_spec spec;
      match pol_input policy with
      | None => mret None
      | Some i => p ← get; mret (Some (z3_state_from_input i (p_maps p)))
      end
  end.

(** The initial state of [ForwardContext(..., init_st=...)]. *)
Definition init_or_default (st : option Z3State) (p : eBPFProgram) : Z3State :=
  default (_make_init_state (p_maps p)) st.

Definition first_input (policies : list Policy) : option Policy :=
  snd <$> list_find (λ p, bool_decide (is_Some (pol_input p)) = true) policies.

Definition context (specs : list spec_arg) (init_st : option Z3State) (reach_all : bool)
    : ST eBPFProgram (fenv * fctx) :=
  policies ← mapST load_spec specs;
  init_st ← match init_st, first_input policies with
            | Some st, _ => mret (Some st)
            | None, Some p => init_state (Some (SpecPolicy p))
            | None, None => mret None
            end;
  run_analyze open depth oid0;;
  p ← get;
  lift (context_for policies (p_blocks p) (init_or_default init_st p) reach_all depth).

Definition _whole_context (spec : option spec_arg) (init_st : option Z3State)
    (ctx : option (fenv * fctx)) : ST eBPFProgram (fenv * fctx) :=
  match ctx with
  | Some c => mret c
  | None =>
      init_st ← match init_st with Some st => mret (Some st) | None => init_state spec end;
      context [] init_st false
  end.

(** [checker.check(policy, ..., ctx=None)] makes its own context. *)
Definition check_policy (policy : Policy) (init_st : option Z3State) (reach_all : bool)
    (ctx : option (fenv * fctx)) (p : eBPFProgram) : res (list CheckResult) :=
  '(e, c) ← match ctx with
            | Some c => Ok c
            | None => context_for [policy] (p_blocks p) (init_or_default init_st p) reach_all depth
            end;
  check ast_fuel e (p_calls p) policy reach_all c.

Definition spec_path (spec : spec_arg) : option string :=
  match spec with SpecPath path => Some path | _ => None end.

Definition verify (spec : spec_arg) (reach_all : bool) (only : option (list string))
    (ctx : option (fenv * fctx)) (init_st : option Z3State) : ST eBPFProgram Verification :=
  policy ← load_spec spec;
  policy ← lift (_select policy only);
  init_st ← match ctx, init_st with
            | None, None => init_state (Some (SpecPolicy policy))
            | _, _ => mret init_st
            end;
  p ← get;
  results ← lift (check_policy policy init_st reach_all ctx p);
  mret (mk_verification results (spec_path spec)).

Definition return_values (spec : option spec_arg) (values : list Z) (ctx : option (fenv * fctx))
    (init_st : option Z3State) : ST eBPFProgram (list Z) :=
  run_analyze open depth oid0;;
  init_st ← match ctx, init_st with None, None => init_state spec | _, _ => mret init_st end;
  p ← get;
  '(e, c) ← match ctx with
            | Some c => mret c
            | None => lift (context_for [] (p_blocks p) (init_or_default init_st p) false depth)
            end;
  lift (reachable_return_values ast_fuel e (p_blocks p) values c).

Definition reachability (spec : option spec_arg) (ctx : option (fenv * fctx))
    (init_st : option Z3State) : ST eBPFProgram (list CheckResult) :=
  '(e, c) ← _whole_context spec init_st ctx;
  lift (reach_report ast_fuel e c).

Definition dead_blocks (spec : option spec_arg) (ctx : option (fenv * fctx))
    (init_st : option Z3State) : ST eBPFProgram (list Z) :=
  ctx ← _whole_context spec init_st ctx;
  out ← reachability None (Some ctx) None;
  mret (map fst (filter (λ br, bool_decide (cr_verdict br.2 = "unsat"%string) = true)
                   (zip (merge_sort Z.le (map fst (c_info ctx.2))) out))).
End verify.
