(* ===== verification/ProgramSound.v ===== *)
(** The stages keep a program consistent ([program.py]): whatever the order they were
    run in, [analyze] ends with the graph of the linked objects, tracked once; such a
    program meets the hypotheses of the verdicts' theorems, so that [verify] means
    what they say, from the object files to the result. *)

From stdpp Require Import sorting relations.
From S2P Require Import Prelude Constants Smt SmtTerm Instr Link Expr Record Encode Action Block Cfg.
From S2P Require Import CfgSound Tracker Identity Frame TrackProg Prune PruneSound ReachSound Pystr Spec Forward ForwardMerge.
From S2P Require Import Denote Alu CondSound ForwardSound Witness WitnessSound Checker CheckerSound Loader Program.

(** ** Stages *)

Lemma done_done s x p : done x (_done s p) =
  match s, x with
  | Decode, Decode | CfgStage, CfgStage | Track, Track => true
  | Decode, _ | CfgStage, Track => false
  | _, _ => done x p
  end.
Proof.
  apply Bool.eq_true_iff_eq. unfold done, _done. rewrite bool_decide_eq_true. simpl.
  set (kept := filter _ (timings p)).
  assert (x ∈ kept ↔ x ∈ timings p ∧ x ∉ later_stages s) as Hk
    by (unfold kept; rewrite list_elem_of_filter; tauto).
  case_bool_decide as Hs; [|rewrite elem_of_app, list_elem_of_singleton]; rewrite Hk.
  - destruct (decide (x = s)) as [-> | ?]; [apply Hk in Hs as [? ?]; destruct s; done|].
    destruct s, x; simpl; rewrite ?elem_of_cons, ?elem_of_nil, ?bool_decide_eq_true; naive_solver.
  - destruct s, x; simpl; rewrite ?elem_of_cons, ?elem_of_nil, ?bool_decide_eq_true; naive_solver.
Qed.

(** A region, but for the block it was placed at. *)
Definition unplaced (r : ProgRegion) : ProgRegion :=
  mk_region (r_name r) (r_path r) (r_start r) (r_end r) (r_slot r) (r_map_id r) None.

Lemma place_regions_same starts progs bs0 done0 bs done1 :
  foldR (place_region starts) (bs0, done0) progs = Ok (bs, done1) →
  unplaced <$> done1 = (unplaced <$> done0) ++ (unplaced <$> progs).
Proof.
  revert bs0 done0. induction progs as [|r progs IH]; intros bs0 done0 HE; simpl in HE; res_inv.
  - by rewrite app_nil_r.
  - rewrite (IH _ _ HE), fmap_app. simpl. by rewrite <- app_assoc.
Qed.

Lemma build_cfg_regions instrs progs blocks cfg starts progs' :
  Cfg.build_cfg instrs progs = Ok (blocks, cfg, starts, progs') → unplaced <$> progs' = unplaced <$> progs.
Proof.
  intros HE. unfold Cfg.build_cfg in HE. cbv zeta in HE.
  apply bind_Ok in HE as ([bs1 cfg1] & _ & HE). apply bind_Ok in HE as ([bs2 pr2] & HP & HE).
  injection HE as _ _ _ <-. by apply place_regions_same in HP.
Qed.

Section program.
Context (open : string → Elf) (depth : nat) (oid0 : Z).

(** *** What each stage leaves *)

Definition is_loaded (p : eBPFProgram) : Prop := ∃ loads L,
  load_objects open depth p = Ok loads ∧ link loads (tails p) = Ok L ∧
  p_instrs p = lk_instrs L ∧ p_maps p = lk_maps L ∧ p_rodata p = lk_rodata L ∧ p_bss p = lk_bss L ∧
  unplaced <$> p_progs p = unplaced <$> lk_progs L.

(** The blocks are the graph of the instructions, with any abstract state. *)
Definition has_graph (p : eBPFProgram) : Prop := ∃ progs bs cfg starts,
  Cfg.build_cfg (p_instrs p) progs = Ok (bs, cfg, starts, p_progs p) ∧ place <$> p_blocks p = place <$> bs.

(** The blocks are as one full pass of the tracker left them. *)
Definition is_tracked (p : eBPFProgram) : Prop := ∃ bs,
  Tracker.track (mk_tracker bs (p_instrs p) (p_maps p) (p_progs p) (default [] (ro_data (p_rodata p))) false)
    (first_free oid0 bs) = Ok (p_blocks p, p_sources p) ∧ place <$> bs = place <$> p_blocks p ∧
  p_calls p = build_call_index (p_blocks p).

Definition consistent (p : eBPFProgram) : Prop :=
  (done Decode p = true → is_loaded p) ∧ (done CfgStage p = true → has_graph p) ∧
  (done Track p = true → is_tracked p).

(** The object files and the entry points, which no stage changes. *)
Definition inputs (p : eBPFProgram) := (file_path p, main_func p, tails p).

(** The public stages; a brief pass comes before the full one. *)
Inductive stage_step : eBPFProgram → eBPFProgram → Prop :=
| step_decode p p' : decode_binary open depth p = Ok p' → stage_step p p'
| step_cfg p p' : build_cfg p = Ok p' → stage_step p p'
| step_track p p' : track oid0 false p = Ok p' → stage_step p p'
| step_brief p p' : done Track p = false → track oid0 true p = Ok p' → stage_step p p'.

Lemma stage_inputs p p' : stage_step p p' → inputs p' = inputs p.
Proof.
  destruct 1 as [p p' HE | p p' HE | p p' HE | p p' _ HE].
  - unfold decode_binary in HE. res_inv. done.
  - unfold build_cfg in HE. apply bind_Ok in HE as ([[[bs cfg] st] pr] & _ & [= <-]). done.
  - unfold track in HE. apply bind_Ok in HE as ([bs srcs] & _ & [= <-]). done.
  - unfold track in HE. apply bind_Ok in HE as ([bs srcs] & _ & [= <-]). done.
Qed.

Lemma decode_consistent p p' : decode_binary open depth p = Ok p' →
  consistent p' ∧ done Decode p' = true.
Proof.
  intros HE. unfold decode_binary in HE. apply bind_Ok in HE as (loads & Hl & HE).
  apply bind_Ok in HE as (L & HL & [= <-]). unfold consistent. rewrite !done_done. simpl.
  split; [|done]. split_and!; [|done..]. intros _. by exists loads, L.
Qed.

Lemma cfg_consistent p p' : consistent p → build_cfg p = Ok p' →
  consistent p' ∧ done CfgStage p' = true ∧ done Decode p' = done Decode p.
Proof.
  intros (Hd & _ & _) HE. unfold build_cfg in HE.
  apply bind_Ok in HE as ([[[bs cfg] starts] pr] & HC & [= <-]). unfold consistent. rewrite !done_done. simpl.
  split; [|done]. split_and!; [|intros _|done].
  - intros Hdone. destruct (Hd Hdone) as (loads & L & Hl & HL & H1 & H2 & H3 & H4 & H5).
    exists loads, L. split_and!; try done. simpl. rewrite <- H5. by eapply build_cfg_regions.
  - by exists (p_progs p), bs, cfg, starts.
Qed.

Lemma track_consistent brief p p' : consistent p → (brief = true → done Track p = false) →
  track oid0 brief p = Ok p' →
  consistent p' ∧ done Track p' = negb brief ∧ done CfgStage p' = done CfgStage p ∧ done Decode p' = done Decode p.
Proof.
  intros (Hd & Hc & _) Hb HE. unfold track in HE. apply bind_Ok in HE as ([bs srcs] & HT & HE).
  destruct (track_run _ _ _ _ HT) as (Hpl & _). simpl in Hpl.
  assert (∀ q, p_instrs q = p_instrs p → p_progs q = p_progs p → p_blocks q = bs →
    done CfgStage p = true → has_graph q) as Hg.
  { intros q H1 H2 H3 Hdone. destruct (Hc Hdone) as (progs & bs0 & cfg & starts & HC & Hp).
    exists progs, bs0, cfg, starts. by rewrite H1, H2, H3, Hpl. }
  destruct brief; injection HE as <-.
  - split; [|split; [exact (Hb eq_refl)|done]]. split_and!; [exact Hd|by apply Hg|].
    intros Ht. change (done Track p = true) in Ht. by rewrite Hb in Ht.
  - unfold consistent. rewrite !done_done. simpl. split; [|done].
    split_and!; [exact Hd|by apply Hg|]. intros _. by exists (p_blocks p).
Qed.

Lemma new_consistent f m ts : consistent (new_program f m ts).
Proof. by split_and!. Qed.

Lemma stage_consistent p p' : consistent p → stage_step p p' → consistent p'.
Proof.
  intros Hp HS. destruct HS as [p p' HE | p p' HE | p p' HE | p p' Ht HE].
  - by destruct (decode_consistent _ _ HE).
  - by destruct (cfg_consistent _ _ Hp HE).
  - by destruct (track_consistent false _ _ Hp ltac:(done) HE).
  - by destruct (track_consistent true _ _ Hp (λ _, Ht) HE).
Qed.

Lemma analyze_consistent p p' : consistent p → analyze open depth oid0 p = Ok p' →
  consistent p' ∧ (∀ s, done s p' = true) ∧ rtc stage_step p p'.
Proof.
  intros Hp HE. unfold analyze in HE.
  apply bind_Ok in HE as (p1 & H1 & HE). apply bind_Ok in HE as (p2 & H2 & H3).
  assert (consistent p1 ∧ done Decode p1 = true ∧ rtc stage_step p p1) as (C1 & D1 & R1).
  { destruct (done Decode p) eqn:E; [injection H1 as <-; split_and!; [done..|apply rtc_refl]|].
    destruct (decode_consistent _ _ H1). split_and!; [done..|]. by apply rtc_once, step_decode. }
  assert (consistent p2 ∧ done Decode p2 = true ∧ done CfgStage p2 = true ∧ rtc stage_step p p2)
    as (C2 & D2 & G2 & R2).
  { destruct (done CfgStage p1) eqn:E; [injection H2 as <-; by split_and!|].
    destruct (cfg_consistent _ _ C1 H2) as (? & ? & Hd). rewrite Hd. split_and!; [done..|].
    eapply rtc_r; [exact R1|by apply step_cfg]. }
  destruct (done Track p2) eqn:E; [injection H3 as <-; split; [done|split; [by intros []|done]]|].
  destruct (track_consistent false _ _ C2 ltac:(done) H3) as (? & Ht & Hg & Hd).
  split; [done|]. split; [intros []; [by rewrite Hd|by rewrite Hg|by rewrite Ht]|]. eapply rtc_r; [exact R2|by apply step_track].
Qed.

Lemma reachable_consistent f m ts p : rtc stage_step (new_program f m ts) p → consistent p.
Proof.
  assert (∀ q, consistent q → rtc stage_step q p → consistent p) as H.
  { intros q Hq HR. induction HR as [|x y z HS _ IH]; [done|]. apply IH. by eapply stage_consistent. }
  apply H, new_consistent.
Qed.

Lemma analyzed_fixed p : (∀ s, done s p = true) → analyze open depth oid0 p = Ok p.
Proof. intros Hd. unfold analyze. rewrite (Hd Decode). simpl. rewrite (Hd CfgStage). simpl. by rewrite (Hd Track). Qed.

(** *** The analysed program *)

(** Blocks that are the graph of a program, and each at its number. *)
Lemma graph_blocks p : has_graph p → (0 < length (p_blocks p))%nat ∧ exits_end (p_blocks p) ∧
  (∀ k b, p_blocks p !! k = Some b → num b = Z.of_nat k) ∧
  (∀ s, s ∈ p_blocks p → branch s = false → succ_t s = None ∨ succ_f s = None) ∧
  ∀ b s q, 0 <= b → p_blocks p !! Z.to_nat b = Some s → q ∈ preds s ↔ edge_to (p_blocks p) q b.
Proof.
  intros (progs & bs & cfg & starts & HC & Hpl).
  assert (∀ (l l' : list Block) k b, place <$> l = place <$> l' → l !! k = Some b →
    ∃ b', l' !! k = Some b' ∧ place b' = place b) as Hlook.
  { clear. intros l l' k b Hpl Hb. assert ((place <$> l') !! k = Some (place b)) as H
      by (by rewrite <- Hpl, list_lookup_fmap, Hb).
    rewrite list_lookup_fmap in H. apply fmap_Some in H as (b' & ? & ?). eauto. }
  assert (∀ s, s ∈ p_blocks p → (branch s = false → succ_t s = None ∨ succ_f s = None) ∧
    (kind s = KExit → succ_t s = None ∧ succ_f s = None)) as Hsucc.
  { intros s [k Hk]%list_elem_of_lookup. destruct (Hlook _ _ k s Hpl Hk) as (b & Hb & Hp).
    destruct (cfg_successors _ _ _ _ _ _ _ _ HC Hb) as [H1 H2]. injection Hp as _ _ _ _ H3 H4 H5 H6 H7 _.
    unfold kind in *. by rewrite H3, H4, H5, H6, H7 in *. }
  split_and!.
  - apply (f_equal length) in Hpl. rewrite !length_fmap in Hpl. rewrite Hpl. by eapply cfg_nonempty.
  - intros s Hs. by apply Hsucc.
  - intros k s Hk. destruct (Hlook _ _ k s Hpl Hk) as (b & Hb & Hp). injection Hp as <- _.
    by destruct (block_bounds _ _ _ _ _ _ _ _ HC Hb).
  - intros s Hs. by apply Hsucc.
  - intros b s q Hb Hs. destruct (Hlook _ _ _ s Hpl Hs) as (b' & Hb' & Hp). injection Hp as _ _ _ <- _ _ _ _ _ _.
    rewrite (cfg_preds _ _ _ _ _ _ _ _ HC Hb' q), Z2Nat.id by done. unfold edge_to.
    setoid_rewrite elem_successors. split; intros [Hq (x & Hx & Hor)]; (split; [done|]).
    + destruct (Hlook _ _ _ x (eq_sym Hpl) Hx) as (y & Hy & Hxy). exists y. split; [done|].
      injection Hxy as _ _ _ _ Hf Ht _ _ _ _. by rewrite Hf, Ht.
    + destruct (Hlook _ _ _ x Hpl Hx) as (y & Hy & Hxy). exists y. split; [done|].
      injection Hxy as _ _ _ _ Hf Ht _ _ _ _. by rewrite Hf, Ht.
Qed.
End program.

(** C33 The stages can be run in any order, and repeated. From a new program object,
    after any sequence of successful stages (a brief pass of the tracker only before
    the full one), [analyze] runs what is missing or out of date and nothing else:
    it ends with the linked objects' instructions, maps and globals, their
    control-flow graph, and the state the tracker leaves after one full pass over
    that graph; the inputs are untouched, and analysing again changes nothing. *)
Theorem analyze_pipeline open depth oid0 f main ts p p' :
  rtc (stage_step open depth oid0) (new_program f main ts) p → analyze open depth oid0 p = Ok p' →
  inputs p' = (f, main, ts) ∧ is_loaded open depth p' ∧ has_graph p' ∧ is_tracked oid0 p' ∧
  (∀ s, done s p = true → (∀ s', s ∈ later_stages s' → done s' p = true) →
     match s with Decode => p_instrs p' = p_instrs p | CfgStage => place <$> p_blocks p' = place <$> p_blocks p
     | Track => p' = p end) ∧
  analyze open depth oid0 p' = Ok p'.
Proof.
  intros HR HA. pose proof (reachable_consistent _ _ _ _ _ _ _ HR) as Hc.
  destruct (analyze_consistent _ _ _ _ _ Hc HA) as ((L1 & L2 & L3) & Hall & HR').
  assert (∀ x y, rtc (stage_step open depth oid0) x y → inputs y = inputs x) as Hin.
  { intros x y. induction 1 as [|x y z HS _ IH]; [done|]. rewrite IH. by eapply stage_inputs. }
  split_and!.
  - by rewrite (Hin _ _ HR'), (Hin _ _ HR).
  - by apply L1.
  - by apply L2.
  - by apply L3.
  - intros s Hs Hb. unfold analyze in HA. destruct s.
    + rewrite Hs in HA. simpl in HA. apply bind_Ok in HA as (p2 & H2 & H3).
      assert (p_instrs p2 = p_instrs p) as Hi.
      { destruct (done CfgStage p); [by injection H2 as <-|].
        unfold build_cfg in H2. by apply bind_Ok in H2 as ([[[? ?] ?] ?] & _ & [= <-]). }
      destruct (done Track p2); [by injection H3 as <-|].
      unfold track in H3. by apply bind_Ok in H3 as ([? ?] & _ & [= <-]).
    + rewrite (Hb Decode) in HA by (simpl; left). simpl in HA. rewrite Hs in HA. simpl in HA.
      destruct (done Track p); [by injection HA as <-|].
      unfold track in HA. apply bind_Ok in HA as ([bs srcs] & HT & [= <-]).
      by destruct (track_run _ _ _ _ HT) as [? _].
    + rewrite (Hb Decode) in HA by (simpl; set_solver). simpl in HA.
      rewrite (Hb CfgStage) in HA by (simpl; set_solver). simpl in HA. rewrite Hs in HA. by injection HA as <-.
  - by apply analyzed_fixed.
Qed.

(** A brief pass over an analysed program overwrites its blocks in place and is not
    noticed: the program still counts as tracked, with the sources of the full pass. *)
Lemma brief_pass_unnoticed open depth oid0 p p' : (∀ s, done s p = true) → track oid0 true p = Ok p' →
  analyze open depth oid0 p' = Ok p' ∧ p_sources p' = p_sources p ∧
  ∃ srcs, Tracker.track (tracker_of true p) (first_free oid0 (p_blocks p)) = Ok (p_blocks p', srcs).
Proof.
  intros Hall HE. unfold track in HE. apply bind_Ok in HE as ([bs srcs] & HT & [= <-]).
  split; [|split; [done|by exists srcs]]. apply analyzed_fixed. exact Hall.
Qed.

(** ** Initial states and context writes *)

Section initial.
Context `{HL : SMTLaws}.

(** A state without globals whose queue register is a register. *)
Lemma fresh_sorts st : z_bss st = [] → sorts_like st st.
Proof.
  intros Hb. split; [split|done]; try done.
  - apply Forall_Forall2_diag, Forall_true. done.
  - intros k. unfold _bss_of. rewrite Hb. by apply bss_of_zero.
Qed.

Lemma input_sorts st : (∃ maps, st = _make_init_state maps) ∨ (∃ i maps, st = z3_state_from_input i maps) →
  sorts_like st st ∧ size (z_rx_index st) = 64.
Proof.
  intros [[maps ->] | (i & maps & ->)]; (split; [by apply fresh_sorts|]); simpl.
  - by apply size_BitVec.
  - unfold input_scalar. destruct (in_rx_queue i); [by apply size_BitVecVal|by apply size_BitVec].
Qed.

(** A value whose term is at most a register wide in any state: a constant or the
    result of an ALU instruction. *)
Definition narrow_value (v : val) : bool :=
  match v with
  | VNum _ _ s _ | VScalar _ s _ => (0 <? s) && (s <=? 8)
  | VBin _ _ => true
  | VUn _ u => (negb (u_op u =? MOV)) || ((1 <=? u_imm u) && (u_imm u <=? 32))
  | _ => false
  end.

(** The program only writes such values to its context. *)
Definition narrow_writes (blocks : list Block) : bool :=
  forallb (λ b, forallb (λ a, match a_kind a with CtxWrite v => narrow_value v | _ => true end) (actions b))
    blocks.

Lemma narrow_value_size st v t : narrow_value v = true → expr_z3 st v = Ok t → size t <= 64.
Proof.
  intros Hv HE. unfold expr_z3, fresh_memo in HE.
  destruct (expr_to_z3 st v ∅) as [[t' mm]|] eqn:E; [|discriminate]. injection HE as ->.
  destruct v; simpl in Hv; try discriminate; cbn [expr_to_z3] in E; cbv zeta in E; bool_prop.
  - res_inv. rewrite size_BitVec; lia.
  - res_inv. rewrite size_BitVecVal; lia.
  - unfold memoised in E. rewrite lookup_empty in E.
    match type of E with match ?x with _ => _ end = _ =>
      destruct x as [[t1 mm1]|] eqn:E1; [|discriminate] end. injection E as <- <-.
    apply ST_bind_Ok in E1 as (d & mm2 & _ & E1). apply lift_Ok in E1 as [E1 _].
    eapply alu_unary_size; [|exact E1]. intros Hm. rewrite Hm in Hv. simpl in Hv. bool_prop.
    destruct (reg_bits_cases (u_size u)); lia.
  - unfold memoised in E. rewrite lookup_empty in E.
    match type of E with match ?x with _ => _ end = _ =>
      destruct x as [[t1 mm1]|] eqn:E1; [|discriminate] end. injection E as <- <-.
    apply ST_bind_Ok in E1 as (d & mm2 & _ & E1). apply ST_bind_Ok in E1 as (sr & mm3 & _ & E1).
    apply lift_Ok in E1 as [E1 _]. by eapply alu_binary_size.
Qed.

Lemma narrow_writes_ctx blocks st : size (z_rx_index st) = 64 → narrow_writes blocks = true →
  narrow_ctx blocks st.
Proof.
  intros Hst Hn. split; [done|]. intros s a v st' t Hs Ha Hk HE.
  unfold narrow_writes in Hn. rewrite forallb_forall in Hn. apply list_elem_of_In, Hn in Hs.
  rewrite forallb_forall in Hs. apply list_elem_of_In, Hs in Ha. rewrite Hk in Ha. by eapply narrow_value_size.
Qed.

Lemma graph_analysable p st : has_graph p → narrow_writes (p_blocks p) = true →
  sorts_like st st → size (z_rx_index st) = 64 →
  analysable (p_blocks p) st.
Proof.
  intros Hg Hn Hs Hr. destruct (graph_blocks p Hg) as (Hlen & _ & _ & Hone & Hp).
  split; [done..| |done]. by apply narrow_writes_ctx.
Qed.
End initial.

(** ** Specifications *)

Lemma parse_section_elem {A} (f : string → json → res A) x l a : parse_section f x = Ok l → a ∈ l →
  ∃ name node, f name node = Ok a.
Proof.
  intros HE Ha. unfold parse_section in HE. apply bind_Ok in HE as (items & _ & HE).
  apply mapR_Forall2 in HE. apply list_elem_of_lookup in Ha as [k Hk].
  destruct (Forall2_lookup_r _ _ _ _ _ HE Hk) as ([name node] & _ & Hf). by exists name, node.
Qed.

(** The block of a parsed condition exists. *)
Lemma parse_spec_blocks `{Scapy} raw maps blocks calls p : parse_spec raw maps (Some blocks) calls = Ok p →
  ∀ bc, bc ∈ pol_block p → in_range blocks (bc_block bc) = true.
Proof.
  intros HE bc Hbc. unfold parse_spec in HE.
  apply bind_Ok in HE as (top & _ & HE). apply bind_Ok in HE as (u1 & _ & HE).
  apply bind_Ok in HE as (u2 & _ & HE). apply bind_Ok in HE as (inp & _ & HE).
  apply bind_Ok in HE as (bcs & HB & HE). apply bind_Ok in HE as (ecs & _ & [= <-]). simpl in Hbc.
  destruct (parse_section_elem _ _ _ _ HB Hbc) as (name & node & HP). clear HB Hbc.
  unfold _parse_block_condition in HP.
  apply bind_Ok in HP as (h & _ & HP). apply bind_Ok in HP as (u3 & _ & HP).
  apply bind_Ok in HP as (b & _ & HP). apply bind_Ok in HP as (block & _ & HP).
  apply bind_Ok in HP as (u4 & Hg & HP). apply bind_Ok in HP as (all & _ & HP).
  apply bind_Ok in HP as (c & _ & HP). apply bind_Ok in HP as (cond & _ & [= <-]).
  by apply guard_or_Ok in Hg.
Qed.

(** The selection of [_select]: the conditions named, in their order. *)
Lemma select_elem p only p' : _select p only = Ok p' →
  pol_input p' = pol_input p ∧
  (∀ bc, bc ∈ pol_block p' ↔ bc ∈ pol_block p ∧ match only with Some l => bc_name bc ∈ l | None => True end) ∧
  (∀ ec, ec ∈ pol_exit p' ↔ ec ∈ pol_exit p ∧ match only with Some l => ec_name ec ∈ l | None => True end).
Proof.
  intros HE. unfold _select in HE. destruct only as [names|]; [|injection HE as <-; naive_solver].
  apply bind_Ok in HE as (u & _ & [= <-]). simpl. split; [done|].
  split; intros x; rewrite list_elem_of_filter, bool_decide_eq_true; tauto.
Qed.

(** ** The whole tool *)

Section verify.
Context `{HL : SMTLaws} `{!SameTerm} `{!SameTermLaws} `{!Solver} `{!SmtAst} `{!Scapy}.
Context (open : string → Elf) (read_spec : string → res json) (depth : nat) (oid0 : Z) (ast_fuel : nat).

(** A specification given as a document or the path of one. *)
Definition is_document (spec : spec_arg) : bool :=
  match spec with SpecPolicy _ => false | _ => true end.

(** The initial state of a policy's input. *)
Definition policy_init (policy : Policy) (p : eBPFProgram) : Z3State :=
  init_or_default ((λ i, z3_state_from_input i (p_maps p)) <$> pol_input policy) p.

Lemma run_analyze_Ok p u p' : run_analyze open depth oid0 p = Ok (u, p') ↔ analyze open depth oid0 p = Ok p'.
Proof.
  unfold run_analyze. destruct (analyze open depth oid0 p); simpl; [|done].
  destruct u. split; [by intros [= ->]|by intros [= ->]].
Qed.

Lemma load_spec_run spec p pol p' : is_document spec = true →
  load_spec open read_spec depth oid0 spec p = Ok (pol, p') →
  analyze open depth oid0 p = Ok p' ∧
  ∀ bc, bc ∈ pol_block pol → in_range (p_blocks p') (bc_block bc) = true.
Proof.
  intros Hd HE. unfold load_spec in HE. destruct spec as [|raw|path]; [done|..];
    apply ST_bind_Ok in HE as (u & q & HA & HE); apply ST_bind_Ok in HE as (q' & q2 & [= <- <-] & HE);
    apply run_analyze_Ok in HA.
  - apply lift_Ok in HE as [HP ->]. split; [done|]. by eapply parse_spec_blocks.
  - apply ST_bind_Ok in HE as (raw & q3 & Hr & HE). apply lift_Ok in Hr as [_ ->].
    apply lift_Ok in HE as [HP ->]. split; [done|]. by eapply parse_spec_blocks.
Qed.

Lemma verify_run spec reach_all only p v p' : is_document spec = true →
  verify open read_spec depth oid0 ast_fuel spec reach_all only None None p = Ok (v, p') →
  ∃ full policy e c, load_spec open read_spec depth oid0 spec p = Ok (full, p') ∧
    _select full only = Ok policy ∧
    context_for [policy] (p_blocks p') (policy_init policy p') reach_all depth = Ok (e, c) ∧
    check ast_fuel e (p_calls p') policy reach_all c = Ok (v_results v).
Proof.
  intros Hd HE. unfold verify in HE.
  apply ST_bind_Ok in HE as (full & p1 & Hl & HE). apply ST_bind_Ok in HE as (policy & p2 & Hs & HE).
  apply lift_Ok in Hs as [Hs ->]. apply ST_bind_Ok in HE as (st & p3 & Hi & HE).
  assert (p3 = p1 ∧ init_or_default st p1 = policy_init policy p1) as [-> Hst].
  { unfold policy_init. apply ST_bind_Ok in Hi as (pol & p2 & [= <- <-] & Hi).
    destruct (pol_input policy); [apply ST_bind_Ok in Hi as (q & p4 & [= <- <-] & Hi)|];
      by injection Hi as <- <-. }
  apply ST_bind_Ok in HE as (q & p4 & [= <- <-] & HE). apply ST_bind_Ok in HE as (results & p5 & HR & HE).
  apply lift_Ok in HR as [HR ->]. injection HE as <- <-. simpl.
  unfold check_policy in HR. apply bind_Ok in HR as ([e c] & HC & HR). rewrite Hst in HC.
  by exists full, policy, e, c.
Qed.

(** *** The summary of the results *)

Lemma v_ok_spec v : v_ok v = true ↔ ∀ r, r ∈ v_results v → cr_verdict r ≠ "violated"%string.
Proof.
  unfold v_ok, violations. rewrite bool_decide_eq_true. rewrite length_zero_iff_nil. split.
  - intros Hn r Hr Hv. assert (r ∈ filter (λ r, is_violated r = true) (v_results v)) as Hin.
    { apply list_elem_of_filter. split; [|done]. by apply bool_decide_eq_true. }
    rewrite Hn in Hin. by apply elem_of_nil in Hin.
  - intros Hall. destruct (filter _ _) as [|r l] eqn:E; [done|]. exfalso.
    assert (r ∈ filter (λ r, is_violated r = true) (v_results v)) as Hin by (rewrite E; left).
    apply list_elem_of_filter in Hin as [Hv Hin]. apply bool_decide_eq_true in Hv. by apply (Hall r Hin).
Qed.

Lemma block_claim_ok e c bc r : block_claim e c bc r →
  cr_verdict r ≠ "violated"%string ↔ (bc_all bc = true →
    quiet_at e c true (bc_block bc) (state_at e c (bc_block bc)) (bc_cond bc)).
Proof.
  intros [(Hv & _ & Hq) | (Hv & w & _ & body & Hb & Hl & Hev & _)]; rewrite Hv; destruct (bc_all bc) eqn:Ea;
    simpl; try done; split; try done.
  rewrite ?Ea in Hev. intros Hq. specialize (Hq eq_refl _ _ Hl Hb). simpl in Hev. congruence.
Qed.

Lemma exit_claim_ok blocks e c ec r : (∀ b, b ∈ exit_blocks blocks → in_range blocks b = true) →
  exit_claim blocks e c ec r →
  cr_verdict r ≠ "violated"%string ↔ (ec_all ec = true →
    ∀ b st, b ∈ exit_blocks blocks → ret_state e c b = Ok (Some st) → quiet_at e c true b st (ec_cond ec)).
Proof.
  intros Hr [(Hv & _ & Hq) | (Hv & w & b & st & _ & Hbe & Hs & body & Hb & Hl & Hev & _)]; rewrite Hv;
    destruct (ec_all ec) eqn:Ea; simpl; try done; split; try done.
  - intros _ _ b st Hb. by apply Hq; [|apply Hr].
  - rewrite ?Ea in Hev. intros Hq. specialize (Hq eq_refl _ _ Hbe Hs _ _ Hl Hb). simpl in Hev. congruence.
Qed.

(** Every condition of a policy that must always hold, holds. *)
Definition all_hold (policy : Policy) (blocks : list Block) (e : fenv) (c : fctx) : Prop :=
  (∀ bc, bc ∈ pol_block policy → bc_all bc = true →
     quiet_at e c true (bc_block bc) (state_at e c (bc_block bc)) (bc_cond bc)) ∧
  (∀ ec, ec ∈ pol_exit policy → ec_all ec = true → ∀ b st, b ∈ exit_blocks blocks →
     ret_state e c b = Ok (Some st) → quiet_at e c true b st (ec_cond ec)).

Lemma Forall2_both {A B} (P : A → B → Prop) (Q : B → Prop) (R : A → Prop) l k :
  (∀ a b, P a b → Q b ↔ R a) → Forall2 P l k → (∀ b, b ∈ k → Q b) ↔ (∀ a, a ∈ l → R a).
Proof.
  intros HPQ. induction 1 as [|a b l k HP HF IH]; [by setoid_rewrite elem_of_nil|].
  setoid_rewrite elem_of_cons. specialize (HPQ a b HP). naive_solver.
Qed.

Lemma ok_all_hold policy blocks e c v rb re rr :
  (∀ b, b ∈ exit_blocks blocks → in_range blocks b = true) →
  v_results v = rb ++ re ++ rr → Forall2 (block_claim e c) (pol_block policy) rb →
  Forall2 (exit_claim blocks e c) (pol_exit policy) re →
  (∀ r, r ∈ rr → cr_verdict r ≠ "violated"%string) →
  v_ok v = true ↔ all_hold policy blocks e c.
Proof.
  intros Hr Hv HB HX HR. rewrite v_ok_spec, Hv. setoid_rewrite elem_of_app. setoid_rewrite elem_of_app.
  unfold all_hold.
  rewrite <- (Forall2_both _ _ _ _ _ (block_claim_ok e c) HB).
  rewrite <- (Forall2_both _ _ _ _ _ (λ ec r, exit_claim_ok blocks e c ec r Hr) HX). naive_solver.
Qed.

Lemma exits_in_range p : has_graph p → ∀ b, b ∈ exit_blocks (p_blocks p) → in_range (p_blocks p) b = true.
Proof.
  intros Hg b Hb. destruct (graph_blocks p Hg) as (_ & _ & Hnum & _).
  unfold exit_blocks in Hb. apply list_elem_of_omap in Hb as (s & Hs & Hb).
  apply list_elem_of_lookup in Hs as [k Hk]. assert (b = num s) as -> by (destruct (kind s); congruence).
  rewrite (Hnum k s Hk). apply lookup_lt_Some in Hk. unfold in_range. lia.
Qed.

(** *** What the tool promises *)

Lemma policy_init_sorts policy p : sorts_like (policy_init policy p) (policy_init policy p) ∧
  size (z_rx_index (policy_init policy p)) = 64.
Proof.
  apply input_sorts. unfold policy_init, init_or_default. destruct (pol_input policy) as [i|]; simpl; eauto.
Qed.

(** The run of [verify], from the object files to the verdicts. *)
Lemma verify_holds `{!SolverLaws} f main ts p spec reach_all only v p' :
  rtc (stage_step open depth oid0) (new_program f main ts) p → is_document spec = true → decides →
  verify open read_spec depth oid0 ast_fuel spec reach_all only None None p = Ok (v, p') →
  narrow_writes (p_blocks p') = true →
  is_loaded open depth p' ∧ has_graph p' ∧ is_tracked oid0 p' ∧
  ∃ full policy e c rb re rr,
    load_spec open read_spec depth oid0 spec p = Ok (full, p') ∧ _select full only = Ok policy ∧
    context_for [policy] (p_blocks p') (policy_init policy p') reach_all depth = Ok (e, c) ∧
    v_results v = rb ++ re ++ rr ∧
    Forall2 (block_claim e c) (pol_block policy) rb ∧
    Forall2 (exit_claim (p_blocks p') e c) (pol_exit policy) re ∧
    (if reach_all then Forall2 (reach_claim e c) (merge_sort Z.le (map fst (c_info c))) rr else rr = []) ∧
    (v_ok v = true ↔ all_hold policy (p_blocks p') e c).
Proof.
  intros Hst Hd Hdec HE Hn.
  destruct (verify_run _ _ _ _ _ _ Hd HE) as (full & policy & e & c & Hl & Hs & HC & HR).
  destruct (load_spec_run _ _ _ _ Hd Hl) as [HA Hin].
  destruct (analyze_consistent _ _ _ p p' (reachable_consistent _ _ _ _ _ _ _ Hst) HA) as ((L1 & L2 & L3) & Hall & _).
  specialize (L1 (Hall _)). specialize (L2 (Hall _)). specialize (L3 (Hall _)). split_and!; [done..|].
  destruct (policy_init_sorts policy p') as [Hi Hrx].
  pose proof (graph_analysable p' _ L2 Hn Hi Hrx) as Han.
  destruct (graph_blocks p' L2) as (_ & Hex & _).
  destruct (check_ok ast_fuel (p_calls p') [policy] (p_blocks p') _ reach_all depth e c Han Hex Hdec HC
    policy reach_all (v_results v)) as (rb & re & rr & Hv & HB & HX & Hrr); [by left| |exact HR|].
  { intros bc Hbc. apply Hin, (select_elem _ _ _ Hs), Hbc. }
  assert (if reach_all then Forall2 (reach_claim e c) (merge_sort Z.le (map fst (c_info c))) rr else rr = [])
    as Hrep by (destruct reach_all; [by eapply reach_report_ok|done]).
  exists full, policy, e, c, rb, re, rr. split_and!; [done..|].
  eapply ok_all_hold; [by apply exits_in_range|exact Hv|exact HB|exact HX|].
  intros r Hr. destruct reach_all; [|by rewrite Hrep in Hr; apply elem_of_nil in Hr].
  apply list_elem_of_lookup in Hr as [k Hk].
  by destruct (Forall2_lookup_r _ _ _ _ _ Hrep Hk) as (b & _ & _ & [[-> _] | [-> _]]).
Qed.

(** C1 From the object files to the verdicts. Take a program object in any state its
    stages can have left it, and a specification given as a document. When [verify]
    returns, the program has been analysed: its objects were loaded and linked, its
    blocks are the graph of the linked instructions, and the tracker interpreted
    them once. The results are one verdict per selected condition, each with its
    claim on the paths of every model (and its counterexample), then the
    reachability report when asked for; and the run is [ok] exactly when every
    selected condition that must always hold does hold on every path that reaches
    its block, in every model. The solver is taken to decide every query, and the
    values written to the context to be at most 64 bits wide. *)
Theorem verify_sound `{!SolverLaws} f main ts p spec reach_all only v p' :
  rtc (stage_step open depth oid0) (new_program f main ts) p → is_document spec = true → decides →
  verify open read_spec depth oid0 ast_fuel spec reach_all only None None p = Ok (v, p') →
  narrow_writes (p_blocks p') = true →
  is_loaded open depth p' ∧ has_graph p' ∧ is_tracked oid0 p' ∧
  ∃ full policy e c rb re rr,
    load_spec open read_spec depth oid0 spec p = Ok (full, p') ∧ _select full only = Ok policy ∧
    context_for [policy] (p_blocks p') (policy_init policy p') reach_all depth = Ok (e, c) ∧
    v_results v = rb ++ re ++ rr ∧
    Forall2 (block_claim e c) (pol_block policy) rb ∧
    Forall2 (exit_claim (p_blocks p') e c) (pol_exit policy) re ∧
    (if reach_all then Forall2 (reach_claim e c) (merge_sort Z.le (map fst (c_info c))) rr else rr = []) ∧
    (v_ok v = true ↔ all_hold policy (p_blocks p') e c).
Proof. intros. by eapply verify_holds. Qed.

Lemma init_state_run spec p st p' : match spec with Some s => is_document s | None => true end = true →
  init_state open read_spec depth oid0 spec p = Ok (st, p') →
  (spec = None ∧ p' = p ∧ st = None ∨ analyze open depth oid0 p = Ok p') ∧
  (st = None ∨ ∃ i, st = Some (z3_state_from_input i (p_maps p'))).
Proof.
  intros Hd HE. unfold init_state in HE. destruct spec as [spec|]; [|injection HE as <- <-; auto].
  apply ST_bind_Ok in HE as (pol & p1 & Hl & HE). apply load_spec_run in Hl as [HA _]; [|done].
  destruct (pol_input pol) as [i|].
  - apply ST_bind_Ok in HE as (q & p2 & [= <- <-] & HE). injection HE as <- <-. eauto.
  - injection HE as <- <-. auto.
Qed.

(** A context over the whole program, made for [reachability] or [dead_blocks]. *)
Lemma whole_context_run f main ts p spec e c p' :
  rtc (stage_step open depth oid0) (new_program f main ts) p →
  match spec with Some s => is_document s | None => true end = true →
  _whole_context open read_spec depth oid0 spec None None p = Ok ((e, c), p') →
  has_graph p' ∧ ∃ st, sorts_like st st ∧ size (z_rx_index st) = 64 ∧
    context_for [] (p_blocks p') st false depth = Ok (e, c).
Proof.
  intros Hst Hd HE. apply reachable_consistent in Hst. unfold _whole_context in HE.
  apply ST_bind_Ok in HE as (st & p1 & Hi & HE). apply init_state_run in Hi as [Hp Hst1]; [|done].
  unfold context in HE. simpl in HE. apply ST_bind_Ok in HE as (pols & p2 & [= <- <-] & HE).
  apply ST_bind_Ok in HE as (st' & p3 & Hs & HE).
  assert (p3 = p1 ∧ st' = st) as [-> ->] by (destruct st; by injection Hs as <- <-).
  apply ST_bind_Ok in HE as (u & p4 & HA & HE). apply run_analyze_Ok in HA.
  apply ST_bind_Ok in HE as (q & p5 & [= <- <-] & HE). apply lift_Ok in HE as [HC ->].
  assert (consistent open depth oid0 p1) as Hc1.
  { destruct Hp as [(_ & -> & _) | Hp]; [done|]. by destruct (analyze_consistent _ _ _ _ _ Hst Hp). }
  destruct (analyze_consistent _ _ _ _ _ Hc1 HA) as ((_ & Hg & _) & Hall & _).
  split; [by apply Hg|]. exists (init_or_default st p4).
  assert (sorts_like (init_or_default st p4) (init_or_default st p4) ∧
    size (z_rx_index (init_or_default st p4)) = 64) as [? ?]; [|done].
  apply input_sorts. unfold init_or_default. destruct Hst1 as [-> | [i ->]]; simpl; eauto.
Qed.

(** [dead_blocks] lists the dead blocks: no model's path leads to a block it
    names, and a block that some model's path leads to is one the analysis
    recorded and the list leaves out (and conversely). *)
Theorem dead_blocks_exact `{!SolverLaws} f main ts p spec l p' :
  rtc (stage_step open depth oid0) (new_program f main ts) p →
  match spec with Some s => is_document s | None => true end = true → decides →
  dead_blocks open read_spec depth oid0 ast_fuel spec None None p = Ok (l, p') →
  narrow_writes (p_blocks p') = true →
  ∃ st e c, context_for [] (p_blocks p') st false depth = Ok (e, c) ∧
    (∀ b, b ∈ l → ∀ m, ¬ leads e c m b) ∧
    ∀ b, in_range (p_blocks p') b = true →
      (∃ m, leads e c m b) ↔ is_Some (pget (c_info c) b) ∧ b ∉ l.
Proof.
  intros Hst Hd Hdec HE Hn. unfold dead_blocks in HE.
  apply ST_bind_Ok in HE as ([e c] & p1 & HW & HE).
  unfold reachability in HE. simpl in HE. apply ST_bind_Ok in HE as (out & p2 & HR & HE).
  injection HE as <- <-. apply ST_bind_Ok in HR as ([e' c'] & p3 & [= <- <- <-] & HR).
  apply lift_Ok in HR as [HR ->].
  destruct (whole_context_run _ _ _ _ _ _ _ _ Hst Hd HW) as (Hg & st & Hs & Hrx & HC).
  pose proof (graph_analysable p1 _ Hg Hn Hs Hrx) as Han.
  pose proof (reach_report_ok ast_fuel [] _ _ _ _ e c Han Hdec HC out HR) as HF.
  set (order := merge_sort Z.le (map fst (c_info c))) in *.
  assert (∀ b, b ∈ order ↔ is_Some (pget (c_info c) b)) as Hord
    by (intros b; unfold order; by rewrite merge_sort_Permutation, elem_of_keys).
  set (dead := map fst _).
  assert (∀ b, b ∈ dead ↔ ∃ k r, order !! k = Some b ∧ out !! k = Some r ∧ cr_verdict r = "unsat"%string) as Hdead.
  { intros b. unfold dead. rewrite list_elem_of_fmap. split.
    - intros ([b' r] & -> & [Hv Hin]%list_elem_of_filter). apply bool_decide_eq_true in Hv. simpl in Hv.
      apply list_elem_of_lookup in Hin as [k Hk]. apply lookup_zip_Some in Hk as [? ?]. eauto.
    - intros (k & r & Hb & Hr & Hv). exists (b, r). split; [done|]. apply list_elem_of_filter.
      split; [by apply bool_decide_eq_true|]. apply list_elem_of_lookup. exists k. by apply lookup_zip_Some. }
  exists st, e, c. split; [done|].
  assert (∀ b, b ∈ dead → ∀ m, ¬ leads e c m b) as Hno.
  { intros b (k & r & Hb & Hr & Hv)%Hdead. destruct (Forall2_lookup_lr _ _ _ _ _ _ HF Hb Hr) as [_ [[He _] | [_ Hl]]];
      [by rewrite Hv in He|exact Hl]. }
  split; [exact Hno|]. intros b Hb. split.
  - intros [m Hl]. split; [by eapply (leads_recorded [] _ _ _ _ _ _ Han HC m b Hl Hb)|].
    intros Hin. by apply (Hno b Hin m).
  - intros [Hrec Hnot]. apply Hord, list_elem_of_lookup in Hrec as [k Hk].
    destruct (Forall2_lookup_l _ _ _ _ _ HF Hk) as (r & Hr & _ & [[_ Hm] | [Hv _]]); [exact Hm|].
    exfalso. apply Hnot, Hdead. eauto.
Qed.
End verify.
