(* ===== verification/ProgramExamples.v ===== *)
(** A whole run: an object file, its analysis and the verdicts on a specification. *)

From stdpp Require Import sorting relations.
From S2P Require Import Prelude Constants Smt SmtTerm Instr Link Expr Record Encode Action Block Cfg.
From S2P Require Import Tracker Prune Pystr Spec SpecSound Forward ForwardSound Witness Checker CheckerSound.
From S2P Require Import CheckerExamples Loader Program ProgramSound.

#[local] Existing Instance two.
#[local] Existing Instance two_laws.
#[local] Existing Instance two_same.
#[local] Existing Instance two_same_laws.
#[local] Existing Instance two_solver.
#[local] Existing Instance two_solver_laws.
#[local] Existing Instance two_ast.
#[local] Existing Instance two_scapy.

(** [if (data + 50 > data_end) return 1; return 2;]. *)
Definition run_text : section := mk_section "xdp" (mjoin
  [[0x61; 0x12; 0; 0; 0; 0; 0; 0]; [0x61; 0x13; 4; 0; 0; 0; 0; 0]; [0x07; 2; 0; 0; 50; 0; 0; 0];
   [0x2d; 0x32; 2; 0; 0; 0; 0; 0]; [0xb7; 0; 0; 0; 2; 0; 0; 0]; [0x95; 0; 0; 0; 0; 0; 0; 0];
   [0xb7; 0; 0; 0; 1; 0; 0; 0]; [0x95; 0; 0; 0; 0; 0; 0; 0]]).
Definition run_main : elf_symbol := mk_elf_symbol "main" 0 64 (ShNum 0) "STT_FUNC".
Definition run_sections : list section := [run_text; mk_section ".symtab" []].

Definition run_elf : Elf := {|
  iter_sections := run_sections;
  get_section_by_name := λ n, List.find (λ s, bool_decide (sec_name s = n)) run_sections;
  get_section := λ i, Ok (match i with ShNum n => run_sections !! Z.to_nat n | _ => None end);
  iter_symbols := [run_main];
  get_symbol_by_name := λ n, if bool_decide (n = "main"%string) then Some [run_main] else None;
  get_symbol := λ _, Ok run_main;
  iter_relocations := λ _, []
|}.

(** The program always returns 2; the block that returns 1 can be reached. *)
Definition run_spec : spec_arg := SpecDict
  [("block_conditions"%string, JObj [("short"%string, JObj [("block"%string, JInt 2)])]);
   ("exit_conditions"%string, JObj [("pass"%string, JObj [("assert"%string, JStr "all");
      ("cond"%string, JObj [("ret"%string, JInt 2)])])])].

Definition run_program : eBPFProgram := new_program "prog.o" "main" [].
Definition run_verify (only : option (list string)) : res (Verification * eBPFProgram) :=
  verify (λ _, run_elf) (λ _, Ok JNull) 9 1000 9 run_spec true only None None run_program.

Definition run_shown (r : res (Verification * eBPFProgram)) : list (string * string) * bool :=
  match r with Ok (v, _) => (verdicts v, v_ok v) | Err _ => ([], false) end.

(** A computation that returns, and what a test of its result shows. *)
Lemma run_test {A} (r : res A) (f : A → bool) :
  match r with Ok a => f a | Err _ => false end = true → ∃ a, r = Ok a ∧ f a = true.
Proof. destruct r; [eauto|done]. Qed.

(** Some condition of the whole policy is violated; the block condition alone is not. *)
Lemma verify_sound_witness : ∃ v p' policy e c, run_verify (Some ["short"%string]) = Ok (v, p') ∧
  v_ok v = true ∧ map bc_name (pol_block policy) = ["short"%string] ∧
  all_hold policy (p_blocks p') e c ∧ is_tracked 1000 p'.
Proof.
  destruct (run_test (run_verify (Some ["short"%string])) (λ vp, v_ok vp.1 && narrow_writes (p_blocks vp.2)))
    as ([v p'] & E & [Hv Hn]%andb_true_iff); [vm_compute; reflexivity|].
  destruct (@verify_sound two two_laws two_same two_same_laws two_solver two_ast two_scapy (λ _, run_elf) (λ _, Ok JNull) 9 1000 9
    two_solver_laws "prog.o" "main" [] run_program run_spec true
    (Some ["short"%string]) v p' (rtc_refl _ _) eq_refl two_decides E Hn)
    as (_ & _ & Ht & full & policy & e & c & rb & re & rr & Hl & Hs & _ & _ & _ & _ & _ & Hall).
  exists v, p', policy, e, c. split; [exact E|]. split; [exact Hv|]. split; [|split; [by apply Hall|exact Ht]].
  assert (match load_spec (λ _, run_elf) (λ _, Ok JNull) 9 1000 run_spec run_program with
          | Ok (full, _) => match _select full (Some ["short"%string]) with
                            | Ok policy => bool_decide (map bc_name (pol_block policy) = ["short"%string])
                            | Err _ => false end
          | Err _ => false end = true) as Hp by (vm_compute; reflexivity).
  rewrite Hl, Hs in Hp. by apply bool_decide_eq_true in Hp.
Defined.

Definition run_again : res (eBPFProgram * eBPFProgram * eBPFProgram * eBPFProgram) :=
  p1 ← decode_binary (λ _, run_elf) 9 run_program;
  p2 ← build_cfg p1;
  p ← decode_binary (λ _, run_elf) 9 p2;
  p' ← analyze (λ _, run_elf) 9 1000 p;
  Ok (p1, p2, p, p').

(** Decoding again after the graph was built: everything later is done again. *)
Lemma analyze_pipeline_witness : ∃ p p', rtc (stage_step (λ _, run_elf) 9 1000) run_program p ∧
  timings p = [Decode] ∧ analyze (λ _, run_elf) 9 1000 p = Ok p' ∧
  timings p' = [Decode; CfgStage; Track] ∧ p_instrs p' = p_instrs p.
Proof.
  destruct (run_test run_again (λ x, bool_decide (timings x.1.2 = [Decode])
      && bool_decide (timings x.2 = [Decode; CfgStage; Track])))
    as ([[[p1 p2] p] p'] & E & [Ht Ht']%andb_true_iff); [vm_compute; reflexivity|].
  apply bool_decide_eq_true in Ht, Ht'. simpl in Ht, Ht'. unfold run_again in E.
  apply bind_Ok in E as (q1 & E1 & E). apply bind_Ok in E as (q2 & E2 & E).
  apply bind_Ok in E as (q & E3 & E). apply bind_Ok in E as (q' & EA & [= -> -> -> ->]).
  assert (rtc (stage_step (λ _, run_elf) 9 1000) run_program p) as HR.
  { apply (rtc_l _ _ p1); [by apply step_decode|]. apply (rtc_l _ _ p2); [by apply step_cfg|].
    apply rtc_once. by apply step_decode. }
  destruct (analyze_pipeline (λ _, run_elf) 9 1000 _ _ _ p p' HR EA) as (_ & _ & _ & _ & Hkeep & _).
  exists p, p'. split; [exact HR|].
  split; [exact Ht|]. split; [exact EA|]. split; [exact Ht'|]. apply (Hkeep Decode).
  - unfold done. rewrite Ht. reflexivity.
  - intros [] Hs; simpl in Hs; repeat (apply elem_of_cons in Hs as [Hs | Hs]; [discriminate Hs|]);
      by apply elem_of_nil in Hs.
Defined.

(** With the input fixing a long packet, the short branch is dead. *)
Definition long_input : spec_arg := SpecDict
  [("input"%string, JObj [("context"%string, JObj [("pkt_len"%string, JInt 60)])])].

Lemma dead_blocks_exact_witness : ∃ l p', dead_blocks (λ _, run_elf) (λ _, Ok JNull) 9 1000 9
    (Some long_input) None None run_program = Ok (l, p') ∧ l = [2] ∧
  ∃ e c, ∀ m, ¬ leads e c m 2.
Proof.
  destruct (run_test (dead_blocks (λ _, run_elf) (λ _, Ok JNull) 9 1000 9 (Some long_input) None None run_program)
      (λ lp, bool_decide (lp.1 = [2]) && narrow_writes (p_blocks lp.2)))
    as ([l p'] & E & [Hl Hn]%andb_true_iff); [vm_compute; reflexivity|].
  apply bool_decide_eq_true in Hl. simpl in Hl, Hn. subst l.
  destruct (@dead_blocks_exact two two_laws two_same two_same_laws two_solver two_ast two_scapy
    (λ _, run_elf) (λ _, Ok JNull) 9 1000 9 two_solver_laws "prog.o" "main" [] run_program
    (Some long_input) [2] p' (rtc_refl _ _) eq_refl two_decides E Hn) as (st & e & c & HC & Hdead & _).
  exists [2], p'. split; [exact E|]. split; [reflexivity|]. exists e, c. apply Hdead. left.
Defined.
