(* ===== verification/Cost.v ===== *)
(** The size of a query ([verify/cost.py], [query_cost] of [program.py]): the number of
    distinct terms below the reach condition of an exit and the value it returns.

    A term's declaration is the solver library's: an [SmtApp] says which nodes of the
    term graph are applications, and of what. *)

From Stdlib Require Import String.
From stdpp Require Import relations.
From S2P Require Import Prelude Constants Link Smt SmtTerm Expr Record Encode Action Block Prune Worklist.
From S2P Require Import Slice Pystr Spec Forward Witness Checker CheckerExamples Loader Program.

(** [is_app(e)], [e.decl().name()]; the arguments of an application are its children. *)
Class SmtApp `{SMT} `{!SmtAst} := { is_app : node → bool; decl_name : node → string }.

Section cost.
Context `{SMT} `{!SmtAst} `{!SmtApp}.
(** The turns allowed to the walk over a term's graph. *)
Context (ast_fuel : nat).

Definition counts_t : Type := list (string * Z).

(** [counts[name] = counts.get(name, 0) + 1]. *)
Definition count_name (counts : counts_t) (x : node) : counts_t :=
  pset counts (decl_name x) (default 0 (pget counts (decl_name x)) + 1).

Definition no_app (x : node) : bool := negb (is_app x).

(** An expression is a term, or nothing: [None], [True] or [False]. *)
Definition _walk (s : counts_t * gset Z) (expr : option node) : res (counts_t * gset Z) :=
  match expr with
  | None => Ok s
  | Some x => walk no_app get_id children count_name ast_fuel s.1 s.2 [x]
  end.

Definition ast_stats (exprs : list (option node)) : res counts_t :=
  s ← foldR _walk ([], ∅) exprs;
  Ok (pset s.1 "total"%string (Z.of_nat (base.size s.2))).

Definition guard_node (g : guard) : option node := match g with GPy _ => None | GTm t => Some (node_bl t) end.

(** The terms of one exit. *)
Definition exit_cost (e : fenv) (c : fctx) (b : Z) : res (option Z) :=
  if negb (pmem (c_info c) b) then Ok None
  else match reach c b with
       | GPy false => Ok None
       | g => st ← ret_state e c b;
              match st with
              | None => Ok None
              | Some st => stats ← ast_stats [guard_node g; Some (node_bv (z_r0 st))];
                           Some <$> of_option KeyError (pget stats "total"%string)
              end
       end.

Definition best_cost (e : fenv) (c : fctx) (best b : Z) : res Z :=
  total ← exit_cost e c b;
  Ok match total with Some n => if best <? n then n else best | None => best end.

(** [{'nodes': best, 'stores': ctx.n_stores}]. *)
Definition query_cost (e : fenv) (c : fctx) (blocks : list Block) : res (Z * Z) :=
  best ← foldR (best_cost e c) 0 (exit_blocks blocks);
  Ok (best, c_stores c).

(** [eBPFProgram.query_cost]. *)
Section method.
Context `{!SameTerm} `{!Scapy}.
Context (open : string → Elf) (read_spec : string → res json) (depth : nat) (oid0 : Z).
Definition program_query_cost (spec : option spec_arg) (ctx : option (fenv * fctx)) (init_st : option Z3State)
    : ST eBPFProgram (Z * Z) :=
  '(e, c) ← _whole_context open read_spec depth oid0 spec init_st ctx;
  p ← get;
  lift (query_cost e c (p_blocks p)).
End method.

(** ** What is counted *)

Notation below roots := (leads_from no_app children roots).

(** The terms with a given declaration. *)
Definition named (name : string) (l : list node) : list node := filter (λ x, decl_name x = name) l.

Lemma counts_of vs counts name : pget (fold_left count_name vs counts) name =
  match named name vs, pget counts name with
  | [], o => o
  | l, o => Some (default 0 o + Z.of_nat (length l))
  end.
Proof.
  revert counts. induction vs as [|x vs IH]; intros counts; [done|]. cbn [fold_left]. rewrite IH.
  unfold named, count_name. rewrite filter_cons, pget_pset. fold (named name vs).
  case_decide as E1; case_decide as E2; [|congruence..|done]. rewrite E2.
  destruct (named name vs), (pget counts _); simpl; f_equal; lia.
Qed.

(** The terms the walks went through. *)
Definition walked (roots : list node) (s : counts_t * gset Z) : Prop :=
  explored no_app get_id children roots [] s.2 ∧ ∃ vs, s.1 = fold_left count_name vs [] ∧
    NoDup (map get_id vs) ∧ s.2 = list_to_set (map get_id vs) ∧ ∀ v, v ∈ vs → below roots v ∧ is_app v = true.

Section walks.
Context (roots all : list node).
Hypothesis Hone : one_object no_app get_id children roots.
Hypothesis Hall : ∀ n, below roots n → is_app n = true → n ∈ all.
Hypothesis Hfuel : (S (list_sum (map (λ n, length (children n)) all)) <= ast_fuel)%nat.

Lemma parts_left_le seen : (parts_left get_id children all seen <= list_sum (map (λ n, length (children n)) all))%nat.
Proof. clear Hall Hfuel. unfold parts_left. induction all as [|n l IH]; [done|]. simpl. case_bool_decide; lia. Qed.

Lemma walk_one pre s x more : roots = pre ++ x :: more → walked pre s →
  ∃ s', _walk s (Some x) = Ok s' ∧ walked (pre ++ [x]) s'.
Proof.
  intros Hr (Hex & vs & E1 & Hnd & E2 & Hvs). destruct s as [counts seen]. cbn [fst snd] in *. simpl.
  assert (∀ n, below (pre ++ [x]) n → below roots n) as Hsub.
  { intros n Hn. rewrite Hr. change (pre ++ x :: more) with (pre ++ [x] ++ more). rewrite app_assoc. by apply leads_more. }
  assert (one_object no_app get_id children (pre ++ [x])) as Ho by (intros a b Ha Hb; apply Hone; auto).
  pose proof (explored_more _ _ _ _ _ _ Ho Hex) as Hst. cbn [rev app] in Hst.
  destruct (walk_listed no_app get_id children count_name all ast_fuel _ counts seen [x] Ho Hst) as [[counts' seen'] HE].
  { intros n Hn Ha. apply Hall; [by apply Hsub|]. by apply negb_false_iff. }
  { pose proof (parts_left_le seen). simpl. lia. }
  exists (counts', seen'). split; [done|].
  destruct (walk_run no_app get_id children count_name _ _ _ _ _ _ _ Ho HE Hst) as (Hend & ws & -> & Hnw & -> & Hws).
  split; [done|]. exists (vs ++ ws). cbn [fst snd]. split; [by rewrite fold_left_app, E1|]. split.
  { rewrite map_app. apply NoDup_app. split; [done|]. split; [|done].
    intros k Hk (w & -> & Hw)%list_elem_of_fmap. destruct (Hws w Hw) as (_ & _ & Hn). apply Hn.
    rewrite E2. by apply elem_of_list_to_set. }
  split; [rewrite map_app, list_to_set_app_L, E2; apply union_comm_L|].
  intros v [Hv | Hv]%elem_of_app.
  - destruct (Hvs v Hv). split; [by apply leads_more|done].
  - destruct (Hws v Hv) as (? & Ha & _). split; [done|]. by apply negb_false_iff.
Qed.

Lemma walk_all exprs pre s : roots = pre ++ omap id exprs → walked pre s →
  ∃ s', foldR _walk s exprs = Ok s' ∧ walked roots s'.
Proof.
  revert pre s. induction exprs as [|[x|] exprs IH]; intros pre s Hr Hs; simpl in *.
  - exists s. split; [done|]. by rewrite Hr, app_nil_r.
  - destruct (walk_one pre s x _ Hr Hs) as (s1 & HE & Hs1). simpl in HE. rewrite HE. simpl.
    apply (IH (pre ++ [x])); [|done]. by rewrite <- app_assoc.
  - by apply (IH pre).
Qed.
End walks.

(** The statistics of a list of terms count every application below them once, however often it is shared:
    with turns for the listed terms the walk ends, the total is the number of distinct terms, and each declaration
    is counted as often as distinct terms apply it. (The count of a function called total would be overwritten.) *)
Theorem ast_stats_exact exprs all : let roots := omap id exprs in one_object no_app get_id children roots →
  (∀ n, below roots n → is_app n = true → n ∈ all) →
  (S (list_sum (map (λ n, length (children n)) all)) <= ast_fuel)%nat →
  ∃ counts terms, ast_stats exprs = Ok counts ∧ NoDup (map get_id terms) ∧
    (∀ n, n ∈ terms → below roots n ∧ is_app n = true) ∧
    (∀ n, below roots n → is_app n = true → get_id n ∈ map get_id terms) ∧
    pget counts "total"%string = Some (Z.of_nat (length terms)) ∧
    ∀ name, name ≠ "total"%string → pget counts name =
      match named name terms with [] => None | l => Some (Z.of_nat (length l)) end.
Proof.
  intros roots Hone Hall Hfuel.
  destruct (walk_all roots all Hone Hall Hfuel exprs [] ([], ∅)) as ([counts seen] & HE & Hex & vs & E1 & Hnd & E2 & Hvs).
  { done. }
  { split; [apply explored_none|]. exists []. split_and!; [done|constructor|done|by intros ? ?%elem_of_nil]. }
  cbn [fst snd] in *. unfold ast_stats. rewrite HE. cbn [mbind res_bind fst snd].
  eexists _, vs. split; [reflexivity|]. split; [done|]. split; [done|]. split; [|split].
  - intros n Hn Ha. apply (elem_of_list_to_set (C := gset Z)). rewrite <- E2.
    apply (explored_all _ _ _ _ _ _ Hex Hn). by unfold no_app; rewrite Ha.
  - rewrite pget_pset, decide_True by done. f_equal. f_equal. rewrite E2, size_list_to_set by done. apply length_map.
  - intros name Hname. rewrite pget_pset, decide_False by done. rewrite E1, counts_of. simpl.
    destruct (named name vs); [done|]. f_equal. 
Qed.

(** The cost of a query is that of its most expensive exit. *)
Lemma query_cost_max e c blocks best stores : query_cost e c blocks = Ok (best, stores) →
  stores = c_stores c ∧ (∀ b n, b ∈ exit_blocks blocks → exit_cost e c b = Ok (Some n) → n <= best) ∧
  (best = 0 ∨ ∃ b, b ∈ exit_blocks blocks ∧ exit_cost e c b = Ok (Some best)).
Proof.
  unfold query_cost. intros HE. apply bind_Ok in HE as (m & HE & [= <- <-]). split; [done|].
  assert (∀ l pre m0, foldR (best_cost e c) m0 l = Ok m → m0 <= m ∧
    (∀ b n, b ∈ l → exit_cost e c b = Ok (Some n) → n <= m) ∧
    (m = m0 ∨ ∃ b, b ∈ pre ++ l ∧ exit_cost e c b = Ok (Some m))) as Hfold.
  { clear HE. induction l as [|b l IH]; intros pre m0 HE; simpl in HE.
    - injection HE as ->. split; [done|]. split; [by intros ? ? ?%elem_of_nil|by left].
    - apply bind_Ok in HE as (m1 & HB & HE). destruct (IH (pre ++ [b]) _ HE) as (Hle & Hall & Hm).
      rewrite <- app_assoc in Hm. unfold best_cost in HB. apply bind_Ok in HB as (t & Ht & [= <-]).
      destruct t as [n|]; [destruct (Z.ltb_spec m0 n)|]; (split; [lia|split]).
      all: try (intros b' n' [-> | Hb]%elem_of_cons Hc; [rewrite Hc in Ht; simplify_eq; lia|by eapply Hall]).
      + right. destruct Hm as [-> | Hm]; [|done]. exists b. split; [apply elem_of_app; right; left|done].
      + by destruct Hm as [-> | Hm]; [left|right].
      + by destruct Hm as [-> | Hm]; [left|right]. }
  destruct (Hfold _ [] _ HE) as (_ & Hall & Hm). by split.
Qed.
End cost.

(** ** An example: a term that shares a part *)

#[local] Existing Instance two.

(** [1 = and(2, 3, 2)], [2 = bvult(3, 4)], [3] and [4] variables, [4] no application. *)
#[local] Instance shared_ast : SmtAst := {|
  node := Z; node_bl := λ _, 1; node_bv := λ _, 3; get_id := λ x, x;
  children := λ x, if x =? 1 then [2; 3; 2] else if x =? 2 then [3; 4] else []
|}.
#[local] Instance shared_app : SmtApp := {|
  is_app := λ x, x <? 4;
  decl_name := λ x, if x =? 1 then "and"%string else if x =? 2 then "bvult"%string else "x"%string
|}.

Example shared_stats : ast_stats 7 [Some 1; None; Some 3] =
  Ok [("and"%string, 1); ("bvult"%string, 1); ("x"%string, 1); ("total"%string, 3)].
Proof. vm_compute. reflexivity. Qed.

Lemma ast_stats_exact_witness : ∃ counts terms, ast_stats 7 [Some 1; None; Some 3] = Ok counts ∧
  NoDup (map get_id terms) ∧ pget counts "total"%string = Some (Z.of_nat (length terms)) ∧
  pget counts "x"%string = Some 1.
Proof.
  destruct (@ast_stats_exact two shared_ast shared_app 7 [Some 1; None; Some 3] [1; 2; 3]) as (counts & terms & HE & Hnd & _ & _ & Ht & _).
  - intros a b _ _ _ _ E. exact (f_equal children E).
  - intros n Hn Ha. change (n <? 4 = true) in Ha.
    assert (n ∈ [1; 2; 3; 4]) as Hin.
    { revert Hn. apply (leads_closed no_app children (λ n, n ∈ [1; 2; 3; 4])).
      - intros r Hr. change (r ∈ [1; 3]) in Hr. set_solver.
      - intros a b Ha' _ Hb. simpl in Hb. destruct (a =? 1), (a =? 2); set_solver. }
    assert (n ≠ 4) by lia. set_solver.
  - apply Nat.leb_le. reflexivity.
  - exists counts, terms. split; [exact HE|]. split; [exact Hnd|]. split; [exact Ht|].
    rewrite shared_stats in HE. injection HE as <-. reflexivity.
Defined.
