(* ===== verification/Tail.v ===== *)
(** Tail-call targets on the command line: [TailSpec.as_flag] and [parse_tail_spec]
    of [bpf/link.py], on ASCII text. The messages of the errors are left out. *)

From Stdlib Require Import Ascii.
From S2P Require Import Prelude Link Pystr.

Local Open Scope Z_scope.
Implicit Types (l : list ascii) (c sep : ascii).

(** ** Python text *)

(** [s.partition(sep)]: the parts before and after the first [sep]. *)
Fixpoint partition_l sep l : list ascii * option (list ascii) :=
  match l with
  | [] => ([], None)
  | c :: l' => if Ascii.eqb c sep then ([], Some l')
               else let '(a, b) := partition_l sep l' in (c :: a, b)
  end.

(** [s.rpartition(sep)]: the parts before and after the last [sep]; without one
    everything is in the second. *)
Definition rpartition_l sep l : option (list ascii) * list ascii :=
  let '(b, a) := partition_l sep (rev l) in (@rev ascii <$> a, rev b).

(** The base a prefix [0x], [0o] or [0b] stands for. *)
Definition prefix_base c : option Z :=
  if Ascii.eqb c "x" || Ascii.eqb c "X" then Some 16
  else if Ascii.eqb c "o" || Ascii.eqb c "O" then Some 8
  else if Ascii.eqb c "b" || Ascii.eqb c "B" then Some 2
  else None.

(** After a prefix one underscore is allowed. *)
Definition parse_prefixed (base : Z) l : res Z :=
  match l with
  | c :: l' => if Ascii.eqb c "_" then parse_digits base 0 false l' else parse_digits base 0 false l
  | [] => Err bad_int
  end.

(** A number that starts with 0 and has no prefix is zero. *)
Definition parse_unsigned0 l : res Z :=
  match l with
  | z :: c :: l' =>
      if Ascii.eqb z "0" then
        match prefix_base c with
        | Some base => parse_prefixed base l'
        | None => n ← parse_digits 10 0 false l; guard_or (n =? 0) bad_int;; Ok n
        end
      else parse_digits 10 0 false l
  | _ => parse_digits 10 0 false l
  end.

(** [int(s, 0)]. *)
Definition py_int0 l : res Z :=
  match strip_l l with
  | "-"%char :: l' => Z.opp <$> parse_unsigned0 l'
  | "+"%char :: l' => parse_unsigned0 l'
  | l' => parse_unsigned0 l'
  end.

(** ** [TailSpec] *)

Definition has_map_name (t : TailSpec) : bool :=
  match t_map_name t with Some n => negb (bool_decide (n = ""%string)) | None => false end.

(** [str(t)]: the name of the object file, the entry and where it is loaded. *)
Definition TailSpec_str (t : TailSpec) : string :=
  let at_ := match t_slot t with
             | None => "symbolic slot"
             | Some n => if has_map_name t then default "" (t_map_name t) +:+ "[" +:+ pretty n +:+ "]"
                         else "slot " +:+ pretty n
             end in
  (of_chars (rpartition_l "/" (chars (t_path t))).2 +:+ ":" +:+ t_entry t +:+ "@" +:+ at_)%string.

Example tail_texts : map TailSpec_str [mk_tail "a/b/callee.o" "main" (Some "jmp"%string) (Some 3); mk_tail "c.o" "f" None (Some 1);
  mk_tail "c.o" "f" None None] = ["callee.o:main@jmp[3]"; "c.o:f@slot 1"; "c.o:f@symbolic slot"]%string.
Proof. reflexivity. Qed.

(** The text after [--tail ] of [as_flag()]. *)
Definition as_flag (t : TailSpec) : string :=
  let at_ :=
    if has_map_name t || bool_decide (is_Some (t_slot t)) then
      "@" +:+ (if has_map_name t then default "" (t_map_name t) +:+ "/" else "")
          +:+ match t_slot t with Some n => pretty n | None => "" end
    else "" in
  (t_path t +:+ ":" +:+ t_entry t +:+ at_)%string.

Definition parse_slot l : res (option Z) :=
  match strip_l l with
  | [] => Ok None
  | s =>
      n ← (match py_int0 s with Ok n => Ok n | Err _ => Err (LinkError "--tail slot must be a number") end);
      guard_or (0 <=? n) (LinkError "--tail slot must not be negative");;
      Ok (Some n)
  end.

(** [map_name or None]. *)
Definition or_none l : option string := match l with [] => None | _ => Some (of_chars l) end.

Definition parse_tail_spec (text : string) : res TailSpec :=
  let '(body, at_) := partition_l "@" (chars text) in
  let '(path, entry) := rpartition_l ":" body in
  match path, entry with
  | Some (p :: path), e :: entry =>
      '(map_name, slot) ← (match at_ with
                           | None | Some [] => Ok (None, None)
                           | Some l =>
                               let '(name, slot_text) := rpartition_l "/" l in
                               slot ← parse_slot slot_text;
                               Ok (or_none (default [] name), slot)
                           end);
      Ok (mk_tail (of_chars (p :: path)) (of_chars (e :: entry)) map_name slot)
  | _, _ => Err (LinkError "--tail wants OBJ:ENTRY[@[MAP/]SLOT]")
  end.

(** ** Text *)

Lemma of_chars_chars s : of_chars (chars s) = s.
Proof. induction s as [|c s IH]; simpl; by rewrite ?IH. Qed.

Lemma partition_none sep l : sep ∉ l → partition_l sep l = (l, None).
Proof.
  induction l as [|c l IH]; [done|]. intros [Hc Hl]%not_elem_of_cons. simpl.
  destruct (Ascii.eqb_spec c sep); [by subst|]. by rewrite IH.
Qed.

Lemma partition_some sep l l' : sep ∉ l → partition_l sep (l ++ sep :: l') = (l, Some l').
Proof.
  induction l as [|c l IH]; intros Hn; simpl; [by rewrite Ascii.eqb_refl|].
  apply not_elem_of_cons in Hn as [Hc Hl]. destruct (Ascii.eqb_spec c sep); [by subst|]. by rewrite IH.
Qed.

Lemma rpartition_some sep l l' : sep ∉ l' → rpartition_l sep (l ++ sep :: l') = (Some l, l').
Proof.
  intros Hn. unfold rpartition_l. rewrite rev_app_distr. simpl. rewrite <- app_assoc. simpl.
  rewrite partition_some; [simpl; by rewrite !rev_involutive|].
  by rewrite list_elem_of_In, <- in_rev, <- list_elem_of_In.
Qed.

Lemma rpartition_none sep l : sep ∉ l → rpartition_l sep l = (None, l).
Proof.
  intros Hn. unfold rpartition_l. rewrite partition_none; [simpl; by rewrite rev_involutive|].
  by rewrite list_elem_of_In, <- in_rev, <- list_elem_of_In.
Qed.

(** ** Decimal text *)

Definition dec_digit (d : Z) : ascii := pretty_N_char (Z.to_N d).

Lemma dec_digit_value d : 0 <= d < 10 →
  digit_value (dec_digit d) = d ∧ is_digit (dec_digit d) = true ∧ (dec_digit d = "0"%char → d = 0).
Proof.
  intros Hd. assert (d = 0 ∨ d = 1 ∨ d = 2 ∨ d = 3 ∨ d = 4 ∨ d = 5 ∨ d = 6 ∨ d = 7 ∨ d = 8 ∨ d = 9) as Hc by lia.
  by repeat destruct Hc as [-> | Hc]; [..|subst d].
Qed.

(** The digits of a positive number, the first not zero, stand for it. *)
Lemma pretty_go_digits (x : N) : (0 < x)%N → ∃ d ds,
  (∀ s, chars (pretty_N_go x s) = d :: ds ++ chars s) ∧ forallb is_digit (d :: ds) = true ∧ d ≠ "0"%char ∧
  ∀ acc af rest, parse_digits 10 acc af (d :: ds ++ rest) =
    parse_digits 10 (acc * 10 ^ Z.of_nat (length (d :: ds)) + Z.of_N x) true rest.
Proof.
  induction (N.lt_wf_0 x) as [x _ IH]. intros Hx.
  set (q := (x / 10)%N). set (r := Z.of_N (x mod 10)).
  assert (Z.of_N x = 10 * Z.of_N q + r ∧ 0 <= r < 10) as [Hxq Hr].
  { assert (x = 10 * q + x mod 10)%N as Hdm by (unfold q; by apply N.div_mod).
    assert (x mod 10 < 10)%N as Hlt by by apply N.mod_lt.
    unfold r. clearbody q. generalize dependent (x mod 10)%N. intros y. lia. }
  destruct (dec_digit_value r Hr) as (Hv & Hdig & Hz).
  assert (pretty_N_char (x mod 10) = dec_digit r) as Hch by (unfold dec_digit, r; by rewrite N2Z.id).
  assert (Ascii.eqb (dec_digit r) "_" = false) as Hus by (destruct (Ascii.eqb_spec (dec_digit r) "_") as [E|]; [by rewrite E in Hdig|done]).
  assert (∀ acc af rest, parse_digits 10 acc af (dec_digit r :: rest) = parse_digits 10 (acc * 10 + r) true rest) as Hstep.
  { intros acc af rest. simpl. rewrite Hus, Hv. destruct (Z.ltb_spec r 10); [done|lia]. }
  destruct (decide (q = 0%N)) as [Eq | Hq].
  - exists (dec_digit r), []. split_and!.
    + intros s. rewrite pretty_N_go_step by done. fold q. rewrite Eq, pretty_N_go_0, Hch. done.
    + simpl. by rewrite Hdig.
    + intros E. apply Hz in E. lia.
    + intros acc af rest. rewrite Hstep. f_equal. simpl length. change (10 ^ Z.of_nat 1) with 10. lia.
  - destruct (IH q) as (d & ds & Hs & Hall & Hd & Hp); [unfold q; by apply N.div_lt|lia|].
    exists d, (ds ++ [dec_digit r]). split_and!; [..|done|].
    + intros s. rewrite pretty_N_go_step by done. fold q. rewrite Hs, Hch. simpl. by rewrite <- app_assoc.
    + simpl in *. rewrite forallb_app. apply andb_true_iff in Hall as [-> ->]. simpl. by rewrite Hdig.
    + intros acc af rest. rewrite <- app_assoc, Hp. simpl app. rewrite Hstep. f_equal.
      simpl length. rewrite length_app. simpl length.
      replace (Z.of_nat (S (length ds + 1))) with (Z.of_nat (S (length ds)) + 1) by lia.
      rewrite Z.pow_add_r by lia. change (10 ^ 1) with 10. lia.
Qed.

Lemma decimal n : 0 <= n → ∃ d ds, chars (pretty n) = d :: ds ∧ forallb is_digit (d :: ds) = true ∧
  (d = "0"%char → ds = []) ∧ parse_digits 10 0 false (d :: ds) = Ok n.
Proof.
  intros Hn. destruct n as [|x|x]; [exists "0"%char, []; done| |lia].
  destruct (pretty_go_digits (N.pos x)) as (d & ds & Hs & Hall & Hd & Hp); [lia|].
  exists d, ds. split_and!; [|done|done|].
  - change (pretty (Z.pos x)) with (pretty_N_go (N.pos x) ""). rewrite Hs. simpl. by rewrite app_nil_r.
  - by rewrite <- (app_nil_r ds), Hp.
Qed.

Lemma digits_no c l : forallb is_digit l = true → is_digit c = false → c ∉ l.
Proof. intros Hl Hc Hin. rewrite forallb_forall in Hl. apply list_elem_of_In, Hl in Hin. congruence. Qed.

Lemma digit_no_space c : is_digit c = true → is_space c = false.
Proof. unfold is_digit, is_space. cbv zeta. intros H. bool_prop. lia. Qed.

Lemma strip_digits l : forallb is_digit l = true → strip_l l = l.
Proof.
  intros Hl. unfold strip_l.
  assert (∀ k, forallb is_digit k = true → lstrip_l is_space k = k) as Hk.
  { intros [|c k] Hk; [done|]. simpl in *. apply andb_true_iff in Hk as [Hc _]. by rewrite digit_no_space. }
  rewrite (Hk l) by done. rewrite (Hk (rev l)), rev_involutive; [done|].
  apply forallb_forall. intros c Hc. rewrite forallb_forall in Hl. by apply Hl, in_rev.
Qed.

Lemma parse_slot_pretty n : 0 <= n → parse_slot (chars (pretty n)) = Ok (Some n).
Proof.
  intros Hn. destruct (decimal n Hn) as (d & ds & -> & Hall & Hz & Hp). unfold parse_slot.
  rewrite strip_digits by done.
  assert (py_int0 (d :: ds) = Ok n) as ->; [|simpl; destruct (Z.leb_spec 0 n); [done|lia]].
  unfold py_int0. rewrite strip_digits by done.
  assert (parse_unsigned0 (d :: ds) = Ok n) as Hu.
  { destruct ds as [|c ds]; [exact Hp|]. unfold parse_unsigned0.
    destruct (Ascii.eqb_spec d "0") as [E | _]; [by apply Hz in E|exact Hp]. }
  simpl in Hall. apply andb_true_iff in Hall as [Hd _].
  destruct d as [[] [] [] [] [] [] [] []]; try discriminate Hd; exact Hu.
Qed.

(** ** The round trip *)

(** A target whose texts have no separator of an outer level. *)
Definition plain_tail (t : TailSpec) : Prop :=
  t_path t ≠ ""%string ∧ t_entry t ≠ ""%string ∧ "@"%char ∉ chars (t_path t) ∧
  "@"%char ∉ chars (t_entry t) ∧ ":"%char ∉ chars (t_entry t) ∧ t_map_name t ≠ Some ""%string ∧
  match t_slot t with Some n => 0 <= n | None => True end.

(** The part before [@]. *)
Lemma parse_body (path entry : string) rest : path ≠ ""%string → entry ≠ ""%string →
  "@"%char ∉ chars path → "@"%char ∉ chars entry → ":"%char ∉ chars entry →
  ∃ p ps e es, partition_l "@" (chars path ++ ":"%char :: chars entry ++ rest) =
      match rest with
      | "@"%char :: l => (chars path ++ ":"%char :: chars entry, Some l)
      | _ => partition_l "@" (chars path ++ ":"%char :: chars entry ++ rest)
      end ∧
    rpartition_l ":" (chars path ++ ":"%char :: chars entry) = (Some (p :: ps), e :: es) ∧
    partition_l "@" (chars path ++ ":"%char :: chars entry) = (chars path ++ ":"%char :: chars entry, None) ∧
    of_chars (p :: ps) = path ∧ of_chars (e :: es) = entry.
Proof.
  intros Hp He Hpa Hea Hec.
  destruct path as [|p path]; [done|]. destruct entry as [|e entry]; [done|].
  exists p, (chars path), e, (chars entry).
  assert ("@"%char ∉ chars (String p path) ++ ":"%char :: chars (String e entry)) as Hno.
  { rewrite elem_of_app, elem_of_cons. intros [? | [? | ?]]; done. }
  split_and!.
  - destruct rest as [|c rest]; [done|]. destruct (decide (c = "@"%char)) as [-> | Hc].
    + rewrite app_comm_cons, app_assoc. by apply partition_some.
    + destruct c as [[] [] [] [] [] [] [] []]; done.
  - by apply rpartition_some.
  - by apply partition_none.
  - simpl. by rewrite of_chars_chars.
  - simpl. by rewrite of_chars_chars.
Qed.

(** The part after it. *)
Definition parse_at (l : list ascii) : res (option string * option Z) :=
  let '(name, slot_text) := rpartition_l "/" l in
  slot ← parse_slot slot_text;
  Ok (or_none (default [] name), slot).

Lemma parse_at_spec (m : option string) (slot : option Z) : m ≠ Some ""%string →
  match slot with Some n => 0 <= n | None => True end →
  parse_at ((match m with Some n => chars n ++ ["/"%char] | None => [] end) ++
            match slot with Some n => chars (pretty n) | None => [] end) = Ok (m, slot).
Proof.
  intros Hm Hs. unfold parse_at.
  set (l := match slot with Some n => chars (pretty n) | None => [] end).
  assert ("/"%char ∉ l ∧ parse_slot l = Ok slot) as [Hl Hp].
  { unfold l. destruct slot as [n|]; [|split; [apply not_elem_of_nil|done]]. split; [|by apply parse_slot_pretty].
    destruct (decimal n Hs) as (d & ds & -> & Hall & _). by eapply digits_no. }
  destruct m as [n|].
  - rewrite <- app_assoc. simpl app. rewrite rpartition_some by done. cbn [mbind res_bind]. rewrite Hp. simpl.
    unfold or_none. destruct n as [|c n]; [done|]. simpl. by rewrite of_chars_chars.
  - simpl app. rewrite rpartition_none by done. by rewrite Hp.
Qed.

(** The flag a target is printed as is read back as that target: [parse_tail_spec]
    inverts [as_flag] on the text after [--tail], for paths with colons, map names
    with any character (slashes and further [@] included) and every slot. *)
Theorem tail_roundtrip t : plain_tail t → parse_tail_spec (as_flag t) = Ok t.
Proof.
  intros (Hp & He & Hpa & Hea & Hec & Hm & Hs). destruct t as [path entry map_name slot]. simpl in *.
  unfold parse_tail_spec, as_flag, has_map_name. cbn [t_path t_entry t_map_name t_slot]. rewrite !chars_app.
  set (rest := chars (if _ || _ then _ else _)). change (chars ":" ++ ?x) with (":"%char :: x).
  destruct (parse_body path entry rest Hp He Hpa Hea Hec) as (p & ps & e & es & Hpart & Hr & Hn & Hop & Hoe).
  pose proof (parse_at_spec map_name slot Hm Hs) as Hat.
  destruct (decide (map_name = None ∧ slot = None)) as [[-> ->] | Hsome].
  { assert (rest = []) as -> by done. rewrite app_nil_r, Hn, Hr. by rewrite Hop, Hoe. }
  assert (∃ l, rest = "@"%char :: l ∧ l ≠ [] ∧ parse_at l = Ok (map_name, slot)) as (l & Hrest & Hl & HP).
  { unfold rest. destruct map_name as [n|]; [rewrite (bool_decide_false (n = ""%string)) by (by intros ->)|].
    - eexists. split; [|split; [|exact Hat]]; [|by destruct (chars n)].
      cbn [negb orb default]. rewrite !chars_app. simpl. rewrite <- !app_assoc. by destruct slot.
    - destruct slot as [k|]; [|naive_solver]. eexists. split; [|split; [|exact Hat]]; [done|].
      destruct (decimal k Hs) as (d & ds & Hd & _). simpl. by rewrite Hd. }
  rewrite Hrest in Hpart |- *. rewrite Hpart, Hr. destruct l as [|c l]; [done|].
  fold (parse_at (c :: l)).
  rewrite HP. cbn [mbind res_bind]. by rewrite Hop, Hoe.
Qed.

Lemma tail_roundtrip_witness :
  let t := mk_tail "objs/a:b.o" "prog" (Some "jmp/table"%string) (Some 10) in
  as_flag t = "objs/a:b.o:prog@jmp/table/10"%string ∧ parse_tail_spec (as_flag t) = Ok t.
Proof.
  split; [reflexivity|]. apply tail_roundtrip. unfold plain_tail. simpl.
  repeat split; try discriminate; try lia; apply (bool_decide_unpack _); reflexivity.
Defined.

(** Prefixes, signs and bad slots. *)
Example tail_hex : parse_tail_spec "a.o:main@ 0x1F " = Ok (mk_tail "a.o" "main" None (Some 31)).
Proof. reflexivity. Qed.
Example tail_negative : parse_tail_spec "a.o:main@m/-1" = Err (LinkError "--tail slot must not be negative").
Proof. reflexivity. Qed.
Example tail_zero : parse_tail_spec "a.o:main@010" = Err (LinkError "--tail slot must be a number").
Proof. reflexivity. Qed.
