(* ===== verification/Text.v ===== *)
(** The text of values and conditions ([track/expr.py], [track/encode.py]): an
    expression tree is printed with a name for each ALU node used more than once. *)

From Stdlib Require Import Ascii.
From S2P Require Import Prelude Constants Expr Record Encode Action Prune Pystr.

Local Open Scope string_scope.
Local Open Scope Z_scope.

(** ** Formats *)

Definition slen (s : string) : Z := Z.of_nat (String.length s).
Definition spaces (n : Z) : string := of_chars (replicate (Z.to_nat n) " "%char).

(** [f'{s:<n}'], [f'{s:>n}'] and [s[:n]]. *)
Definition pad (n : Z) (s : string) : string := s +:+ spaces (n - slen s).
Definition pad_right (n : Z) (s : string) : string := spaces (n - slen s) +:+ s.
Definition cut (n : nat) (s : string) : string := String.substring 0 n s.

Definition nl : string := String (Ascii.ascii_of_nat 10) "".
Definition lines_text (l : list string) : string := String.concat nl l.

(** ** Numbers *)

Definition opt_text (x : option Z) : string := match x with Some n => pretty n | None => "None" end.
Definition name_text (o : option string) : string := default "None" o.

(** [hex(n)], [f'{n:#x}']. *)
Definition hex_char (d : Z) : Ascii.ascii := Ascii.ascii_of_N (Z.to_N (if d <? 10 then 48 + d else 87 + d)).
Fixpoint hex_go (fuel : nat) (n : Z) (s : string) : string :=
  match fuel with
  | O => s
  | S fuel' => let s' := String (hex_char (n mod 16)) s in
               if n <? 16 then s' else hex_go fuel' (n / 16) s'
  end.
Definition hex (n : Z) : string :=
  let m := Z.abs n in
  (if n <? 0 then "-0x" else "0x") +:+ hex_go (S (Z.to_nat (Z.log2 m))) m "".

(** ** Lines and quotes *)

(** [s.splitlines()] on ASCII text; a carriage return takes a line feed with it. *)
Definition is_break (c : ascii) : bool :=
  let n := code_of c in ((10 <=? n) && (n <=? 13)) || ((28 <=? n) && (n <=? 30)).
Fixpoint splitlines_l (l : list ascii) (line : list ascii) : list (list ascii) :=
  match l with
  | [] => match line with [] => [] | _ => [rev line] end
  | c :: l' =>
      if is_break c then
        rev line :: match l' with
                    | d :: l'' => if (code_of c =? 13) && (code_of d =? 10) then splitlines_l l'' []
                                  else splitlines_l l' []
                    | [] => []
                    end
      else splitlines_l l' (c :: line)
  end.
Definition splitlines (s : string) : list string := map of_chars (splitlines_l (chars s) []).

(** [repr] of a text: in double quotes when it holds single quotes only. *)
Definition repr_char (quote c : ascii) : string :=
  let n := code_of c in
  if Ascii.eqb c quote || (n =? 92) then String (ascii_of_nat 92) (String c "")
  else if n =? 10 then "\n" else if n =? 13 then "\r" else if n =? 9 then "\t"
  else if (n <? 32) || (n =? 127) then "\x" +:+ String (hex_char (n / 16)) (String (hex_char (n mod 16)) "")
  else String c "".
Definition repr_text (s : string) : string :=
  let l := chars s in
  let single := ascii_of_nat 39 in
  let double := ascii_of_nat 34 in
  let quote := if existsb (Ascii.eqb single) l && negb (existsb (Ascii.eqb double) l) then double else single in
  String quote (String.concat "" (map (repr_char quote) l) +:+ String quote "").

(** [str] of what is shown of atoms: texts, numbers, lists and dicts. A float, which no
    atom shown holds, has no text here. *)
Fixpoint py_repr (x : json) : string :=
  match x with
  | JNull => "None"
  | JBool b => if b then "True" else "False"
  | JInt n => pretty n
  | JFloat _ => ""
  | JStr s => repr_text s
  | JList l => "[" +:+ String.concat ", " (map py_repr l) +:+ "]"
  | JObj o => "{" +:+ String.concat ", " (map (λ kx, repr_text kx.1 +:+ ": " +:+ py_repr kx.2) o) +:+ "}"
  end.

(** ** Sharing *)

(** [type(v) in _ALU_NODES], [_alu_children]. *)
Definition is_alu (v : val) : bool := match v with VUn _ _ | VBin _ _ => true | _ => false end.
Definition _alu_children (v : val) : list val :=
  match v with VUn _ u => [u_dst u] | VBin _ b => [b_dst b; b_src b] | _ => [] end.

(** One child met: the references counted, the objects seen, the stack. *)
Definition refs : Type := list (Z * Z) * gset Z * list val.
Definition count_child (s : refs) (c : val) : refs :=
  let '(ref, seen, stack) := s in
  if is_alu c then
    let ref := pset ref (oid c) (default 0 (pget ref (oid c)) + 1) in
    if bool_decide (oid c ∈ seen) then (ref, seen, stack) else (ref, {[oid c]} ∪ seen, c :: stack)
  else s.

Fixpoint ref_loop (fuel : nat) (s : refs) : res (list (Z * Z)) :=
  match s with
  | (ref, _, []) => Ok ref
  | (ref, seen, n :: stack) =>
      match fuel with
      | O => Err out_of_fuel
      | S fuel' => ref_loop fuel' (fold_left count_child (_alu_children n) (ref, seen, stack))
      end
  end.

(** The ALU nodes under [root], with repetitions. *)
Fixpoint alu_size (v : val) : nat :=
  match v with
  | VUn _ u => S (alu_size (u_dst u))
  | VBin _ b => S (alu_size (b_dst b) + alu_size (b_src b))
  | _ => O
  end.

Definition shared_of (root : val) : res (gset Z) :=
  if negb (is_alu root) then Ok ∅
  else ref ← ref_loop (alu_size root) ([], {[oid root]}, [root]);
       Ok (list_to_set (map fst (filter (λ x, 1 < x.2) ref))).

(** ** Bodies *)

Definition unary_text (u : alu_unary_ val) (dst : string) : string :=
  if u_op u =? NEG then "-(" +:+ dst +:+ ")"
  else if u_op u =? MOV then
    (if u_size u =? 4 then "(u32) " else "") +:+ "sext" +:+ pretty (u_imm u) +:+ "(" +:+ dst +:+ ")"
  else if u_alu64 u then "bswap" +:+ pretty (u_imm u) +:+ "(" +:+ dst +:+ ")"
  else (if bool_decide (u_opcode_s u = Some S_IMM) then "le" else "be")
       +:+ pretty (u_imm u) +:+ "(" +:+ dst +:+ ")".

Definition size_text (size : Z) : string :=
  if size =? 8 then "" else "(u" +:+ pretty (size * 8) +:+ ") ".

Definition binary_text (op size : Z) (dst src : string) : res string :=
  o ← of_option KeyError (pget op_map op);
  Ok (size_text size +:+ "(" +:+ dst +:+ " " +:+ o +:+ " " +:+ src +:+ ")").

(** The names given so far: the object and its definition, [$t0] first. *)
Definition defs_t : Type := list (Z * string).
Definition label (i : nat) : string := "$t" +:+ pretty i.
Definition label_of (d : defs_t) (o : Z) : option string :=
  match list_find (λ x : Z * string, x.1 = o) d with Some (i, _) => Some (label i) | None => None end.

Definition let_text (d : defs_t) (top : string) : string :=
  match d with
  | [] => top
  | _ => "let " +:+ String.concat "; " (imap (λ i x, label i +:+ " = " +:+ x.2) d) +:+ " in " +:+ top
  end.

(** ** Values *)

Definition func_name (func : Z) : string :=
  default "func" (pget [(5, "ktime_get_ns"); (7, "rand"); (8, "processor_id"); (28, "csum_diff");
    (14, "pid_tgid"); (15, "uid_gid"); (42, "numa_node"); (118, "jiffies"); (125, "ktime_boot");
    (160, "ktime_coarse"); (208, "ktime_tai")] func).

(** [off] or [var_off + off], and the range of a read. *)
Definition at_text (var_off : option string) (off : Z) : string :=
  match var_off with Some v => v +:+ " + " +:+ hex off | None => hex off end.
Definition range_text (var_off : option string) (off size : Z) : string :=
  if size =? 1 then at_text var_off off else at_text var_off off +:+ ":+" +:+ pretty size.

Definition ptr_text (p : ptr_ val) (addr : string) : string :=
  let t := p_type p in
  let q := match p_checked_null p with None => "?" | _ => "" end in
  "(void *) " +:+
  (if t =? PTR_TO_CTX then "ctx + " +:+ addr +:+ q
   else if t =? PTR_TO_PKT then "pkt+" +:+ addr +:+ q
   else if t =? PTR_TO_PKT_END then "pkt_end"
   else if t =? PTR_TO_PKT_META then "pkt_meta"
   else if t =? PTR_TO_STK then "stk-" +:+ pretty (- p_off p)
   else if t =? PTR_TO_MAP then "map" +:+ opt_text (p_map_id p)
   else if t =? PTR_TO_MAP_VALUE then
     "map" +:+ opt_text (p_map_id p) +:+ "[key" +:+ opt_text (p_map_key_id p) +:+ "]+" +:+ addr +:+ q
   else if t =? PTR_TO_BSS then "bss" +:+ name_text (p_bss_idx p) +:+ "+" +:+ addr
   else if t =? PTR_TO_RODATA then "rodata+" +:+ opt_text (p_rodata_offset p) +:+ "+" +:+ addr
   else if t =? PTR_TO_DATA then "data+" +:+ addr
   else "ptr" +:+ hex t +:+ "+" +:+ addr).

(** [emit(n)]: a node used more than once is given a name after its own nodes; what is
    no ALU node is printed by itself, with names of its own.

    [PTR.total_offset] of a pointer with a variable offset makes a new ALU node, whose
    nodes are those of the offset: they share the same ones. *)
Fixpoint emit (shared : gset Z) (n : val) (d : defs_t) : res (string * defs_t) :=
  let str (c : val) : res string :=
    sh ← shared_of c; '(top, d) ← emit sh c []; Ok (let_text d top) in
  let var (c : val) : res (option string) :=
    if is_none c then Ok None else Some <$> str c in
  let named (o : Z) (body : res (string * defs_t)) : res (string * defs_t) :=
    if bool_decide (o ∈ shared) then
      match label_of d o with
      | Some l => Ok (l, d)
      | None => '(rendered, d) ← body; Ok (label (length d), app d [(o, rendered)])
      end
    else body in
  let leaf (s : res string) : res (string * defs_t) := t ← s; Ok (t, d) in
  match n with
  | VUn o u => named o ('(dst, d) ← emit shared (u_dst u) d; Ok (unary_text u dst, d))
  | VBin o b => named o ('(dst, d) ← emit shared (b_dst b) d; '(src, d) ← emit shared (b_src b) d;
                         t ← binary_text (b_op b) (b_size b) dst src; Ok (t, d))
  | VNone => leaf (Ok "None")
  | VScalar _ _ idx => leaf (Ok ("scalar" +:+ pretty idx))
  | VJoin _ j => leaf (Ok ("var" +:+ pretty (j_block_idx j) +:+ "_" +:+ pretty (j_reg_num j)))
  | VIngress _ => leaf (Ok "ingress_ifindex")
  | VRxq _ => leaf (Ok "rx_queue_index")
  | VEgress _ => leaf (Ok "egress_ifindex")
  | VPktLen _ size base =>
      leaf (Ok (size_text size +:+ match base with
                | Some b => if 0 <=? b then "pkt_len#" +:+ pretty b else "pkt_len"
                | None => "pkt_len"
                end +:+ "()"))
  | VFunc _ f => leaf (Ok (size_text (fr_size f) +:+ func_name (fr_func f) +:+ pretty (fr_idx f) +:+ "()"))
  | VPkt _ p => leaf (v ← var (pv_var_off p); Ok ("pkt[" +:+ range_text v (pv_off p) (pv_size p) +:+ "]"))
  | VMap _ m =>
      leaf (v ← var (mv_var_off m);
            Ok ("map" +:+ opt_text (mv_map_id m) +:+ "[key" +:+ opt_text (mv_map_key_id m) +:+ "]["
                +:+ range_text v (mv_off m) (mv_size m) +:+ "]"))
  | VBss _ b =>
      leaf (v ← var (bv_var_off b);
            Ok (name_text (bv_key b) +:+ "[" +:+ range_text v (bv_off b) (bv_size b) +:+ "]"))
  | VRodata _ r => leaf (v ← var (rv_var_off r); Ok ("rodata[" +:+ range_text v (rv_off r) (rv_size r) +:+ "]"))
  | VHit _ h => leaf (Ok ("map" +:+ opt_text (lh_map_id h) +:+ ".contain(key" +:+ opt_text (lh_map_key_id h) +:+ ")"))
  | VNum _ k _ _ => leaf (Ok (hex k))
  | VByteSeq _ cs size off =>
      leaf (l ← mapR str cs;
            Ok ("[" +:+ String.concat ", " l +:+ "]" +:+ (if off =? 0 then "" else "+" +:+ pretty off)
                +:+ ":" +:+ pretty size))
  | VPtr _ p =>
      leaf (addr ← (if is_none (p_var_off p) then Ok (pretty (p_off p))
                    else match p_var_off p with
                         | VNum _ k _ _ => Ok (hex (arith ADD k (p_off p) 32 false))
                         | _ => if p_off p =? 0 then str (p_var_off p)
                                else sh ← shared_of (p_var_off p); '(top, d) ← emit sh (p_var_off p) [];
                                     t ← binary_text ADD 4 top (hex (p_off p)); Ok (let_text d t)
                         end);
            Ok (ptr_text p addr))
  end.

(** [str(v)], [expr_to_str(v)]. *)
Definition expr_to_str (v : val) : res string :=
  sh ← shared_of v; '(top, d) ← emit sh v []; Ok (let_text d top).

(** ** Conditions *)

Definition cond_text (c : condition) : res string :=
  match c with
  | CCond code dst src jmp32 =>
      op ← of_option KeyError (pget branch_op_to_str code);
      a ← expr_to_str dst; b ← expr_to_str src;
      Ok ("(" +:+ a +:+ " " +:+ op +:+ (if jmp32 then "32" else "") +:+ " " +:+ b +:+ ")")
  | CAdjust result _ => Ok (if result then "adjust-success" else "adjust-failed")
  | CContain map_id _ key_id result =>
      Ok ((if result then "" else "!") +:+ "map" +:+ opt_text map_id +:+ ".contain(key" +:+ opt_text key_id +:+ ")")
  | CTail map_id _ slot target _ map_name =>
      let where_ := match map_name with Some ((String _ _) as n) => n | _ => "map" +:+ opt_text map_id end in
      Ok ("tail_call(" +:+ where_ +:+ "[" +:+ match slot with Some s => pretty s | None => "?" end
          +:+ "] -> " +:+ target +:+ ")")
  end.

(** ** Actions *)

Definition var_text (v : val) : res (option string) :=
  if is_none v then Ok None else Some <$> expr_to_str v.
(** [var_off + rest], when there is one. *)
Definition after_var (var_off : option string) (rest : string) : string :=
  match var_off with Some v => v +:+ " + " +:+ rest | None => rest end.

Definition map_text (map_id : option Z) : string := "map" +:+ opt_text map_id.
(** [f'{self.idx}: ...']. *)
Definition with_idx (idx : Z) (s : string) : string := pretty idx +:+ ": " +:+ s.

Definition PktWrite_str (off : Z) (var_off : val) (size : Z) (value : val) : res string :=
  var ← var_text var_off; v ← expr_to_str value; Ok ("pkt[" +:+ range_text var off size +:+ "] <= " +:+ v).

Definition MapWrite_str (idx : Z) (map_id : option Z) (map_key : val) (off size : Z) (value var_off : val)
    : res string :=
  let rng := if size =? 1 then pretty off else pretty off +:+ ":" +:+ pretty (off + size) in
  var ← var_text var_off; key ← expr_to_str map_key; v ← expr_to_str value;
  Ok (with_idx idx (map_text map_id +:+ "[" +:+ key +:+ "][" +:+ after_var var rng +:+ "] <= " +:+ v)).

Definition MapAtomicAdd_str (idx : Z) (map_id : option Z) (map_key : val) (off : Z) (value var_off : val)
    : res string :=
  var ← var_text var_off; key ← expr_to_str map_key; v ← expr_to_str value;
  Ok (with_idx idx (map_text map_id +:+ "[" +:+ key +:+ "][" +:+ after_var var (pretty off) +:+ "] += " +:+ v)).

Definition MapUpdate_str (idx : Z) (map_id : option Z) (map_key value : val) : res string :=
  key ← expr_to_str map_key; v ← expr_to_str value;
  Ok (with_idx idx (map_text map_id +:+ "[" +:+ key +:+ "] <= " +:+ v)).

Definition MapDelete_str (map_id : option Z) (map_key : val) : res string :=
  key ← expr_to_str map_key; Ok (map_text map_id +:+ ".delete(" +:+ key +:+ ")").

Definition BssWrite_str (idx : Z) (bss_key : option string) (off : Z) (value var_off : val) : res string :=
  var ← var_text var_off; v ← expr_to_str value;
  Ok (with_idx idx (name_text bss_key +:+ "[" +:+ after_var var (pretty off) +:+ "] <= " +:+ v)).

Definition BssAtomicAdd_str (idx : Z) (bss_key : option string) (off : Z) (value var_off : val) : res string :=
  var ← var_text var_off; v ← expr_to_str value;
  Ok (with_idx idx (name_text bss_key +:+ "[" +:+ after_var var (pretty off) +:+ "] += " +:+ v)).

Definition TailCall_str (idx : Z) (map_id slot : option Z) (target : string) (map_name : option string) : string :=
  let where_ := match map_name with Some ((String _ _) as n) => n | _ => map_text map_id end in
  with_idx idx ("bpf_tail_call(" +:+ where_ +:+ "[" +:+ match slot with Some s => pretty s | None => "?" end
                +:+ "]) -> " +:+ target).

(** [str(action)]. *)
Definition action_text (a : action) : res string :=
  match a_kind a with
  | Return v => t ← expr_to_str v; Ok ("return " +:+ t)
  | PktWrite _ off var_off size v => PktWrite_str off var_off size v
  | MapWrite m k off size v var_off => MapWrite_str (a_idx a) m k off size v var_off
  | MapAtomicAdd m k off _ v var_off _ => MapAtomicAdd_str (a_idx a) m k off v var_off
  | MapLookup m _ key_id => Ok (map_text m +:+ ".lookup(key" +:+ pretty key_id +:+ ")")
  | MapUpdate m k v _ _ _ => MapUpdate_str (a_idx a) m k v
  | MapDelete m k => MapDelete_str m k
  | BssWrite key off _ v var_off => BssWrite_str (a_idx a) key off v var_off
  | BssAtomicAdd key off _ v var_off _ => BssAtomicAdd_str (a_idx a) key off v var_off
  | AdjustHead d _ => Ok ("adjust_head(" +:+ pretty d +:+ ")")
  | AdjustTail d _ => Ok ("adjust_tail(" +:+ pretty d +:+ ")")
  | AdjustMeta d _ => Ok ("adjust_meta(" +:+ pretty d +:+ ")")
  | XdpBuffLen _ => Ok "xdp_get_buff_len()"
  | CtxWrite v => t ← expr_to_str v; Ok (with_idx (a_idx a) ("rx_queue_index <= " +:+ t))
  | TailCall m _ slot target map_name => Ok (TailCall_str (a_idx a) m slot target map_name)
  | perf_event_output => Ok "perf_event_output()"
  end.
