(* ===== verification/Facts.v ===== *)
(** The facts of a program ([report/facts.py]): what its blocks read, call and write,
    their conditions and return values as text, its exits' constant return codes and
    the back edges of its graph. *)

From stdpp Require Import sorting.
From S2P Require Import Prelude Constants Instr Link Expr Record Encode Action Block Prune Pystr Spec Program Text.

From Stdlib Require Import Ascii.

Local Open Scope string_scope.
Local Open Scope Z_scope.

(** ** Names *)

(** [{imm: name}] of [HELPER_IMM], and the first field at each position. *)
Definition _HELPER_NAME : list (Z * string) := fold_left (λ d x, pset d x.2 x.1) HELPER_IMM [].
Definition _FIELD_NAME : list (Z * Z * string) :=
  fold_left (λ d x, match pget d x.2 with Some _ => d | None => pset d x.2 x.1 end) PROTOCOL_FIELDS [].

Definition key_name (key_id : option Z) : string := "key" +:+ opt_text key_id.
Definition helper_name (imm : Z) : string := default ("helper#" +:+ pretty imm) (pget _HELPER_NAME imm).
Definition field_name (off size : Z) : option string := pget _FIELD_NAME (off, size).

(** [_MAP_REF.sub(...)]: each word [map<n>] of a text becomes the name of map [n]. *)
Definition names_t : Type := list (Z * string).

Definition is_word (c : Ascii.ascii) : bool :=
  let n := code_of c in
  is_digit c || (65 <=? n) && (n <=? 90) || (97 <=? n) && (n <=? 122) || (n =? 95).
Fixpoint digits_of (l : list Ascii.ascii) : list Ascii.ascii :=
  match l with c :: l' => if is_digit c then c :: digits_of l' else [] | [] => [] end.

(** The digits of the reference that starts [l], after a character that is a part of a
    word or not. *)
Definition map_ref (word : bool) (l : list Ascii.ascii) : option (list Ascii.ascii) :=
  match l with
  | "m"%char :: "a"%char :: "p"%char :: l' =>
      let ds := digits_of l' in
      let ends := match drop (length ds) l' with c :: _ => negb (is_word c) | [] => true end in
      if negb word && ends && negb (bool_decide (length ds = 0%nat)) then Some ds else None
  | _ => None
  end.

Definition digits_value (l : list Ascii.ascii) : Z := fold_left (λ n c, n * 10 + (code_of c - 48)) l 0.

(** The text with each reference replaced by [name] of its digits. *)
Fixpoint render_l (name : list Ascii.ascii → string) (skip : nat) (word : bool) (l : list Ascii.ascii)
    : list Ascii.ascii :=
  match l with
  | [] => []
  | c :: l' =>
      match skip with
      | S k => render_l name k (is_word c) l'
      | O => match map_ref word l with
             | Some ds => app (chars (name ds)) (render_l name (2 + length ds) (is_word c) l')
             | None => c :: render_l name 0 (is_word c) l'
             end
      end
  end.
Definition sub_refs (name : list Ascii.ascii → string) (text : string) : string :=
  of_chars (render_l name 0 false (chars text)).

Definition _render (text : string) (names : names_t) : string :=
  sub_refs (λ ds, default ("map" +:+ of_chars ds) (pget names (digits_value ds))) text.

(** ** Reads and calls *)

Inductive read_kind := ReadPkt | ReadMap.

Record Read := mk_read {
  rd_kind : read_kind;
  rd_idx : Z;
  rd_off : Z;
  rd_size : Z;
  rd_var_off : bool;
  rd_map_name : option string;
  rd_map_id : option Z;
  rd_map_key : option string;
  rd_field : option string
}.

Definition read_text (r : Read) : string :=
  let at_ := if rd_var_off r then "<var> + " +:+ hex (rd_off r) else hex (rd_off r) in
  let rng := if rd_size r =? 1 then at_ else at_ +:+ ":+" +:+ pretty (rd_size r) in
  match rd_kind r with
  | ReadPkt => "pkt[" +:+ rng +:+ "]" +:+ match rd_field r with Some f => "  (" +:+ f +:+ ")" | None => "" end
  | ReadMap => name_text (rd_map_name r) +:+ "[" +:+ name_text (rd_map_key r) +:+ "][" +:+ rng +:+ "]"
  end.

Definition json_name (o : option string) : json := match o with Some s => JStr s | None => JNull end.

Definition read_atom (r : Read) : option json :=
  if rd_var_off r then None
  else Some (JObj match rd_kind r, rd_field r with
    | ReadPkt, Some f => [("field", JStr f); ("value", JInt 0); ("op", JStr "eq")]
    | ReadPkt, None => [("offset", JInt (rd_off r)); ("size", JInt (rd_size r)); ("value", JInt 0);
                        ("op", JStr "eq")]
    | ReadMap, _ => [("read", JObj [("map", json_name (rd_map_name r)); ("offset", JInt (rd_off r));
                                    ("size", JInt (rd_size r))]); ("value", JInt 0); ("op", JStr "eq")]
    end).

Inductive returns_t := RetScalar | RetPointer | RetTransfer.
#[global] Instance returns_eq_dec : EqDecision returns_t.
Proof. solve_decision. Defined.

(** [map_key]: the name of a key, or the slot of a tail call. *)
Inductive call_key := KeyNone | KeyName (s : string) | KeySlot (n : Z).

Record Call := mk_call {
  cl_idx : Z;
  cl_imm : Z;
  cl_helper : string;
  cl_returns : returns_t;
  cl_block : Z;
  cl_map_name : option string;
  cl_map_id : option Z;
  cl_map_key : call_key;
  cl_target : option string
}.

Definition key_text (k : call_key) : string :=
  match k with KeyNone => "None" | KeyName s => s | KeySlot n => pretty n end.
Definition returns_text (r : returns_t) : string :=
  match r with RetScalar => "scalar" | RetPointer => "pointer" | RetTransfer => "transfer" end.

Definition call_text (c : Call) : string :=
  match cl_returns c with
  | RetTransfer => cl_helper c +:+ "(" +:+ name_text (cl_map_name c) +:+ "[" +:+ key_text (cl_map_key c)
                   +:+ "]) -> " +:+ name_text (cl_target c)
  | r => let arg := match cl_map_name c with
                    | Some ((String _ _) as n) => "(" +:+ n +:+ ", key=" +:+ key_text (cl_map_key c) +:+ ")"
                    | _ => "()"
                    end in
         cl_helper c +:+ arg +:+ " -> " +:+ returns_text r
  end.

Definition call_atom (c : Call) : option json :=
  match cl_returns c with
  | RetTransfer => None
  | RetPointer => Some (JObj [("idx", JInt (cl_idx c)); ("helper", JStr (cl_helper c)); ("returns", JStr "non_null")])
  | RetScalar => Some (JObj [("idx", JInt (cl_idx c)); ("helper", JStr (cl_helper c)); ("op", JStr "eq");
                             ("value", JInt 0)])
  end.

(** ** Return codes *)

(** The constants a return value can be, [None] when it can be something else; an
    object seen before adds nothing. *)
Fixpoint _leaves (expr : val) (seen : gset Z) : option (gset Z) * gset Z :=
  let fix all (out : gset Z) (l : list val) (seen : gset Z) : option (gset Z) * gset Z :=
    match l with
    | [] => (Some out, seen)
    | v :: l' => match _leaves v seen with
                 | (None, seen) => (None, seen)
                 | (Some sub, seen) => all (out ∪ sub) l' seen
                 end
    end in
  if is_none expr then (None, seen)
  else if bool_decide (oid expr ∈ seen) then (Some ∅, seen)
  else
    let seen := {[oid expr]} ∪ seen in
    match expr with
    | VJoin _ j => all ∅ (j_values j) seen
    | VNum _ n _ _ => (Some {[n]}, seen)
    | _ => (None, seen)
    end.

Definition sorted_codes (s : gset Z) : list Z := merge_sort Z.le (elements s).

Definition _ret_codes (expr : val) : option (list Z) :=
  match (_leaves expr ∅).1 with
  | Some s => if bool_decide (s = ∅) then None else Some (sorted_codes s)
  | None => None
  end.

(** ** Blocks *)

Record BlockFact := mk_bf {
  bf_num : Z;
  bf_kind : kind_t;
  bf_start : Z;
  bf_end : Z;
  bf_preds : list Z;
  bf_succ_t : option Z;
  bf_succ_f : option Z;
  bf_cond : option string;
  bf_reads : list Read;
  bf_calls : list Call;
  bf_writes : list string;
  bf_phis : Z;
  bf_ret : option string;
  bf_ret_codes : option (list Z);
  bf_prog_entry : option string
}.

Definition is_exit_kind (k : kind_t) : bool := match k with KExit => true | _ => false end.

Definition interesting (b : BlockFact) : bool :=
  negb (bool_decide (length (bf_reads b) = 0%nat)) || negb (bool_decide (length (bf_calls b) = 0%nat))
  || is_exit_kind (bf_kind b)
  || match bf_prog_entry b with Some (String _ _) => true | _ => false end.

Definition preds_text (b : BlockFact) : string :=
  let head := take 12 (bf_preds b) in
  let rest := zlen (bf_preds b) - zlen head in
  "[" +:+ String.concat ", " (map pretty head)
  +:+ (if rest =? 0 then "]" else ", +" +:+ pretty rest +:+ " more]").

Definition edges_text (b : BlockFact) : string :=
  String.concat "  "
    (app (match bf_succ_t b with Some n => ["taken->" +:+ pretty n] | None => [] end)
    (app (match bf_succ_f b with Some n => ["fall->" +:+ pretty n] | None => [] end)
         (if is_exit_kind (bf_kind b) then ["exit"] else []))).

(** [type(a).__name__]. *)
Definition class_name (k : action_kind) : string :=
  match k with
  | Return _ => "Return" | PktWrite _ _ _ _ _ => "PktWrite" | MapWrite _ _ _ _ _ _ => "MapWrite"
  | MapAtomicAdd _ _ _ _ _ _ _ => "MapAtomicAdd" | MapLookup _ _ _ => "MapLookup"
  | MapUpdate _ _ _ _ _ _ => "MapUpdate" | MapDelete _ _ => "MapDelete"
  | BssWrite _ _ _ _ _ => "BssWrite" | BssAtomicAdd _ _ _ _ _ _ => "BssAtomicAdd"
  | AdjustHead _ _ => "AdjustHead" | AdjustTail _ _ => "AdjustTail" | AdjustMeta _ _ => "AdjustMeta"
  | XdpBuffLen _ => "XdpBuffLen" | CtxWrite _ => "CtxWrite" | TailCall _ _ _ _ _ => "TailCall"
  | perf_event_output => "perf_event_output"
  end.

(** [getattr(a, 'map_id', None)]. *)
Definition action_map_id (a : action) : option Z :=
  match a_kind a with
  | MapWrite m _ _ _ _ _ | MapAtomicAdd m _ _ _ _ _ _ | MapLookup m _ _ | MapUpdate m _ _ _ _ _
  | MapDelete m _ | TailCall m _ _ _ _ => m
  | _ => None
  end.

(** [sorted(l, key=f)]: a stable sort. *)
Fixpoint insert_by {A} (f : A → Z) (x : A) (l : list A) : list A :=
  match l with
  | [] => [x]
  | y :: l' => if f y <=? f x then y :: insert_by f x l' else x :: l
  end.
Definition sort_by {A} (f : A → Z) (l : list A) : list A := fold_left (λ l x, insert_by f x l) l [].

Definition name_of (names : names_t) (map_id : option Z) : option string := m ← map_id; pget names m.

Definition source_read (names : names_t) (v : val) : list Read :=
  match v with
  | VPkt _ p => [mk_read ReadPkt (pv_idx p) (pv_off p) (pv_size p) (negb (is_none (pv_var_off p))) None None
                   None (field_name (pv_off p) (pv_size p))]
  | VMap _ m => [mk_read ReadMap (mv_idx m) (mv_off m) (mv_size m) (negb (is_none (mv_var_off m)))
                   (name_of names (mv_map_id m)) (mv_map_id m) (Some (key_name (mv_map_key_id m))) None]
  | _ => []
  end.

Definition source_call (names : names_t) (block : Z) (v : val) : list Call :=
  match v with
  | VFunc _ f => [mk_call (fr_idx f) (fr_func f) (helper_name (fr_func f)) RetScalar block
                    (name_of names (fr_map_id f)) (fr_map_id f)
                    (if is_none (fr_map_key f) then KeyNone else KeyName (key_name (fr_map_key_id f))) None]
  | _ => []
  end.

Definition returns_of (ret : string) : returns_t :=
  if bool_decide (ret = "transfer") then RetTransfer else if bool_decide (ret = "scalar") then RetScalar
  else RetPointer.

(** An action with a result is a call; [map_key] is the slot of a tail call. *)
Definition action_call (names : names_t) (block : Z) (a : action) : list Call :=
  match action_ret a with
  | None => []
  | Some ret =>
      let mid := action_map_id a in
      [mk_call (a_idx a) (rec_imm (inl a)) (helper_name (rec_imm (inl a))) (returns_of ret) block
         (name_of names mid) mid
         (match a_kind a with
          | TailCall _ _ slot _ _ => match slot with Some n => KeySlot n | None => KeyNone end
          | MapLookup _ key key_id => if is_none key then KeyNone else KeyName (key_name (Some key_id))
          | _ => KeyNone
          end)
         (match a_kind a with TailCall _ _ _ target _ => Some target | _ => None end)]
  end.

Definition action_write (a : action) : list string :=
  match action_ret a with None => [class_name (a_kind a)] | Some _ => [] end.

Definition _block_fact (names : names_t) (b : Block) : res BlockFact :=
  ret ← ret_expr b;
  cond ← match cond b with Some c => t ← cond_text c; Ok (Some (_render t names)) | None => Ok None end;
  text ← (if is_exit_kind (kind b) then t ← expr_to_str ret; Ok (Some (_render t names)) else Ok None);
  Ok (mk_bf (num b) (kind b) (start b) (end_ b) (preds b) (succ_t b) (succ_f b) cond
    (sort_by rd_idx (mjoin (map (source_read names) (sources b))))
    (sort_by cl_idx (app (mjoin (map (source_call names (num b)) (sources b)))
                         (mjoin (map (action_call names (num b)) (actions b)))))
    (mjoin (map action_write (actions b)))
    (Z.of_nat (length (filter (λ v, is_join v = true) (sources b))))
    text (if is_exit_kind (kind b) then _ret_codes ret else None)
    None).

(** ** Back edges *)

Definition succs_of (b : BlockFact) : list Z :=
  omap id [bf_succ_t b; bf_succ_f b].

(** The stack of the depth-first search: a node and the successors its iterator has
    left. *)
Section dfs.
Context (succs : list (Z * list Z)).

Fixpoint dfs_loop (fuel : nat) (back : list (Z * Z)) (done on_stack : gset Z)
    (stack : list (Z * list Z)) : res (list (Z * Z)) :=
  match stack with
  | [] => Ok back
  | (node, it) :: stack' =>
      match fuel with
      | O => Err out_of_fuel
      | S fuel' =>
          match it with
          | [] => dfs_loop fuel' back ({[node]} ∪ done) (on_stack ∖ {[node]}) stack'
          | nxt :: it' =>
              let stack := (node, it') :: stack' in
              if bool_decide (nxt ∈ on_stack) then dfs_loop fuel' (back ++ [(node, nxt)]) done on_stack stack
              else if negb (bool_decide (nxt ∈ done)) && pmem succs nxt then
                dfs_loop fuel' back done ({[nxt]} ∪ on_stack) ((nxt, default [] (pget succs nxt)) :: stack)
              else dfs_loop fuel' back done on_stack stack
          end
      end
  end.
End dfs.

Definition succs_table (blocks : list BlockFact) : list (Z * list Z) :=
  fold_left (λ d b, pset d (bf_num b) (succs_of b)) blocks [].

(** Every block is pushed at most once, and every edge looked at once. *)
Definition dfs_fuel (succs : list (Z * list Z)) : nat := S (S (list_sum (map (λ x, S (length x.2)) succs))).

Definition _back_edges (blocks : list BlockFact) : res (list (Z * Z)) :=
  let succs := succs_table blocks in
  dfs_loop succs (dfs_fuel succs) [] ∅ {[0]} [(0, default [] (pget succs 0))].

(** ** Maps, exits and programs *)

Record MapFact := mk_mf {
  mf_id : Z;
  mf_name : string;
  mf_type : Z;
  mf_type_name : string;
  mf_key_size : Z;
  mf_value_size : Z;
  mf_max_entries : Z;
  mf_flags : Z;
  mf_lookups : list Call;
  mf_reads : list Read;
  mf_written : bool;
  mf_targets : list (option Z * string);
  mf_transfers : list Call
}.

Inductive family_t := FamArray | FamHash | FamProg | FamOther.
#[global] Instance family_eq_dec : EqDecision family_t.
Proof. solve_decision. Defined.

Definition family (m : MapFact) : family_t :=
  if existsb (Z.eqb (mf_type m)) ARRAY_MAP_TYPES then FamArray
  else if existsb (Z.eqb (mf_type m)) HASH_MAP_TYPES then FamHash
  else if existsb (Z.eqb (mf_type m)) PROG_MAP_TYPES then FamProg
  else FamOther.

Definition needs_seed (m : MapFact) : bool :=
  bool_decide (family m = FamHash) && negb (bool_decide (length (mf_lookups m) = 0%nat)).

Definition call_sites (l : list Call) : string :=
  String.concat " " (map (λ c, "b" +:+ pretty (cl_block c)) l).

(** [sorted(self.targets)]: by slot, then by name; slots that are all unknown are
    equal, and one of them does not compare with a number. *)
Definition target_le (a b : option Z * string) : Prop :=
  default 0 a.1 < default 0 b.1 ∨ default 0 a.1 = default 0 b.1 ∧ String.leb a.2 b.2 = true.
#[global] Instance target_le_dec a b : Decision (target_le a b).
Proof. unfold target_le. apply _. Defined.

Definition sorted_targets (l : list (option Z * string)) : res (list (option Z * string)) :=
  let known := map (λ x : option Z * string, bool_decide (is_Some x.1)) l in
  guard_or (forallb id known || forallb negb known) TypeError;;
  Ok (merge_sort target_le l).

Definition note (m : MapFact) : res string :=
  let where_ := call_sites (mf_lookups m) in
  match family m, mf_lookups m with
  | FamProg, _ =>
      let at_ := match mf_transfers m with [] => "nowhere" | l => call_sites l end in
      ts ← sorted_targets (mf_targets m);
      let loaded := match ts with
                    | [] => "nothing loaded (--tail)"
                    | _ => String.concat ", " (map (λ x : option Z * string, "[" +:+ opt_text x.1 +:+ "]=" +:+ x.2) ts)
                    end in
      Ok ("PROG_ARRAY — " +:+ loaded +:+ "; tail-called at " +:+ at_)
  | _, [] => Ok "never looked up by this program"
  | FamArray, _ => Ok ("ARRAY family — entries always present, no seeding needed (" +:+ where_ +:+ ")")
  | FamHash, _ => Ok (mf_type_name m +:+ " — unseeded it is EMPTY, so the lookups at " +:+ where_ +:+ " always miss")
  | FamOther, _ => Ok (mf_type_name m +:+ " — lookups at " +:+ where_)
  end.

Record ExitFact := mk_ef { ef_block : Z; ef_ret : string; ef_ret_codes : option (list Z) }.

Record ProgFact := mk_pf {
  pf_name : string;
  pf_path : string;
  pf_first_block : option Z;
  pf_last_block : option Z;
  pf_n_instrs : Z;
  pf_slot : option Z;
  pf_map_name : option string
}.

Definition pf_is_main (p : ProgFact) : bool := bool_decide (pf_map_name p = None).

Definition loaded_at (p : ProgFact) : string :=
  match pf_map_name p with
  | None => "entry"
  | Some n => n +:+ "[" +:+ match pf_slot p with Some s => pretty s | None => "?" end +:+ "]"
  end.

(** ** The facts of a program *)

Record ProgramFacts := mk_facts {
  f_object_path : string;
  f_entry : string;
  f_n_instrs : Z;
  f_n_bytes : Z;
  f_n_blocks : Z;
  f_back_edges : list (Z * Z);
  f_maps : list MapFact;
  f_blocks : list BlockFact;
  f_exits : list ExitFact;
  f_helpers : list (string * Z);
  f_effects : list (string * Z);
  f_pkt_reads : list (Z * Z * option string);
  f_var_off_reads : Z;
  f_rodata : Z;
  f_bss : Z;
  f_progs : list ProgFact
}.

(** [d[k] = d.get(k, 0) + 1]. *)
Definition count (d : list (string * Z)) (k : string) : list (string * Z) :=
  pset d k (default 0 (pget d k) + 1).

Definition map_facts : Type := list (Z * MapFact).

(** [if map_id in maps: f(maps[map_id])]. *)
Definition on_map_fact (map_id : option Z) (f : MapFact → MapFact) (maps : map_facts) : map_facts :=
  match map_id with
  | Some i => match pget maps i with Some m => pset maps i (f m) | None => maps end
  | None => maps
  end.

Definition set_map_facts (l : list Call) (r : list Read) (w : bool) (t : list (option Z * string))
    (tr : list Call) (m : MapFact) : MapFact :=
  mk_mf (mf_id m) (mf_name m) (mf_type m) (mf_type_name m) (mf_key_size m) (mf_value_size m)
    (mf_max_entries m) (mf_flags m) l r w t tr.

Definition add_lookup (c : Call) (m : MapFact) : MapFact :=
  set_map_facts (mf_lookups m ++ [c]) (mf_reads m) (mf_written m) (mf_targets m) (mf_transfers m) m.
Definition add_transfer (c : Call) (m : MapFact) : MapFact :=
  set_map_facts (mf_lookups m) (mf_reads m) (mf_written m) (mf_targets m) (mf_transfers m ++ [c]) m.
Definition add_read (r : Read) (m : MapFact) : MapFact :=
  set_map_facts (mf_lookups m) (mf_reads m ++ [r]) (mf_written m) (mf_targets m) (mf_transfers m) m.
Definition mark_written (m : MapFact) : MapFact :=
  set_map_facts (mf_lookups m) (mf_reads m) true (mf_targets m) (mf_transfers m) m.
Definition add_target (t : option Z * string) (m : MapFact) : MapFact :=
  set_map_facts (mf_lookups m) (mf_reads m) (mf_written m) (mf_targets m ++ [t]) (mf_transfers m) m.

Definition map_names (maps : list map_info) : names_t :=
  fold_left (λ d m, pset d (mi_id m)
    (match mi_name m with Some ((String _ _) as n) => n | _ => "map" +:+ pretty (mi_id m) end)) maps [].

Definition new_map_facts (names : names_t) (maps : list map_info) : map_facts :=
  fold_left (λ d m, pset d (mi_id m)
    (mk_mf (mi_id m) (default "" (pget names (mi_id m))) (mi_type m) (map_type_name (mi_type m))
       (mi_key_size m) (mi_value_size m) (mi_max_entries m) (mi_flags m) [] [] false [] [])) maps [].

(** The facts of one block, added to the counts and the maps. *)
Record collected := mk_col {
  co_blocks : list BlockFact;
  co_helpers : list (string * Z);
  co_effects : list (string * Z);
  co_maps : map_facts
}.

Definition collect_call (s : collected) (c : Call) : collected :=
  let maps := if cl_imm c =? 1 then on_map_fact (cl_map_id c) (add_lookup c) (co_maps s) else co_maps s in
  let maps := if bool_decide (cl_returns c = RetTransfer) then on_map_fact (cl_map_id c) (add_transfer c) maps
              else maps in
  mk_col (co_blocks s) (count (co_helpers s) (cl_helper c)) (co_effects s) maps.

Definition collect_block (names : names_t) (s : collected) (b : Block) : res collected :=
  bf ← _block_fact names b;
  let s := mk_col (co_blocks s ++ [bf]) (co_helpers s) (co_effects s) (co_maps s) in
  let s := fold_left collect_call (bf_calls bf) s in
  let maps := fold_left (λ m r, on_map_fact (rd_map_id r) (add_read r) m) (bf_reads bf) (co_maps s) in
  let effects := fold_left count (bf_writes bf) (co_effects s) in
  let maps := fold_left (λ m a, if bool_decide (action_ret a = None)
                                then on_map_fact (action_map_id a) mark_written m else m) (actions b) maps in
  Ok (mk_col (co_blocks s) (co_helpers s) effects maps).

Definition set_bf_entry (name : string) (b : BlockFact) : BlockFact :=
  mk_bf (bf_num b) (bf_kind b) (bf_start b) (bf_end b) (bf_preds b) (bf_succ_t b) (bf_succ_f b) (bf_cond b)
    (bf_reads b) (bf_calls b) (bf_writes b) (bf_phis b) (bf_ret b) (bf_ret_codes b) (Some name).

(** [max((b.num for b in blocks if r.contains(b.start)), default=r.entry_block)]. *)
Definition last_block (blocks : list Block) (r : ProgRegion) : option Z :=
  match map num (filter (λ b, contains r (start b) = true) blocks) with
  | [] => r_entry_block r
  | n :: l => Some (fold_left Z.max l n)
  end.

Definition collect_region (names : names_t) (blocks : list Block)
    (s : list ProgFact * map_facts * list BlockFact) (r : ProgRegion)
    : res (list ProgFact * map_facts * list BlockFact) :=
  let '(progs, maps, bfs) := s in
  let pf := mk_pf (r_name r) (r_path r) (r_entry_block r) (last_block blocks r)
              (r_end r - r_start r + 1) (r_slot r) (name_of names (r_map_id r)) in
  let maps := if is_main r then maps else on_map_fact (r_map_id r) (add_target (r_slot r, r_name r)) maps in
  if is_main r then Ok (app progs [pf], maps, bfs)
  else
    eb ← of_option TypeError (r_entry_block r);
    Ok (app progs [pf], maps,
        if (0 <=? eb) && (eb <? zlen bfs) then alter (set_bf_entry (r_name r)) (Z.to_nat eb) bfs else bfs).

(** The positions read at a fixed offset, sorted, each once. *)
Definition pos_le (a b : Z * Z) : Prop := a.1 < b.1 ∨ a.1 = b.1 ∧ a.2 <= b.2.
#[global] Instance pos_le_dec a b : Decision (pos_le a b).
Proof. unfold pos_le. apply _. Defined.
Definition is_pkt_read (r : Read) : bool :=
  match rd_kind r with ReadPkt => negb (rd_var_off r) | ReadMap => false end.
Definition all_reads (bfs : list BlockFact) : list Read := mjoin (map bf_reads bfs).
Definition pkt_positions (bfs : list BlockFact) : list (Z * Z) :=
  merge_sort pos_le (remove_dups (map (λ r, (rd_off r, rd_size r))
    (filter (λ r, is_pkt_read r = true) (all_reads bfs)))).

Definition exit_fact (b : Block) : res (list ExitFact) :=
  if is_exit_kind (kind b) then ret ← ret_expr b; t ← expr_to_str ret; Ok [mk_ef (num b) t (_ret_codes ret)] else Ok [].

Definition rodata_entries (r : rodata) : Z :=
  (if bool_decide (is_Some (ro_data r)) then 1 else 0)
  + (if bool_decide (is_Some (ro_section_idx r)) then 1 else 0) + zlen (ro_syms r).

Definition by_id_le (a b : Z * MapFact) : Prop := a.1 <= b.1.
#[global] Instance by_id_le_dec a b : Decision (by_id_le a b).
Proof. unfold by_id_le. apply _. Defined.

Definition collect (prog : eBPFProgram) : res ProgramFacts :=
  let names := map_names (p_maps prog) in
  s ← foldR (collect_block names) (mk_col [] [] [] (new_map_facts names (p_maps prog))) (p_blocks prog);
  '(progs, maps, bfs) ← foldR (collect_region names (p_blocks prog)) ([], co_maps s, co_blocks s)
                          (p_progs prog);
  back ← _back_edges bfs;
  exits ← mapR exit_fact (p_blocks prog);
  Ok (mk_facts (file_path prog) (main_func prog) (zlen (p_instrs prog)) (zlen (p_instrs prog) * 8)
        (zlen (p_blocks prog)) back (map snd (merge_sort by_id_le maps)) bfs (mjoin exits)
        (co_helpers s) (co_effects s) (map (λ os, (os, field_name os.1 os.2)) (pkt_positions bfs))
        (zlen (filter (λ r, rd_var_off r = true) (all_reads bfs)))
        (rodata_entries (p_rodata prog)) (zlen (p_bss prog)) progs).

Definition acyclic (f : ProgramFacts) : bool := bool_decide (f_back_edges f = []).

(** [ret_codes]: unknown when one exit's are. *)
Fixpoint exit_codes (l : list ExitFact) (out : gset Z) : option (list Z) :=
  match l with
  | [] => Some (sorted_codes out)
  | e :: l' => codes ← ef_ret_codes e; exit_codes l' (out ∪ list_to_set codes)
  end.
Definition ret_codes (f : ProgramFacts) : option (list Z) := exit_codes (f_exits f) ∅.

Definition block_of (f : ProgramFacts) (n : Z) : option BlockFact :=
  List.find (λ b, bf_num b =? n) (f_blocks f).

Definition interesting_blocks (f : ProgramFacts) : list BlockFact :=
  filter (λ b, interesting b = true) (f_blocks f).

(** [max((o + s for o, s, _ in pkt_reads), default=0)]. *)
Definition read_depth (f : ProgramFacts) : Z :=
  match map (λ x : Z * Z * option string, x.1.1 + x.1.2) (f_pkt_reads f) with
  | [] => 0
  | d :: l => fold_left Z.max l d
  end.

Definition packet_template (f : ProgramFacts) : string :=
  let depth := read_depth f in
  let has_l4 := (34 <? depth) || existsb (λ x : Z * Z * option string, bool_decide (x.1 = (23, 1))) (f_pkt_reads f) in
  String.concat "/" (app ["Ether()"] (app (if 14 <? depth then ["IP()"] else [])
    (if has_l4 && (34 <? depth) then ["TCP()"] else []))).
