(* ===== verification/FactsSound.v ===== *)
(** The facts are those of the program ([report/facts.py]): the back edges are the
    cycles of the graph, the return codes the constants a return value can be. The
    examples at the end are two whole programs. *)

From stdpp Require Import sorting relations.
From S2P Require Import Prelude Constants Instr Link Expr Record Denote Encode Action Block Cfg CfgSound.
From S2P Require Import Prune PruneSound Tracker Frame TrackProg Pystr Spec Loader Program ProgramSound.
From S2P Require Import ProgramExamples Facts.

Lemma filter_same {A} (P Q : A → Prop) `{!∀ x, Decision (P x)} `{!∀ x, Decision (Q x)} (l : list A) :
  (∀ x, x ∈ l → P x ↔ Q x) → filter P l = filter Q l.
Proof.
  induction l as [|x l IH]; intros Hpq; [done|]. rewrite !filter_cons, IH by (intros; apply Hpq; by right).
  destruct (decide (P x)) as [Hp | Hp].
  - rewrite decide_True; [done|]. by apply Hpq; [left|].
  - rewrite decide_False; [done|]. intros HQ. apply Hp, Hpq; [left|done].
Qed.

Lemma sum_filter_le {A} (P : A → Prop) `{!∀ x, Decision (P x)} (f : A → nat) (l : list A) :
  (list_sum (map f (filter P l)) <= list_sum (map f l))%nat.
Proof. induction l as [|x l IH]; [done|]. rewrite filter_cons. case_decide; simpl; lia. Qed.

(** ** The depth-first search *)

Section dfs.
Context (succs : list (Z * list Z)).
Hypothesis Hkeys : NoDup (map fst succs).

Definition out_of (x : Z) : list Z := default [] (pget succs x).
Definition dedge (x y : Z) : Prop := y ∈ out_of x.

(** The nodes of a stack, the top first. *)
Definition nodes_of (stack : list (Z * list Z)) : list Z := map fst stack.

(** Every node of the stack is a successor of the one below it; what its iterator
    has left are successors of it. *)
Fixpoint is_path (stack : list (Z * list Z)) : Prop :=
  match stack with
  | [] => True
  | (n, it) :: rest => (∀ y, y ∈ it → dedge n y) ∧
      match rest with [] => n = 0 | (m, _) :: _ => dedge m n end ∧ is_path rest
  end.

(** A successor that has been dealt with: finished, a back edge, not a block, or the
    node above on the stack. *)
Definition handled (back : list (Z * Z)) (fin : list Z) (above : option Z) (x y : Z) : Prop :=
  y ∈ fin ∨ (x, y) ∈ back ∨ pget succs y = None ∨ above = Some y.

Fixpoint stack_done (back : list (Z * Z)) (fin : list Z) (above : option Z) (stack : list (Z * list Z)) : Prop :=
  match stack with
  | [] => True
  | (n, it) :: rest => (∀ y, dedge n y → y ∉ it → handled back fin above n y) ∧
      stack_done back fin (Some n) rest
  end.

(** The successors of a finished node were finished before it, unless by a back edge. *)
Definition fin_done (back : list (Z * Z)) (fin : list Z) : Prop :=
  ∀ l1 x l2, fin = l1 ++ x :: l2 → ∀ y, dedge x y → y ∈ l2 ∨ (x, y) ∈ back ∨ pget succs y = None.

Record dfs_inv (back : list (Z * Z)) (done on_stack : gset Z) (stack : list (Z * list Z)) (fin : list Z) : Prop := {
  di_path : is_path stack;
  di_on : ∀ x, x ∈ on_stack ↔ x ∈ nodes_of stack;
  di_done : ∀ x, x ∈ done ↔ x ∈ fin;
  di_nodup : NoDup (nodes_of stack ++ fin);
  di_back : ∀ x y, (x, y) ∈ back → rtc dedge 0 x ∧ dedge x y ∧ rtc dedge y x;
  di_stack : stack_done back fin None stack;
  di_fin : fin_done back fin;
  di_reach : ∀ x, x ∈ fin → rtc dedge 0 x
}.

Lemma path_reach stack n it : is_path ((n, it) :: stack) → rtc dedge 0 n ∧
  ∀ x, x ∈ nodes_of ((n, it) :: stack) → rtc dedge x n.
Proof.
  revert n it. induction stack as [|[m it'] stack IH]; intros n it (Hit & Hn & Hp); simpl.
  - subst n. split; [apply rtc_refl|]. intros x ->%list_elem_of_singleton. apply rtc_refl.
  - destruct (IH m it' Hp) as [H0 Hx]. split; [by eapply rtc_r|].
    intros x [-> | Hx']%elem_of_cons; [apply rtc_refl|]. eapply rtc_r; [by apply Hx|done].
Qed.

Lemma stack_done_mono back back' fin fin' above stack : back ⊆ back' → fin ⊆ fin' →
  stack_done back fin above stack → stack_done back' fin' above stack.
Proof.
  intros Hb Hf. revert above. induction stack as [|[n it] stack IH]; intros above; [done|].
  intros [Hn Hs]. split; [|by apply IH]. intros y Hy Hit. specialize (Hn y Hy Hit).
  unfold handled in *. set_solver.
Qed.

(** What is left to do: the blocks not seen, and the iterators. *)
Definition todo (done on_stack : gset Z) (stack : list (Z * list Z)) : nat :=
  list_sum (map (λ x, S (length x.2)) (filter (λ x, x.1 ∉ done ∧ x.1 ∉ on_stack) succs))
  + list_sum (map (λ x, S (length x.2)) stack).

(** *** The steps *)

Lemma handled_above back fin above x y : handled back fin None x y → handled back fin above x y.
Proof. unfold handled. naive_solver. Qed.

Lemma inv_pop back done on_stack n rest fin : dfs_inv back done on_stack ((n, []) :: rest) fin →
  dfs_inv back ({[n]} ∪ done) (on_stack ∖ {[n]}) rest (n :: fin).
Proof.
  intros [Hp Hon Hd Hnd Hb Hs Hf Hr]. simpl in Hnd, Hs.
  apply NoDup_cons in Hnd as [Hn Hnd]. rewrite elem_of_app in Hn. destruct Hs as [Hns Hrs]. split.
  - by destruct Hp as (_ & _ & ?).
  - intros x. rewrite elem_of_difference, Hon, elem_of_singleton. simpl. rewrite elem_of_cons. naive_solver.
  - intros x. rewrite elem_of_union, elem_of_singleton, Hd, elem_of_cons. done.
  - apply NoDup_app in Hnd as (H1 & H2 & H3). apply NoDup_app. split; [done|]. split.
    + intros x Hx [-> | Hxf]%elem_of_cons; [tauto|by apply (H2 x)].
    + apply NoDup_cons. split; [tauto|done].
  - done.
  - assert (∀ st, stack_done back fin (Some n) st → stack_done back (n :: fin) None st) as Hmono.
    { intros [|[m it] st]; [done|]. intros [Hm Hst]. split.
      - intros y Hy Hit. destruct (Hm y Hy Hit) as [? | [? | [? | [= <-]]]]; unfold handled; rewrite elem_of_cons; auto.
      - apply (stack_done_mono back back fin (n :: fin) (Some m) st); [done| |exact Hst]. by apply list_subseteq_cons. }
    by apply Hmono.
  - intros [|z l1] x l2 Heq y Hy; simplify_eq/=; [|by eapply Hf].
    destruct (Hns y Hy ltac:(apply not_elem_of_nil)) as [? | [? | [? | ?]]]; auto. done.
  - intros x [-> | Hx]%elem_of_cons; [exact (proj1 (path_reach rest n [] Hp))|by apply Hr].
Qed.

(** An iterator advances over a successor that is dealt with. *)
Lemma inv_next back back' done on_stack n y it rest fin : dfs_inv back done on_stack ((n, y :: it) :: rest) fin →
  back ⊆ back' → (∀ u v, (u, v) ∈ back' → (u, v) ∈ back ∨ u = n ∧ v = y ∧ y ∈ on_stack) →
  handled back' fin None n y → dfs_inv back' done on_stack ((n, it) :: rest) fin.
Proof.
  intros [Hp Hon Hd Hnd Hb Hs Hf Hr] Hsub Hnew Hy. split; try done.
  - destruct Hp as (Hit & Hm & Hp). split; [|done]. intros z Hz. apply Hit. by right.
  - intros u v Huv. destruct (Hnew u v Huv) as [? | (-> & -> & Hyn)]; [by apply Hb|].
    destruct (path_reach _ _ _ Hp) as [H0 Hx]. split; [done|]. split; [apply Hp; left|].
    by apply Hx, Hon.
  - destruct Hs as [Hns Hrs]. split; [|eapply stack_done_mono; [exact Hsub| |exact Hrs]; done].
    intros z Hz Hzit. destruct (decide (z = y)) as [-> | Hne]; [done|].
    destruct (Hns z Hz ltac:(by apply not_elem_of_cons)) as [? | [? | [? | ?]]]; unfold handled; auto.
  - intros l1 x l2 Heq z Hz. destruct (Hf l1 x l2 Heq z Hz) as [? | [? | ?]]; auto.
Qed.

Lemma inv_push back done on_stack n y it rest fin : dfs_inv back done on_stack ((n, y :: it) :: rest) fin →
  y ∉ on_stack → y ∉ done →
  dfs_inv back done ({[y]} ∪ on_stack) ((y, out_of y) :: (n, it) :: rest) fin.
Proof.
  intros [Hp Hon Hd Hnd Hb Hs Hf Hr] Hyo Hyd. split; try done.
  - split; [done|]. split; [apply Hp; left|]. destruct Hp as (Hit & Hm & Hp). split; [|done].
    intros z Hz. apply Hit. by right.
  - intros x. rewrite elem_of_union, elem_of_singleton, Hon. simpl. by rewrite (elem_of_cons _ x y).
  - simpl. apply NoDup_cons. split; [|done]. rewrite Hon in Hyo. rewrite Hd in Hyd.
    simpl in Hyo. change (n :: nodes_of rest ++ fin) with ((n :: nodes_of rest) ++ fin).
    rewrite elem_of_app. tauto.
  - destruct Hs as [Hns Hrs]. split; [intros z Hz Hno; done|]. split; [|done].
    intros z Hz Hzit. destruct (decide (z = y)) as [-> | Hne]; [unfold handled; auto|].
    apply handled_above, Hns; [done|]. by apply not_elem_of_cons.
Qed.

(** *** The measure *)

Lemma sum_remove (P Q : Z * list Z → Prop) `{!∀ x, Decision (P x)} `{!∀ x, Decision (Q x)} y l :
  pget succs y = Some l → P (y, l) → ¬ Q (y, l) → (∀ x, x.1 ≠ y → P x ↔ Q x) →
  list_sum (map (λ x, S (length x.2)) (filter P succs)) =
    (list_sum (map (λ x, S (length x.2)) (filter Q succs)) + S (length l))%nat.
Proof.
  induction succs as [|[k v] d IH]; [done|]. intros Hg HP HQ Hpq. simpl in Hg.
  apply NoDup_cons in Hkeys as [Hk Hnd]. rewrite !filter_cons. destruct (decide (y = k)) as [-> | Hne].
  - injection Hg as ->. rewrite decide_True, decide_False by done. simpl.
    assert (filter P d = filter Q d) as ->; [|lia].
    apply filter_same. intros x Hx. apply Hpq. intros Heq. apply Hk. rewrite <- Heq.
    apply (list_elem_of_fmap_2 fst d x Hx).
  - specialize (IH Hnd Hg HP HQ Hpq). destruct (decide (P (k, v))) as [Hp | Hp].
    + rewrite (decide_True (P := Q (k, v))) by (by apply Hpq). simpl in *. lia.
    + rewrite (decide_False (P := Q (k, v))) by (by rewrite <- Hpq). done.
Qed.

Lemma todo_push done on_stack n y it rest : y ∉ on_stack → y ∉ done → is_Some (pget succs y) →
  S (todo done ({[y]} ∪ on_stack) ((y, out_of y) :: (n, it) :: rest)) = todo done on_stack ((n, y :: it) :: rest).
Proof.
  intros Ho Hd [l Hl]. unfold todo. simpl. unfold out_of. rewrite Hl. simpl.
  rewrite (sum_remove (λ x, x.1 ∉ done ∧ x.1 ∉ on_stack) (λ x, x.1 ∉ done ∧ x.1 ∉ {[y]} ∪ on_stack) y l Hl);
    [lia|done|set_solver|]. intros [k v]. simpl. set_solver.
Qed.

Lemma todo_pop done on_stack n rest : n ∈ on_stack →
  S (todo ({[n]} ∪ done) (on_stack ∖ {[n]}) rest) = todo done on_stack ((n, []) :: rest).
Proof.
  intros Hn. unfold todo. simpl.
  rewrite (list_filter_iff (λ x : Z * list Z, x.1 ∉ {[n]} ∪ done ∧ x.1 ∉ on_stack ∖ {[n]})
    (λ x, x.1 ∉ done ∧ x.1 ∉ on_stack)); [lia|].
  intros [k v]. simpl. destruct (decide (k = n)) as [-> | ?]; set_solver.
Qed.

(** *** The loop *)

Lemma dfs_run fuel back done on_stack stack fin : (todo done on_stack stack <= fuel)%nat →
  dfs_inv back done on_stack stack fin →
  ∃ back' fin' done' on', dfs_loop succs fuel back done on_stack stack = Ok back' ∧
    dfs_inv back' done' on' [] fin' ∧ fin ⊆ fin' ∧ nodes_of stack ⊆ fin'.
Proof.
  revert back done on_stack stack fin. induction fuel as [|fuel IH]; intros back done on_stack stack fin Hfu Hi.
  all: destruct stack as [|[n it] rest]; [exists back, fin, done, on_stack; split_and!; [done|done|done|apply list_subseteq_nil]|].
  { unfold todo in Hfu. simpl in Hfu. lia. }
  simpl. destruct it as [|y it].
  { pose proof (todo_pop done on_stack n rest) as Ht. rewrite (di_on _ _ _ _ _ Hi) in Ht.
    specialize (Ht ltac:(left)).
    destruct (IH back ({[n]} ∪ done) (on_stack ∖ {[n]}) rest (n :: fin) ltac:(lia) (inv_pop _ _ _ _ _ _ Hi))
      as (b' & f' & d' & o' & HR & Hi' & Hf & Hs).
    exists b', f', d', o'. split_and!; [done..| |]; set_solver. }
  assert (todo done on_stack ((n, it) :: rest) <= fuel)%nat as Hfu' by (unfold todo in *; simpl in *; lia).
  case_bool_decide as Hyo.
  { destruct (IH (back ++ [(n, y)]) done on_stack ((n, it) :: rest) fin Hfu') as (b' & f' & d' & o' & HR & Hi' & Hf & Hs).
    { eapply inv_next; [exact Hi|set_solver| |].
      - intros u v Huv. apply elem_of_app in Huv as [? | [= -> ->]%list_elem_of_singleton]; auto.
      - right. left. apply elem_of_app. right. by left. }
    exists b', f', d', o'. split_and!; done. }
  destruct (negb (bool_decide (y ∈ done)) && pmem succs y) eqn:E.
  - apply andb_true_iff in E as [Hyd Hm]. apply negb_true_iff, bool_decide_eq_false in Hyd.
    unfold pmem in Hm. apply bool_decide_eq_true in Hm.
    pose proof (todo_push done on_stack n y it rest Hyo Hyd Hm) as Ht.
    destruct (IH back done ({[y]} ∪ on_stack) ((y, out_of y) :: (n, it) :: rest) fin ltac:(lia) (inv_push _ _ _ _ _ _ _ _ Hi Hyo Hyd))
      as (b' & f' & d' & o' & HR & Hi' & Hf & Hs).
    exists b', f', d', o'. split_and!; [done..|]. simpl in *. set_solver.
  - destruct (IH back done on_stack ((n, it) :: rest) fin Hfu') as (b' & f' & d' & o' & HR & Hi' & Hf & Hs).
    { eapply inv_next; [exact Hi|done|auto|].
      apply andb_false_iff in E as [E | E].
      - apply negb_false_iff, bool_decide_eq_true in E. left. by apply (di_done _ _ _ _ _ Hi).
      - unfold pmem in E. apply bool_decide_eq_false in E. right. right. left.
        destruct (pget succs y); [by destruct E|done]. }
    exists b', f', d', o'. split_and!; done.
Qed.

(** *** The result *)

Lemma no_block_out x y : pget succs x = None → ¬ tc dedge x y.
Proof.
  intros Hn Hc. assert (∃ w, dedge x w) as [w Hw] by (inversion Hc; eauto).
  unfold dedge, out_of in Hw. rewrite Hn in Hw. by apply elem_of_nil in Hw.
Qed.

Lemma fin_later fin l1 x l2 y : fin_done [] fin → fin = l1 ++ x :: l2 → tc dedge x y →
  y ∈ l2 ∨ pget succs y = None.
Proof.
  intros Hf Hfin Ht. revert l1 l2 Hfin.
  induction Ht as [x y Hxy | x y z Hxy Hyz IH]; intros l1 l2 Hfin;
    (destruct (Hf l1 x l2 Hfin y Hxy) as [Hy | [Hb%elem_of_nil | Hn]]; [|done|]); [auto..| |].
  - apply list_elem_of_split in Hy as (a & b & ->).
    destruct (IH (l1 ++ x :: a) b) as [? | ?]; [by rewrite Hfin, <- app_assoc| |auto].
    left. apply elem_of_app. right. by right.
  - by destruct (no_block_out y z Hn).
Qed.

Lemma dfs_result : ∃ back,
  dfs_loop succs (dfs_fuel succs) [] ∅ {[0]} [(0, out_of 0)] = Ok back ∧
  (∀ x y, (x, y) ∈ back → rtc dedge 0 x ∧ dedge x y ∧ rtc dedge y x) ∧
  (back = [] ↔ ∀ x, rtc dedge 0 x → ¬ tc dedge x x).
Proof.
  assert (dfs_inv [] ∅ {[0]} [(0, out_of 0)] []) as H0.
  { split.
    - by split_and!.
    - intros x. simpl. by rewrite elem_of_singleton, list_elem_of_singleton.
    - intros x. by rewrite elem_of_empty, elem_of_nil.
    - apply NoDup_singleton.
    - by intros x y ?%elem_of_nil.
    - by split; [|].
    - intros [|? ?] x l2 Heq; discriminate Heq.
    - by intros x ?%elem_of_nil. }
  assert (Nat.le (todo ∅ {[0]} [(0, out_of 0)]) (dfs_fuel succs)) as Hfu.
  { unfold todo, dfs_fuel, out_of. simpl. destruct (pget succs 0) as [l|] eqn:E; simpl.
    - pose proof (sum_remove (λ _, True) (λ x, x.1 ∉ (∅ : gset Z) ∧ x.1 ∉ ({[0]} : gset Z)) 0 l E I) as Hsum.
      assert (filter (λ _, True) succs = succs) as Hall
        by (clear; induction succs as [|x d IH]; [done|]; by rewrite filter_cons, decide_True, IH).
      rewrite Hall in Hsum. rewrite Hsum; [|set_solver|intros x Hx; set_solver].
      match goal with |- Nat.le (?a + _) (S (S (?b + _))) => assert (a = b) as -> end;
        [by do 2 f_equal; apply filter_same|lia].
    - etrans; [apply Nat.add_le_mono_r, sum_filter_le|lia]. }
  destruct (dfs_run _ _ _ _ _ _ Hfu H0) as (back & fin & dn & on & HR & Hi & _ & Hs).
  exists back. split; [exact HR|]. split; [by apply (di_back _ _ _ _ _ Hi)|]. split.
  - intros -> x Hx Hc.
    assert (x ∈ fin ∨ pget succs x = None) as [Hin | Hn].
    { destruct (proj1 (rtc_tc _ _) Hx) as [<- | Ht]; [left; apply Hs; left|].
      destruct (list_elem_of_split _ _ (Hs 0 ltac:(left))) as (l1 & l2 & Hfin).
      destruct (fin_later fin l1 0 l2 x (di_fin _ _ _ _ _ Hi) Hfin Ht); [left|auto].
      rewrite Hfin. apply elem_of_app. right. by right. }
    + apply list_elem_of_split in Hin as (l1 & l2 & Hfin).
      destruct (fin_later fin l1 x l2 x (di_fin _ _ _ _ _ Hi) Hfin Hc) as [Hin | Hn].
      * pose proof (di_nodup _ _ _ _ _ Hi) as Hnd. simpl in Hnd. rewrite Hfin in Hnd.
        apply NoDup_app in Hnd as (_ & _ & Hnd). apply NoDup_cons in Hnd as [Hno _]. by apply Hno.
      * by apply (no_block_out x x).
    + by apply (no_block_out x x).
  - intros Hac. destruct back as [|[x y] back]; [done|]. exfalso.
    destruct (di_back _ _ _ _ _ Hi x y ltac:(left)) as (H0x & Hxy & Hyx).
    apply (Hac x H0x). by eapply tc_rtc_r; [apply tc_once|].
Qed.
End dfs.

(** The successors the search follows. *)
Definition follows (blocks : list BlockFact) (x y : Z) : Prop := y ∈ out_of (succs_table blocks) x.

Lemma succs_table_keys blocks : NoDup (map fst (succs_table blocks)).
Proof.
  unfold succs_table. apply (fold_left_ind _ (λ _ d, NoDup (map fst d))); [constructor|].
  intros pre b d _ Hd. by apply pset_NoDup.
Qed.

(** The back edges of the report are its cycles: the search always ends, every
    back edge closes a cycle that can be reached from the entry, and there is none
    exactly when no block reachable from the entry can reach itself: [acyclic]. *)
Theorem back_edges_exact blocks : ∃ back, _back_edges blocks = Ok back ∧
  (∀ x y, (x, y) ∈ back → rtc (follows blocks) 0 x ∧ follows blocks x y ∧ rtc (follows blocks) y x) ∧
  (back = [] ↔ ∀ x, rtc (follows blocks) 0 x → ¬ tc (follows blocks) x x).
Proof. exact (dfs_result (succs_table blocks) (succs_table_keys blocks)). Qed.

(** ** Return codes *)

(** A value a phi can stand for: a leaf of the phis nested in it. *)
Inductive leaf : val → val → Prop :=
| leaf_self v : is_join v = false → leaf v v
| leaf_join o j v x : v ∈ j_values j → leaf v x → leaf (VJoin o j) x.

(** The values met on the way. *)
Inductive part : val → val → Prop :=
| part_self v : part v v
| part_join o j v x : v ∈ j_values j → part v x → part (VJoin o j) x.

Lemma part_trans x y z : part x y → part y z → part x z.
Proof. induction 1; intros; [done|]. eapply part_join; eauto. Qed.

Fixpoint height (v : val) : nat :=
  match v with VJoin _ j => S (list_max (map height (j_values j))) | _ => O end.

Lemma height_child o j v : v ∈ j_values j → (height v < height (VJoin o j))%nat.
Proof.
  intros Hv. simpl. apply Nat.lt_succ_r.
  pose proof (proj1 (list_max_le (map height (j_values j)) _) (Nat.le_refl _)) as Hall.
  rewrite Forall_forall in Hall. apply Hall. apply (list_elem_of_fmap_2 height _ _ Hv).
Qed.

(** Every leaf is a number of [C]. *)
Definition complete (C : gset Z) (v : val) : Prop :=
  ∀ x, leaf v x → ∃ o n s i, x = VNum o n s i ∧ n ∈ C.

Lemma complete_mono C C' v : C ⊆ C' → complete C v → complete C' v.
Proof. intros HC Hv x Hx. destruct (Hv x Hx) as (o & n & s & i & -> & Hn). exists o, n, s, i. set_solver. Qed.

(** The loop over the values of a phi. *)
Fixpoint leaves_all (out : gset Z) (l : list val) (seen : gset Z) : option (gset Z) * gset Z :=
  match l with
  | [] => (Some out, seen)
  | v :: l' => match _leaves v seen with
               | (None, seen) => (None, seen)
               | (Some sub, seen) => leaves_all (out ∪ sub) l' seen
               end
  end.

Lemma leaves_join o j seen : o ∉ seen → _leaves (VJoin o j) seen = leaves_all ∅ (j_values j) ({[o]} ∪ seen).
Proof.
  intros Ho. simpl. rewrite bool_decide_false by done. generalize ({[o]} ∪ seen), (∅ : gset Z).
  induction (j_values j) as [|v l IH]; intros s out; [done|]. simpl.
  destruct (_leaves v s) as [[sub|] s']; [apply IH|done].
Qed.

Section leaves.
Context (e : val).
Hypothesis Hid : ∀ x y, part e x → part e y → oid x = oid y → x = y.

(** The objects seen: those being visited, all higher, and finished ones. *)
Definition visited (seen A C : gset Z) : Prop :=
  ∀ a x, a ∈ seen → part e x → oid x = a → a ∈ A ∨ complete C x.
Definition above (A : gset Z) (v : val) : Prop :=
  ∀ a x, a ∈ A → part e x → oid x = a → (height v < height x)%nat.

Definition leaves_spec (r : option (gset Z) * gset Z) (l : list val) (seen A C : gset Z) : Prop :=
  match r with
  | (Some D, seen') => (∀ v, v ∈ l → complete (C ∪ D) v) ∧ seen ⊆ seen' ∧ visited seen' A (C ∪ D) ∧
      ∀ n, n ∈ D → ∃ v o s i, v ∈ l ∧ leaf v (VNum o n s i)
  | (None, _) => ∃ v x, v ∈ l ∧ leaf v x ∧ is_num x = false
  end.

Lemma leaves_list l A : (∀ v, v ∈ l → part e v) → (∀ v, v ∈ l → above A v) →
  (∀ v, v ∈ l → ∀ seen C, visited seen A C → leaves_spec (_leaves v seen) [v] seen A C) →
  ∀ out seen C, visited seen A (C ∪ out) →
    match leaves_all out l seen with
    | (Some D, seen') => out ⊆ D ∧ (∀ v, v ∈ l → complete (C ∪ D) v) ∧ seen ⊆ seen' ∧ visited seen' A (C ∪ D) ∧
        ∀ n, n ∈ D → n ∈ out ∨ ∃ v o s i, v ∈ l ∧ leaf v (VNum o n s i)
    | (None, _) => ∃ v x, v ∈ l ∧ leaf v x ∧ is_num x = false
    end.
Proof.
  intros Hp Ha Hl. induction l as [|v l IH]; intros out seen C Hv; simpl.
  { split; [done|]. split; [by intros v ?%elem_of_nil|]. split; [done|]. split; [done|]. auto. }
  pose proof (Hl v ltac:(left) seen (C ∪ out) Hv) as H1.
  destruct (_leaves v seen) as [[sub|] seen1].
  2:{ destruct H1 as (v' & x & ->%list_elem_of_singleton & Hx & Hn). exists v, x. split; [left|done]. }
  destruct H1 as (Hc & Hs & Hv1 & Hsub).
  specialize (IH ltac:(intros; apply Hp; by right) ltac:(intros; apply Ha; by right)
    ltac:(intros; apply Hl; [by right|done]) (out ∪ sub) seen1 C).
  rewrite <- (assoc_L (∪)) in Hv1. specialize (IH Hv1).
  destruct (leaves_all (out ∪ sub) l seen1) as [[D|] seen2].
  - destruct IH as (Hout & HC & Hs2 & Hv2 & Hn). split; [set_solver|]. split; [|split; [set_solver|split; [done|]]].
    + intros w [-> | Hw]%elem_of_cons; [|by apply HC].
      eapply complete_mono; [|apply Hc; left]. set_solver.
    + intros n Hin. destruct (Hn n Hin) as [[? | Hnsub]%elem_of_union | (w & o & s & i & Hw & Hx)]; [auto| |].
      * right. destruct (Hsub n Hnsub) as (w & o & s & i & ->%list_elem_of_singleton & Hx).
        exists v, o, s, i. split; [left|done].
      * right. exists w, o, s, i. split; [by right|done].
  - destruct IH as (w & x & Hw & Hx & Hn). exists w, x. split; [by right|done].
Qed.

Lemma leaves_ok n v : (height v < n)%nat → part e v → ∀ A seen C, above A v → visited seen A C →
  leaves_spec (_leaves v seen) [v] seen A C.
Proof.
  revert v. induction n as [|n IH]; intros v Hn Hp A seen C Ha Hv; [lia|].
  assert (∀ P : val → Prop, P v → ∀ w, w ∈ [v] → P w) as Hsing by (intros P HP w ->%list_elem_of_singleton; done).
  destruct (is_none v) eqn:En.
  { destruct v; try discriminate En. simpl. exists VNone, VNone. split; [left|]. split; [by apply leaf_self|done]. }
  destruct (decide (oid v ∈ seen)) as [Hin | Hnin].
  { assert (_leaves v seen = (Some ∅, seen)) as -> by (destruct v; try discriminate En; simpl; by rewrite bool_decide_true).
    simpl. rewrite (right_id_L ∅ (∪)). split; [|split; [done|split; [done|by intros ? ?%elem_of_empty]]].
    apply Hsing. destruct (Hv (oid v) v Hin Hp eq_refl) as [HA | ?]; [|done].
    specialize (Ha (oid v) v HA Hp eq_refl). lia. }
  destruct (is_join v) eqn:Ej.
  - destruct v as [| |o j| | | | | | | | | | | | | | |]; try discriminate Ej. simpl in Hnin.
    rewrite leaves_join by done.
    assert (∀ w, w ∈ j_values j → part e w) as Hpc.
    { intros w Hw. eapply part_trans; [exact Hp|]. by eapply part_join; [|apply part_self]. }
    assert (visited ({[o]} ∪ seen) ({[o]} ∪ A) (C ∪ ∅)) as Hv1.
    { intros a x [->%elem_of_singleton | Hx]%elem_of_union Hpx Hox; [left; set_solver|].
      destruct (Hv a x Hx Hpx Hox) as [? | Hc]; [left; set_solver|right].
      eapply complete_mono; [|exact Hc]. set_solver. }
    assert (∀ w, w ∈ j_values j → above ({[o]} ∪ A) w) as Hab.
    { intros w Hw a x Hax Hpx Hox. pose proof (height_child o j w Hw) as Hlt.
      apply elem_of_union in Hax as [->%elem_of_singleton | Hax].
      - assert (x = VJoin o j) as -> by (by apply Hid). done.
      - specialize (Ha a x Hax Hpx Hox). lia. }
    pose proof (leaves_list (j_values j) ({[o]} ∪ A) Hpc Hab) as HL.
    specialize (HL ltac:(intros w Hw s' C' Hs'; apply IH; [pose proof (height_child o j w Hw); lia|by apply Hpc|by apply Hab|done])).
    specialize (HL ∅ ({[o]} ∪ seen) C Hv1).
    destruct (leaves_all ∅ (j_values j) ({[o]} ∪ seen)) as [[D|] seen'].
    + destruct HL as (_ & HC & Hs & Hv' & Hnum).
      assert (complete (C ∪ D) (VJoin o j)) as Hcv.
      { intros x Hx. inversion Hx as [? Hnj | ? ? w ? Hw Hwx]; subst; [discriminate Hnj|]. by apply (HC w). }
      split; [by apply Hsing|]. split; [set_solver|]. split.
      * intros a x Hax Hpx Hox. destruct (Hv' a x Hax Hpx Hox) as [[->%elem_of_singleton | ?]%elem_of_union | ?]; auto.
        right. assert (x = VJoin o j) as -> by (by apply Hid). done.
      * intros k Hk. destruct (Hnum k Hk) as [?%elem_of_empty | (w & o' & s & i & Hw & Hx)]; [done|].
        exists (VJoin o j), o', s, i. split; [left|]. by eapply leaf_join.
    + destruct HL as (w & x & Hw & Hx & Hnx). exists (VJoin o j), x. split; [left|]. split; [by eapply leaf_join|done].
  - assert (leaf v v) as Hlv by by apply leaf_self.
    destruct (is_num v) eqn:Enum.
    + destruct v as [| | | | | | | | | | | | |o k s i| | | |]; try discriminate Enum. simpl in *.
      rewrite bool_decide_false by done. simpl.
      assert (complete (C ∪ {[k]}) (VNum o k s i)) as Hcv.
      { intros x Hx. inversion Hx; subst. exists o, k, s, i. set_solver. }
      split; [by apply Hsing|]. split; [set_solver|]. split.
      * intros a x [->%elem_of_singleton | Hax]%elem_of_union Hpx Hox.
        -- right. assert (x = VNum o k s i) as -> by (by apply Hid). done.
        -- destruct (Hv a x Hax Hpx Hox) as [? | Hc]; [auto|right]. eapply complete_mono; [|exact Hc]. set_solver.
      * intros n' ->%elem_of_singleton. exists (VNum o k s i), o, s, i. split; [left|done].
    + assert (∃ seen', _leaves v seen = (None, seen')) as [seen' ->].
      { destruct v; try discriminate; simpl; rewrite bool_decide_false by done; eauto. }
      exists v, v. split; [left|]. by split.
Qed.
End leaves.

(** Different values are different objects. *)
Definition coherent (e : val) : Prop := ∀ x y, part e x → part e y → oid x = oid y → x = y.

(** Every phi takes one of its values. *)
Definition picks (w : world) (e : val) : Prop :=
  ∀ o j, part e (VJoin o j) → ∃ v, v ∈ j_values j ∧ den w (VJoin o j) = den w v.

Lemma picks_child w o j v : picks w (VJoin o j) → v ∈ j_values j → picks w v.
Proof. intros Hp Hv o' j' Hpart. apply Hp. by eapply part_join. Qed.

Lemma picked_leaf w n e : (height e < n)%nat → picks w e → ∃ x, leaf e x ∧ den w e = den w x.
Proof.
  revert e. induction n as [|n IH]; intros e Hn Hp; [lia|].
  destruct (is_join e) eqn:Ej; [|exists e; split; [by apply leaf_self|done]].
  destruct e as [| |o j| | | | | | | | | | | | | | |]; try discriminate Ej.
  destruct (Hp o j (part_self _)) as (v & Hv & Hden).
  pose proof (height_child o j v Hv) as Hlt.
  destruct (IH v ltac:(lia) (picks_child w o j v Hp Hv)) as (x & Hx & Hdx).
  exists x. split; [by eapply leaf_join|congruence].
Qed.

(** The codes of a value, from the search of the whole of it. *)
Lemma leaves_exact e : coherent e →
  match (_leaves e ∅).1 with
  | Some codes => complete codes e ∧ ∀ n, n ∈ codes → ∃ o s i, leaf e (VNum o n s i)
  | None => ∃ x, leaf e x ∧ is_num x = false
  end.
Proof.
  intros Hco.
  pose proof (leaves_ok e Hco (S (height e)) e ltac:(lia) (part_self e) ∅ ∅ ∅) as H.
  specialize (H ltac:(by intros a x ?%elem_of_empty) ltac:(by intros a x ?%elem_of_empty)).
  destruct (_leaves e ∅) as [[codes|] seen]; simpl in *.
  - destruct H as (HC & _ & _ & Hn). rewrite (left_id_L ∅ (∪)) in HC. split; [apply HC; left|].
    intros n Hin. destruct (Hn n Hin) as (v & o & s & i & ->%list_elem_of_singleton & Hx). eauto.
  - destruct H as (v & x & ->%list_elem_of_singleton & Hx). eauto.
Qed.

Lemma sorted_codes_elem s n : n ∈ sorted_codes s ↔ n ∈ s.
Proof. unfold sorted_codes. by rewrite merge_sort_Permutation, elem_of_elements. Qed.

(** The constant return codes of an exit are exact: when they are known, they are
    listed once each in order, they are exactly the numbers the return value's phis
    can end in, nothing else can be returned, and whatever values the phis take the
    program returns one of them; they are left unknown only when some phi can end in
    a value that is no constant, or in none. *)
Theorem ret_codes_exact e : coherent e →
  match _ret_codes e with
  | Some l => l ≠ [] ∧ Sorted Z.le l ∧ NoDup l ∧
      (∀ n, n ∈ l ↔ ∃ o s i, leaf e (VNum o n s i)) ∧ (∀ x, leaf e x → is_num x = true) ∧
      ∀ w, picks w e → ∃ o n s i, leaf e (VNum o n s i) ∧ n ∈ l ∧ den w e = wrap (8 * s) n
  | None => (∃ x, leaf e x ∧ is_num x = false) ∨ ∀ x, ¬ leaf e x
  end.
Proof.
  intros Hco. pose proof (leaves_exact e Hco) as Hl. unfold _ret_codes.
  destruct (_leaves e ∅).1 as [codes|]; [|by left].
  destruct Hl as [Hc Hn]. case_bool_decide as Hemp.
  { right. intros x Hx. destruct (Hc x Hx) as (? & n & ? & ? & _ & Hin). set_solver. }
  split; [|split; [|split; [|split; [|split]]]].
  - intros Hnil. apply Hemp. apply leibniz_equiv. intros n.
    rewrite <- sorted_codes_elem, Hnil, elem_of_nil. set_solver.
  - apply Sorted_merge_sort. intros x y. lia.
  - unfold sorted_codes. rewrite merge_sort_Permutation. apply NoDup_elements.
  - intros n. rewrite sorted_codes_elem. split; [apply Hn|].
    intros (o & s & i & Hx). destruct (Hc _ Hx) as (? & ? & ? & ? & [= <- <- <- <-] & Hin). done.
  - intros x Hx. by destruct (Hc x Hx) as (? & ? & ? & ? & -> & _).
  - intros w Hp. destruct (picked_leaf w (S (height e)) e ltac:(lia) Hp) as (x & Hx & Hd).
    destruct (Hc x Hx) as (o & n & s & i & -> & Hin). exists o, n, s, i.
    split; [done|]. split; [by apply sorted_codes_elem|]. by rewrite Hd.
Qed.

(** A phi of XDP_PASS and of a phi of XDP_PASS and XDP_DROP. *)
Definition two_nums : list val := [VNum 1 2 4 (-1); VNum 2 1 4 (-1)].
Definition inner_phi : val := VJoin 3 (mk_join 8 (-1) 4 0 two_nums []).
Definition outer_phi : val := VJoin 4 (mk_join 8 (-1) 5 0 [VNum 1 2 4 (-1); inner_phi] []).
Definition outer_parts : list val := [outer_phi; VNum 1 2 4 (-1); inner_phi; VNum 2 1 4 (-1)].

Lemma outer_parts_all x : part outer_phi x → x ∈ outer_parts.
Proof.
  unfold outer_parts. rewrite !elem_of_cons. intros H.
  repeat match goal with
  | H : part (VNum _ _ _ _) _ |- _ => inversion H; subst; clear H
  | H : part outer_phi _ |- _ => inversion H; subst; clear H
  | H : part inner_phi _ |- _ => inversion H; subst; clear H
  | H : _ ∈ _ |- _ => simpl in H; unfold two_nums in H; rewrite ?elem_of_cons, ?elem_of_nil in H; destruct_or?; subst; try done
  end; tauto.
Qed.

Lemma outer_coherent : coherent outer_phi.
Proof.
  intros x y Hx%outer_parts_all Hy%outer_parts_all Ho. unfold outer_parts in *. rewrite !elem_of_cons, elem_of_nil in *.
  destruct_or?; subst; try done; vm_compute in Ho; discriminate Ho.
Qed.

Lemma ret_codes_exact_witness : coherent outer_phi ∧ _ret_codes outer_phi = Some [1; 2] ∧
  Sorted Z.le [1; 2] ∧ (∀ n, n ∈ [1; 2] ↔ ∃ o s i, leaf outer_phi (VNum o n s i)).
Proof.
  pose proof (ret_codes_exact outer_phi outer_coherent) as H.
  assert (_ret_codes outer_phi = Some [1; 2]) as E by (vm_compute; reflexivity).
  rewrite E in H. destruct H as (_ & Hs & _ & Hn & _).
  split; [exact outer_coherent|]. split; [exact E|]. split; [exact Hs|exact Hn].
Defined.

(** ** The facts of an analysed program *)

(** The shape of a block the facts keep. *)
Definition shape (b : Block) := (num b, succ_t b, succ_f b).
Definition bf_shape (b : BlockFact) := (bf_num b, bf_succ_t b, bf_succ_f b).

Lemma block_fact_shape names b bf : _block_fact names b = Ok bf → bf_shape bf = shape b.
Proof.
  unfold _block_fact. intros HE. apply bind_Ok in HE as (ret & _ & HE). apply bind_Ok in HE as (c & _ & HE).
  by apply bind_Ok in HE as (text & _ & [= <-]).
Qed.

Lemma collect_call_blocks l s : co_blocks (fold_left collect_call l s) = co_blocks s.
Proof. revert s. induction l as [|c l IH]; intros s; [done|]. simpl. by rewrite IH. Qed.

Lemma collect_block_shape names s b s' : collect_block names s b = Ok s' →
  bf_shape <$> co_blocks s' = (bf_shape <$> co_blocks s) ++ [shape b].
Proof.
  unfold collect_block. intros HE. apply bind_Ok in HE as (bf & Hb & [= <-]). cbn [co_blocks].
  rewrite collect_call_blocks. cbn [co_blocks]. rewrite fmap_app. simpl. by rewrite (block_fact_shape _ _ _ Hb).
Qed.

Lemma collect_blocks_shape names blocks s s' : foldR (collect_block names) s blocks = Ok s' →
  bf_shape <$> co_blocks s' = (bf_shape <$> co_blocks s) ++ (shape <$> blocks).
Proof.
  apply (foldR_ind _ (λ pre s', bf_shape <$> co_blocks s' = (bf_shape <$> co_blocks s) ++ (shape <$> pre))).
  - by rewrite app_nil_r.
  - intros pre b s1 s2 _ IH HE. rewrite (collect_block_shape _ _ _ _ HE), IH, fmap_app. by rewrite <- app_assoc.
Qed.

Lemma collect_region_shape names blocks s r s' : collect_region names blocks s r = Ok s' →
  bf_shape <$> s'.2 = bf_shape <$> s.2.
Proof.
  destruct s as [[progs maps] bfs]. unfold collect_region. destruct (is_main r); [by intros [= <-]|].
  intros HE. apply bind_Ok in HE as (eb & _ & [= <-]). simpl. destruct (_ && _); [|done].
  rewrite (list_fmap_alter bf_shape (set_bf_entry (r_name r)) id); [by apply list_alter_id|by apply Forall_true].
Qed.

Lemma collect_shape prog f : collect prog = Ok f →
  bf_shape <$> f_blocks f = shape <$> p_blocks prog ∧ _back_edges (f_blocks f) = Ok (f_back_edges f).
Proof.
  unfold collect. intros HE. apply bind_Ok in HE as (s & Hs & HE).
  apply bind_Ok in HE as ([[progs maps] bfs] & Hr & HE). apply bind_Ok in HE as (back & Hb & HE).
  apply bind_Ok in HE as (exits & _ & [= <-]). cbn [f_blocks f_back_edges]. split; [|done].
  pose proof (collect_blocks_shape _ _ _ _ Hs) as H0. simpl in H0. rewrite <- H0.
  refine (foldR_ind _ (λ _ x, bf_shape <$> x.2 = bf_shape <$> co_blocks s) _ _ _ _ _ Hr); [done|].
  intros pre r x y _ IH HE. exact (eq_trans (collect_region_shape _ _ _ _ _ HE) IH).
Qed.

(** The table of successors of blocks that are each at their number. *)
Lemma succs_table_numbered blocks : (∀ k b, blocks !! k = Some b → bf_num b = Z.of_nat k) →
  ∀ x y, follows blocks x y ↔ 0 <= x ∧ ∃ b, blocks !! Z.to_nat x = Some b ∧ y ∈ succs_of b.
Proof.
  intros Hnum x y. unfold follows, out_of.
  assert (pget (succs_table blocks) x = if decide (0 <= x) then succs_of <$> blocks !! Z.to_nat x else None) as ->.
  { revert Hnum. unfold succs_table. induction blocks as [|b l IH] using rev_ind; intros Hnum.
    { simpl. by case_decide. }
    rewrite fold_left_app. simpl. rewrite pget_pset, IH.
    2: { intros k c Hk. apply Hnum. by rewrite lookup_app_l; [|apply lookup_lt_Some in Hk]. }
    assert (bf_num b = Z.of_nat (length l)) as -> by (apply Hnum; by rewrite list_lookup_middle).
    repeat case_decide; subst; try lia; [by rewrite Nat2Z.id, list_lookup_middle| |done].
    destruct (decide (Z.to_nat x < length l)%nat); [by rewrite lookup_app_l|].
    rewrite !lookup_ge_None_2; [done|rewrite length_app; simpl; lia|lia]. }
  case_decide; [|simpl; rewrite elem_of_nil; naive_solver].
  destruct (blocks !! Z.to_nat x) as [b|]; simpl; [naive_solver|rewrite elem_of_nil; naive_solver].
Qed.

Lemma collect_follows prog f : has_graph prog → collect prog = Ok f →
  ∀ x y, follows (f_blocks f) x y ↔ edge_to (p_blocks prog) x y.
Proof.
  intros Hg Hf x y. destruct (collect_shape _ _ Hf) as [Hs _].
  destruct (graph_blocks _ Hg) as (_ & _ & Hnum & _).
  assert (∀ k b, f_blocks f !! k = Some b → ∃ c, p_blocks prog !! k = Some c ∧ bf_shape b = shape c) as Hl.
  { intros k b Hb. assert ((bf_shape <$> f_blocks f) !! k = Some (bf_shape b)) as H by (by rewrite list_lookup_fmap, Hb).
    rewrite Hs, list_lookup_fmap in H. apply fmap_Some in H as (c & ? & ?). eauto. }
  assert (∀ k c, p_blocks prog !! k = Some c → ∃ b, f_blocks f !! k = Some b ∧ bf_shape b = shape c) as Hr.
  { intros k c Hc. assert ((shape <$> p_blocks prog) !! k = Some (shape c)) as H by (by rewrite list_lookup_fmap, Hc).
    rewrite <- Hs, list_lookup_fmap in H. apply fmap_Some in H as (b & ? & ?). eauto. }
  assert (∀ b c, bf_shape b = shape c → y ∈ succs_of b ↔ y ∈ successors c) as Hsu.
  { intros b c Heq. unfold bf_shape, shape in Heq. injection Heq as _ Ht Hfa.
    rewrite elem_successors. unfold succs_of. rewrite Ht, Hfa.
    destruct (succ_t c), (succ_f c); simpl; rewrite ?elem_of_cons, ?elem_of_nil; naive_solver. }
  rewrite succs_table_numbered.
  2: { intros k b Hb. destruct (Hl k b Hb) as (c & Hc & Heq). rewrite <- (Hnum k c Hc).
       unfold bf_shape, shape in Heq. by injection Heq. }
  unfold edge_to. split; intros [H0 (b & Hb & Hy)]; (split; [done|]).
  - destruct (Hl _ _ Hb) as (c & Hc & Heq). exists c. split; [done|]. by apply (Hsu b c).
  - destruct (Hr _ _ Hb) as (c & Hc & Heq). exists c. split; [done|]. by apply (Hsu c b).
Qed.

(** The tracker took a block after those that lead to it, block 0 first. *)
Lemma tracked_order oid0 p : has_graph p → is_tracked oid0 p → ∃ order, NoDup order ∧
  ∀ x y, y ≠ 0 → edge_to (p_blocks p) x y → 0 <= y < Z.of_nat (length (p_blocks p)) →
    ∃ i j, order !! i = Some x ∧ order !! j = Some y ∧ (i < j)%nat.
Proof.
  intros Hg (bs & HT & Hpl & _). destruct (graph_blocks _ Hg) as (_ & _ & _ & _ & Hpre).
  destruct (track_run _ _ _ _ HT) as (_ & _ & order & Hperm & Hord & _). simpl in *.
  assert (length bs = length (p_blocks p)) as Hlen by (apply (f_equal length) in Hpl; by rewrite !length_fmap in Hpl).
  set (N := Z.of_nat (length bs)) in *.
  assert (NoDup (0 :: order)) as Hnd by (rewrite Hperm; apply NoDup_seqZ).
  assert (∀ x, x ∈ 0 :: order ↔ 0 <= x < N) as Hin by (intros x; rewrite Hperm; unfold zrange; rewrite elem_of_seqZ; lia).
  exists (0 :: order). split; [done|]. intros x y Hy Hxy Hyr.
  assert (y ∈ order) as [k Hk]%list_elem_of_lookup by (assert (y ∈ 0 :: order) as H by (apply Hin; lia); by apply elem_of_cons in H as [-> | ?]).
  destruct (Hord k y Hk) as (bl & b0 & Htr & Hp0).
  destruct (tracked_place _ _ _ _ _ Htr) as (b & Hb & Hplace).
  assert (0 <= x < N) as Hx.
  { destruct Hxy as [? (s & Hs & _)]. apply lookup_lt_Some in Hs. unfold N. lia. }
  assert (x ∈ preds b0) as Hxp.
  { assert (preds b0 = preds b) as -> by (unfold place in Hplace; by injection Hplace).
    apply (Hpre y b x); [lia|done|done]. }
  destruct (Hp0 x Hxp ltac:(lia)) as [_ [Hno | Htake]].
  - assert (x = 0) as ->.
    { destruct (decide (x = 0)) as [|Hne]; [done|]. exfalso. apply Hno. unfold zrange. rewrite elem_of_seqZ. lia. }
    exists 0%nat, (S k). split; [done|]. split; [done|lia].
  - apply list_elem_of_lookup in Htake as [i Hi]. pose proof Hi as Hlt. apply lookup_lt_Some in Hlt.
    rewrite length_take in Hlt. rewrite lookup_take_lt in Hi by lia.
    exists (S i), (S k). split; [done|]. split; [done|lia].
Qed.

(** A cycle of a tracked program goes through block 0. *)
Lemma tracked_cycle oid0 p : has_graph p → is_tracked oid0 p →
  ∀ x y, tc (edge_to (p_blocks p)) x y → tc (edge_to (p_blocks p)) y x →
    ∃ z, rtc (edge_to (p_blocks p)) x z ∧ edge_to (p_blocks p) z 0.
Proof.
  intros Hg Ht. destruct (tracked_order _ _ Hg Ht) as (order & Hnd & Hord).
  assert (∀ x y, tc (edge_to (p_blocks p)) x y → (∃ z, edge_to (p_blocks p) y z) →
    (∃ z, rtc (edge_to (p_blocks p)) x z ∧ edge_to (p_blocks p) z 0) ∨
    ∃ i j, order !! i = Some x ∧ order !! j = Some y ∧ (i < j)%nat) as H.
  { assert (∀ x y, edge_to (p_blocks p) x y → (∃ z, edge_to (p_blocks p) y z) → y = 0 ∨
      ∃ i j, order !! i = Some x ∧ order !! j = Some y ∧ (i < j)%nat) as Hone.
    { intros x y Hxy [z [Hy (s & Hs & _)]]. destruct (decide (y = 0)) as [|Hne]; [by left|right].
      apply Hord; [done|done|]. apply lookup_lt_Some in Hs. lia. }
    intros x y Hxy Hy. induction Hxy as [x y Hxy | x y z Hxy Hyz IH].
    { destruct (Hone x y Hxy Hy) as [-> | ?]; [left; by exists x|by right]. }
    destruct (IH Hy) as [(u & Hu & H0) | (i & j & Hi & Hj & Hij)].
    { left. exists u. split; [by eapply rtc_l|done]. }
    destruct (Hone x y Hxy) as [-> | (a & b & Ha & Hb & Hab)]; [inversion Hyz; eauto|left; by exists x|].
    right. pose proof (NoDup_lookup _ _ _ _ Hnd Hb Hi). exists a, j. split; [done|]. split; [done|lia]. }
  intros x y Hxy Hyx. pose proof (tc_transitive _ _ _ Hxy Hyx) as Hxx.
  destruct (H x x Hxx) as [? | (i & j & Hi & Hj & Hij)]; [inversion Hxx; eauto|done|].
  pose proof (NoDup_lookup _ _ _ _ Hnd Hi Hj). lia.
Qed.

(** C39 Of an analysed program the facts say whether it can be verified: they are
    acyclic exactly when no block that the entry leads to goes back to the entry.
    Every other loop has already been refused by the tracker. *)
Theorem facts_acyclic open depth oid0 file main ts p p' f :
  rtc (stage_step open depth oid0) (new_program file main ts) p → analyze open depth oid0 p = Ok p' →
  collect p' = Ok f →
  (acyclic f = true ↔ ∀ x, rtc (edge_to (p_blocks p')) 0 x → ¬ edge_to (p_blocks p') x 0) ∧
  (acyclic f = true → ∀ x, rtc (edge_to (p_blocks p')) 0 x → ¬ tc (edge_to (p_blocks p')) x x).
Proof.
  intros HR HA Hf.
  destruct (analyze_consistent _ _ _ _ _ (reachable_consistent _ _ _ _ _ _ _ HR) HA) as ((_ & Hg & Ht) & Hall & _).
  specialize (Hg (Hall CfgStage)). specialize (Ht (Hall Track)).
  destruct (collect_shape _ _ Hf) as [_ Hb]. pose proof (collect_follows _ _ Hg Hf) as Hfo.
  destruct (dfs_result _ (succs_table_keys (f_blocks f))) as (back & Hback & _ & Hnil).
  assert (back = f_back_edges f) as -> by (unfold _back_edges, out_of in *; congruence).
  assert (acyclic f = true ↔ ∀ x, rtc (edge_to (p_blocks p')) 0 x → ¬ tc (edge_to (p_blocks p')) x x) as Hac.
  { unfold acyclic. rewrite bool_decide_eq_true, Hnil. split; intros H x Hx Hc; apply (H x);
      first [apply (rtc_congruence id _ 0 x (λ a b, proj2 (Hfo a b))) | apply (rtc_congruence id _ 0 x (λ a b, proj1 (Hfo a b)))
        | apply (tc_congruence id _ x x (λ a b, proj2 (Hfo a b))) | apply (tc_congruence id _ x x (λ a b, proj1 (Hfo a b)))]; done. }
  split; [|by apply Hac]. rewrite Hac. split.
  - intros H x Hx H0. apply (H 0); [apply rtc_refl|]. by eapply tc_rtc_l; [|apply tc_once].
  - intros H x Hx Hc. destruct (tracked_cycle _ _ Hg Ht x x Hc Hc) as (z & Hxz & Hz).
    apply (H z); [by etrans|done].
Qed.

(** ** Examples: a program whose graph has no loop, and one the tracker accepts although it loops, to its first instruction *)

(** [do r0 = 2; while (r0 == 3); return r0;]. *)
Definition loop_text : section := mk_section "xdp" (mjoin
  [[0xb7; 0; 0; 0; 2; 0; 0; 0]; [0x15; 0; 0xfe; 0xff; 3; 0; 0; 0]; [0x95; 0; 0; 0; 0; 0; 0; 0]]).
Definition loop_main : elf_symbol := mk_elf_symbol "main" 0 24 (ShNum 0) "STT_FUNC".
Definition loop_sections : list section := [loop_text; mk_section ".symtab" []].

Definition loop_elf : Elf := {|
  iter_sections := loop_sections;
  get_section_by_name := λ n, List.find (λ s, bool_decide (sec_name s = n)) loop_sections;
  get_section := λ i, Ok (match i with ShNum n => loop_sections !! Z.to_nat n | _ => None end);
  iter_symbols := [loop_main];
  get_symbol_by_name := λ n, if bool_decide (n = "main"%string) then Some [loop_main] else None;
  get_symbol := λ _, Ok loop_main;
  iter_relocations := λ _, []
|}.

(** The analysed program and its facts. *)
Definition facts_of (elf : Elf) : res (eBPFProgram * ProgramFacts) :=
  p ← analyze (λ _, elf) 9 1000 run_program;
  f ← collect p;
  Ok (p, f).

(** What the report says of the program of [ProgramExamples]. *)
Example run_facts :
  match facts_of run_elf with
  | Ok (_, f) => (acyclic f, ret_codes f, pkt_positions (f_blocks f), map ef_block (f_exits f))
  | Err _ => (false, None, [], [])
  end = (true, Some [1; 2], [], [1; 2]).
Proof. vm_compute. reflexivity. Qed.

(** The texts of its conditions and of what its exits return. *)
Example run_texts :
  match facts_of run_elf with Ok (_, f) => (map bf_cond (f_blocks f), map ef_ret (f_exits f)) | Err _ => ([], []) end
  = ([Some "(0x32 > (u32) pkt_len())"; None; None], ["0x2"; "0x1"])%string.
Proof. vm_compute. reflexivity. Qed.

Example loop_facts :
  match facts_of loop_elf with Ok (_, f) => (acyclic f, f_back_edges f, ret_codes f) | Err _ => (true, [], None) end
  = (false, [(0, 0)], Some [2]).
Proof. vm_compute. reflexivity. Qed.

(** The theorem applied to both: no block of the first reaches itself, and some block of
    the second goes back to the entry. *)
Lemma facts_acyclic_witness :
  (∃ p f, facts_of run_elf = Ok (p, f) ∧
     ∀ x, rtc (edge_to (p_blocks p)) 0 x → ¬ tc (edge_to (p_blocks p)) x x) ∧
  ∃ p f, facts_of loop_elf = Ok (p, f) ∧
    ¬ ∀ x, rtc (edge_to (p_blocks p)) 0 x → ¬ edge_to (p_blocks p) x 0.
Proof.
  split.
  - destruct (run_test (facts_of run_elf) (λ x, acyclic x.2)) as ([p f] & E & Hc); [vm_compute; reflexivity|].
    simpl in Hc. exists p, f. split; [exact E|]. unfold facts_of in E.
    apply bind_Ok in E as (q & HA & E). apply bind_Ok in E as (g & HF & [= -> ->]).
    by apply (facts_acyclic (λ _, run_elf) 9 1000 _ _ _ _ p f (rtc_refl _ _) HA HF).
  - destruct (run_test (facts_of loop_elf) (λ x, negb (acyclic x.2))) as ([p f] & E & Hc); [vm_compute; reflexivity|].
    simpl in Hc. exists p, f. split; [exact E|]. unfold facts_of in E.
    apply bind_Ok in E as (q & HA & E). apply bind_Ok in E as (g & HF & [= -> ->]).
    intros Hn. apply (facts_acyclic (λ _, loop_elf) 9 1000 _ _ _ _ p f (rtc_refl _ _) HA HF) in Hn.
    by rewrite Hn in Hc.
Defined.
