(* ===== verification/TextSound.v ===== *)
(** The printed form of an expression names exactly the ALU nodes it uses more than once,
    each defined once from names before it: with the names unfolded it is the expression,
    and its operators are those of the instruction set. *)

From Stdlib Require Import Ascii.
From S2P Require Import Prelude Constants Expr Denote Record Encode Action Prune Pystr Text.

Local Open Scope nat_scope.

(** ** The references are counted to the end *)

Lemma alu_size_pos v : is_alu v = true → 0 < alu_size v.
Proof. destruct v; simpl; intros; try done; lia. Qed.

Lemma alu_size_children v : is_alu v = true → alu_size v = S (list_sum (map alu_size (_alu_children v))).
Proof. destruct v; simpl; intros; try done; lia. Qed.

Definition waiting (s : refs) : nat := list_sum (map alu_size s.2).

Lemma count_children l s : waiting (fold_left count_child l s) <= list_sum (map alu_size l) + waiting s ∧
  (Forall (λ v, is_alu v = true) s.2 → Forall (λ v, is_alu v = true) (fold_left count_child l s).2).
Proof.
  revert s. induction l as [|c l IH]; intros s; [done|]. simpl.
  destruct (IH (count_child s c)) as [Hw Hf].
  assert (waiting (count_child s c) <= alu_size c + waiting s ∧
    (Forall (λ v, is_alu v = true) s.2 → Forall (λ v, is_alu v = true) (count_child s c).2)) as [Hw1 Hf1].
  { destruct s as [[ref seen] stack]. unfold count_child. destruct (is_alu c) eqn:Ec; [|split; [lia|done]].
    case_bool_decide; simpl; (split; [unfold waiting; simpl; lia|auto]). }
  split; [lia|auto].
Qed.

Lemma ref_loop_ends fuel s : Forall (λ v, is_alu v = true) s.2 → waiting s <= fuel →
  ∃ ref, ref_loop fuel s = Ok ref.
Proof.
  revert s. induction fuel as [|fuel IH]; intros [[ref seen] [|n stack]] Hall Hw; simpl in *; eauto;
    apply Forall_cons in Hall as [Hn Hall]; unfold waiting in Hw; simpl in Hw.
  { pose proof (alu_size_pos n Hn). lia. }
  pose proof (count_children (_alu_children n) (ref, seen, stack)) as [Hc Hf].
  apply IH; [by apply Hf|]. pose proof (alu_size_children n Hn). unfold waiting in *. simpl in *. lia.
Qed.

Lemma shared_of_ok v : ∃ sh, shared_of v = Ok sh.
Proof.
  unfold shared_of. destruct (is_alu v) eqn:E; simpl; [|eauto].
  destruct (ref_loop_ends (alu_size v) ([], {[oid v]}, [v])) as [ref ->]; simpl; eauto.
  unfold waiting. simpl. lia.
Qed.

(** ** What is printed *)

Lemma emit_leaf n sh d : is_alu n = false → emit sh n d = (t ← expr_to_str n; Ok (t, d)).
Proof.
  intros Hn. unfold expr_to_str. assert (shared_of n = Ok ∅) as -> by (unfold shared_of; by rewrite Hn).
  cbn [mbind res_bind].
  destruct n; try discriminate Hn; cbn [emit];
    match goal with |- mbind _ ?s = _ => generalize s end; intros [t|e]; reflexivity.
Qed.

(** *** The operators

    What a reader takes an operator or a function for, at a width of [w] bits. *)
Definition c_operator (sym : string) (w a b : Z) : option Z :=
  (pget [("+"%string, wrap w (a + b)); ("-"%string, wrap w (a - b)); ("*"%string, wrap w (a * b));
         ("/"%string, if b =? 0 then 0 else a / b); ("%"%string, if b =? 0 then a else a mod b);
         ("|"%string, Z.lor a b); ("&"%string, Z.land a b); ("^"%string, Z.lxor a b);
         ("<<"%string, wrap w (a * 2 ^ (b mod w))); (">>"%string, a / 2 ^ (b mod w)); (">>s"%string, wrap w (sgn w a / 2 ^ (b mod w)));
         ("NEG"%string, wrap w (- a))] sym)%Z.

Inductive c_function (w n : Z) : string → (Z → Z) → Prop :=
| c_neg : c_function w n "-" (λ x, wrap w (- x))
| c_sext : c_function w n ("sext" +:+ pretty n) (λ x, wrap w (sgn n x))
| c_bswap : c_function w n ("bswap" +:+ pretty n) (λ x, bswap n (wrap n x))
| c_be : c_function w n ("be" +:+ pretty n) (λ x, bswap n (wrap n x))
| c_le : c_function w n ("le" +:+ pretty n) (λ x, wrap n x).

(** The text of a binary node: its width, where it is not 8 bytes, and an operator that does what
    the node does, a signed division or remainder apart, which look like the unsigned ones. *)
Definition binary_says (b : alu_binary_ val) (s1 s2 t : string) : Prop := ∃ cast sym,
  t = cast +:+ "(" +:+ s1 +:+ " " +:+ sym +:+ " " +:+ s2 +:+ ")" ∧
  (if (b_size b =? 8)%Z then cast = "" else cast = "(u" +:+ pretty (b_size b * 8)%Z +:+ ") ") ∧
  ∀ w x y, (b_offset b ≠ 1)%Z →
    c_operator sym w (wrap w x) (wrap w y) = Some (isa_alu (b_op b) w (b_offset b =? 1)%Z x y).

(** The byte-order conversions there are. *)
Definition end_ok (u : alu_unary_ val) : Prop :=
  u_imm u ∈ [16; 32; 64]%Z ∧ u_opcode_s u ∈ [Some S_IMM; Some S_REG].

(** The text of a unary node: a function that does what the node does. *)
Definition unary_says (u : alu_unary_ val) (s t : string) : Prop := ∃ cast form f,
  t = cast +:+ form +:+ "(" +:+ s +:+ ")" ∧
  (if (u_op u =? MOV)%Z && (u_size u =? 4)%Z then cast = "(u32) " else cast = "") ∧
  c_function (reg_bits (u_size u)) (u_imm u) form f ∧
  (u_op u ∈ [NEG; MOV; END] → (u_op u = END → end_ok u) → ∀ x,
    isa_unary (u_op u) (u_imm u) (u_size u) (u_alu64 u || bool_decide (u_opcode_s u = Some S_REG)) x = f x).

Lemma binary_text_says b s1 s2 t : binary_text (b_op b) (b_size b) s1 s2 = Ok t → binary_says b s1 s2 t.
Proof.
  unfold binary_text. intros HE. apply bind_Ok in HE as (sym & Hs%of_option_Ok & [= <-]).
  exists (size_text (b_size b)), sym. split; [done|]. split; [unfold size_text; by destruct (_ =? 8)%Z|].
  intros w x y Ho. rewrite (proj2 (Z.eqb_neq _ _) Ho). apply pget_elem in Hs.
  unfold op_map in Hs. rewrite !elem_of_cons, elem_of_nil in Hs.
  destruct_or? Hs; try done; injection Hs as Hop ->; rewrite Hop; vm_compute c_operator; reflexivity.
Qed.

Lemma unary_text_says u s : unary_says u s (unary_text u s).
Proof.
  unfold unary_says, unary_text. destruct (u_op u =? NEG)%Z eqn:En.
  { apply Z.eqb_eq in En. exists "", "-". eexists. split; [done|]. rewrite En. split; [done|]. split; [constructor|]. done. }
  apply Z.eqb_neq in En. destruct (u_op u =? MOV)%Z eqn:Em; cbn [andb].
  { apply Z.eqb_eq in Em. exists (if (u_size u =? 4)%Z then "(u32) " else ""), ("sext" +:+ pretty (u_imm u)). eexists.
    split; [by destruct (_ =? 4)%Z|]. split; [by destruct (_ =? 4)%Z|]. split; [constructor|]. rewrite Em. done. }
  apply Z.eqb_neq in Em.
  assert (u_op u ∈ [NEG; MOV; END] → (u_op u = END → end_ok u) →
    u_op u = END ∧ existsb (Z.eqb (u_imm u)) [16; 32; 64]%Z = true ∧ u_opcode_s u ∈ [Some S_IMM; Some S_REG]) as Hend.
  { rewrite (elem_of_cons [MOV; END]), (elem_of_cons [END]), list_elem_of_singleton.
    intros [? | [? | E]] Hi; try done. destruct (Hi E) as [H1 H2]. split; [done|]. split; [|done].
    apply existsb_exists. exists (u_imm u). split; [by apply list_elem_of_In|by apply Z.eqb_eq]. }
  exists "". destruct (u_alu64 u) eqn:E64; cbn [orb].
  { exists ("bswap" +:+ pretty (u_imm u)). eexists. split; [done|]. split; [done|]. split; [apply c_bswap|].
    intros Ho Hi x. destruct (Hend Ho Hi) as (-> & Hx & _). unfold isa_unary. simpl Z.eqb. cbn iota. by rewrite Hx. }
  destruct (bool_decide (u_opcode_s u = Some S_IMM)) eqn:Es.
  - apply bool_decide_eq_true in Es. exists ("le" +:+ pretty (u_imm u)). eexists. split; [done|]. split; [done|]. split; [apply c_le|].
    intros Ho Hi x. destruct (Hend Ho Hi) as (-> & Hx & _). unfold isa_unary. simpl Z.eqb. cbn iota. by rewrite Hx, Es.
  - apply bool_decide_eq_false in Es. exists ("be" +:+ pretty (u_imm u)). eexists. split; [done|]. split; [done|]. split; [apply c_be|].
    intros Ho Hi x. destruct (Hend Ho Hi) as (-> & Hx & Hs). unfold isa_unary. simpl Z.eqb. cbn iota. rewrite Hx.
    apply elem_of_cons in Hs as [? | ->%list_elem_of_singleton]; [done|]. done.
Qed.

(** *** The immediates

    They are read back as the numbers they are. *)
Lemma hex_char_reads n : (0 ≤ n < 16)%Z →
  digit_value (hex_char n) = n ∧ is_space (hex_char n) = false ∧ Ascii.eqb (hex_char n) "_"%char = false.
Proof.
  intros Hn. assert (Forall (λ n, digit_value (hex_char n) = n ∧ is_space (hex_char n) = false ∧
    Ascii.eqb (hex_char n) "_"%char = false) (seqZ 0 16)) as H by (apply (bool_decide_unpack _); vm_compute; exact I).
  apply (proj1 (Forall_forall _ _) H), elem_of_seqZ. lia.
Qed.

Lemma hex_go_reads fuel : ∀ n s, (0 ≤ n < 16 ^ Z.of_nat (S fuel))%Z →
  parse_digits 16 0 false (chars (hex_go (S fuel) n s)) = parse_digits 16 n true (chars s) ∧
  (Forall (λ c, is_space c = false) (chars s) → Forall (λ c, is_space c = false) (chars (hex_go (S fuel) n s))).
Proof.
  induction fuel as [|fuel IH]; intros n s Hn; pose proof (Z.mod_pos_bound n 16 ltac:(lia)) as Hm;
    destruct (hex_char_reads _ Hm) as (Hv & Hsp & Hu); pose proof (Z.div_mod n 16 ltac:(lia)) as Hd.
  - assert (n < 16)%Z by (change (16 ^ Z.of_nat 1)%Z with 16%Z in Hn; lia).
    cbn [hex_go]. rewrite (proj2 (Z.ltb_lt _ _)) by done. simpl chars; cbn [parse_digits].
    rewrite Z.mod_small in * by lia. rewrite Hu, Hv, (proj2 (Z.ltb_lt _ _)) by lia. split; [done|intros; constructor; done].
  - remember (S fuel) as f. cbn [hex_go]. destruct (Z.ltb_spec n 16%Z) as [Hlt|Hge].
    + simpl chars; cbn [parse_digits]. rewrite Z.mod_small in * by lia. rewrite Hu, Hv, (proj2 (Z.ltb_lt _ _)) by lia. split; [done|intros; constructor; done].
    + destruct (IH (n / 16)%Z (String (hex_char (n mod 16)) s)) as [IH1 IH2].
      { rewrite Nat2Z.inj_succ, Z.pow_succ_r in Hn by lia. split; [apply Z.div_pos; lia|]. apply Z.div_lt_upper_bound; lia. }
      rewrite IH1. simpl chars; cbn [parse_digits]. rewrite Hu, Hv, (proj2 (Z.ltb_lt _ _)) by lia.
      split; [f_equal; lia|]. intros Hs. apply IH2. by constructor.
Qed.

Lemma hex_reads k : py_int 16 (hex k) = Ok k.
Proof.
  unfold hex, py_int. set (n := Z.abs k).
  destruct (hex_go_reads (Z.to_nat (Z.log2 n)) n "") as [Hr Hs].
  { split; [lia|]. destruct (Z.eq_dec n 0%Z) as [-> | Hn]; [done|]. pose proof (Z.log2_spec n ltac:(lia)) as [_ Hl].
    pose proof (Z.log2_nonneg n). rewrite Nat2Z.inj_succ, Z2Nat.id by done.
    eapply Z.lt_le_trans; [exact Hl|]. apply Z.pow_le_mono_l. lia. }
  specialize (Hs (Forall_nil_2 _)). set (t := hex_go _ _ _) in *. clearbody t.
  unfold py_int_l. rewrite chars_app.
  destruct (chars t) as [|c l] eqn:Et; [discriminate Hr|].
  assert (parse_unsigned 16 ("0"%char :: "x"%char :: c :: l) = Ok n) as Hp.
  { unfold parse_unsigned. change (_ && _) with true. cbn iota. destruct (Ascii.eqb c "_"%char) eqn:Ec; [|exact Hr].
    cbn [parse_digits] in Hr. rewrite Ec in Hr. discriminate Hr. }
  destruct (Z.ltb_spec k 0%Z); rewrite strip_none by (apply Forall_app; split; [by repeat constructor|exact Hs]).
  - change (chars "-0x" ++ c :: l) with ("-"%char :: "0"%char :: "x"%char :: c :: l). cbn iota. rewrite Hp. simpl. f_equal. lia.
  - change (chars "0x" ++ c :: l) with ("0"%char :: "x"%char :: c :: l). cbn iota. rewrite Hp. f_equal. lia.
Qed.

(** The text of an operand that is no ALU node: its own, which of a number is the number. *)
Definition leaf_says (n : val) (s : string) : Prop :=
  expr_to_str n = Ok s ∧ ∀ o k size kind, n = VNum o k size kind → py_int 16 s = Ok k.

Lemma leaf_text_says n s : expr_to_str n = Ok s → leaf_says n s.
Proof. intros H. split; [done|]. intros o k size kind ->. injection H as <-. apply hex_reads. Qed.

(** *** The sharing *)

(** The ALU nodes of an expression. *)
Inductive under : val → val → Prop :=
| under_self v : under v v
| under_child v c x : c ∈ _alu_children v → under c x → under v x.

Lemma under_trans x y z : under x y → under y z → under x z.
Proof. induction 1; intros; [done|]. eapply under_child; eauto. Qed.

Lemma child_size v c : c ∈ _alu_children v → alu_size c < alu_size v.
Proof.
  intros Hc. assert (is_alu v = true) as Ha by (destruct v; simpl in Hc; first [done | by apply elem_of_nil in Hc]).
  rewrite (alu_size_children v) by done. apply Nat.lt_succ_r.
  clear Ha. induction (_alu_children v) as [|x l IH]; [by apply elem_of_nil in Hc|].
  simpl. apply elem_of_cons in Hc as [-> | Hc]; [lia|]. specialize (IH Hc). lia.
Qed.

Lemma under_size v x : under v x → alu_size x ≤ alu_size v.
Proof. induction 1 as [|v c x Hc _ IH]; [done|]. pose proof (child_size v c Hc). lia. Qed.

(** Different ALU nodes are different objects. *)
Definition plain (root : val) : Prop :=
  ∀ x y, is_alu x = true → is_alu y = true → under root x → under root y → oid x = oid y → x = y.

(** Operand [k] of the node [p] is the node [o]: a use of it. *)
Definition used_at (root : val) (o : Z) (x : Z * nat) : Prop := ∃ n c, under root n ∧ is_alu n = true ∧
  oid n = x.1 ∧ _alu_children n !! x.2 = Some c ∧ is_alu c = true ∧ oid c = o.

(** It is an operand in two places. *)
Definition used_twice (root : val) (o : Z) : Prop := ∃ x y, x ≠ y ∧ used_at root o x ∧ used_at root o y.

Lemma used_twice_under root o : used_twice root o → ∃ n, under root n ∧ is_alu n = true ∧ oid n = o.
Proof.
  intros (x & _ & _ & (n & c & Hu & _ & _ & Hc & Ha & Ho) & _). exists c. split; [|done].
  eapply under_trans; [done|]. eapply under_child; [|apply under_self]. by eapply list_elem_of_lookup_2.
Qed.

(** [names] says which nodes go by a name: [s] shows [n], with a name for these, and the
    text of its node for the others; a name stands for the definition of its node, which
    uses earlier names only. *)
Section shows.
Context (names : Z → Prop).

Inductive shows : defs_t → string → val → Prop :=
| shows_leaf d n s : is_alu n = false → leaf_says n s → shows d s n
| shows_node d n s : is_alu n = true → ¬ names (oid n) → body_of d s n → shows d s n
| shows_name d i r n : is_alu n = true → names (oid n) → d !! i = Some (oid n, r) → body_of (take i d) r n →
    shows d (label i) n
with body_of : defs_t → string → val → Prop :=
| body_un d o u s t : shows d s (u_dst u) → unary_says u s t → body_of d t (VUn o u)
| body_bin d o b s1 s2 t : shows d s1 (b_dst b) → shows d s2 (b_src b) → binary_says b s1 s2 t → body_of d t (VBin o b).

Scheme shows_mind := Minimality for shows Sort Prop with body_mind := Minimality for body_of Sort Prop.

Lemma shows_app d e s n : shows d s n → shows (d ++ e) s n.
Proof.
  intros H. revert d s n H.
  apply (shows_mind (λ d s n, shows (d ++ e) s n) (λ d s n, body_of (d ++ e) s n)); intros.
  - by apply shows_leaf.
  - by apply shows_node.
  - match goal with Hi : d !! i = Some _ |- _ => pose proof (lookup_lt_Some _ _ _ Hi) end.
    eapply shows_name; [done|done|by rewrite lookup_app_l|]. by rewrite take_app_le by lia.
  - by eapply body_un.
  - by eapply body_bin.
Qed.

Lemma body_app d e s n : body_of d s n → body_of (d ++ e) s n.
Proof. intros []; [eapply body_un|eapply body_bin]; eauto using shows_app. Qed.

(** Every node to be named is: its definition is there. *)
Lemma shows_defined d s n : shows d s n → ∀ x, under n x → is_alu x = true → names (oid x) → oid x ∈ map fst d.
Proof.
  intros H. revert d s n H.
  apply (shows_mind (λ d s n, ∀ x, under n x → is_alu x = true → names (oid x) → oid x ∈ map fst d)
    (λ d s n, ∀ c x, c ∈ _alu_children n → under c x → is_alu x = true → names (oid x) → oid x ∈ map fst d)).
  - intros d n s Hn _ x Hx Ha _. inversion Hx as [|? c ? Hc]; subst; [congruence|].
    by destruct n; simpl in Hc; try discriminate Hn; apply elem_of_nil in Hc.
  - intros d n s _ Hno _ IH x Hx Ha Hnm. inversion Hx; subst; [done|by eapply IH].
  - intros d i r n _ _ Hi _ IH x Hx Ha Hnm. inversion Hx as [|? c ? Hc Hcx]; subst.
    + apply (list_elem_of_fmap_2 fst _ _ (list_elem_of_lookup_2 _ _ _ Hi)).
    + pose proof (IH c x Hc Hcx Ha Hnm) as Hin. rewrite <- (take_drop i d), map_app. apply elem_of_app. by left.
  - intros d o u s t _ IH _ c x ->%list_elem_of_singleton. apply IH.
  - intros d o b s1 s2 t _ IH1 _ IH2 _ c x Hc. simpl in Hc.
    apply elem_of_cons in Hc as [-> | ->%list_elem_of_singleton]; [apply IH1|apply IH2].
Qed.
End shows.

(** ** The count of the references *)

Section refs.
Context (root : val).
Hypothesis Hid : plain root.

(** The nodes known, those whose operands were counted first, and the table. *)
Record known (ps : list val) (s : refs) : Prop := {
  kn_nodup : NoDup (map oid (ps ++ s.2));
  kn_seen o : o ∈ s.1.2 ↔ o ∈ map oid (ps ++ s.2);
  kn_under x : x ∈ ps ++ s.2 → is_alu x = true ∧ under root x;
  kn_keys : NoDup (map fst s.1.1)
}.
Definition count_of (s : refs) (o : Z) : Z := default 0%Z (pget s.1.1 o).
Definition refers (o : Z) (c : val) : nat := if decide (is_alu c = true ∧ oid c = o) then 1 else 0.

Lemma count_child_known ps s c : (is_alu c = true → under root c) → known ps s →
  known ps (count_child s c) ∧ (∀ x, x ∈ s.2 → x ∈ (count_child s c).2) ∧
  (is_alu c = true → c ∈ ps ++ (count_child s c).2) ∧
  ∀ o, count_of (count_child s c) o = (count_of s o + Z.of_nat (refers o c))%Z.
Proof.
  destruct s as [[ref seen] stack]. intros Hu [Hnd Hseen Hund Hk]. unfold count_child, count_of, refers. cbn [fst snd] in *.
  destruct (is_alu c) eqn:Ec; cbn [fst snd].
  2:{ split; [by split|]. split; [done|]. split; [done|]. intros o. rewrite decide_False by (by intros [? _]). lia. }
  specialize (Hu eq_refl).
  assert (∀ o, default 0%Z (pget (pset ref (oid c) (default 0%Z (pget ref (oid c)) + 1)%Z) o) =
    (default 0%Z (pget ref o) + Z.of_nat (if decide (true = true ∧ oid c = o) then 1 else 0))%Z) as Hcnt.
  { intros o. rewrite pget_pset. destruct (decide (o = oid c)) as [-> | Hne].
    - rewrite decide_True by done. simpl. lia.
    - rewrite decide_False by (intros [_ ?]; congruence). lia. }
  case_bool_decide as Hs; cbn [fst snd].
  - split; [split; cbn [fst snd]; [done..|by apply pset_NoDup]|]. split; [done|]. split; [|done]. intros _.
    apply Hseen, list_elem_of_fmap in Hs as (x & Hx & Hin). destruct (Hund x Hin) as [Hax Hux].
    by rewrite (Hid c x Ec Hax Hu Hux Hx).
  - assert (ps ++ c :: stack ≡ₚ c :: (ps ++ stack)) as Hp by (symmetry; apply Permutation_middle).
    split; [|split; [intros x Hx; by right|split; [intros _; rewrite Hp; left|done]]].
    split; cbn [fst snd].
    + rewrite Hp. simpl. constructor; [by rewrite <- Hseen|done].
    + intros o. rewrite Hp. simpl. rewrite elem_of_union, elem_of_singleton, elem_of_cons, Hseen. done.
    + intros x. rewrite Hp. intros [-> | Hx]%elem_of_cons; [done|by apply Hund].
    + by apply pset_NoDup.
Qed.

Lemma count_children_known ps l s : (∀ c, c ∈ l → is_alu c = true → under root c) → known ps s →
  let s' := fold_left count_child l s in
  known ps s' ∧ (∀ x, x ∈ s.2 → x ∈ s'.2) ∧ (∀ c, c ∈ l → is_alu c = true → c ∈ ps ++ s'.2) ∧
  ∀ o, count_of s' o = (count_of s o + Z.of_nat (list_sum (map (refers o) l)))%Z.
Proof.
  revert s. induction l as [|c l IH]; intros s Hu Hk; cbv zeta; simpl.
  { split; [done|]. split; [done|]. split; [by intros c ?%elem_of_nil|]. intros. lia. }
  destruct (count_child_known ps s c (Hu c ltac:(left)) Hk) as (Hk1 & Hs1 & Hc1 & Hn1).
  destruct (IH (count_child s c) ltac:(intros; apply Hu; [by right|done]) Hk1) as (Hk2 & Hs2 & Hc2 & Hn2).
  split; [done|]. split; [auto|]. split.
  - intros x [-> | Hx]%elem_of_cons Ha; [|by apply Hc2].
    specialize (Hc1 Ha). rewrite elem_of_app in Hc1 |- *. naive_solver.
  - intros o. rewrite Hn2, Hn1. lia.
Qed.

(** The uses of [o] among the operands of [ps]. *)
Definition node_uses (o : Z) (n : val) : list (Z * nat) :=
  omap id (imap (λ k c, if decide (is_alu c = true ∧ oid c = o) then Some (oid n, k) else None) (_alu_children n)).
Definition uses (o : Z) (ps : list val) : list (Z * nat) := mjoin (map (node_uses o) ps).

Lemma node_uses_length o n : length (node_uses o n) = list_sum (map (refers o) (_alu_children n)).
Proof. unfold node_uses, refers. destruct n; simpl; try done; repeat case_decide; simpl; lia. Qed.

Lemma node_uses_elem o n x : x ∈ node_uses o n ↔
  oid n = x.1 ∧ ∃ c, _alu_children n !! x.2 = Some c ∧ is_alu c = true ∧ oid c = o.
Proof.
  unfold node_uses. rewrite list_elem_of_omap. split.
  - intros (y & (k & c & -> & Hc)%elem_of_lookup_imap & Hy). unfold id in Hy. case_decide as Hd; simplify_eq.
    destruct Hd. eauto.
  - destruct x as [p k]. cbn [fst snd]. intros [<- (c & Hc & Hd)]. eexists. split; [|reflexivity].
    apply elem_of_lookup_imap. exists k, c. split; [|done]. by rewrite decide_True.
Qed.

Lemma node_uses_nodup o n : NoDup (node_uses o n).
Proof.
  unfold node_uses. destruct n; simpl; try constructor; repeat case_decide; simpl;
    repeat first [apply NoDup_nil_2 | apply NoDup_cons_2]; rewrite ?elem_of_cons, ?elem_of_nil; naive_solver.
Qed.

Lemma uses_nodup o ps : NoDup (map oid ps) → NoDup (uses o ps).
Proof.
  induction ps as [|n ps IH]; simpl; [constructor|]. intros [Hn Hd]%NoDup_cons. unfold uses. simpl.
  apply NoDup_app. split; [apply node_uses_nodup|]. split; [|by apply IH].
  intros x [Hx _]%node_uses_elem (l & Hxl & (m & -> & Hm)%list_elem_of_fmap)%list_elem_of_join.
  apply node_uses_elem in Hxl as [Hxm _]. apply Hn. rewrite Hx, <- Hxm. by apply list_elem_of_fmap_2.
Qed.

Lemma two_members {A} (l : list A) : NoDup l → 1 < length l ↔ ∃ x y, x ≠ y ∧ x ∈ l ∧ y ∈ l.
Proof.
  intros Hnd. split.
  - destruct l as [|x [|y l]]; simpl; intros; try lia. exists x, y. apply NoDup_cons in Hnd as [Hx _].
    split; [intros ->; apply Hx; left|]. split; [left|right; left].
  - intros (x & y & Hne & Hx & Hy). destruct l as [|a [|b l]]; simpl; [by apply elem_of_nil in Hx| |lia].
    apply list_elem_of_singleton in Hx, Hy. congruence.
Qed.

(** In the middle of the loop: the root is known, and the operands of the nodes whose operands
    were counted; the table holds their uses. *)
Definition counting (ps : list val) (s : refs) : Prop :=
  known ps s ∧ root ∈ ps ++ s.2 ∧
  (∀ p c, p ∈ ps → c ∈ _alu_children p → is_alu c = true → c ∈ ps ++ s.2) ∧
  ∀ o, count_of s o = Z.of_nat (length (uses o ps)).

Lemma counting_pop ps ref seen n stack : counting ps (ref, seen, n :: stack) →
  counting (n :: ps) (fold_left count_child (_alu_children n) (ref, seen, stack)).
Proof.
  intros (Hk & Hr & Hc & Hn).
  assert (n :: ps ++ stack ≡ₚ ps ++ n :: stack) as Hp by apply Permutation_middle.
  assert (known (n :: ps) (ref, seen, stack)) as Hk1.
  { destruct Hk as [H1 H2 H3 H4]. cbn [fst snd] in *. split; cbn [fst snd app]; [by rewrite Hp| |intros x; rewrite Hp; apply H3|done].
    intros o. by rewrite Hp. }
  assert (∀ c, c ∈ _alu_children n → is_alu c = true → under root c) as Hu.
  { intros c Hin _. apply under_trans with n; [apply (kn_under _ _ Hk); cbn [snd]; rewrite <- Hp; left|].
    eapply under_child; [done|apply under_self]. }
  destruct (count_children_known _ _ _ Hu Hk1) as (Hk2 & Hs2 & Hc2 & Hn2).
  assert (∀ x, x ∈ ps ++ n :: stack →
    x ∈ (n :: ps) ++ (fold_left count_child (_alu_children n) (ref, seen, stack)).2) as Hin.
  { intros x. rewrite <- Hp. simpl. rewrite !elem_of_cons, !elem_of_app.
    intros [Hx | [Hx | Hx]]; [by left|by right; left|right; right; by apply Hs2]. }
  split; [done|]. split; [by apply Hin|]. split.
  - intros p c [-> | Hpp]%elem_of_cons Hcc Ha; [by apply Hc2|]. by apply Hin, (Hc p).
  - intros o. rewrite Hn2. unfold count_of in *. cbn [fst] in *. rewrite Hn.
    unfold uses. simpl. rewrite length_app, node_uses_length. lia.
Qed.

Lemma ref_loop_counts fuel : ∀ ps s ref, counting ps s → ref_loop fuel s = Ok ref →
  ∃ ps' seen', counting ps' (ref, seen', []).
Proof.
  induction fuel as [|fuel IH]; intros ps [[ref0 seen] [|n stack]] ref Hc; simpl; try done;
    try (intros [= <-]; by exists ps, seen).
  intros HE. by eapply IH; [apply counting_pop|].
Qed.

Lemma counted_all ps s x : counting ps s → s.2 = [] → under root x → is_alu x = true → x ∈ ps.
Proof.
  intros (_ & Hr & Hc & _) Hs Hu. rewrite Hs, app_nil_r in *. clear Hid. revert Hr.
  induction Hu as [v | v c x Hvc Hcx IH]; intros Hv Ha; [done|].
  apply IH; [|done]. apply Hc with v; [done..|].
  inversion Hcx; subst; [done|]. by destruct c; simpl in *; first [done | exfalso; by eapply elem_of_nil].
Qed.
End refs.

(** The nodes named are those used in two places. *)
Lemma shared_exact root sh : plain root → shared_of root = Ok sh → ∀ o, o ∈ sh ↔ used_twice root o.
Proof.
  intros Hid. unfold shared_of. destruct (is_alu root) eqn:Ea; cbn [negb].
  2: { intros [= <-] o. split; [by intros ?%elem_of_empty|]. intros (x & _ & _ & (n & c & Hn & Han & _) & _).
       inversion Hn as [|? c' ? Hc']; subst; [congruence|].
       by destruct root; simpl in Hc'; try discriminate Ea; apply elem_of_nil in Hc'. }
  intros HE. apply bind_Ok in HE as (ref & Hl & [= <-]). intros o.
  destruct (ref_loop_counts root Hid (alu_size root) [] ([], {[oid root]}, [root]) ref) as (ps & seen & Hc); [|done|].
  { split; [split; cbn [fst snd app]|].
    - apply NoDup_singleton.
    - intros o'. simpl. by rewrite elem_of_singleton, list_elem_of_singleton.
    - intros x ->%list_elem_of_singleton. split; [done|apply under_self].
    - constructor.
    - split; [by left|]. split; [by intros p c ?%elem_of_nil|done]. }
  pose proof Hc as ([Hnd _ Hund Hkeys] & _ & _ & Hn). cbn [fst snd] in *. rewrite app_nil_r in *.
  transitivity (1 < count_of (ref, seen, []) o)%Z.
  { rewrite elem_of_list_to_set, list_elem_of_fmap. unfold count_of. cbn [fst]. split.
    - intros ([o' k] & -> & [Hk Hin]%list_elem_of_filter). cbn [fst snd] in *.
      by rewrite (pget_unique ref o' k Hkeys Hin).
    - destruct (pget ref o) as [k|] eqn:Ek; simpl; [|lia]. intros Hk. apply pget_elem in Ek.
      exists (o, k). split; [done|]. by apply list_elem_of_filter. }
  rewrite Hn. transitivity (1 < length (uses o ps)); [lia|]. rewrite two_members by (by apply uses_nodup).
  assert (∀ x, x ∈ uses o ps ↔ used_at root o x) as Huse.
  { intros x. unfold uses. rewrite list_elem_of_join. split.
    - intros (l & Hx & (n & -> & Hin)%list_elem_of_fmap). apply node_uses_elem in Hx as [Ho (c & ? & ? & ?)].
      destruct (Hund n Hin). by exists n, c.
    - intros (n & c & Hun & Han & Ho & ? & ? & ?). exists (node_uses o n). split; [apply node_uses_elem; eauto|].
      apply list_elem_of_fmap_2. by eapply counted_all. }
  unfold used_twice. by setoid_rewrite Huse.
Qed.

Section emit.
Context (root : val) (sh : gset Z).
Hypothesis Hid : plain root.
Hypothesis Hsh : ∀ o, o ∈ sh ↔ used_twice root o.

Notation shows := (shows (used_twice root)).
Notation body_of := (body_of (used_twice root)).

Record good (d : defs_t) : Prop := {
  gd_nodup : NoDup (map fst d);
  gd_shows i o r : d !! i = Some (o, r) → used_twice root o ∧
    ∃ n, under root n ∧ is_alu n = true ∧ oid n = o ∧ body_of (take i d) r n
}.

(** [d'] adds names of nodes under one of [l] to [d]. *)
Definition extends (l : list val) (d d' : defs_t) : Prop :=
  ∃ e, d' = d ++ e ∧ ∀ o, o ∈ map fst e → ∃ c x, c ∈ l ∧ under c x ∧ is_alu x = true ∧ oid x = o.

Lemma extends_refl l d : extends l d d.
Proof. exists []. split; [by rewrite app_nil_r|]. by intros o ?%elem_of_nil. Qed.

Lemma extends_trans l1 l2 d1 d2 d3 : extends l1 d1 d2 → extends l2 d2 d3 → extends (l1 ++ l2) d1 d3.
Proof.
  intros (e1 & -> & H1) (e2 & -> & H2). exists (e1 ++ e2). split; [by rewrite app_assoc|].
  intros o. rewrite map_app, elem_of_app. setoid_rewrite elem_of_app. naive_solver.
Qed.

Lemma extends_shows l d d' s n : extends l d d' → shows d s n → shows d' s n.
Proof. intros (e & -> & _). apply shows_app. Qed.

Lemma label_of_Some d o l : label_of d o = Some l → ∃ i r, d !! i = Some (o, r) ∧ l = label i.
Proof.
  unfold label_of. destruct (list_find _ d) as [[i [o' r]]|] eqn:E; [|done]. intros [= <-].
  apply list_find_Some in E as (Hi & Ho & _). simpl in Ho. subst. eauto.
Qed.

Lemma label_of_None d o : label_of d o = None → o ∉ map fst d.
Proof.
  unfold label_of. destruct (list_find _ d) as [[]|] eqn:E; [done|]. intros _ Hin.
  apply list_find_None in E. rewrite Forall_forall in E.
  apply list_elem_of_fmap in Hin as (x & Hx & Hin). by apply (E x Hin).
Qed.

(** A result that shows [n], or has the text of its node, with more names. *)
Definition emits (how : defs_t → string → val → Prop) (n : val) (l : list val) (d : defs_t)
    (r : res (string * defs_t)) : Prop :=
  ∀ s d', r = Ok (s, d') → good d' ∧ extends l d d' ∧ how d' s n.

(** A node used more than once, whose own nodes were printed. *)
Lemma emits_named n d body : is_alu n = true → under root n → good d → emits body_of n (_alu_children n) d body →
  emits shows n [n] d (if bool_decide (oid n ∈ sh) then
      match label_of d (oid n) with
      | Some l => Ok (l, d)
      | None => '(rendered, d) ← body; Ok (label (length d), app d [(oid n, rendered)])
      end else body).
Proof.
  intros Ha Hu Hg Hb s d' HE.
  assert (∀ d', extends (_alu_children n) d d' → extends [n] d d') as Hex.
  { intros d1 (e & -> & He). exists e. split; [done|]. intros o Ho.
    destruct (He o Ho) as (c & x & Hc & Hx & ?). exists n, x. split; [left|]. split; [by eapply under_child|done]. }
  case_bool_decide as Hs; [apply Hsh in Hs|].
  2: { destruct (Hb _ _ HE) as (? & ? & ?). split; [done|]. split; [auto|]. apply shows_node; [done| |done]. by rewrite <- Hsh. }
  destruct (label_of d (oid n)) as [l|] eqn:El.
  { injection HE as <- <-. apply label_of_Some in El as (i & r & Hi & ->).
    split; [done|]. split; [apply extends_refl|]. apply shows_name with r; [done..|].
    destruct (gd_shows _ Hg i _ r Hi) as (_ & m & Hum & Hm & Ho & Hsm).
    by rewrite (Hid n m Ha Hm Hu Hum (eq_sym Ho)). }
  apply label_of_None in El. apply bind_Ok in HE as ([rendered d1] & HB & [= <- <-]).
  destruct (Hb _ _ HB) as (Hg1 & Hx1 & Hs1).
  assert (oid n ∉ map fst d1) as Hno.
  { destruct Hx1 as (e & -> & He). rewrite map_app, elem_of_app. intros [? | Hin]; [done|].
    destruct (He _ Hin) as (c & x & Hc & Hx & Hax & Ho).
    assert (x = n) as -> by (apply Hid; [done..| |done|done]; eapply under_trans; [done|by eapply under_child]).
    pose proof (under_size _ _ Hx). pose proof (child_size _ _ Hc). lia. }
  split; [|split].
  - split.
    + rewrite map_app. apply NoDup_app. split; [apply Hg1|]. split; [|apply NoDup_singleton].
      intros x Hx ->%list_elem_of_singleton. done.
    + intros i o r Hi. apply lookup_snoc_Some in Hi as [[Hlt Hi] | [-> [= <- <-]]].
      * rewrite take_app_le by lia. by apply Hg1.
      * split; [done|]. exists n. rewrite take_app_length. auto.
  - destruct (Hex _ Hx1) as (e & -> & He). exists (e ++ [(oid n, rendered)]). split; [by rewrite app_assoc|].
    intros o. rewrite map_app, elem_of_app. intros [Hin | ->%list_elem_of_singleton]; [by apply He|].
    exists n, n. split; [left|]. split; [apply under_self|done].
  - apply shows_name with rendered; [done|done|by rewrite list_lookup_middle|]. by rewrite take_app_length.
Qed.

Lemma emit_shows k n : alu_size n < k → under root n → ∀ d, good d → emits shows n [n] d (emit sh n d).
Proof.
  revert n. induction k as [|k IH]; intros n Hk Hu d Hg; [lia|].
  destruct (is_alu n) eqn:Ea.
  2: { intros s d' HE. rewrite emit_leaf in HE by done. apply bind_Ok in HE as (t & Ht & [= <- <-]).
       split; [done|]. split; [apply extends_refl|by apply shows_leaf, leaf_text_says]. }
  assert (∀ c, c ∈ _alu_children n → ∀ d, good d → emits shows c [c] d (emit sh c d)) as Hch.
  { intros c Hc. apply IH; [pose proof (child_size _ _ Hc); lia|]. eapply under_trans; [done|].
    by eapply under_child; [|apply under_self]. }
  destruct n as [| | | | | | | | | | | | | | |o u|o b|]; try discriminate Ea;
    cbn [emit]; refine (emits_named _ d _ Ea Hu Hg _); intros s d' HE; cbn [_alu_children] in *.
  - apply bind_Ok in HE as ([dst d1] & H1 & [= <- <-]).
    destruct (Hch (u_dst u) ltac:(left) d Hg _ _ H1) as (? & ? & ?). split; [done|]. split; [done|]. by eapply body_un; [|apply unary_text_says].
  - apply bind_Ok in HE as ([dst d1] & H1 & HE). apply bind_Ok in HE as ([src d2] & H2 & HE).
    apply bind_Ok in HE as (t & Ht & [= <- <-]).
    destruct (Hch (b_dst b) ltac:(left) d Hg _ _ H1) as (Hg1 & Hx1 & Hs1).
    destruct (Hch (b_src b) ltac:(right; left) d1 Hg1 _ _ H2) as (Hg2 & Hx2 & Hs2).
    split; [done|]. split; [by apply (extends_trans [b_dst b] [b_src b] d d1 d2)|].
    eapply body_bin; [by eapply extends_shows|done|by apply binary_text_says].
Qed.
End emit.

(** ** Printing fails only on an unknown operation *)

Definition key_only {A} (r : res A) : Prop := ∀ e, r = Err e → e = KeyError.

Lemma key_Ok {A} (a : A) : key_only (Ok a).
Proof. by intros e. Qed.

Lemma key_bind {A B} (m : res A) (f : A → res B) : key_only m → (∀ a, key_only (f a)) → key_only (x ← m; f x).
Proof. intros Hm Hf e. destruct m as [a|e']; simpl; [apply Hf|]. intros [= ->]. by apply Hm. Qed.

Lemma key_fmap {A B} (m : res A) (f : A → B) : key_only m → key_only (f <$> m).
Proof. intros Hm e. destruct m as [a|e']; simpl; [done|]. intros [= ->]. by apply Hm. Qed.

Lemma key_shared v : key_only (shared_of v).
Proof. destruct (shared_of_ok v) as [sh ->]. apply key_Ok. Qed.

Lemma key_binary op size a b : key_only (binary_text op size a b).
Proof. unfold binary_text. destruct (pget op_map op); [apply key_Ok|by intros e [= <-]]. Qed.

Lemma key_mapR {A B} (f : A → res B) l : Forall (λ x, key_only (f x)) l → key_only (mapR f l).
Proof.
  induction 1 as [|x l Hx _ IH]; [apply key_Ok|]. simpl. apply key_bind; [done|]. intros y.
  apply key_bind; [done|intros; apply key_Ok].
Qed.

Ltac key_step :=
  lazymatch goal with
  | |- key_only (Ok _) => apply key_Ok
  | |- key_only (shared_of _) => apply key_shared
  | |- key_only (binary_text _ _ _ _) => apply key_binary
  | |- key_only (mbind _ _) => apply key_bind; [|intro]
  | |- key_only (fmap _ _) => apply key_fmap
  | |- key_only (if ?b then _ else _) => destruct b
  | |- key_only (match label_of ?d ?o with _ => _ end) => destruct (label_of d o)
  | |- key_only (match ?x with (_, _) => _ end) => destruct x
  end.

Lemma emit_key : ∀ n sh d, key_only (emit sh n d).
Proof.
  fix IH 1. intros n sh d.
  assert (∀ (c : val), (∀ sh d, key_only (emit sh c d)) →
    key_only (sh ← shared_of c; '(top, d) ← emit sh c []; Ok (let_text d top))) as Hstr
    by (intros c Hc; repeat key_step; apply Hc).
  destruct n as [| | | | | | |o f|o p|o m|o b|o r| | |o cs s off|o u|o b|o p]; cbn [emit];
    repeat first [key_step | apply IH | (apply Hstr; apply IH)].
  - apply key_mapR. induction cs as [|c cs IHc]; constructor; [apply Hstr, IH|exact IHc].
  - destruct (p_var_off p) eqn:E; rewrite <- ?E; repeat first [key_step | (apply Hstr; apply IH) | apply IH].
Qed.

(** C40 An expression is printed faithfully: printing always ends, and fails only on an
    operation without a symbol. The ALU nodes that are operands in two places, and no others,
    are given names, each once, and defined by the text of their own node from earlier names;
    the text shows the expression, with these nodes by their names and every other node
    written out. The text of a node has its operands' in order, its width, and an operator
    that computes what the node does, division and remainder of signed numbers apart, which
    have the symbol of the unsigned ones; that of an operand that is no ALU node is its own,
    and a number is read back as itself. Different ALU nodes of the expression are taken to
    be different objects. *)
Theorem expr_to_str_sound root : plain root →
  match expr_to_str root with
  | Ok t => ∃ d top, t = let_text d top ∧ NoDup (map fst d) ∧
              (∀ o, o ∈ map fst d ↔ used_twice root o) ∧
              (∀ i o r, d !! i = Some (o, r) → ∃ n, under root n ∧ is_alu n = true ∧ oid n = o ∧
                 body_of (used_twice root) (take i d) r n) ∧
              shows (used_twice root) d top root
  | Err e => e = KeyError
  end.
Proof.
  intros Hid. unfold expr_to_str. destruct (shared_of_ok root) as [sh Hs]. rewrite Hs. cbn [mbind res_bind].
  pose proof (shared_exact root sh Hid Hs) as Hsh.
  destruct (emit sh root []) as [[top d]|e] eqn:E; [|by apply (emit_key root sh [])].
  assert (good root []) as Hg by (split; [constructor|by intros i o r Hi]).
  destruct (emit_shows root sh Hid Hsh (S (alu_size root)) root ltac:(lia) (under_self _) [] Hg _ _ E)
    as ([Hnd Hd] & _ & Ht).
  exists d, top. split; [done|]. split; [done|]. split; [|split; [intros i o r Hi; by apply (Hd i o r)|done]].
  intros o. split.
  - intros ([o' r] & -> & [i Hi]%list_elem_of_lookup)%list_elem_of_fmap. by apply (Hd i o' r).
  - intros Ho. destruct (used_twice_under root o Ho) as (n & Hu & Ha & <-).
    by eapply shows_defined.
Qed.

(** [(a + b) * (a + b)], the sum one object. *)
Definition shared_sum : val := VBin 3 (mk_binary ADD (VScalar 1 8 1) (VScalar 2 8 2) 0 8 5).
Definition square : val := VBin 4 (mk_binary MUL shared_sum shared_sum 0 8 6).

Lemma square_plain : plain square.
Proof.
  assert (∀ x, under square x → is_alu x = true → x = square ∨ x = shared_sum) as H.
  { intros x Hx Ha. inversion Hx as [|? c ? Hc Hcx]; subst; [by left|right].
    assert (c = shared_sum) as -> by (simpl in Hc; rewrite !elem_of_cons, elem_of_nil in Hc; naive_solver).
    inversion Hcx as [|? c' ? Hc' Hcx']; subst; [done|]. simpl in Hc'. rewrite !elem_of_cons, elem_of_nil in Hc'.
    destruct_or?; try done; subst; (inversion Hcx' as [|? ? ? Hn]; subst; [discriminate Ha|by apply elem_of_nil in Hn]). }
  intros x y Ha Hb Hx Hy Ho. destruct (H x Hx Ha) as [-> | ->], (H y Hy Hb) as [-> | ->]; try done; discriminate Ho.
Qed.

Lemma expr_to_str_sound_witness : plain square ∧
  expr_to_str square = Ok "let $t0 = (scalar1 + scalar2) in ($t0 * $t0)"%string ∧
  ∃ d top, "let $t0 = (scalar1 + scalar2) in ($t0 * $t0)"%string = let_text d top ∧
    (∀ o, o ∈ map fst d ↔ used_twice square o) ∧ shows (used_twice square) d top square.
Proof.
  pose proof (expr_to_str_sound square square_plain) as H.
  assert (expr_to_str square = Ok "let $t0 = (scalar1 + scalar2) in ($t0 * $t0)"%string) as E by (vm_compute; reflexivity).
  rewrite E in H. destruct H as (d & top & Ht & _ & Hn & _ & Hs).
  split; [exact square_plain|]. split; [exact E|]. exists d, top. split; [exact Ht|]. split; [exact Hn|exact Hs].
Defined.
