(* ===== verification/Scaffold.v ===== *)
(** The specification skeleton of a program ([report/scaffold.py]), made from its facts:
    it can be verified as it is, and its notes are skipped by the parser. *)

From stdpp Require Import sorting.
From S2P Require Import Prelude Constants Expr Block Pystr Spec Text Facts.

Local Open Scope string_scope.
Local Open Scope Z_scope.

(** The character a string literal cannot hold plainly. *)
Definition dq : string := String (Ascii.ascii_of_nat 34) "".
Definition quoted (s : string) : string := dq +:+ s +:+ dq.

(** [str(l)] of a list of integers. *)
Definition list_text (l : list Z) : string := "[" +:+ String.concat ", " (map pretty l) +:+ "]".
Definition json_opt {A} (f : A → json) (o : option A) : json := match o with Some x => f x | None => JNull end.
Definition json_ints (l : list Z) : json := JList (map JInt l).

(** [{k(x): v(x) for x in l}]. *)
Definition json_dict {A} (k : A → string) (v : A → json) (l : list A) : list (string * json) :=
  fold_left (λ d x, pset d (k x) (v x)) l [].

Definition kind_text (k : kind_t) : string :=
  match k with KBranch => "branch" | KJump => "jump" | KExit => "exit" | KFall => "fall" end.

Definition _HOWTO : json := JList (map JStr [
  "This spec runs as-is. Everything under block_conditions is DISABLED: a name starting with '_' is skipped by the parser, so delete the leading underscore to turn one on.";
  "Keys starting with '_' are annotations and are never parsed — the '_cfg' / '_when_taken' / '_reads' / '_calls' / '_atoms' lines describe the block and list atoms you can paste into its 'cond'.";
  "input.maps is empty on purpose: a map not listed there is SYMBOLIC, so both its hit and its miss paths stay reachable. See the per-map notes."]).

Definition _header (f : ProgramFacts) : json :=
  JObj [("object", JStr (f_object_path f)); ("entry", JStr (f_entry f)); ("instructions", JInt (f_n_instrs f));
        ("blocks", JInt (f_n_blocks f)); ("acyclic", JBool (acyclic f));
        ("return_codes", json_opt json_ints (ret_codes f)); ("generated_by", JStr "hornet --spec-init")].

(** One note per map that is looked up. *)
Definition map_note (m : MapFact) : string :=
  mf_type_name m +:+ "  key " +:+ pretty (mf_key_size m) +:+ "B  value " +:+ pretty (mf_value_size m)
  +:+ "B  max_entries " +:+ pretty (mf_max_entries m) +:+ "  looked up at " +:+ call_sites (mf_lookups m)
  +:+ if needs_seed m then
        ". Unlisted (as now) it is symbolic: hit and miss are both reachable. Add " +:+ quoted (mf_name m) +:+ ": {"
        +:+ quoted "<key>" +:+ ": " +:+ quoted "<value>" +:+ "} to pin contents, or " +:+ quoted (mf_name m)
        +:+ ": {} to pin it empty — an empty HASH map never hits, which makes the hit-path blocks unreachable and any assert:"
        +:+ quoted "all" +:+ " there vacuous."
      else ". ARRAY family: every key below max_entries is present regardless, so listing it only pins the VALUES.".

Definition _maps (f : ProgramFacts) : list (string * json) :=
  json_dict (λ m, "_" +:+ mf_name m) (λ m, JStr (map_note m))
    (filter (λ m, mf_lookups m ≠ []) (f_maps f)).

Definition is_empty_list {A} (l : list A) : bool := match l with [] => true | _ => false end.

(** The truth of an optional name. *)
Definition real_name (o : option string) : option string :=
  match o with Some ((String _ _) as n) => Some n | _ => None end.

Definition _input (f : ProgramFacts) : json :=
  let depth := read_depth f in
  let fields := omap (λ x : Z * Z * option string, real_name x.2) (f_pkt_reads f) in
  JObj (app (if is_empty_list (f_pkt_reads f) then [("context", JObj [("pkt_len", JInt 64)])]
             else [("_packet", JStr ("layers only — no field is pinned, so every byte stays symbolic. Fields this program reads: "
                     +:+ if is_empty_list fields then "(none named)" else String.concat " " fields));
                   ("packet", JStr (packet_template f));
                   ("_context", JStr ("the deepest byte read is at offset " +:+ pretty depth
                     +:+ "; bytes past the scapy expression up to pkt_len are in bounds but symbolic"));
                   ("context", JObj [("pkt_len", JInt (Z.max depth 54))])])
            [("maps", JObj (_maps f))]).

(** [sorted(set(l))]. *)
Definition name_le (a b : string) : Prop := String.leb a b = true.
#[global] Instance name_le_dec a b : Decision (name_le a b).
Proof. unfold name_le. apply _. Defined.
Definition sorted_names (l : list string) : list string := merge_sort name_le (remove_dups l).

Definition atoms_of (b : BlockFact) : list json :=
  app (omap call_atom (bf_calls b)) (omap read_atom (bf_reads b)).
Definition pointer_atoms (b : BlockFact) : list json :=
  map (λ c, json_opt id (call_atom c)) (filter (λ c, cl_returns c = RetPointer) (bf_calls b)).

(** An entry that is only there under a condition. *)
Definition entry_if (c : bool) (k : string) (x : json) : list (string * json) := if c then [(k, x)] else [].

Definition _block_condition (b : BlockFact) : json :=
  let pointer := pointer_atoms b in
  JObj (mjoin
   [[("block", JInt (bf_num b))];
    match real_name (bf_prog_entry b) with
    | Some e => [("_program", JStr ("entry of " +:+ e +:+ ", reached only by a tail call — this block is where "
                   +:+ quoted "did that transfer happen" +:+ " is asked"))]
    | None => []
    end;
    [("_cfg", JStr (kind_text (bf_kind b) +:+ "  instrs " +:+ pretty (bf_start b) +:+ "-" +:+ pretty (bf_end b)
                    +:+ "  preds " +:+ preds_text b +:+ "  " +:+ edges_text b))];
    match real_name (bf_cond b) with Some c => [("_when_taken", JStr c)] | None => [] end;
    match bf_ret_codes b, bf_ret b with
    | Some l, _ => [("_returns", json_ints l)]
    | None, Some r => [("_returns", JStr r)]
    | None, None => []
    end;
    entry_if (negb (is_empty_list (bf_reads b))) "_reads"
      (JList (map (λ r, JStr ("@" +:+ pretty (rd_idx r) +:+ " " +:+ read_text r)) (bf_reads b)));
    entry_if (negb (is_empty_list (bf_calls b))) "_calls"
      (JList (map (λ c, JStr ("@" +:+ pretty (cl_idx c) +:+ " " +:+ call_text c)) (bf_calls b)));
    entry_if (negb (bf_phis b =? 0)) "_phis" (JStr (pretty (bf_phis b) +:+ " value(s) merged from predecessors"));
    entry_if (negb (is_empty_list (bf_writes b))) "_writes" (JList (map JStr (sorted_names (bf_writes b))));
    entry_if (negb (is_empty_list (atoms_of b))) "_atoms" (JList (atoms_of b));
    [("assert", JStr "exists")];
    match pointer with
    | [] => [("_cond", JStr ("no cond: as written this asserts only that the block is reachable. Paste one of _atoms in as "
               +:+ quoted "cond" +:+ " (a " +:+ quoted "value"
               +:+ " of 0 there is a placeholder) to assert something about it.")); ("cond", no_cond)]
    | _ => [("_cond", JStr ("assert " +:+ quoted "exists"
               +:+ " asks whether the hit path is reachable at all — the useful first question, and it passes while the map is symbolic. Switch to "
               +:+ quoted "all" +:+ " to demand that EVERY path reaching this block hit, or negate with {"
               +:+ quoted "not" +:+ ": ...} to demand it miss."));
            ("cond", match pointer with [a] => a | _ => JObj [("and", JList pointer)] end)]
    end]).

Definition ret_atom (c : Z) : json := JObj [("ret", JInt c)].

Definition _exit_conditions (f : ProgramFacts) : json :=
  match ret_codes f with
  | Some ((c :: cs) as codes) =>
      JObj [("observed_returns", JObj
              [("_note", JStr ("every exit of this program returns one of " +:+ list_text codes
                  +:+ "; this holds by construction and is here as a baseline"));
               ("assert", JStr "all");
               ("cond", match cs with [] => ret_atom c | _ => JObj [("or", JList (map ret_atom codes))] end)]);
            ("_one_return_only", JObj
              [("_note", JStr "narrow the baseline: pick the single code this input must give");
               ("assert", JStr "all"); ("cond", ret_atom c)])]
  | _ =>
      JObj [("_observed_returns", JObj
              [("assert", JStr "all");
               ("_note", JStr "no exit folded to a constant return code — write a `ret` atom by hand");
               ("cond", no_cond)])]
  end.

Definition chosen (f : ProgramFacts) (blocks : option (list Z)) : list BlockFact :=
  match blocks with
  | Some l => filter (λ b, bf_num b ∈ l) (f_blocks f)
  | None => interesting_blocks f
  end.

Definition spec_scaffold (f : ProgramFacts) (blocks : option (list Z)) : json :=
  JObj [("_hornet", _header f); ("_howto", _HOWTO); ("input", _input f);
        ("block_conditions", JObj (json_dict (λ b, "_b" +:+ pretty (bf_num b)) _block_condition (chosen f blocks)));
        ("exit_conditions", _exit_conditions f)].
