(* ===== verification/ScaffoldSound.v ===== *)
(** The skeleton of a specification is one the parser accepts ([report/scaffold.py]
    against [verify/spec.py]): only the packet's length and the return codes are
    stated, every block condition waits behind its underscore. *)

From S2P Require Import Prelude Constants Instr Link Smt SmtTerm Expr Record Encode Action Block Prune Pystr.
From S2P Require Import Spec SpecSound CheckerExamples Loader Program ProgramExamples Text Facts.
From S2P Require Import Scaffold FactsSound.

(** ** Notes are skipped *)

Lemma starts_note s : starts_with "_" ("_" +:+ s) = true.
Proof. unfold starts_with. simpl. by destruct s. Qed.

Lemma pset_entry {V} (d : list (string * V)) k v x : x ∈ pset d k v → x.1 = k ∨ x ∈ d.
Proof.
  induction d as [|[k' v'] d IH]; simpl; [intros ->%list_elem_of_singleton; by left|].
  case_decide as E; rewrite !elem_of_cons; [naive_solver|]. intros [-> | Hx]; [auto|]. destruct (IH Hx); auto.
Qed.

Lemma json_dict_keys {A} (k : A → string) v (l : list A) x : x ∈ json_dict k v l → ∃ a, x.1 = k a.
Proof.
  unfold json_dict. apply (fold_left_ind _ (λ _ d, x ∈ d → ∃ a, x.1 = k a)); [by intros ?%elem_of_nil|].
  intros pre a d _ IH Hx. destruct (pset_entry _ _ _ _ Hx); eauto.
Qed.

(** A dictionary of notes. *)
Definition notes (d : list (string * json)) : Prop := ∀ x, x ∈ d → starts_with "_" x.1 = true.

Lemma json_dict_notes {A} (s : A → string) v (l : list A) : notes (json_dict (λ x, "_" +:+ s x)%string v l).
Proof. intros x Hx. destruct (json_dict_keys _ _ _ _ Hx) as [a ->]. apply starts_note. Qed.

Lemma notes_filter d : notes d → filter (λ e, starts_with "_" e.1 = false) d = [].
Proof.
  induction d as [|e d IH]; intros Hd; [done|]. rewrite filter_cons, decide_False.
  - apply IH. intros x Hx. apply Hd. by right.
  - by rewrite (Hd e ltac:(left)).
Qed.

Lemma notes_section {A} (f : string → json → res A) d : notes d → parse_section f (JObj d) = Ok [].
Proof.
  intros Hd. unfold parse_section, or_empty. assert (json_items (if truthy (JObj d) then JObj d else JObj []) = Ok d) as ->
    by (by destruct d).
  cbn [mbind res_bind]. by rewrite notes_filter.
Qed.

Lemma notes_maps maps d out : notes d → foldR (parse_map_entry maps) out d = Ok out.
Proof.
  induction d as [|e d IH]; intros Hd; [done|]. cbn [foldR].
  assert (parse_map_entry maps out e = Ok out) as -> by (unfold parse_map_entry; by rewrite (Hd e ltac:(left))).
  cbn [mbind res_bind]. apply IH. intros x Hx. apply Hd. by right.
Qed.

(** ** The packet *)

Section scaffold.
Context `{!SMT} `{!Scapy}.

(** Layers built without arguments give no field a value of its own, and the deepest
    template is an Ethernet, an IP and a TCP header. *)
Definition bare (t : string) : Prop := ∃ layers bytes mask, scapy_eval (JStr t) = Ok layers ∧
  _packet_byte_facts layers = Ok (bytes, mask) ∧ (length bytes <= 54)%nat ∧ Forall (λ e, e = false) mask.
Definition bare_layers : Prop :=
  bare "Ether()" ∧ bare "Ether()/IP()" ∧ bare "Ether()/IP()/TCP()".

Lemma template_bare f : bare_layers → bare (packet_template f).
Proof.
  intros (H1 & H2 & H3). unfold packet_template. destruct (14 <? read_depth f) eqn:E14, (34 <? read_depth f) eqn:E34;
    simpl; try done; rewrite ?andb_false_r; try done; lia.
Qed.

Lemma explicit_none bytes mask : Forall (λ e, e = false) mask → explicit_bytes bytes mask = Ok [].
Proof.
  unfold explicit_bytes.
  assert (∀ (l : list (nat * bool)) d, Forall (λ x, x.2 = false) l →
    foldR (λ d '(i, ex), if (ex : bool) then b ← py_index bytes (Z.of_nat i); Ok (pset d (Z.of_nat i) b)
                         else Ok d) d l = Ok d) as Hgo.
  { induction l as [|[i x] l IH]; intros d Hl; [done|]. apply Forall_cons in Hl as [Hx Hl]. simpl in *. subst.
    by apply IH. }
  intros Hm. apply Hgo. apply Forall_lookup. intros i [j x] Hi.
  rewrite list_lookup_imap in Hi. apply fmap_Some in Hi as (y & Hy & [= _ ->]).
  rewrite Forall_lookup in Hm. by apply (Hm i).
Qed.

(** ** The skeleton *)

(** The packet length the skeleton states. *)
Definition scaffold_len (f : ProgramFacts) : Z :=
  if is_empty_list (f_pkt_reads f) then 64 else Z.max (read_depth f) 54.

Lemma input_parts node maps len n ms :
  parse_packet node = Ok ([], len) → match len with Some k => k <= n | None => True end →
  json_get_or node "context" (JObj []) = Ok (JObj [("pkt_len"%string, JInt n)]) →
  json_get_or node "maps" JNull = Ok (JObj ms) → notes ms →
  _parse_input node maps = Ok (mk_input [] (Some n) [] None None None).
Proof.
  intros Hp Hlen Hc Hm Hn. unfold _parse_input. rewrite Hp. cbn [mbind res_bind]. rewrite Hc.
  assert (or_empty <$> (Ok (JObj [("pkt_len"%string, JInt n)]) : res json) = Ok (JObj [("pkt_len"%string, JInt n)])) as ->
    by done.
  cbn [mbind res_bind].
  assert (_ctx_int (JObj [("pkt_len"%string, JInt n)]) "pkt_len" = Ok (Some n)) as -> by done.
  assert (∀ s, s ≠ "pkt_len"%string → _ctx_int (JObj [("pkt_len"%string, JInt n)]) s = Ok None) as Hno.
  { intros s Hs. unfold _ctx_int. simpl. unfold pmem. simpl. by rewrite decide_False. }
  rewrite !Hno by done. cbn [mbind res_bind]. rewrite Hm.
  assert (json_items (or_empty (JObj ms)) = Ok ms) as Hi by (by destruct ms).
  destruct len as [k|]; cbn [mbind res_bind]; rewrite ?(proj2 (Z.ltb_ge n k)) by done;
    cbn [mbind res_bind]; rewrite Hi; cbn [mbind res_bind]; by rewrite notes_maps.
Qed.

Lemma scaffold_input f maps : bare_layers →
  _parse_input (_input f) maps = Ok (mk_input [] (Some (scaffold_len f)) [] None None None).
Proof.
  intros Hb. unfold _input, scaffold_len. pose proof (json_dict_notes mf_name (λ m, JStr (map_note m))
    (filter (λ m, mf_lookups m ≠ []) (f_maps f))) as Hm. fold (_maps f) in Hm. revert Hm.
  generalize (_maps f) as ms. intros ms Hm. destruct (is_empty_list (f_pkt_reads f)).
  - by apply (input_parts _ _ None _ ms).
  - destruct (template_bare f Hb) as (layers & bytes & mask & He & Hf & Hl & Hmask).
    apply (input_parts _ _ (Some (Z.of_nat (length bytes))) _ ms); [|lia|done|done|done].
    match goal with |- parse_packet (JObj (app [_; (_, ?t); _; _] _)) = _ => assert (t = JStr (packet_template f)) as _ by done end.
    unfold parse_packet.
    match goal with |- context [json_in ?k ?x] => assert (json_in k x = Ok true) as -> by done end.
    match goal with |- context [json_item ?x ?k] => assert (json_item x k = Ok (JStr (packet_template f))) as -> by done end.
    cbn [mbind res_bind]. rewrite He. cbn [mbind res_bind].
    rewrite Hf. cbn [mbind res_bind]. by rewrite explicit_none.
Qed.

(** The condition on what the program returns, when that is known. *)
Definition ret_leaf (n : Z) : CondNode := CLeaf (RetAtom OEq n).
Definition baseline (codes : list Z) : CondNode :=
  match codes with [n] => ret_leaf n | _ => COr (map ret_leaf codes) end.
Definition scaffold_exits (f : ProgramFacts) : list ExitCondition :=
  match ret_codes f with Some ((_ :: _) as codes) => [mk_ec "observed_returns" true (baseline codes)] | _ => [] end.

Lemma parse_ret maps calls n : _parse_cond maps calls None None (ret_atom n) = Ok (ret_leaf n).
Proof. done. Qed.

Lemma parse_or maps calls n k l :
  _parse_cond maps calls None None (JObj [("or"%string, JList (map ret_atom (n :: k :: l)))]) =
  Ok (COr (map ret_leaf (n :: k :: l))).
Proof.
  cbn. lazymatch goal with |- context [?g (map ret_atom l)] =>
    assert (g (map ret_atom l) = Ok (map ret_leaf l)) as ->; [|done] end.
  induction l as [|x l IH]; [done|]. cbn in *. by rewrite IH.
Qed.

Lemma exit_node name s c maps calls :
  _parse_exit_condition name (JObj [("_note", s); ("assert", JStr "all"); ("cond", c)]%string) maps calls =
  (cond ← _parse_cond maps calls None None c; Ok (mk_ec name true cond)).
Proof. done. Qed.

(** A section of one condition and a note. *)
Lemma one_section {A} (f : string → json → res A) k x e a : starts_with "_" k = false → starts_with "_" e.1 = true →
  f k x = Ok a → parse_section f (JObj [(k, x); e]) = Ok [a].
Proof.
  intros Hk He Hf. unfold parse_section. cbn [or_empty truthy json_items mbind res_bind].
  rewrite filter_cons, decide_True by done. rewrite filter_cons, decide_False by (by rewrite He).
  simpl. by rewrite Hf.
Qed.

Lemma scaffold_section f maps calls :
  parse_section (λ name node, _parse_exit_condition name node maps calls) (_exit_conditions f) =
  Ok (scaffold_exits f).
Proof.
  unfold _exit_conditions, scaffold_exits. destruct (ret_codes f) as [[|c [|k l]]|].
  1, 4: by apply notes_section; intros x ->%list_elem_of_singleton.
  - by rewrite (one_section _ _ _ _ (mk_ec "observed_returns" true (baseline [c]))).
  - rewrite (one_section _ _ _ _ (mk_ec "observed_returns" true (baseline (c :: k :: l)))); [done|done|done|].
    by rewrite exit_node, parse_or.
Qed.

Lemma baseline_holds m st codes :
  holds m st (baseline codes) = existsb (λ n, ev m (z_r0 st) =? wrap 64 n) codes.
Proof.
  destruct codes as [|n [|k l]]; [done|simpl; by rewrite orb_false_r|].
  unfold baseline. generalize (n :: k :: l) as codes. induction codes as [|x codes IH]; [done|]. simpl in *. by rewrite IH.
Qed.

(** C35 The skeleton runs as it is. Whatever the facts, the blocks chosen and the program
    it is parsed against, the parser accepts it: every block condition is skipped, no
    byte of the packet and no map is fixed, the packet is as long as the deepest read
    at a known offset needs, and the exits are asserted, when their codes are known,
    to return one of them and nothing more. *)
Theorem scaffold_runs f chosen_blocks maps blocks calls : bare_layers →
  parse_spec (spec_scaffold f chosen_blocks) maps blocks calls =
    Ok (mk_policy (Some (mk_input [] (Some (scaffold_len f)) [] None None None)) [] (scaffold_exits f)) ∧
  (∀ o s n, (o, s, n) ∈ f_pkt_reads f → o + s <= scaffold_len f) ∧
  match ret_codes f with
  | Some ((_ :: _) as codes) => ∃ e, scaffold_exits f = [e] ∧ ec_all e = true ∧
      ∀ m st, holds m st (ec_cond e) = existsb (λ n, ev m (z_r0 st) =? wrap 64 n) codes
  | _ => scaffold_exits f = []
  end.
Proof.
  intros Hb. split; [|split].
  - unfold parse_spec, spec_scaffold.
    assert (notes (json_dict (λ b, "_b" +:+ pretty (bf_num b))%string _block_condition (chosen f chosen_blocks))) as Hn
      by exact (json_dict_notes (λ b, "b" +:+ pretty (bf_num b))%string _ _).
    revert Hn. generalize (json_dict (λ b, "_b" +:+ pretty (bf_num b))%string _block_condition (chosen f chosen_blocks)).
    intros bcs Hn. pose proof (scaffold_input f maps Hb) as Hi. pose proof (scaffold_section f maps calls) as He.
    revert Hi He. generalize (_input f), (_exit_conditions f), (_header f), _HOWTO. intros inp ex hd how Hi He.
    cbn [mbind res_bind].
    match goal with |- context [guard_or ?b ?e] => assert (guard_or b e = Ok tt) as -> by done end.
    cbn [mbind res_bind].
    match goal with |- context [guard_or ?b ?e] => assert (guard_or b e = Ok tt) as -> by done end.
    cbn [mbind res_bind].
    match goal with |- context [pget ?d ?k] => assert (pget d k = Some inp) as -> by done end.
    rewrite Hi. cbn [mbind res_bind].
    match goal with |- context [get_or ?d "block_conditions" ?k] => assert (get_or d "block_conditions" k = JObj bcs) as -> by done end.
    rewrite notes_section by done. cbn [mbind res_bind].
    match goal with |- context [get_or ?d "exit_conditions" ?k] => assert (get_or d "exit_conditions" k = ex) as -> by done end.
    by rewrite He.
  - intros o s n Hin. unfold scaffold_len, read_depth.
    destruct (f_pkt_reads f) as [|x l]; [by apply elem_of_nil in Hin|]. cbn [is_empty_list].
    assert (∀ (l : list Z) a, a <= fold_left Z.max l a ∧ ∀ z, z ∈ l → z <= fold_left Z.max l a) as Hmax.
    { clear. induction l as [|y l IH]; intros a; simpl; [split; [lia|by intros z ?%elem_of_nil]|].
      destruct (IH (Z.max a y)) as [H1 H2]. split; [lia|]. intros z [-> | Hz]%elem_of_cons; [lia|auto]. }
    cbn [map]. destruct (Hmax (map (λ x : Z * Z * option string, x.1.1 + x.1.2) l) (x.1.1 + x.1.2)) as [H1 H2].
    apply elem_of_cons in Hin as [<- | Hin]; simpl in *; [lia|].
    specialize (H2 (o + s) (list_elem_of_fmap_2 (λ x : Z * Z * option string, x.1.1 + x.1.2) _ _ Hin)). lia.
  - unfold scaffold_exits. destruct (ret_codes f) as [[|c l]|]; [done| |done].
    eexists. split; [done|]. split; [done|]. intros m st. apply baseline_holds.
Qed.
End scaffold.

(** ** Examples *)

#[local] Existing Instance two.

(** [if (data + 50 > data_end) return 1; data[23] is read; return 2;]. *)
Definition read_text_section : section := mk_section "xdp" (mjoin
  [[0x61; 0x12; 0; 0; 0; 0; 0; 0]; [0x61; 0x13; 4; 0; 0; 0; 0; 0]; [0xbf; 0x24; 0; 0; 0; 0; 0; 0];
   [0x07; 4; 0; 0; 50; 0; 0; 0]; [0x2d; 0x34; 3; 0; 0; 0; 0; 0]; [0x71; 0x21; 23; 0; 0; 0; 0; 0];
   [0xb7; 0; 0; 0; 2; 0; 0; 0]; [0x95; 0; 0; 0; 0; 0; 0; 0];
   [0xb7; 0; 0; 0; 1; 0; 0; 0]; [0x95; 0; 0; 0; 0; 0; 0; 0]]).
Definition read_main : elf_symbol := mk_elf_symbol "main" 0 80 (ShNum 0) "STT_FUNC".
Definition read_sections : list section := [read_text_section; mk_section ".symtab" []].

Definition read_elf : Elf := {|
  iter_sections := read_sections;
  get_section_by_name := λ n, List.find (λ s, bool_decide (sec_name s = n)) read_sections;
  get_section := λ i, Ok (match i with ShNum n => read_sections !! Z.to_nat n | _ => None end);
  iter_symbols := [read_main];
  get_symbol_by_name := λ n, if bool_decide (n = "main"%string) then Some [read_main] else None;
  get_symbol := λ _, Ok read_main;
  iter_relocations := λ _, []
|}.

(** Headers of zeros with no field given. *)
Definition zeros (n : nat) : layer :=
  [mk_field false (λ a, match a with FBytes l => FBytes (l ++ replicate n 0) | _ => a end)].
#[local] Instance bare_scapy : Scapy := {|
  scapy_eval := λ x, match x with
    | JStr s => if bool_decide (s = "Ether()"%string) then Ok [zeros 14]
                else if bool_decide (s = "Ether()/IP()"%string) then Ok [zeros 14; zeros 20]
                else Ok [zeros 14; zeros 20; zeros 20]
    | _ => Err TypeError
    end;
  numeral := λ s, py_int 10 s
|}.

Lemma bare_scapy_layers : bare_layers.
Proof.
  split; [|split]; do 3 eexists; (split; [vm_compute; reflexivity|]); (split; [vm_compute; reflexivity|]);
    (split; [vm_compute; lia|]); by repeat constructor.
Qed.

Example read_facts :
  match facts_of read_elf with
  | Ok (_, f) => (f_pkt_reads f, packet_template f, ret_codes f, map bf_num (interesting_blocks f))
  | Err _ => ([], ""%string, None, [])
  end = ([(23, 1, Some "ip_proto"%string)], "Ether()/IP()"%string, Some [1; 2], [1; 2]).
Proof. vm_compute. reflexivity. Qed.

Lemma scaffold_runs_witness : ∃ p f, facts_of read_elf = Ok (p, f) ∧
  parse_spec (spec_scaffold f None) (Some (p_maps p)) (Some (p_blocks p)) (Some (p_calls p)) =
    Ok (mk_policy (Some (mk_input [] (Some 54) [] None None None)) []
          [mk_ec "observed_returns" true (COr [CLeaf (RetAtom OEq 1); CLeaf (RetAtom OEq 2)])]).
Proof.
  destruct (run_test (facts_of read_elf) (λ x, bool_decide (ret_codes x.2 = Some [1; 2]) && (scaffold_len x.2 =? 54)))
    as ([p f] & E & [Hr Hl]%andb_true_iff); [vm_compute; reflexivity|].
  apply bool_decide_eq_true in Hr. apply Z.eqb_eq in Hl. exists p, f. split; [exact E|].
  destruct (scaffold_runs f None (Some (p_maps p)) (Some (p_blocks p)) (Some (p_calls p)) bare_scapy_layers) as (Hp & _).
  rewrite Hp. simpl in Hl. rewrite Hl. unfold scaffold_exits. simpl in Hr. rewrite Hr. reflexivity.
Defined.
