(* ===== verification/Render.v ===== *)
(** The report on a program ([report/render.py]): its facts as text and as JSON.

    Texts are those of ASCII names; the rules and dashes of the report are written in
    UTF-8, as the report is. *)

From stdpp Require Import sorting.
From S2P Require Import Prelude Constants Expr Block Pystr Spec Loader Program Text Facts Scaffold.

From Stdlib Require Import Ascii.

Local Open Scope string_scope.
Local Open Scope Z_scope.

(** ** Formats *)

Fixpoint repeat_text (n : nat) (s : string) : string :=
  match n with O => "" | S k => s +:+ repeat_text k s end.

Definition codes_text (l : list Z) : string := "{" +:+ String.concat ", " (map pretty l) +:+ "}".

(** ** The sections *)

Definition _W : Z := 78.
Definition _rule (title : string) : string :=
  if bool_decide (title = "") then repeat_text (Z.to_nat _W) "─"
  else "── " +:+ title +:+ " " +:+ repeat_text (Z.to_nat (_W - (slen title + 4))) "─".

(** [sorted(d.items(), key=lambda kv: -kv[1])]. *)
Definition by_count (l : list (string * Z)) : list (string * Z) := sort_by (λ x, - x.2) l.
Definition counts_text (sep : string) (l : list (string * Z)) : string :=
  String.concat sep (map (λ x : string * Z, x.1 +:+ " " +:+ pretty x.2) (by_count l)).

Definition edges_list (l : list (Z * Z)) : string :=
  "[" +:+ String.concat ", " (map (λ x : Z * Z, "(" +:+ pretty x.1 +:+ ", " +:+ pretty x.2 +:+ ")") l) +:+ "]".

Definition _program (f : ProgramFacts) : list string :=
  let cyc := if acyclic f then "acyclic"
             else "CYCLIC: back edges " +:+ edges_list (f_back_edges f) +:+ " — the topological traversal cannot finish" in
  mjoin [
    ["program   " +:+ f_object_path f;
     "          entry " +:+ f_entry f;
     "  size    " +:+ pretty (f_n_instrs f) +:+ " instructions (" +:+ pretty (f_n_bytes f) +:+ " B)   "
       +:+ pretty (f_n_blocks f) +:+ " blocks   " +:+ cyc];
    if is_empty_list (f_helpers f) then [] else ["  helpers " +:+ counts_text "   " (f_helpers f)];
    if is_empty_list (f_effects f) then [] else ["  effects " +:+ counts_text "  " (f_effects f)];
    if (f_rodata f =? 0) && (f_bss f =? 0) then []
    else ["  globals .rodata " +:+ pretty (f_rodata f) +:+ " objects   .bss " +:+ pretty (f_bss f) +:+ " objects"]].

Definition prog_lines (p : ProgFact) : list string :=
  let span := if bool_decide (pf_first_block p = pf_last_block p) then "b" +:+ opt_text (pf_first_block p)
              else "b" +:+ opt_text (pf_first_block p) +:+ "-b" +:+ opt_text (pf_last_block p) in
  ["  " +:+ pad 20 (cut 20 (pf_name p)) +:+ "  " +:+ pad 9 span +:+ " " +:+ pad_right 6 (pretty (pf_n_instrs p))
     +:+ "  " +:+ loaded_at p;
   "     from " +:+ pf_path p].

Definition _programs (f : ProgramFacts) : list string :=
  if zlen (f_progs f) <? 2 then []
  else
    let unpinned := filter (λ p, negb (pf_is_main p) && bool_decide (pf_slot p = None) = true) (f_progs f) in
    mjoin [
      [_rule ("programs (" +:+ pretty (zlen (f_progs f)) +:+ ")");
       "  entry                 blocks     instrs  loaded at"];
      mjoin (map prog_lines (f_progs f));
      if is_empty_list unpinned then [] else
      ["";
       "  A callee with no slot is reached under a FREE condition: both the";
       "  transfer and the failure stay satisfiable and neither is proved.";
       "  Pin it with --tail obj:entry@SLOT to decide the edge."]].

Definition map_lines (m : MapFact) : list string :=
  let sites := call_sites (mf_lookups m) in
  app ["  " +:+ pad_right 2 (pretty (mf_id m)) +:+ " " +:+ pad 20 (cut 20 (mf_name m)) +:+ " "
     +:+ pad 12 (cut 12 (mf_type_name m)) +:+ " " +:+ pad_right 4 (pretty (mf_key_size m)) +:+ " "
     +:+ pad_right 4 (pretty (mf_value_size m)) +:+ " " +:+ pad_right 8 (pretty (mf_max_entries m)) +:+ " "
     +:+ pad_right 8 (pretty (zlen (mf_lookups m))) +:+ "  " +:+ pad 4 (if needs_seed m then "YES" else "-")]
    (if bool_decide (sites = "") then [] else ["     at " +:+ sites]).

Definition seed_line (m : MapFact) : string :=
  "    " +:+ quoted (mf_name m) +:+ ": {" +:+ quoted ("<" +:+ pretty (mf_key_size m) +:+ "B key>") +:+ ": "
  +:+ quoted ("<" +:+ pretty (mf_value_size m) +:+ "B value>") +:+ "}   # or {} to pin it empty".

Definition _maps (f : ProgramFacts) : list string :=
  _rule ("maps (" +:+ pretty (zlen (f_maps f)) +:+ ")") ::
  match f_maps f with
  | [] => ["  (none)"]
  | maps =>
      let seeded := filter (λ m, needs_seed m = true) maps in
      mjoin [
        ["  id name                 type          key  val  entries  lookups  seed"];
        mjoin (map map_lines maps);
        if is_empty_list seeded then [] else
        app ["";
         "  seed=YES: a HASH-family map starts EMPTY, so its lookups always miss";
         "  and the hit-path blocks after them are unreachable — an assert:" +:+ quoted "all";
         "  there passes vacuously. List the map in input.maps to control it:"] (map seed_line seeded)]
  end.

Definition _packet (f : ProgramFacts) : list string :=
  _rule "packet bytes this program reads" ::
  match f_pkt_reads f with
  | [] => ["  (none — the program never reads packet memory)"]
  | reads =>
      let at_ (os : Z * Z) := pretty os.1 +:+ ":" +:+ pretty os.2 in
      let named := omap (λ x : Z * Z * option string, n ← real_name x.2; Some (n +:+ "@" +:+ at_ x.1)) reads in
      let plain := omap (λ x : Z * Z * option string,
                           match real_name x.2 with None => Some (at_ x.1) | Some _ => None end) reads in
      mjoin [
        if is_empty_list named then [] else ["  named  " +:+ String.concat "  " named];
        if is_empty_list plain then [] else ["  other  " +:+ String.concat "  " plain];
        if f_var_off_reads f =? 0 then []
        else ["  " +:+ pretty (f_var_off_reads f)
                +:+ " read(s) at a computed offset — name those with a `read` atom, not an `offset`"];
        ["  input.packet candidate:  " +:+ packet_template f]]
  end.

Definition exit_line (e : ExitFact) : string :=
  "  block " +:+ pad 4 (pretty (ef_block e)) +:+ " returns "
  +:+ match ef_ret_codes e with Some l => codes_text l | None => ef_ret e +:+ " (not constant-folded)" end.

Definition _exits (f : ProgramFacts) : list string :=
  _rule ("exits (" +:+ pretty (zlen (f_exits f)) +:+ ")") ::
  app (map exit_line (f_exits f))
  match ret_codes f with
  | Some codes => if 1 <? zlen (f_exits f) then ["  all exits: " +:+ codes_text codes] else []
  | None => []
  end.

(** The lines of a block, joined by [block_detail]. *)
Definition block_lines (i : string) (b : BlockFact) : list string :=
  mjoin [
    [i +:+ "block " +:+ pretty (bf_num b) +:+ "  " +:+ kind_text (bf_kind b) +:+ "  instrs " +:+ pretty (bf_start b)
       +:+ "-" +:+ pretty (bf_end b) +:+ "  preds " +:+ preds_text b +:+ "  " +:+ edges_text b];
    match real_name (bf_prog_entry b) with
    | Some e => [i +:+ "  entry of " +:+ e +:+ " — reached only by a tail call"]
    | None => []
    end;
    match real_name (bf_cond b) with Some c => [i +:+ "  when taken: " +:+ c] | None => [] end;
    match bf_ret b with
    | Some r => [i +:+ "  returns " +:+ match bf_ret_codes b with Some l => codes_text l | None => r end]
    | None => []
    end;
    map (λ r, i +:+ "  read  @" +:+ pad 5 (pretty (rd_idx r)) +:+ " " +:+ read_text r) (bf_reads b);
    map (λ c, i +:+ "  call  @" +:+ pad 5 (pretty (cl_idx c)) +:+ " " +:+ call_text c) (bf_calls b);
    if bf_phis b =? 0 then [] else [i +:+ "  phis  " +:+ pretty (bf_phis b) +:+ " value(s) merged from predecessors"];
    if is_empty_list (bf_writes b) then [] else [i +:+ "  write " +:+ String.concat "  " (sorted_names (bf_writes b))];
    match atoms_of b with
    | [] => []
    | atoms => (i +:+ "  atoms for a block_conditions cond:") :: map (λ a, i +:+ "    " +:+ py_repr a) atoms
    end].
Definition block_detail (b : BlockFact) (indent : string) : string := lines_text (block_lines indent b).

Definition _blocks (f : ProgramFacts) : list string :=
  _rule ("blocks that produce a value or call a helper (" +:+ pretty (zlen (interesting_blocks f)) +:+ " of "
         +:+ pretty (f_n_blocks f) +:+ ")")
  :: mjoin (map (λ b, app (splitlines (block_detail b "  ")) [""]) (interesting_blocks f)).

Definition _next_steps : list string :=
  [_rule "next";
   "  hornet -i <obj> -e <entry> -s info -b N          one block in detail";
   "  hornet -i <obj> -e <entry> -s info --all-blocks  every block";
   "  hornet -i <obj> -e <entry> --spec-init s.json    a runnable spec skeleton"].

Definition report_lines (f : ProgramFacts) (blocks : bool) : list string :=
  let progs := _programs f in
  mjoin [
    _program f;
    if is_empty_list progs then [] else "" :: progs;
    "" :: _maps f; "" :: _packet f; "" :: _exits f;
    if blocks then "" :: _blocks f else [];
    "" :: _next_steps].
Definition report (f : ProgramFacts) (blocks : bool) : string := lines_text (report_lines f blocks).

(** ** JSON *)

Definition json_str (o : option string) : json := json_opt JStr o.
Definition json_int_opt (o : option Z) : json := json_opt JInt o.
Definition read_kind_text (k : read_kind) : string := match k with ReadPkt => "pkt" | ReadMap => "map" end.
Definition json_key (k : call_key) : json :=
  match k with KeyNone => JNull | KeyName s => JStr s | KeySlot n => JInt n end.

(** [asdict] of each kind of fact, and what is added to it. *)
Definition read_dict (r : Read) : list (string * json) :=
  [("kind", JStr (read_kind_text (rd_kind r))); ("idx", JInt (rd_idx r)); ("off", JInt (rd_off r));
   ("size", JInt (rd_size r)); ("var_off", JBool (rd_var_off r)); ("map_name", json_str (rd_map_name r));
   ("map_id", json_int_opt (rd_map_id r)); ("map_key", json_str (rd_map_key r)); ("field", json_str (rd_field r))].
Definition call_dict (c : Call) : list (string * json) :=
  [("idx", JInt (cl_idx c)); ("imm", JInt (cl_imm c)); ("helper", JStr (cl_helper c));
   ("returns", JStr (returns_text (cl_returns c))); ("block_num", JInt (cl_block c));
   ("map_name", json_str (cl_map_name c)); ("map_id", json_int_opt (cl_map_id c));
   ("map_key", json_key (cl_map_key c)); ("target", json_str (cl_target c))].

Definition family_text (x : family_t) : string :=
  match x with FamArray => "array" | FamHash => "hash" | FamProg => "prog" | FamOther => "other" end.

Definition _map (m : MapFact) : json :=
  JObj [("id", JInt (mf_id m)); ("name", JStr (mf_name m)); ("type", JInt (mf_type m));
    ("type_name", JStr (mf_type_name m)); ("key_size", JInt (mf_key_size m)); ("value_size", JInt (mf_value_size m));
    ("max_entries", JInt (mf_max_entries m)); ("flags", JInt (mf_flags m)); ("written", JBool (mf_written m));
    ("targets", JList (map (λ t : option Z * string, JList [json_int_opt t.1; JStr t.2]) (mf_targets m)));
    ("transfers", JList (map (λ c, JObj (call_dict c)) (mf_transfers m)));
    ("family", JStr (family_text (family m))); ("needs_seed", JBool (needs_seed m));
    ("lookups", JList (map (λ c, JObj [("idx", JInt (cl_idx c)); ("block", JInt (cl_block c))]) (mf_lookups m)));
    ("value_reads", JList (map (λ r, JObj [("idx", JInt (rd_idx r)); ("off", JInt (rd_off r));
                                           ("size", JInt (rd_size r))]) (mf_reads m)))].

Definition read_entry (r : Read) : json := JObj (app (read_dict r) [("text", JStr (read_text r))]).
Definition call_entry (c : Call) : json := JObj (app (call_dict c) [("text", JStr (call_text c))]).

Definition _block (b : BlockFact) : json :=
  JObj [("num", JInt (bf_num b)); ("kind", JStr (kind_text (bf_kind b))); ("start", JInt (bf_start b));
    ("end", JInt (bf_end b)); ("preds", json_ints (bf_preds b)); ("succ_t", json_int_opt (bf_succ_t b));
    ("succ_f", json_int_opt (bf_succ_f b)); ("cond", json_str (bf_cond b));
    ("reads", JList (map read_entry (bf_reads b))); ("calls", JList (map call_entry (bf_calls b)));
    ("writes", JList (map JStr (bf_writes b))); ("phis", JInt (bf_phis b)); ("ret", json_str (bf_ret b));
    ("ret_codes", json_opt json_ints (bf_ret_codes b)); ("prog_entry", json_str (bf_prog_entry b))].

Definition prog_entry_json (p : ProgFact) : json :=
  JObj [("name", JStr (pf_name p)); ("path", JStr (pf_path p)); ("first_block", json_int_opt (pf_first_block p));
    ("last_block", json_int_opt (pf_last_block p)); ("n_instrs", JInt (pf_n_instrs p));
    ("slot", json_int_opt (pf_slot p)); ("map_name", json_str (pf_map_name p))].
Definition exit_entry (e : ExitFact) : json :=
  JObj [("block", JInt (ef_block e)); ("ret", JStr (ef_ret e)); ("ret_codes", json_opt json_ints (ef_ret_codes e))].
Definition counts_json (l : list (string * Z)) : json := JObj (map (λ x : string * Z, (x.1, JInt x.2)) l).
Definition pkt_read_json (x : Z * Z * option string) : json :=
  JObj [("off", JInt x.1.1); ("size", JInt x.1.2); ("field", json_str x.2)].

Definition to_json (f : ProgramFacts) (blocks : bool) : json :=
  JObj (app
    [("object", JStr (f_object_path f)); ("entry", JStr (f_entry f));
     ("size", JObj [("instructions", JInt (f_n_instrs f)); ("bytes", JInt (f_n_bytes f)); ("blocks", JInt (f_n_blocks f));
                    ("rodata_objects", JInt (f_rodata f)); ("bss_objects", JInt (f_bss f))]);
     ("cfg", JObj [("acyclic", JBool (acyclic f));
                   ("back_edges", JList (map (λ x : Z * Z, JList [JInt x.1; JInt x.2]) (f_back_edges f)))]);
     ("programs", JList (map prog_entry_json (f_progs f)));
     ("helpers", counts_json (f_helpers f)); ("effects", counts_json (f_effects f));
     ("maps", JList (map _map (f_maps f))); ("packet_reads", JList (map pkt_read_json (f_pkt_reads f)));
     ("var_offset_reads", JInt (f_var_off_reads f)); ("packet_template", JStr (packet_template f));
     ("exits", JList (map exit_entry (f_exits f))); ("return_codes", json_opt json_ints (ret_codes f))]
    (if blocks then [("blocks", JList (map _block (f_blocks f)))] else [])).

(** ** The methods of a program *)

Section methods.
Context (open : string → Elf) (depth : nat) (oid0 : Z).

(** [prog.facts()] of an analysed program, whose cache holds what they are. *)
Definition facts (p : eBPFProgram) : res ProgramFacts := p ← analyze open depth oid0 p; collect p.

Definition program_report (p : eBPFProgram) (blocks : bool) : res string :=
  f ← facts p; Ok (report f blocks).
Definition block_fact_of (p : eBPFProgram) (n : Z) : res BlockFact :=
  f ← facts p; of_option (ValueError "no such block") (block_of f n).
Definition block_report (p : eBPFProgram) (n : Z) : res string :=
  b ← block_fact_of p n; Ok (block_detail b "").
Definition report_json (p : eBPFProgram) (blocks : bool) : res json := f ← facts p; Ok (to_json f blocks).
Definition program_scaffold (p : eBPFProgram) (blocks : option (list Z)) : res json :=
  f ← facts p; Ok (spec_scaffold f blocks).
End methods.
