(* ===== verification/Cli.v ===== *)
(** The command line ([cli.py]): the checks on the arguments, the stages that are run,
    what is written where, and the exit code.

    The arguments are those [argparse] leaves ([Namespace]); an output is a text, a
    document before [json.dump] lays it out, or the results of a check; messages on the
    standard error are left out. *)

From Stdlib Require Import Ascii.
From S2P Require Import Prelude Constants Smt SmtTerm Instr Link Expr Record Encode Action Block Prune Pystr Spec.
From S2P Require Import Forward Witness Checker Loader Program Tail Text Facts Scaffold Render.

Local Open Scope Z_scope.

(** ** Arguments *)

Inductive cli_stage := StInfo | StStatic | StVerify | StAll.
#[global] Instance cli_stage_eq_dec : EqDecision cli_stage.
Proof. solve_decision. Defined.

(** [Config], with the tails and the blocks of the skeleton as [T] and [B]: text until
    [parse_args] reads them. *)
Record Config_ (T B : Type) := mk_config {
  cf_input : string;
  cf_entry : string;
  cf_tail : list T;
  cf_constraints : option string;
  cf_info_output : option string;
  cf_info_json : option string;
  cf_spec_init : option string;
  cf_result_output : option string;
  cf_stage : cli_stage;
  cf_block : option Z;
  cf_spec_blocks : B;
  cf_all_blocks : bool;
  cf_reach_report : bool;
  cf_no_pipeline : bool;
  cf_verbose : bool
}.
Arguments mk_config {T B}. Arguments cf_input {T B}. Arguments cf_entry {T B}. Arguments cf_tail {T B}.
Arguments cf_constraints {T B}. Arguments cf_info_output {T B}. Arguments cf_info_json {T B}.
Arguments cf_spec_init {T B}. Arguments cf_result_output {T B}. Arguments cf_stage {T B}.
Arguments cf_block {T B}. Arguments cf_spec_blocks {T B}. Arguments cf_all_blocks {T B}.
Arguments cf_reach_report {T B}. Arguments cf_no_pipeline {T B}. Arguments cf_verbose {T B}.

Definition Namespace : Type := Config_ string (option string).
Definition Config : Type := Config_ TailSpec (option (list Z)).

Section config.
Context {T B : Type} (cfg : Config_ T B).
Definition run_info : bool := bool_decide (cf_stage cfg ∈ [StInfo; StStatic; StAll]).
Definition run_verify : bool := bool_decide (cf_stage cfg ∈ [StVerify; StAll]).
End config.

(** [s.split()]: the words between white space. *)
Fixpoint words (l : list ascii) (word : list ascii) : list (list ascii) :=
  let flush := match word with [] => [] | _ => [rev word] end in
  match l with
  | [] => flush
  | c :: l' => if is_space c then app flush (words l' []) else words l' (c :: word)
  end.

(** [cfg.spec_blocks.replace(',', ' ').split()], each read as a number. *)
Definition parse_blocks (text : string) : res (list Z) :=
  match mapR (py_int_l 10) (words (map (λ c, if Ascii.eqb c "," then " "%char else c) (chars text)) []) with
  | Err (ValueError _) => Err (CliError "--spec-blocks takes block ids")
  | r => r
  end.

Section cli.
Context `{SMT} `{!SameTerm} `{!Solver} `{!SmtAst} `{!Scapy}.

(** ** What is written *)

(** The texts and documents; [Opened] is a file emptied for writing. *)
Inductive output :=
| Opened (path : string)
| OutText (path : option string) (text : string)
| OutJson (path : option string) (x : json)
| OutResults (path : option string) (pipeline : bool) (v : Verification).

(** The object files, the documents as they are after some outputs, the tests and
    operations of the file system. *)
Context (open : string → Elf) (read_spec : list output → string → res json).
Context (isfile : string → bool) (makedirs : string → res unit) (open_w : string → bool).
Context (depth : nat) (oid0 : Z) (ast_fuel : nat).

Definition _parse_tails (specs : list string) : res (list TailSpec) :=
  mapR (λ text,
    spec ← match parse_tail_spec text with Err (LinkError m) => Err (CliError m) | r => r end;
    guard_or (isfile (t_path spec)) (CliError "--tail object file not found");;
    Ok spec) specs.

Definition parse_args (a : Namespace) : res Config :=
  guard_or (isfile (cf_input a)) (CliError "input object file not found");;
  guard_or (negb (bool_decide (cf_stage a = StVerify) && negb (bool_decide (is_Some (real_name (cf_constraints a))))))
    (CliError "-c/--constraints is required for stage 'verify'");;
  guard_or match real_name (cf_constraints a) with Some c => isfile c | None => true end
    (CliError "constraint file not found");;
  tails ← _parse_tails (cf_tail a);
  blocks ← match real_name (cf_spec_blocks a) with Some t => Some <$> parse_blocks t | None => Ok None end;
  Ok (mk_config (cf_input a) (cf_entry a) tails (cf_constraints a) (cf_info_output a) (cf_info_json a)
        (cf_spec_init a) (cf_result_output a) (cf_stage a) (cf_block a) blocks (cf_all_blocks a)
        (cf_reach_report a) (cf_no_pipeline a) (cf_verbose a)).

(** ** The run *)

Definition is_stdout (path : option string) : bool :=
  match path with None => true | Some p => bool_decide (p = "-"%string) end.

(** [with _open_out(path) as out: body]: an [OSError] of the body is taken for one of
    the file's. *)
Definition with_out {A} (path : option string) (body : ST (list output) A) : ST (list output) A := λ outs,
  match path with
  | Some p =>
      if is_stdout path then body outs
      else makedirs p;;
           if open_w p then
             match body (outs ++ [Opened p]) with Err OSError => Err (CliError "cannot write") | r => r end
           else Err (CliError "cannot write")
  | None => body outs
  end.

Definition out (o : output) : ST (list output) unit := λ outs, Ok (tt, outs ++ [o]).

Definition show_info (cfg : Config) (p : eBPFProgram) : ST (list output) unit :=
  text ← lift match
    (match cf_block cfg with
     | Some n => block_report open depth oid0 p n
     | None => program_report open depth oid0 p (cf_all_blocks cfg)
     end) with Err (ValueError m) => Err (CliError m) | r => r end;
  with_out (cf_info_output cfg) (out (OutText (cf_info_output cfg) text));;
  match real_name (cf_info_json cfg) with
  | Some path => with_out (Some path) (x ← lift (report_json open depth oid0 p true); out (OutJson (Some path) x))
  | None => mret tt
  end.

Definition write_skeleton (cfg : Config) (p : eBPFProgram) : ST (list output) unit :=
  match real_name (cf_spec_init cfg) with
  | Some path =>
      let blocks := match cf_spec_blocks cfg with Some ((_ :: _) as l) => Some l | _ => None end in
      with_out (Some path) (x ← lift (program_scaffold open depth oid0 p blocks); out (OutJson (Some path) x))
  | None => mret tt
  end.

(** [prog.check(cfg.constraints, ...)]: the results, printed. *)
Definition run_check (cfg : Config) (constraints : string) (p : eBPFProgram) : ST (list output) Verification :=
  outs ← get;
  '(v, _) ← lift (verify open (read_spec outs) depth oid0 ast_fuel (SpecPath constraints) (cf_reach_report cfg)
                    None None None p);
  out (OutResults (cf_result_output cfg) (negb (cf_no_pipeline cfg)) v);;
  mret v.

Definition EXIT_OK : Z := 0.
Definition EXIT_VIOLATION : Z := 1.
Definition EXIT_USAGE : Z := 2.
Definition EXIT_ERROR : Z := 3.

Definition run (cfg : Config) : ST (list output) Z :=
  p ← lift (load_program open depth oid0 (cf_input cfg) (cf_entry cfg) (cf_tail cfg));
  (if run_info cfg && negb (bool_decide (cf_spec_init cfg = Some "-"%string)) then show_info cfg p else mret tt);;
  write_skeleton cfg p;;
  match run_verify cfg, real_name (cf_constraints cfg) with
  | true, Some constraints =>
      v ← with_out (cf_result_output cfg) (run_check cfg constraints p);
      mret (if is_empty_list (violations v) then EXIT_OK else EXIT_VIOLATION)
  | _, _ => mret EXIT_OK
  end.

(** The exit code for an exception, which is raised again when the run is verbose. *)
Definition exit_of {A} (verbose : bool) (r : res A) (code : A → Z) : res Z :=
  match r with
  | Ok a => Ok (code a)
  | Err (CliError _) => Ok EXIT_USAGE
  | Err SystemExit => Err SystemExit
  | Err e => if verbose then Err e else Ok EXIT_ERROR
  end.

Definition main (a : Namespace) : res Z :=
  match parse_args a with
  | Ok cfg => exit_of (cf_verbose cfg) (run cfg []) fst
  | Err e => exit_of false (Err e) id
  end.
End cli.
