(* ===== verification/CliSound.v ===== *)
(** The exit code of the tool means what it says ([cli.py]): from the arguments to what
    holds of the paths of the program. *)

From stdpp Require Import sorting relations.
From S2P Require Import Prelude Constants Instr Link Smt SmtTerm Expr Record Encode Action Block Cfg CfgSound.
From S2P Require Import Prune PruneSound ReachSound Tracker Frame Pystr Spec SpecSound Forward ForwardSound.
From S2P Require Import Witness Checker CheckerSound CheckerExamples Loader Program ProgramSound.
From S2P Require Import ProgramExamples Tail Text Facts Scaffold Cli.

Section cli.
Context `{HSL : SMTLaws} `{!SameTerm} `{!SameTermLaws} `{!Solver} `{!SmtAst} `{!Scapy}.
Context (open : string → Elf) (read_spec : list output → string → res json).
Context (isfile : string → bool) (makedirs : string → res unit) (open_w : string → bool).
Context (depth : nat) (oid0 : Z) (ast_fuel : nat).

Notation main := (main open read_spec isfile makedirs open_w depth oid0 ast_fuel).
Notation run := (run open read_spec makedirs open_w depth oid0 ast_fuel).

Lemma with_out_Ok {A} path (body : ST (list output) A) outs r : with_out makedirs open_w path body outs = Ok r →
  ∃ outs1, body outs1 = Ok r ∧ outs `prefix_of` outs1.
Proof.
  unfold with_out. destruct path as [p|]; [|intros HE; by exists outs].
  destruct (is_stdout (Some p)); [intros HE; by exists outs|].
  intros HE. apply bind_Ok in HE as (u & _ & HE). destruct (open_w p); [|done].
  exists (outs ++ [Opened p]). split; [|by exists [Opened p]].
  destruct (body (outs ++ [Opened p])) as [?|[]]; congruence.
Qed.

(** What a run that returns has done. *)
Lemma run_Ok cfg outs z outs' : run cfg outs = Ok (z, outs') → ∃ p,
  load_program open depth oid0 (cf_input cfg) (cf_entry cfg) (cf_tail cfg) = Ok p ∧
  match run_verify cfg, real_name (cf_constraints cfg) with
  | true, Some path => ∃ before v p',
      verify open (read_spec before) depth oid0 ast_fuel (SpecPath path) (cf_reach_report cfg) None None None p
        = Ok (v, p') ∧ z = if v_ok v then 0 else 1
  | _, _ => z = 0
  end.
Proof.
  unfold Cli.run. intros HE. apply ST_bind_Ok in HE as (p & s1 & HL & HE). apply lift_Ok in HL as [HL ->].
  apply ST_bind_Ok in HE as (u1 & s2 & _ & HE). apply ST_bind_Ok in HE as (u2 & s3 & _ & HE).
  exists p. split; [done|]. destruct (run_verify cfg); [|by injection HE as <- <-].
  destruct (real_name (cf_constraints cfg)) as [path|]; [|by injection HE as <- <-].
  apply ST_bind_Ok in HE as (v & s4 & HW & HE). injection HE as <- <-.
  apply with_out_Ok in HW as (s5 & HC & _). unfold run_check in HC.
  apply ST_bind_Ok in HC as (o & s6 & [= <- <-] & HC). apply ST_bind_Ok in HC as ([v0 p'] & s7 & HV & HC).
  apply lift_Ok in HV as [HV ->]. apply ST_bind_Ok in HC as (u & s8 & _ & [= -> ->]).
  exists s5, v, p'. split; [done|]. unfold v_ok. by destruct (violations v).
Qed.

Lemma main_Ok a z : main a = Ok z → z = 0 ∨ z = 1 → ∃ cfg outs, parse_args isfile a = Ok cfg ∧ run cfg [] = Ok (z, outs).
Proof.
  unfold Cli.main. destruct (parse_args isfile a) as [cfg|e].
  - destruct (run cfg []) as [[z1 outs]|e1] eqn:E; simpl; [intros [= <-] _; by exists cfg, outs|].
    destruct e1; simpl; try destruct (cf_verbose cfg); intros [= <-] [Hz | Hz]; discriminate Hz.
  - destruct e; simpl; intros [= <-] [Hz | Hz]; discriminate Hz.
Qed.

(** What [parse_args] keeps. *)
Lemma parse_args_Ok a cfg : parse_args isfile a = Ok cfg →
  _parse_tails isfile (cf_tail a) = Ok (cf_tail cfg) ∧ cf_input cfg = cf_input a ∧ cf_entry cfg = cf_entry a ∧
  cf_constraints cfg = cf_constraints a ∧ cf_stage cfg = cf_stage a ∧ cf_reach_report cfg = cf_reach_report a.
Proof.
  unfold parse_args. intros HE. apply bind_Ok in HE as (u1 & _ & HE). apply bind_Ok in HE as (u2 & _ & HE).
  apply bind_Ok in HE as (u3 & _ & HE). apply bind_Ok in HE as (tails & HT & HE).
  by apply bind_Ok in HE as (bl & _ & [= <-]).
Qed.

(** C2 The exit code is the verdict. When the tool is told to verify against a
    specification and ends with 0 or 1, it has loaded, linked and tracked the object
    file and its tail-call targets and checked the document; then the code is 0
    exactly when every condition of the document that must always hold does hold on
    every path that reaches its block, in every model. Without verification the code
    of a run that ends well is 0. The solver is taken to decide every query, and the
    values written to the context to be at most 64 bits wide. *)
Theorem cli_verdict `{!SolverLaws} a z : main a = Ok z → z = 0 ∨ z = 1 → decides →
  ∃ tails p, _parse_tails isfile (cf_tail a) = Ok tails ∧
    load_program open depth oid0 (cf_input a) (cf_entry a) tails = Ok p ∧
    match run_verify a, real_name (cf_constraints a) with
    | true, Some path => ∃ before v p',
        verify open (read_spec before) depth oid0 ast_fuel (SpecPath path) (cf_reach_report a) None None None p
          = Ok (v, p') ∧ is_loaded open depth p' ∧ has_graph p' ∧ is_tracked oid0 p' ∧
        (narrow_writes (p_blocks p') = true → ∃ policy e c,
           load_spec open (read_spec before) depth oid0 (SpecPath path) p = Ok (policy, p') ∧
           context_for [policy] (p_blocks p') (policy_init policy p') (cf_reach_report a) depth = Ok (e, c) ∧
           (z = 0 ↔ all_hold policy (p_blocks p') e c))
    | _, _ => z = 0
    end.
Proof.
  intros HM Hz Hdec. destruct (main_Ok a z HM Hz) as (cfg & outs & HP & HR).
  destruct (parse_args_Ok a cfg HP) as (HT & Hi & He & Hc & Hs & Hrr). destruct (run_Ok _ _ _ _ HR) as (p & HL & Hv).
  rewrite Hi, He in HL. exists (cf_tail cfg), p. split; [done|]. split; [done|].
  unfold run_verify in *. rewrite Hs, Hc in Hv. destruct (bool_decide _); [|done].
  destruct (real_name (cf_constraints a)) as [path|]; [|done]. destruct Hv as (before & v & p' & HV & ->).
  rewrite Hrr in HV. exists before, v, p'. split; [done|].
  destruct (analyze_consistent open depth oid0 _ p (new_consistent _ _ _ _ _ _) HL) as (_ & _ & HS).
  assert (is_document (SpecPath path) = true) as Hd by done.
  destruct (verify_run _ _ _ _ _ _ _ _ _ _ _ Hd HV) as (full & policy & e & c & Hl & _).
  destruct (load_spec_run _ _ _ _ _ _ _ _ Hd Hl) as [HA _].
  destruct (analyze_consistent _ _ _ p p' (reachable_consistent _ _ _ _ _ _ _ HS) HA) as ((L1 & L2 & L3) & Hall & _).
  split; [by apply L1|]. split; [by apply L2|]. split; [by apply L3|]. intros Hn.
  destruct (verify_holds _ _ _ _ _ _ _ _ _ _ _ _ _ _ HS Hd Hdec HV Hn)
    as (_ & _ & _ & full' & policy' & e' & c' & rb & re & rr & Hl' & Hse & HC & _ & _ & _ & _ & Hok).
  injection Hse as <-. exists full', e', c'. split; [done|]. split; [done|].
  rewrite <- Hok. by destruct (v_ok v).
Qed.
End cli.

(** ** Examples *)

#[local] Existing Instance two.
#[local] Existing Instance two_laws.
#[local] Existing Instance two_same.
#[local] Existing Instance two_same_laws.
#[local] Existing Instance two_solver.
#[local] Existing Instance two_solver_laws.
#[local] Existing Instance two_ast.
#[local] Existing Instance two_scapy.

Definition cli_args (input : string) (constraints : option string) (tails : list string) (stage : cli_stage) : Namespace :=
  mk_config input "main" tails constraints None None None None stage None None false false false false.

(** The documents: one that holds, and one with a condition that is violated. *)
Definition cli_files : list (string * json) :=
  [("good.json", JObj [("block_conditions", JObj [("short", JObj [("block", JInt 2)])])]);
   ("bad.json", match run_spec with SpecDict raw => JObj raw | _ => JNull end)]%string.

Definition run_main : Namespace → res Z :=
  main (λ _, run_elf) (λ _ path, of_option OSError (pget cli_files path)) (λ p, bool_decide (p ≠ "none.o"%string))
    (λ _, Ok tt) (λ _, true) 9 1000 9.

Example exit_codes :
  map (λ a, run_main a)
    [cli_args "prog.o" (Some "bad.json") [] StVerify; cli_args "prog.o" None [] StAll;
     cli_args "prog.o" None [] StVerify; cli_args "none.o" None [] StAll;
     cli_args "prog.o" None ["callee.o"] StAll; cli_args "prog.o" (Some "other.json") [] StVerify]%string
  = [Ok 1; Ok 0; Ok 2; Ok 2; Ok 2; Ok 3].
Proof. vm_compute. reflexivity. Qed.

(** A document that cannot be opened is a failure of the tool, but it is reported as a
    usage error, that the results cannot be written, when these go to a file. *)
Definition to_file (a : Namespace) : Namespace :=
  mk_config (cf_input a) (cf_entry a) (cf_tail a) (cf_constraints a) None None None (Some "out.txt"%string) (cf_stage a)
    None None false false false false.

Example unreadable_document :
  let a := cli_args "prog.o" (Some "other.json"%string) [] StVerify in (run_main a, run_main (to_file a)) = (Ok 3, Ok 2).
Proof. vm_compute. reflexivity. Qed.

Lemma cli_verdict_witness : run_main (cli_args "prog.o" (Some "good.json"%string) [] StVerify) = Ok 0 ∧
  ∃ p v p' policy e c, load_program (λ _, run_elf) 9 1000 "prog.o" "main" [] = Ok p ∧
    verify (λ _, run_elf) (λ path, of_option OSError (pget cli_files path)) 9 1000 9
      (SpecPath "good.json") false None None None p = Ok (v, p') ∧
    map bc_name (pol_block policy) = ["short"%string] ∧ all_hold policy (p_blocks p') e c.
Proof.
  assert (run_main (cli_args "prog.o" (Some "good.json"%string) [] StVerify) = Ok 0) as HM by (vm_compute; reflexivity).
  split; [exact HM|].
  destruct (@cli_verdict two two_laws two_same two_same_laws two_solver two_ast two_scapy (λ _, run_elf)
    (λ _ path, of_option OSError (pget cli_files path)) (λ p, bool_decide (p ≠ "none.o"%string)) (λ _, Ok tt) (λ _, true)
    9 1000 9 two_solver_laws (cli_args "prog.o" (Some "good.json"%string) [] StVerify) 0 HM (or_introl eq_refl) two_decides)
    as (tails & p & HT & HL & Hv).
  assert (tails = []) as -> by (injection HT as <-; reflexivity).
  destruct Hv as (before & v & p' & HV & _ & _ & _ & Hn).
  assert (narrow_writes (p_blocks p') = true) as Hnarrow.
  { assert (match load_program (λ _, run_elf) 9 1000 "prog.o" "main" [] with
            | Ok p => match verify (λ _, run_elf) (λ path, of_option OSError (pget cli_files path)) 9 1000 9
                              (SpecPath "good.json") false None None None p with
                      | Ok (_, p') => narrow_writes (p_blocks p') | Err _ => false end
            | Err _ => false end = true) as Ht by (vm_compute; reflexivity).
    change (cf_input (cli_args "prog.o" (Some "good.json"%string) [] StVerify)) with "prog.o"%string in HL.
    change (cf_entry (cli_args "prog.o" (Some "good.json"%string) [] StVerify)) with "main"%string in HL.
    rewrite HL in Ht. change (cf_reach_report (cli_args "prog.o" (Some "good.json"%string) [] StVerify)) with false in HV.
    rewrite HV in Ht. exact Ht. }
  destruct (Hn Hnarrow) as (policy & e & c & Hl & _ & Hok). exists p, v, p', policy, e, c.
  split; [exact HL|]. split; [exact HV|]. split; [|by apply Hok].
  assert (match load_program (λ _, run_elf) 9 1000 "prog.o" "main" [] with
          | Ok p => match load_spec (λ _, run_elf) (λ path, of_option OSError (pget cli_files path)) 9 1000
                            (SpecPath "good.json") p with
                    | Ok (pol, _) => bool_decide (map bc_name (pol_block pol) = ["short"%string]) | Err _ => false end
          | Err _ => false end = true) as Ht by (vm_compute; reflexivity).
  assert (load_program (λ _, run_elf) 9 1000 "prog.o" "main" [] = Ok p) as HL' by exact HL.
  rewrite HL' in Ht. rewrite Hl in Ht. by apply bool_decide_eq_true in Ht.
Defined.
