(* ===== verification/Stages.v ===== *)
(** The pipeline view of a counterexample ([verify/witness.py]): the blocks of its path
    with the conditions taken, what each of them does in the model, and the value
    returned. *)

From Stdlib Require Import Ascii.
From S2P Require Import Prelude Constants Smt Expr Record Link Encode Action Block Prune Slice Pystr.
From S2P Require Import Spec Forward Witness Text Facts.

Local Open Scope string_scope.
Local Open Scope Z_scope.

Definition XDP_ACTIONS : list (Z * string) :=
  [(0, "XDP_ABORTED"); (1, "XDP_DROP"); (2, "XDP_PASS"); (3, "XDP_TX"); (4, "XDP_REDIRECT")].
Definition COND_CHARS : Z := 92.
Definition OPS_PER_STAGE : Z := 12.

(** A line of a stage: its tag and its text. *)
Definition row : Type := string * string.

Record Stage := mk_stage {
  s_block : Z;
  s_kind : kind_t;
  s_frm : option Z;
  s_edge : option edge;
  s_match : string;
  s_ops : list row;
  s_ret : string;
  s_target : bool
}.

(** ** Text *)

Definition _clip (text : string) : string :=
  if slen text <=? COND_CHARS then text
  else String.substring 0 (Z.to_nat (COND_CHARS - 1)) text +:+ "…".

Definition ends_with (c : ascii) (s : string) : bool :=
  match rev (chars s) with x :: _ => Ascii.eqb x c | [] => false end.

Definition _negate (text : string) : string :=
  match text with
  | String c rest =>
      if Ascii.eqb c "!" then rest
      else if bool_decide (text = "adjust-success") then "adjust-failed"
      else if bool_decide (text = "adjust-failed") then "adjust-success"
      else if Ascii.eqb c "(" && ends_with ")" text then "!" +:+ text
      else "!(" +:+ text +:+ ")"
  | EmptyString => "!()"
  end.

Definition _hex (v : option Z) : string :=
  match v with Some v => if 0 <=? v then hex v else pretty v | None => "?" end.

Definition _addr (off : Z) (var_off : val) (size : Z) : string :=
  let at_ := if is_none var_off then hex off else "<var> + " +:+ hex off in
  if size =? 1 then at_ else at_ +:+ ":+" +:+ pretty size.

Definition _helper_name (imm : Z) : string :=
  match List.find (λ x : string * Z, x.2 =? imm) HELPER_IMM with
  | Some (name, _) => name
  | None => "helper#" +:+ pretty imm
  end.

(** [_named]: the maps' own names, [map<n>] for a number that is no map's. *)
Definition _named (text : string) (maps : list map_info) : string :=
  sub_refs (λ ds, _map_name maps (digits_value ds)) text.

(** The first is told from the second, and an unknown answer from both. *)
Definition answer (yes no unknown : string) (r : option bool) : string :=
  match r with Some true => yes | Some false => no | None => unknown end.

(** [try: ... except Exception: None]. *)
Definition opt_of {A} (r : res A) : option A := match r with Ok a => Some a | Err _ => None end.

Section stages.
Context `{SMT} `{!SameTerm} (m : model) (e : fenv) (c : fctx).

(** [ctx.maps], [ctx.st]. *)
Definition ctx_maps : list map_info := map_meta (e_init e).
Definition ctx_st : Z3State := hooked_st e c.

Definition _value (expr : val) : option Z :=
  if is_none expr then None else _as_long m <$> opt_of (expr_z3 ctx_st expr).

Definition slot_name (map_id : option Z) : string :=
  match map_id with Some i => _map_name ctx_maps i | None => "mapNone" end.
Definition _slot (map_id : option Z) (map_key : val) : string :=
  slot_name map_id +:+ "[" +:+ _hex (_as_long m <$> opt_of (_map_key_z3 ctx_st map_id map_key)) +:+ "]".

(** Whether a condition holds where [block] ends. *)
Definition holds_at (block : Z) (k : condition) : option bool :=
  _eval_bool m <$> opt_of (cond_to_z3 (state_at e c block) k).

Definition _lookup_hit (map_id : option Z) (map_key : val) (key_id : option Z) (block : Z) : option bool :=
  match map_id with
  | Some i => if (i <? 0) || is_none map_key then None else holds_at block (CContain map_id map_key key_id true)
  | None => None
  end.

Definition adjusted (idx : Z) : option bool :=
  if 0 <=? idx then Some (_eval_bool m (GTm (Bool (adjust_name idx)))) else None.

(** What a value or an action shows, if anything. *)
Definition source_row (v : val) : option row :=
  match v with
  | VFunc _ f => Some ("call", _helper_name (fr_func f) +:+ "() -> " +:+ _hex (_value v))
  | _ => None
  end.

Definition action_row (a : action) (block : Z) : option row :=
  let adjust d := Some ("call", _helper_name (rec_imm (inl a)) +:+ "(" +:+ pretty d +:+ ") -> "
                                +:+ answer "ok" "failed" "?" (adjusted (a_idx a))) in
  let map_cell mid key off var_off size op v :=
    Some ("write", _slot mid key +:+ "[" +:+ _addr off var_off size +:+ "] " +:+ op +:+ " " +:+ _hex (_value v)) in
  let global key off var_off size op v :=
    Some ("write", name_text key +:+ "[" +:+ _addr off var_off size +:+ "] " +:+ op +:+ " " +:+ _hex (_value v)) in
  match a_kind a with
  | MapLookup mid key key_id =>
      Some ("call", "bpf_map_lookup_elem(" +:+ _slot mid key +:+ ") -> "
                    +:+ answer "hit" "miss" "?" (_lookup_hit mid key (Some key_id) block))
  | XdpBuffLen v => Some ("call", "bpf_xdp_get_buff_len() -> " +:+ _hex (_value v))
  | AdjustHead d _ | AdjustTail d _ | AdjustMeta d _ => adjust d
  | TailCall mid index slot target map_name =>
      let took := holds_at block (CTail mid index slot target (a_idx a) map_name) in
      let where_ := match map_name with Some ((String _ _) as n) => n | _ => "map" +:+ opt_text mid end in
      Some ("call", "bpf_tail_call(" +:+ where_ +:+ "[" +:+ match slot with Some s => pretty s | None => "?" end
                    +:+ "]) " +:+ answer ("-> " +:+ target) "failed" "-> ?" took)
  | perf_event_output => Some ("call", "bpf_perf_event_output()")
  | MapDelete mid key => Some ("write", "delete " +:+ _slot mid key)
  | MapUpdate mid key v _ _ _ => Some ("write", _slot mid key +:+ " <= " +:+ _hex (_value v) +:+ "  (insert)")
  | MapWrite mid key off size v var_off => map_cell mid key off var_off size "<=" v
  | MapAtomicAdd mid key off size v var_off _ => map_cell mid key off var_off size "+=" v
  | PktWrite _ off var_off size v =>
      Some ("write", "pkt[" +:+ _addr off var_off size +:+ "] <= " +:+ _hex (_value v))
  | BssWrite key off size v var_off => global key off var_off size "<=" v
  | BssAtomicAdd key off size v var_off _ => global key off var_off size "+=" v
  | CtxWrite v => Some ("write", "rx_queue_index <= " +:+ _hex (_value v))
  | Return _ => None
  end.

Definition _op_row (i : item) (block : Z) : option row :=
  match i with ISrc v => source_row v | IAct a => action_row a block end.

(** [getattr(obj, 'idx', -1)], a value before an action. *)
Definition op_key (i : item) : Z * Z :=
  match i with
  | ISrc v => (match val_idx v with Ok x => x | Err _ => -1 end, 0)
  | IAct a => (a_idx a, 1)
  end.

(** No row raises: a term that cannot be built is an unknown value. *)
Definition _ops (b : Block) : list row :=
  let items := app (map ISrc (sources b)) (map IAct (actions b)) in
  let sorted := fold_left (λ l i, insert_item (op_key i) i l) items [] in
  omap (λ x : Z * Z * item, _op_row x.2 (num b)) sorted.

Definition _ret_str (block : Z) : res string :=
  st ← ret_state e c block;
  Ok match st with
     | None => ""
     | Some st =>
         let v := _as_long m (z_r0 st) in
         pretty v +:+ match pget XDP_ACTIONS v with Some n => " (" +:+ n +:+ ")" | None => "" end
     end.

(** The block before, and the text of the condition on the way from it. *)
Definition stage_match (prev : Block) (b : Z) : res (option edge * string) :=
  match kind prev with
  | KBranch =>
      let edge := if bool_decide (succ_t prev = Some b) then Taken else Fall in
      text ← match cond prev with
             | None => Ok "<unrecorded branch condition>"
             | Some k =>
                 t ← cond_text k;
                 let t := _named t ctx_maps in
                 Ok (_clip (match edge with Taken => t | Fall => _negate t end))
             end;
      Ok (Some edge, text)
  | _ => Ok (None, "")
  end.

Definition block_at (b : Z) : option Block :=
  if in_range (e_blocks e) b then e_blocks e !! Z.to_nat b else None.

(** [prev]: the block before, and its number on the path. *)
Fixpoint stages_loop (target : option Z) (prev : option (Z * Block)) (path : list Z) : res (list Stage) :=
  match path with
  | [] => Ok []
  | b :: path' =>
      match block_at b with
      | None => stages_loop target prev path'
      | Some s =>
          '(edge, text) ← match prev with Some p => stage_match p.2 b | None => Ok (None, "") end;
          ret ← match kind s with KExit => _ret_str b | _ => Ok "" end;
          rest ← stages_loop target (Some (b, s)) path';
          Ok (mk_stage b (kind s) (fst <$> prev) edge text (_ops s) ret (bool_decide (target = Some b)) :: rest)
      end
  end.

Definition _stages (path : list Z) (target : option Z) : res (list Stage) := stages_loop target None path.

(** The property [stages] of a witness: none when something raises. *)
Definition stages (path : list Z) (target : option Z) : list Stage := default [] (opt_of (_stages path target)).
End stages.

(** ** Lines *)

Definition stage_rows (s : Stage) : list row :=
  app (if bool_decide (s_match s = "") then []
       else [("match", s_match s +:+ "   [b" +:+ opt_text (s_frm s) +:+ " "
                       +:+ match s_edge s with Some Taken => "taken" | Some Fall => "fall" | None => "None" end
                       +:+ "]")])
  (app (take (Z.to_nat OPS_PER_STAGE) (s_ops s))
  (app (let more := Z.of_nat (length (s_ops s)) - OPS_PER_STAGE in
        if 0 <? more then [("", "... +" +:+ pretty more +:+ " more")] else [])
       (if bool_decide (s_ret s = "") then [] else [("return", s_ret s)]))).

Definition stage_lines (s : Stage) : list string :=
  let head := "b" +:+ pretty (s_block s) +:+ (if s_target s then "*" else "") in
  imap (λ i (r : row), "  " +:+ pad 7 (match i with O => head | _ => "" end) +:+ pad 7 r.1 +:+ r.2) (stage_rows s).

(** An empty list has no first stage. *)
Definition _render_stages (l : list Stage) : res (list string) :=
  let shown := Z.of_nat (length (filter (λ s, stage_rows s ≠ []) l)) in
  let n := Z.of_nat (length l) in
  match head l, last l with
  | Some a, Some z =>
      let count := if shown =? n then pretty n +:+ " stage(s)"
                   else pretty shown +:+ " of " +:+ pretty n +:+ " stage(s)" in
      Ok (app (("pipeline: " +:+ count +:+ ", b" +:+ pretty (s_block a) +:+ " -> b" +:+ pretty (s_block z))
               :: mjoin (map stage_lines l))
             (if existsb s_target l then ["  (* = the block this condition was checked at)"] else []))
  | _, _ => Err IndexError
  end.
