(* ===== verification/StagesSound.v ===== *)
(** The pipeline view tells what the model does ([verify/witness.py]): its stages are the
    blocks of the model's path, the condition shown on the way into a block is the one
    the model takes, and the value returned is the model's. *)

From S2P Require Import Prelude Constants Link Smt SmtTerm Expr Record Encode Action Block Prune PruneSound.
From S2P Require Import TopoSound Slice Pystr Spec Forward ForwardMerge ForwardSound Witness WitnessSound.
From S2P Require Import Checker CheckerExamples Text Facts Stages.

Section stages.
Context `{HSL : SMTLaws} `{!SameTerm} (m : model) (e : fenv) (c : fctx).

Lemma insert_item_perm k i l : insert_item k i l ≡ₚ (k, i) :: l.
Proof.
  induction l as [|x l IH]; simpl; [done|]. destruct (key_le x.1 k); [|done]. rewrite IH. apply Permutation_swap.
Qed.

(** What a block does in the model: one row for each value and action that shows one. *)
Definition shown_ops (b : Block) : list row :=
  omap (λ i, _op_row m e c i (num b)) (map ISrc (sources b) ++ map IAct (actions b)).

Lemma ops_perm b : _ops m e c b ≡ₚ shown_ops b.
Proof.
  unfold _ops, shown_ops. generalize (map ISrc (sources b) ++ map IAct (actions b)) as items. intros items.
  assert (fold_left (λ l i, insert_item (op_key i) i l) items [] ≡ₚ map (λ i, (op_key i, i)) items) as Hp.
  { apply (fold_left_ind _ (λ pre l, l ≡ₚ map (λ i, (op_key i, i)) pre)); [done|].
    intros pre i l _ IH. rewrite insert_item_perm, IH, map_app. simpl. apply Permutation_cons_append. }
  transitivity (omap (λ x : Z * Z * item, _op_row m e c x.2 (num b)) (map (λ i, (op_key i, i)) items)).
  { by rewrite Hp. }
  clear Hp. induction items as [|i items IH]; [done|]. simpl. by destruct (_op_row m e c i (num b)); rewrite IH.
Qed.

(** The edge a stage names. *)
Definition edge_into (prev : option (Z * Block)) (b : Z) : option edge :=
  match prev with
  | Some (_, p) => match kind p with
                   | KBranch => Some (if bool_decide (succ_t p = Some b) then Taken else Fall)
                   | _ => None
                   end
  | None => None
  end.

Record stage_ok (target : option Z) (prev : option (Z * Block)) (s : Stage) (blk : Block) : Prop := {
  sk_block : e_blocks e !! Z.to_nat (s_block s) = Some blk;
  sk_kind : s_kind s = kind blk;
  sk_frm : s_frm s = fst <$> prev;
  sk_edge : s_edge s = edge_into prev (s_block s);
  sk_match : match prev with
             | Some (_, p) => stage_match e p (s_block s) = Ok (s_edge s, s_match s)
             | None => s_match s = ""
             end;
  sk_ops : s_ops s ≡ₚ shown_ops blk;
  sk_ret : kind blk = KExit → _ret_str m e c (s_block s) = Ok (s_ret s);
  sk_target : s_target s = bool_decide (target = Some (s_block s))
}.

Lemma stages_loop_ok target path prev l : Forall (λ b, in_range (e_blocks e) b = true) path →
  stages_loop m e c target prev path = Ok l →
  map s_block l = path ∧ ∀ i s, l !! i = Some s → ∃ blk prev', stage_ok target prev' s blk ∧
    match i with
    | O => prev' = prev
    | S j => ∃ s' pb, l !! j = Some s' ∧ prev' = Some (s_block s', pb) ∧ e_blocks e !! Z.to_nat (s_block s') = Some pb
    end.
Proof.
  revert prev l. induction path as [|b path IH]; intros prev l Hr HE; simpl in HE; [by injection HE as <-|].
  apply Forall_cons in Hr as [Hb Hr]. pose proof Hb as (_ & blk & Hblk)%in_range_lookup.
  assert (block_at e b = Some blk) as Hat by (unfold block_at; by rewrite Hb). rewrite Hat in HE.
  apply bind_Ok in HE as ([edge text] & Hm & HE). apply bind_Ok in HE as (ret & Hret & HE).
  apply bind_Ok in HE as (rest & HR & [= <-]). destruct (IH _ _ Hr HR) as [Hmap Hall].
  assert (stage_ok target prev (mk_stage b (kind blk) (fst <$> prev) edge text (_ops m e c blk) ret
    (bool_decide (target = Some b))) blk) as H0.
  { split; try done; simpl.
    - destruct prev as [[p pb]|]; [|by injection Hm as <- <-]. simpl in *. unfold stage_match in Hm.
      destruct (kind pb); try (by injection Hm as <- <-). by apply bind_Ok in Hm as (t & _ & [= <- <-]).
    - destruct prev as [[p pb]|]; [done|by injection Hm as <- <-].
    - apply ops_perm.
    - intros Hk. by rewrite Hk in Hret. }
  split; [simpl; by rewrite Hmap|]. intros [|i] s Hs; simpl in Hs; [injection Hs as <-; eauto|].
  destruct (Hall i s Hs) as (blk' & prev' & Hok & Hprev). exists blk', prev'. split; [done|].
  destruct i as [|j]; [|by destruct Hprev as (s' & pb & ? & ? & ?); exists s', pb].
  eexists _, blk. split; [done|]. simpl. by split.
Qed.
End stages.

(** ** Along the model's path *)

Section recorded.
Context `{HL : SMTLaws} (m : model) (blocks : list Block) (info : list (Z * ForwardInfo)).

(** The path goes on to recorded blocks only. *)
Lemma path_loop_recorded fuel seen b z :
  z ∈ path_loop m fuel blocks info None seen b → is_Some (pget info z).
Proof.
  revert seen b. induction fuel as [|fuel IH]; intros seen b; simpl; [by intros ?%elem_of_nil|].
  destruct (pget info b) as [fi|]; [|by intros ?%elem_of_nil].
  destruct (if (0 <=? b) && _ then _ else _) as [s|]; [|by intros ?%elem_of_nil].
  destruct (is_exit s || _); [by intros ?%elem_of_nil|].
  destruct (next_on_path m s fi) as [nxt|]; [|by intros ?%elem_of_nil].
  destruct (bool_decide (nxt ∈ seen) || negb (pmem info nxt)) eqn:E; [by intros ?%elem_of_nil|].
  apply orb_false_iff in E as [_ E]. apply negb_false_iff in E. unfold pmem in E. apply bool_decide_eq_true in E.
  intros [-> | Hz]%elem_of_cons; [done|by eapply IH].
Qed.
End recorded.

(** What is printed of a returned value. *)
Definition ret_text (v : Z) : string :=
  pretty v +:+ match pget XDP_ACTIONS v with Some n => " (" +:+ n +:+ ")" | None => "" end.

(** The text on the way out of a branch whose condition is [k]. *)
Definition cond_line `{SMT} (e : fenv) (k : option condition) (taken : bool) (text : string) : Prop :=
  match k with
  | None => text = "<unrecorded branch condition>"
  | Some k => ∃ t, cond_text k = Ok t ∧
      text = _clip (if taken then _named t (ctx_maps e) else _negate (_named t (ctx_maps e)))
  end.

Lemma stage_match_branch `{SMT} (e : fenv) (p : Block) b edge text : kind p = KBranch → stage_match e p b = Ok (edge, text) →
  ∃ taken, edge = Some (if taken : bool then Taken else Fall) ∧ taken = bool_decide (succ_t p = Some b) ∧
    cond_line e (cond p) taken text.
Proof.
  unfold stage_match, cond_line. intros -> HE. exists (bool_decide (succ_t p = Some b)).
  destruct (cond p) as [k|]; simpl in HE.
  - apply bind_Ok in HE as (text' & HT & [= <- <-]). apply bind_Ok in HT as (t & Ht & [= <-]).
    split_and!; [done..|]. exists t. split; [done|]. by destruct (bool_decide _).
  - injection HE as <- <-. by split_and!.
Qed.

Lemma kind_branch p : kind p = KBranch ↔ branch p = true.
Proof. unfold kind. by destruct (branch p), (jump p), (exit_ p). Qed.

Section faithful.
Context `{HL : SMTLaws} `{!SameTerm} `{!SameTermLaws} `{!Scapy}.

Lemma path_in_range m blocks init targets conds prune resolve hybrid depth e c :
  analysable blocks init → ForwardContext blocks init targets conds prune resolve hybrid depth = Ok (e, c) →
  Forall (λ b, in_range (e_blocks e) b = true ∧ is_Some (pget (c_info c) b)) (_path m (e_blocks e) (c_info c) None).
Proof.
  intros Han HE. destruct (forward_walked m _ _ _ _ _ _ _ _ _ _ Han HE) as (He & _ & order & _ & Hw & _ & Hr & H00 & _).
  apply Forall_forall. intros b Hb. rewrite He.
  assert (b ∈ order) as Hin.
  { apply elem_of_cons in Hb as [-> | Hb]; [done|]. apply (w_dom _ _ _ _ Hw). by eapply path_loop_recorded. }
  split; [by apply Hr|by apply (w_dom _ _ _ _ Hw)].
Qed.

(** C7 The pipeline view of a counterexample is the model's run: one stage for each block of the path, in order,
    with a row for everything that happens in the block and the value the model returns at an exit; each stage
    names the stage before it, between the two the model takes the edge shown, and the line of a branch shows its
    condition exactly when the model satisfies it and the negated condition otherwise. It can always be
    rendered. *)
Theorem stages_faithful m blocks init targets conds prune resolve hybrid depth e c calls block cond_ st w target l :
  analysable blocks init → exits_end blocks →
  ForwardContext blocks init targets conds prune resolve hybrid depth = Ok (e, c) →
  build m e calls c block cond_ st = Ok w → _stages m e c (w_path w) target = Ok l →
  map s_block l = w_path w ∧
  (∀ s, s ∈ l → ∃ blk, e_blocks e !! Z.to_nat (s_block s) = Some blk ∧ s_kind s = kind blk ∧
     s_ops s ≡ₚ shown_ops m e c blk ∧ s_target s = bool_decide (target = Some (s_block s)) ∧
     (kind blk = KExit → ∃ r, ret_state e c (s_block s) = Ok r ∧
        s_ret s = match r with Some st => ret_text (ev m (z_r0 st)) | None => "" end)) ∧
  (∀ i x y, l !! i = Some x → l !! S i = Some y → s_frm y = Some (s_block x) ∧
     edge_taken m e c (s_block x) (s_block y) ∧
     ∃ p fi, e_blocks e !! Z.to_nat (s_block x) = Some p ∧ pget (c_info c) (s_block x) = Some fi ∧
       (branch p = true → succ_t p ≠ succ_f p →
        s_edge y = Some (if evg m (fi_taken fi) then Taken else Fall) ∧
        cond_line e (cond p) (evg m (fi_taken fi)) (s_match y))) ∧
  ∃ lines, _render_stages l = Ok lines.
Proof.
  intros Han Hex HE HB HS. destruct (build_path _ _ _ _ _ _ _ _ _ _ _ _ _ _ _ _ Han Hex HE HB) as (_ & HP & _).
  pose proof (path_in_range m _ _ _ _ _ _ _ _ _ _ Han HE) as Hrange.
  destruct (forward_walked m _ _ _ _ _ _ _ _ _ _ Han HE) as (_ & _ & order & Hwk & Hw & _).
  assert (w_path w = _path m (e_blocks e) (c_info c) None) as Hpath.
  { unfold build in HB. destruct (_packet m (e_init e)).
    apply bind_Ok in HB as (mp & _ & HB). apply bind_Ok in HB as (hs & _ & [= <-]). done. }
  rewrite <- Hpath in Hrange. destruct (stages_loop_ok m e c target (w_path w) None l) as [Hmap Hall]; [|done|].
  { eapply Forall_impl; [exact Hrange|]. by intros b []. }
  split; [done|]. split_and!.
  - intros s [i Hi]%list_elem_of_lookup. destruct (Hall i s Hi) as (blk & prev & [] & _). exists blk.
    split_and!; [done..|]. intros Hk. specialize (sk_ret0 Hk). unfold _ret_str in sk_ret0.
    apply bind_Ok in sk_ret0 as (r & Hr & [= <-]). exists r. split; [done|]. by destruct r.
  - intros i x y Hx Hy. destruct (Hall (S i) y Hy) as (blk & prev & [] & s' & p & Hs' & -> & Hp).
    rewrite Hx in Hs'. injection Hs' as <-. assert (edge_taken m e c (s_block x) (s_block y)) as Het.
    { apply (HP i); rewrite <- Hmap; change (map ?f ?l) with (f <$> l); by rewrite list_lookup_fmap, ?Hx, ?Hy. }
    split; [done|]. split; [done|]. pose proof Het as (_ & fi & p' & Hfi & Hp' & Hor).
    rewrite Hp in Hp'. injection Hp' as <-. exists p, fi. split; [done|]. split; [done|]. intros Hbr Hne.
    pose proof (w_branch _ _ _ _ Hw _ _ _ Hfi Hp Hbr) as Hfall.
    destruct (stage_match_branch e p (s_block y) (s_edge y) (s_match y)) as (taken & -> & Ht & Hline);
      [by apply kind_branch|done|].
    assert (taken = evg m (fi_taken fi)) as <-; [|done]. rewrite Ht.
    destruct Hor as [[Hs Hg] | [Hs Hg]]; rewrite Hg in *; [by apply bool_decide_eq_true|].
    destruct (evg m (fi_taken fi)); [done|]. apply bool_decide_eq_false. congruence.
  - rewrite Hpath in Hmap. destruct l as [|a l]; [done|]. unfold _render_stages. simpl head.
    destruct (last (a :: l)) eqn:El; [eauto|]. by apply last_None in El.
Qed.
End faithful.

(** ** Examples *)

Local Open Scope string_scope.
Local Open Scope Z_scope.

Example texts :
  (_negate "!pkt+14 > end", _negate "(r1 == 0)", _negate "r1 == 0", _negate "adjust-failed", _addr 16 VNone 8,
   _hex (Some (-1)), _helper_name 44, _helper_name 999, pad 7 "b12*") =
  ("pkt+14 > end", "!(r1 == 0)", "!(r1 == 0)", "adjust-success", "0x10:+8", "-1", "bpf_xdp_adjust_head",
   "helper#999", "b12*   ").
Proof. vm_compute. reflexivity. Qed.

Definition ex_stages : res (list (Stage)) :=
  '(e, c) ← ex_context;
  w ← @build two false two_scapy e [] c 1 (CLeaf (LenAtom (Some (JInt 50)) None)) (state_at e c 1);
  @_stages two false e c (w_path w) (Some 1).

(** The packet of 40 bytes is not longer than 50: the program falls through block 1, where the condition is
    checked, and passes the packet. *)
Example rendered : (l ← ex_stages; _render_stages l) = Ok
  ["pipeline: 2 of 3 stage(s), b0 -> b2";
   "  b1*    match  <unrecorded branch condition>   [b0 fall]";
   "  b2     return 2 (XDP_PASS)";
   "  (* = the block this condition was checked at)"].
Proof. vm_compute. reflexivity. Qed.

Lemma stages_faithful_witness : ∃ e c (w : @Witness two) l, ex_context = Ok (e, c) ∧
  @_stages two false e c (w_path w) (Some 1) = Ok l ∧ map s_block l = w_path w ∧
  ∀ x y, l !! 0%nat = Some x → l !! 1%nat = Some y → s_frm y = Some (s_block x) ∧
    @edge_taken two false e c (s_block x) (s_block y).
Proof.
  destruct ex_stages as [l|] eqn:HS; [|vm_compute in HS; discriminate HS]. unfold ex_stages in HS.
  apply bind_Ok in HS as ([e c] & HC & HS). apply bind_Ok in HS as (w & HB & HS).
  exists e, c, w, l. split; [exact HC|]. split; [exact HS|]. unfold ex_context, context_for in HC.
  edestruct (@stages_faithful two two_laws two_same two_same_laws two_scapy false ex_ret_blocks two_init)
    as (Hmap & _ & Hedges & _); [apply ret_analysable|apply ret_exits|exact HC|exact HB|exact HS|].
  split; [exact Hmap|]. intros x y Hx Hy. destruct (Hedges 0%nat x y Hx Hy) as (Hf & Het & _).
  split; [exact Hf|exact Het].
Defined.
