(* ===== verification/WitnessText.v ===== *)
(** The text of a counterexample and of the results of a check: [Witness.render] of
    [verify/witness.py], [render] of [verify/checker.py] and [Verification.render] of
    [program.py].

    [Ether(data).summary()] is the packet library's; so is the text [repr] gives a
    pointer, which holds its address in memory and is only its class here. *)

From Stdlib Require Import Ascii.
From stdpp Require Import sorting.
From S2P Require Import Prelude Constants Smt Expr Record Link Encode Action Block Prune Slice Pystr.
From S2P Require Import Spec Forward Witness Checker Program Text Facts Scaffold Stages.

Local Open Scope string_scope.
Local Open Scope Z_scope.

(** The summary of a frame, [None] when it cannot be dissected. *)
Class Dissect := { ether_summary : list Z → option string }.

(** ** Bytes *)

Definition hex_byte (b : Z) : string := String (hex_char (b / 16)) (String (hex_char (b mod 16)) "").

(** [data.hex(' ')]. *)
Definition hex_bytes (data : list Z) : string := String.concat " " (map hex_byte data).

(** The data in pieces of [n], as many as there are. *)
Fixpoint pieces (fuel n : nat) (data : list Z) : list (list Z) :=
  match fuel, data with
  | S fuel', _ :: _ => take n data :: pieces fuel' n (drop n data)
  | _, _ => []
  end.

Definition per_line : nat := 16.
Definition _hexdump (data : list Z) : string :=
  if (length data <=? per_line)%nat then hex_bytes data
  else String.concat (nl +:+ "        ") (map hex_bytes (pieces (length data) per_line data)).

Definition _describe `{Dissect} (data : list Z) : string :=
  match data with [] => "" | _ => default "" (ether_summary data) end.

(** [repr(data)] of bytes. *)
Definition repr_byte (quote : ascii) (b : Z) : string :=
  if (b =? code_of quote) || (b =? 92) then String (ascii_of_nat 92) (String (ascii_of_nat (Z.to_nat b)) "")
  else if b =? 10 then "\n" else if b =? 13 then "\r" else if b =? 9 then "\t"
  else if (b <? 32) || (127 <=? b) then "\x" +:+ hex_byte b
  else String (ascii_of_nat (Z.to_nat b)) "".
Definition repr_bytes (data : list Z) : string :=
  let quote := if existsb (Z.eqb 39) data && negb (existsb (Z.eqb 34) data) then ascii_of_nat 34 else ascii_of_nat 39 in
  "b" +:+ String quote (String.concat "" (map (repr_byte quote) data) +:+ String quote "").

(** ** Values and atoms *)

Definition bool_text (b : bool) : string := if b then "True" else "False".
Definition opt_repr {A} (f : A → string) (o : option A) : string := match o with Some x => f x | None => "None" end.

(** [Class(field=repr, ...)]. *)
Definition data_repr (cls : string) (fields : list (string * string)) : string :=
  cls +:+ "(" +:+ String.concat ", " (map (λ f : string * string, f.1 +:+ "=" +:+ f.2) fields) +:+ ")".

Definition tuple_text (l : list string) : string :=
  match l with [x] => "(" +:+ x +:+ ",)" | _ => "(" +:+ String.concat ", " l +:+ ")" end.

(** The fields of a dataclass in their order: the base class first. *)
Fixpoint val_repr (v : val) : string :=
  let at_ size idx := [("size", pretty size); ("idx", pretty idx)] in
  match v with
  | VNone => "None"
  | VScalar _ size idx => data_repr "Scalar" (at_ size idx)
  | VJoin _ j => data_repr "JoinValue" (app (at_ (j_size j) (j_idx j))
                   [("block_idx", pretty (j_block_idx j)); ("reg_num", pretty (j_reg_num j))])
  | VIngress _ => data_repr "ingress_ifindex" (at_ 4 (-1))
  | VRxq _ => data_repr "rx_queue_index" (at_ 4 (-1))
  | VEgress _ => data_repr "egress_ifindex" (at_ 4 (-1))
  | VPktLen _ size base => data_repr "pkt_len" (app (at_ size (-1)) [("base_id", opt_text base)])
  | VFunc _ f => data_repr "func_retval" (app (at_ (fr_size f) (fr_idx f))
      [("func", pretty (fr_func f)); ("block", pretty (fr_block f)); ("map_id", opt_text (fr_map_id f));
       ("map_key", val_repr (fr_map_key f)); ("map_key_id", opt_text (fr_map_key_id f));
       ("fallback", pretty (fr_fallback f)); ("redirects", bool_text (fr_redirects f))])
  | VPkt _ p => data_repr "pkt_val" (app (at_ (pv_size p) (pv_idx p))
      [("block", pretty (pv_block p)); ("off", pretty (pv_off p)); ("var_off", val_repr (pv_var_off p))])
  | VMap _ m => data_repr "map_val" (app (at_ (mv_size m) (mv_idx m))
      [("block", pretty (mv_block m)); ("map_id", opt_text (mv_map_id m)); ("map_key", val_repr (mv_map_key m));
       ("map_key_id", opt_text (mv_map_key_id m)); ("off", pretty (mv_off m)); ("var_off", val_repr (mv_var_off m))])
  | VBss _ b => data_repr "bss_val" (app (at_ (bv_size b) (bv_idx b))
      [("block", pretty (bv_block b)); ("bss_key", opt_repr repr_text (bv_key b)); ("off", pretty (bv_off b));
       ("var_off", val_repr (bv_var_off b))])
  | VRodata _ r => data_repr "rodata_val" (app (at_ (rv_size r) (-1))
      [("data", repr_bytes (rv_data r)); ("off", pretty (rv_off r)); ("var_off", val_repr (rv_var_off r))])
  | VHit _ h => data_repr "lookup_hit" (app (at_ (lh_size h) (-1))
      [("map_id", opt_text (lh_map_id h)); ("map_key", val_repr (lh_map_key h)); ("map_key_id", opt_text (lh_map_key_id h))])
  | VNum _ n size idx => data_repr "num" [("size", pretty size); ("num", pretty n); ("idx", pretty idx)]
  | VByteSeq _ cs size off => data_repr "ByteSeq"
      [("size", pretty size); ("chunks", tuple_text (map val_repr cs)); ("off", pretty off)]
  | VUn _ u => data_repr "ALUunary" (app (at_ (u_size u) (-1))
      [("op", pretty (u_op u)); ("dst", val_repr (u_dst u)); ("opcode_s", opt_text (u_opcode_s u));
       ("imm", pretty (u_imm u)); ("alu64", bool_text (u_alu64 u))])
  | VBin _ b => data_repr "ALUbinary" (app (at_ (b_size b) (b_idx b))
      [("op", pretty (b_op b)); ("dst", val_repr (b_dst b)); ("src", val_repr (b_src b)); ("offset", pretty (b_offset b))])
  | VPtr _ _ => "<track.expr.PTR object>"
  end.

Definition op_name (o : cmp_op) : string :=
  match o with OEq => "eq" | ONe => "ne" | OLt => "lt" | OLe => "le" | OGt => "gt" | OGe => "ge" end.
Definition target_name (t : ctx_target) : string :=
  match t with TIngress => "ingress" | TRxIndex => "rx_index" | TEgress => "egress" end.

Definition _atom_str (a : atom) : string :=
  match a with
  | PktAtom off size data o => data_repr "PktAtom"
      [("offset", pretty off); ("size", pretty size); ("data", list_text data); ("op", repr_text (op_name o))]
  | MapAtom map_id key present value ks vs => data_repr "MapAtom"
      [("map_id", pretty map_id); ("key", pretty key); ("present", opt_repr bool_text present); ("value", opt_text value);
       ("key_size", pretty ks); ("value_size", pretty vs)]
  | BssAtom sym off size value o => data_repr "BssAtom"
      [("sym", repr_text sym); ("offset", pretty off); ("size", pretty size); ("value", pretty value);
       ("op", repr_text (op_name o))]
  | LenAtom lo hi => data_repr "LenAtom" [("min", opt_repr py_repr lo); ("max", opt_repr py_repr hi)]
  | ScalarAtom t value => data_repr "ScalarAtom" [("target", repr_text (target_name t)); ("value", pretty value)]
  | HelperAtom imm idx size k =>
      let '(kind, o, value, result, map_id, key, key_id) :=
        match k with
        | HScalar _ o value => ("scalar", repr_text (op_name o), pretty value, "None", "None", "None", "None")
        | HMapNull map_id key key_id r =>
            ("map_null", "None", "None", bool_text r, opt_text map_id, val_repr key, opt_text key_id)
        end in
      data_repr "HelperAtom"
        [("kind", repr_text kind); ("imm", pretty imm); ("idx", pretty idx); ("size", pretty size); ("op", o);
         ("value", value); ("result", result); ("map_id", map_id); ("map_key", key); ("map_key_id", key_id)]
  | RetAtom o value => data_repr "RetAtom" [("op", repr_text (op_name o)); ("value", pretty value)]
  | ReadAtom _ o target size region off map_id => data_repr "ReadAtom"
      [("op", repr_text (op_name o)); ("target", pretty target); ("size", pretty size); ("region", pretty region);
       ("offset", pretty off); ("map_id", opt_text map_id)]
  end.

(** ** Counterexamples *)

(** [sorted(d.items())] of a dict with number keys, and with text keys. *)
Definition by_number {A} (x y : Z * A) : Prop := x.1 <= y.1.
#[global] Instance by_number_dec {A} : RelDecision (@by_number A) := λ x y, decide (x.1 <= y.1).
Definition by_name {A} (x y : string * A) : Prop := String.leb x.1 y.1 = true.
#[global] Instance by_name_dec {A} : RelDecision (@by_name A) := λ x y, decide (String.leb x.1 y.1 = true).
Definition by_call (x y : Z * Z * Z) : Prop := x.1.1 < y.1.1 ∨ x.1.1 = y.1.1 ∧ x.1.2 <= y.1.2.
#[global] Instance by_call_dec : RelDecision by_call.
Proof. intros x y. unfold by_call. apply _. Defined.

Definition map_entry (name : string) (x : Z * (bool * Z)) : string :=
  let '(key, (present, value)) := x in
  "map " +:+ name +:+ "[" +:+ hex key +:+ "]: " +:+ (if present then "hit" else "miss")
  +:+ (if present then " value=" +:+ hex value else "").

Section witness_text.
Context `{SMT} `{!SameTerm} `{!Dissect}.

Definition packet_lines (w : Witness) : list string :=
  match w_packet w with
  | [] => []
  | data =>
      let shown := if w_pkt_len w <=? Z.of_nat (length data) then ""
                   else ", first " +:+ pretty (Z.of_nat (length data)) +:+ " shown" in
      app ["packet (" +:+ pretty (w_pkt_len w) +:+ " bytes" +:+ shown +:+ "): " +:+ _hexdump data]
        (let desc := _describe data in if bool_decide (desc = "") then [] else ["  as: " +:+ desc])
  end.

(** The lines before and after the pipeline view. *)
Definition state_lines (w : Witness) : list string :=
  mjoin [
    packet_lines w;
    if is_empty_list (w_ctx w) then []
    else ["ctx: " +:+ String.concat ", " (map (λ x : string * Z, x.1 +:+ "=" +:+ pretty x.2) (merge_sort by_name (w_ctx w)))];
    mjoin (map (λ x : string * list (Z * (bool * Z)), map (map_entry x.1) (merge_sort by_number x.2))
             (merge_sort by_name (w_maps w)));
    map (λ x : Z * Z * Z, "helper imm=" +:+ pretty x.1.1 +:+ " @idx=" +:+ pretty x.1.2 +:+ " -> " +:+ pretty x.2)
      (merge_sort by_call (w_helpers w));
    if is_empty_list (w_path w) then [] else ["path: " +:+ String.concat " -> " (map pretty (w_path w))]].

Definition atom_lines (w : Witness) : list string :=
  match w_failed_atoms w with
  | [] => []
  | l => ["false atoms: " +:+ String.concat "; " (map _atom_str l)]
  end.

(** [w.render(pipeline)] of a witness found in the analysis [e], [c]. *)
Definition witness_lines (e : fenv) (c : fctx) (pipeline : bool) (w : Witness) : res (list string) :=
  pipe ← (let l := stages (w_model w) e c (w_path w) (Some (w_target w)) in
          if pipeline && negb (is_empty_list l) then _render_stages l else Ok []);
  Ok (app (state_lines w) (app pipe (atom_lines w))).
Definition witness_render (e : fenv) (c : fctx) (pipeline : bool) (w : Witness) : res string :=
  lines_text <$> witness_lines e c pipeline w.

(** ** Results *)

Definition result_lines (e : fenv) (c : fctx) (show_witness pipeline : bool) (r : CheckResult) : res (list string) :=
  text ← match show_witness, cr_witness r with
         | true, Some w => t ← witness_render e c pipeline w; Ok (map (λ l, "      " +:+ l) (splitlines t))
         | _, _ => Ok []
         end;
  Ok (("  " +:+ pad 15 (cr_kind r) +:+ " " +:+ pad 30 (cr_name r) +:+ " -> " +:+ pad 9 (cr_verdict r) +:+ " " +:+ cr_detail r)
      :: text).

Definition render (e : fenv) (c : fctx) (results : list CheckResult) (show_witness pipeline : bool) : res string :=
  lines ← mapR (result_lines e c show_witness pipeline) results;
  Ok (lines_text (app (mjoin lines)
        ["decided: " +:+ pretty (Z.of_nat (length results)) +:+ " condition(s)"])).

(** [Verification.render]. *)
Definition verification_render (e : fenv) (c : fctx) (v : Verification) (show_witness pipeline : bool) : res string :=
  render e c (v_results v) show_witness pipeline.
End witness_text.
