(* ===== verification/WitnessTextSound.v ===== *)
(** The printed packet of a counterexample is its packet; the results of the policy of
    [CheckerExamples], as they are printed. *)

From Stdlib Require Import Ascii.
From S2P Require Import Prelude Constants Link Smt SmtTerm Expr Record Encode Action Block Prune PruneSound.
From S2P Require Import Slice SliceSound Pystr Spec Forward ForwardSound Witness Checker CheckerExamples.
From S2P Require Import Program Text Facts Scaffold Stages WitnessText.

Local Open Scope Z_scope.

(** [bytes.fromhex]: digits in pairs, white space between them. *)
Fixpoint fromhex (l : list ascii) : option (list Z) :=
  match l with
  | [] => Some []
  | a :: l1 =>
      if is_space a then fromhex l1
      else match l1 with
           | b :: l2 =>
               if (digit_value a <? 16) && (digit_value b <? 16) then
                 cons (digit_value a * 16 + digit_value b) <$> fromhex l2
               else None
           | [] => None
           end
  end.
Definition is_byte (b : Z) : Prop := 0 <= b < 256.

Lemma hex_char_value d : 0 <= d < 16 → digit_value (hex_char d) = d ∧ is_space (hex_char d) = false.
Proof.
  intros Hd. assert (Forall (λ d, digit_value (hex_char d) = d ∧ is_space (hex_char d) = false) (zrange 0 16)) as Ha
    by (apply (bool_decide_unpack _); vm_compute; exact I).
  apply (proj1 (Forall_forall _ _) Ha), zrange_elem. lia.
Qed.

Lemma fromhex_byte b l : is_byte b → fromhex (chars (hex_byte b) ++ l) = cons b <$> fromhex l.
Proof.
  intros Hb. unfold is_byte in Hb.
  assert (0 <= b / 16 < 16) as Hq by (split; [apply Z.div_pos|apply Z.div_lt_upper_bound]; lia).
  assert (0 <= b mod 16 < 16) as Hr by (apply Z.mod_pos_bound; lia).
  destruct (hex_char_value _ Hq) as [H1 S1], (hex_char_value _ Hr) as [H2 _].
  cbn [hex_byte chars app fromhex]. rewrite S1, H1, H2.
  rewrite (proj2 (Z.ltb_lt (b / 16) 16)), (proj2 (Z.ltb_lt (b mod 16) 16)) by lia. cbn [andb].
  destruct (fromhex l); simpl; [|done]. do 2 f_equal. pose proof (Z.div_mod b 16). lia.
Qed.

Definition blank (s : string) : Prop := Forall (λ c, is_space c = true) (chars s).

Lemma fromhex_blank s l : blank s → fromhex (chars s ++ l) = fromhex l.
Proof. unfold blank. induction (chars s) as [|c k IH]; [done|]. intros [Hc Hk]%Forall_cons. simpl. by rewrite Hc, IH. Qed.

(** Texts that read back as data, with blanks between them, read back as all of it. *)
Lemma fromhex_concat {A} (f : A → string) (g : A → list Z) sep l : blank sep →
  (∀ x, x ∈ l → ∀ k, fromhex (chars (f x) ++ k) = app (g x) <$> fromhex k) →
  ∀ k, fromhex (chars (String.concat sep (map f l)) ++ k) = app (mjoin (map g l)) <$> fromhex k.
Proof.
  intros Hs. induction l as [|x l IH]; intros Hf k; [simpl; by destruct (fromhex k)|].
  assert (∀ k, fromhex (chars (f x) ++ k) = app (g x) <$> fromhex k) as Hx by (apply Hf; left).
  destruct l as [|y l].
  - simpl. rewrite Hx. by rewrite app_nil_r.
  - change (String.concat sep (map f (x :: y :: l))) with (f x +:+ sep +:+ String.concat sep (map f (y :: l))).
    rewrite !chars_app, <- !app_assoc, Hx, fromhex_blank by done. rewrite IH by (intros z Hz; apply Hf; by right).
    change (mjoin (map g (x :: y :: l))) with (g x ++ mjoin (map g (y :: l))).
    destruct (fromhex k); simpl; [|done]. by rewrite app_assoc.
Qed.

Lemma fromhex_bytes data k : Forall is_byte data → fromhex (chars (hex_bytes data) ++ k) = app data <$> fromhex k.
Proof.
  intros Hd. unfold hex_bytes. rewrite (fromhex_concat hex_byte (λ b, [b])).
  - assert (mjoin (map (λ b, [b]) data) = data) as -> by (induction data as [|b l IH]; [done|]; inversion Hd; simpl; by rewrite IH).
    done.
  - by repeat constructor.
  - intros b Hb l. rewrite fromhex_byte by (by eapply Forall_forall in Hb; [|exact Hd]). done.
Qed.

Lemma pieces_join fuel n data : (0 < n)%nat → (length data <= fuel)%nat → mjoin (pieces fuel n data) = data.
Proof.
  intros Hn. revert data. induction fuel as [|fuel IH]; intros [|b l] Hf; simpl in *; try done; [lia|].
  destruct n as [|n]; [lia|]. simpl. rewrite IH by (rewrite length_drop; lia). by rewrite take_drop.
Qed.

Lemma pieces_bytes fuel n data : Forall is_byte data → Forall (Forall is_byte) (pieces fuel n data).
Proof.
  revert data. induction fuel as [|fuel IH]; intros [|b l] Hd; try by constructor.
  simpl. constructor; [by apply Forall_take|]. by apply IH, Forall_drop.
Qed.

(** The packet printed with a counterexample is its packet: reading the digits of the dump back, over the breaks
    and blanks of its lines, gives the bytes shown, however many lines they take. *)
Theorem hexdump_roundtrip data : Forall is_byte data → fromhex (chars (_hexdump data)) = Some data.
Proof.
  intros Hd. rewrite <- (app_nil_r (chars _)). unfold _hexdump. destruct (_ <=? _)%nat.
  - rewrite fromhex_bytes by done. simpl. by rewrite app_nil_r.
  - rewrite (fromhex_concat hex_bytes id); [|by repeat constructor|].
    + rewrite map_id, pieces_join by (done || unfold per_line; lia). simpl. by rewrite app_nil_r.
    + intros p Hp l. apply fromhex_bytes. pose proof (pieces_bytes (length data) per_line data Hd) as Hall.
      by eapply Forall_forall in Hp; [|exact Hall].
Qed.

(** Every packet of a counterexample is made of bytes. *)
Lemma packet_bytes `{SMT} m init : Forall is_byte (_packet m init).1.
Proof.
  apply Forall_forall. intros b (i & -> & _)%list_elem_of_fmap. unfold is_byte.
  change 0xFF with (Z.ones 8). rewrite Z.land_ones by lia. apply Z.mod_pos_bound. lia.
Qed.

(** ** An example: the results of the policy of [CheckerExamples] *)

#[local] Existing Instance two.
#[local] Existing Instance two_same.
#[local] Existing Instance two_solver.
#[local] Existing Instance two_ast.
#[local] Existing Instance two_scapy.

Local Open Scope string_scope.

#[local] Instance no_frames : Dissect := {| ether_summary := λ _, None |}.

Definition printed : list string :=
  match ex_context with
  | Ok (e, c) => match (out ← check 9 e [] ex_policy true c; render e c out true true) with
                 | Ok t => splitlines t | Err _ => [] end
  | Err _ => []
  end.

Example printed_lines : take 11 (drop 1 printed) =
  ["  block_condition longer                         -> violated  block=1";
   "      packet (40 bytes): 00 01 02 03 04 05 06 07 08 09 0a 0b 0c 0d 0e 0f";
   "              10 11 12 13 14 15 16 17 18 19 1a 1b 1c 1d 1e 1f"; "              20 21 22 23 24 25 26 27";
   "      ctx: egress_ifindex=2, ingress_ifindex=2, rx_queue_index=2"; "      path: 0 -> 1 -> 2";
   "      pipeline: 2 of 3 stage(s), b0 -> b2";
   "        b1*    match  <unrecorded branch condition>   [b0 fall]"; "        b2     return 2 (XDP_PASS)";
   "        (* = the block this condition was checked at)"; "      false atoms: LenAtom(min=50, max=None)"].
Proof. vm_compute. reflexivity. Qed.

Example dump : map _hexdump [[222; 173; 190; 239]; replicate 18 10] =
  ["de ad be ef"; "0a 0a 0a 0a 0a 0a 0a 0a 0a 0a 0a 0a 0a 0a 0a 0a" +:+ nl +:+ "        0a 0a"].
Proof. vm_compute. reflexivity. Qed.

(** An atom about a lookup by the key 7 and one about a read. *)
Example atom_texts : map _atom_str
  [HelperAtom 1 3 8 (HMapNull (Some 0) (VByteSeq 2 [VNum 1 7 4 (-1)] 4 0) (Some 3) true); ReadAtom [] OEq 0 2 1 4 (Some 0);
   PktAtom 12 2 [8; 0] ONe; LenAtom (Some (JInt 50)) None] =
  ["HelperAtom(kind='map_null', imm=1, idx=3, size=8, op=None, value=None, result=True, map_id=0, map_key=ByteSeq(size=4, chunks=(num(size=4, num=7, idx=-1),), off=0), map_key_id=3)";
   "ReadAtom(op='eq', target=0, size=2, region=1, offset=4, map_id=0)";
   "PktAtom(offset=12, size=2, data=[8, 0], op='ne')"; "LenAtom(min=50, max=None)"].
Proof. vm_compute. reflexivity. Qed.

Lemma hexdump_roundtrip_witness : fromhex (Pystr.chars (_hexdump (replicate 40 171))) = Some (replicate 40 171).
Proof. apply hexdump_roundtrip. apply Forall_replicate. unfold is_byte. lia. Defined.
