(* ===== verification/CallRecords.v ===== *)
(** The calls a block records ([build_call_index] of [track/record.py] reads them):
    tracking an instruction records at most one, under the instruction's number, and
    only of helpers the specification language names. In a tracked program, then, an
    index has one record. *)

From S2P Require Import Prelude Constants Instr Link Expr Record Denote Branch Encode Action Block Cfg.
From S2P Require Import CfgSound Tracker Frame TrackProg Pystr Spec.

(** The records of a block: the actions with a result, and the results that are values. *)
Definition action_record (a : action) : option (Z * (action + val)) :=
  if bool_decide (is_Some (action_ret a)) then Some (a_idx a, inl a) else None.
Definition value_record (v : val) : option (Z * (action + val)) :=
  match v with VFunc _ f => Some (fr_idx f, inr v) | _ => None end.
Definition records (b : Block) : list (Z * (action + val)) :=
  omap action_record (actions b) ++ omap value_record (sources b).

(** The helpers with a name. *)
Definition named_helper (f : Z) : Prop := f ∈ map snd HELPER_IMM.

(** ** Runs that record nothing *)

Definition same_calls (s s' : bstate) : Prop :=
  idx_ (bs_blk s') = idx_ (bs_blk s) ∧ records (bs_blk s') = records (bs_blk s).

Lemma records_source b v : is_func v = false → records (set_out (actions b) (sources b ++ [v]) b) = records b.
Proof.
  intros Hv. unfold records. cbn [set_out actions sources]. rewrite omap_app. f_equal.
  destruct v; try done; apply app_nil_r.
Qed.

Lemma silent_record n i k : silent k = true → action_record (mk_action n i k) = None.
Proof.
  unfold silent, action_record. intros H%bool_decide_eq_true. rewrite bool_decide_eq_false_2; [done|].
  destruct k; simpl in *; try done; by intros [? ?].
Qed.

#[export] Instance same_calls_preorder : PreOrder same_calls.
Proof. split; [done|]. intros s1 s2 s3 [] []. split; congruence. Qed.

#[export] Instance same_calls_frame : StoreFrame same_calls.
Proof.
  split; [|done..]. split; [apply _|done| | |done..].
  - intros s v o i Hv. split; [done|]. by apply records_source.
  - intros s k o i Hk. split; [done|]. unfold records. cbn [bs_blk set_out actions sources]. rewrite omap_app. simpl.
    by rewrite silent_record, app_nil_r by done.
Qed.

(** ** Runs that record one call *)

(** From a state at instruction [i], the run records nothing, or one call of [f]. *)
Definition one_call (i f : Z) (s s' : bstate) : Prop := idx_ (bs_blk s) = Some i →
  idx_ (bs_blk s') = Some i ∧
  (records (bs_blk s') = records (bs_blk s) ∨
   ∃ r, records (bs_blk s') ≡ₚ (i, r) :: records (bs_blk s) ∧ rec_imm r = f ∧ named_helper f).

Class OneCall (i f : Z) {A} (m : ST bstate A) : Prop := one_call_run : ∀ s a s', m s = Ok (a, s') → one_call i f s s'.
#[global] Hint Mode OneCall + + + + : typeclass_instances.

Section one_call.
Context (i f : Z).

Lemma one_quiet {A} (m : ST bstate A) : Keeps same_calls m → OneCall i f m.
Proof. intros Hm s a s' HE Hi. destruct (Hm _ _ _ HE) as [E1 E2]. rewrite E1. auto. Qed.

Lemma one_after {A B} (m : ST bstate A) (k : A → ST bstate B) :
  Keeps same_calls m → (∀ a, OneCall i f (k a)) → OneCall i f (mbind k m).
Proof.
  intros Hm Hk s b s' HE Hi. apply ST_bind_Ok in HE as (a & s1 & H1 & H2).
  destruct (Hm _ _ _ H1) as [E1 E2]. destruct (Hk _ _ _ _ H2) as [H3 H4]; [by rewrite E1|]. by rewrite E2 in H4.
Qed.

Lemma one_before {A B} (m : ST bstate A) (k : A → ST bstate B) :
  OneCall i f m → (∀ a, Keeps same_calls (k a)) → OneCall i f (mbind k m).
Proof.
  intros Hm Hk s b s' HE Hi. apply ST_bind_Ok in HE as (a & s1 & H1 & H2).
  destruct (Hm _ _ _ H1 Hi) as [H3 H4]. destruct (Hk _ _ _ _ H2) as [E1 E2]. by rewrite E1, E2.
Qed.

Lemma one_emit k : rec_imm (inl (mk_action 0 0 k)) = f → named_helper f → OneCall i f (emit k).
Proof.
  intros Hk Hf s a s' HE Hi. unfold emit, upd_blk in HE. res_inv. split; [done|]. unfold records. cbn [bs_blk set_out actions sources].
  rewrite omap_app, Hi. cbn [default]. set (a := mk_action _ _ k).
  assert (omap action_record [a] = [] ∨ omap action_record [a] = [(i, inl a)]) as [-> | ->].
  { simpl. unfold action_record. case_bool_decide; auto. }
  - left. by rewrite app_nil_r.
  - right. exists (inl a). split; [|done]. rewrite <- app_assoc. symmetry. apply Permutation_middle.
Qed.

Lemma one_source o g : fr_idx g = i → fr_func g = f → named_helper f → OneCall i f (add_source (VFunc o g)).
Proof.
  intros Hg Hff Hf s a s' HE Hi. unfold add_source, upd_blk in HE. res_inv. split; [done|]. right.
  exists (inr (VFunc o g)). split; [|done]. unfold records. cbn [bs_blk set_out actions sources].
  rewrite omap_app. simpl. rewrite app_assoc. symmetry. apply Permutation_cons_append.
Qed.

Lemma one_func {A} g (k : val → ST bstate A) : (∀ o, OneCall i f (k (VFunc o g))) → OneCall i f (mbind k (new_func g)).
Proof.
  intros Hk. apply one_after with (m := fresh) (k := λ o, k (VFunc o g)) in Hk; [|apply _].
  intros s a s' HE. apply (Hk s a s'). unfold new_func in HE. res_inv. by apply ST_bind_Ok; eauto.
Qed.

Lemma one_retval {A} sz j g (k : val → ST bstate A) :
  (∀ o n, OneCall i f (k (VFunc o (mk_func sz j g n None VNone None 0 false)))) → OneCall i f (mbind k (new_retval sz j g)).
Proof.
  intros Hk s a s' HE. apply ST_bind_Ok in HE as (v & s1 & HE & HK). unfold new_retval in HE.
  apply ST_bind_Ok in HE as (b & s2 & HG & HE). unfold get_blk in HG. res_inv.
  eapply (one_func _ k (λ o, Hk o (num (bs_blk s2)))). apply ST_bind_Ok. eauto.
Qed.
End one_call.

(** Up to the record, what is left of a run records nothing. *)
Ltac one_step :=
  match goal with
  | |- OneCall _ _ (mbind _ (new_func _)) => apply one_func; intros ?
  | |- OneCall _ _ (mbind _ (new_retval _ _ _)) => apply one_retval; intros ? ?
  | |- OneCall _ _ (mbind _ (emit _)) => apply one_before; [apply one_emit; [try reflexivity|]|intros ?; keeps_auto]
  | |- OneCall _ _ (emit _) => apply one_emit
  | |- OneCall _ _ (add_source _) => apply one_source; [reflexivity|reflexivity|]
  | |- OneCall _ _ (mret _) => apply one_quiet; apply _
  | |- OneCall _ _ (raise _) => apply one_quiet; apply _
  | |- OneCall _ _ (mbind _ _) => apply one_after; [solve [keeps_auto]|intros ?]
  | |- OneCall _ _ (mbind _ (if ?b then _ else _)) => destruct b
  | |- OneCall _ _ (if ?b then _ else _) => destruct b
  | |- OneCall _ _ _ => apply one_quiet; solve [keeps_auto]
  | |- OneCall _ _ (match ?x with _ => _ end) => destruct x
  end.

(** *** The calls *)

(** A number the code compares with is a named helper's. *)
Lemma named_in f l : existsb (Z.eqb f) l = true → forallb (λ x, bool_decide (named_helper x)) l = true → named_helper f.
Proof.
  intros (x & Hx & E)%existsb_exists H. apply Z.eqb_eq in E as ->. rewrite forallb_forall in H.
  apply H in Hx. by apply bool_decide_eq_true in Hx.
Qed.

Section calls.
Context (t : tracker) (i : Z).

Lemma one_lookup : OneCall i 1 (call_lookup t i).
Proof. unfold call_lookup. repeat one_step; by apply (bool_decide_unpack _). Qed.

Lemma one_scalar f : named_helper f → OneCall i f (call_scalar t i f).
Proof. intros Hf. unfold call_scalar, add_source_unless. repeat one_step. done. Qed.

Lemma one_csum f : named_helper f → OneCall i f (call_csum_diff t i f).
Proof.
  intros Hf. unfold call_csum_diff, add_source_unless. destruct (t_brief t); [|repeat one_step; done].
  apply one_quiet. keeps_auto.
Qed.

Lemma one_adjust_head : OneCall i 44 (call_adjust_head t i 44).
Proof. unfold call_adjust_head. repeat one_step; by apply (bool_decide_unpack _). Qed.

Lemma one_adjust_other f : f = 54 ∨ f = 65 → OneCall i f (call_adjust_other t i f).
Proof. intros [-> | ->]; unfold call_adjust_other; repeat one_step; try reflexivity; by apply (bool_decide_unpack _). Qed.

Lemma one_redirect f : named_helper f → OneCall i f (call_redirect t i f).
Proof. intros Hf. unfold call_redirect, get_blk, add_source_unless. repeat one_step; done. Qed.

Lemma one_tail : OneCall i 12 (call_tail t i).
Proof. unfold call_tail. repeat one_step; try reflexivity; by apply (bool_decide_unpack _). Qed.

Lemma one_buff_len : OneCall i 188 (call_buff_len t).
Proof. unfold call_buff_len, get_blk. repeat one_step; try reflexivity; by apply (bool_decide_unpack _). Qed.

(** A call of any helper the code handles; of the others, it raises. *)
Lemma one_helper f : OneCall i f (call_helper t i f).
Proof.
  unfold call_helper.
  destruct (f =? 1) eqn:E; [apply Z.eqb_eq in E as ->; apply one_lookup|clear E].
  destruct (f =? 2); [apply one_quiet; apply _|]. destruct (f =? 3); [apply one_quiet; apply _|].
  destruct (existsb (Z.eqb f) SCALAR_HELPERS) eqn:E; [by apply one_scalar, (named_in _ _ E)|clear E].
  destruct (f =? 25); [apply one_quiet; keeps_auto|].
  destruct (f =? 28) eqn:E; [apply one_csum; apply Z.eqb_eq in E as ->; by apply (bool_decide_unpack _)|clear E].
  destruct (f =? 44) eqn:E; [apply Z.eqb_eq in E as ->; apply one_adjust_head|clear E].
  destruct ((f =? 23) || (f =? 51)) eqn:E.
  { apply one_redirect. apply orb_true_iff in E as [E | E]; apply Z.eqb_eq in E as ->; by apply (bool_decide_unpack _). }
  clear E. destruct (f =? 12) eqn:E; [apply Z.eqb_eq in E as ->; apply one_tail|clear E].
  destruct ((f =? 54) || (f =? 65)) eqn:E; [apply one_adjust_other; rewrite <- !Z.eqb_eq; by apply orb_true_iff|clear E].
  destruct (f =? 188) eqn:E; [apply Z.eqb_eq in E as ->; apply one_buff_len|clear E].
  destruct ((f =? 10) || (f =? 11)); apply one_quiet; apply _.
Qed.

(** *** Instructions and blocks *)

(** Instruction [i] calls the helper of [r], which has a name. *)
Definition calls_at (instrs : list instr) (i : Z) (r : action + val) : Prop := named_helper (rec_imm r) ∧
  ∃ ins, py_index instrs i = Ok ins ∧ is_call ins = true ∧ src_reg ins = 0 ∧ imm ins = rec_imm r.

(** What was recorded between two states: the calls of the instructions from [lo] to
    [hi], each under its own number. *)
Definition recorded_between (lo hi : Z) (s s' : bstate) : Prop := ∃ new,
  records (bs_blk s') ≡ₚ new ++ records (bs_blk s) ∧ NoDup (map fst new) ∧
  ∀ x, x ∈ new → lo <= x.1 <= hi ∧ calls_at (t_instrs t) x.1 x.2.

Lemma track_instr_records (s s' : bstate) : track_instr t i s = Ok (tt, s') → recorded_between i i s s'.
Proof.
  intros HE. unfold track_instr in HE. apply ST_bind_Ok in HE as ([] & s1 & H1 & HE).
  unfold upd_blk in H1. res_inv. set (s1 := mk_bs _ _ _) in HE.
  rename v into ins.
  assert (∃ f, one_call i f s1 s' ∧ ((∃ ins, py_index (t_instrs t) i = Ok ins ∧ is_call ins = true ∧
    src_reg ins = 0 ∧ imm ins = f) ∨ same_calls s1 s')) as (f & H1 & Hins).
  { assert (∀ m, m s1 = Ok (tt, s') → Keeps same_calls m → ∃ f, one_call i f s1 s' ∧ ((∃ ins,
      py_index (t_instrs t) i = Ok ins ∧ is_call ins = true ∧ src_reg ins = 0 ∧ imm ins = f) ∨ same_calls s1 s')) as Hq.
    { intros m Hm Hk. exists 0. split; [exact (one_quiet i 0 m Hk _ _ _ Hm)|right; exact (Hk _ _ _ Hm)]. }
    destruct (is_alu ins); [by eapply Hq; [exact HE|apply _]|].
    destruct (is_load ins); [by eapply Hq; [exact HE|apply _]|].
    destruct (is_store ins); [by eapply Hq; [exact HE|apply _]|].
    destruct (is_call ins) eqn:Ecall; [|destruct (is_branch ins); by eapply Hq; [exact HE|apply _]].
    unfold track_call in HE. apply ST_bind_Ok in HE as (ins' & s2 & H2 & HE). apply lift_Ok in H2 as [Hi ->].
    rewrite E in Hi. injection Hi as <-. destruct (negb (src_reg ins =? 0)) eqn:Esrc; [by eapply Hq; [exact HE|apply _]|].
    exists (imm ins). split; [|left; exists ins; bool_prop; done].
    refine ((_ : OneCall i (imm ins) _) _ _ _ HE). apply one_before; [apply one_helper|apply _]. }
  assert (records (bs_blk s') = records (bs_blk s) ∨ ∃ r, records (bs_blk s') ≡ₚ (i, r) :: records (bs_blk s) ∧
    calls_at (t_instrs t) i r) as [Hs | (r & Hp & Hr)].
  { destruct Hins as [Hins | [_ ?]]; [|by left]. destruct (H1 eq_refl) as [_ [? | (r & Hp & <- & Hn)]]; [by left|].
    right. exists r. split; [done|by split]. }
  - exists []. split; [by rewrite Hs|]. split; [constructor|]. by intros x ?%elem_of_nil.
  - exists [(i, r)]. split; [done|]. split; [apply NoDup_singleton|]. intros x ->%list_elem_of_singleton. by split; [simpl; lia|].
Qed.
End calls.

Lemma records_compose t a b c s1 s2 s3 : recorded_between t a b s1 s2 → recorded_between t (b + 1) c s2 s3 →
  a <= b + 1 → b <= c → recorded_between t a c s1 s3.
Proof.
  intros (n1 & P1 & D1 & H1) (n2 & P2 & D2 & H2) Hab Hbc. exists (n2 ++ n1). split; [by rewrite P2, P1, app_assoc|]. split.
  - rewrite map_app. apply NoDup_app. split; [done|]. split; [|done].
    intros x (y & -> & Hy)%list_elem_of_fmap (z & Hz & Hzin)%list_elem_of_fmap.
    destruct (H2 _ Hy) as [? _], (H1 _ Hzin) as [? _]. lia.
  - intros x [Hx | Hx]%elem_of_app; [destruct (H2 _ Hx)|destruct (H1 _ Hx)]; split; [lia|done|lia|done].
Qed.

Lemma track_list_records t lo n vs s s' : mapST (track_instr t) (seqZ lo (Z.of_nat n)) s = Ok (vs, s') →
  recorded_between t lo (lo + Z.of_nat n - 1) s s'.
Proof.
  revert lo vs s. induction n as [|n IH]; intros lo vs s HE.
  - simpl in HE. res_inv. exists []. split; [done|]. split; [constructor|]. by intros x ?%elem_of_nil.
  - rewrite seqZ_cons in HE by lia. cbn [mapST] in HE. res_inv. destruct v.
    replace (Z.pred (Z.of_nat (S n))) with (Z.of_nat n) in E0 by lia.
    apply track_instr_records in E. apply IH in E0.
    eapply (records_compose _ lo lo); [done| |lia|lia].
    replace (lo + 1) with (Z.succ lo) by lia. replace (lo + Z.of_nat (S n) - 1) with (Z.succ lo + Z.of_nat n - 1) by lia. done.
Qed.

(** A tracked block records calls under the numbers of its own instructions. *)
Lemma track_block_records t n s s' : track_block_st t n s = Ok (tt, s') →
  NoDup (map fst (records (bs_blk s'))) ∧
  ∀ x, x ∈ records (bs_blk s') → start (bs_blk s) <= x.1 <= end_ (bs_blk s) ∧ calls_at (t_instrs t) x.1 x.2.
Proof.
  intros HE. unfold track_block_st in HE. apply ST_bind_Ok in HE as ([] & s1 & H1 & HE).
  change (enter_block t n) with (upd_blk reset_block;; entry t n) in H1.
  apply ST_bind_Ok in H1 as ([] & s0 & H0 & H1).
  assert (Keeps same_place (upd_blk reset_block;; entry t n)) as Hkp by apply _.
  assert (same_place s s1) as Hpl by (apply (Hkp s tt s1); apply ST_bind_Ok; eauto).
  assert (records (bs_blk s1) = []) as Hnil.
  { destruct (keeps_entry same_calls t n s0 tt s1 H1) as [_ ->]. unfold upd_blk in H0. by res_inv. }
  unfold get_blk in HE. res_inv. unfold track_body in HE. res_inv. unfold same_place, place in Hpl. injection Hpl.
  intros _ _ _ _ _ _ _ He Hs _. rewrite Hs, He in *. unfold zrange in *.
  set (k := end_ (bs_blk s) + 1 - start (bs_blk s)) in *.
  assert (∀ lo, seqZ lo k = seqZ lo (Z.of_nat (Z.to_nat k))) as Hk.
  { intros lo. destruct (decide (0 <= k)); [by rewrite Z2Nat.id|]. by rewrite !seqZ_nil by lia. }
  rewrite Hk in *. destruct (track_list_records _ _ _ _ _ _ E) as (new & Hp & Hd & Hall).
  rewrite Hnil, app_nil_r in Hp. split; [by rewrite Hp|].
  intros x Hx. rewrite Hp in Hx. destruct (Hall x Hx). unfold k in *. split; [lia|done].
Qed.

(** ** Programs *)

(** [r] is recorded at [i] in some block. *)
Definition recorded (blocks : list Block) (i : Z) (r : action + val) : Prop := ∃ b, b ∈ blocks ∧ (i, r) ∈ records b.

(** What is recorded are calls of the program, and an index has one. *)
Definition one_record (instrs : list instr) (blocks : list Block) : Prop :=
  (∀ i r, recorded blocks i r → calls_at instrs i r) ∧
  ∀ i r r', recorded blocks i r → recorded blocks i r' → r = r'.

Lemma NoDup_fst_inj {A B} (l : list (A * B)) k x y : NoDup (map fst l) → (k, x) ∈ l → (k, y) ∈ l → x = y.
Proof.
  induction l as [|[a b] l IH]; intros Hnd; [by intros ?%elem_of_nil|].
  apply NoDup_cons in Hnd as [Hni Hnd].
  intros [Hx | Hx]%elem_of_cons [Hy | Hy]%elem_of_cons; simplify_eq; [done| | |by apply IH]; exfalso; apply Hni;
    [by apply (list_elem_of_fmap_2 fst) in Hy|by apply (list_elem_of_fmap_2 fst) in Hx].
Qed.

(** A tracked program whose blocks do not overlap. *)
Lemma tracked_records t oid bs srcs : track t oid = Ok (bs, srcs) →
  (∀ i k k' b b', (k < k')%nat → t_blocks t !! k = Some b → t_blocks t !! k' = Some b' →
     start b' <= i → i <= end_ b → start b <= i → i <= end_ b' → False) → one_record (t_instrs t) bs.
Proof.
  intros HT Hap. destruct (track_run _ _ _ _ HT) as (Hpl & _ & order & Hord & Hin & b0 & H0).
  assert (∀ k b, bs !! k = Some b → ∃ b0, t_blocks t !! k = Some b0 ∧ NoDup (map fst (records b)) ∧
    ∀ x, x ∈ records b → start b0 <= x.1 <= end_ b0 ∧ calls_at (t_instrs t) x.1 x.2) as Hblk.
  { intros k b Hb. assert (∃ b1, t_blocks t !! k = Some b1 ∧ place b = place b1) as (b1 & Hb1 & Hp1).
    { assert ((place <$> bs) !! k = Some (place b)) as H by (by rewrite list_lookup_fmap, Hb).
      rewrite Hpl, list_lookup_fmap in H. apply fmap_Some in H as (b1 & ? & ?). eauto. }
    exists b1. split; [done|].
    assert (∃ bl b2, tracked t bl bs (Z.of_nat k) b2) as (bl & b2 & Htr).
    { assert (Z.of_nat k ∈ 0 :: order) as Hk.
      { rewrite Hord. apply lookup_lt_Some in Hb1. unfold zrange. rewrite elem_of_seqZ. lia. }
      apply elem_of_cons in Hk as [-> | Hk]; [eauto|]. apply list_elem_of_lookup in Hk as [j Hj].
      destruct (Hin j _ Hj) as (bl & b2 & ? & _). eauto. }
    destruct (tracked_place _ _ _ _ _ Htr) as (b3 & Hb3 & Hp3). rewrite Nat2Z.id, Hb in Hb3. injection Hb3 as <-.
    destruct Htr as [_ (o & id & s' & Hrun & Hs')]. rewrite Nat2Z.id, Hb in Hs'. injection Hs' as ->.
    apply track_block_records in Hrun. simpl in Hrun. rewrite Hp1 in Hp3. unfold place in Hp3. by injection Hp3 as _ -> -> _. }
  split.
  - intros i r (b & [k Hk]%list_elem_of_lookup & Hr). destruct (Hblk k b Hk) as (? & _ & _ & Hall).
    by destruct (Hall _ Hr) as [_ ?].
  - intros i r r' (b & [k Hk]%list_elem_of_lookup & Hr) (b' & [k' Hk']%list_elem_of_lookup & Hr').
    destruct (Hblk _ _ Hk) as (b1 & Hb1 & Hnd & Hall), (Hblk _ _ Hk') as (b2 & Hb2 & _ & Hall').
    destruct (Hall _ Hr) as [Hi _], (Hall' _ Hr') as [Hi' _]. simpl in *.
    destruct (Nat.lt_trichotomy k k') as [Hlt | [<- | Hlt]].
    + exfalso. apply (Hap i k k' b1 b2); done || lia.
    + rewrite Hk in Hk'. injection Hk' as <-. by eapply NoDup_fst_inj.
    + exfalso. apply (Hap i k' k b2 b1); done || lia.
Qed.

(** ** The index of a program's calls *)

Lemma fold_keyed {A V} (g : list (Z * V) → A → list (Z * V)) (key : A → option (Z * V)) l d i :
  (∀ d x, g d x = match key x with Some (k, v) => pset d k v | None => d end) →
  (∀ r, pget (fold_left g l d) i = Some r → (∃ x, x ∈ l ∧ key x = Some (i, r)) ∨ pget d i = Some r) ∧
  ((∃ x r, x ∈ l ∧ key x = Some (i, r)) ∨ is_Some (pget d i) → is_Some (pget (fold_left g l d) i)).
Proof.
  intros Hg. revert d. induction l as [|x l IH]; intros d; simpl.
  { split; [by right|]. intros [(x & r & Hx%elem_of_nil & _) | H]; done. }
  destruct (IH (g d x)) as [IH1 IH2]. rewrite Hg in IH1, IH2 |- *. split.
  - intros r [(y & Hy & Hk) | Hr]%IH1; [left; exists y; split; [by right|done]|].
    destruct (key x) as [[k v]|] eqn:Ek; [|by right]. rewrite pget_pset in Hr. case_decide; [|by right].
    simplify_eq. left. exists x. split; [left|done].
  - intros H. apply IH2. destruct H as [(y & r & [-> | Hy]%elem_of_cons & Hk) | Hs].
    + right. rewrite Hk, pget_pset, decide_True by done. eauto.
    + left. eauto.
    + right. destruct (key x) as [[k v]|]; [|done]. rewrite pget_pset. case_decide; eauto.
Qed.

Lemma index_block_get d b i :
  (∀ r, pget (index_block d b) i = Some r → (i, r) ∈ records b ∨ pget d i = Some r) ∧
  ((∃ r, (i, r) ∈ records b) ∨ is_Some (pget d i) → is_Some (pget (index_block d b) i)).
Proof.
  unfold index_block. cbv zeta.
  set (d1 := fold_left (λ d a, if bool_decide (is_Some (action_ret a)) then pset d (a_idx a) (inl a) else d)
               (actions b) d).
  destruct (fold_keyed (λ d v, match v with VFunc _ f => pset d (fr_idx f) (inr v) | _ => d end)
    value_record (sources b) d1 i) as [F1 F2]; [by intros ? []|].
  destruct (fold_keyed (λ d a, if bool_decide (is_Some (action_ret a)) then pset d (a_idx a) (inl a) else d)
    action_record (actions b) d i) as [G1 G2]; [by intros; unfold action_record; case_match|]. fold d1 in G1, G2.
  unfold records. setoid_rewrite elem_of_app. setoid_rewrite list_elem_of_omap. split.
  { intros r [Hr | [Hr | Hr]%G1]%F1; [left; by right|left; by left|by right]. }
  intros [(r & [(x & Hx & Hk) | (x & Hx & Hk)]) | Hd]; apply F2; [right; apply G2; left; eauto|left; eauto|right; apply G2; by right].
Qed.

(** The index of a list of blocks finds a record of each index recorded. *)
Lemma index_recorded blocks i :
  (∀ r, pget (build_call_index blocks) i = Some r → recorded blocks i r) ∧
  ((∃ r, recorded blocks i r) → is_Some (pget (build_call_index blocks) i)).
Proof.
  unfold build_call_index. apply (fold_left_ind _ (λ pre d, (∀ r', pget d i = Some r' → recorded pre i r') ∧
    ((∃ r', recorded pre i r') → is_Some (pget d i)))).
  - split; [done|]. by intros (? & ? & ?%elem_of_nil & ?).
  - intros pre b d _ [IH1 IH2]. destruct (index_block_get d b i) as [I1 I2]. split.
    + intros r' [Hb | (x & Hx & Hr')%IH1]%I1.
      * exists b. split; [apply elem_of_app; right; left|done].
      * exists x. split; [apply elem_of_app; by left|done].
    + intros (r' & x & [Hx | ->%list_elem_of_singleton]%elem_of_app & Hr'); apply I2; [right|left; eauto].
      apply IH2. by exists r', x.
Qed.

(** With one record at an index, it finds that one. *)
Lemma index_exact instrs blocks i r : one_record instrs blocks →
  pget (build_call_index blocks) i = Some r ↔ recorded blocks i r.
Proof.
  intros [_ Hone]. destruct (index_recorded blocks i) as [H1 H2]. split; [apply H1|].
  intros Hr. destruct (H2 (ex_intro _ r Hr)) as [r' Hr']. rewrite Hr'. f_equal. eapply Hone; eauto.
Qed.
