(* ===== verification/CallIndex.v ===== *)
(** The call index of an analysed program ([Program.p_calls]): every call the tracker
    recorded is found under the number of the instruction that makes it. The example at the end is a whole program, from its object
    file: it looks a map up by a key on its stack, reads the value and asks for the time. *)

From stdpp Require Import relations.
From S2P Require Import Prelude Constants Instr Link Expr Record Encode Action Block Cfg CfgSound Prune.
From S2P Require Import PruneSound Tracker Frame TrackProg Pystr Spec Loader Program ProgramSound.
From S2P Require Import ProgramExamples CallRecords.

Section program.
Context (open : string → Elf) (depth : nat) (oid0 : Z).

Lemma program_records p : has_graph p → is_tracked oid0 p → one_record (p_instrs p) (p_blocks p).
Proof.
  intros (progs & bs & cfg & starts & HC & Hpl) (bs0 & HT & Hpl0 & _).
  apply (tracked_records _ _ _ _ HT). intros i k k' b b' Hlt Hb Hb' H1 H2 _ _. simpl in Hb, Hb'.
  assert (∀ k b, bs0 !! k = Some b → ∃ x, bs !! k = Some x ∧ place x = place b) as Hlook.
  { intros j c Hc. assert ((place <$> bs) !! j = Some (place c)) as H.
    { by rewrite <- Hpl, <- Hpl0, list_lookup_fmap, Hc. }
    rewrite list_lookup_fmap in H. apply fmap_Some in H as (x & ? & ?). eauto. }
  destruct (Hlook _ _ Hb) as (x & Hx & Ex), (Hlook _ _ Hb') as (x' & Hx' & Ex').
  unfold place in Ex, Ex'. injection Ex as _ _ Ee _ _ _ _ _ _ _. injection Ex' as _ Es _ _ _ _ _ _ _ _.
  eapply (blocks_apart _ _ _ _ _ _ HC i k k' x x'); [done..|by rewrite Es|by rewrite Ee].
Qed.

(** An analysed program, whatever stages were run before. *)
Lemma analyzed_records f main ts p p' :
  rtc (stage_step open depth oid0) (new_program f main ts) p → analyze open depth oid0 p = Ok p' →
  has_graph p' ∧ one_record (p_instrs p') (p_blocks p') ∧ p_calls p' = build_call_index (p_blocks p').
Proof.
  intros HR HA. destruct (analyze_consistent _ _ _ _ _ (reachable_consistent _ _ _ _ _ _ _ HR) HA)
    as ((_ & Hg & Ht) & Hall & _).
  pose proof (Hg (Hall _)) as G. pose proof (Ht (Hall _)) as T.
  split; [done|]. split; [by apply program_records|]. by destruct T as (? & _ & _ & ?).
Qed.

(** C36 The calls of an analysed program are indexed exactly: whatever stages were run before, the index finds
    at a number the call the tracker recorded there and nothing else, in whichever block; no two calls share a
    number, and the instruction of that number is the call of the record's helper, one that the specification
    language has a name for. *)
Theorem call_index_exact f main ts p p' :
  rtc (stage_step open depth oid0) (new_program f main ts) p → analyze open depth oid0 p = Ok p' →
  ∀ i r, (pget (p_calls p') i = Some r ↔ recorded (p_blocks p') i r) ∧
    (recorded (p_blocks p') i r → calls_at (p_instrs p') i r ∧ ∀ r', recorded (p_blocks p') i r' → r' = r).
Proof.
  intros HR HA i r. destruct (analyzed_records _ _ _ _ _ HR HA) as (_ & Hone & ->). split; [by eapply index_exact|].
  intros Hr. split; [by apply Hone|]. intros r' Hr'. by eapply Hone.
Qed.
End program.

(** ** An example: a lookup by a key on the stack, and the clock *)

Local Open Scope string_scope.
Local Open Scope Z_scope.

(** [key = 7; v = lookup(&flows, &key); if (v == 0) return 1; v[4:6]; return ktime();]. *)
Definition call_code : section := mk_section "xdp" (mjoin
  [[0x62; 10; 0xfc; 0xff; 7; 0; 0; 0]; [0xbf; 0xa2; 0; 0; 0; 0; 0; 0]; [0x07; 2; 0; 0; 0xfc; 0xff; 0xff; 0xff];
   [0x18; 1; 0; 0; 0; 0; 0; 0]; [0; 0; 0; 0; 0; 0; 0; 0]; [0x85; 0; 0; 0; 1; 0; 0; 0];
   [0x15; 0; 3; 0; 0; 0; 0; 0]; [0x69; 6; 4; 0; 0; 0; 0; 0]; [0x85; 0; 0; 0; 5; 0; 0; 0];
   [0x95; 0; 0; 0; 0; 0; 0; 0]; [0xb7; 0; 0; 0; 1; 0; 0; 0]; [0x95; 0; 0; 0; 0; 0; 0; 0]]).
Definition call_main : elf_symbol := mk_elf_symbol "main" 0 96 (ShNum 0) "STT_FUNC".
Definition call_map : elf_symbol := mk_elf_symbol "flows" 0 20 (ShNum 2) "STT_OBJECT".
Definition call_sections : list section := [call_code; mk_section ".symtab" [];
  mk_section "maps" [1; 0; 0; 0; 4; 0; 0; 0; 8; 0; 0; 0; 16; 0; 0; 0; 0; 0; 0; 0]; mk_section ".relxdp" []].
Definition call_elf : Elf := {|
  iter_sections := call_sections;
  get_section_by_name := λ n, List.find (λ s, bool_decide (sec_name s = n)) call_sections;
  get_section := λ i, Ok (match i with ShNum n => call_sections !! Z.to_nat n | _ => None end);
  iter_symbols := [call_main; call_map];
  get_symbol_by_name := λ n, if bool_decide (n = "main") then Some [call_main] else None;
  get_symbol := λ i, Ok (if i =? 0 then call_main else call_map);
  iter_relocations := λ _, [mk_reloc 24 1]
|}.
Notation call_analyzed := (analyze (λ _, call_elf) 9 1000 run_program).

(** The numbers, helpers and blocks of the calls found. *)
Example calls_found : match call_analyzed with
  | Ok p => map (λ x, (x.1, rec_imm x.2)) (p_calls p) | Err _ => [] end = [(5, 1); (8, 5)].
Proof. vm_compute. reflexivity. Qed.

(** Instruction 8 is the one call of helper 5 recorded there. *)
Lemma call_index_exact_witness : ∃ p r, call_analyzed = Ok p ∧ pget (p_calls p) 8 = Some r ∧
  recorded (p_blocks p) 8 r ∧ calls_at (p_instrs p) 8 r ∧ ∀ r', recorded (p_blocks p) 8 r' → r' = r.
Proof.
  destruct (run_test call_analyzed (λ p, bool_decide (is_Some (pget (p_calls p) 8)))) as (p & E & [r Hr]%bool_decide_eq_true);
    [vm_compute; reflexivity|].
  destruct (call_index_exact (λ _, call_elf) 9 1000 "prog.o" "main" [] run_program p (rtc_refl _ _) E 8 r) as [Hi Hc].
  pose proof (proj1 Hi Hr) as Hrec. destruct (Hc Hrec) as [Hat Hone].
  exists p, r. split; [exact E|]. split; [exact Hr|]. split; [exact Hrec|]. split; [exact Hat|exact Hone].
Defined.
