(* ===== verification/IdentitySound.v ===== *)
(** Whatever stages were run before, identities tell the values of an analysed program
    apart: the assumption under which the encoder's memo, the search for return codes,
    the printer's names and the elimination of phis read [id(o)] as the object. *)

From stdpp Require Import relations.
From S2P Require Import Prelude Constants Instr Link Expr Record Encode EncodeSound Action Block Cfg Prune Worklist Dce.
From S2P Require Import Tracker Identity Pystr Spec Loader Program ProgramSound ProgramExamples Text Facts.
From S2P Require Import FactsSound TextSound CallIndex Smt SmtTerm Denote.

(** ** Stages *)

Section program.
Context (open : string → Elf) (depth : nat) (oid0 : Z).

(** The blocks of [p] are in some store. *)
Definition in_one_store (p : eBPFProgram) : Prop := ∃ o, identified o (p_blocks p).

Lemma stage_in_store p p' : in_one_store p → stage_step open depth oid0 p p' → in_one_store p'.
Proof.
  assert (∀ brief q q', in_one_store q → Program.track oid0 brief q = Ok q' → in_one_store q') as Ht.
  { intros brief q q' [o Hq] HE. unfold Program.track in HE. apply bind_Ok in HE as ([bs srcs] & HT & HE).
    apply track_identified in HT as [o' Ho']; [|by eapply identified_free].
    exists o'. destruct brief; by injection HE as <-. }
  intros Hp HS. destruct HS as [p p' HE | p p' HE | p p' HE | p p' _ HE]; [| |by eapply Ht..].
  - unfold Program.decode_binary in HE. res_inv. done.
  - unfold Program.build_cfg in HE. apply bind_Ok in HE as ([[[bs cfg] st] pr] & HC & [= <-]).
    exists 1. apply bare_identified. intros h. by eapply stored_build.
Qed.

Lemma reachable_in_store f main ts p : rtc (stage_step open depth oid0) (new_program f main ts) p → in_one_store p.
Proof.
  assert (∀ q, in_one_store q → rtc (stage_step open depth oid0) q p → in_one_store p) as H.
  { intros q Hq HR. induction HR as [|x y z HS _ IH]; [done|]. by eapply IH, stage_in_store. }
  apply H. exists 1. apply bare_identified. apply _.
Qed.

Lemma analyzed_in_store f main ts p p' : rtc (stage_step open depth oid0) (new_program f main ts) p →
  analyze open depth oid0 p = Ok p' → in_one_store p'.
Proof.
  intros HR HA. apply (reachable_in_store f main ts). etransitivity; [done|].
  by destruct (analyze_consistent _ _ _ _ _ (reachable_consistent _ _ _ _ _ _ _ HR) HA) as (_ & _ & ?).
Qed.
End program.

(** ** What the other components assume *)

(** The parts each of them looks at. *)
Lemma stored_nodes h v x : Stored h v → x ∈ nodes v → Stored h x.
Proof.
  assert (∀ v c, Stored h v → is_none v = false → c ∈ _children v → Stored h c) as Hch by (intros; by eapply stored_child).
  revert v. apply (val_ind' (λ v, Stored h v → x ∈ nodes v → Stored h x)).
  - intros v Hv Hs Hx. rewrite Hv in Hx. by apply list_elem_of_singleton in Hx as ->.
  - intros o u IH Hs [-> | Hx]%elem_of_cons; [done|]. apply IH; [|done]. apply (Hch _ _ Hs); [done|]. by left.
  - intros o b IHd IHs Hs [-> | [Hx | Hx]%elem_of_app]%elem_of_cons; [done|apply IHd|apply IHs]; try done;
      apply (Hch _ _ Hs); try done; simpl; rewrite !elem_of_cons; auto.
  - intros o cs sz off IH Hs [-> | Hx]%elem_of_cons; [done|].
    apply list_elem_of_join in Hx as (l & Hx & (c & -> & Hc)%list_elem_of_fmap).
    rewrite Forall_forall in IH. apply (IH c Hc); [|done]. by apply (Hch _ _ Hs).
  - intros o p IH Hs [-> | Hx]%elem_of_cons; [done|]. apply IH; [|done]. apply (Hch _ _ Hs); [done|]. by left.
  - intros o m IHk IHv Hs [-> | [Hx | Hx]%elem_of_app]%elem_of_cons; [done|apply IHk|apply IHv]; try done;
      apply (Hch _ _ Hs); try done; simpl; rewrite !elem_of_cons; auto.
  - intros o b IH Hs [-> | Hx]%elem_of_cons; [done|]. apply IH; [|done]. apply (Hch _ _ Hs); [done|]. by left.
  - intros o r IH Hs [-> | Hx]%elem_of_cons; [done|]. apply IH; [|done]. apply (Hch _ _ Hs); [done|]. by left.
  - intros o b IH Hs [-> | Hx]%elem_of_cons; [done|]. apply IH; [|done]. apply (Hch _ _ Hs); [done|]. by left.
  - intros o f IH Hs [-> | Hx]%elem_of_cons; [done|]. apply IH; [|done]. apply (Hch _ _ Hs); [done|]. by left.
Qed.

Lemma stored_phi_part h v x : Stored h v → part v x → Stored h x.
Proof. intros Hs Hp. induction Hp as [|o j v x Hv _ IH]; [done|]. apply IH. by apply (stored_child _ _ _ (eq_refl : is_none (VJoin o j) = false) Hs). Qed.

Lemma stored_under h v x : Stored h v → under v x → Stored h x.
Proof.
  intros Hs Hu. induction Hu as [|v c x Hc _ IH]; [done|]. apply IH.
  apply (stored_child _ v); [by destruct v; try (by apply elem_of_nil in Hc)|done|].
  by destruct v; try (by apply elem_of_nil in Hc).
Qed.

(** The roots of phi elimination are values of the blocks. *)
Lemma stored_roots h bs r : Stored h bs → r ∈ roots_of bs → Stored h r.
Proof.
  intros Hb (l & Hr & (b & -> & Hin)%list_elem_of_fmap)%list_elem_of_join.
  pose proof (proj1 (stored_in h _) Hb b Hin) as (Hregs & _ & _ & Ha & Hsrc & Hc & Hf & Ht & Hp & Hk)%stored_block.
  refine (proj1 (stored_in h (block_roots b)) _ r Hr). unfold block_roots.
  repeat apply stored_app; try (by apply stored_vals).
  - apply (stored_map h (λ x : option Z * PtrFacts, pf_ptr x.2)); [|done]. intros x Hx. exact (stored_snd h x Hx).
  - apply (stored_map h (λ x : option Z * PktFacts, kf_ptr x.2)); [|done]. intros x Hx. exact (stored_snd h x Hx).
  - apply stored_if; [|apply _]. destruct (regs b !! 0%nat) as [v|] eqn:Ev; [|apply _].
    apply stored_if; [apply _|]. apply stored_cons; [|apply _].
    apply list_elem_of_lookup_2 in Ev. by apply (proj1 (stored_in h _) Hregs).
  - by apply stored_filter.
Qed.

Lemma stored_held h bs v : Stored h bs → leads_from is_none _children (roots_of bs) v → Stored h v.
Proof.
  intros Hb. apply (leads_closed is_none _children (λ v, Stored h v)); [intros; by eapply stored_roots|].
  intros a b Ha Hn Hin. by eapply stored_child.
Qed.

(** ** Analysed programs *)

Lemma one_store_identity h bs : Stored h bs → one_identity bs.
Proof.
  intros Hb v w Hv Hnv Hnw Hw. eapply stored_unique; [by eapply stored_held| |done..].
  destruct Hw as [Hw | (b & Hin & Hw)]; [by eapply stored_held|].
  pose proof (proj1 (stored_in h _) Hb b Hin) as Hs%stored_sources. by apply (proj1 (stored_in h _) Hs).
Qed.

(** C34 Identities tell the values of an analysed program apart, whatever stages were run before: two objects the
    blocks refer to, in registers, stack slots, actions, conditions, facts or sources, or that these are built
    from, are the same if their identities are, and none has that of [None]. So no operation of the tracker
    changes an object it shares, and what the encoder's memo, the elimination of phis, the search for return
    codes and the printer take for one object is one. *)
Theorem identities_unique open depth oid0 f main ts p0 p :
  rtc (stage_step open depth oid0) (new_program f main ts) p0 → analyze open depth oid0 p0 = Ok p →
  (∀ v w, object_of (p_blocks p) v → object_of (p_blocks p) w → oid v = oid w → v = w) ∧
  one_identity (p_blocks p) ∧
  ∀ e, object_of (p_blocks p) e → EncodeSound.coherent (nodes e) ∧ FactsSound.coherent e ∧ plain e.
Proof.
  intros HR HA. destruct (analyzed_in_store _ _ _ _ _ _ _ _ HR HA) as (_ & _ & h & Hb & _).
  split; [intros v w Hv Hw; eapply stored_same; by eapply stored_object|].
  split; [by eapply one_store_identity|]. intros e He%(stored_object h); [|done]. split_and!.
  - intros x y Hx Hy _ _. eapply stored_same; by eapply stored_nodes.
  - intros x y Hx Hy. eapply stored_same; by eapply stored_phi_part.
  - intros x y _ _ Hx Hy. eapply stored_same; by eapply stored_under.
Qed.

(** So, without assumptions on the values, of an analysed program the phis found alive are those that are used, *)
Theorem program_phis open depth oid0 f main ts p0 p :
  rtc (stage_step open depth oid0) (new_program f main ts) p0 → analyze open depth oid0 p0 = Ok p →
  ∃ live, live_phis (p_blocks p) = Ok live ∧
    ∀ o, o ∈ live ↔ ∃ v, leads_from is_none _children (roots_of (p_blocks p)) v ∧ is_join v = true ∧ oid v = o.
Proof.
  intros HR HA. destruct (analyzed_in_store _ _ _ _ _ _ _ _ HR HA) as (_ & _ & h & Hb & _).
  by apply live_phis_spec, (one_store_identity h).
Qed.

(** and a well-formed expression is encoded as its value. *)
Theorem program_expressions `{HL : SMTLaws} open depth oid0 f main ts p0 p (m : model) st present_at e t :
  rtc (stage_step open depth oid0) (new_program f main ts) p0 → analyze open depth oid0 p0 = Ok p →
  object_of (p_blocks p) e → val_wf e → state_ok st →
  (∀ g mid key blk kid t, read_present st = Some g → g mid key blk kid = Ok t →
     evb m t = present_at mid (ev m key) blk kid) →
  expr_z3 st e = Ok t → ev m t = den (z3_world m st present_at) e.
Proof.
  intros HR HA He Hwf Hst Hp HE. destruct (analyzed_in_store _ _ _ _ _ _ _ _ HR HA) as (_ & _ & h & Hb & _).
  apply (stored_object h) in He; [|done]. apply expr_z3_ev; try done.
  intros x y Hx Hy _ _. eapply stored_same; by eapply stored_nodes.
Qed.

(** ** An example: the program of [CallIndex] *)

Lemma object_reg bs i r b v : bs !! i = Some b → regs b !! r = Some v → object_of bs v.
Proof.
  intros Hb Hv. exists v. split; [|done]. apply list_elem_of_join. exists (values b). split.
  - unfold values, values_block. rewrite elem_of_app. left. apply list_elem_of_join. exists [v]. split; [by left|].
    apply (list_elem_of_fmap_2 (λ v : val, [v])). by eapply list_elem_of_lookup_2.
  - apply (list_elem_of_fmap_2 values). by eapply list_elem_of_lookup_2.
Qed.

(** The stack pointer of the first block and that of the last. *)
Definition stack_pointers (p : eBPFProgram) : option (val * val) :=
  b ← p_blocks p !! 0%nat; c ← last (p_blocks p); v ← regs b !! 10%nat; w ← regs c !! 10%nat; Some (v, w).

(** They have one identity, so they are one pointer, and the phis of the program are told apart. *)
Lemma identities_unique_witness : ∃ p v w, analyze (λ _, call_elf) 9 1000 run_program = Ok p ∧
  stack_pointers p = Some (v, w) ∧ oid v = oid w ∧ v = w ∧ one_identity (p_blocks p) ∧ EncodeSound.coherent (nodes v).
Proof.
  destruct (run_test (analyze (λ _, call_elf) 9 1000 run_program)
    (λ p, match stack_pointers p with Some (v, w) => oid v =? oid w | None => false end)) as (p & E & T); [vm_compute; reflexivity|].
  destruct (stack_pointers p) as [[v w]|] eqn:Es; [|discriminate T]. apply Z.eqb_eq in T.
  destruct (identities_unique (λ _, call_elf) 9 1000 "prog.o" "main" [] run_program p (rtc_refl _ _) E) as (Hu & H1 & Hc).
  assert (object_of (p_blocks p) v ∧ object_of (p_blocks p) w) as [Hv Hw].
  { unfold stack_pointers in Es. destruct (p_blocks p !! 0%nat) as [b|] eqn:Eb; [|discriminate Es]. simpl in Es.
    destruct (last (p_blocks p)) as [c|] eqn:Ec; [|discriminate Es]. simpl in Es.
    destruct (regs b !! 10%nat) as [v'|] eqn:Ev; [|discriminate Es]. simpl in Es.
    destruct (regs c !! 10%nat) as [w'|] eqn:Ew; [|discriminate Es]. simpl in Es. injection Es as -> ->.
    rewrite last_lookup in Ec. split; [exact (object_reg _ _ _ _ _ Eb Ev)|exact (object_reg _ _ _ _ _ Ec Ew)]. }
  exists p, v, w. split; [exact E|]. split; [exact Es|]. split; [exact T|].
  split; [exact (Hu v w Hv Hw T)|]. split; [exact H1|exact (proj1 (Hc v Hv))].
Defined.
