(* ===== verification/RenderSound.v ===== *)
(** What the reports say: the JSON report determines the facts. At the end, the
    report on the program of [CallIndex]. *)

From S2P Require Import Prelude Constants Expr Block Pystr Spec Loader Program ProgramExamples Text Facts.
From S2P Require Import Scaffold Render CallIndex FactsSound.

#[local] Instance JInt_inj : Inj (=) (=) JInt. Proof. by intros ?? [= ->]. Qed.
#[local] Instance JStr_inj : Inj (=) (=) JStr. Proof. by intros ?? [= ->]. Qed.
#[local] Instance JList_inj : Inj (=) (=) JList. Proof. by intros ?? [= ->]. Qed.
#[local] Instance JObj_inj : Inj (=) (=) JObj. Proof. by intros ?? [= ->]. Qed.

Lemma map_eq_inj {A B} (f : A → B) `{!Inj (=) (=) f} (l k : list A) : map f l = map f k → l = k.
Proof. apply (inj (fmap f)). Qed.

#[local] Instance json_ints_inj : Inj (=) (=) json_ints.
Proof. intros l k E. apply (inj JList) in E. by apply (map_eq_inj JInt). Qed.

(** An optional entry is [null] or what it holds. *)
Lemma json_opt_inj {A} (f : A → json) `{!Inj (=) (=) f} : (∀ x, f x ≠ JNull) → Inj (=) (=) (json_opt f).
Proof. intros Hn [x|] [y|] E; simpl in E; [by apply (inj f) in E as ->|by destruct (Hn x)|by destruct (Hn y)|done]. Qed.
#[local] Instance json_str_inj : Inj (=) (=) json_str. Proof. by apply json_opt_inj; [apply _|]. Qed.
#[local] Instance json_int_inj : Inj (=) (=) json_int_opt. Proof. by apply json_opt_inj; [apply _|]. Qed.
#[local] Instance json_codes_inj : Inj (=) (=) (json_opt json_ints). Proof. by apply json_opt_inj; [apply _|]. Qed.

(** ** Entries *)

#[local] Instance read_kind_text_inj : Inj (=) (=) read_kind_text. Proof. by intros [] []. Qed.
#[local] Instance returns_text_inj : Inj (=) (=) returns_text. Proof. by intros [] []. Qed.
#[local] Instance kind_text_inj : Inj (=) (=) kind_text. Proof. by intros [] []. Qed.
#[local] Instance json_key_inj : Inj (=) (=) json_key. Proof. by intros [] [] [=]; subst. Qed.

(** The equations an equation of documents stands for. *)
Ltac json_fields :=
  repeat match goal with
  | H : json_str _ = json_str _ |- _ => apply (inj json_str) in H
  | H : json_int_opt _ = json_int_opt _ |- _ => apply (inj json_int_opt) in H
  | H : json_opt json_ints _ = json_opt json_ints _ |- _ => apply (inj (json_opt json_ints)) in H
  | H : json_key _ = json_key _ |- _ => apply (inj json_key) in H
  | H : read_kind_text _ = read_kind_text _ |- _ => apply (inj read_kind_text) in H
  | H : returns_text _ = returns_text _ |- _ => apply (inj returns_text) in H
  | H : kind_text _ = kind_text _ |- _ => apply (inj kind_text) in H
  | H : map JInt _ = map JInt _ |- _ => apply (map_eq_inj JInt) in H
  | H : map JStr _ = map JStr _ |- _ => apply (map_eq_inj JStr) in H
  end.

#[local] Instance read_entry_inj : Inj (=) (=) read_entry.
Proof. intros [] [] E. injection E. clear E. intros. json_fields. by subst. Qed.
#[local] Instance call_dict_inj : Inj (=) (=) call_dict.
Proof. intros [] [] E. injection E. clear E. intros. json_fields. by subst. Qed.
#[local] Instance call_entry_inj : Inj (=) (=) call_entry.
Proof. intros [] [] E. injection E. clear E. intros. json_fields. by subst. Qed.
#[local] Instance prog_entry_inj : Inj (=) (=) prog_entry_json.
Proof. intros [] [] E. injection E. clear E. intros. json_fields. by subst. Qed.
#[local] Instance exit_entry_inj : Inj (=) (=) exit_entry.
Proof. intros [] [] E. injection E. clear E. intros. json_fields. by subst. Qed.
#[local] Instance pkt_read_inj : Inj (=) (=) pkt_read_json.
Proof. intros [[] ?] [[] ?] E. injection E. clear E. intros. json_fields. by subst. Qed.
#[local] Instance block_inj : Inj (=) (=) _block.
Proof.
  intros [] [] E. injection E. clear E. intros. json_fields.
  repeat match goal with H : map _ _ = map _ _ |- _ => apply (map_eq_inj _) in H end. by subst.
Qed.

(** The facts of maps agree, but for what else is known of their lookups and reads. *)
Definition same_map (m m' : MapFact) : Prop :=
  map (λ c, (cl_idx c, cl_block c)) (mf_lookups m) = map (λ c, (cl_idx c, cl_block c)) (mf_lookups m') ∧
  map (λ r, (rd_idx r, rd_off r, rd_size r)) (mf_reads m) = map (λ r, (rd_idx r, rd_off r, rd_size r)) (mf_reads m') ∧
  set_map_facts [] [] (mf_written m) (mf_targets m) (mf_transfers m) m =
  set_map_facts [] [] (mf_written m') (mf_targets m') (mf_transfers m') m'.

(** Equal images by [g ∘ f] are equal images by [f], for [g] injective. *)
Lemma map_through {A B C} (f : A → B) (g : B → C) (h : A → C) l k : (∀ x, h x = g (f x)) → Inj (=) (=) g →
  map h l = map h k → map f l = map f k.
Proof.
  intros Hh Hg E. apply (map_eq_inj g). rewrite !map_map. by rewrite <- !(map_ext _ _ Hh).
Qed.

Lemma map_same m m' : _map m = _map m' → same_map m m'.
Proof.
  intros E. injection E. clear E. intros Hr Hl _ _ Htr Ht Hw Hf Hm Hv Hk Htn Hty Hn Hi. split_and!.
  - assert (Inj (=) (=) (λ x : Z * Z, JObj [("idx", JInt x.1); ("block", JInt x.2)]%string)) as Hinj by (by intros [] [] [= -> ->]).
    by apply (map_through (λ c, (cl_idx c, cl_block c)) _ (λ c, JObj [("idx", JInt (cl_idx c)); ("block", JInt (cl_block c))]%string) _ _
      (λ _, eq_refl) Hinj).
  - assert (Inj (=) (=) (λ x : Z * Z * Z, JObj [("idx", JInt x.1.1); ("off", JInt x.1.2); ("size", JInt x.2)]%string)) as Hinj
      by (by intros [[] ?] [[] ?] [= -> -> ->]).
    by apply (map_through (λ r, (rd_idx r, rd_off r, rd_size r)) _
      (λ r, JObj [("idx", JInt (rd_idx r)); ("off", JInt (rd_off r)); ("size", JInt (rd_size r))]%string) _ _ (λ _, eq_refl) Hinj).
  - assert (mf_transfers m = mf_transfers m') as Hc.
    { by apply (map_eq_inj (λ c, JObj (call_dict c))). }
    assert (mf_targets m = mf_targets m') as Hg.
    { assert (Inj (=) (=) (λ t : option Z * string, JList [json_int_opt t.1; JStr t.2])).
      { intros [] [] [= E ->]. apply (inj json_int_opt) in E. by simplify_eq. }
      by apply (map_eq_inj (λ t : option Z * string, JList [json_int_opt t.1; JStr t.2])). }
    unfold set_map_facts. congruence.
Qed.

(** C37 The JSON report loses nothing: two programs with the same report have the same facts - size, graph, programs,
    helpers, effects, packet reads, exits and every read, call, write, condition and return value of every block -
    except that of a map's lookups and reads only the places are listed with the map. *)
Theorem to_json_faithful f g : to_json f true = to_json g true →
  Forall2 same_map (f_maps f) (f_maps g) ∧
  mk_facts (f_object_path f) (f_entry f) (f_n_instrs f) (f_n_bytes f) (f_n_blocks f) (f_back_edges f) [] (f_blocks f)
    (f_exits f) (f_helpers f) (f_effects f) (f_pkt_reads f) (f_var_off_reads f) (f_rodata f) (f_bss f) (f_progs f) =
  mk_facts (f_object_path g) (f_entry g) (f_n_instrs g) (f_n_bytes g) (f_n_blocks g) (f_back_edges g) [] (f_blocks g)
    (f_exits g) (f_helpers g) (f_effects g) (f_pkt_reads g) (f_var_off_reads g) (f_rodata g) (f_bss g) (f_progs g).
Proof.
  intros E. injection E. clear E. intros Hb _ Hex _ Hvo Hp Hm Hef Hh Hpr Hbe _ Hbss Hro Hnb Hby Hni Hen Ho.
  apply (map_eq_inj _) in Hb, Hex, Hp, Hpr. split.
  - clear -Hm. revert Hm. generalize (f_maps f) (f_maps g). intros l. induction l as [|x l IH]; intros [|y k]; try done.
    intros [Hx Hl]%cons_eq_inj. constructor; [by apply map_same|by apply IH].
  - assert (∀ l k : list (string * Z), map (λ x, (x.1, JInt x.2)) l = map (λ x, (x.1, JInt x.2)) k → l = k) as Hc.
    { intros l k. assert (Inj (=) (=) (λ x : string * Z, (x.1, JInt x.2))) by (by intros [] [] [= -> ->]).
      apply (map_eq_inj _). }
    apply Hc in Hef, Hh. assert (Inj (=) (=) (λ x : Z * Z, JList [JInt x.1; JInt x.2])) by (by intros [] [] [= -> ->]).
    apply (map_eq_inj _) in Hbe. by f_equal.
Qed.

(** ** An example: the report on the program of [CallIndex] *)

Local Open Scope string_scope.
Local Open Scope Z_scope.

Definition call_block (n : Z) : list string :=
  match block_report (λ _, call_elf) 9 1000 run_program n with Ok s => splitlines s | Err _ => [] end.

Example block_text : call_block 1 =
  ["block 1  exit  instrs 7-9  preds [0]  exit"; "  returns ktime_get_ns8()"; "  read  @7     flows[key5][0x4:+2]";
   "  call  @8     bpf_ktime_get_ns() -> scalar"; "  atoms for a block_conditions cond:";
   "    {'idx': 8, 'helper': 'bpf_ktime_get_ns', 'op': 'eq', 'value': 0}";
   "    {'read': {'map': 'flows', 'offset': 4, 'size': 2}, 'value': 0, 'op': 'eq'}"].
Proof. vm_compute. reflexivity. Qed.

Example no_block : block_report (λ _, call_elf) 9 1000 run_program 7 = Err (ValueError "no such block").
Proof. vm_compute. reflexivity. Qed.

Example report_text :
  match program_report (λ _, call_elf) 9 1000 run_program false with Ok s => take 14 (splitlines s) | Err _ => [] end =
  ["program   prog.o"; "          entry main"; "  size    12 instructions (96 B)   3 blocks   acyclic";
   "  helpers bpf_map_lookup_elem 1   bpf_ktime_get_ns 1"; ""; _rule "maps (1)";
   "  id name                 type          key  val  entries  lookups  seed";
   "   0 flows                HASH            4    8       16        1  YES ";
   "     at b0"; "";
   "  seed=YES: a HASH-family map starts EMPTY, so its lookups always miss";
   "  and the hit-path blocks after them are unreachable — an assert:" +:+ quoted "all";
   "  there passes vacuously. List the map in input.maps to control it:";
   "    " +:+ quoted "flows" +:+ ": {" +:+ quoted "<4B key>" +:+ ": " +:+ quoted "<8B value>" +:+ "}   # or {} to pin it empty"].
Proof. vm_compute. reflexivity. Qed.

(** A text with a quote is shown in double quotes, one with both escapes its single ones. *)
Example reprs : map repr_text ["map"; "it's"; "a\b"; "it's " +:+ quoted "x"] =
  ["'map'"; quoted "it's"; "'a\\b'"; "'it\'s " +:+ quoted "x" +:+ "'"].
Proof. vm_compute. reflexivity. Qed.

(** The facts with the helper names of the lookups listed under a map forgotten have the
    same report. *)
Definition forget_helper (c : Call) : Call :=
  mk_call (cl_idx c) (cl_imm c) "" (cl_returns c) (cl_block c) (cl_map_name c) (cl_map_id c) (cl_map_key c) (cl_target c).
Definition forget (f : ProgramFacts) : ProgramFacts :=
  mk_facts (f_object_path f) (f_entry f) (f_n_instrs f) (f_n_bytes f) (f_n_blocks f) (f_back_edges f)
    (map (λ m, set_map_facts (map forget_helper (mf_lookups m)) (mf_reads m) (mf_written m) (mf_targets m) (mf_transfers m) m) (f_maps f))
    (f_blocks f) (f_exits f) (f_helpers f) (f_effects f) (f_pkt_reads f) (f_var_off_reads f) (f_rodata f) (f_bss f) (f_progs f).

Definition json_report (f : res ProgramFacts) : res json := f ← f; Ok (to_json f true).

Lemma to_json_faithful_witness : ∃ f, facts (λ _, call_elf) 9 1000 run_program = Ok f ∧
  Forall2 same_map (f_maps f) (f_maps (forget f)) ∧ length (f_maps f) = 1%nat ∧ f_blocks f = f_blocks (forget f).
Proof.
  destruct (run_test (facts (λ _, call_elf) 9 1000 run_program) (λ f, bool_decide (length (f_maps f) = 1%nat)))
    as (f & E & Hf%bool_decide_eq_true); [vm_compute; reflexivity|].
  assert (json_report (facts (λ _, call_elf) 9 1000 run_program) =
          json_report (forget <$> facts (λ _, call_elf) 9 1000 run_program)) as HJ by (vm_compute; reflexivity).
  rewrite E in HJ.
  pose proof (f_equal (λ r, match r with Ok x => x | Err _ => JNull end) HJ : to_json f true = to_json (forget f) true) as HE.
  destruct (to_json_faithful f (forget f) HE) as [Hm Hb].
  exists f. split; [exact E|]. split; [exact Hm|]. split; [exact Hf|]. exact (f_equal f_blocks Hb).
Defined.
