(* ===== verification/FactsAtoms.v ===== *)
(** The atoms offered to the user ([report/facts.py], [Read.atom] and [Call.atom]) are
    atoms of the specification language ([verify/spec.py]): the parser accepts each of
    them in its block, and reads it as a statement about the call it was offered for, or
    about the bytes read: of a map, as the last read of the block has them. At the end,
    blocks and a program with the atoms offered for them. *)

From stdpp Require Import relations.
From S2P Require Import Prelude Constants Instr Link Expr Record Encode Action Block Prune PruneSound Slice.
From S2P Require Import Pystr Spec Loader Program ProgramSound ProgramExamples Text Facts Scaffold.
From S2P Require Import CallRecords CallIndex.

Local Open Scope string_scope.
Local Open Scope Z_scope.

(** ** Tables *)

(** The name of a field is the field's, and the name of a helper the helper's. *)
Lemma field_name_field off size f : field_name off size = Some f → pget PROTOCOL_FIELDS f = Some (off, size).
Proof.
  intros Hf%pget_elem.
  assert (Forall (λ x : Z * Z * string, pget PROTOCOL_FIELDS x.2 = Some x.1) _FIELD_NAME) as Ha
    by (apply (bool_decide_unpack _); vm_compute; exact I).
  by apply (proj1 (Forall_forall _ _) Ha _ Hf).
Qed.

Lemma helper_name_helper imm : imm ∈ map snd HELPER_IMM → pget HELPER_IMM (helper_name imm) = Some imm.
Proof.
  assert (Forall (λ x : Z, pget HELPER_IMM (helper_name x) = Some x) (map snd HELPER_IMM)) as Ha
    by (apply (bool_decide_unpack _); vm_compute; exact I).
  apply (proj1 (Forall_forall _ _) Ha).
Qed.

(** ** The value of a placeholder *)

Lemma zero_bytes n : 0 <= n → _parse_val_bytes (JInt 0) n = Ok (replicate (Z.to_nat n) 0).
Proof.
  intros Hn. unfold _parse_val_bytes, to_bytes_big. rewrite (proj2 (Z.ltb_ge n 0)) by lia.
  assert (0 < 2 ^ (8 * n)) as Hp by lia. rewrite (proj2 (Z.leb_gt _ 0)) by lia. simpl. f_equal.
  assert (∀ k, le_bytes k 0 = replicate k 0) as ->.
  { induction k as [|k IH]; [done|]. cbn [le_bytes replicate]. by rewrite Z.mod_0_l, Z.div_0_l, IH by lia. }
  clear Hn Hp. induction (Z.to_nat n) as [|k IH]; [done|]. simpl. rewrite IH. by rewrite <- replicate_cons_app.
Qed.

Lemma zero_int n : 0 <= n → _parse_multibyte_int (JInt 0) n = Ok 0.
Proof.
  intros Hn. unfold _parse_multibyte_int. rewrite zero_bytes by done. cbn [mbind res_bind].
  induction (Z.to_nat n) as [|k IH]; [done|]. unfold py_bytes in *. simpl in *.
  destruct (forallb _ _); [|done]. injection IH as E. simpl. by rewrite E.
Qed.

(** ** The sources of a read atom *)

(** [v] is a value read of the map, with the byte at [j]. *)
Definition covers (map_id : option Z) (j : Z) (v : val) : Prop :=
  ∃ o mv, v = VMap o mv ∧ mv_map_id mv = map_id ∧ mv_off mv <= j < mv_off mv + mv_size mv.

(** Nothing read after the [k]-th value has that byte. *)
Definition last_to_read (S : list val) (map_id : option Z) (k : nat) (j : Z) : Prop :=
  ∀ k' v, (k < k')%nat → S !! k' = Some v → ¬ covers map_id j v.

(** The byte of the map at [j], part of the last value with it the block read. *)
Definition part_of (S : list val) (map_id : option Z) (p : val * Z) (j : Z) : Prop :=
  ∃ k, S !! k = Some p.1 ∧ last_to_read S map_id k j ∧
    ∃ o mv, p.1 = VMap o mv ∧ mv_map_id mv = map_id ∧ mv_off mv + p.2 = j ∧ 0 <= p.2 < mv_size mv.

Lemma part_unique S map_id p q j : part_of S map_id p j → part_of S map_id q j → p = q.
Proof.
  intros (k & Hk & Hlk & o & mv & Hp & Hm & Hj & Hr) (l & Hl & Hll & o' & mv' & Hq & Hm' & Hj' & Hr').
  destruct (Nat.lt_trichotomy k l) as [Hlt | [-> | Hlt]].
  - exfalso. apply (Hlk l _ Hlt Hl). exists o', mv'. split_and!; [done|done|lia|lia].
  - rewrite Hk in Hl. injection Hl as Hpq. destruct p, q. simpl in *. simplify_eq. f_equal. lia.
  - exfalso. apply (Hll k _ Hlt Hk). exists o, mv. split_and!; [done|done|lia|lia].
Qed.

Lemma fill_get (v : val) off l (out : list (Z * (val * Z))) j :
  pget (fold_left (λ d i, pset d (off + i) (v, i)) l out) j =
  if decide (j - off ∈ l) then Some (v, j - off) else pget out j.
Proof.
  revert out. induction l as [|x l IH]; intros out; [by rewrite decide_False by apply not_elem_of_nil|].
  cbn [fold_left]. rewrite IH, pget_pset. destruct (decide (j - off ∈ l)) as [Hin | Hin].
  - by rewrite decide_True by (by right).
  - destruct (decide (j = off + x)) as [-> | Hne].
    + rewrite decide_True by (apply elem_of_cons; left; lia). do 2 f_equal. lia.
    + rewrite decide_False; [done|]. intros [? | ?]%elem_of_cons; [lia|done].
Qed.

Lemma byte_index_get S map_id j :
  (∀ p, pget (_byte_index S 1 map_id) j = Some p → part_of S map_id p j) ∧
  ∀ o mv, VMap o mv ∈ S → mv_map_id mv = map_id → mv_off mv <= j < mv_off mv + mv_size mv →
    is_Some (pget (_byte_index S 1 map_id) j).
Proof.
  unfold _byte_index.
  apply (fold_left_ind _ (λ pre d, (∀ p, pget d j = Some p → part_of pre map_id p j) ∧
    ∀ o mv, VMap o mv ∈ pre → mv_map_id mv = map_id → mv_off mv <= j < mv_off mv + mv_size mv →
      is_Some (pget d j))).
  { split; [done|]. by intros ? ? ?%elem_of_nil. }
  intros pre v d _ [IH1 IH2].
  assert (∀ k w, (pre ++ [v])%list !! k = Some w → pre !! k = Some w ∨ k = List.length pre ∧ w = v) as Hsnoc
    by (intros k w [[_ ?] | [? ?]]%lookup_snoc_Some; auto).
  assert (∀ p, ¬ covers map_id j v → pget d j = Some p → part_of (pre ++ [v])%list map_id p j) as Hold.
  { intros p Hv Hp. destruct (IH1 p Hp) as (k & Hk & Hl & Hr). exists k. split; [by apply lookup_app_l_Some|].
    split; [|done]. intros k' w Hlt [Hw | [_ ->]]%Hsnoc; [by eapply Hl|done]. }
  assert ((∃ o mv, v = VMap o mv ∧ mv_map_id mv = map_id) ∨ ¬ ∃ o mv, v = VMap o mv ∧ mv_map_id mv = map_id)
    as [(o & mv & -> & Hm) | Hno].
  { destruct v as [| | | | | | | | |o mv| | | | | | | |]; try (right; by intros (? & ? & ? & ?)).
    destruct (decide (mv_map_id mv = map_id)); [left; eauto|right; naive_solver]. }
  - simpl. rewrite bool_decide_eq_true_2 by done. simpl. split.
    + intros p. rewrite fill_get. case_decide as Hj.
      * intros [= <-]. apply zrange_elem in Hj. exists (List.length pre). split; [by apply list_lookup_middle|]. split.
        { intros k w Hlt [Hw | [-> _]]%Hsnoc; [apply lookup_lt_Some in Hw|]; lia. }
        exists o, mv. split_and!; simpl; [done|done|lia|lia|lia].
      * apply Hold. intros (o' & mv' & [= <- <-] & _ & Hr). apply Hj, zrange_elem. lia.
    + intros o' mv' Hin Hm' Hj. rewrite fill_get. case_decide as Hd; [eauto|].
      apply elem_of_app in Hin as [Hin | [= -> ->]%list_elem_of_singleton]; [by eapply IH2|].
      exfalso. apply Hd, zrange_elem. lia.
  - assert (index_value 1 map_id d v = d) as ->.
    { destruct v; try done. simpl. rewrite bool_decide_eq_false_2; [done|]. naive_solver. }
    split; [intros p; apply Hold; intros (o & mv & ? & ? & _); naive_solver|].
    intros o mv [Hin | <-%list_elem_of_singleton]%elem_of_app Hm Hj; [by eapply IH2|naive_solver].
Qed.

Lemma all_some_Forall2 {A B} (f : A → option B) (Q : B → A → Prop) l :
  Forall (λ j, ∃ p, f j = Some p ∧ Q p j) l → ∃ ps, all_some (map f l) = Some ps ∧ Forall2 Q ps l.
Proof.
  induction 1 as [|j l (p & Hp & Hq) _ (ps & Hps & IH)]; [by exists []|]. exists (p :: ps). simpl.
  rewrite Hp, Hps. split; [done|by constructor].
Qed.

Lemma assemble_read S o mv : VMap o mv ∈ S → ∃ parts,
  _assemble S 1 (mv_off mv) (mv_size mv) (mv_map_id mv) = Some parts ∧
  Forall2 (part_of S (mv_map_id mv)) parts (zrange (mv_off mv) (mv_off mv + mv_size mv)).
Proof.
  intros Hin. apply all_some_Forall2, Forall_forall. intros j Hj%zrange_elem.
  destruct (byte_index_get S (mv_map_id mv) j) as [H1 H2]. destruct (H2 o mv Hin eq_refl Hj) as [p Hp]. eauto.
Qed.

(** ** The facts of a block *)

Lemma sort_by_elem {A} (f : A → Z) (l : list A) x : x ∈ sort_by f l ↔ x ∈ l.
Proof.
  assert (∀ y (l : list A), insert_by f y l ≡ₚ y :: l) as Hins.
  { intros y. induction l0 as [|z l0 IH]; simpl; [done|]. destruct (f z <=? f y); [|done].
    rewrite IH. apply Permutation_swap. }
  assert (sort_by f l ≡ₚ l) as ->; [|done].
  apply (fold_left_ind _ (λ pre d, d ≡ₚ pre)); [done|].
  intros pre y d _ IH. rewrite Hins, IH. apply Permutation_cons_append.
Qed.

Lemma elem_mjoin_map {A B} (f : A → list B) l x : x ∈ mjoin (map f l) ↔ ∃ y, y ∈ l ∧ x ∈ f y.
Proof.
  rewrite list_elem_of_join. split.
  - intros (k & Hx & (y & -> & Hy)%list_elem_of_fmap). eauto.
  - intros (y & Hy & Hx). exists (f y). split; [done|]. by apply list_elem_of_fmap_2.
Qed.

Lemma block_fact_elems names b bf : _block_fact names b = Ok bf → bf_num bf = num b ∧
  (∀ r, r ∈ bf_reads bf → ∃ v, v ∈ sources b ∧ r ∈ source_read names v) ∧
  ∀ c, c ∈ bf_calls bf → (∃ v, v ∈ sources b ∧ c ∈ source_call names (num b) v) ∨
                         (∃ a, a ∈ actions b ∧ c ∈ action_call names (num b) a).
Proof.
  intros HE. unfold _block_fact in HE. apply bind_Ok in HE as (ret & _ & HE). apply bind_Ok in HE as (cnd & _ & HE).
  apply bind_Ok in HE as (txt & _ & [= <-]). split; [done|]. cbn [bf_reads bf_calls]. split.
  - by intros r Hr%sort_by_elem%elem_mjoin_map.
  - intros c Hc%sort_by_elem. apply elem_of_app in Hc as [Hc%elem_mjoin_map | Hc%elem_mjoin_map]; auto.
Qed.

(** Every map has a name, of its own. *)
Definition named (maps : list map_info) : Prop :=
  (∀ m, m ∈ maps → ∃ a s, mi_name m = Some (String a s)) ∧
  ∀ m m', m ∈ maps → m' ∈ maps → mi_name m = mi_name m' → mi_id m = mi_id m'.

Lemma map_names_of maps i n : named maps → pget (map_names maps) i = Some n →
  ∃ m, m ∈ maps ∧ mi_id m = i ∧ mi_name m = Some n.
Proof.
  intros [Hname _]. unfold map_names.
  enough (∀ pre (d : names_t), (∀ m, m ∈ pre → m ∈ maps) → pget d i = Some n →
    d = fold_left (λ d m, pset d (mi_id m)
      (match mi_name m with Some ((String _ _) as n) => n | _ => "map" +:+ pretty (mi_id m) end)) pre [] →
    ∃ m, m ∈ pre ∧ mi_id m = i ∧ mi_name m = Some n) as H.
  { intros Hp. destruct (H maps _ ltac:(auto) Hp eq_refl) as (m & ? & ? & ?). eauto. }
  intros pre d Hsub Hp ->. revert Hp.
  induction pre as [|m pre IH] using rev_ind; [done|]. rewrite fold_left_app. simpl. rewrite pget_pset.
  case_decide as Hi.
  - destruct (Hname m) as (a & s & Hm); [apply Hsub, elem_of_app; right; left|]. rewrite Hm. intros [= <-].
    exists m. split; [apply elem_of_app; right; left|done].
  - intros Hp. destruct IH as (m' & Hin & ? & ?); [|done|].
    + intros x Hx. apply Hsub, elem_of_app. by left.
    + exists m'. split; [apply elem_of_app; by left|done].
Qed.

Lemma resolve_name maps i n : named maps → pget (map_names maps) i = Some n →
  ∃ m, _resolve_map (JStr n) (Some maps) = Ok m ∧ mi_id m = i.
Proof.
  intros Hn Hp. destruct (map_names_of _ _ _ Hn Hp) as (m & Hm & <- & Hname).
  unfold _resolve_map. cbn [of_option mbind res_bind].
  destruct (List.find _ maps) as [m'|] eqn:EF.
  - exists m'. split; [done|]. apply find_some in EF as [Hin Heq]. simpl in Heq.
    destruct (mi_name m') as [n'|] eqn:En'; [|done]. apply String.eqb_eq in Heq as <-.
    apply (proj2 Hn); [by apply list_elem_of_In|done|by rewrite En', Hname].
  - exfalso. pose proof (find_none _ _ EF m ltac:(by apply list_elem_of_In)) as Hf. simpl in Hf.
    by rewrite Hname, String.eqb_refl in Hf.
Qed.

(** ** The theorem *)

(** A packet read's atom is about its bytes of the packet. A map read's is about, byte by
    byte, the last value the block read there: its own where no later one of the block
    has a byte of it. *)
Definition means_read (names : names_t) (b : Block) (r : Read) (a : atom) : Prop :=
  match rd_kind r with
  | ReadPkt => a = PktAtom (rd_off r) (rd_size r) (replicate (Z.to_nat (rd_size r)) 0) OEq
  | ReadMap => ∃ parts, a = ReadAtom parts OEq 0 (rd_size r) 1 (rd_off r) (rd_map_id r) ∧
      Forall2 (part_of (sources b) (rd_map_id r)) parts (zrange (rd_off r) (rd_off r + rd_size r)) ∧
      ∀ k v, sources b !! k = Some v → r ∈ source_read names v →
        (∀ j, rd_off r <= j < rd_off r + rd_size r → last_to_read (sources b) (rd_map_id r) k j) →
        parts = map (λ i, (v, i)) (zrange 0 (rd_size r))
  end.

Lemma map_read_source names v r : r ∈ source_read names v → rd_kind r = ReadMap →
  ∃ o mv, v = VMap o mv ∧ rd_off r = mv_off mv ∧ rd_size r = mv_size mv ∧ rd_map_id r = mv_map_id mv.
Proof.
  intros Hr Hk. destruct v; cbn [source_read] in Hr; try (by apply elem_of_nil in Hr);
    apply list_elem_of_singleton in Hr as ->; [done|eauto 6].
Qed.

Lemma own_parts S map_id k o mv parts : S !! k = Some (VMap o mv) → mv_map_id mv = map_id →
  (∀ j, mv_off mv <= j < mv_off mv + mv_size mv → last_to_read S map_id k j) →
  Forall2 (part_of S map_id) parts (zrange (mv_off mv) (mv_off mv + mv_size mv)) →
  parts = map (λ i, (VMap o mv, i)) (zrange 0 (mv_size mv)).
Proof.
  intros Hk Hm Hlast HF. apply list_eq. intros i.
  assert (map (λ i, (VMap o mv, i)) (zrange 0 (mv_size mv)) !! i =
    (λ j, (VMap o mv, j - mv_off mv)) <$> zrange (mv_off mv) (mv_off mv + mv_size mv) !! i) as ->.
  { unfold zrange. rewrite list_lookup_fmap, Z.sub_0_r, Z.add_simpl_l.
    destruct (decide (Z.of_nat i < mv_size mv)) as [Hi | Hi].
    - rewrite !lookup_seqZ_lt by done. simpl. do 2 f_equal. lia.
    - by rewrite !lookup_seqZ_ge by lia. }
  destruct (zrange _ _ !! i) as [j|] eqn:Ej; simpl.
  - destruct (Forall2_lookup_r _ _ _ _ _ HF Ej) as (p & -> & Hp). f_equal. apply (part_unique _ _ _ _ _ Hp).
    apply list_elem_of_lookup_2, zrange_elem in Ej. exists k. split; [done|]. split; [by apply Hlast|].
    exists o, mv. split_and!; simpl; [done|done|lia|lia|lia].
  - apply lookup_ge_None in Ej. apply lookup_ge_None. by rewrite (Forall2_length _ _ _ HF).
Qed.

Definition means_call (c : Call) (a : atom) : Prop :=
  ∃ size kind, a = HelperAtom (cl_imm c) (cl_idx c) size kind ∧
  match cl_returns c with
  | RetScalar => ∃ v, kind = HScalar v OEq 0
  | RetPointer => ∃ key key_id, kind = HMapNull (cl_map_id c) key (Some key_id) true
  | RetTransfer => False
  end.

Section offered.
Context (maps : list map_info) (instrs : list instr) (blocks : list Block) (n : Z) (b : Block) (bf : BlockFact).
Hypothesis Hmaps : named maps.
Hypothesis Hcalls : one_record instrs blocks.
Hypothesis Hn : 0 <= n.
Hypothesis Hb : blocks !! Z.to_nat n = Some b.
Hypothesis Hbf : _block_fact (map_names maps) b = Ok bf.

Notation parse := (_parse_atom (Some maps) (Some (build_call_index blocks)) (Some n) (Some blocks)).

Lemma parse_read_here A : _parse_read_atom A (Some maps) (Some n) (Some blocks) = read_target A (Some maps) (sources b).
Proof.
  pose proof (lookup_lt_Some _ _ _ Hb) as Hlt. unfold _parse_read_atom. cbn [of_option mbind res_bind].
  rewrite (proj2 (Z.leb_le 0 n)), (proj2 (Z.ltb_lt n _)) by lia. cbn [andb guard_or mbind res_bind].
  unfold py_index. rewrite (proj2 (Z.ltb_ge n 0)) by lia. cbv zeta.
  rewrite (proj2 (Z.leb_gt _ n)), (proj2 (Z.ltb_ge n 0)) by lia. cbn [orb]. by rewrite Hb.
Qed.

Lemma read_accepted r x : r ∈ bf_reads bf → 0 <= rd_size r → (rd_kind r = ReadMap → is_Some (rd_map_name r)) →
  read_atom r = Some x → ∃ a, parse x = Ok a ∧ means_read (map_names maps) b r a.
Proof.
  intros Hr Hs Hnm Hx. destruct (block_fact_elems _ _ _ Hbf) as (_ & Hreads & _).
  destruct (Hreads r Hr) as (v & Hv & Hrv). unfold read_atom in Hx. unfold means_read.
  destruct (rd_var_off r) eqn:Ev; [done|]. injection Hx as <-.
  destruct v; cbn [source_read] in Hrv; try (by apply elem_of_nil in Hrv); apply list_elem_of_singleton in Hrv as ->;
    cbn [rd_kind rd_idx rd_off rd_size rd_var_off rd_map_name rd_map_id rd_field] in *.
  - eexists. split; [|done]. destruct (field_name _ _) as [f|] eqn:Ef.
    + assert (table_get PROTOCOL_FIELDS (JStr f) = Ok (Some (pv_off p, pv_size p))) as Ht
        by (unfold table_get; by rewrite (field_name_field _ _ _ Ef)).
      transitivity (os ← (t ← table_get PROTOCOL_FIELDS (JStr f); of_option (spec_err "unknown field") t);
        data ← _parse_val_bytes (JInt 0) os.2; Ok (PktAtom os.1 os.2 data OEq)); [reflexivity|].
      rewrite Ht. cbn [of_option mbind res_bind fst snd]. by rewrite zero_bytes.
    + transitivity (data ← _parse_val_bytes (JInt 0) (pv_size p); Ok (PktAtom (pv_off p) (pv_size p) data OEq));
        [reflexivity|]. by rewrite zero_bytes.
  - destruct (Hnm eq_refl) as [name Hname]. rewrite Hname. unfold name_of in Hname.
    destruct (mv_map_id m) as [i|] eqn:Ei; [|done]. simpl in Hname.
    destruct (resolve_name _ _ _ Hmaps Hname) as (mi & Hres & Hid).
    destruct (assemble_read (sources b) o m Hv) as (parts & Hparts & Hall). rewrite Ei in Hparts, Hall.
    exists (ReadAtom parts OEq 0 (mv_size m) 1 (mv_off m) (Some i)). split.
    2: { exists parts. split; [done|]. split; [done|]. intros k v Hk Hrv Hlast.
         destruct (map_read_source _ _ _ Hrv eq_refl) as (o' & mv & -> & E1 & E2 & E3). cbn [rd_off rd_size rd_map_id] in *.
         rewrite E1, E2 in Hall, Hlast. rewrite E2. by eapply own_parts. }
    set (A := [("read", JObj [("map", JStr name); ("offset", JInt (mv_off m)); ("size", JInt (mv_size m))]);
               ("value", JInt 0); ("op", JStr "eq")]).
    transitivity (read_target A (Some maps) (sources b)); [exact (parse_read_here A)|].
    transitivity (rom ← (mi ← _resolve_map (JStr name) (Some maps); Ok (1, mv_off m, Some (mi_id mi)));
      let '(region, off, map_id) := rom in
      parts ← of_option (spec_err "block never read some byte") (_assemble (sources b) region off (mv_size m) map_id);
      target ← _parse_multibyte_int (JInt 0) (mv_size m);
      Ok (ReadAtom parts OEq target (mv_size m) region off map_id)); [reflexivity|].
    rewrite Hres. cbn [mbind res_bind]. rewrite Hid, Hparts. cbn [of_option mbind res_bind]. by rewrite zero_int.
Qed.

(** The record a call fact was made of. *)
Lemma call_record c : c ∈ bf_calls bf → ∃ r, recorded blocks (cl_idx c) r ∧ cl_imm c = rec_imm r ∧
  cl_helper c = helper_name (rec_imm r) ∧ (∃ ret, rec_ret r = Some ret ∧ cl_returns c = returns_of ret) ∧
  (cl_returns c = RetPointer → ∃ i key key_id,
     r = inl (mk_action i (cl_idx c) (MapLookup (cl_map_id c) key key_id))).
Proof.
  intros Hc. destruct (block_fact_elems _ _ _ Hbf) as (_ & _ & Hcs).
  assert (b ∈ blocks) as Hin by (by eapply list_elem_of_lookup_2).
  destruct (Hcs c Hc) as [(v & Hv & Hcv) | (a & Ha & Hca)].
  - destruct v as [| | | | | | |o f| | | | | | | | | |]; try (by apply elem_of_nil in Hcv).
    apply list_elem_of_singleton in Hcv as ->. exists (inr (VFunc o f)). split.
    { exists b. split; [done|]. unfold records. rewrite elem_of_app. right. apply list_elem_of_omap. by exists (VFunc o f). }
    split; [done|]. split; [done|]. split; [by exists "scalar"|done].
  - unfold action_call in Hca. destruct (action_ret a) as [ret|] eqn:Er; [|by apply elem_of_nil in Hca].
    apply list_elem_of_singleton in Hca as ->. exists (inl a).
    split.
    { exists b. split; [done|]. unfold records. rewrite elem_of_app. left. apply list_elem_of_omap. exists a.
      split; [done|]. unfold action_record. by rewrite Er, bool_decide_eq_true_2 by eauto. }
    split; [done|]. split; [done|]. split; [by exists ret|]. cbn [cl_returns cl_idx cl_map_id]. intros Hp.
    destruct a as [i idx k]. unfold action_ret in Er. cbn [a_kind] in Er. destruct k; simplify_eq; try done.
    by exists i, map_key, map_key_id.
Qed.

Lemma helper_here A i r : pget A "idx" = Some (JInt i) → pget A "helper" = Some (JStr (helper_name (rec_imm r))) →
  pget (build_call_index blocks) i = Some r → rec_imm r ∈ map snd HELPER_IMM → rec_ret r ≠ Some "transfer" →
  _parse_helper_atom A (Some (build_call_index blocks)) =
  if bool_decide (rec_ret r = Some "scalar") then parse_scalar_helper A r i else parse_pointer_helper A r i.
Proof.
  intros Hi Hh Hr Hk Ht. unfold _parse_helper_atom, item. rewrite Hi. cbn [of_option mbind res_bind _parse_int].
  rewrite Hr. cbn [of_option mbind res_bind]. rewrite (bool_decide_eq_false_2 (rec_ret r = Some "transfer")) by done. cbn [negb guard_or mbind res_bind].
  unfold check_helper, has, pmem, item. rewrite Hh, (bool_decide_eq_true_2 (is_Some (Some (JStr (helper_name (rec_imm r)))))) by eauto.
  cbn [of_option mbind res_bind table_get]. rewrite helper_name_helper by done. cbn [of_option mbind res_bind].
  by rewrite Z.eqb_refl.
Qed.

Lemma call_accepted c x : c ∈ bf_calls bf → call_atom c = Some x → ∃ a, parse x = Ok a ∧ means_call c a.
Proof.
  intros Hc Hx. destruct (call_record c Hc) as (r & Hr & Hi & Hh & (ret & Hret & Hrt) & Hp).
  pose proof (proj2 (index_exact _ _ _ _ Hcalls) Hr) as Hg. destruct (proj1 Hcalls _ _ Hr) as [Hknown _].
  unfold call_atom in Hx. unfold means_call. rewrite Hh in Hx. rewrite Hi.
  destruct (cl_returns c) eqn:Ec; [| |done]; injection Hx as <-.
  - assert (rec_ret r = Some "scalar") as Hs.
    { rewrite Hret. unfold returns_of in Hrt. destruct (bool_decide (ret = "transfer")); [done|].
      case_bool_decide; [by subst|done]. }
    eexists. split; [|eexists _, _; split; [reflexivity|eauto]].
    transitivity (_parse_helper_atom [("idx", JInt (cl_idx c)); ("helper", JStr (helper_name (rec_imm r)));
      ("op", JStr "eq"); ("value", JInt 0)] (Some (build_call_index blocks))); [reflexivity|].
    rewrite (helper_here _ (cl_idx c) r) by (done || (by rewrite Hs) || eauto).
    by rewrite bool_decide_eq_true_2 by done.
  - destruct (Hp eq_refl) as (i & key & key_id & ->).
    eexists. split; [|eexists _, _; split; [reflexivity|eauto]].
    transitivity (_parse_helper_atom [("idx", JInt (cl_idx c)); ("helper", JStr (helper_name 1));
      ("returns", JStr "non_null")] (Some (build_call_index blocks))); [reflexivity|].
    rewrite (helper_here _ (cl_idx c) (inl (mk_action i (cl_idx c) (MapLookup (cl_map_id c) key key_id))));
      [done|done|done|done|exact Hknown|done].
Qed.

(** *** The block's condition, turned on *)

(** The condition the skeleton gives the block: every lookup finds its entry. *)
Definition all_of (atoms : list atom) : CondNode :=
  match atoms with [a] => CLeaf a | _ => CAnd (map CLeaf atoms) end.
Definition lookups : list Call := filter (λ c, cl_returns c = RetPointer) (bf_calls bf).

Lemma pointers_accepted : ∃ atoms, Forall2 means_call lookups atoms ∧
  Forall2 (λ x a, parse x = Ok a ∧ ∃ e1 e2 l, x = JObj (e1 :: e2 :: l)) (pointer_atoms bf) atoms.
Proof.
  unfold pointer_atoms. fold lookups.
  assert (∀ c, c ∈ lookups → c ∈ bf_calls bf ∧ cl_returns c = RetPointer) as Hl
    by (intros c Hc; apply list_elem_of_filter in Hc as [? ?]; done).
  induction lookups as [|c l IH]; [by exists []|].
  destruct IH as (atoms & IH1 & IH2); [intros y Hy; apply Hl; by right|].
  destruct (Hl c ltac:(left)) as [Hin Hret].
  assert (∃ e1 e2 l, call_atom c = Some (JObj (e1 :: e2 :: l))) as (e1 & e2 & l' & Hat)
    by (unfold call_atom; rewrite Hret; eauto).
  destruct (call_accepted c _ Hin Hat) as (a & Ha & Hm). exists (a :: atoms). simpl. rewrite Hat.
  split; constructor; eauto 6.
Qed.

Notation parse_c := (_parse_cond (Some maps) (Some (build_call_index blocks)) (Some n) (Some blocks)).

Lemma parse_and x l cs : Forall2 (λ x c, parse_c x = Ok c) (x :: l) cs →
  parse_c (JObj [("and", JList (x :: l))]) = Ok (CAnd cs).
Proof.
  intros H. inversion H as [|? c ? cs' Hx Hl]; subst. cbn -[_parse_atom]. rewrite Hx. cbn [mbind res_bind].
  lazymatch goal with |- context [?g l] => assert (g l = Ok cs') as ->; [|done] end.
  clear H Hx. induction Hl as [|y c' ys cs Hy _ IH]; [done|]. rewrite Hy. cbn [mbind res_bind]. by rewrite IH.
Qed.

Lemma parse_all_of xs atoms :
  Forall2 (λ x a, parse x = Ok a ∧ ∃ e1 e2 l, x = JObj (e1 :: e2 :: l)) xs atoms →
  parse_c (match xs with [] => no_cond | [x] => x | _ => JObj [("and", JList xs)] end) = Ok (all_of atoms).
Proof.
  intros H. destruct H as [|x a xs atoms [Hx (e1 & e2 & l & ->)] H]; [done|].
  assert (∀ e1 e2 l a, parse (JObj (e1 :: e2 :: l)) = Ok a →
    parse_c (JObj (e1 :: e2 :: l)) = Ok (CLeaf a)) as Hleaf by (intros ? ? ? ? Hp; destruct e0; cbn [_parse_cond]; by rewrite Hp).
  apply Hleaf in Hx. destruct H as [|y a' ys atoms [Hy (f1 & f2 & k & ->)] H]; [done|].
  apply Hleaf in Hy. apply parse_and. constructor; [done|]. constructor; [done|].
  induction H as [|z c zs cs [Hz (g1 & g2 & q & ->)] _ IH]; constructor; [by apply Hleaf|done].
Qed.

Lemma pget_skip {V} (d d' : list (string * V)) k : pget d k = None → pget (d ++ d') k = pget d' k.
Proof. induction d as [|[k' v] d IH]; [done|]. simpl. case_decide; [done|]. exact IH. Qed.

Ltac skip_part := rewrite pget_skip by (unfold entry_if; repeat case_match; reflexivity).

(** What the parser looks for in the condition of a block. *)
Lemma condition_members f : ∃ d, _block_condition f = JObj d ∧ pget d "block" = Some (JInt (bf_num f)) ∧
  pget d "assert" = Some (JStr "exists") ∧
  pget d "cond" = Some (match pointer_atoms f with [] => no_cond | [x] => x | _ => JObj [("and", JList (pointer_atoms f))] end).
Proof.
  eexists. split; [reflexivity|]. cbn [mjoin list_join]. split; [reflexivity|].
  split; do 10 skip_part; [reflexivity|]. skip_part. by destruct (pointer_atoms f) as [|? []].
Qed.

Lemma condition_on f name : num b = n → bf_num f = bf_num bf → pointer_atoms f = pointer_atoms bf →
  ∃ atoms, Forall2 means_call lookups atoms ∧
    _parse_block_condition name (_block_condition f) (Some maps) (Some blocks) (Some (build_call_index blocks)) =
    Ok (mk_bc name n false (all_of atoms)).
Proof.
  intros Hnum Hf Hp. destruct pointers_accepted as (atoms & Hm & Ha). exists atoms. split; [done|].
  destruct (condition_members f) as (d & -> & Hblock & Hassert & Hcond). pose proof (lookup_lt_Some _ _ _ Hb) as Hlt.
  destruct (block_fact_elems _ _ _ Hbf) as (Hbn & _). rewrite Hf, Hbn, Hnum in Hblock. rewrite Hp in Hcond.
  unfold _parse_block_condition, parse_mode, json_in, json_item, json_get_or, json_get, pmem.
  rewrite Hblock, Hassert, Hcond, bool_decide_eq_true_2 by eauto. cbn [of_option guard_or mbind res_bind json_int].
  rewrite (proj2 (Z.leb_le 0 n)), (proj2 (Z.ltb_lt n _)) by lia. cbn [andb guard_or mbind res_bind].
  cbn -[_parse_cond pointer_atoms no_cond]. by rewrite (parse_all_of _ atoms).
Qed.
End offered.

(** C38 What the reports offer of an analysed program, the specification language accepts. The maps have names of
    their own. The atom shown for a read, of a size that is not negative and, in a map, of one with a name in the table,
    is parsed, in its block, as a statement about the bytes read: of the packet those at its offset, of a map byte by
    byte those of the last value the block read there, which are the read's own where no later read of the block has
    one of its bytes. The atom shown for a call is parsed as one about that call's result; and the condition the
    skeleton keeps for the block, once its underscore is removed, is the assertion that some path reaches the block
    and has every lookup in it hit. *)
Theorem offered_atoms open depth oid0 f main ts p0 p n b bf :
  rtc (stage_step open depth oid0) (new_program f main ts) p0 → analyze open depth oid0 p0 = Ok p →
  named (p_maps p) → 0 <= n → p_blocks p !! Z.to_nat n = Some b → _block_fact (map_names (p_maps p)) b = Ok bf →
  let parse := _parse_atom (Some (p_maps p)) (Some (p_calls p)) (Some n) (Some (p_blocks p)) in
  (∀ r x, r ∈ bf_reads bf → 0 <= rd_size r → (rd_kind r = ReadMap → is_Some (rd_map_name r)) →
     read_atom r = Some x → ∃ a, parse x = Ok a ∧ means_read (map_names (p_maps p)) b r a) ∧
  (∀ c x, c ∈ bf_calls bf → call_atom c = Some x → ∃ a, parse x = Ok a ∧ means_call c a) ∧
  ∀ f name, f = bf ∨ (∃ entry, f = set_bf_entry entry bf) → ∃ atoms,
    Forall2 means_call (filter (λ c, cl_returns c = RetPointer) (bf_calls bf)) atoms ∧
    _parse_block_condition name (_block_condition f) (Some (p_maps p)) (Some (p_blocks p)) (Some (p_calls p)) =
    Ok (mk_bc name n false (all_of atoms)).
Proof.
  intros HR HA Hm Hn Hb Hbf parse. destruct (analyzed_records _ _ _ _ _ _ _ _ HR HA) as (Hg & Hc & Hcalls).
  destruct (graph_blocks _ Hg) as (_ & _ & Hnum & _). pose proof (Hnum _ _ Hb) as Hbn. rewrite Z2Nat.id in Hbn by done.
  subst parse. rewrite Hcalls. split_and!.
  - intros r x. by eapply read_accepted.
  - intros c x. by eapply call_accepted.
  - intros g name Hf. eapply (condition_on _ _ _ n b bf); [done..| |]; by destruct Hf as [-> | [e ->]].
Qed.

(** ** Examples *)

Definition at_key : val := VNum 10 7 4 (-1).
Definition at_lookup : action := mk_action 0 3 (MapLookup (Some 0) at_key 3).
Definition at_time : val := VFunc 11 (mk_func 8 5 5 0 None VNone None 0 false).
Definition at_value : val := VMap 12 (mk_map 0 7 (Some 0) at_key (Some 3) 4 VNone 2).
Definition at_type : val := VPkt 13 (mk_pkt 0 8 12 VNone 2).
Definition at_block : Block := set_out [at_lookup] [at_time; at_value; at_type] (new_Block 0 0 9).
Definition at_maps : list map_info := [mk_map_info 0 (Some "flows") 1 4 8 16 0].
Definition at_names : names_t := map_names at_maps.

(** The facts of a block offered as atoms, read by the parser in that block. *)
Definition offered (maps : list map_info) (b : Block) : list (res atom) :=
  match _block_fact (map_names maps) b with
  | Ok bf => map (_parse_atom (Some maps) (Some (build_call_index [b])) (Some 0) (Some [b])) (atoms_of bf)
  | Err _ => []
  end.

Example offered_atoms_parsed : offered at_maps at_block =
  [Ok (HelperAtom 1 3 8 (HMapNull (Some 0) at_key (Some 3) true)); Ok (HelperAtom 5 5 8 (HScalar at_time OEq 0));
   Ok (ReadAtom [(at_value, 0); (at_value, 1)] OEq 0 2 1 4 (Some 0)); Ok (PktAtom 12 2 [0; 0] OEq)].
Proof. vm_compute. reflexivity. Qed.

(** A map without a name is offered under a name nothing resolves. *)
Example unnamed_map : offered [mk_map_info 0 None 1 4 8 16 0] (set_out [] [at_value] at_block) =
  [Err (SpecError "map not found")].
Proof. vm_compute. reflexivity. Qed.

(** Of two reads of one map at one offset, under different keys, both atoms are read
    as the second. *)
Definition at_other : val := VMap 14 (mk_map 0 8 (Some 0) (VNum 15 9 4 (-1)) (Some 4) 4 VNone 2).
Example later_read_shadows : offered at_maps (set_out [] [at_value; at_other] at_block) =
  let a := Ok (ReadAtom [(at_other, 0); (at_other, 1)] OEq 0 2 1 4 (Some 0)) in [a; a].
Proof. vm_compute. reflexivity. Qed.

(** *** An analysed program *)

(** The facts of block [n] of the program of [CallIndex]. *)
Definition call_facts (p : eBPFProgram) (n : nat) : res BlockFact :=
  b ← of_option IndexError (p_blocks p !! n);
  _block_fact (map_names (p_maps p)) b.

(** What its blocks are offered: the lookup, the read of its value and the clock. *)
Example call_offered : match call_analyzed with
  | Ok p => map (λ n, match call_facts p n with
      | Ok bf => map (λ x, is_Ok (_parse_atom (Some (p_maps p)) (Some (p_calls p)) (Some (Z.of_nat n)) (Some (p_blocks p)) x))
                   (atoms_of bf)
      | Err _ => [] end) [0%nat; 1%nat]
  | Err _ => [] end = [[true]; [true; true]].
Proof. vm_compute. reflexivity. Qed.

Lemma named_one m : is_Some (mi_name m) → mi_name m ≠ Some "" → named [m].
Proof.
  intros [[|a s] Hs] Hn; [done|]. split.
  - intros m' ->%list_elem_of_singleton. eauto.
  - by intros m' m'' ->%list_elem_of_singleton ->%list_elem_of_singleton.
Qed.

(** A map read among the facts of a block, offered as an atom. *)
Definition map_reads (bf : BlockFact) : list (Read * json) :=
  omap (λ r, if match rd_kind r with ReadMap => true | ReadPkt => false end && (0 <=? rd_size r) && bool_decide (is_Some (rd_map_name r))
             then x ← read_atom r; Some (r, x) else None) (bf_reads bf).

Lemma map_read_offered bf r x : (r, x) ∈ map_reads bf →
  r ∈ bf_reads bf ∧ rd_kind r = ReadMap ∧ 0 <= rd_size r ∧ is_Some (rd_map_name r) ∧ read_atom r = Some x.
Proof.
  intros (r' & Hr & Hx)%list_elem_of_omap. destruct (_ && _) eqn:Hd; [|discriminate Hx].
  destruct (read_atom r') as [y|] eqn:Ey; [|discriminate Hx]. injection Hx as -> ->.
  rewrite !andb_true_iff, Z.leb_le, bool_decide_eq_true in Hd. destruct Hd as [[Hk ?] ?]. by destruct (rd_kind r).
Qed.

(** Its first block's condition, turned on, is the statement that the lookup hits; the atom
    of the second block's read of the entry is a statement about its bytes. *)
Lemma offered_atoms_witness : ∃ p bf bf1, call_analyzed = Ok p ∧ call_facts p 0 = Ok bf ∧ call_facts p 1 = Ok bf1 ∧
  (∃ atoms, Forall2 means_call (filter (λ c, cl_returns c = RetPointer) (bf_calls bf)) atoms ∧ length atoms = 1%nat ∧
    _parse_block_condition "b0" (_block_condition bf) (Some (p_maps p)) (Some (p_blocks p)) (Some (p_calls p)) =
    Ok (mk_bc "b0" 0 false (all_of atoms))) ∧
  ∃ b r x a, p_blocks p !! 1%nat = Some b ∧ r ∈ bf_reads bf1 ∧ rd_kind r = ReadMap ∧ read_atom r = Some x ∧
    _parse_atom (Some (p_maps p)) (Some (p_calls p)) (Some 1) (Some (p_blocks p)) x = Ok a ∧
    means_read (map_names (p_maps p)) b r a.
Proof.
  destruct (run_test call_analyzed (λ p, bool_decide (map mi_name (p_maps p) = [Some "flows"]) &&
    match call_facts p 0, call_facts p 1 with
    | Ok bf, Ok bf1 => bool_decide (length (filter (λ c, cl_returns c = RetPointer) (bf_calls bf)) = 1%nat) &&
        match map_reads bf1 with [] => false | _ => true end
    | _, _ => false end)) as (p & E & [Hm Hf]%andb_true_iff); [vm_compute; reflexivity|].
  apply bool_decide_eq_true in Hm. destruct (call_facts p 0) as [bf|] eqn:EF; [|discriminate Hf].
  destruct (call_facts p 1) as [bf1|] eqn:EF1; [|discriminate Hf].
  apply andb_true_iff in Hf as [Hf%bool_decide_eq_true Hr].
  destruct (map_reads bf1) as [|[r x] rs] eqn:Er; [discriminate Hr|].
  assert (named (p_maps p)) as Hnamed.
  { destruct (p_maps p) as [|m [|? ?]]; try discriminate Hm. injection Hm as Hm. apply named_one; rewrite Hm; by eauto. }
  destruct (map_read_offered bf1 r x) as (Hin & Hk & Hs & Hnm & Hx); [rewrite Er; left|].
  pose proof EF as EB. unfold call_facts in EB. apply bind_Ok in EB as (b & Hb & Hbf). apply of_option_Ok in Hb.
  pose proof EF1 as EB1. unfold call_facts in EB1. apply bind_Ok in EB1 as (b1 & Hb1 & Hbf1). apply of_option_Ok in Hb1.
  destruct (offered_atoms (λ _, call_elf) 9 1000 "prog.o" "main" [] run_program p 0 b bf (rtc_refl _ _) E
    Hnamed ltac:(lia) Hb Hbf) as (_ & _ & Hc).
  destruct (offered_atoms (λ _, call_elf) 9 1000 "prog.o" "main" [] run_program p 1 b1 bf1 (rtc_refl _ _) E
    Hnamed ltac:(lia) Hb1 Hbf1) as (Hreads & _).
  destruct (Hc bf "b0" (or_introl eq_refl)) as (atoms & Hall & Hp).
  destruct (Hreads r x Hin Hs (λ _, Hnm) Hx) as (a & Ha & Hmeans).
  exists p, bf, bf1. split; [exact E|]. split; [exact EF|]. split; [exact EF1|]. split.
  - exists atoms. split; [exact Hall|]. split; [|exact Hp]. rewrite <- Hf. symmetry. by eapply Forall2_length.
  - exists b1, r, x, a. split; [exact Hb1|]. split; [exact Hin|]. split; [exact Hk|]. split; [exact Hx|]. split; [exact Ha|exact Hmeans].
Defined.
